(** * WebASTParser: a shallow embedding of the lexer, parser and tree tokenizer

    The development follows the layout of the TypeScript sources:
    [utils.ts], the stream matchers, [AbstractTokenizer] with the Python and
    TypeScript lexers, the node model ([SyntaxNode] and its subclasses),
    [AbstractParser] with the Python and TypeScript detectors, and
    [ASTGenericTokenizer] with [ASTFaithfulTokenizer].

    Conventions.
    - A JavaScript string is a [string]; one character is an [ascii]
      (a code unit below 256).
    - A JavaScript number that may be negative (token indices initialised
      to -1, differences of indices) is a [Z]; lengths and array positions
      that are only ever counted upwards are [nat].
    - A method that may throw returns a [result]; the exception classes of
      the sources are the constructors of [exn]. A message that prints the
      offending values keeps its fixed part only.
    - Mutable objects are threaded explicitly; the syntax tree, whose nodes
      are shared and mutated through parent pointers, is a store of nodes
      addressed by their allocation index. *)

From Stdlib Require Import List String Ascii ZArith Lia Bool Arith PeanoNat Sorted.
Import ListNotations.
Open Scope string_scope.
Open Scope list_scope.
Open Scope Z_scope.

(* ================================================================== *)
(** ** Exceptions and results *)

Inductive exn : Type :=
| CodeParsingError (msg : string)
| CodeParserImplError (msg : string)
| Error (msg : string)
| TypeError (msg : string)
| OutOfFuel.

Inductive result (A : Type) : Type :=
| Ok (a : A)
| Throw (e : exn).
Arguments Ok {A} a.
Arguments Throw {A} e.

Definition bind {A B : Type} (m : result A) (f : A -> result B) : result B :=
  match m with
  | Ok a => f a
  | Throw e => Throw e
  end.

Notation "x <- m ;; k" := (bind m (fun x => k))
  (at level 61, m at next level, right associativity).
Notation "' p <- m ;; k" := (bind m (fun x => match x with p => k end))
  (at level 61, p pattern, m at next level, right associativity).

Definition isOk {A : Type} (m : result A) : bool :=
  match m with Ok _ => true | Throw _ => false end.

(** [try { ... } catch (e) { if (e instanceof Error) throw new
    CodeParsingError(prefix + e.message); throw e; }]: every exception class
    of the sources extends [Error]. *)
Definition exnMessage (e : exn) : string :=
  match e with
  | CodeParsingError m | CodeParserImplError m | Error m | TypeError m => m
  | OutOfFuel => EmptyString
  end.

Definition rethrowAsCodeParsingError {A : Type} (prefix : string) (m : result A) : result A :=
  match m with
  | Ok a => Ok a
  | Throw OutOfFuel => Throw OutOfFuel
  | Throw e => Throw (CodeParsingError (prefix ++ exnMessage e))
  end.

(* ================================================================== *)
(** ** JavaScript strings and arrays *)

Module Js.

Definition chars (s : string) : list ascii := list_ascii_of_string s.
Definition str (l : list ascii) : string := string_of_list_ascii l.

Definition len (s : string) : Z := Z.of_nat (String.length s).

Definition dquote : string := String (ascii_of_nat 34) EmptyString.
Definition newline : string := String (ascii_of_nat 10) EmptyString.
Definition tab : string := String (ascii_of_nat 9) EmptyString.
Definition cr : string := String (ascii_of_nat 13) EmptyString.
Definition backslash : string := String (ascii_of_nat 92) EmptyString.
Definition nl : ascii := ascii_of_nat 10.

(** [a[i]] for an array: [undefined] outside the bounds. *)
Definition nthZ {A : Type} (l : list A) (i : Z) : option A :=
  if i <? 0 then None else nth_error l (Z.to_nat i).

Definition clamp (n : Z) (s : string) : nat := Z.to_nat (Z.max 0 (Z.min n (len s))).

(** [s.substring(a, b)]: both ends are clamped to [0, s.length] and swapped
    when they come in the wrong order. *)
Definition substring (s : string) (a b : Z) : string :=
  let a' := clamp a s in
  let b' := clamp b s in
  str (firstn (Nat.max a' b' - Nat.min a' b') (skipn (Nat.min a' b') (chars s))).

(** [s.substring(a)]: up to the end of the string. *)
Definition substringFrom (s : string) (a : Z) : string := substring s a (len s).

(** [s.charAt(i)]: the empty string outside the bounds. *)
Definition charAt (s : string) (i : Z) : string :=
  if (i <? 0) || (len s <=? i) then EmptyString
  else str (firstn 1 (skipn (Z.to_nat i) (chars s))).

Fixpoint indexOfFrom (c : ascii) (l : list ascii) (i : Z) : Z :=
  match l with
  | [] => -1
  | x :: r => if Ascii.eqb x c then i else indexOfFrom c r (i + 1)
  end.

(** [s.indexOf(c)] for a one-character needle. *)
Definition indexOf (s : string) (c : ascii) : Z := indexOfFrom c (chars s) 0.

Fixpoint lastIndexOfFrom (c : ascii) (l : list ascii) (i : Z) (found : Z) : Z :=
  match l with
  | [] => found
  | x :: r => lastIndexOfFrom c r (i + 1) (if Ascii.eqb x c then i else found)
  end.

(** [s.lastIndexOf(c)] for a one-character needle. *)
Definition lastIndexOf (s : string) (c : ascii) : Z := lastIndexOfFrom c (chars s) 0 (-1).

Definition includes (s : string) (c : ascii) : bool := existsb (Ascii.eqb c) (chars s).

Definition startsWith (s p : string) : bool := String.prefix p s.

Definition endsWith (s p : string) : bool :=
  String.prefix (str (rev (chars p))) (str (rev (chars s))).

(** White space of [String.prototype.trim] among the code units below 256:
    TAB, LF, VT, FF, CR, SPACE and NBSP. *)
Definition isWhiteSpace (c : ascii) : bool :=
  let n := nat_of_ascii c in
  ((9 <=? n) && (n <=? 13))%nat || (n =? 32)%nat || (n =? 160)%nat.

Fixpoint trimStartChars (l : list ascii) : list ascii :=
  match l with
  | [] => []
  | c :: r => if isWhiteSpace c then trimStartChars r else l
  end.

Definition trim (s : string) : string :=
  str (rev (trimStartChars (rev (trimStartChars (chars s))))).

Fixpoint repeat (s : string) (n : nat) : string :=
  match n with
  | O => EmptyString
  | S k => (s ++ repeat s k)%string
  end.

(** [s.replace(/\./g, "/")]. *)
Definition replaceDots (s : string) : string :=
  str (map (fun c => if Ascii.eqb c "."%char then "/"%char else c) (chars s)).

(** [s.replace(/\\\n/g, "")]: every backslash that is followed by a line
    feed goes away together with the line feed. *)
Fixpoint removeBackslashNewline (l : list ascii) : list ascii :=
  match l with
  | [] => []
  | c :: r =>
      match r with
      | d :: r' =>
          if Ascii.eqb c (ascii_of_nat 92) && Ascii.eqb d nl
          then removeBackslashNewline r'
          else c :: removeBackslashNewline r
      | [] => [c]
      end
  end.

(** [s.replace(/\r\n|\r|\n|\t/g, " ")]: a CR LF pair becomes one space. *)
Fixpoint replaceLineBreaksAndTabs (l : list ascii) : list ascii :=
  match l with
  | [] => []
  | c :: r =>
      if Ascii.eqb c (ascii_of_nat 13) then
        match r with
        | d :: r' =>
            if Ascii.eqb d nl then " "%char :: replaceLineBreaksAndTabs r'
            else " "%char :: replaceLineBreaksAndTabs r
        | [] => [" "%char]
        end
      else if Ascii.eqb c nl || Ascii.eqb c (ascii_of_nat 9)
      then " "%char :: replaceLineBreaksAndTabs r
      else c :: replaceLineBreaksAndTabs r
  end.

(** [a.slice(from)] and [a.slice(from, to)] for indices inside the bounds
    (the callers check them before slicing). *)
Definition slice {A : Type} (l : list A) (from to : nat) : list A :=
  firstn (to - from) (skipn from l).

(** [lines.join("\n")]. *)
Fixpoint join (sep : string) (l : list string) : string :=
  match l with
  | [] => EmptyString
  | [x] => x
  | x :: r => (x ++ sep ++ join sep r)%string
  end.

End Js.

(* ================================================================== *)
(** ** utils.ts: positions and ranges *)

Record Index : Type := mkIndex { line : nat; character : nat }.

Record Range : Type := mkRange {
  start_line : nat;
  start_character : nat;
  end_line : nat;
  end_character : nat
}.

Record CharacterRange : Type := mkCharacterRange { cr_start : nat; cr_end : nat }.

Module Utils.
Local Open Scope nat_scope.

Definition rangeToStartIndex (range : Range) : Index :=
  mkIndex (start_line range) (start_character range).

Definition rangeToEndIndex (range : Range) : Index :=
  mkIndex (end_line range) (end_character range).

Definition rangeToIndexes (range : Range) : Index * Index :=
  (rangeToStartIndex range, rangeToEndIndex range).

Definition indexesToRange (start end_ : Index) : Range :=
  mkRange (line start) (character start) (line end_) (character end_).

(** [compare]: -1, 0 or 1. *)
Definition compare (index1 index2 : Index) : Z :=
  if line index1 <? line index2 then (-1)%Z
  else if line index2 <? line index1 then 1%Z
  else if character index1 <? character index2 then (-1)%Z
  else if character index2 <? character index1 then 1%Z
  else 0%Z.

(** [splitIntoLines]: [codeString.split(/\r?\n/)]. The accumulator holds the
    current line reversed; a CR directly before the LF belongs to the
    separator. *)
Fixpoint splitLinesAux (l : list ascii) (cur : list ascii) : list string :=
  match l with
  | [] => [Js.str (rev cur)]
  | c :: r =>
      if Ascii.eqb c Js.nl then
        let cur' := match cur with
                    | d :: cur'' => if Ascii.eqb d (ascii_of_nat 13) then cur'' else cur
                    | [] => cur
                    end in
        Js.str (rev cur') :: splitLinesAux r []
      else splitLinesAux r (c :: cur)
  end.

Definition splitIntoLines (codeString : string) : list string :=
  splitLinesAux (Js.chars codeString) [].

Definition getCharacter (codeLines : list string) (index : Index) : result string :=
  match nth_error codeLines (line index) with
  | None => Throw (Error "Invalid line number")
  | Some lineContent =>
      if String.length lineContent <? character index
      then Throw (Error "Invalid character position")
      else if character index =? String.length lineContent then Ok Js.newline
      else Ok (Js.charAt lineContent (Z.of_nat (character index)))
  end.

Definition getMaxRange (codeLines : list string) : Range :=
  match codeLines with
  | [] => mkRange 0 0 0 0
  | _ => mkRange 0 0 (List.length codeLines) 0
  end.

(** [next]: the index after [index]; the end of a line is followed by the
    start of the next one, also after the last line. *)
Definition next (codeLines : list string) (index : Index) : result Index :=
  match nth_error codeLines (line index) with
  | None => Throw (Error "The next index will be completely out of bounds!")
  | Some l =>
      if character index <? String.length l then Ok (mkIndex (line index) (character index + 1))
      else if character index =? String.length l then Ok (mkIndex (line index + 1) 0)
      else Throw (Error "Invalid character position")
  end.

Definition areRangesAdjacent (range1 range2 : Range) : bool :=
  (end_line range1 =? start_line range2) && (end_character range1 =? start_character range2).

(** [mergeRanges]: the loop over [ranges[1..]], started from [ranges[0]]. *)
Fixpoint mergeLoop (start end_ : Index) (ranges : list Range) : Range :=
  match ranges with
  | [] => indexesToRange start end_
  | r :: rest =>
      let start2 := rangeToStartIndex r in
      let end2 := rangeToEndIndex r in
      let start' := if (compare start2 start =? -1)%Z then start2 else start in
      let end' := if (compare end_ end2 =? -1)%Z then end2 else end_ in
      mergeLoop start' end' rest
  end.

Definition mergeRanges (ranges : list Range) : result Range :=
  match ranges with
  | [] => Throw (Error "No ranges to merge.")
  | r :: rest => Ok (mergeLoop (rangeToStartIndex r) (rangeToEndIndex r) rest)
  end.

Definition contains (biggerRange insideRange : Range) : bool :=
  (compare (rangeToStartIndex biggerRange) (rangeToStartIndex insideRange) <=? 0)%Z
  && (compare (rangeToEndIndex insideRange) (rangeToEndIndex biggerRange) <=? 0)%Z.

Definition containsIndex (range : Range) (index : Index) : bool :=
  (compare (rangeToStartIndex range) index <=? 0)%Z
  && (compare index (rangeToEndIndex range) <? 0)%Z.

End Utils.

(* ================================================================== *)
(** ** Stream matchers *)

(** A [Record<string, T>] is the list of its entries in iteration order; the
    keys of an object are pairwise distinct. *)
Definition JsRecord (T : Type) : Type := list (string * T).

Fixpoint recGet {T : Type} (r : JsRecord T) (key : string) : option T :=
  match r with
  | [] => None
  | (k, v) :: rest => if String.eqb k key then Some v else recGet rest key
  end.

(** [r[key] = v]: an existing property keeps its place, a new one goes last. *)
Fixpoint recSet {T : Type} (r : JsRecord T) (key : string) (v : T) : JsRecord T :=
  match r with
  | [] => [(key, v)]
  | (k, w) :: rest => if String.eqb k key then (k, v) :: rest else (k, w) :: recSet rest key v
  end.

Definition recKeys {T : Type} (r : JsRecord T) : list string := map fst r.
Definition recValues {T : Type} (r : JsRecord T) : list T := map snd r.

(** The part that [ExpressionMatcher] and [StringExpressionMatcher] share
    word for word, up to the message of the error for several matches: the
    progress lists, [next] and [reset]. [A] is the type of symbols (an
    integer [number] or a one-character string). *)
Section MatcherCore.
Context {A : Type} (eqbA : A -> A -> bool).
Local Open Scope nat_scope.

Record Matcher : Type := mkMatcher {
  expressions : JsRecord (list A);
  potentialMatches : JsRecord (list nat)
}.

(** The constructor's loop: [potentialMatches[key] = []] for every key. *)
Fixpoint initPotentialMatches (keys : list string) (pm : JsRecord (list nat)) : JsRecord (list nat) :=
  match keys with
  | [] => pm
  | k :: rest => initPotentialMatches rest (recSet pm k [])
  end.

(** The inner loop of [next], [for (i = progresses.length - 1; i >= 0; i--)],
    taken over the reversed array: the head is [progresses[i]], the result
    lists the entries that stay (still reversed). Splicing out entry [i]
    while walking downwards leaves the entries below [i] in place. *)
Fixpoint advance (key : string) (expr : list A) (sym : A) (revProgresses : list nat)
  (matched : option string) : result (list nat * option string) :=
  match revProgresses with
  | [] => Ok ([], matched)
  | currentProgress :: below =>
      let hit := match nth_error expr currentProgress with
                 | Some x => eqbA sym x
                 | None => false
                 end in
      if hit then
        if currentProgress + 1 =? List.length expr then
          match matched with
          | Some _ => Throw (Error "Multiple matches detected, which violates non-overlapping suffix constraint.")
          | None =>
              '(kept, m) <- advance key expr sym below (Some key) ;;
              Ok (kept, m)
          end
        else
          '(kept, m) <- advance key expr sym below matched ;;
          Ok ((currentProgress + 1) :: kept, m)
      else advance key expr sym below matched
  end.

(** The outer loop of [next] over [Object.entries(this.expressions)]. *)
Fixpoint nextLoop (entries : JsRecord (list A)) (sym : A) (pm : JsRecord (list nat))
  (matched : option string) : result (JsRecord (list nat) * option string) :=
  match entries with
  | [] => Ok (pm, matched)
  | (key, expr) :: rest =>
      match recGet pm key with
      | None => Throw (TypeError "Cannot read properties of undefined (reading 'push')")
      | Some progresses =>
          '(kept, m) <- advance key expr sym (rev (progresses ++ [0])) matched ;;
          nextLoop rest sym (recSet pm key (rev kept)) m
      end
  end.

Definition next (m : Matcher) (sym : A) : result (Matcher * option string) :=
  '(pm, matched) <- nextLoop (expressions m) sym (potentialMatches m) None ;;
  Ok (mkMatcher (expressions m) pm, matched).

Fixpoint resetLoop (keys : list string) (pm : JsRecord (list nat)) : JsRecord (list nat) :=
  match keys with
  | [] => pm
  | k :: rest => resetLoop rest (recSet pm k [])
  end.

Definition reset (m : Matcher) : Matcher :=
  mkMatcher (expressions m) (resetLoop (recKeys (potentialMatches m)) (potentialMatches m)).

Definition getLength (m : Matcher) (key : string) : result nat :=
  match recGet (expressions m) key with
  | Some expr => Ok (List.length expr)
  | None => Throw (Error "Expression with this key does not exist.")
  end.

Definition getMaxExpressionLength (m : Matcher) : nat :=
  fold_left (fun maxLength e => if maxLength <? List.length (snd e) then List.length (snd e) else maxLength)
            (expressions m) 0.

(** The double loop of [validateExpressions]: [check values[i] values[j]]
    for all positions [i <> j]. *)
Fixpoint suffixInner (check : list A -> list A -> bool) (seqA : list A) (i : nat)
  (values : list (list A)) (j : nat) : bool :=
  match values with
  | [] => false
  | seqB :: rest =>
      (if i =? j then false else check seqA seqB) || suffixInner check seqA i rest (j + 1)
  end.

Fixpoint suffixOuter (check : list A -> list A -> bool) (all : list (list A))
  (values : list (list A)) (i : nat) : bool :=
  match values with
  | [] => false
  | seqA :: rest => suffixInner check seqA i all 0 || suffixOuter check all rest (i + 1)
  end.

(** A run of the matcher: symbols fed one at a time, with resets in between. *)
Inductive Op : Type :=
| Feed (sym : A)
| Reset.

Fixpoint run (m : Matcher) (ops : list Op) : result (Matcher * list (option string)) :=
  match ops with
  | [] => Ok (m, [])
  | Feed sym :: rest =>
      '(m', out) <- next m sym ;;
      '(m'', outs) <- run m' rest ;;
      Ok (m'', out :: outs)
  | Reset :: rest => run (reset m) rest
  end.

End MatcherCore.

Arguments Matcher A : clear implicits.
Arguments Op A : clear implicits.
Arguments Reset {A}.

Module ExpressionMatcher.
Local Open Scope nat_scope.

Definition t : Type := Matcher Z.

(** [isSuffix(seqA, seqB)]: the loop [for (i = 1; i <= seqB.length; i++)]
    comparing [seqA[seqA.length - i]] with [seqB[seqB.length - i]]. *)
Fixpoint isSuffixLoop (seqA seqB : list Z) (i : nat) (todo : nat) : bool :=
  match todo with
  | O => true
  | S todo' =>
      match nth_error seqA (List.length seqA - i), nth_error seqB (List.length seqB - i) with
      | Some a, Some b => if Z.eqb a b then isSuffixLoop seqA seqB (i + 1) todo' else false
      | _, _ => false
      end
  end.

Definition isSuffix (seqA seqB : list Z) : bool :=
  if List.length seqA <? List.length seqB then false
  else isSuffixLoop seqA seqB 1 (List.length seqB).

Definition listZ_eqb (a b : list Z) : bool :=
  if list_eq_dec Z.eq_dec a b then true else false.

(** [new Set(values.map(seq => JSON.stringify(seq))).size]: two arrays of
    integers print alike exactly when they are equal. *)
Fixpoint distinctCount (values : list (list Z)) (seen : list (list Z)) : nat :=
  match values with
  | [] => List.length seen
  | v :: rest =>
      if existsb (listZ_eqb v) seen then distinctCount rest seen
      else distinctCount rest (seen ++ [v])
  end.

Definition validateExpressions (expressions : JsRecord (list Z)) : result unit :=
  let values := recValues expressions in
  if List.length values =? 0 then Throw (Error "Must have some expression to match.")
  else if existsb (fun value => List.length value =? 0) values
  then Throw (Error "Matching sequences must be non-empty.")
  else if suffixOuter isSuffix values values 0
  then Throw (Error "Ambiguous expressions: one sequence has another as a suffix.")
  else if negb (distinctCount values [] =? List.length values)
  then Throw (Error "Duplicate matching sequences are not allowed.")
  else Ok tt.

Definition constructor (expressions : JsRecord (list Z)) : result t :=
  _ <- validateExpressions expressions ;;
  Ok (mkMatcher expressions (initPotentialMatches (recKeys expressions) [])).

Definition next (m : t) (num : Z) : result (t * option string) := next Z.eqb m num.

End ExpressionMatcher.

Module StringExpressionMatcher.
Local Open Scope nat_scope.

(** The patterns are strings; [expr[i]] is the code unit at [i]. *)
Definition t : Type := Matcher ascii.

Definition endsWithChars (strA strB : list ascii) : bool :=
  Js.endsWith (Js.str strA) (Js.str strB).

Definition validateExpressions (expressions : JsRecord string) : result unit :=
  let values := map Js.chars (recValues expressions) in
  if List.length values =? 0 then Throw (Error "Must have some expression to match.")
  else if existsb (fun value => List.length value =? 0) values
  then Throw (Error "Matching strings must be non-empty.")
  else if suffixOuter endsWithChars values values 0
  then Throw (Error "Ambiguous expressions: one string has another as a suffix.")
  else Ok tt.

Definition constructor (expressions : JsRecord string) : result t :=
  _ <- validateExpressions expressions ;;
  Ok (mkMatcher (map (fun e => (fst e, Js.chars (snd e))) expressions)
                (initPotentialMatches (recKeys expressions) [])).

(** [next(ch)] rejects an argument that is not one character long; a
    character is an [ascii] here, so that check always passes. *)
Definition next (m : t) (ch : ascii) : result (t * option string) := next Ascii.eqb m ch.

End StringExpressionMatcher.

Record Braces : Type := mkBraces { opening : string; closing : string }.

Module BracesMatcher.
Local Open Scope nat_scope.

(** A [Map<string, string>]: [set] overwrites the value of a key that is
    present and appends a new key. *)
Record t : Type := mkBracesMatcher {
  openingToClosing : JsRecord string;
  closingToOpening : JsRecord string;
  stack : list string
}.

Definition arrIncludes (arr : list string) (x : string) : bool := existsb (String.eqb x) arr.

(** The constructor's loop over [braces]. Only [opening] is pushed onto
    [tempIntersectionCheck]. *)
Fixpoint constructorLoop (braces : list Braces) (tempIntersectionCheck : list string)
  (o2c c2o : JsRecord string) : result t :=
  match braces with
  | [] => Ok (mkBracesMatcher o2c c2o [])
  | brace :: rest =>
      if negb (String.length (opening brace) =? 1)
      then Throw (Error ("Opening brace " ++ Js.dquote ++ opening brace ++ Js.dquote ++ " must be exactly one character."))
      else if negb (String.length (closing brace) =? 1)
      then Throw (Error ("Closing brace " ++ Js.dquote ++ closing brace ++ Js.dquote ++ " must be exactly one character."))
      else if arrIncludes tempIntersectionCheck (opening brace)
      then Throw (Error ("Opening brace " ++ Js.dquote ++ opening brace ++ Js.dquote ++ " repeated!"))
      else
        let tempIntersectionCheck' := tempIntersectionCheck ++ [opening brace] in
        if arrIncludes tempIntersectionCheck' (closing brace)
        then Throw (Error ("Closing brace " ++ Js.dquote ++ closing brace ++ Js.dquote ++ " repeated!"))
        else constructorLoop rest tempIntersectionCheck'
               (recSet o2c (opening brace) (closing brace))
               (recSet c2o (closing brace) (opening brace))
  end.

Definition constructor (braces : list Braces) : result t := constructorLoop braces [] [] [].

Definition has (m : JsRecord string) (k : string) : bool :=
  match recGet m k with Some _ => true | None => false end.

Definition next (m : t) (ch : string) : result (t * nat) :=
  if negb (String.length ch =? 1)
  then Throw (Error ("Input character " ++ Js.dquote ++ ch ++ Js.dquote ++ " must be exactly one character long."))
  else if has (openingToClosing m) ch then
    let m' := mkBracesMatcher (openingToClosing m) (closingToOpening m) (stack m ++ [ch]) in
    Ok (m', List.length (stack m'))
  else if has (closingToOpening m) ch then
    match rev (stack m) with
    | [] => Throw (Error ("Unmatched closing brace " ++ Js.dquote ++ ch ++ Js.dquote ++ " encountered with no corresponding opening brace."))
    | lastOpening :: below =>
        if match recGet (openingToClosing m) lastOpening with
           | Some expectedClosing => String.eqb ch expectedClosing
           | None => false
           end
        then
          let m' := mkBracesMatcher (openingToClosing m) (closingToOpening m) (rev below) in
          Ok (m', List.length (stack m'))
        else Throw (Error ("Mismatched closing brace " ++ Js.dquote ++ ch ++ Js.dquote ++ "."))
    end
  else Throw (Error ("Invalid brace: " ++ ch)).

Definition reset (m : t) : t :=
  mkBracesMatcher (openingToClosing m) (closingToOpening m) [].

Definition currentDepth (m : t) : nat := List.length (stack m).

End BracesMatcher.

(* ================================================================== *)
(** ** ParsingTypes.ts: tokens *)

Inductive TokenType : Type :=
| MULTILINE_COMMENTS_OR_STRINGS
| SINGLELINE_COMMENTS
| STRINGS
| SPACINGS
| BRACES
| COMMAS
| OTHERS
| CONTINUATION.

Definition TokenType_eqb (a b : TokenType) : bool :=
  match a, b with
  | MULTILINE_COMMENTS_OR_STRINGS, MULTILINE_COMMENTS_OR_STRINGS
  | SINGLELINE_COMMENTS, SINGLELINE_COMMENTS
  | STRINGS, STRINGS
  | SPACINGS, SPACINGS
  | BRACES, BRACES
  | COMMAS, COMMAS
  | OTHERS, OTHERS
  | CONTINUATION, CONTINUATION => true
  | _, _ => false
  end.

Record Token : Type := mkToken {
  stringContents : string;
  tokenType : TokenType;
  characterRange : CharacterRange
}.

(* ================================================================== *)
(** ** AbstractTokenizer.ts *)

(** The action that [matchNext] returns. *)
Record MatchResult : Type := mkMatchResult {
  mrType : TokenType;
  singleChType : option TokenType;
  numSplitCharacters : option nat
}.

(** The private fields of [AbstractTokenizer]. *)
Record TokenizerBase : Type := mkTokenizerBase {
  tokenString : list Token;
  stringBuffer : string;
  charIdx : nat;
  tokStartIdx : nat;
  ended : bool
}.

(** The abstract methods, over the fields a subclass adds. [matchNext] runs
    after the new character is in the buffer and may ask for the buffer's
    length ([currentBufferLength], [currentBufferSingleCharacter]). *)
Record Lexer : Type := mkLexer {
  LexState : Type;
  matchNext : LexState -> TokenizerBase -> ascii -> result (LexState * option MatchResult);
  matchEndCharacter : LexState -> TokenType;
  onReset : LexState -> LexState
}.

Module AbstractTokenizer.
Local Open Scope nat_scope.

Record t (L : Lexer) : Type := mkTokenizer {
  base : TokenizerBase;
  sub : LexState L
}.
Arguments mkTokenizer {L} base sub.
Arguments base {L} t.
Arguments sub {L} t.

Definition emptyBase : TokenizerBase := mkTokenizerBase [] EmptyString 0 0 false.

Definition reset {L : Lexer} (tk : t L) : t L :=
  mkTokenizer emptyBase (onReset L (sub tk)).

Definition currentBufferSingleCharacter (b : TokenizerBase) : bool :=
  String.length (stringBuffer b) =? 1.

Definition currentBufferLength (b : TokenizerBase) : nat := String.length (stringBuffer b).

(** [next(ch)]; [None] is [null], the end of the stream. A character is an
    [ascii], so the check [ch.length !== 1] cannot fail. *)
Definition next {L : Lexer} (tk : t L) (ch : option ascii) : result (t L) :=
  let b := base tk in
  if ended b then Throw (Error "Cannot call next when already ended! Must reset with .reset().")
  else
    match ch with
    | None =>
        let toks :=
          if tokStartIdx b <? charIdx b
          then tokenString b ++
               [mkToken (stringBuffer b) (matchEndCharacter L (sub tk))
                        (mkCharacterRange (tokStartIdx b) (charIdx b))]
          else tokenString b in
        Ok (mkTokenizer (mkTokenizerBase toks (stringBuffer b) (charIdx b) (tokStartIdx b) true) (sub tk))
    | Some c =>
        let buf := (stringBuffer b ++ String c EmptyString)%string in
        let idx := charIdx b + 1 in
        let b1 := mkTokenizerBase (tokenString b) buf idx (tokStartIdx b) false in
        '(s', matchResult) <- matchNext L (sub tk) b1 c ;;
        match matchResult with
        | None => Ok (mkTokenizer b1 s')
        | Some mr =>
            if TokenType_eqb (mrType mr) CONTINUATION
            then Throw (Error "Only singleChType can be continuation!")
            else
              let length := idx - tokStartIdx b in
              match singleChType mr with
              | None =>
                  Ok (mkTokenizer
                        (mkTokenizerBase
                           (tokenString b ++ [mkToken buf (mrType mr) (mkCharacterRange (tokStartIdx b) idx)])
                           EmptyString idx idx false) s')
              | Some sct =>
                  let k := match numSplitCharacters mr with Some k => k | None => 1 end in
                  if k <? 1 then Throw (Error "numSplitCharacters should be >= 1!")
                  else if length <? k + 1
                  then Throw (Error "The length of the buffer (including the newly added character) must be > numSplitCharacters! This is to allow splitting the buffer into two parts which are non-empty.")
                  else
                    let bufLen := Js.len buf in
                    let head := Js.substring buf 0 (bufLen - Z.of_nat k) in
                    let tail := Js.substring buf (bufLen - Z.of_nat k) bufLen in
                    let first := mkToken head (mrType mr) (mkCharacterRange (tokStartIdx b) (idx - k)) in
                    if TokenType_eqb sct CONTINUATION then
                      Ok (mkTokenizer
                            (mkTokenizerBase (tokenString b ++ [first]) tail idx (idx - k) false) s')
                    else
                      Ok (mkTokenizer
                            (mkTokenizerBase
                               (tokenString b ++ [first; mkToken tail sct (mkCharacterRange (idx - k) idx)])
                               EmptyString idx idx false) s')
              end
        end
    end.

Definition getTokens {L : Lexer} (tk : t L) : list Token := tokenString (base tk).

(** Feeding a run of characters, one call of [next] each. *)
Fixpoint feed {L : Lexer} (tk : t L) (input : list ascii) : result (t L) :=
  match input with
  | [] => Ok tk
  | c :: rest => tk' <- next tk (Some c) ;; feed tk' rest
  end.

End AbstractTokenizer.

(* ================================================================== *)
(** ** PythonTokenizer.ts *)

Module PythonTokenizer.
Local Open Scope nat_scope.

Inductive StringOrMultilineStatus : Type :=
| NONE
| SINGLE_QUOTES
| DOUBLE_QUOTES
| TRIPLE_SINGLE_QUOTES
| TRIPLE_DOUBLE_QUOTES.

Record State : Type := mkState {
  insideSingleLineComments : bool;
  insideStringStatus : StringOrMultilineStatus;
  previousIsEscape : bool;
  contiguousQuotesCount : nat
}.

Definition initial : State := mkState false NONE false 0.

Definition isCh (ch : ascii) (s : string) : bool := String.eqb (String ch EmptyString) s.

Definition setStatus (st : State) (s : StringOrMultilineStatus) : State :=
  mkState (insideSingleLineComments st) s (previousIsEscape st) (contiguousQuotesCount st).
Definition setEscape (st : State) (e : bool) : State :=
  mkState (insideSingleLineComments st) (insideStringStatus st) e (contiguousQuotesCount st).
Definition setCount (st : State) (n : nat) : State :=
  mkState (insideSingleLineComments st) (insideStringStatus st) (previousIsEscape st) n.
Definition setComments (st : State) (c : bool) : State :=
  mkState c (insideStringStatus st) (previousIsEscape st) (contiguousQuotesCount st).

(** [handleOtherSituation]: the class of the single character, or [None]
    while the token goes on; the second component is [isPlainCharacter]. *)
Definition handleOtherSituation (st : State) (ch : ascii) : State * (option TokenType * bool) :=
  if isCh ch "{" || isCh ch "}" || isCh ch "[" || isCh ch "]" || isCh ch "(" || isCh ch ")"
  then (st, (Some BRACES, false))
  else if isCh ch " " || isCh ch Js.tab || isCh ch Js.newline
  then (st, (Some SPACINGS, false))
  else if isCh ch ":" then (st, (Some OTHERS, false))
  else if isCh ch "," then (st, (Some COMMAS, false))
  else if isCh ch "#" then (setComments st true, (None, false))
  else if isCh ch Js.dquote then (setCount (setStatus st DOUBLE_QUOTES) 1, (None, false))
  else if isCh ch "'" then (setCount (setStatus st SINGLE_QUOTES) 1, (None, false))
  else (st, (None, true)).

(** [handleSingleQuoteSituation] and [handleDoubleQuoteSituation] are the
    same text up to the quote character and the triple-quoted status they
    upgrade to. *)
Definition handleQuoteSituation (quote : string) (triple : StringOrMultilineStatus)
  (st : State) (ch : ascii) : State * option MatchResult :=
  if isCh ch quote && negb (previousIsEscape st) then
    let st := setEscape st false in
    if contiguousQuotesCount st =? 2 then (setCount (setStatus st triple) 0, None)
    else if contiguousQuotesCount st =? 1 then (setCount st 2, None)
    else (setStatus st NONE, Some (mkMatchResult STRINGS None None))
  else if isCh ch Js.newline then
    (setStatus (setCount (setEscape st false) 0) NONE,
     Some (mkMatchResult STRINGS (Some SPACINGS) None))
  else
    if contiguousQuotesCount st =? 2 then
      let st := setStatus (setEscape (setCount st 0) false) NONE in
      let '(st, (tokenType, _)) := handleOtherSituation st ch in
      match tokenType with
      | None => (st, Some (mkMatchResult STRINGS (Some CONTINUATION) None))
      | Some ty => (st, Some (mkMatchResult STRINGS (Some ty) None))
      end
    else
      let st := if contiguousQuotesCount st =? 1 then setCount st 0 else st in
      if isCh ch Js.backslash then (setEscape st (negb (previousIsEscape st)), None)
      else (setEscape st false, None).

Definition handleSingleQuoteSituation := handleQuoteSituation "'" TRIPLE_SINGLE_QUOTES.
Definition handleDoubleQuoteSituation := handleQuoteSituation Js.dquote TRIPLE_DOUBLE_QUOTES.

(** [handleTripleSingleQuoteSituation] and [handleTripleDoubleQuoteSituation]. *)
Definition handleTripleQuoteSituation (quote : string) (st : State) (ch : ascii)
  : State * option MatchResult :=
  if isCh ch quote && negb (previousIsEscape st) then
    let st := setEscape st false in
    if contiguousQuotesCount st =? 2
    then (setStatus (setCount st 0) NONE, Some (mkMatchResult MULTILINE_COMMENTS_OR_STRINGS None None))
    else (setCount st (contiguousQuotesCount st + 1), None)
  else
    let st := setCount st 0 in
    if isCh ch Js.backslash then (setEscape st (negb (previousIsEscape st)), None)
    else (setEscape st false, None).

Definition handleTripleSingleQuoteSituation := handleTripleQuoteSituation "'".
Definition handleTripleDoubleQuoteSituation := handleTripleQuoteSituation Js.dquote.

Definition matchNext (st : State) (b : TokenizerBase) (ch : ascii)
  : result (State * option MatchResult) :=
  if insideSingleLineComments st then
    if isCh ch Js.newline
    then Ok (setComments st false, Some (mkMatchResult SINGLELINE_COMMENTS (Some SPACINGS) None))
    else Ok (st, None)
  else
    match insideStringStatus st with
    | SINGLE_QUOTES => Ok (handleSingleQuoteSituation st ch)
    | DOUBLE_QUOTES => Ok (handleDoubleQuoteSituation st ch)
    | TRIPLE_SINGLE_QUOTES => Ok (handleTripleSingleQuoteSituation st ch)
    | TRIPLE_DOUBLE_QUOTES => Ok (handleTripleDoubleQuoteSituation st ch)
    | NONE =>
        let '(st, (tokenType, isPlainCharacter)) := handleOtherSituation st ch in
        if AbstractTokenizer.currentBufferSingleCharacter b then
          match tokenType with
          | Some ty => Ok (st, Some (mkMatchResult ty None None))
          | None => Ok (st, None)
          end
        else
          match tokenType with
          | None =>
              if isPlainCharacter then Ok (st, None)
              else Ok (st, Some (mkMatchResult OTHERS (Some CONTINUATION) None))
          | Some ty => Ok (st, Some (mkMatchResult OTHERS (Some ty) None))
          end
    end.

Definition matchEndCharacter (st : State) : TokenType :=
  if insideSingleLineComments st then SINGLELINE_COMMENTS
  else match insideStringStatus st with
       | SINGLE_QUOTES | DOUBLE_QUOTES => STRINGS
       | TRIPLE_DOUBLE_QUOTES | TRIPLE_SINGLE_QUOTES => MULTILINE_COMMENTS_OR_STRINGS
       | NONE => OTHERS
       end.

Definition onReset (st : State) : State := initial.

Definition lexer : Lexer := mkLexer State matchNext matchEndCharacter onReset.

Definition constructor : result (AbstractTokenizer.t lexer) :=
  Ok (@AbstractTokenizer.mkTokenizer lexer AbstractTokenizer.emptyBase initial).

End PythonTokenizer.

(* ================================================================== *)
(** ** TypeScriptTokenizer.ts *)

Module TypeScriptTokenizer.
Local Open Scope nat_scope.

Inductive Status : Type :=
| NONE
| SINGLE_QUOTES
| DOUBLE_QUOTES
| MULTILINE_BACKTICKS
| MULTILINE_COMMENTS
| EQUALS.

Record State : Type := mkState {
  insideSingleLineComments : bool;
  insideStringStatus : Status;
  previousIsEscape : bool;
  stringMatcher : StringExpressionMatcher.t
}.

Definition isCh (ch : ascii) (s : string) : bool := String.eqb (String ch EmptyString) s.

Definition setStatus (st : State) (s : Status) : State :=
  mkState (insideSingleLineComments st) s (previousIsEscape st) (stringMatcher st).
Definition setEscape (st : State) (e : bool) : State :=
  mkState (insideSingleLineComments st) (insideStringStatus st) e (stringMatcher st).
Definition setComments (st : State) (c : bool) : State :=
  mkState c (insideStringStatus st) (previousIsEscape st) (stringMatcher st).
Definition setMatcher (st : State) (m : StringExpressionMatcher.t) : State :=
  mkState (insideSingleLineComments st) (insideStringStatus st) (previousIsEscape st) m.

Definition isKey (matchedExpression : option string) (key : string) : bool :=
  match matchedExpression with
  | Some k => String.eqb k key
  | None => false
  end.

(** [handleOtherSituation]: the class of the single character and
    [needsResetSplitChars]. *)
Definition handleOtherSituation (st : State) (ch : ascii) (matchedExpression : option string)
  : State * (option TokenType * nat) :=
  if isCh ch "{" || isCh ch "}" || isCh ch "[" || isCh ch "]" || isCh ch "(" || isCh ch ")"
  then (st, (Some BRACES, 1))
  else if isCh ch " " || isCh ch Js.tab || isCh ch Js.newline || isCh ch ";"
  then (st, (Some SPACINGS, 1))
  else if isCh ch "," then (st, (Some COMMAS, 1))
  else if isCh ch ":" || isCh ch "<" || isCh ch ">" then (st, (Some OTHERS, 1))
  else if isCh ch "=" then (setStatus st EQUALS, (None, 1))
  else if isCh ch "`" then (setStatus st MULTILINE_BACKTICKS, (None, 1))
  else if isCh ch "'" then (setStatus st SINGLE_QUOTES, (None, 1))
  else if isCh ch Js.dquote then (setStatus st DOUBLE_QUOTES, (None, 1))
  else if isKey matchedExpression "MULTILINE_COMMENT_START"
  then (setStatus st MULTILINE_COMMENTS, (None, 2))
  else if isKey matchedExpression "COMMENT_START"
  then (setComments st true, (None, 2))
  else (st, (None, 0)).

(** [handleSingleQuoteSituation] and [handleDoubleQuoteSituation]. *)
Definition handleQuoteSituation (quote : string) (st : State) (ch : ascii)
  : State * option MatchResult :=
  if isCh ch quote && negb (previousIsEscape st)
  then (setStatus (setEscape st false) NONE, Some (mkMatchResult STRINGS None None))
  else if isCh ch Js.newline
  then (setStatus (setEscape st false) NONE, Some (mkMatchResult STRINGS (Some SPACINGS) None))
  else if isCh ch Js.backslash then (setEscape st (negb (previousIsEscape st)), None)
  else (setEscape st false, None).

Definition handleSingleQuoteSituation := handleQuoteSituation "'".
Definition handleDoubleQuoteSituation := handleQuoteSituation Js.dquote.

Definition handleMultilineBackticksSituation (st : State) (ch : ascii)
  : State * option MatchResult :=
  if isCh ch "`" && negb (previousIsEscape st)
  then (setStatus (setEscape st false) NONE, Some (mkMatchResult MULTILINE_COMMENTS_OR_STRINGS None None))
  else if isCh ch Js.backslash then (setEscape st (negb (previousIsEscape st)), None)
  else (setEscape st false, None).

Definition handleMultilineCommentsSituation (st : State) (ch : ascii)
  (matchedExpression : option string) : State * option MatchResult :=
  if isKey matchedExpression "MULTILINE_COMMENT_END"
  then (setStatus st NONE, Some (mkMatchResult MULTILINE_COMMENTS_OR_STRINGS None None))
  else (st, None).

Definition handleEqualsSituation (st : State) (ch : ascii) (matchedExpression : option string)
  : State * option MatchResult :=
  let st := setStatus st NONE in
  if isCh ch ">" then (st, Some (mkMatchResult OTHERS None None))
  else
    let '(st, (tokenType, _)) := handleOtherSituation st ch matchedExpression in
    let newChType := match tokenType with None => CONTINUATION | Some ty => ty end in
    (st, Some (mkMatchResult OTHERS (Some newChType) None)).

Definition matchNext (st : State) (b : TokenizerBase) (ch : ascii)
  : result (State * option MatchResult) :=
  '(m, matchedExpression) <- StringExpressionMatcher.next (stringMatcher st) ch ;;
  let st := setMatcher st (match matchedExpression with
                           | Some _ => reset m
                           | None => m
                           end) in
  if insideSingleLineComments st then
    if isCh ch Js.newline
    then Ok (setComments st false, Some (mkMatchResult SINGLELINE_COMMENTS (Some SPACINGS) None))
    else Ok (st, None)
  else
    match insideStringStatus st with
    | SINGLE_QUOTES => Ok (handleSingleQuoteSituation st ch)
    | DOUBLE_QUOTES => Ok (handleDoubleQuoteSituation st ch)
    | MULTILINE_BACKTICKS => Ok (handleMultilineBackticksSituation st ch)
    | MULTILINE_COMMENTS => Ok (handleMultilineCommentsSituation st ch matchedExpression)
    | EQUALS => Ok (handleEqualsSituation st ch matchedExpression)
    | NONE =>
        let '(st, (tokenType, needsResetSplitChars)) := handleOtherSituation st ch matchedExpression in
        if needsResetSplitChars =? 0 then Ok (st, None)
        else if AbstractTokenizer.currentBufferLength b =? needsResetSplitChars then
          match tokenType with
          | None => Ok (st, None)
          | Some ty => Ok (st, Some (mkMatchResult ty None None))
          end
        else
          match tokenType with
          | None => Ok (st, Some (mkMatchResult OTHERS (Some CONTINUATION) None))
          | Some ty => Ok (st, Some (mkMatchResult OTHERS (Some ty) None))
          end
    end.

Definition matchEndCharacter (st : State) : TokenType :=
  if insideSingleLineComments st then SINGLELINE_COMMENTS
  else match insideStringStatus st with
       | SINGLE_QUOTES | DOUBLE_QUOTES => STRINGS
       | MULTILINE_BACKTICKS => MULTILINE_COMMENTS_OR_STRINGS
       | MULTILINE_COMMENTS => MULTILINE_COMMENTS_OR_STRINGS
       | EQUALS => OTHERS
       | NONE => OTHERS
       end.

Definition onReset (st : State) : State :=
  mkState false NONE false (reset (stringMatcher st)).

Definition lexer : Lexer := mkLexer State matchNext matchEndCharacter onReset.

Definition patterns : JsRecord string :=
  [("COMMENT_START", "//"); ("MULTILINE_COMMENT_START", "/*"); ("MULTILINE_COMMENT_END", "*/")].

Definition constructor : result (AbstractTokenizer.t lexer) :=
  m <- StringExpressionMatcher.constructor patterns ;;
  Ok (@AbstractTokenizer.mkTokenizer lexer AbstractTokenizer.emptyBase (mkState false NONE false m)).

End TypeScriptTokenizer.

(* ================================================================== *)
(** ** nodes/: the syntax tree *)

(** The subclasses of [SyntaxNode] with the fields each one adds.
    [Functions] carries [funcBodyNonEmpty], the only attribute that is
    written after construction. *)
Inductive NodeKind : Type :=
| TopLevel
| References (referenceText : string) (refRelativePath : option string)
| Classes (classType : option string) (classDefinitionText : string)
| Functions (functionDefinitionText : string) (funcBodyNonEmpty : bool)
| FunctionGroups
| FunctionDeclaration (functionName : string) (functionReturnType : option string)
| Argument (argumentName : string) (argumentType : option string)
| Attributes (attributeName : string) (attributeType : option string)
| Comments (isMultiLine : bool) (commentContents : string).

(** A node object is named by the index at which it was allocated. *)
Definition NodeId : Type := nat.

Module SyntaxNode.
Local Open Scope nat_scope.

Record t : Type := mkNode {
  kind : NodeKind;
  range : Range;
  innerRangeOverride : option Range;
  children : list NodeId;
  parent : option NodeId;
  siblingRank : nat
}.

(** [new X(range, ...)]: the constructor of [SyntaxNode]. *)
Definition new (k : NodeKind) (r : Range) : t := mkNode k r None [] None 0.

Definition isComments (n : t) : bool :=
  match kind n with Comments _ _ => true | _ => false end.
Definition isMultiLineComments (n : t) : bool :=
  match kind n with Comments ml _ => ml | _ => false end.
Definition isFunctions (n : t) : bool :=
  match kind n with Functions _ _ => true | _ => false end.
Definition isFunctionGroups (n : t) : bool :=
  match kind n with FunctionGroups => true | _ => false end.
Definition isClasses (n : t) : bool :=
  match kind n with Classes _ _ => true | _ => false end.
Definition isTopLevel (n : t) : bool :=
  match kind n with TopLevel => true | _ => false end.

(** [overrideInnerRange] on a node that is not yet shared. *)
Definition overrideInnerRange (n : t) (r : Range) : result t :=
  if negb (Utils.contains (range n) r)
  then Throw (Error "Inner range must be (not necessarily strictly) contained inside the full range!")
  else Ok (mkNode (kind n) (range n) (Some r) (children n) (parent n) (siblingRank n)).

End SyntaxNode.

(** The heap of node objects. *)
Definition Store : Type := list SyntaxNode.t.

Module Heap.
Local Open Scope nat_scope.

Definition get (st : Store) (id : NodeId) : result SyntaxNode.t :=
  match nth_error st id with
  | Some n => Ok n
  | None => Throw (TypeError "Cannot read properties of undefined")
  end.

Fixpoint set (st : Store) (id : NodeId) (n : SyntaxNode.t) : Store :=
  match st, id with
  | [], _ => []
  | _ :: rest, O => n :: rest
  | m :: rest, S id' => m :: set rest id' n
  end.

Definition alloc (st : Store) (n : SyntaxNode.t) : Store * NodeId :=
  (st ++ [n], List.length st).

Definition getRange (st : Store) (id : NodeId) : result Range :=
  n <- get st id ;; Ok (SyntaxNode.range n).

Definition getParent (st : Store) (id : NodeId) : result (option NodeId) :=
  n <- get st id ;; Ok (SyntaxNode.parent n).

Definition getSiblingRank (st : Store) (id : NodeId) : result nat :=
  n <- get st id ;; Ok (SyntaxNode.siblingRank n).

Definition listChildren (st : Store) (id : NodeId) : result (list NodeId) :=
  n <- get st id ;; Ok (SyntaxNode.children n).

Definition hasChildren (st : Store) (id : NodeId) : result bool :=
  n <- get st id ;; Ok (0 <? List.length (SyntaxNode.children n)).

(** [this.addChild(node)]: [node.setParent(this)], then
    [node.siblingRank = this.children.length], then
    [this.children.push(node)]. *)
Definition addChild (st : Store) (this node : NodeId) : result Store :=
  p <- get st this ;;
  c <- get st node ;;
  let st1 := set st node
               (SyntaxNode.mkNode (SyntaxNode.kind c) (SyntaxNode.range c)
                  (SyntaxNode.innerRangeOverride c) (SyntaxNode.children c)
                  (Some this) (List.length (SyntaxNode.children p))) in
  p1 <- get st1 this ;;
  Ok (set st1 this
        (SyntaxNode.mkNode (SyntaxNode.kind p1) (SyntaxNode.range p1)
           (SyntaxNode.innerRangeOverride p1) (SyntaxNode.children p1 ++ [node])
           (SyntaxNode.parent p1) (SyntaxNode.siblingRank p1))).

(** [Functions.flagHaveFunctionBody]; the caller has checked
    [this instanceof Functions]. *)
Definition flagHaveFunctionBody (st : Store) (this : NodeId) : result Store :=
  n <- get st this ;;
  match SyntaxNode.kind n with
  | Functions text _ =>
      Ok (set st this
            (SyntaxNode.mkNode (Functions text true) (SyntaxNode.range n)
               (SyntaxNode.innerRangeOverride n) (SyntaxNode.children n)
               (SyntaxNode.parent n) (SyntaxNode.siblingRank n)))
  | _ => Throw (TypeError "flagHaveFunctionBody is not a function")
  end.

Fixpoint childRanges (st : Store) (ids : list NodeId) : result (list Range) :=
  match ids with
  | [] => Ok []
  | id :: rest =>
      r <- getRange st id ;;
      rs <- childRanges st rest ;;
      Ok (r :: rs)
  end.

(** [getInnerRange]: the override, or the merge of the children's ranges,
    or [null] for a node without children. *)
Definition getInnerRange (st : Store) (id : NodeId) : result (option Range) :=
  n <- get st id ;;
  match SyntaxNode.innerRangeOverride n with
  | Some r => Ok (Some r)
  | None =>
      match SyntaxNode.children n with
      | [] => Ok None
      | cs =>
          rs <- childRanges st cs ;;
          r <- Utils.mergeRanges rs ;;
          Ok (Some r)
      end
  end.

Definition getPrefixRange (st : Store) (id : NodeId) : result (option Range) :=
  n <- get st id ;;
  innerRange <- getInnerRange st id ;;
  match innerRange with
  | None => Ok None
  | Some inner =>
      Ok (Some (Utils.indexesToRange (Utils.rangeToStartIndex (SyntaxNode.range n))
                                     (Utils.rangeToStartIndex inner)))
  end.

Definition getSuffixRange (st : Store) (id : NodeId) : result (option Range) :=
  n <- get st id ;;
  innerRange <- getInnerRange st id ;;
  match innerRange with
  | None => Ok None
  | Some inner =>
      Ok (Some (Utils.indexesToRange (Utils.rangeToEndIndex inner)
                                     (Utils.rangeToEndIndex (SyntaxNode.range n))))
  end.

(** The loop of [assertRangeValid]. *)
Fixpoint assertChildrenInside (st : Store) (range : Range) (children : list NodeId)
  : result unit :=
  match children with
  | [] => Ok tt
  | c :: rest =>
      child <- get st c ;;
      if negb (Utils.contains range (SyntaxNode.range child))
      then Throw (Error "Invalid range! Expected child range to be inside this.range.")
      else assertChildrenInside st range rest
  end.

(** [assertRangeValid]. *)
Definition assertRangeValid (st : Store) (this : NodeId) : result unit :=
  n <- get st this ;;
  assertChildrenInside st (SyntaxNode.range n) (SyntaxNode.children n).

(** [children.some(child => child instanceof Comments)]. *)
Fixpoint someComments (st : Store) (children : list NodeId) : result bool :=
  match children with
  | [] => Ok false
  | c :: rest =>
      child <- get st c ;;
      if SyntaxNode.isComments child then Ok true else someComments st rest
  end.

(** [FunctionGroups.hasComment]. *)
Definition hasComment (st : Store) (this : NodeId) : result bool :=
  n <- get st this ;; someComments st (SyntaxNode.children n).

(** [getDepth]: the number of parents above the node; [fuel] bounds the
    recursion. *)
Fixpoint getDepth (fuel : nat) (st : Store) (this : NodeId) : result nat :=
  match fuel with
  | O => Throw OutOfFuel
  | S fuel' =>
      n <- get st this ;;
      match SyntaxNode.parent n with
      | None => Ok 0
      | Some parent => d <- getDepth fuel' st parent ;; Ok (d + 1)
      end
  end.

End Heap.

(* ================================================================== *)
(** ** AbstractSyntaxTree.ts *)

Module AbstractSyntaxTree.
Local Open Scope nat_scope.

Record t : Type := mkAST {
  store : Store;
  root : NodeId;
  sourceLines : list string
}.

Definition setFirst (lines : list string) (f : string -> string) : list string :=
  match lines with
  | [] => []
  | x :: rest => f x :: rest
  end.

Fixpoint setLast (lines : list string) (f : string -> string) : list string :=
  match lines with
  | [] => []
  | [x] => [f x]
  | x :: rest => x :: setLast rest f
  end.

(** [getSourceText]. A source line past the end is [undefined], and asking
    for its length is a [TypeError]. *)
Definition getSourceText (sourceLines : list string)
  (start_line start_character end_line end_character : nat) : result string :=
  let n := List.length sourceLines in
  if (n <? end_line) || (end_line <? start_line)
     || ((start_line =? end_line) && (end_character <? start_character))
  then Throw (Error "Invalid range specified. The start index must come before the end index, and the start index and end index must be contained inside the total range.")
  else if ((end_line =? n) && negb (end_character =? 0))
          || ((end_line <? n) && (String.length (nth end_line sourceLines EmptyString) <? end_character))
  then Throw (Error "Invalid range specified. The end character is not a valid character.")
  else
    match nth_error sourceLines start_line with
    | None => Throw (TypeError "Cannot read properties of undefined (reading 'length')")
    | Some firstLine =>
        if String.length firstLine <? start_character
        then Throw (Error "Invalid range specified. The start character is not a valid character.")
        else
          let lines := Js.slice sourceLines start_line (Nat.min (end_line + 1) n)
                       ++ (if end_line =? n then [EmptyString] else []) in
          match lines with
          | [only] => Ok (Js.substring only (Z.of_nat start_character) (Z.of_nat end_character))
          | _ =>
              let lines := setFirst lines (fun l => Js.substringFrom l (Z.of_nat start_character)) in
              let lines := setLast lines (fun l => Js.substring l 0 (Z.of_nat end_character)) in
              Ok (Js.join Js.newline lines)
          end
    end.

Definition getSourceTextFromRange (sourceLines : list string) (r : Range) : result string :=
  getSourceText sourceLines (start_line r) (start_character r) (end_line r) (end_character r).

Definition getRoot (tree : t) : NodeId := root tree.

Definition getMaxRangeAsIndices (tree : t) : Index * Index :=
  Utils.rangeToIndexes (Utils.getMaxRange (sourceLines tree)).

(** The loop [for (const child of node.listChildren())] of
    [getSmallestNodeContains] and of [getNodeContainsIndex]: the first
    child whose range passes [test], if there is one. *)
Fixpoint firstChild (st : Store) (test : Range -> bool) (children : list NodeId)
  : result (option NodeId) :=
  match children with
  | [] => Ok None
  | c :: rest =>
      child <- Heap.get st c ;;
      if test (SyntaxNode.range child) then Ok (Some c) else firstChild st test rest
  end.

(** The loop [outer] of [getSmallestNodeContains]; [fuel] bounds its
    rounds. *)
Fixpoint smallestLoop (fuel : nat) (st : Store) (range : Range) (node : NodeId)
  : result NodeId :=
  match fuel with
  | O => Throw OutOfFuel
  | S fuel' =>
      n <- Heap.get st node ;;
      found <- firstChild st (fun r => Utils.contains r range) (SyntaxNode.children n) ;;
      match found with
      | Some child => smallestLoop fuel' st range child
      | None => Ok node
      end
  end.

Definition getSmallestNodeContains (fuel : nat) (tree : t) (range : Range) : result NodeId :=
  smallestLoop fuel (store tree) range (root tree).

(** The loop [outer] of [getNodeContainsIndex]; the termination condition
    is a function of the node, or [null]. *)
Fixpoint containsIndexLoop (fuel : nat) (st : Store) (index : Index)
  (terminationCondition : option (NodeId -> bool)) (node : NodeId) : result NodeId :=
  match fuel with
  | O => Throw OutOfFuel
  | S fuel' =>
      if match terminationCondition with Some f => f node | None => false end
      then Ok node
      else
        n <- Heap.get st node ;;
        found <- firstChild st (fun r => Utils.containsIndex r index) (SyntaxNode.children n) ;;
        match found with
        | Some child => containsIndexLoop fuel' st index terminationCondition child
        | None => Ok node
        end
  end.

Definition getNodeContainsIndex (fuel : nat) (tree : t) (index : Index)
  (terminationCondition : option (NodeId -> bool)) : result NodeId :=
  containsIndexLoop fuel (store tree) index terminationCondition (root tree).

End AbstractSyntaxTree.

(* ================================================================== *)
(** ** ParsingTypes.ts: grammar symbols and directives *)

Inductive NonTerminal : Type :=
| TOP_LEVEL
| CLASSES
| FUNCTIONS
| FUNCTION_DECLARATION
| FUNCTION_BODY.

Inductive Terminal : Type :=
| COMMENT_SINGLELINE
| COMMENT_MULTILINE
| REFERENCES
| ARGUMENT
| ATTRIBUTES
| FILLER
| STATEMENTS_FILLER.

(** [Terminal | NonTerminal]. *)
Inductive Symbol : Type :=
| T (t : Terminal)
| NT (n : NonTerminal).

Definition isTerminal (s : Symbol) : bool :=
  match s with T _ => true | NT _ => false end.

Definition NonTerminal_eqb (a b : NonTerminal) : bool :=
  match a, b with
  | TOP_LEVEL, TOP_LEVEL | CLASSES, CLASSES | FUNCTIONS, FUNCTIONS
  | FUNCTION_DECLARATION, FUNCTION_DECLARATION | FUNCTION_BODY, FUNCTION_BODY => true
  | _, _ => false
  end.

Definition Terminal_eqb (a b : Terminal) : bool :=
  match a, b with
  | COMMENT_SINGLELINE, COMMENT_SINGLELINE | COMMENT_MULTILINE, COMMENT_MULTILINE
  | REFERENCES, REFERENCES | ARGUMENT, ARGUMENT | ATTRIBUTES, ATTRIBUTES
  | FILLER, FILLER | STATEMENTS_FILLER, STATEMENTS_FILLER => true
  | _, _ => false
  end.

Definition Symbol_eqb (a b : Symbol) : bool :=
  match a, b with
  | T x, T y => Terminal_eqb x y
  | NT x, NT y => NonTerminal_eqb x y
  | _, _ => false
  end.

Record TokenRange : Type := mkTokenRange { startTok : Z; endTok : Z }.

(** [nodeCreationInformation]: the payload a detector hands to the node
    factory of the symbol it detected, one shape per factory. *)
Inductive NodeCreationInformation : Type :=
| ArgumentInfo (argumentName : string) (argumentType : option string)
| AttributesInfo (attributeName : string) (attributeType : option string)
| CommentsInfo (commentContents : string)
| ReferencesInfo (referenceText : string) (refRelativePath : option string)
| ClassesInfo (classType : option string) (classDefinitionText : string) (classInnerRange : Range)
| FunctionsInfo (functionDefinitionText : string) (funcInnerRange : Range)
| FunctionDeclarationInfo (functionName : string) (functionReturnType : option string).

Record SymbolInfo : Type := mkSymbolInfo {
  symbolType : Symbol;
  parseRange : option TokenRange;
  nodeCreationInformation : option NodeCreationInformation
}.

Record SymbolAdditionDirective : Type := mkDirective {
  symbol : SymbolInfo;
  secondSymbol : option SymbolInfo;
  secondSymbolLen : option Z;
  firstTwoSymbolsEndBufferLen : option Z
}.

(** A terminal or non-terminal with nothing else set. *)
Definition plainSymbol (s : Symbol) : SymbolInfo := mkSymbolInfo s None None.
Definition symbolWithInfo (s : Symbol) (info : NodeCreationInformation) : SymbolInfo :=
  mkSymbolInfo s None (Some info).
Definition oneSymbol (s : SymbolInfo) : SymbolAdditionDirective := mkDirective s None None None.

(* ================================================================== *)
(** ** AbstractParser.ts *)

(** The private fields of [AbstractParser]. *)
Record ParserBase : Type := mkParserBase {
  sourceLines : list string;
  positionMap : list Index;
  numChars : nat;
  sourceTokens : list Token
}.

(** The abstract methods of [AbstractParser], over the fields [DetState]
    that a language's parser adds. A factory returns the node it has
    built; the detectors read the parser's tokens and position map. *)
Record Language : Type := mkLanguage {
  lexer : Lexer;
  DetState : Type;
  preparse : DetState -> list string -> list Token -> result DetState;
  preparseGetTokenizer : DetState -> result (AbstractTokenizer.t lexer);
  createArgumentNode : Range -> option NodeCreationInformation -> result SyntaxNode.t;
  createAttributesNode : Range -> option NodeCreationInformation -> result SyntaxNode.t;
  createCommentsNode : Range -> bool -> option NodeCreationInformation -> result SyntaxNode.t;
  createReferencesNode : Range -> option NodeCreationInformation -> result SyntaxNode.t;
  createClassesNode : Range -> option NodeCreationInformation -> result SyntaxNode.t;
  createFunctionsNode : Range -> option NodeCreationInformation -> result SyntaxNode.t;
  createFunctionDeclarationNode : Range -> option NodeCreationInformation -> result SyntaxNode.t;
  resetDetectionState : DetState -> Z -> NonTerminal -> DetState;
  isCommentBeforeFunction : bool;
  detectTopLevelSymbol : ParserBase -> DetState -> list Symbol -> option Token -> Z -> Z
                         -> result (DetState * option SymbolAdditionDirective);
  detectClassesSymbol : ParserBase -> DetState -> list Symbol -> option Token -> Z -> Z
                        -> result (DetState * option SymbolAdditionDirective);
  detectFunctionsSymbol : ParserBase -> DetState -> list Symbol -> option Token -> Z -> Z
                          -> result (DetState * option SymbolAdditionDirective);
  detectFunctionBodySymbol : ParserBase -> DetState -> list Symbol -> option Token -> Z -> Z
                             -> result (DetState * option SymbolAdditionDirective);
  detectFunctionDeclarationSymbol : ParserBase -> DetState -> list Symbol -> option Token -> Z -> Z
                                    -> result (DetState * option SymbolAdditionDirective)
}.

Module AbstractParser.

Definition undefinedError : exn := TypeError "Cannot read properties of undefined".

(** [getTokenChRange(tokIdx)]. *)
Definition getTokenChRange (p : ParserBase) (tokIdx : Z) : result CharacterRange :=
  match Js.nthZ (sourceTokens p) tokIdx with
  | Some tok => Ok (characterRange tok)
  | None => Throw undefinedError
  end.

(** [getRange(chStartIdx, chEndIdx)], through [getIndex]. *)
Definition getRange (p : ParserBase) (chStartIdx chEndIdx : nat) : result Range :=
  match nth_error (positionMap p) chStartIdx, nth_error (positionMap p) chEndIdx with
  | Some start, Some end_ =>
      Ok (mkRange (line start) (character start) (line end_) (character end_))
  | _, _ => Throw undefinedError
  end.

Definition getCodeLength (p : ParserBase) : nat := numChars p.

(** [getIndex(chIndex)]: [undefined] outside the position map. *)
Definition getIndex (p : ParserBase) (chIndex : nat) : option Index :=
  nth_error (positionMap p) chIndex.

(** [getCharacterFromIndex(chIndex)]; [getCharacter] reads the two fields
    of the index it is given, which is a [TypeError] on [undefined]. *)
Definition getCharacterFromIndex (p : ParserBase) (chIndex : nat) : result string :=
  match getIndex p chIndex with
  | Some index => Utils.getCharacter (sourceLines p) index
  | None => Throw undefinedError
  end.

(** The loop of [getSubstring]; [count] is the number of characters
    left. *)
Fixpoint getSubstringLoop (p : ParserBase) (i : nat) (count : nat) (str : string)
  : result string :=
  match count with
  | O => Ok str
  | S count' =>
      ch <- getCharacterFromIndex p i ;;
      getSubstringLoop p (S i) count' (str ++ ch)
  end.

(** [getSubstring(chStartIdx, chEndIdx)]. *)
Definition getSubstring (p : ParserBase) (chStartIdx chEndIdx : nat) : result string :=
  if (chEndIdx <? chStartIdx)%nat
  then Throw (Error "Invalid start end range!")
  else getSubstringLoop p chStartIdx (chEndIdx - chStartIdx) EmptyString.

(** The arrays that [parseNonTerminal] fills while it partitions its
    tokens, with the two variables [updateTokenStreamState] hands back. *)
Record Acc : Type := mkAcc {
  parsedEndTokIndex : Z;
  tokenBuffer : list Token;
  state : list Symbol;
  ntParseRange : list (option TokenRange);
  symbolRange : list TokenRange;
  nodeCreationInformationArr : list (option NodeCreationInformation)
}.

Definition assertParseRangeCorrectness (symbolType : Symbol) (parseRange : option TokenRange)
  (symbolRange : TokenRange) : result unit :=
  if negb (isTerminal symbolType) then
    match parseRange with
    | None => Throw (CodeParserImplError "If detected type is not a terminal, must return parseRange non null to resolve further by recursion.")
    | Some pr =>
        if negb ((startTok symbolRange <=? startTok pr) && (endTok pr <=? endTok symbolRange))
        then Throw (CodeParserImplError "The parse range of a non terminal must be contained inside the range used for detection.")
        else Ok tt
    end
  else
    match parseRange with
    | Some _ => Throw (CodeParserImplError "Terminal types does not have a parseRange since it doesn't have to be resolved.")
    | None => Ok tt
    end.

(** The block that [updateTokenStreamState] repeats for every symbol it
    commits: push onto the four arrays, default the parse range of a
    non-terminal to its symbol range, and assert the parse range. *)
Definition pushSymbol (acc : Acc) (sym : SymbolInfo) (range : TokenRange) : result Acc :=
  let pr := if negb (isTerminal (symbolType sym))
            then match parseRange sym with None => Some range | Some r => Some r end
            else parseRange sym in
  _ <- assertParseRangeCorrectness (symbolType sym) pr range ;;
  Ok (mkAcc (parsedEndTokIndex acc) (tokenBuffer acc)
            (state acc ++ [symbolType sym])
            (ntParseRange acc ++ [pr])
            (symbolRange acc ++ [range])
            (nodeCreationInformationArr acc ++ [nodeCreationInformation sym])).

Definition setBuffer (acc : Acc) (parsedEnd : Z) (buffer : list Token) : Acc :=
  mkAcc parsedEnd buffer (state acc) (ntParseRange acc) (symbolRange acc)
        (nodeCreationInformationArr acc).

Definition isSome {A : Type} (o : option A) : bool :=
  match o with Some _ => true | None => false end.

Definition isTopLevelSymbol (s : Symbol) : bool := Symbol_eqb s (NT TOP_LEVEL).

(** The checks of [updateTokenStreamState] on a directive, in order. *)
Definition checkDirective (d : SymbolAdditionDirective) (bufferLength : Z) : result unit :=
  if isTopLevelSymbol (symbolType (symbol d))
  then Throw (CodeParserImplError "Cannot detect TOP_LEVEL since it must be the root!")
  else if match secondSymbol d with Some s => isTopLevelSymbol (symbolType s) | None => false end
  then Throw (CodeParserImplError "Cannot detect TOP_LEVEL since it must be the root!")
  else if isSome (secondSymbol d) && (bufferLength <? 2)
  then Throw (CodeParserImplError "The token buffer must have at least length >= 2 to potentially split into two non-empty parts!")
  else if match secondSymbolLen d with Some l => bufferLength <=? l | None => false end
  then Throw (CodeParserImplError "The length of the second symbol must be strictly less than the length of the token buffer to split into two non-empty parts!")
  else if match secondSymbolLen d with Some l => l <? 1 | None => false end
  then Throw (CodeParserImplError "The length of the second symbol must be >= 1 to split into two non-empty parts!")
  else
    match firstTwoSymbolsEndBufferLen d with
    | None => Ok tt
    | Some f =>
        match secondSymbol d, secondSymbolLen d with
        | Some _, Some l =>
            if f <? 1
            then Throw (CodeParserImplError "The length of the remaining buffer has to be >= 1 to split into three non-empty parts!")
            else if bufferLength <=? f + l
            then Throw (CodeParserImplError "The secondSymbolLen along with the firstTwoSymbolsEndBufferLen must be that the buffer splits into three non-empty parts, including the first symbol.")
            else Ok tt
        | _, _ => Throw (CodeParserImplError "If it were the case that the remaning buffer length after the first two symbols is specified, it must be the case that the second symbol's information be fully given.")
        end
    end.

(** The part of [updateTokenStreamState] after the checks: commit one or
    two symbols and keep what stays in the buffer. *)
Definition manageBuffer (d : SymbolAdditionDirective) (acc : Acc) : result Acc :=
  let buffer := tokenBuffer acc in
  let n := Z.of_nat (List.length buffer) in
  let parsedEnd := parsedEndTokIndex acc in
  match secondSymbol d, secondSymbolLen d, firstTwoSymbolsEndBufferLen d with
  | None, None, _ =>
      acc <- pushSymbol acc (symbol d) (mkTokenRange parsedEnd (parsedEnd + n)) ;;
      Ok (setBuffer acc (parsedEnd + n) [])
  | second, len, Some f =>
      let l := match len with Some l => l | None => 0 end in
      let firstSecondSymbolSep := 0 + n - f - l in
      let secondSymbolEnd := 0 + n - f in
      acc <- pushSymbol acc (symbol d) (mkTokenRange (parsedEnd + 0) (parsedEnd + firstSecondSymbolSep)) ;;
      match second with
      | None => Throw undefinedError
      | Some s2 =>
          acc <- pushSymbol acc s2 (mkTokenRange (parsedEnd + firstSecondSymbolSep) (parsedEnd + secondSymbolEnd)) ;;
          Ok (setBuffer acc (parsedEnd + secondSymbolEnd)
                        (Js.slice buffer (Z.to_nat secondSymbolEnd) (Z.to_nat n)))
      end
  | second, len, None =>
      let l := match len with Some l => l | None => 1 end in
      acc <- pushSymbol acc (symbol d) (mkTokenRange parsedEnd (parsedEnd + n - l)) ;;
      match second with
      | None =>
          Ok (setBuffer acc (parsedEnd + (n - l)) (Js.slice buffer (Z.to_nat (n - l)) (Z.to_nat n)))
      | Some s2 =>
          acc <- pushSymbol acc s2 (mkTokenRange (parsedEnd + n - l) (parsedEnd + n)) ;;
          Ok (setBuffer acc (parsedEnd + n) [])
      end
  end.

Definition lastToken (buffer : list Token) : option Token :=
  match rev buffer with
  | tok :: _ => Some tok
  | [] => None
  end.

Definition getFirstLastFrom (state : list Symbol) : option nat :=
  let isContent (s : Symbol) :=
    negb (Symbol_eqb s (T FILLER)) && negb (Symbol_eqb s (T STATEMENTS_FILLER)) in
  (fix go (l : list Symbol) (i : nat) : option nat :=
     match l with
     | [] => None
     | s :: rest => if isContent s then Some i else go rest (S i)
     end) state 0%nat.

(** [getFirstLast]: the positions of the first and of the last symbol that
    is no filler, -1 where there is none. *)
Definition getFirstLast (state : list Symbol) : Z * Z :=
  let first := match getFirstLastFrom state with
               | Some i => Z.of_nat i
               | None => -1
               end in
  let last := match getFirstLastFrom (rev state) with
              | Some i => Z.of_nat (List.length state) - 1 - Z.of_nat i
              | None => -1
              end in
  (first, last).

Definition validateParsingStateTopLevel (state : list Symbol) : result unit :=
  if forallb (fun elem =>
       Symbol_eqb elem (T COMMENT_MULTILINE) || Symbol_eqb elem (T COMMENT_SINGLELINE)
       || Symbol_eqb elem (T FILLER) || Symbol_eqb elem (T REFERENCES)
       || Symbol_eqb elem (T STATEMENTS_FILLER) || Symbol_eqb elem (NT CLASSES)
       || Symbol_eqb elem (NT FUNCTIONS)) state
  then Ok tt
  else Throw (CodeParserImplError "Apart from the filler types, top level code can only contain comments, references (imports), classes and functions!").

Definition validateParsingStateClasses (state : list Symbol) : result unit :=
  if forallb (fun elem =>
       Symbol_eqb elem (T COMMENT_MULTILINE) || Symbol_eqb elem (T COMMENT_SINGLELINE)
       || Symbol_eqb elem (T STATEMENTS_FILLER) || Symbol_eqb elem (T FILLER)
       || Symbol_eqb elem (T ATTRIBUTES) || Symbol_eqb elem (NT FUNCTIONS)) state
  then Ok tt
  else Throw (CodeParserImplError "Apart from the filler types, class code can only contain comments, attributes (member variables), and functions!").

Definition validateParsingStateFunctions (state : list Symbol) : result unit :=
  if (List.length state <? 2)%nat
  then Throw (CodeParserImplError "A valid function must contain a function declaration first and then function body afterwards! Therefore expected state length >= 2")
  else
    let '(fi, la) := getFirstLast state in
    let first := if fi =? -1 then Some (T FILLER) else Js.nthZ state fi in
    let last := if la =? -1 then Some (T FILLER) else Js.nthZ state la in
    match first, last with
    | Some (NT FUNCTION_DECLARATION), Some (NT FUNCTION_BODY) => Ok tt
    | _, _ => Throw (CodeParserImplError "A valid function must contain a function declaration first and then function body afterwards!")
    end.

Definition validateParsingStateFunctionBody (state : list Symbol) : result unit :=
  if forallb (fun elem =>
       Symbol_eqb elem (T COMMENT_MULTILINE) || Symbol_eqb elem (T COMMENT_SINGLELINE)
       || Symbol_eqb elem (T FILLER) || Symbol_eqb elem (T STATEMENTS_FILLER)) state
  then Ok tt
  else Throw (CodeParserImplError "Apart from the filler types, function body code can only contain comments!").

(** The loop stops at the first offending element; a statements filler is
    reported with a message of its own. *)
Fixpoint validateParsingStateFunctionDeclaration (state : list Symbol) : result unit :=
  match state with
  | [] => Ok tt
  | elem :: rest =>
      if Symbol_eqb elem (T STATEMENTS_FILLER)
      then Throw (CodeParserImplError "Cannot have statements filler in function declarations! Code statements cannot be inside declarations.")
      else if negb (Symbol_eqb elem (T COMMENT_MULTILINE) || Symbol_eqb elem (T COMMENT_SINGLELINE)
                    || Symbol_eqb elem (T FILLER) || Symbol_eqb elem (T ARGUMENT))
      then Throw (CodeParserImplError "Apart from the filler types, function body code can only contain comments!")
      else validateParsingStateFunctionDeclaration rest
  end.

Definition validateParsingState (nonTerminal : NonTerminal) (state : list Symbol) : result unit :=
  match nonTerminal with
  | TOP_LEVEL => validateParsingStateTopLevel state
  | CLASSES => validateParsingStateClasses state
  | FUNCTIONS => validateParsingStateFunctions state
  | FUNCTION_BODY => validateParsingStateFunctionBody state
  | FUNCTION_DECLARATION => validateParsingStateFunctionDeclaration state
  end.

(** The state of the loop that adds the nodes to the parent. *)
Record AttachState : Type := mkAttachState {
  atStore : Store;
  danglingMultilineComment : option NodeId;
  isFirst : bool
}.

Section WithLanguage.
Variable L : Language.

Definition detect (nonTerminal : NonTerminal) :=
  match nonTerminal with
  | TOP_LEVEL => detectTopLevelSymbol L
  | CLASSES => detectClassesSymbol L
  | FUNCTIONS => detectFunctionsSymbol L
  | FUNCTION_BODY => detectFunctionBodySymbol L
  | FUNCTION_DECLARATION => detectFunctionDeclarationSymbol L
  end.

Definition updateTokenStreamState (p : ParserBase) (depth : Z) (nonTerminal : NonTerminal)
  (acc : Acc) (currentTokIndex : Z) (isConclusion : bool) (det : DetState L)
  : result (Acc * DetState L) :=
  token <- (if isConclusion then Ok None
            else match lastToken (tokenBuffer acc) with
                 | Some tok => Ok (Some tok)
                 | None => Throw undefinedError
                 end) ;;
  '(det, detectionResult) <- detect nonTerminal p det (state acc) token currentTokIndex depth ;;
  match detectionResult with
  | None => Ok (acc, det)
  | Some d =>
      _ <- checkDirective d (Z.of_nat (List.length (tokenBuffer acc))) ;;
      acc <- manageBuffer d acc ;;
      Ok (acc, det)
  end.

(** The [while] loop of [parseNonTerminal] over the tokens of the range;
    [count] is the number of tokens left. *)
Fixpoint detectLoop (p : ParserBase) (depth : Z) (nonTerminal : NonTerminal) (count : nat)
  (currentTokIndex : Z) (acc : Acc) (det : DetState L) : result (Acc * DetState L) :=
  match count with
  | O => Ok (acc, det)
  | S count' =>
      match Js.nthZ (sourceTokens p) currentTokIndex with
      | None => Throw undefinedError
      | Some token =>
          let acc := setBuffer acc (parsedEndTokIndex acc) (tokenBuffer acc ++ [token]) in
          '(acc, det) <- updateTokenStreamState p depth nonTerminal acc currentTokIndex false det ;;
          detectLoop p depth nonTerminal count' (currentTokIndex + 1) acc det
      end
  end.

Definition resolveIntoNode (p : ParserBase) (detectedType : Symbol) (detectedRange : TokenRange)
  (info : option NodeCreationInformation) (st : Store) : result (Store * option NodeId) :=
  first <- getTokenChRange p (startTok detectedRange) ;;
  last <- getTokenChRange p (endTok detectedRange - 1) ;;
  range <- getRange p (cr_start first) (cr_end last) ;;
  let created (m : result SyntaxNode.t) : result (Store * option NodeId) :=
    node <- m ;;
    let '(st', id) := Heap.alloc st node in
    Ok (st', Some id) in
  match detectedType with
  | T ARGUMENT => created (createArgumentNode L range info)
  | T ATTRIBUTES => created (createAttributesNode L range info)
  | T COMMENT_MULTILINE => created (createCommentsNode L range true info)
  | T COMMENT_SINGLELINE => created (createCommentsNode L range false info)
  | T REFERENCES => created (createReferencesNode L range info)
  | T FILLER => Ok (st, None)
  | T STATEMENTS_FILLER => Ok (st, None)
  | NT CLASSES => created (createClassesNode L range info)
  | NT FUNCTIONS => created (createFunctionsNode L range info)
  | NT FUNCTION_BODY => Ok (st, None)
  | NT FUNCTION_DECLARATION => created (createFunctionDeclarationNode L range info)
  | NT TOP_LEVEL => Throw (Error "Invalid detected type! Should not have happened.")
  end.

(** The loop that fills [childNodes]. *)
Fixpoint resolveAll (p : ParserBase) (state : list Symbol) (symbolRange : list TokenRange)
  (infos : list (option NodeCreationInformation)) (st : Store)
  : result (Store * list (option NodeId)) :=
  match state, symbolRange, infos with
  | s :: state', r :: symbolRange', i :: infos' =>
      '(st, node) <- resolveIntoNode p s r i st ;;
      '(st, nodes) <- resolveAll p state' symbolRange' infos' st ;;
      Ok (st, node :: nodes)
  | _, _, _ => Ok (st, [])
  end.

Definition parentIsFunctions (st : Store) (parent : NodeId) : result bool :=
  n <- Heap.get st parent ;; Ok (SyntaxNode.isFunctions n).

(** [parent.addChild(danglingMultilineComment); danglingMultilineComment =
    null] under [checkCommentFunctionPair]. *)
Definition flushDangling (checkCommentFunctionPair : bool) (parent : NodeId) (a : AttachState)
  : result AttachState :=
  match danglingMultilineComment a with
  | Some d =>
      if checkCommentFunctionPair then
        st <- Heap.addChild (atStore a) parent d ;;
        Ok (mkAttachState st None (isFirst a))
      else Ok a
  | None => Ok a
  end.

(** One round of the loop [for (i = 0; i < state.length; i++)] that adds
    the nodes to the parent. *)
Definition attachOne (nonTerminal : NonTerminal) (parent : NodeId)
  (checkCommentFunctionPair checkFirstCommentInFunction : bool)
  (sym : Symbol) (ani : option NodeId) (a : AttachState) : result AttachState :=
  if Symbol_eqb sym (T FILLER) then Ok a
  else if Symbol_eqb sym (T STATEMENTS_FILLER) then
    inBody <- (if NonTerminal_eqb nonTerminal FUNCTION_BODY
               then parentIsFunctions (atStore a) parent else Ok false) ;;
    st <- (if inBody then Heap.flagHaveFunctionBody (atStore a) parent else Ok (atStore a)) ;;
    Ok (mkAttachState st (danglingMultilineComment a) false)
  else
    match ani with
    | None => Ok a
    | Some ani =>
        node <- Heap.get (atStore a) ani ;;
        inBody <- (if NonTerminal_eqb nonTerminal FUNCTION_BODY
                   then parentIsFunctions (atStore a) parent else Ok false) ;;
        st <- (if inBody
                  && (negb (SyntaxNode.isComments node) || negb checkFirstCommentInFunction
                      || negb (SyntaxNode.isMultiLineComments node) || negb (isFirst a))
               then Heap.flagHaveFunctionBody (atStore a) parent
               else Ok (atStore a)) ;;
        let a := mkAttachState st (danglingMultilineComment a) (isFirst a) in
        a <- (if SyntaxNode.isComments node then
                a <- flushDangling checkCommentFunctionPair parent a ;;
                if checkCommentFunctionPair && SyntaxNode.isMultiLineComments node
                then Ok (mkAttachState (atStore a) (Some ani) (isFirst a))
                else if checkFirstCommentInFunction && SyntaxNode.isMultiLineComments node && isFirst a
                then
                  grandparent <- Heap.getParent (atStore a) parent ;;
                  match grandparent with
                  | None => Throw undefinedError
                  | Some g =>
                      st <- Heap.addChild (atStore a) g ani ;;
                      Ok (mkAttachState st (danglingMultilineComment a) (isFirst a))
                  end
                else
                  st <- Heap.addChild (atStore a) parent ani ;;
                  Ok (mkAttachState st (danglingMultilineComment a) (isFirst a))
              else if SyntaxNode.isFunctions node then
                match (if checkCommentFunctionPair then danglingMultilineComment a else None) with
                | Some d =>
                    dRange <- Heap.getRange (atStore a) d ;;
                    rangeUnion <- Utils.mergeRanges [dRange; SyntaxNode.range node] ;;
                    let '(st, funcGp) := Heap.alloc (atStore a) (SyntaxNode.new FunctionGroups rangeUnion) in
                    st <- Heap.addChild st funcGp d ;;
                    st <- Heap.addChild st funcGp ani ;;
                    st <- Heap.addChild st parent funcGp ;;
                    Ok (mkAttachState st None (isFirst a))
                | None =>
                    let '(st, funcGp) :=
                      Heap.alloc (atStore a) (SyntaxNode.new FunctionGroups (SyntaxNode.range node)) in
                    st <- Heap.addChild st funcGp ani ;;
                    st <- Heap.addChild st parent funcGp ;;
                    Ok (mkAttachState st (danglingMultilineComment a) (isFirst a))
                end
              else
                a <- flushDangling checkCommentFunctionPair parent a ;;
                st <- Heap.addChild (atStore a) parent ani ;;
                Ok (mkAttachState st (danglingMultilineComment a) (isFirst a))) ;;
        Ok (mkAttachState (atStore a) (danglingMultilineComment a) false)
    end.

Fixpoint attachLoop (nonTerminal : NonTerminal) (parent : NodeId)
  (checkCommentFunctionPair checkFirstCommentInFunction : bool)
  (state : list Symbol) (childNodes : list (option NodeId)) (a : AttachState)
  : result AttachState :=
  match state, childNodes with
  | sym :: state', ani :: childNodes' =>
      a <- attachOne nonTerminal parent checkCommentFunctionPair checkFirstCommentInFunction sym ani a ;;
      attachLoop nonTerminal parent checkCommentFunctionPair checkFirstCommentInFunction
                 state' childNodes' a
  | _, _ => Ok a
  end.

(** The whole of the node-adding part for a non-terminal other than
    [FUNCTIONS], up to the dangling comment that is added after the loop. *)
Definition attachChildren (nonTerminal : NonTerminal) (parent : NodeId)
  (state : list Symbol) (childNodes : list (option NodeId)) (st : Store) : result Store :=
  let checkCommentFunctionPair :=
    isCommentBeforeFunction L
    && (NonTerminal_eqb nonTerminal TOP_LEVEL || NonTerminal_eqb nonTerminal CLASSES) in
  let checkFirstCommentInFunction :=
    negb (isCommentBeforeFunction L) && NonTerminal_eqb nonTerminal FUNCTION_BODY in
  a <- attachLoop nonTerminal parent checkCommentFunctionPair checkFirstCommentInFunction
                  state childNodes (mkAttachState st None true) ;;
  match danglingMultilineComment a with
  | Some d => Heap.addChild (atStore a) parent d
  | None => Ok (atStore a)
  end.

(** The state that [parseNonTerminal] threads: the heap of nodes and the
    fields of the language's parser. *)
Record PState : Type := mkPState {
  psStore : Store;
  psDet : DetState L
}.

(** The partition of the tokens of [tokRange] into symbols: the detection
    loop, the concluding call, the check for a non-parsed rest and the
    validation of the production. *)
Definition detectSymbols (p : ParserBase) (nonTerminal : NonTerminal) (tokRange : TokenRange)
  (depth : Z) (det : DetState L) : result (Acc * DetState L) :=
  let det := resetDetectionState L det (startTok tokRange) nonTerminal in
  let acc := mkAcc (startTok tokRange) [] [] [] [] [] in
  '(acc, det) <- detectLoop p depth nonTerminal (Z.to_nat (endTok tokRange - startTok tokRange))
                            (startTok tokRange) acc det ;;
  let currentTokIndex := Z.max (startTok tokRange) (endTok tokRange) in
  '(acc, det) <- updateTokenStreamState p depth nonTerminal acc currentTokIndex true det ;;
  if negb (parsedEndTokIndex acc =? endTok tokRange)
  then Throw (CodeParsingError "Invalid code syntax! Contains some non-parsed portions.")
  else
    _ <- validateParsingState nonTerminal (state acc) ;;
    Ok (acc, det).

(** The loop [for (i = 0; i < state.length; i++)] of the recursion: every
    non-terminal is parsed into its node, or into the parent where it has
    none; [rec] is [parseNonTerminal]. *)
Fixpoint recurseChildren
  (rec : NonTerminal -> NodeId -> TokenRange -> Z -> PState -> result PState)
  (parent : NodeId) (depth : Z) (state : list Symbol) (childNodes : list (option NodeId))
  (ranges : list (option TokenRange)) (ps : PState) : result PState :=
  match state, childNodes, ranges with
  | sym :: state', ani :: childNodes', range :: ranges' =>
      match sym with
      | T _ => recurseChildren rec parent depth state' childNodes' ranges' ps
      | NT symbol =>
          let subnode := match ani with Some id => id | None => parent end in
          match range with
          | None => Throw undefinedError
          | Some r =>
              ps <- rec symbol subnode r (depth + 1) ps ;;
              recurseChildren rec parent depth state' childNodes' ranges' ps
          end
      end
  | _, _, _ => Ok ps
  end.

(** [parseNonTerminal]; [fuel] bounds the depth of the recursion. *)
Fixpoint parseNonTerminal (fuel : nat) (p : ParserBase) (nonTerminal : NonTerminal)
  (parent : NodeId) (tokRange : TokenRange) (depth : Z) (ps : PState) : result PState :=
  match fuel with
  | O => Throw OutOfFuel
  | S fuel' =>
      '(acc, det) <- detectSymbols p nonTerminal tokRange depth (psDet ps) ;;
      '(st, childNodes) <- resolveAll p (state acc) (symbolRange acc)
                                      (nodeCreationInformationArr acc) (psStore ps) ;;
      if NonTerminal_eqb nonTerminal FUNCTIONS then
        let '(first, last) := getFirstLast (state acc) in
        match Js.nthZ childNodes first, Js.nthZ (ntParseRange acc) first,
              Js.nthZ (ntParseRange acc) last with
        | Some (Some declaration), Some (Some declarationRange), Some (Some bodyRange) =>
            st <- Heap.addChild st parent declaration ;;
            ps <- parseNonTerminal fuel' p FUNCTION_DECLARATION declaration declarationRange
                                   (depth + 1) (mkPState st det) ;;
            parseNonTerminal fuel' p FUNCTION_BODY parent bodyRange (depth + 1) ps
        | _, _, _ => Throw undefinedError
        end
      else
        st <- attachChildren nonTerminal parent (state acc) childNodes st ;;
        recurseChildren (parseNonTerminal fuel' p) parent depth (state acc) childNodes
                        (ntParseRange acc) (mkPState st det)
  end.

(** The loop of [parse] over one line: every character is recorded in the
    position map and fed to the tokenizer, and the position after the last
    character stands for the line feed. *)
Fixpoint feedLine (lineIndex : nat) (chars : list ascii) (character_ : nat)
  (positionMap : list Index) (tokenizer : AbstractTokenizer.t (lexer L))
  : result (list Index * AbstractTokenizer.t (lexer L)) :=
  match chars with
  | [] =>
      tokenizer <- AbstractTokenizer.next tokenizer (Some Js.nl) ;;
      Ok (positionMap ++ [mkIndex lineIndex character_], tokenizer)
  | c :: rest =>
      tokenizer <- AbstractTokenizer.next tokenizer (Some c) ;;
      feedLine lineIndex rest (S character_) (positionMap ++ [mkIndex lineIndex character_]) tokenizer
  end.

Fixpoint feedLines (codeLines : list string) (lineIndex : nat) (positionMap : list Index)
  (tokenizer : AbstractTokenizer.t (lexer L))
  : result (list Index * AbstractTokenizer.t (lexer L)) :=
  match codeLines with
  | [] => Ok (positionMap, tokenizer)
  | l :: rest =>
      '(positionMap, tokenizer) <- feedLine lineIndex (Js.chars l) 0%nat positionMap tokenizer ;;
      feedLines rest (S lineIndex) positionMap tokenizer
  end.

(** The front end of [parse]: the tokens and the position map of the
    source. *)
Definition tokenizeLines (det : DetState L) (codeLines : list string) : result ParserBase :=
  tokenizer <- preparseGetTokenizer L det ;;
  '(positionMap, tokenizer) <- feedLines codeLines 0%nat [] tokenizer ;;
  let numChars := List.length positionMap in
  let positionMap := positionMap ++ [mkIndex (List.length codeLines) 0%nat] in
  tokenizer <- AbstractTokenizer.next tokenizer None ;;
  Ok (mkParserBase codeLines positionMap numChars (AbstractTokenizer.getTokens tokenizer)).

(** The recursion of [parseNonTerminal] is at most four calls deep:
    [TOP_LEVEL], [CLASSES], [FUNCTIONS] and one of its two parts. *)
Definition parseFuel : nat := 4%nat.

Definition isEmptyInput (codeLines : list string) : bool :=
  match codeLines with
  | [] => true
  | [l] => (String.length l =? 0)%nat
  | _ => false
  end.

(** [parse(codeLines)] on a parser whose language fields are [det]. *)
Definition parse (det : DetState L) (codeLines : list string) : result AbstractSyntaxTree.t :=
  if isEmptyInput codeLines
  then Throw (CodeParsingError "Cannot parse empty string!")
  else
    p <- tokenizeLines det codeLines ;;
    det <- preparse L det codeLines (sourceTokens p) ;;
    let maxRange := Utils.getMaxRange (sourceLines p) in
    let '(st, rootNode) := Heap.alloc [] (SyntaxNode.new TopLevel maxRange) in
    ps <- parseNonTerminal parseFuel p TOP_LEVEL rootNode
                           (mkTokenRange 0 (Z.of_nat (List.length (sourceTokens p)))) 0
                           (mkPState st det) ;;
    Ok (AbstractSyntaxTree.mkAST (psStore ps) rootNode (sourceLines p)).

End WithLanguage.

End AbstractParser.

(* ================================================================== *)
(** ** PythonParser.ts *)

Module PythonParser.

Inductive CodeBlockType : Type :=
| SINGLE_LINE
| MULTI_LINE.

(** The fields of [PythonParser]; one setter per field stands for an
    assignment to it. *)
Record State : Type := mkState {
  pythonCodeIndents : string;
  pythonIsTabs : bool;
  bracesMatcher : BracesMatcher.t;
  parseType : NonTerminal;
  globalDetectionStartIndex : Z;
  continuousIndentAfterNewline : bool;
  mostRecentLineTokIndex : Z;
  indentationCount : Z;
  prevTokenEndsWithBackslash : bool;
  parsingBlockInitiated : bool;
  lastLineForEndCodeBlockIndex : Z;
  encounteredComments : bool;
  singleLineImmediatelyAfterComments : bool;
  detectionType : CodeBlockType;
  detectionSymbol : Symbol;
  tokenStream : list Token;
  stringStream : string;
  stopAcceptingStringStream : bool;
  prevMultiline : bool;
  classOrFuncBodyParseStart : Z;
  functDetectingBody : bool;
  functColonIndex : Z;
  functRightAfterDef : bool;
  functName : option string;
  functRightAfterArrow : bool;
  functType : option string;
  functBodyHasOthers : bool;
  functBodyHasPreviousContent : bool;
  functBodyImmediatelyHasMLComments : option string;
  functDeclStrBuffer : string;
  functDeclStartParseIdx : Z;
  functDeclParsing : bool
}.

Definition set_pythonCodeIndents (v : string) (st : State) : State :=
  mkState v (pythonIsTabs st) (bracesMatcher st) (parseType st) (globalDetectionStartIndex st) (continuousIndentAfterNewline st) (mostRecentLineTokIndex st) (indentationCount st) (prevTokenEndsWithBackslash st) (parsingBlockInitiated st) (lastLineForEndCodeBlockIndex st) (encounteredComments st) (singleLineImmediatelyAfterComments st) (detectionType st) (detectionSymbol st) (tokenStream st) (stringStream st) (stopAcceptingStringStream st) (prevMultiline st) (classOrFuncBodyParseStart st) (functDetectingBody st) (functColonIndex st) (functRightAfterDef st) (functName st) (functRightAfterArrow st) (functType st) (functBodyHasOthers st) (functBodyHasPreviousContent st) (functBodyImmediatelyHasMLComments st) (functDeclStrBuffer st) (functDeclStartParseIdx st) (functDeclParsing st).
Definition set_pythonIsTabs (v : bool) (st : State) : State :=
  mkState (pythonCodeIndents st) v (bracesMatcher st) (parseType st) (globalDetectionStartIndex st) (continuousIndentAfterNewline st) (mostRecentLineTokIndex st) (indentationCount st) (prevTokenEndsWithBackslash st) (parsingBlockInitiated st) (lastLineForEndCodeBlockIndex st) (encounteredComments st) (singleLineImmediatelyAfterComments st) (detectionType st) (detectionSymbol st) (tokenStream st) (stringStream st) (stopAcceptingStringStream st) (prevMultiline st) (classOrFuncBodyParseStart st) (functDetectingBody st) (functColonIndex st) (functRightAfterDef st) (functName st) (functRightAfterArrow st) (functType st) (functBodyHasOthers st) (functBodyHasPreviousContent st) (functBodyImmediatelyHasMLComments st) (functDeclStrBuffer st) (functDeclStartParseIdx st) (functDeclParsing st).
Definition set_bracesMatcher (v : BracesMatcher.t) (st : State) : State :=
  mkState (pythonCodeIndents st) (pythonIsTabs st) v (parseType st) (globalDetectionStartIndex st) (continuousIndentAfterNewline st) (mostRecentLineTokIndex st) (indentationCount st) (prevTokenEndsWithBackslash st) (parsingBlockInitiated st) (lastLineForEndCodeBlockIndex st) (encounteredComments st) (singleLineImmediatelyAfterComments st) (detectionType st) (detectionSymbol st) (tokenStream st) (stringStream st) (stopAcceptingStringStream st) (prevMultiline st) (classOrFuncBodyParseStart st) (functDetectingBody st) (functColonIndex st) (functRightAfterDef st) (functName st) (functRightAfterArrow st) (functType st) (functBodyHasOthers st) (functBodyHasPreviousContent st) (functBodyImmediatelyHasMLComments st) (functDeclStrBuffer st) (functDeclStartParseIdx st) (functDeclParsing st).
Definition set_parseType (v : NonTerminal) (st : State) : State :=
  mkState (pythonCodeIndents st) (pythonIsTabs st) (bracesMatcher st) v (globalDetectionStartIndex st) (continuousIndentAfterNewline st) (mostRecentLineTokIndex st) (indentationCount st) (prevTokenEndsWithBackslash st) (parsingBlockInitiated st) (lastLineForEndCodeBlockIndex st) (encounteredComments st) (singleLineImmediatelyAfterComments st) (detectionType st) (detectionSymbol st) (tokenStream st) (stringStream st) (stopAcceptingStringStream st) (prevMultiline st) (classOrFuncBodyParseStart st) (functDetectingBody st) (functColonIndex st) (functRightAfterDef st) (functName st) (functRightAfterArrow st) (functType st) (functBodyHasOthers st) (functBodyHasPreviousContent st) (functBodyImmediatelyHasMLComments st) (functDeclStrBuffer st) (functDeclStartParseIdx st) (functDeclParsing st).
Definition set_globalDetectionStartIndex (v : Z) (st : State) : State :=
  mkState (pythonCodeIndents st) (pythonIsTabs st) (bracesMatcher st) (parseType st) v (continuousIndentAfterNewline st) (mostRecentLineTokIndex st) (indentationCount st) (prevTokenEndsWithBackslash st) (parsingBlockInitiated st) (lastLineForEndCodeBlockIndex st) (encounteredComments st) (singleLineImmediatelyAfterComments st) (detectionType st) (detectionSymbol st) (tokenStream st) (stringStream st) (stopAcceptingStringStream st) (prevMultiline st) (classOrFuncBodyParseStart st) (functDetectingBody st) (functColonIndex st) (functRightAfterDef st) (functName st) (functRightAfterArrow st) (functType st) (functBodyHasOthers st) (functBodyHasPreviousContent st) (functBodyImmediatelyHasMLComments st) (functDeclStrBuffer st) (functDeclStartParseIdx st) (functDeclParsing st).
Definition set_continuousIndentAfterNewline (v : bool) (st : State) : State :=
  mkState (pythonCodeIndents st) (pythonIsTabs st) (bracesMatcher st) (parseType st) (globalDetectionStartIndex st) v (mostRecentLineTokIndex st) (indentationCount st) (prevTokenEndsWithBackslash st) (parsingBlockInitiated st) (lastLineForEndCodeBlockIndex st) (encounteredComments st) (singleLineImmediatelyAfterComments st) (detectionType st) (detectionSymbol st) (tokenStream st) (stringStream st) (stopAcceptingStringStream st) (prevMultiline st) (classOrFuncBodyParseStart st) (functDetectingBody st) (functColonIndex st) (functRightAfterDef st) (functName st) (functRightAfterArrow st) (functType st) (functBodyHasOthers st) (functBodyHasPreviousContent st) (functBodyImmediatelyHasMLComments st) (functDeclStrBuffer st) (functDeclStartParseIdx st) (functDeclParsing st).
Definition set_mostRecentLineTokIndex (v : Z) (st : State) : State :=
  mkState (pythonCodeIndents st) (pythonIsTabs st) (bracesMatcher st) (parseType st) (globalDetectionStartIndex st) (continuousIndentAfterNewline st) v (indentationCount st) (prevTokenEndsWithBackslash st) (parsingBlockInitiated st) (lastLineForEndCodeBlockIndex st) (encounteredComments st) (singleLineImmediatelyAfterComments st) (detectionType st) (detectionSymbol st) (tokenStream st) (stringStream st) (stopAcceptingStringStream st) (prevMultiline st) (classOrFuncBodyParseStart st) (functDetectingBody st) (functColonIndex st) (functRightAfterDef st) (functName st) (functRightAfterArrow st) (functType st) (functBodyHasOthers st) (functBodyHasPreviousContent st) (functBodyImmediatelyHasMLComments st) (functDeclStrBuffer st) (functDeclStartParseIdx st) (functDeclParsing st).
Definition set_indentationCount (v : Z) (st : State) : State :=
  mkState (pythonCodeIndents st) (pythonIsTabs st) (bracesMatcher st) (parseType st) (globalDetectionStartIndex st) (continuousIndentAfterNewline st) (mostRecentLineTokIndex st) v (prevTokenEndsWithBackslash st) (parsingBlockInitiated st) (lastLineForEndCodeBlockIndex st) (encounteredComments st) (singleLineImmediatelyAfterComments st) (detectionType st) (detectionSymbol st) (tokenStream st) (stringStream st) (stopAcceptingStringStream st) (prevMultiline st) (classOrFuncBodyParseStart st) (functDetectingBody st) (functColonIndex st) (functRightAfterDef st) (functName st) (functRightAfterArrow st) (functType st) (functBodyHasOthers st) (functBodyHasPreviousContent st) (functBodyImmediatelyHasMLComments st) (functDeclStrBuffer st) (functDeclStartParseIdx st) (functDeclParsing st).
Definition set_prevTokenEndsWithBackslash (v : bool) (st : State) : State :=
  mkState (pythonCodeIndents st) (pythonIsTabs st) (bracesMatcher st) (parseType st) (globalDetectionStartIndex st) (continuousIndentAfterNewline st) (mostRecentLineTokIndex st) (indentationCount st) v (parsingBlockInitiated st) (lastLineForEndCodeBlockIndex st) (encounteredComments st) (singleLineImmediatelyAfterComments st) (detectionType st) (detectionSymbol st) (tokenStream st) (stringStream st) (stopAcceptingStringStream st) (prevMultiline st) (classOrFuncBodyParseStart st) (functDetectingBody st) (functColonIndex st) (functRightAfterDef st) (functName st) (functRightAfterArrow st) (functType st) (functBodyHasOthers st) (functBodyHasPreviousContent st) (functBodyImmediatelyHasMLComments st) (functDeclStrBuffer st) (functDeclStartParseIdx st) (functDeclParsing st).
Definition set_parsingBlockInitiated (v : bool) (st : State) : State :=
  mkState (pythonCodeIndents st) (pythonIsTabs st) (bracesMatcher st) (parseType st) (globalDetectionStartIndex st) (continuousIndentAfterNewline st) (mostRecentLineTokIndex st) (indentationCount st) (prevTokenEndsWithBackslash st) v (lastLineForEndCodeBlockIndex st) (encounteredComments st) (singleLineImmediatelyAfterComments st) (detectionType st) (detectionSymbol st) (tokenStream st) (stringStream st) (stopAcceptingStringStream st) (prevMultiline st) (classOrFuncBodyParseStart st) (functDetectingBody st) (functColonIndex st) (functRightAfterDef st) (functName st) (functRightAfterArrow st) (functType st) (functBodyHasOthers st) (functBodyHasPreviousContent st) (functBodyImmediatelyHasMLComments st) (functDeclStrBuffer st) (functDeclStartParseIdx st) (functDeclParsing st).
Definition set_lastLineForEndCodeBlockIndex (v : Z) (st : State) : State :=
  mkState (pythonCodeIndents st) (pythonIsTabs st) (bracesMatcher st) (parseType st) (globalDetectionStartIndex st) (continuousIndentAfterNewline st) (mostRecentLineTokIndex st) (indentationCount st) (prevTokenEndsWithBackslash st) (parsingBlockInitiated st) v (encounteredComments st) (singleLineImmediatelyAfterComments st) (detectionType st) (detectionSymbol st) (tokenStream st) (stringStream st) (stopAcceptingStringStream st) (prevMultiline st) (classOrFuncBodyParseStart st) (functDetectingBody st) (functColonIndex st) (functRightAfterDef st) (functName st) (functRightAfterArrow st) (functType st) (functBodyHasOthers st) (functBodyHasPreviousContent st) (functBodyImmediatelyHasMLComments st) (functDeclStrBuffer st) (functDeclStartParseIdx st) (functDeclParsing st).
Definition set_encounteredComments (v : bool) (st : State) : State :=
  mkState (pythonCodeIndents st) (pythonIsTabs st) (bracesMatcher st) (parseType st) (globalDetectionStartIndex st) (continuousIndentAfterNewline st) (mostRecentLineTokIndex st) (indentationCount st) (prevTokenEndsWithBackslash st) (parsingBlockInitiated st) (lastLineForEndCodeBlockIndex st) v (singleLineImmediatelyAfterComments st) (detectionType st) (detectionSymbol st) (tokenStream st) (stringStream st) (stopAcceptingStringStream st) (prevMultiline st) (classOrFuncBodyParseStart st) (functDetectingBody st) (functColonIndex st) (functRightAfterDef st) (functName st) (functRightAfterArrow st) (functType st) (functBodyHasOthers st) (functBodyHasPreviousContent st) (functBodyImmediatelyHasMLComments st) (functDeclStrBuffer st) (functDeclStartParseIdx st) (functDeclParsing st).
Definition set_singleLineImmediatelyAfterComments (v : bool) (st : State) : State :=
  mkState (pythonCodeIndents st) (pythonIsTabs st) (bracesMatcher st) (parseType st) (globalDetectionStartIndex st) (continuousIndentAfterNewline st) (mostRecentLineTokIndex st) (indentationCount st) (prevTokenEndsWithBackslash st) (parsingBlockInitiated st) (lastLineForEndCodeBlockIndex st) (encounteredComments st) v (detectionType st) (detectionSymbol st) (tokenStream st) (stringStream st) (stopAcceptingStringStream st) (prevMultiline st) (classOrFuncBodyParseStart st) (functDetectingBody st) (functColonIndex st) (functRightAfterDef st) (functName st) (functRightAfterArrow st) (functType st) (functBodyHasOthers st) (functBodyHasPreviousContent st) (functBodyImmediatelyHasMLComments st) (functDeclStrBuffer st) (functDeclStartParseIdx st) (functDeclParsing st).
Definition set_detectionType (v : CodeBlockType) (st : State) : State :=
  mkState (pythonCodeIndents st) (pythonIsTabs st) (bracesMatcher st) (parseType st) (globalDetectionStartIndex st) (continuousIndentAfterNewline st) (mostRecentLineTokIndex st) (indentationCount st) (prevTokenEndsWithBackslash st) (parsingBlockInitiated st) (lastLineForEndCodeBlockIndex st) (encounteredComments st) (singleLineImmediatelyAfterComments st) v (detectionSymbol st) (tokenStream st) (stringStream st) (stopAcceptingStringStream st) (prevMultiline st) (classOrFuncBodyParseStart st) (functDetectingBody st) (functColonIndex st) (functRightAfterDef st) (functName st) (functRightAfterArrow st) (functType st) (functBodyHasOthers st) (functBodyHasPreviousContent st) (functBodyImmediatelyHasMLComments st) (functDeclStrBuffer st) (functDeclStartParseIdx st) (functDeclParsing st).
Definition set_detectionSymbol (v : Symbol) (st : State) : State :=
  mkState (pythonCodeIndents st) (pythonIsTabs st) (bracesMatcher st) (parseType st) (globalDetectionStartIndex st) (continuousIndentAfterNewline st) (mostRecentLineTokIndex st) (indentationCount st) (prevTokenEndsWithBackslash st) (parsingBlockInitiated st) (lastLineForEndCodeBlockIndex st) (encounteredComments st) (singleLineImmediatelyAfterComments st) (detectionType st) v (tokenStream st) (stringStream st) (stopAcceptingStringStream st) (prevMultiline st) (classOrFuncBodyParseStart st) (functDetectingBody st) (functColonIndex st) (functRightAfterDef st) (functName st) (functRightAfterArrow st) (functType st) (functBodyHasOthers st) (functBodyHasPreviousContent st) (functBodyImmediatelyHasMLComments st) (functDeclStrBuffer st) (functDeclStartParseIdx st) (functDeclParsing st).
Definition set_tokenStream (v : list Token) (st : State) : State :=
  mkState (pythonCodeIndents st) (pythonIsTabs st) (bracesMatcher st) (parseType st) (globalDetectionStartIndex st) (continuousIndentAfterNewline st) (mostRecentLineTokIndex st) (indentationCount st) (prevTokenEndsWithBackslash st) (parsingBlockInitiated st) (lastLineForEndCodeBlockIndex st) (encounteredComments st) (singleLineImmediatelyAfterComments st) (detectionType st) (detectionSymbol st) v (stringStream st) (stopAcceptingStringStream st) (prevMultiline st) (classOrFuncBodyParseStart st) (functDetectingBody st) (functColonIndex st) (functRightAfterDef st) (functName st) (functRightAfterArrow st) (functType st) (functBodyHasOthers st) (functBodyHasPreviousContent st) (functBodyImmediatelyHasMLComments st) (functDeclStrBuffer st) (functDeclStartParseIdx st) (functDeclParsing st).
Definition set_stringStream (v : string) (st : State) : State :=
  mkState (pythonCodeIndents st) (pythonIsTabs st) (bracesMatcher st) (parseType st) (globalDetectionStartIndex st) (continuousIndentAfterNewline st) (mostRecentLineTokIndex st) (indentationCount st) (prevTokenEndsWithBackslash st) (parsingBlockInitiated st) (lastLineForEndCodeBlockIndex st) (encounteredComments st) (singleLineImmediatelyAfterComments st) (detectionType st) (detectionSymbol st) (tokenStream st) v (stopAcceptingStringStream st) (prevMultiline st) (classOrFuncBodyParseStart st) (functDetectingBody st) (functColonIndex st) (functRightAfterDef st) (functName st) (functRightAfterArrow st) (functType st) (functBodyHasOthers st) (functBodyHasPreviousContent st) (functBodyImmediatelyHasMLComments st) (functDeclStrBuffer st) (functDeclStartParseIdx st) (functDeclParsing st).
Definition set_stopAcceptingStringStream (v : bool) (st : State) : State :=
  mkState (pythonCodeIndents st) (pythonIsTabs st) (bracesMatcher st) (parseType st) (globalDetectionStartIndex st) (continuousIndentAfterNewline st) (mostRecentLineTokIndex st) (indentationCount st) (prevTokenEndsWithBackslash st) (parsingBlockInitiated st) (lastLineForEndCodeBlockIndex st) (encounteredComments st) (singleLineImmediatelyAfterComments st) (detectionType st) (detectionSymbol st) (tokenStream st) (stringStream st) v (prevMultiline st) (classOrFuncBodyParseStart st) (functDetectingBody st) (functColonIndex st) (functRightAfterDef st) (functName st) (functRightAfterArrow st) (functType st) (functBodyHasOthers st) (functBodyHasPreviousContent st) (functBodyImmediatelyHasMLComments st) (functDeclStrBuffer st) (functDeclStartParseIdx st) (functDeclParsing st).
Definition set_prevMultiline (v : bool) (st : State) : State :=
  mkState (pythonCodeIndents st) (pythonIsTabs st) (bracesMatcher st) (parseType st) (globalDetectionStartIndex st) (continuousIndentAfterNewline st) (mostRecentLineTokIndex st) (indentationCount st) (prevTokenEndsWithBackslash st) (parsingBlockInitiated st) (lastLineForEndCodeBlockIndex st) (encounteredComments st) (singleLineImmediatelyAfterComments st) (detectionType st) (detectionSymbol st) (tokenStream st) (stringStream st) (stopAcceptingStringStream st) v (classOrFuncBodyParseStart st) (functDetectingBody st) (functColonIndex st) (functRightAfterDef st) (functName st) (functRightAfterArrow st) (functType st) (functBodyHasOthers st) (functBodyHasPreviousContent st) (functBodyImmediatelyHasMLComments st) (functDeclStrBuffer st) (functDeclStartParseIdx st) (functDeclParsing st).
Definition set_classOrFuncBodyParseStart (v : Z) (st : State) : State :=
  mkState (pythonCodeIndents st) (pythonIsTabs st) (bracesMatcher st) (parseType st) (globalDetectionStartIndex st) (continuousIndentAfterNewline st) (mostRecentLineTokIndex st) (indentationCount st) (prevTokenEndsWithBackslash st) (parsingBlockInitiated st) (lastLineForEndCodeBlockIndex st) (encounteredComments st) (singleLineImmediatelyAfterComments st) (detectionType st) (detectionSymbol st) (tokenStream st) (stringStream st) (stopAcceptingStringStream st) (prevMultiline st) v (functDetectingBody st) (functColonIndex st) (functRightAfterDef st) (functName st) (functRightAfterArrow st) (functType st) (functBodyHasOthers st) (functBodyHasPreviousContent st) (functBodyImmediatelyHasMLComments st) (functDeclStrBuffer st) (functDeclStartParseIdx st) (functDeclParsing st).
Definition set_functDetectingBody (v : bool) (st : State) : State :=
  mkState (pythonCodeIndents st) (pythonIsTabs st) (bracesMatcher st) (parseType st) (globalDetectionStartIndex st) (continuousIndentAfterNewline st) (mostRecentLineTokIndex st) (indentationCount st) (prevTokenEndsWithBackslash st) (parsingBlockInitiated st) (lastLineForEndCodeBlockIndex st) (encounteredComments st) (singleLineImmediatelyAfterComments st) (detectionType st) (detectionSymbol st) (tokenStream st) (stringStream st) (stopAcceptingStringStream st) (prevMultiline st) (classOrFuncBodyParseStart st) v (functColonIndex st) (functRightAfterDef st) (functName st) (functRightAfterArrow st) (functType st) (functBodyHasOthers st) (functBodyHasPreviousContent st) (functBodyImmediatelyHasMLComments st) (functDeclStrBuffer st) (functDeclStartParseIdx st) (functDeclParsing st).
Definition set_functColonIndex (v : Z) (st : State) : State :=
  mkState (pythonCodeIndents st) (pythonIsTabs st) (bracesMatcher st) (parseType st) (globalDetectionStartIndex st) (continuousIndentAfterNewline st) (mostRecentLineTokIndex st) (indentationCount st) (prevTokenEndsWithBackslash st) (parsingBlockInitiated st) (lastLineForEndCodeBlockIndex st) (encounteredComments st) (singleLineImmediatelyAfterComments st) (detectionType st) (detectionSymbol st) (tokenStream st) (stringStream st) (stopAcceptingStringStream st) (prevMultiline st) (classOrFuncBodyParseStart st) (functDetectingBody st) v (functRightAfterDef st) (functName st) (functRightAfterArrow st) (functType st) (functBodyHasOthers st) (functBodyHasPreviousContent st) (functBodyImmediatelyHasMLComments st) (functDeclStrBuffer st) (functDeclStartParseIdx st) (functDeclParsing st).
Definition set_functRightAfterDef (v : bool) (st : State) : State :=
  mkState (pythonCodeIndents st) (pythonIsTabs st) (bracesMatcher st) (parseType st) (globalDetectionStartIndex st) (continuousIndentAfterNewline st) (mostRecentLineTokIndex st) (indentationCount st) (prevTokenEndsWithBackslash st) (parsingBlockInitiated st) (lastLineForEndCodeBlockIndex st) (encounteredComments st) (singleLineImmediatelyAfterComments st) (detectionType st) (detectionSymbol st) (tokenStream st) (stringStream st) (stopAcceptingStringStream st) (prevMultiline st) (classOrFuncBodyParseStart st) (functDetectingBody st) (functColonIndex st) v (functName st) (functRightAfterArrow st) (functType st) (functBodyHasOthers st) (functBodyHasPreviousContent st) (functBodyImmediatelyHasMLComments st) (functDeclStrBuffer st) (functDeclStartParseIdx st) (functDeclParsing st).
Definition set_functName (v : option string) (st : State) : State :=
  mkState (pythonCodeIndents st) (pythonIsTabs st) (bracesMatcher st) (parseType st) (globalDetectionStartIndex st) (continuousIndentAfterNewline st) (mostRecentLineTokIndex st) (indentationCount st) (prevTokenEndsWithBackslash st) (parsingBlockInitiated st) (lastLineForEndCodeBlockIndex st) (encounteredComments st) (singleLineImmediatelyAfterComments st) (detectionType st) (detectionSymbol st) (tokenStream st) (stringStream st) (stopAcceptingStringStream st) (prevMultiline st) (classOrFuncBodyParseStart st) (functDetectingBody st) (functColonIndex st) (functRightAfterDef st) v (functRightAfterArrow st) (functType st) (functBodyHasOthers st) (functBodyHasPreviousContent st) (functBodyImmediatelyHasMLComments st) (functDeclStrBuffer st) (functDeclStartParseIdx st) (functDeclParsing st).
Definition set_functRightAfterArrow (v : bool) (st : State) : State :=
  mkState (pythonCodeIndents st) (pythonIsTabs st) (bracesMatcher st) (parseType st) (globalDetectionStartIndex st) (continuousIndentAfterNewline st) (mostRecentLineTokIndex st) (indentationCount st) (prevTokenEndsWithBackslash st) (parsingBlockInitiated st) (lastLineForEndCodeBlockIndex st) (encounteredComments st) (singleLineImmediatelyAfterComments st) (detectionType st) (detectionSymbol st) (tokenStream st) (stringStream st) (stopAcceptingStringStream st) (prevMultiline st) (classOrFuncBodyParseStart st) (functDetectingBody st) (functColonIndex st) (functRightAfterDef st) (functName st) v (functType st) (functBodyHasOthers st) (functBodyHasPreviousContent st) (functBodyImmediatelyHasMLComments st) (functDeclStrBuffer st) (functDeclStartParseIdx st) (functDeclParsing st).
Definition set_functType (v : option string) (st : State) : State :=
  mkState (pythonCodeIndents st) (pythonIsTabs st) (bracesMatcher st) (parseType st) (globalDetectionStartIndex st) (continuousIndentAfterNewline st) (mostRecentLineTokIndex st) (indentationCount st) (prevTokenEndsWithBackslash st) (parsingBlockInitiated st) (lastLineForEndCodeBlockIndex st) (encounteredComments st) (singleLineImmediatelyAfterComments st) (detectionType st) (detectionSymbol st) (tokenStream st) (stringStream st) (stopAcceptingStringStream st) (prevMultiline st) (classOrFuncBodyParseStart st) (functDetectingBody st) (functColonIndex st) (functRightAfterDef st) (functName st) (functRightAfterArrow st) v (functBodyHasOthers st) (functBodyHasPreviousContent st) (functBodyImmediatelyHasMLComments st) (functDeclStrBuffer st) (functDeclStartParseIdx st) (functDeclParsing st).
Definition set_functBodyHasOthers (v : bool) (st : State) : State :=
  mkState (pythonCodeIndents st) (pythonIsTabs st) (bracesMatcher st) (parseType st) (globalDetectionStartIndex st) (continuousIndentAfterNewline st) (mostRecentLineTokIndex st) (indentationCount st) (prevTokenEndsWithBackslash st) (parsingBlockInitiated st) (lastLineForEndCodeBlockIndex st) (encounteredComments st) (singleLineImmediatelyAfterComments st) (detectionType st) (detectionSymbol st) (tokenStream st) (stringStream st) (stopAcceptingStringStream st) (prevMultiline st) (classOrFuncBodyParseStart st) (functDetectingBody st) (functColonIndex st) (functRightAfterDef st) (functName st) (functRightAfterArrow st) (functType st) v (functBodyHasPreviousContent st) (functBodyImmediatelyHasMLComments st) (functDeclStrBuffer st) (functDeclStartParseIdx st) (functDeclParsing st).
Definition set_functBodyHasPreviousContent (v : bool) (st : State) : State :=
  mkState (pythonCodeIndents st) (pythonIsTabs st) (bracesMatcher st) (parseType st) (globalDetectionStartIndex st) (continuousIndentAfterNewline st) (mostRecentLineTokIndex st) (indentationCount st) (prevTokenEndsWithBackslash st) (parsingBlockInitiated st) (lastLineForEndCodeBlockIndex st) (encounteredComments st) (singleLineImmediatelyAfterComments st) (detectionType st) (detectionSymbol st) (tokenStream st) (stringStream st) (stopAcceptingStringStream st) (prevMultiline st) (classOrFuncBodyParseStart st) (functDetectingBody st) (functColonIndex st) (functRightAfterDef st) (functName st) (functRightAfterArrow st) (functType st) (functBodyHasOthers st) v (functBodyImmediatelyHasMLComments st) (functDeclStrBuffer st) (functDeclStartParseIdx st) (functDeclParsing st).
Definition set_functBodyImmediatelyHasMLComments (v : option string) (st : State) : State :=
  mkState (pythonCodeIndents st) (pythonIsTabs st) (bracesMatcher st) (parseType st) (globalDetectionStartIndex st) (continuousIndentAfterNewline st) (mostRecentLineTokIndex st) (indentationCount st) (prevTokenEndsWithBackslash st) (parsingBlockInitiated st) (lastLineForEndCodeBlockIndex st) (encounteredComments st) (singleLineImmediatelyAfterComments st) (detectionType st) (detectionSymbol st) (tokenStream st) (stringStream st) (stopAcceptingStringStream st) (prevMultiline st) (classOrFuncBodyParseStart st) (functDetectingBody st) (functColonIndex st) (functRightAfterDef st) (functName st) (functRightAfterArrow st) (functType st) (functBodyHasOthers st) (functBodyHasPreviousContent st) v (functDeclStrBuffer st) (functDeclStartParseIdx st) (functDeclParsing st).
Definition set_functDeclStrBuffer (v : string) (st : State) : State :=
  mkState (pythonCodeIndents st) (pythonIsTabs st) (bracesMatcher st) (parseType st) (globalDetectionStartIndex st) (continuousIndentAfterNewline st) (mostRecentLineTokIndex st) (indentationCount st) (prevTokenEndsWithBackslash st) (parsingBlockInitiated st) (lastLineForEndCodeBlockIndex st) (encounteredComments st) (singleLineImmediatelyAfterComments st) (detectionType st) (detectionSymbol st) (tokenStream st) (stringStream st) (stopAcceptingStringStream st) (prevMultiline st) (classOrFuncBodyParseStart st) (functDetectingBody st) (functColonIndex st) (functRightAfterDef st) (functName st) (functRightAfterArrow st) (functType st) (functBodyHasOthers st) (functBodyHasPreviousContent st) (functBodyImmediatelyHasMLComments st) v (functDeclStartParseIdx st) (functDeclParsing st).
Definition set_functDeclStartParseIdx (v : Z) (st : State) : State :=
  mkState (pythonCodeIndents st) (pythonIsTabs st) (bracesMatcher st) (parseType st) (globalDetectionStartIndex st) (continuousIndentAfterNewline st) (mostRecentLineTokIndex st) (indentationCount st) (prevTokenEndsWithBackslash st) (parsingBlockInitiated st) (lastLineForEndCodeBlockIndex st) (encounteredComments st) (singleLineImmediatelyAfterComments st) (detectionType st) (detectionSymbol st) (tokenStream st) (stringStream st) (stopAcceptingStringStream st) (prevMultiline st) (classOrFuncBodyParseStart st) (functDetectingBody st) (functColonIndex st) (functRightAfterDef st) (functName st) (functRightAfterArrow st) (functType st) (functBodyHasOthers st) (functBodyHasPreviousContent st) (functBodyImmediatelyHasMLComments st) (functDeclStrBuffer st) v (functDeclParsing st).
Definition set_functDeclParsing (v : bool) (st : State) : State :=
  mkState (pythonCodeIndents st) (pythonIsTabs st) (bracesMatcher st) (parseType st) (globalDetectionStartIndex st) (continuousIndentAfterNewline st) (mostRecentLineTokIndex st) (indentationCount st) (prevTokenEndsWithBackslash st) (parsingBlockInitiated st) (lastLineForEndCodeBlockIndex st) (encounteredComments st) (singleLineImmediatelyAfterComments st) (detectionType st) (detectionSymbol st) (tokenStream st) (stringStream st) (stopAcceptingStringStream st) (prevMultiline st) (classOrFuncBodyParseStart st) (functDetectingBody st) (functColonIndex st) (functRightAfterDef st) (functName st) (functRightAfterArrow st) (functType st) (functBodyHasOthers st) (functBodyHasPreviousContent st) (functBodyImmediatelyHasMLComments st) (functDeclStrBuffer st) (functDeclStartParseIdx st) v.


Definition braces : list Braces :=
  [mkBraces "{" "}"; mkBraces "[" "]"; mkBraces "(" ")"].

(** [new PythonParser()] before the call of [resetDetectionState]. *)
Definition fieldInitializers (m : BracesMatcher.t) : State :=
  mkState EmptyString false m TOP_LEVEL (-1)
          true 0 0 false
          false 0 false false
          SINGLE_LINE (T STATEMENTS_FILLER)
          [] EmptyString false false (-1)
          false (-1) false None false None
          false false None
          EmptyString (-1) false.

Definition resetDetectionState (st : State) (startTokIndex : Z) (parsingNonTerminal : NonTerminal)
  : State :=
  let st := set_globalDetectionStartIndex startTokIndex st in
  let st := set_parseType parsingNonTerminal st in
  let st := set_bracesMatcher (BracesMatcher.reset (bracesMatcher st)) st in
  match parsingNonTerminal with
  | TOP_LEVEL =>
      let st := set_continuousIndentAfterNewline true st in
      let st := set_mostRecentLineTokIndex (-1) st in
      let st := set_indentationCount 0 st in
      let st := set_prevTokenEndsWithBackslash false st in
      let st := set_parsingBlockInitiated false st in
      let st := set_lastLineForEndCodeBlockIndex (-1) st in
      let st := set_encounteredComments false st in
      let st := set_singleLineImmediatelyAfterComments false st in
      let st := set_detectionType SINGLE_LINE st in
      set_detectionSymbol (T STATEMENTS_FILLER) st
  | CLASSES =>
      let st := set_continuousIndentAfterNewline false st in
      let st := set_mostRecentLineTokIndex (-1) st in
      let st := set_indentationCount 0 st in
      let st := set_prevTokenEndsWithBackslash false st in
      let st := set_parsingBlockInitiated false st in
      let st := set_lastLineForEndCodeBlockIndex (-1) st in
      let st := set_encounteredComments false st in
      let st := set_singleLineImmediatelyAfterComments false st in
      let st := set_detectionType SINGLE_LINE st in
      set_detectionSymbol (T STATEMENTS_FILLER) st
  | FUNCTIONS =>
      let st := set_functDetectingBody false st in
      let st := set_functColonIndex (-1) st in
      let st := set_functRightAfterDef false st in
      let st := set_functName None st in
      let st := set_functRightAfterArrow false st in
      set_functType None st
  | FUNCTION_BODY =>
      let st := set_continuousIndentAfterNewline false st in
      let st := set_mostRecentLineTokIndex (-1) st in
      let st := set_indentationCount 0 st in
      let st := set_prevTokenEndsWithBackslash false st in
      let st := set_functBodyHasOthers false st in
      let st := set_functBodyHasPreviousContent false st in
      set_functBodyImmediatelyHasMLComments None st
  | FUNCTION_DECLARATION =>
      let st := set_continuousIndentAfterNewline false st in
      let st := set_mostRecentLineTokIndex (-1) st in
      let st := set_indentationCount 0 st in
      let st := set_prevTokenEndsWithBackslash false st in
      let st := set_functDeclStrBuffer EmptyString st in
      let st := set_functDeclStartParseIdx (-1) st in
      set_functDeclParsing false st
  end.

Definition constructor : result State :=
  m <- BracesMatcher.constructor braces ;;
  Ok (resetDetectionState (fieldInitializers m) 0 TOP_LEVEL).

(** [line.match(/^([ \t]+)/)]: the leading run of spaces and tabs. *)
Fixpoint leadingIndent (l : list ascii) : list ascii :=
  match l with
  | c :: r =>
      if Ascii.eqb c " "%char || Ascii.eqb c (ascii_of_nat 9) then c :: leadingIndent r else []
  | [] => []
  end.

Definition mixedIndentation : exn :=
  CodeParsingError "Python code cannot have mixed spaces and tabs for indentation!".

(** The first loop of [preparse]. *)
Fixpoint scanIndents (codeLines : list string) (spaceIndentCounts : list Z) (tabIndentCount : Z)
  : result (list Z * Z) :=
  match codeLines with
  | [] => Ok (spaceIndentCounts, tabIndentCount)
  | line :: rest =>
      if Js.len (Js.trim line) =? 0 then scanIndents rest spaceIndentCounts tabIndentCount
      else
        match leadingIndent (Js.chars line) with
        | [] => scanIndents rest spaceIndentCounts tabIndentCount
        | indent =>
            let hasSpaces := existsb (Ascii.eqb " "%char) indent in
            let hasTabs := existsb (Ascii.eqb (ascii_of_nat 9)) indent in
            if hasSpaces && hasTabs then Throw mixedIndentation
            else if hasSpaces
            then scanIndents rest (spaceIndentCounts ++ [Z.of_nat (List.length indent)]) tabIndentCount
            else if hasTabs then scanIndents rest spaceIndentCounts (tabIndentCount + 1)
            else scanIndents rest spaceIndentCounts tabIndentCount
        end
  end.

(** [invalidCount / total <= 0.2] in floating point. With no count at all
    the quotient is NaN and the comparison is false; otherwise, for array
    lengths, it holds exactly when [5 * invalidCount <= total]. *)
Definition invalidRatioWithinThreshold (invalidCount total : Z) : bool :=
  (0 <? total) && (5 * invalidCount <=? total).

Fixpoint findIndentStep (possibleFactors : list Z) (spaceIndentCounts : list Z) : option Z :=
  match possibleFactors with
  | [] => None
  | factor :: rest =>
      if factor =? 0 then findIndentStep rest spaceIndentCounts
      else
        let invalidCount :=
          Z.of_nat (List.length (filter (fun count => negb (Z.rem count factor =? 0)) spaceIndentCounts)) in
        if invalidRatioWithinThreshold invalidCount (Z.of_nat (List.length spaceIndentCounts))
        then Some factor
        else findIndentStep rest spaceIndentCounts
  end.

Definition preparse (st : State) (codeLines : list string) (tokens : list Token) : result State :=
  '(spaceIndentCounts, tabIndentCount) <- scanIndents codeLines [] 0 ;;
  if (0 <? Z.of_nat (List.length spaceIndentCounts)) && (0 <? tabIndentCount)
  then Throw mixedIndentation
  else
    let st := if (Z.of_nat (List.length spaceIndentCounts) =? 0) && (tabIndentCount =? 0)
              then set_pythonCodeIndents EmptyString (set_pythonIsTabs false st)
              else st in
    if 0 <? tabIndentCount
    then Ok (set_pythonCodeIndents Js.tab (set_pythonIsTabs true st))
    else
      match findIndentStep [12; 6; 4; 3; 2] spaceIndentCounts with
      | None => Throw (CodeParsingError "Unable to detect a consistent indentation step within the allowed threshold.")
      | Some indentStep =>
          Ok (set_pythonIsTabs false (set_pythonCodeIndents (Js.repeat " " (Z.to_nat indentStep)) st))
      end.

Definition isCommentBeforeFunction : bool := false.

Definition preparseGetTokenizer (st : State) : result (AbstractTokenizer.t PythonTokenizer.lexer) :=
  PythonTokenizer.constructor.

(** The node factories. A payload of another shape than the factory reads
    does not occur: every detector passes the payload of its symbol. *)
Definition wrongPayload : exn := TypeError "Cannot read properties of undefined".

Definition createArgumentNode (range : Range) (info : option NodeCreationInformation)
  : result SyntaxNode.t :=
  match info with
  | Some (ArgumentInfo name type) => Ok (SyntaxNode.new (Argument name type) range)
  | _ => Throw wrongPayload
  end.

Definition createAttributesNode (range : Range) (info : option NodeCreationInformation)
  : result SyntaxNode.t :=
  match info with
  | Some (AttributesInfo name type) => Ok (SyntaxNode.new (Attributes name type) range)
  | _ => Throw wrongPayload
  end.

Definition createCommentsNode (range : Range) (isMultiLine : bool)
  (info : option NodeCreationInformation) : result SyntaxNode.t :=
  match info with
  | Some (CommentsInfo contents) => Ok (SyntaxNode.new (Comments isMultiLine contents) range)
  | _ => Throw wrongPayload
  end.

Definition createReferencesNode (range : Range) (info : option NodeCreationInformation)
  : result SyntaxNode.t :=
  match info with
  | Some (ReferencesInfo text path) => Ok (SyntaxNode.new (References text path) range)
  | _ => Throw wrongPayload
  end.

Definition createClassesNode (range : Range) (info : option NodeCreationInformation)
  : result SyntaxNode.t :=
  match info with
  | Some (ClassesInfo classType text inner) =>
      SyntaxNode.overrideInnerRange (SyntaxNode.new (Classes classType text) range) inner
  | _ => Throw wrongPayload
  end.

Definition createFunctionsNode (range : Range) (info : option NodeCreationInformation)
  : result SyntaxNode.t :=
  match info with
  | Some (FunctionsInfo text inner) =>
      SyntaxNode.overrideInnerRange (SyntaxNode.new (Functions text false) range) inner
  | _ => Throw wrongPayload
  end.

Definition createFunctionDeclarationNode (range : Range) (info : option NodeCreationInformation)
  : result SyntaxNode.t :=
  match info with
  | Some (FunctionDeclarationInfo name type) =>
      Ok (SyntaxNode.new (FunctionDeclaration name type) range)
  | _ => Throw wrongPayload
  end.

Definition currentDepth (st : State) : Z :=
  Z.of_nat (BracesMatcher.currentDepth (bracesMatcher st)).

(** [try { this.bracesMatcher.next(...) } catch ...]. *)
Definition bracesNext (st : State) (ch : string) : result State :=
  '(m, _) <- rethrowAsCodeParsingError "Error during brace matching! "
                                       (BracesMatcher.next (bracesMatcher st) ch) ;;
  Ok (set_bracesMatcher m st).

Definition contentsIs (token : Token) (s : string) : bool := String.eqb (stringContents token) s.
Definition typeIs (token : Token) (ty : TokenType) : bool := TokenType_eqb (tokenType token) ty.
Definition hasColon (token : Token) : bool := negb (Js.indexOf (stringContents token) ":"%char =? -1).

(** [trimReplaceString]. *)
Definition trimReplaceString (s : string) : string :=
  Js.str (Js.removeBackslashNewline (Js.chars (Js.trim s))).

(** [substring(1, length)] of a single-line comment token. *)
Definition commentText (token : Token) : string :=
  Js.substring (stringContents token) 1 (Js.len (stringContents token)).

Definition updateCodeBlocksBracesAndSpacingsState (st : State) (token : Token)
  (currentTokIndex : Z) : result State :=
  if typeIs token SPACINGS then
    let st :=
      if currentDepth st =? 0 then
        if contentsIs token Js.newline && negb (prevTokenEndsWithBackslash st) then
          let st := set_mostRecentLineTokIndex currentTokIndex st in
          let st := set_indentationCount 0 st in
          set_continuousIndentAfterNewline true st
        else if continuousIndentAfterNewline st
        then set_indentationCount (indentationCount st + 1) st
        else st
      else st in
    Ok (set_prevTokenEndsWithBackslash false st)
  else if typeIs token BRACES then
    st <- bracesNext st (stringContents token) ;;
    let st := set_continuousIndentAfterNewline false st in
    Ok (set_prevTokenEndsWithBackslash false st)
  else
    let st := set_continuousIndentAfterNewline false st in
    let st := set_prevTokenEndsWithBackslash false st in
    let s := stringContents token in
    if (0 <? Js.len s) && String.eqb (Js.charAt s (Js.len s - 1)) Js.backslash
    then Ok (set_prevTokenEndsWithBackslash true st)
    else Ok st.

Definition detectFunctionsSymbol (p : ParserBase) (st : State) (state : list Symbol)
  (token : option Token) (currentTokIndex depth : Z)
  : result (State * option SymbolAdditionDirective) :=
  if functDetectingBody st then
    match token with
    | None => Ok (st, Some (oneSymbol (plainSymbol (NT FUNCTION_BODY))))
    | Some _ => Ok (st, None)
    end
  else
    match token with
    | None => Throw (CodeParsingError "Expected function to be separated by a colon!")
    | Some token =>
        if (currentDepth st =? 0) && hasColon token then
          let st := set_functColonIndex currentTokIndex st in
          let st := set_functDetectingBody true st in
          match functName st with
          | None => Throw (CodeParsingError "Invalid syntax! Missing function name between def and colon!")
          | Some name =>
              let st := match functType st with
                        | Some ty => set_functType (Some (Js.trim ty)) st
                        | None => st
                        end in
              Ok (st, Some (oneSymbol
                    (mkSymbolInfo (NT FUNCTION_DECLARATION)
                       (Some (mkTokenRange (globalDetectionStartIndex st) (functColonIndex st)))
                       (Some (FunctionDeclarationInfo (Js.trim name) (functType st))))))
          end
        else
          let st :=
            if functRightAfterDef st && typeIs token OTHERS
            then set_functName (Some (stringContents token)) (set_functRightAfterDef false st)
            else if functRightAfterDef st && negb (typeIs token SPACINGS)
            then set_functRightAfterDef false st
            else if currentTokIndex =? globalDetectionStartIndex st
            then set_functRightAfterDef true st
            else st in
          let st :=
            if functRightAfterArrow st && typeIs token OTHERS
            then set_functType (Some (stringContents token)) (set_functRightAfterArrow false st)
            else if functRightAfterArrow st && negb (typeIs token SPACINGS)
            then set_functRightAfterArrow false st
            else if contentsIs token "->" && (currentDepth st =? 0)
            then set_functRightAfterArrow true st
            else st in
          st <- (if typeIs token BRACES then bracesNext st (stringContents token) else Ok st) ;;
          Ok (st, None)
    end.

Definition fillerOf (hasOthers : bool) : SymbolInfo :=
  plainSymbol (T (if hasOthers then STATEMENTS_FILLER else FILLER)).

Definition detectFunctionBodySymbol (p : ParserBase) (st : State) (state : list Symbol)
  (token : option Token) (currentTokIndex depth : Z)
  : result (State * option SymbolAdditionDirective) :=
  match token with
  | None =>
      match functBodyImmediatelyHasMLComments st with
      | Some comments =>
          if functBodyHasPreviousContent st
          then Ok (st, Some (mkDirective (fillerOf (functBodyHasOthers st))
                               (Some (symbolWithInfo (T COMMENT_MULTILINE) (CommentsInfo comments)))
                               (Some 1) None))
          else Ok (st, Some (oneSymbol (symbolWithInfo (T COMMENT_MULTILINE) (CommentsInfo comments))))
      | None =>
          if functBodyHasPreviousContent st
          then Ok (st, Some (oneSymbol (fillerOf (functBodyHasOthers st))))
          else Ok (st, None)
      end
  | Some token =>
      let '(st, retDirective) :=
        if typeIs token SINGLELINE_COMMENTS then
          let comment := symbolWithInfo (T COMMENT_SINGLELINE) (CommentsInfo (commentText token)) in
          let retDirective :=
            if functBodyHasPreviousContent st
            then mkDirective (fillerOf (functBodyHasOthers st)) (Some comment) None None
            else oneSymbol comment in
          (set_functBodyHasPreviousContent false (set_functBodyHasOthers false st), Some retDirective)
        else if typeIs token MULTILINE_COMMENTS_OR_STRINGS && continuousIndentAfterNewline st then
          (set_functBodyImmediatelyHasMLComments
             (Some (Js.substring (stringContents token) 3 (Js.len (stringContents token) - 3))) st,
           None)
        else
          match functBodyImmediatelyHasMLComments st with
          | Some comments =>
              if contentsIs token Js.newline then
                let comment := symbolWithInfo (T COMMENT_MULTILINE) (CommentsInfo comments) in
                let retDirective :=
                  if functBodyHasPreviousContent st
                  then mkDirective (fillerOf (functBodyHasOthers st)) (Some comment) (Some 1) (Some 1)
                  else mkDirective comment None (Some 1) None in
                (set_functBodyImmediatelyHasMLComments None
                   (set_functBodyHasPreviousContent false (set_functBodyHasOthers false st)),
                 Some retDirective)
              else
                let st := set_functBodyHasPreviousContent true st in
                let st := set_functBodyImmediatelyHasMLComments None st in
                (if negb (typeIs token SPACINGS) then set_functBodyHasOthers true st else st, None)
          | None =>
              let st := set_functBodyHasPreviousContent true st in
              let st := set_functBodyImmediatelyHasMLComments None st in
              (if negb (typeIs token SPACINGS) then set_functBodyHasOthers true st else st, None)
          end in
      st <- updateCodeBlocksBracesAndSpacingsState st token currentTokIndex ;;
      Ok (st, retDirective)
  end.

(** The block that [detectFunctionDeclarationSymbol] runs when an argument
    ends (at a comma of depth one and at the closing bracket): the
    directive for the argument in [functDeclStrBuffer], if there is one. *)
Definition concludeArgument (st : State) (currentTokIndex : Z)
  : State * option SymbolAdditionDirective :=
  let argument := trimReplaceString (functDeclStrBuffer st) in
  if Js.len argument =? 0 then (set_functDeclStrBuffer EmptyString st, None)
  else
    let idx := Js.indexOf argument "="%char in
    let argument := if negb (idx =? -1) then Js.trim (Js.substring argument 0 idx) else argument in
    let idx := Js.indexOf argument ":"%char in
    let '(argumentName, argumentType) :=
      if (0 <? idx) && (idx <? Js.len argument - 1)
      then (Js.trim (Js.substring argument 0 idx),
            Some (Js.trim (Js.substring argument (idx + 1) (Js.len argument))))
      else (argument, None) in
    let retDirective :=
      mkDirective (plainSymbol (T FILLER))
                  (Some (symbolWithInfo (T ARGUMENT) (ArgumentInfo argumentName argumentType)))
                  (Some (currentTokIndex - functDeclStartParseIdx st - 1))
                  (Some 1) in
    (set_functDeclStrBuffer EmptyString (set_functDeclStartParseIdx currentTokIndex st),
     Some retDirective).

Definition detectFunctionDeclarationSymbol (p : ParserBase) (st : State) (state : list Symbol)
  (token : option Token) (currentTokIndex depth : Z)
  : result (State * option SymbolAdditionDirective) :=
  match token with
  | None => Ok (st, Some (oneSymbol (plainSymbol (T FILLER))))
  | Some token =>
      let '(st, retDirective) :=
        if functDeclParsing st then
          if negb (typeIs token COMMAS) then
            if (1 <? currentDepth st) || negb (contentsIs token ")")
            then (set_functDeclStrBuffer (functDeclStrBuffer st ++ stringContents token)%string st, None)
            else (st, None)
          else if 1 <? currentDepth st
          then (set_functDeclStrBuffer (functDeclStrBuffer st ++ stringContents token)%string st, None)
          else if currentDepth st =? 1 then concludeArgument st currentTokIndex
          else (st, None)
        else (st, None) in
      st <- updateCodeBlocksBracesAndSpacingsState st token currentTokIndex ;;
      if functDeclParsing st && (currentDepth st =? 0) then
        let st := set_functDeclParsing false st in
        let '(st, concluded) := concludeArgument st currentTokIndex in
        Ok (st, match concluded with Some d => Some d | None => retDirective end)
      else if (0 <? currentDepth st) && (functDeclStartParseIdx st =? -1) then
        Ok (set_functDeclParsing true (set_functDeclStartParseIdx currentTokIndex st), retDirective)
      else Ok (st, retDirective)
  end.

Definition isKeyword (token : Token) (word : string) : bool :=
  contentsIs token word || contentsIs token (word ++ Js.backslash)%string.

Definition notSupported : exn := Error "Not supported!".

(** The two tests on the colon that ends the header of a function or of a
    class, shared by the [FUNCTIONS] and [CLASSES] branches. *)
Definition stopAtColon (st : State) (token : Token) (currentTokIndex : Z) : State :=
  if negb (stopAcceptingStringStream st) && (currentDepth st =? 0) && hasColon token
  then set_classOrFuncBodyParseStart (currentTokIndex + 1) (set_stopAcceptingStringStream true st)
  else st.

(** The end of both branches of [updateCodeBlocksContentsParseState]. *)
Definition addToStreams (st : State) (token : Token) : State :=
  let st := if negb (typeIs token SPACINGS)
            then set_tokenStream (tokenStream st ++ [token]) st
            else st in
  if negb (stopAcceptingStringStream st)
  then set_stringStream (stringStream st ++ stringContents token)%string st
  else st.

Definition updateCodeBlocksContentsParseState (st : State) (token : Token) (needsReset : bool)
  (currentTokIndex indentationExpected : Z) : result State :=
  let st :=
    if needsReset then
      let st := set_tokenStream [] st in
      let st := set_stringStream EmptyString st in
      let st := set_prevMultiline false st in
      let st := set_stopAcceptingStringStream false st in
      set_classOrFuncBodyParseStart (-1) st
    else st in
  match parseType st with
  | TOP_LEVEL =>
      let st :=
        if Js.len (stringStream st) =? 0 then
          if indentationExpected =? indentationCount st then
            if isKeyword token "from" || isKeyword token "import"
            then set_detectionSymbol (T REFERENCES) st
            else if isKeyword token "def"
            then set_detectionSymbol (NT FUNCTIONS) (set_detectionType MULTI_LINE st)
            else if isKeyword token "class"
            then set_detectionSymbol (NT CLASSES) (set_detectionType MULTI_LINE st)
            else if typeIs token MULTILINE_COMMENTS_OR_STRINGS
            then set_detectionSymbol (T COMMENT_MULTILINE) st
            else st
          else st
        else
          let st := if Symbol_eqb (detectionSymbol st) (T COMMENT_MULTILINE)
                       && negb (typeIs token SPACINGS)
                    then set_detectionSymbol (T STATEMENTS_FILLER) st
                    else st in
          let st := if Symbol_eqb (detectionSymbol st) (NT FUNCTIONS)
                    then stopAtColon st token currentTokIndex else st in
          if Symbol_eqb (detectionSymbol st) (NT CLASSES)
          then stopAtColon st token currentTokIndex else st in
      Ok (addToStreams st token)
  | CLASSES =>
      let st :=
        if Js.len (stringStream st) =? 0 then
          if indentationExpected =? indentationCount st then
            if isKeyword token "def"
            then set_detectionSymbol (NT FUNCTIONS) (set_detectionType MULTI_LINE st)
            else if typeIs token MULTILINE_COMMENTS_OR_STRINGS
            then set_prevMultiline true (set_detectionSymbol (T COMMENT_MULTILINE) st)
            else st
          else st
        else
          let st := if Symbol_eqb (detectionSymbol st) (T COMMENT_MULTILINE)
                       && negb (typeIs token SPACINGS)
                    then set_detectionSymbol (T STATEMENTS_FILLER) st
                    else st in
          if Symbol_eqb (detectionSymbol st) (NT FUNCTIONS)
          then stopAtColon st token currentTokIndex else st in
      let lastColon := Js.lastIndexOf (stringContents token) ":"%char in
      let st :=
        if negb (prevMultiline st) && Symbol_eqb (detectionSymbol st) (T STATEMENTS_FILLER)
           && (currentDepth st =? 0) && (indentationExpected =? indentationCount st)
           && (((0 <? Js.len (stringStream st)) && negb (lastColon =? -1)) || (0 <? lastColon))
        then set_detectionSymbol (T ATTRIBUTES) st
        else st in
      Ok (addToStreams st token)
  | _ => Throw notSupported
  end.

(** The reference path of a [from X import Y] or [import X] statement. *)
Definition tokenStreamIs (st : State) (i : nat) (word : string) : bool :=
  match nth_error (tokenStream st) i with
  | Some token => isKeyword token word
  | None => false
  end.

Fixpoint countLeadingDots (l : list ascii) : nat :=
  match l with
  | c :: r => if Ascii.eqb c "."%char then S (countLeadingDots r) else O
  | [] => O
  end.

Definition resolveReference (st : State) : option string :=
  let importContents := match nth_error (tokenStream st) 1 with
                        | Some token => stringContents token
                        | None => EmptyString
                        end in
  if (4 <=? List.length (tokenStream st))%nat && tokenStreamIs st 0 "from" && tokenStreamIs st 2 "import"
  then
    if 0 <? Js.len importContents then
      if String.eqb (Js.charAt importContents 0) "." then
        let lcPath := Js.substring importContents 1 (Js.len importContents) in
        if Js.len lcPath =? 0 then Some "local-file://"
        else
          let count := countLeadingDots (Js.chars lcPath) in
          Some ("local-file://" ++ Js.repeat "../" count
                ++ Js.replaceDots (Js.substring lcPath (Z.of_nat count) (Js.len lcPath)))%string
      else Some ("environment://" ++ Js.replaceDots importContents)%string
    else None
  else if (2 <=? List.length (tokenStream st))%nat && tokenStreamIs st 0 "import"
  then
    if 0 <? Js.len importContents
    then Some ("environment://" ++ Js.replaceDots importContents)%string
    else None
  else None.

(** The inner range of a class or function:
    [getRange(getTokenChRange(classOrFuncBodyParseStart).start,
    getTokenChRange(lastLineForEndCodeBlockIndex).start)]. *)
Definition bodyRange (p : ParserBase) (st : State) : result Range :=
  first <- AbstractParser.getTokenChRange p (classOrFuncBodyParseStart st) ;;
  last <- AbstractParser.getTokenChRange p (lastLineForEndCodeBlockIndex st) ;;
  AbstractParser.getRange p (cr_start first) (cr_start last).

Definition concludeFunctions (p : ParserBase) (st : State) : result SymbolInfo :=
  if negb (stopAcceptingStringStream st) then Ok (plainSymbol (T STATEMENTS_FILLER))
  else
    let functionDefnText := trimReplaceString (stringStream st) in
    inner <- bodyRange p st ;;
    Ok (symbolWithInfo (NT FUNCTIONS) (FunctionsInfo functionDefnText inner)).

Definition concludeMultilineComment (st : State) : SymbolInfo :=
  let trimmed := trimReplaceString (stringStream st) in
  symbolWithInfo (T COMMENT_MULTILINE) (CommentsInfo (Js.substring trimmed 3 (Js.len trimmed - 3))).

Definition concludeCodeBlock (p : ParserBase) (st : State) (reachedGlobalEndIndex : Z)
  : result (State * SymbolInfo) :=
  let st :=
    if negb (reachedGlobalEndIndex =? -1)
       && negb (prevTokenEndsWithBackslash st) && negb (continuousIndentAfterNewline st)
    then set_lastLineForEndCodeBlockIndex reachedGlobalEndIndex st
    else st in
  match parseType st with
  | TOP_LEVEL =>
      match detectionSymbol st with
      | T STATEMENTS_FILLER => Ok (st, plainSymbol (T STATEMENTS_FILLER))
      | T REFERENCES =>
          let referenceText := trimReplaceString (stringStream st) in
          Ok (st, symbolWithInfo (T REFERENCES) (ReferencesInfo referenceText (resolveReference st)))
      | T COMMENT_MULTILINE => Ok (st, concludeMultilineComment st)
      | NT FUNCTIONS => s <- concludeFunctions p st ;; Ok (st, s)
      | NT CLASSES =>
          if (classOrFuncBodyParseStart st =? -1)
             || (lastLineForEndCodeBlockIndex st <=? classOrFuncBodyParseStart st)
          then Ok (st, plainSymbol (T STATEMENTS_FILLER))
          else
            let classDefnText := trimReplaceString (stringStream st) in
            inner <- bodyRange p st ;;
            Ok (st, mkSymbolInfo (NT CLASSES)
                      (Some (mkTokenRange (classOrFuncBodyParseStart st) (lastLineForEndCodeBlockIndex st)))
                      (Some (ClassesInfo None classDefnText inner)))
      | _ => Throw notSupported
      end
  | CLASSES =>
      match detectionSymbol st with
      | T STATEMENTS_FILLER => Ok (st, plainSymbol (T STATEMENTS_FILLER))
      | T ATTRIBUTES =>
          let trimmed := trimReplaceString (stringStream st) in
          let idx := Js.indexOf trimmed ":"%char in
          let '(attributeName, attributeType) :=
            if idx =? -1 then (trimmed, None)
            else (Js.trim (Js.substring trimmed 0 idx),
                  if idx =? Js.len trimmed - 1 then Some EmptyString
                  else Some (Js.trim (Js.substring trimmed (idx + 1) (Js.len trimmed)))) in
          Ok (st, symbolWithInfo (T ATTRIBUTES) (AttributesInfo attributeName attributeType))
      | T COMMENT_MULTILINE => Ok (st, concludeMultilineComment st)
      | NT FUNCTIONS => s <- concludeFunctions p st ;; Ok (st, s)
      | _ => Throw notSupported
      end
  | _ => Throw notSupported
  end.

Definition hasFillerBefore (st : State) : bool :=
  negb (mostRecentLineTokIndex st =? -1) || (0 <? indentationCount st).

(** The five assignments that start the detection of a new code block. *)
Definition initiateBlock (st : State) : State :=
  let st := set_parsingBlockInitiated true st in
  let st := set_detectionType SINGLE_LINE st in
  let st := set_detectionSymbol (T STATEMENTS_FILLER) st in
  let st := set_encounteredComments false st in
  set_singleLineImmediatelyAfterComments false st.

Definition isFillerSymbol (s : SymbolInfo) : bool :=
  Symbol_eqb (symbolType s) (T FILLER) || Symbol_eqb (symbolType s) (T STATEMENTS_FILLER).

Definition detectCodeBlocks (p : ParserBase) (st : State) (token : option Token)
  (depth currentTokIndex : Z) : result (State * option SymbolAdditionDirective) :=
  match token with
  | None =>
      if parsingBlockInitiated st then
        '(st, symbol) <- concludeCodeBlock p st currentTokIndex ;;
        let length := currentTokIndex - lastLineForEndCodeBlockIndex st in
        if isFillerSymbol symbol || (length =? 0)
        then Ok (st, Some (oneSymbol symbol))
        else Ok (st, Some (mkDirective symbol (Some (plainSymbol (T FILLER))) (Some length) None))
      else if hasFillerBefore st
      then Ok (st, Some (oneSymbol (plainSymbol (T FILLER))))
      else Ok (st, None)
  | Some token =>
      let indentationExpected :=
        depth * (if pythonIsTabs st then 1 else Js.len (pythonCodeIndents st)) in
      '(st, retDirective) <-
        (if parsingBlockInitiated st then
           '(st, retDirective, hasConclusion) <-
             (match detectionType st with
              | SINGLE_LINE =>
                  '(st, retDirective, hasConclusion) <-
                    (if contentsIs token Js.newline && (currentDepth st =? 0)
                        && negb (prevTokenEndsWithBackslash st)
                     then
                       let st := set_parsingBlockInitiated false st in
                       if negb (singleLineImmediatelyAfterComments st) then
                         '(st, symbolInfo) <- concludeCodeBlock p st (-1) ;;
                         Ok (st, Some (mkDirective symbolInfo None (Some 1) None), true)
                       else Ok (st, None, true)
                     else Ok (st, None, false)) ;;
                  Ok (set_singleLineImmediatelyAfterComments false st, retDirective, hasConclusion)
              | MULTI_LINE =>
                  if currentDepth st =? 0 then
                    if continuousIndentAfterNewline st && negb (typeIs token SPACINGS)
                       && (indentationCount st <=? indentationExpected)
                       && negb (typeIs token SINGLELINE_COMMENTS)
                    then
                      '(st, symbolInfo) <- concludeCodeBlock p st (-1) ;;
                      let retDirective :=
                        mkDirective symbolInfo (Some (plainSymbol (T FILLER)))
                                    (Some (currentTokIndex - lastLineForEndCodeBlockIndex st))
                                    (Some 1) in
                      let st := initiateBlock st in
                      st <- updateCodeBlocksContentsParseState st token true currentTokIndex
                                                               indentationExpected ;;
                      Ok (st, Some retDirective, true)
                    else if contentsIs token Js.newline && negb (prevTokenEndsWithBackslash st)
                            && negb (continuousIndentAfterNewline st)
                    then Ok (set_lastLineForEndCodeBlockIndex currentTokIndex st, None, false)
                    else Ok (st, None, false)
                  else Ok (st, None, false)
              end) ;;
           if typeIs token SINGLELINE_COMMENTS
              && Symbol_eqb (detectionSymbol st) (T STATEMENTS_FILLER)
           then
             let retDirective :=
               mkDirective (plainSymbol (T STATEMENTS_FILLER))
                           (Some (symbolWithInfo (T COMMENT_SINGLELINE) (CommentsInfo (commentText token))))
                           None None in
             Ok (set_singleLineImmediatelyAfterComments true (set_encounteredComments true st),
                 Some retDirective)
           else if negb (encounteredComments st || hasConclusion) then
             st <- updateCodeBlocksContentsParseState st token false currentTokIndex
                                                      indentationExpected ;;
             Ok (st, retDirective)
           else Ok (st, retDirective)
         else if continuousIndentAfterNewline st && negb (typeIs token SPACINGS) then
           if typeIs token SINGLELINE_COMMENTS then
             let comment := symbolWithInfo (T COMMENT_SINGLELINE) (CommentsInfo (commentText token)) in
             if hasFillerBefore st
             then Ok (st, Some (mkDirective (plainSymbol (T FILLER)) (Some comment) None None))
             else Ok (st, Some (oneSymbol comment))
           else
             let st := initiateBlock st in
             let retDirective :=
               if hasFillerBefore st
               then Some (mkDirective (plainSymbol (T FILLER)) None (Some 1) None)
               else None in
             st <- updateCodeBlocksContentsParseState st token true currentTokIndex
                                                      indentationExpected ;;
             Ok (st, retDirective)
         else Ok (st, None)) ;;
      st <- updateCodeBlocksBracesAndSpacingsState st token currentTokIndex ;;
      Ok (st, retDirective)
  end.

Definition detectTopLevelSymbol (p : ParserBase) (st : State) (state : list Symbol)
  (token : option Token) (currentTokIndex depth : Z)
  : result (State * option SymbolAdditionDirective) :=
  detectCodeBlocks p st token depth currentTokIndex.

Definition detectClassesSymbol (p : ParserBase) (st : State) (state : list Symbol)
  (token : option Token) (currentTokIndex depth : Z)
  : result (State * option SymbolAdditionDirective) :=
  detectCodeBlocks p st token depth currentTokIndex.

Definition language : Language :=
  mkLanguage PythonTokenizer.lexer State preparse preparseGetTokenizer
             createArgumentNode createAttributesNode createCommentsNode createReferencesNode
             createClassesNode createFunctionsNode createFunctionDeclarationNode
             resetDetectionState isCommentBeforeFunction
             detectTopLevelSymbol detectClassesSymbol detectFunctionsSymbol
             detectFunctionBodySymbol detectFunctionDeclarationSymbol.

(** [new PythonParser().parse(codeLines)]. *)
Definition parse (codeLines : list string) : result AbstractSyntaxTree.t :=
  st <- constructor ;;
  AbstractParser.parse language st codeLines.

End PythonParser.

(* ================================================================== *)
(** ** TypeScriptVarDeclMatcher.ts *)

Module TypeScriptVarDeclMatcher.

Definition typeBraces : list Braces :=
  [mkBraces "(" ")"; mkBraces "{" "}"; mkBraces "[" "]"; mkBraces "<" ">"].

Definition assignmentBraces : list Braces :=
  [mkBraces "(" ")"; mkBraces "{" "}"; mkBraces "[" "]"].

Definition isOpeningBraceType (tok : Token) : bool :=
  existsb (fun x => String.eqb (opening x) (stringContents tok)) typeBraces.
Definition isClosingBraceType (tok : Token) : bool :=
  existsb (fun x => String.eqb (closing x) (stringContents tok)) typeBraces.
Definition isOpeningBraceAssignment (tok : Token) : bool :=
  existsb (fun x => String.eqb (opening x) (stringContents tok)) assignmentBraces.
Definition isClosingBraceAssignment (tok : Token) : bool :=
  existsb (fun x => String.eqb (closing x) (stringContents tok)) assignmentBraces.

Inductive ReadingState : Type :=
| READING_NAME
| READING_TYPE
| READING_ASSIGNMENT.

Record t : Type := mkVarDeclMatcher {
  state : ReadingState;
  nameBuffer : option string;
  typeBuffer : option string;
  assignmentBuffer : option string;
  typeBracesMatcher : BracesMatcher.t;
  assignmentBracesMatcher : BracesMatcher.t
}.

(** What [next] and [reset] return when a declaration is complete. *)
Record Declaration : Type := mkDeclaration {
  name : string;
  type : option string;
  assignment : option string
}.

Definition constructor : result t :=
  typeMatcher <- BracesMatcher.constructor typeBraces ;;
  assignmentMatcher <- BracesMatcher.constructor assignmentBraces ;;
  Ok (mkVarDeclMatcher READING_NAME (Some EmptyString) None None typeMatcher assignmentMatcher).

Definition reset (m : t) : t * option Declaration :=
  let retValue :=
    match nameBuffer m with
    | None => None
    | Some n =>
        if Js.len (Js.trim n) =? 0 then None
        else Some (mkDeclaration (Js.trim n)
                                 (option_map Js.trim (typeBuffer m))
                                 (option_map Js.trim (assignmentBuffer m)))
    end in
  (mkVarDeclMatcher READING_NAME None None None
                    (BracesMatcher.reset (typeBracesMatcher m))
                    (BracesMatcher.reset (assignmentBracesMatcher m)),
   retValue).

Definition setState (m : t) (s : ReadingState) : t :=
  mkVarDeclMatcher s (nameBuffer m) (typeBuffer m) (assignmentBuffer m)
                   (typeBracesMatcher m) (assignmentBracesMatcher m).

Definition appendTo (buffer : option string) (s : string) : option string :=
  match buffer with
  | Some b => Some (b ++ s)%string
  | None => Some s
  end.

Definition isOneOf (tok : Token) (l : list string) : bool :=
  existsb (String.eqb (stringContents tok)) l.

Definition handleReadingName (m : t) (tok : Token) : result (t * option Declaration) :=
  if isOneOf tok [":"; "="; ";"; ","; ")"] then
    if String.eqb (stringContents tok) ":" then Ok (setState m READING_TYPE, None)
    else if String.eqb (stringContents tok) "=" then Ok (setState m READING_ASSIGNMENT, None)
    else Ok (reset m)
  else
    Ok (mkVarDeclMatcher (state m) (appendTo (nameBuffer m) (stringContents tok))
                         (typeBuffer m) (assignmentBuffer m)
                         (typeBracesMatcher m) (assignmentBracesMatcher m), None).

Definition handleReadingType (m : t) (tok : Token) : result (t * option Declaration) :=
  if isOneOf tok ["="; ";"; ","; ")"] && (BracesMatcher.currentDepth (typeBracesMatcher m) =? 0)%nat
  then
    if String.eqb (stringContents tok) "=" then Ok (setState m READING_ASSIGNMENT, None)
    else Ok (reset m)
  else
    let buffer := appendTo (typeBuffer m) (stringContents tok) in
    typeMatcher <- (if isOpeningBraceType tok || isClosingBraceType tok
                    then '(bm, _) <- BracesMatcher.next (typeBracesMatcher m) (stringContents tok) ;;
                         Ok bm
                    else Ok (typeBracesMatcher m)) ;;
    Ok (mkVarDeclMatcher (state m) (nameBuffer m) buffer (assignmentBuffer m)
                         typeMatcher (assignmentBracesMatcher m), None).

Definition handleReadingAssignment (m : t) (tok : Token) : result (t * option Declaration) :=
  if isOneOf tok [";"; ","; ")"]
     && (BracesMatcher.currentDepth (assignmentBracesMatcher m) =? 0)%nat
  then Ok (reset m)
  else
    let buffer := appendTo (assignmentBuffer m) (stringContents tok) in
    assignmentMatcher <- (if isOpeningBraceAssignment tok || isClosingBraceAssignment tok
                          then '(bm, _) <- BracesMatcher.next (assignmentBracesMatcher m)
                                                              (stringContents tok) ;;
                               Ok bm
                          else Ok (assignmentBracesMatcher m)) ;;
    Ok (mkVarDeclMatcher (state m) (nameBuffer m) (typeBuffer m) buffer
                         (typeBracesMatcher m) assignmentMatcher, None).

Definition next (m : t) (tok : Token) : result (t * option Declaration) :=
  match state m with
  | READING_NAME => handleReadingName m tok
  | READING_TYPE => handleReadingType m tok
  | READING_ASSIGNMENT => handleReadingAssignment m tok
  end.

End TypeScriptVarDeclMatcher.

(* ================================================================== *)
(** ** TypeScriptParser.ts *)

Module TypeScriptParser.

(** The fields of [TypeScriptParser]; one setter per field stands for an
    assignment to it. *)
Record State : Type := mkState {
  bracesMatcher : BracesMatcher.t;
  curlyBracesMatcher : BracesMatcher.t;
  argumentMatcher : TypeScriptVarDeclMatcher.t;
  parseType : NonTerminal;
  globalDetectionStartIndex : Z;
  mostRecentStatementsEndTokIdx : Z;
  continuousSpacingsAfterTerminateStatements : bool;
  functOpeningBracket : Z;
  functClosingBracket : Z;
  functOpeningBrace : Z;
  functClosingBrace : Z;
  functRetTypeBracesMatcher : BracesMatcher.t;
  functName : string;
  functType : option string;
  functPreviousImmediatelyColon : bool;
  functPreviousImmediatelyClosingBracket : bool;
  functBodyHasOthers : bool;
  functBodyHasPreviousContent : bool;
  functDeclStartParseIdx : Z;
  functDeclParsing : bool;
  codeBlocksHasComments : bool;
  codeBlocksSymbolToDetect : Symbol;
  codeBlocksLastSymbolDetectionEnd : Z;
  codeBlocksHasContents : bool;
  codeBlocksStartOfPotentialDetection : Z;
  cbSymbSpacesTextsOnly : bool;
  cbSymbAttemptedDetect : bool;
  cbSymbStringStream : string;
  cbSymbTokenStream : list Token;
  cbSymbClassOpeningBrace : Z;
  cbSymbClassClosingBrace : Z;
  cbSymbClassDefnText : option string;
  cbSymbFuncOpeningBracket : Z;
  cbSymbFuncClosingBracket : Z;
  cbSymbFuncOpeningBrace : Z;
  cbSymbFuncClosingBrace : Z;
  cbSymbFuncDefnText : option string;
  cbSymbFuncPreviousImmediatelyColon : bool;
  cbSymbFuncRetTypeBracesMatcher : BracesMatcher.t
}.

Definition set_bracesMatcher (v : BracesMatcher.t) (st : State) : State :=
  mkState v (curlyBracesMatcher st) (argumentMatcher st) (parseType st) (globalDetectionStartIndex st) (mostRecentStatementsEndTokIdx st) (continuousSpacingsAfterTerminateStatements st) (functOpeningBracket st) (functClosingBracket st) (functOpeningBrace st) (functClosingBrace st) (functRetTypeBracesMatcher st) (functName st) (functType st) (functPreviousImmediatelyColon st) (functPreviousImmediatelyClosingBracket st) (functBodyHasOthers st) (functBodyHasPreviousContent st) (functDeclStartParseIdx st) (functDeclParsing st) (codeBlocksHasComments st) (codeBlocksSymbolToDetect st) (codeBlocksLastSymbolDetectionEnd st) (codeBlocksHasContents st) (codeBlocksStartOfPotentialDetection st) (cbSymbSpacesTextsOnly st) (cbSymbAttemptedDetect st) (cbSymbStringStream st) (cbSymbTokenStream st) (cbSymbClassOpeningBrace st) (cbSymbClassClosingBrace st) (cbSymbClassDefnText st) (cbSymbFuncOpeningBracket st) (cbSymbFuncClosingBracket st) (cbSymbFuncOpeningBrace st) (cbSymbFuncClosingBrace st) (cbSymbFuncDefnText st) (cbSymbFuncPreviousImmediatelyColon st) (cbSymbFuncRetTypeBracesMatcher st).
Definition set_curlyBracesMatcher (v : BracesMatcher.t) (st : State) : State :=
  mkState (bracesMatcher st) v (argumentMatcher st) (parseType st) (globalDetectionStartIndex st) (mostRecentStatementsEndTokIdx st) (continuousSpacingsAfterTerminateStatements st) (functOpeningBracket st) (functClosingBracket st) (functOpeningBrace st) (functClosingBrace st) (functRetTypeBracesMatcher st) (functName st) (functType st) (functPreviousImmediatelyColon st) (functPreviousImmediatelyClosingBracket st) (functBodyHasOthers st) (functBodyHasPreviousContent st) (functDeclStartParseIdx st) (functDeclParsing st) (codeBlocksHasComments st) (codeBlocksSymbolToDetect st) (codeBlocksLastSymbolDetectionEnd st) (codeBlocksHasContents st) (codeBlocksStartOfPotentialDetection st) (cbSymbSpacesTextsOnly st) (cbSymbAttemptedDetect st) (cbSymbStringStream st) (cbSymbTokenStream st) (cbSymbClassOpeningBrace st) (cbSymbClassClosingBrace st) (cbSymbClassDefnText st) (cbSymbFuncOpeningBracket st) (cbSymbFuncClosingBracket st) (cbSymbFuncOpeningBrace st) (cbSymbFuncClosingBrace st) (cbSymbFuncDefnText st) (cbSymbFuncPreviousImmediatelyColon st) (cbSymbFuncRetTypeBracesMatcher st).
Definition set_argumentMatcher (v : TypeScriptVarDeclMatcher.t) (st : State) : State :=
  mkState (bracesMatcher st) (curlyBracesMatcher st) v (parseType st) (globalDetectionStartIndex st) (mostRecentStatementsEndTokIdx st) (continuousSpacingsAfterTerminateStatements st) (functOpeningBracket st) (functClosingBracket st) (functOpeningBrace st) (functClosingBrace st) (functRetTypeBracesMatcher st) (functName st) (functType st) (functPreviousImmediatelyColon st) (functPreviousImmediatelyClosingBracket st) (functBodyHasOthers st) (functBodyHasPreviousContent st) (functDeclStartParseIdx st) (functDeclParsing st) (codeBlocksHasComments st) (codeBlocksSymbolToDetect st) (codeBlocksLastSymbolDetectionEnd st) (codeBlocksHasContents st) (codeBlocksStartOfPotentialDetection st) (cbSymbSpacesTextsOnly st) (cbSymbAttemptedDetect st) (cbSymbStringStream st) (cbSymbTokenStream st) (cbSymbClassOpeningBrace st) (cbSymbClassClosingBrace st) (cbSymbClassDefnText st) (cbSymbFuncOpeningBracket st) (cbSymbFuncClosingBracket st) (cbSymbFuncOpeningBrace st) (cbSymbFuncClosingBrace st) (cbSymbFuncDefnText st) (cbSymbFuncPreviousImmediatelyColon st) (cbSymbFuncRetTypeBracesMatcher st).
Definition set_parseType (v : NonTerminal) (st : State) : State :=
  mkState (bracesMatcher st) (curlyBracesMatcher st) (argumentMatcher st) v (globalDetectionStartIndex st) (mostRecentStatementsEndTokIdx st) (continuousSpacingsAfterTerminateStatements st) (functOpeningBracket st) (functClosingBracket st) (functOpeningBrace st) (functClosingBrace st) (functRetTypeBracesMatcher st) (functName st) (functType st) (functPreviousImmediatelyColon st) (functPreviousImmediatelyClosingBracket st) (functBodyHasOthers st) (functBodyHasPreviousContent st) (functDeclStartParseIdx st) (functDeclParsing st) (codeBlocksHasComments st) (codeBlocksSymbolToDetect st) (codeBlocksLastSymbolDetectionEnd st) (codeBlocksHasContents st) (codeBlocksStartOfPotentialDetection st) (cbSymbSpacesTextsOnly st) (cbSymbAttemptedDetect st) (cbSymbStringStream st) (cbSymbTokenStream st) (cbSymbClassOpeningBrace st) (cbSymbClassClosingBrace st) (cbSymbClassDefnText st) (cbSymbFuncOpeningBracket st) (cbSymbFuncClosingBracket st) (cbSymbFuncOpeningBrace st) (cbSymbFuncClosingBrace st) (cbSymbFuncDefnText st) (cbSymbFuncPreviousImmediatelyColon st) (cbSymbFuncRetTypeBracesMatcher st).
Definition set_globalDetectionStartIndex (v : Z) (st : State) : State :=
  mkState (bracesMatcher st) (curlyBracesMatcher st) (argumentMatcher st) (parseType st) v (mostRecentStatementsEndTokIdx st) (continuousSpacingsAfterTerminateStatements st) (functOpeningBracket st) (functClosingBracket st) (functOpeningBrace st) (functClosingBrace st) (functRetTypeBracesMatcher st) (functName st) (functType st) (functPreviousImmediatelyColon st) (functPreviousImmediatelyClosingBracket st) (functBodyHasOthers st) (functBodyHasPreviousContent st) (functDeclStartParseIdx st) (functDeclParsing st) (codeBlocksHasComments st) (codeBlocksSymbolToDetect st) (codeBlocksLastSymbolDetectionEnd st) (codeBlocksHasContents st) (codeBlocksStartOfPotentialDetection st) (cbSymbSpacesTextsOnly st) (cbSymbAttemptedDetect st) (cbSymbStringStream st) (cbSymbTokenStream st) (cbSymbClassOpeningBrace st) (cbSymbClassClosingBrace st) (cbSymbClassDefnText st) (cbSymbFuncOpeningBracket st) (cbSymbFuncClosingBracket st) (cbSymbFuncOpeningBrace st) (cbSymbFuncClosingBrace st) (cbSymbFuncDefnText st) (cbSymbFuncPreviousImmediatelyColon st) (cbSymbFuncRetTypeBracesMatcher st).
Definition set_mostRecentStatementsEndTokIdx (v : Z) (st : State) : State :=
  mkState (bracesMatcher st) (curlyBracesMatcher st) (argumentMatcher st) (parseType st) (globalDetectionStartIndex st) v (continuousSpacingsAfterTerminateStatements st) (functOpeningBracket st) (functClosingBracket st) (functOpeningBrace st) (functClosingBrace st) (functRetTypeBracesMatcher st) (functName st) (functType st) (functPreviousImmediatelyColon st) (functPreviousImmediatelyClosingBracket st) (functBodyHasOthers st) (functBodyHasPreviousContent st) (functDeclStartParseIdx st) (functDeclParsing st) (codeBlocksHasComments st) (codeBlocksSymbolToDetect st) (codeBlocksLastSymbolDetectionEnd st) (codeBlocksHasContents st) (codeBlocksStartOfPotentialDetection st) (cbSymbSpacesTextsOnly st) (cbSymbAttemptedDetect st) (cbSymbStringStream st) (cbSymbTokenStream st) (cbSymbClassOpeningBrace st) (cbSymbClassClosingBrace st) (cbSymbClassDefnText st) (cbSymbFuncOpeningBracket st) (cbSymbFuncClosingBracket st) (cbSymbFuncOpeningBrace st) (cbSymbFuncClosingBrace st) (cbSymbFuncDefnText st) (cbSymbFuncPreviousImmediatelyColon st) (cbSymbFuncRetTypeBracesMatcher st).
Definition set_continuousSpacingsAfterTerminateStatements (v : bool) (st : State) : State :=
  mkState (bracesMatcher st) (curlyBracesMatcher st) (argumentMatcher st) (parseType st) (globalDetectionStartIndex st) (mostRecentStatementsEndTokIdx st) v (functOpeningBracket st) (functClosingBracket st) (functOpeningBrace st) (functClosingBrace st) (functRetTypeBracesMatcher st) (functName st) (functType st) (functPreviousImmediatelyColon st) (functPreviousImmediatelyClosingBracket st) (functBodyHasOthers st) (functBodyHasPreviousContent st) (functDeclStartParseIdx st) (functDeclParsing st) (codeBlocksHasComments st) (codeBlocksSymbolToDetect st) (codeBlocksLastSymbolDetectionEnd st) (codeBlocksHasContents st) (codeBlocksStartOfPotentialDetection st) (cbSymbSpacesTextsOnly st) (cbSymbAttemptedDetect st) (cbSymbStringStream st) (cbSymbTokenStream st) (cbSymbClassOpeningBrace st) (cbSymbClassClosingBrace st) (cbSymbClassDefnText st) (cbSymbFuncOpeningBracket st) (cbSymbFuncClosingBracket st) (cbSymbFuncOpeningBrace st) (cbSymbFuncClosingBrace st) (cbSymbFuncDefnText st) (cbSymbFuncPreviousImmediatelyColon st) (cbSymbFuncRetTypeBracesMatcher st).
Definition set_functOpeningBracket (v : Z) (st : State) : State :=
  mkState (bracesMatcher st) (curlyBracesMatcher st) (argumentMatcher st) (parseType st) (globalDetectionStartIndex st) (mostRecentStatementsEndTokIdx st) (continuousSpacingsAfterTerminateStatements st) v (functClosingBracket st) (functOpeningBrace st) (functClosingBrace st) (functRetTypeBracesMatcher st) (functName st) (functType st) (functPreviousImmediatelyColon st) (functPreviousImmediatelyClosingBracket st) (functBodyHasOthers st) (functBodyHasPreviousContent st) (functDeclStartParseIdx st) (functDeclParsing st) (codeBlocksHasComments st) (codeBlocksSymbolToDetect st) (codeBlocksLastSymbolDetectionEnd st) (codeBlocksHasContents st) (codeBlocksStartOfPotentialDetection st) (cbSymbSpacesTextsOnly st) (cbSymbAttemptedDetect st) (cbSymbStringStream st) (cbSymbTokenStream st) (cbSymbClassOpeningBrace st) (cbSymbClassClosingBrace st) (cbSymbClassDefnText st) (cbSymbFuncOpeningBracket st) (cbSymbFuncClosingBracket st) (cbSymbFuncOpeningBrace st) (cbSymbFuncClosingBrace st) (cbSymbFuncDefnText st) (cbSymbFuncPreviousImmediatelyColon st) (cbSymbFuncRetTypeBracesMatcher st).
Definition set_functClosingBracket (v : Z) (st : State) : State :=
  mkState (bracesMatcher st) (curlyBracesMatcher st) (argumentMatcher st) (parseType st) (globalDetectionStartIndex st) (mostRecentStatementsEndTokIdx st) (continuousSpacingsAfterTerminateStatements st) (functOpeningBracket st) v (functOpeningBrace st) (functClosingBrace st) (functRetTypeBracesMatcher st) (functName st) (functType st) (functPreviousImmediatelyColon st) (functPreviousImmediatelyClosingBracket st) (functBodyHasOthers st) (functBodyHasPreviousContent st) (functDeclStartParseIdx st) (functDeclParsing st) (codeBlocksHasComments st) (codeBlocksSymbolToDetect st) (codeBlocksLastSymbolDetectionEnd st) (codeBlocksHasContents st) (codeBlocksStartOfPotentialDetection st) (cbSymbSpacesTextsOnly st) (cbSymbAttemptedDetect st) (cbSymbStringStream st) (cbSymbTokenStream st) (cbSymbClassOpeningBrace st) (cbSymbClassClosingBrace st) (cbSymbClassDefnText st) (cbSymbFuncOpeningBracket st) (cbSymbFuncClosingBracket st) (cbSymbFuncOpeningBrace st) (cbSymbFuncClosingBrace st) (cbSymbFuncDefnText st) (cbSymbFuncPreviousImmediatelyColon st) (cbSymbFuncRetTypeBracesMatcher st).
Definition set_functOpeningBrace (v : Z) (st : State) : State :=
  mkState (bracesMatcher st) (curlyBracesMatcher st) (argumentMatcher st) (parseType st) (globalDetectionStartIndex st) (mostRecentStatementsEndTokIdx st) (continuousSpacingsAfterTerminateStatements st) (functOpeningBracket st) (functClosingBracket st) v (functClosingBrace st) (functRetTypeBracesMatcher st) (functName st) (functType st) (functPreviousImmediatelyColon st) (functPreviousImmediatelyClosingBracket st) (functBodyHasOthers st) (functBodyHasPreviousContent st) (functDeclStartParseIdx st) (functDeclParsing st) (codeBlocksHasComments st) (codeBlocksSymbolToDetect st) (codeBlocksLastSymbolDetectionEnd st) (codeBlocksHasContents st) (codeBlocksStartOfPotentialDetection st) (cbSymbSpacesTextsOnly st) (cbSymbAttemptedDetect st) (cbSymbStringStream st) (cbSymbTokenStream st) (cbSymbClassOpeningBrace st) (cbSymbClassClosingBrace st) (cbSymbClassDefnText st) (cbSymbFuncOpeningBracket st) (cbSymbFuncClosingBracket st) (cbSymbFuncOpeningBrace st) (cbSymbFuncClosingBrace st) (cbSymbFuncDefnText st) (cbSymbFuncPreviousImmediatelyColon st) (cbSymbFuncRetTypeBracesMatcher st).
Definition set_functClosingBrace (v : Z) (st : State) : State :=
  mkState (bracesMatcher st) (curlyBracesMatcher st) (argumentMatcher st) (parseType st) (globalDetectionStartIndex st) (mostRecentStatementsEndTokIdx st) (continuousSpacingsAfterTerminateStatements st) (functOpeningBracket st) (functClosingBracket st) (functOpeningBrace st) v (functRetTypeBracesMatcher st) (functName st) (functType st) (functPreviousImmediatelyColon st) (functPreviousImmediatelyClosingBracket st) (functBodyHasOthers st) (functBodyHasPreviousContent st) (functDeclStartParseIdx st) (functDeclParsing st) (codeBlocksHasComments st) (codeBlocksSymbolToDetect st) (codeBlocksLastSymbolDetectionEnd st) (codeBlocksHasContents st) (codeBlocksStartOfPotentialDetection st) (cbSymbSpacesTextsOnly st) (cbSymbAttemptedDetect st) (cbSymbStringStream st) (cbSymbTokenStream st) (cbSymbClassOpeningBrace st) (cbSymbClassClosingBrace st) (cbSymbClassDefnText st) (cbSymbFuncOpeningBracket st) (cbSymbFuncClosingBracket st) (cbSymbFuncOpeningBrace st) (cbSymbFuncClosingBrace st) (cbSymbFuncDefnText st) (cbSymbFuncPreviousImmediatelyColon st) (cbSymbFuncRetTypeBracesMatcher st).
Definition set_functRetTypeBracesMatcher (v : BracesMatcher.t) (st : State) : State :=
  mkState (bracesMatcher st) (curlyBracesMatcher st) (argumentMatcher st) (parseType st) (globalDetectionStartIndex st) (mostRecentStatementsEndTokIdx st) (continuousSpacingsAfterTerminateStatements st) (functOpeningBracket st) (functClosingBracket st) (functOpeningBrace st) (functClosingBrace st) v (functName st) (functType st) (functPreviousImmediatelyColon st) (functPreviousImmediatelyClosingBracket st) (functBodyHasOthers st) (functBodyHasPreviousContent st) (functDeclStartParseIdx st) (functDeclParsing st) (codeBlocksHasComments st) (codeBlocksSymbolToDetect st) (codeBlocksLastSymbolDetectionEnd st) (codeBlocksHasContents st) (codeBlocksStartOfPotentialDetection st) (cbSymbSpacesTextsOnly st) (cbSymbAttemptedDetect st) (cbSymbStringStream st) (cbSymbTokenStream st) (cbSymbClassOpeningBrace st) (cbSymbClassClosingBrace st) (cbSymbClassDefnText st) (cbSymbFuncOpeningBracket st) (cbSymbFuncClosingBracket st) (cbSymbFuncOpeningBrace st) (cbSymbFuncClosingBrace st) (cbSymbFuncDefnText st) (cbSymbFuncPreviousImmediatelyColon st) (cbSymbFuncRetTypeBracesMatcher st).
Definition set_functName (v : string) (st : State) : State :=
  mkState (bracesMatcher st) (curlyBracesMatcher st) (argumentMatcher st) (parseType st) (globalDetectionStartIndex st) (mostRecentStatementsEndTokIdx st) (continuousSpacingsAfterTerminateStatements st) (functOpeningBracket st) (functClosingBracket st) (functOpeningBrace st) (functClosingBrace st) (functRetTypeBracesMatcher st) v (functType st) (functPreviousImmediatelyColon st) (functPreviousImmediatelyClosingBracket st) (functBodyHasOthers st) (functBodyHasPreviousContent st) (functDeclStartParseIdx st) (functDeclParsing st) (codeBlocksHasComments st) (codeBlocksSymbolToDetect st) (codeBlocksLastSymbolDetectionEnd st) (codeBlocksHasContents st) (codeBlocksStartOfPotentialDetection st) (cbSymbSpacesTextsOnly st) (cbSymbAttemptedDetect st) (cbSymbStringStream st) (cbSymbTokenStream st) (cbSymbClassOpeningBrace st) (cbSymbClassClosingBrace st) (cbSymbClassDefnText st) (cbSymbFuncOpeningBracket st) (cbSymbFuncClosingBracket st) (cbSymbFuncOpeningBrace st) (cbSymbFuncClosingBrace st) (cbSymbFuncDefnText st) (cbSymbFuncPreviousImmediatelyColon st) (cbSymbFuncRetTypeBracesMatcher st).
Definition set_functType (v : option string) (st : State) : State :=
  mkState (bracesMatcher st) (curlyBracesMatcher st) (argumentMatcher st) (parseType st) (globalDetectionStartIndex st) (mostRecentStatementsEndTokIdx st) (continuousSpacingsAfterTerminateStatements st) (functOpeningBracket st) (functClosingBracket st) (functOpeningBrace st) (functClosingBrace st) (functRetTypeBracesMatcher st) (functName st) v (functPreviousImmediatelyColon st) (functPreviousImmediatelyClosingBracket st) (functBodyHasOthers st) (functBodyHasPreviousContent st) (functDeclStartParseIdx st) (functDeclParsing st) (codeBlocksHasComments st) (codeBlocksSymbolToDetect st) (codeBlocksLastSymbolDetectionEnd st) (codeBlocksHasContents st) (codeBlocksStartOfPotentialDetection st) (cbSymbSpacesTextsOnly st) (cbSymbAttemptedDetect st) (cbSymbStringStream st) (cbSymbTokenStream st) (cbSymbClassOpeningBrace st) (cbSymbClassClosingBrace st) (cbSymbClassDefnText st) (cbSymbFuncOpeningBracket st) (cbSymbFuncClosingBracket st) (cbSymbFuncOpeningBrace st) (cbSymbFuncClosingBrace st) (cbSymbFuncDefnText st) (cbSymbFuncPreviousImmediatelyColon st) (cbSymbFuncRetTypeBracesMatcher st).
Definition set_functPreviousImmediatelyColon (v : bool) (st : State) : State :=
  mkState (bracesMatcher st) (curlyBracesMatcher st) (argumentMatcher st) (parseType st) (globalDetectionStartIndex st) (mostRecentStatementsEndTokIdx st) (continuousSpacingsAfterTerminateStatements st) (functOpeningBracket st) (functClosingBracket st) (functOpeningBrace st) (functClosingBrace st) (functRetTypeBracesMatcher st) (functName st) (functType st) v (functPreviousImmediatelyClosingBracket st) (functBodyHasOthers st) (functBodyHasPreviousContent st) (functDeclStartParseIdx st) (functDeclParsing st) (codeBlocksHasComments st) (codeBlocksSymbolToDetect st) (codeBlocksLastSymbolDetectionEnd st) (codeBlocksHasContents st) (codeBlocksStartOfPotentialDetection st) (cbSymbSpacesTextsOnly st) (cbSymbAttemptedDetect st) (cbSymbStringStream st) (cbSymbTokenStream st) (cbSymbClassOpeningBrace st) (cbSymbClassClosingBrace st) (cbSymbClassDefnText st) (cbSymbFuncOpeningBracket st) (cbSymbFuncClosingBracket st) (cbSymbFuncOpeningBrace st) (cbSymbFuncClosingBrace st) (cbSymbFuncDefnText st) (cbSymbFuncPreviousImmediatelyColon st) (cbSymbFuncRetTypeBracesMatcher st).
Definition set_functPreviousImmediatelyClosingBracket (v : bool) (st : State) : State :=
  mkState (bracesMatcher st) (curlyBracesMatcher st) (argumentMatcher st) (parseType st) (globalDetectionStartIndex st) (mostRecentStatementsEndTokIdx st) (continuousSpacingsAfterTerminateStatements st) (functOpeningBracket st) (functClosingBracket st) (functOpeningBrace st) (functClosingBrace st) (functRetTypeBracesMatcher st) (functName st) (functType st) (functPreviousImmediatelyColon st) v (functBodyHasOthers st) (functBodyHasPreviousContent st) (functDeclStartParseIdx st) (functDeclParsing st) (codeBlocksHasComments st) (codeBlocksSymbolToDetect st) (codeBlocksLastSymbolDetectionEnd st) (codeBlocksHasContents st) (codeBlocksStartOfPotentialDetection st) (cbSymbSpacesTextsOnly st) (cbSymbAttemptedDetect st) (cbSymbStringStream st) (cbSymbTokenStream st) (cbSymbClassOpeningBrace st) (cbSymbClassClosingBrace st) (cbSymbClassDefnText st) (cbSymbFuncOpeningBracket st) (cbSymbFuncClosingBracket st) (cbSymbFuncOpeningBrace st) (cbSymbFuncClosingBrace st) (cbSymbFuncDefnText st) (cbSymbFuncPreviousImmediatelyColon st) (cbSymbFuncRetTypeBracesMatcher st).
Definition set_functBodyHasOthers (v : bool) (st : State) : State :=
  mkState (bracesMatcher st) (curlyBracesMatcher st) (argumentMatcher st) (parseType st) (globalDetectionStartIndex st) (mostRecentStatementsEndTokIdx st) (continuousSpacingsAfterTerminateStatements st) (functOpeningBracket st) (functClosingBracket st) (functOpeningBrace st) (functClosingBrace st) (functRetTypeBracesMatcher st) (functName st) (functType st) (functPreviousImmediatelyColon st) (functPreviousImmediatelyClosingBracket st) v (functBodyHasPreviousContent st) (functDeclStartParseIdx st) (functDeclParsing st) (codeBlocksHasComments st) (codeBlocksSymbolToDetect st) (codeBlocksLastSymbolDetectionEnd st) (codeBlocksHasContents st) (codeBlocksStartOfPotentialDetection st) (cbSymbSpacesTextsOnly st) (cbSymbAttemptedDetect st) (cbSymbStringStream st) (cbSymbTokenStream st) (cbSymbClassOpeningBrace st) (cbSymbClassClosingBrace st) (cbSymbClassDefnText st) (cbSymbFuncOpeningBracket st) (cbSymbFuncClosingBracket st) (cbSymbFuncOpeningBrace st) (cbSymbFuncClosingBrace st) (cbSymbFuncDefnText st) (cbSymbFuncPreviousImmediatelyColon st) (cbSymbFuncRetTypeBracesMatcher st).
Definition set_functBodyHasPreviousContent (v : bool) (st : State) : State :=
  mkState (bracesMatcher st) (curlyBracesMatcher st) (argumentMatcher st) (parseType st) (globalDetectionStartIndex st) (mostRecentStatementsEndTokIdx st) (continuousSpacingsAfterTerminateStatements st) (functOpeningBracket st) (functClosingBracket st) (functOpeningBrace st) (functClosingBrace st) (functRetTypeBracesMatcher st) (functName st) (functType st) (functPreviousImmediatelyColon st) (functPreviousImmediatelyClosingBracket st) (functBodyHasOthers st) v (functDeclStartParseIdx st) (functDeclParsing st) (codeBlocksHasComments st) (codeBlocksSymbolToDetect st) (codeBlocksLastSymbolDetectionEnd st) (codeBlocksHasContents st) (codeBlocksStartOfPotentialDetection st) (cbSymbSpacesTextsOnly st) (cbSymbAttemptedDetect st) (cbSymbStringStream st) (cbSymbTokenStream st) (cbSymbClassOpeningBrace st) (cbSymbClassClosingBrace st) (cbSymbClassDefnText st) (cbSymbFuncOpeningBracket st) (cbSymbFuncClosingBracket st) (cbSymbFuncOpeningBrace st) (cbSymbFuncClosingBrace st) (cbSymbFuncDefnText st) (cbSymbFuncPreviousImmediatelyColon st) (cbSymbFuncRetTypeBracesMatcher st).
Definition set_functDeclStartParseIdx (v : Z) (st : State) : State :=
  mkState (bracesMatcher st) (curlyBracesMatcher st) (argumentMatcher st) (parseType st) (globalDetectionStartIndex st) (mostRecentStatementsEndTokIdx st) (continuousSpacingsAfterTerminateStatements st) (functOpeningBracket st) (functClosingBracket st) (functOpeningBrace st) (functClosingBrace st) (functRetTypeBracesMatcher st) (functName st) (functType st) (functPreviousImmediatelyColon st) (functPreviousImmediatelyClosingBracket st) (functBodyHasOthers st) (functBodyHasPreviousContent st) v (functDeclParsing st) (codeBlocksHasComments st) (codeBlocksSymbolToDetect st) (codeBlocksLastSymbolDetectionEnd st) (codeBlocksHasContents st) (codeBlocksStartOfPotentialDetection st) (cbSymbSpacesTextsOnly st) (cbSymbAttemptedDetect st) (cbSymbStringStream st) (cbSymbTokenStream st) (cbSymbClassOpeningBrace st) (cbSymbClassClosingBrace st) (cbSymbClassDefnText st) (cbSymbFuncOpeningBracket st) (cbSymbFuncClosingBracket st) (cbSymbFuncOpeningBrace st) (cbSymbFuncClosingBrace st) (cbSymbFuncDefnText st) (cbSymbFuncPreviousImmediatelyColon st) (cbSymbFuncRetTypeBracesMatcher st).
Definition set_functDeclParsing (v : bool) (st : State) : State :=
  mkState (bracesMatcher st) (curlyBracesMatcher st) (argumentMatcher st) (parseType st) (globalDetectionStartIndex st) (mostRecentStatementsEndTokIdx st) (continuousSpacingsAfterTerminateStatements st) (functOpeningBracket st) (functClosingBracket st) (functOpeningBrace st) (functClosingBrace st) (functRetTypeBracesMatcher st) (functName st) (functType st) (functPreviousImmediatelyColon st) (functPreviousImmediatelyClosingBracket st) (functBodyHasOthers st) (functBodyHasPreviousContent st) (functDeclStartParseIdx st) v (codeBlocksHasComments st) (codeBlocksSymbolToDetect st) (codeBlocksLastSymbolDetectionEnd st) (codeBlocksHasContents st) (codeBlocksStartOfPotentialDetection st) (cbSymbSpacesTextsOnly st) (cbSymbAttemptedDetect st) (cbSymbStringStream st) (cbSymbTokenStream st) (cbSymbClassOpeningBrace st) (cbSymbClassClosingBrace st) (cbSymbClassDefnText st) (cbSymbFuncOpeningBracket st) (cbSymbFuncClosingBracket st) (cbSymbFuncOpeningBrace st) (cbSymbFuncClosingBrace st) (cbSymbFuncDefnText st) (cbSymbFuncPreviousImmediatelyColon st) (cbSymbFuncRetTypeBracesMatcher st).
Definition set_codeBlocksHasComments (v : bool) (st : State) : State :=
  mkState (bracesMatcher st) (curlyBracesMatcher st) (argumentMatcher st) (parseType st) (globalDetectionStartIndex st) (mostRecentStatementsEndTokIdx st) (continuousSpacingsAfterTerminateStatements st) (functOpeningBracket st) (functClosingBracket st) (functOpeningBrace st) (functClosingBrace st) (functRetTypeBracesMatcher st) (functName st) (functType st) (functPreviousImmediatelyColon st) (functPreviousImmediatelyClosingBracket st) (functBodyHasOthers st) (functBodyHasPreviousContent st) (functDeclStartParseIdx st) (functDeclParsing st) v (codeBlocksSymbolToDetect st) (codeBlocksLastSymbolDetectionEnd st) (codeBlocksHasContents st) (codeBlocksStartOfPotentialDetection st) (cbSymbSpacesTextsOnly st) (cbSymbAttemptedDetect st) (cbSymbStringStream st) (cbSymbTokenStream st) (cbSymbClassOpeningBrace st) (cbSymbClassClosingBrace st) (cbSymbClassDefnText st) (cbSymbFuncOpeningBracket st) (cbSymbFuncClosingBracket st) (cbSymbFuncOpeningBrace st) (cbSymbFuncClosingBrace st) (cbSymbFuncDefnText st) (cbSymbFuncPreviousImmediatelyColon st) (cbSymbFuncRetTypeBracesMatcher st).
Definition set_codeBlocksSymbolToDetect (v : Symbol) (st : State) : State :=
  mkState (bracesMatcher st) (curlyBracesMatcher st) (argumentMatcher st) (parseType st) (globalDetectionStartIndex st) (mostRecentStatementsEndTokIdx st) (continuousSpacingsAfterTerminateStatements st) (functOpeningBracket st) (functClosingBracket st) (functOpeningBrace st) (functClosingBrace st) (functRetTypeBracesMatcher st) (functName st) (functType st) (functPreviousImmediatelyColon st) (functPreviousImmediatelyClosingBracket st) (functBodyHasOthers st) (functBodyHasPreviousContent st) (functDeclStartParseIdx st) (functDeclParsing st) (codeBlocksHasComments st) v (codeBlocksLastSymbolDetectionEnd st) (codeBlocksHasContents st) (codeBlocksStartOfPotentialDetection st) (cbSymbSpacesTextsOnly st) (cbSymbAttemptedDetect st) (cbSymbStringStream st) (cbSymbTokenStream st) (cbSymbClassOpeningBrace st) (cbSymbClassClosingBrace st) (cbSymbClassDefnText st) (cbSymbFuncOpeningBracket st) (cbSymbFuncClosingBracket st) (cbSymbFuncOpeningBrace st) (cbSymbFuncClosingBrace st) (cbSymbFuncDefnText st) (cbSymbFuncPreviousImmediatelyColon st) (cbSymbFuncRetTypeBracesMatcher st).
Definition set_codeBlocksLastSymbolDetectionEnd (v : Z) (st : State) : State :=
  mkState (bracesMatcher st) (curlyBracesMatcher st) (argumentMatcher st) (parseType st) (globalDetectionStartIndex st) (mostRecentStatementsEndTokIdx st) (continuousSpacingsAfterTerminateStatements st) (functOpeningBracket st) (functClosingBracket st) (functOpeningBrace st) (functClosingBrace st) (functRetTypeBracesMatcher st) (functName st) (functType st) (functPreviousImmediatelyColon st) (functPreviousImmediatelyClosingBracket st) (functBodyHasOthers st) (functBodyHasPreviousContent st) (functDeclStartParseIdx st) (functDeclParsing st) (codeBlocksHasComments st) (codeBlocksSymbolToDetect st) v (codeBlocksHasContents st) (codeBlocksStartOfPotentialDetection st) (cbSymbSpacesTextsOnly st) (cbSymbAttemptedDetect st) (cbSymbStringStream st) (cbSymbTokenStream st) (cbSymbClassOpeningBrace st) (cbSymbClassClosingBrace st) (cbSymbClassDefnText st) (cbSymbFuncOpeningBracket st) (cbSymbFuncClosingBracket st) (cbSymbFuncOpeningBrace st) (cbSymbFuncClosingBrace st) (cbSymbFuncDefnText st) (cbSymbFuncPreviousImmediatelyColon st) (cbSymbFuncRetTypeBracesMatcher st).
Definition set_codeBlocksHasContents (v : bool) (st : State) : State :=
  mkState (bracesMatcher st) (curlyBracesMatcher st) (argumentMatcher st) (parseType st) (globalDetectionStartIndex st) (mostRecentStatementsEndTokIdx st) (continuousSpacingsAfterTerminateStatements st) (functOpeningBracket st) (functClosingBracket st) (functOpeningBrace st) (functClosingBrace st) (functRetTypeBracesMatcher st) (functName st) (functType st) (functPreviousImmediatelyColon st) (functPreviousImmediatelyClosingBracket st) (functBodyHasOthers st) (functBodyHasPreviousContent st) (functDeclStartParseIdx st) (functDeclParsing st) (codeBlocksHasComments st) (codeBlocksSymbolToDetect st) (codeBlocksLastSymbolDetectionEnd st) v (codeBlocksStartOfPotentialDetection st) (cbSymbSpacesTextsOnly st) (cbSymbAttemptedDetect st) (cbSymbStringStream st) (cbSymbTokenStream st) (cbSymbClassOpeningBrace st) (cbSymbClassClosingBrace st) (cbSymbClassDefnText st) (cbSymbFuncOpeningBracket st) (cbSymbFuncClosingBracket st) (cbSymbFuncOpeningBrace st) (cbSymbFuncClosingBrace st) (cbSymbFuncDefnText st) (cbSymbFuncPreviousImmediatelyColon st) (cbSymbFuncRetTypeBracesMatcher st).
Definition set_codeBlocksStartOfPotentialDetection (v : Z) (st : State) : State :=
  mkState (bracesMatcher st) (curlyBracesMatcher st) (argumentMatcher st) (parseType st) (globalDetectionStartIndex st) (mostRecentStatementsEndTokIdx st) (continuousSpacingsAfterTerminateStatements st) (functOpeningBracket st) (functClosingBracket st) (functOpeningBrace st) (functClosingBrace st) (functRetTypeBracesMatcher st) (functName st) (functType st) (functPreviousImmediatelyColon st) (functPreviousImmediatelyClosingBracket st) (functBodyHasOthers st) (functBodyHasPreviousContent st) (functDeclStartParseIdx st) (functDeclParsing st) (codeBlocksHasComments st) (codeBlocksSymbolToDetect st) (codeBlocksLastSymbolDetectionEnd st) (codeBlocksHasContents st) v (cbSymbSpacesTextsOnly st) (cbSymbAttemptedDetect st) (cbSymbStringStream st) (cbSymbTokenStream st) (cbSymbClassOpeningBrace st) (cbSymbClassClosingBrace st) (cbSymbClassDefnText st) (cbSymbFuncOpeningBracket st) (cbSymbFuncClosingBracket st) (cbSymbFuncOpeningBrace st) (cbSymbFuncClosingBrace st) (cbSymbFuncDefnText st) (cbSymbFuncPreviousImmediatelyColon st) (cbSymbFuncRetTypeBracesMatcher st).
Definition set_cbSymbSpacesTextsOnly (v : bool) (st : State) : State :=
  mkState (bracesMatcher st) (curlyBracesMatcher st) (argumentMatcher st) (parseType st) (globalDetectionStartIndex st) (mostRecentStatementsEndTokIdx st) (continuousSpacingsAfterTerminateStatements st) (functOpeningBracket st) (functClosingBracket st) (functOpeningBrace st) (functClosingBrace st) (functRetTypeBracesMatcher st) (functName st) (functType st) (functPreviousImmediatelyColon st) (functPreviousImmediatelyClosingBracket st) (functBodyHasOthers st) (functBodyHasPreviousContent st) (functDeclStartParseIdx st) (functDeclParsing st) (codeBlocksHasComments st) (codeBlocksSymbolToDetect st) (codeBlocksLastSymbolDetectionEnd st) (codeBlocksHasContents st) (codeBlocksStartOfPotentialDetection st) v (cbSymbAttemptedDetect st) (cbSymbStringStream st) (cbSymbTokenStream st) (cbSymbClassOpeningBrace st) (cbSymbClassClosingBrace st) (cbSymbClassDefnText st) (cbSymbFuncOpeningBracket st) (cbSymbFuncClosingBracket st) (cbSymbFuncOpeningBrace st) (cbSymbFuncClosingBrace st) (cbSymbFuncDefnText st) (cbSymbFuncPreviousImmediatelyColon st) (cbSymbFuncRetTypeBracesMatcher st).
Definition set_cbSymbAttemptedDetect (v : bool) (st : State) : State :=
  mkState (bracesMatcher st) (curlyBracesMatcher st) (argumentMatcher st) (parseType st) (globalDetectionStartIndex st) (mostRecentStatementsEndTokIdx st) (continuousSpacingsAfterTerminateStatements st) (functOpeningBracket st) (functClosingBracket st) (functOpeningBrace st) (functClosingBrace st) (functRetTypeBracesMatcher st) (functName st) (functType st) (functPreviousImmediatelyColon st) (functPreviousImmediatelyClosingBracket st) (functBodyHasOthers st) (functBodyHasPreviousContent st) (functDeclStartParseIdx st) (functDeclParsing st) (codeBlocksHasComments st) (codeBlocksSymbolToDetect st) (codeBlocksLastSymbolDetectionEnd st) (codeBlocksHasContents st) (codeBlocksStartOfPotentialDetection st) (cbSymbSpacesTextsOnly st) v (cbSymbStringStream st) (cbSymbTokenStream st) (cbSymbClassOpeningBrace st) (cbSymbClassClosingBrace st) (cbSymbClassDefnText st) (cbSymbFuncOpeningBracket st) (cbSymbFuncClosingBracket st) (cbSymbFuncOpeningBrace st) (cbSymbFuncClosingBrace st) (cbSymbFuncDefnText st) (cbSymbFuncPreviousImmediatelyColon st) (cbSymbFuncRetTypeBracesMatcher st).
Definition set_cbSymbStringStream (v : string) (st : State) : State :=
  mkState (bracesMatcher st) (curlyBracesMatcher st) (argumentMatcher st) (parseType st) (globalDetectionStartIndex st) (mostRecentStatementsEndTokIdx st) (continuousSpacingsAfterTerminateStatements st) (functOpeningBracket st) (functClosingBracket st) (functOpeningBrace st) (functClosingBrace st) (functRetTypeBracesMatcher st) (functName st) (functType st) (functPreviousImmediatelyColon st) (functPreviousImmediatelyClosingBracket st) (functBodyHasOthers st) (functBodyHasPreviousContent st) (functDeclStartParseIdx st) (functDeclParsing st) (codeBlocksHasComments st) (codeBlocksSymbolToDetect st) (codeBlocksLastSymbolDetectionEnd st) (codeBlocksHasContents st) (codeBlocksStartOfPotentialDetection st) (cbSymbSpacesTextsOnly st) (cbSymbAttemptedDetect st) v (cbSymbTokenStream st) (cbSymbClassOpeningBrace st) (cbSymbClassClosingBrace st) (cbSymbClassDefnText st) (cbSymbFuncOpeningBracket st) (cbSymbFuncClosingBracket st) (cbSymbFuncOpeningBrace st) (cbSymbFuncClosingBrace st) (cbSymbFuncDefnText st) (cbSymbFuncPreviousImmediatelyColon st) (cbSymbFuncRetTypeBracesMatcher st).
Definition set_cbSymbTokenStream (v : list Token) (st : State) : State :=
  mkState (bracesMatcher st) (curlyBracesMatcher st) (argumentMatcher st) (parseType st) (globalDetectionStartIndex st) (mostRecentStatementsEndTokIdx st) (continuousSpacingsAfterTerminateStatements st) (functOpeningBracket st) (functClosingBracket st) (functOpeningBrace st) (functClosingBrace st) (functRetTypeBracesMatcher st) (functName st) (functType st) (functPreviousImmediatelyColon st) (functPreviousImmediatelyClosingBracket st) (functBodyHasOthers st) (functBodyHasPreviousContent st) (functDeclStartParseIdx st) (functDeclParsing st) (codeBlocksHasComments st) (codeBlocksSymbolToDetect st) (codeBlocksLastSymbolDetectionEnd st) (codeBlocksHasContents st) (codeBlocksStartOfPotentialDetection st) (cbSymbSpacesTextsOnly st) (cbSymbAttemptedDetect st) (cbSymbStringStream st) v (cbSymbClassOpeningBrace st) (cbSymbClassClosingBrace st) (cbSymbClassDefnText st) (cbSymbFuncOpeningBracket st) (cbSymbFuncClosingBracket st) (cbSymbFuncOpeningBrace st) (cbSymbFuncClosingBrace st) (cbSymbFuncDefnText st) (cbSymbFuncPreviousImmediatelyColon st) (cbSymbFuncRetTypeBracesMatcher st).
Definition set_cbSymbClassOpeningBrace (v : Z) (st : State) : State :=
  mkState (bracesMatcher st) (curlyBracesMatcher st) (argumentMatcher st) (parseType st) (globalDetectionStartIndex st) (mostRecentStatementsEndTokIdx st) (continuousSpacingsAfterTerminateStatements st) (functOpeningBracket st) (functClosingBracket st) (functOpeningBrace st) (functClosingBrace st) (functRetTypeBracesMatcher st) (functName st) (functType st) (functPreviousImmediatelyColon st) (functPreviousImmediatelyClosingBracket st) (functBodyHasOthers st) (functBodyHasPreviousContent st) (functDeclStartParseIdx st) (functDeclParsing st) (codeBlocksHasComments st) (codeBlocksSymbolToDetect st) (codeBlocksLastSymbolDetectionEnd st) (codeBlocksHasContents st) (codeBlocksStartOfPotentialDetection st) (cbSymbSpacesTextsOnly st) (cbSymbAttemptedDetect st) (cbSymbStringStream st) (cbSymbTokenStream st) v (cbSymbClassClosingBrace st) (cbSymbClassDefnText st) (cbSymbFuncOpeningBracket st) (cbSymbFuncClosingBracket st) (cbSymbFuncOpeningBrace st) (cbSymbFuncClosingBrace st) (cbSymbFuncDefnText st) (cbSymbFuncPreviousImmediatelyColon st) (cbSymbFuncRetTypeBracesMatcher st).
Definition set_cbSymbClassClosingBrace (v : Z) (st : State) : State :=
  mkState (bracesMatcher st) (curlyBracesMatcher st) (argumentMatcher st) (parseType st) (globalDetectionStartIndex st) (mostRecentStatementsEndTokIdx st) (continuousSpacingsAfterTerminateStatements st) (functOpeningBracket st) (functClosingBracket st) (functOpeningBrace st) (functClosingBrace st) (functRetTypeBracesMatcher st) (functName st) (functType st) (functPreviousImmediatelyColon st) (functPreviousImmediatelyClosingBracket st) (functBodyHasOthers st) (functBodyHasPreviousContent st) (functDeclStartParseIdx st) (functDeclParsing st) (codeBlocksHasComments st) (codeBlocksSymbolToDetect st) (codeBlocksLastSymbolDetectionEnd st) (codeBlocksHasContents st) (codeBlocksStartOfPotentialDetection st) (cbSymbSpacesTextsOnly st) (cbSymbAttemptedDetect st) (cbSymbStringStream st) (cbSymbTokenStream st) (cbSymbClassOpeningBrace st) v (cbSymbClassDefnText st) (cbSymbFuncOpeningBracket st) (cbSymbFuncClosingBracket st) (cbSymbFuncOpeningBrace st) (cbSymbFuncClosingBrace st) (cbSymbFuncDefnText st) (cbSymbFuncPreviousImmediatelyColon st) (cbSymbFuncRetTypeBracesMatcher st).
Definition set_cbSymbClassDefnText (v : option string) (st : State) : State :=
  mkState (bracesMatcher st) (curlyBracesMatcher st) (argumentMatcher st) (parseType st) (globalDetectionStartIndex st) (mostRecentStatementsEndTokIdx st) (continuousSpacingsAfterTerminateStatements st) (functOpeningBracket st) (functClosingBracket st) (functOpeningBrace st) (functClosingBrace st) (functRetTypeBracesMatcher st) (functName st) (functType st) (functPreviousImmediatelyColon st) (functPreviousImmediatelyClosingBracket st) (functBodyHasOthers st) (functBodyHasPreviousContent st) (functDeclStartParseIdx st) (functDeclParsing st) (codeBlocksHasComments st) (codeBlocksSymbolToDetect st) (codeBlocksLastSymbolDetectionEnd st) (codeBlocksHasContents st) (codeBlocksStartOfPotentialDetection st) (cbSymbSpacesTextsOnly st) (cbSymbAttemptedDetect st) (cbSymbStringStream st) (cbSymbTokenStream st) (cbSymbClassOpeningBrace st) (cbSymbClassClosingBrace st) v (cbSymbFuncOpeningBracket st) (cbSymbFuncClosingBracket st) (cbSymbFuncOpeningBrace st) (cbSymbFuncClosingBrace st) (cbSymbFuncDefnText st) (cbSymbFuncPreviousImmediatelyColon st) (cbSymbFuncRetTypeBracesMatcher st).
Definition set_cbSymbFuncOpeningBracket (v : Z) (st : State) : State :=
  mkState (bracesMatcher st) (curlyBracesMatcher st) (argumentMatcher st) (parseType st) (globalDetectionStartIndex st) (mostRecentStatementsEndTokIdx st) (continuousSpacingsAfterTerminateStatements st) (functOpeningBracket st) (functClosingBracket st) (functOpeningBrace st) (functClosingBrace st) (functRetTypeBracesMatcher st) (functName st) (functType st) (functPreviousImmediatelyColon st) (functPreviousImmediatelyClosingBracket st) (functBodyHasOthers st) (functBodyHasPreviousContent st) (functDeclStartParseIdx st) (functDeclParsing st) (codeBlocksHasComments st) (codeBlocksSymbolToDetect st) (codeBlocksLastSymbolDetectionEnd st) (codeBlocksHasContents st) (codeBlocksStartOfPotentialDetection st) (cbSymbSpacesTextsOnly st) (cbSymbAttemptedDetect st) (cbSymbStringStream st) (cbSymbTokenStream st) (cbSymbClassOpeningBrace st) (cbSymbClassClosingBrace st) (cbSymbClassDefnText st) v (cbSymbFuncClosingBracket st) (cbSymbFuncOpeningBrace st) (cbSymbFuncClosingBrace st) (cbSymbFuncDefnText st) (cbSymbFuncPreviousImmediatelyColon st) (cbSymbFuncRetTypeBracesMatcher st).
Definition set_cbSymbFuncClosingBracket (v : Z) (st : State) : State :=
  mkState (bracesMatcher st) (curlyBracesMatcher st) (argumentMatcher st) (parseType st) (globalDetectionStartIndex st) (mostRecentStatementsEndTokIdx st) (continuousSpacingsAfterTerminateStatements st) (functOpeningBracket st) (functClosingBracket st) (functOpeningBrace st) (functClosingBrace st) (functRetTypeBracesMatcher st) (functName st) (functType st) (functPreviousImmediatelyColon st) (functPreviousImmediatelyClosingBracket st) (functBodyHasOthers st) (functBodyHasPreviousContent st) (functDeclStartParseIdx st) (functDeclParsing st) (codeBlocksHasComments st) (codeBlocksSymbolToDetect st) (codeBlocksLastSymbolDetectionEnd st) (codeBlocksHasContents st) (codeBlocksStartOfPotentialDetection st) (cbSymbSpacesTextsOnly st) (cbSymbAttemptedDetect st) (cbSymbStringStream st) (cbSymbTokenStream st) (cbSymbClassOpeningBrace st) (cbSymbClassClosingBrace st) (cbSymbClassDefnText st) (cbSymbFuncOpeningBracket st) v (cbSymbFuncOpeningBrace st) (cbSymbFuncClosingBrace st) (cbSymbFuncDefnText st) (cbSymbFuncPreviousImmediatelyColon st) (cbSymbFuncRetTypeBracesMatcher st).
Definition set_cbSymbFuncOpeningBrace (v : Z) (st : State) : State :=
  mkState (bracesMatcher st) (curlyBracesMatcher st) (argumentMatcher st) (parseType st) (globalDetectionStartIndex st) (mostRecentStatementsEndTokIdx st) (continuousSpacingsAfterTerminateStatements st) (functOpeningBracket st) (functClosingBracket st) (functOpeningBrace st) (functClosingBrace st) (functRetTypeBracesMatcher st) (functName st) (functType st) (functPreviousImmediatelyColon st) (functPreviousImmediatelyClosingBracket st) (functBodyHasOthers st) (functBodyHasPreviousContent st) (functDeclStartParseIdx st) (functDeclParsing st) (codeBlocksHasComments st) (codeBlocksSymbolToDetect st) (codeBlocksLastSymbolDetectionEnd st) (codeBlocksHasContents st) (codeBlocksStartOfPotentialDetection st) (cbSymbSpacesTextsOnly st) (cbSymbAttemptedDetect st) (cbSymbStringStream st) (cbSymbTokenStream st) (cbSymbClassOpeningBrace st) (cbSymbClassClosingBrace st) (cbSymbClassDefnText st) (cbSymbFuncOpeningBracket st) (cbSymbFuncClosingBracket st) v (cbSymbFuncClosingBrace st) (cbSymbFuncDefnText st) (cbSymbFuncPreviousImmediatelyColon st) (cbSymbFuncRetTypeBracesMatcher st).
Definition set_cbSymbFuncClosingBrace (v : Z) (st : State) : State :=
  mkState (bracesMatcher st) (curlyBracesMatcher st) (argumentMatcher st) (parseType st) (globalDetectionStartIndex st) (mostRecentStatementsEndTokIdx st) (continuousSpacingsAfterTerminateStatements st) (functOpeningBracket st) (functClosingBracket st) (functOpeningBrace st) (functClosingBrace st) (functRetTypeBracesMatcher st) (functName st) (functType st) (functPreviousImmediatelyColon st) (functPreviousImmediatelyClosingBracket st) (functBodyHasOthers st) (functBodyHasPreviousContent st) (functDeclStartParseIdx st) (functDeclParsing st) (codeBlocksHasComments st) (codeBlocksSymbolToDetect st) (codeBlocksLastSymbolDetectionEnd st) (codeBlocksHasContents st) (codeBlocksStartOfPotentialDetection st) (cbSymbSpacesTextsOnly st) (cbSymbAttemptedDetect st) (cbSymbStringStream st) (cbSymbTokenStream st) (cbSymbClassOpeningBrace st) (cbSymbClassClosingBrace st) (cbSymbClassDefnText st) (cbSymbFuncOpeningBracket st) (cbSymbFuncClosingBracket st) (cbSymbFuncOpeningBrace st) v (cbSymbFuncDefnText st) (cbSymbFuncPreviousImmediatelyColon st) (cbSymbFuncRetTypeBracesMatcher st).
Definition set_cbSymbFuncDefnText (v : option string) (st : State) : State :=
  mkState (bracesMatcher st) (curlyBracesMatcher st) (argumentMatcher st) (parseType st) (globalDetectionStartIndex st) (mostRecentStatementsEndTokIdx st) (continuousSpacingsAfterTerminateStatements st) (functOpeningBracket st) (functClosingBracket st) (functOpeningBrace st) (functClosingBrace st) (functRetTypeBracesMatcher st) (functName st) (functType st) (functPreviousImmediatelyColon st) (functPreviousImmediatelyClosingBracket st) (functBodyHasOthers st) (functBodyHasPreviousContent st) (functDeclStartParseIdx st) (functDeclParsing st) (codeBlocksHasComments st) (codeBlocksSymbolToDetect st) (codeBlocksLastSymbolDetectionEnd st) (codeBlocksHasContents st) (codeBlocksStartOfPotentialDetection st) (cbSymbSpacesTextsOnly st) (cbSymbAttemptedDetect st) (cbSymbStringStream st) (cbSymbTokenStream st) (cbSymbClassOpeningBrace st) (cbSymbClassClosingBrace st) (cbSymbClassDefnText st) (cbSymbFuncOpeningBracket st) (cbSymbFuncClosingBracket st) (cbSymbFuncOpeningBrace st) (cbSymbFuncClosingBrace st) v (cbSymbFuncPreviousImmediatelyColon st) (cbSymbFuncRetTypeBracesMatcher st).
Definition set_cbSymbFuncPreviousImmediatelyColon (v : bool) (st : State) : State :=
  mkState (bracesMatcher st) (curlyBracesMatcher st) (argumentMatcher st) (parseType st) (globalDetectionStartIndex st) (mostRecentStatementsEndTokIdx st) (continuousSpacingsAfterTerminateStatements st) (functOpeningBracket st) (functClosingBracket st) (functOpeningBrace st) (functClosingBrace st) (functRetTypeBracesMatcher st) (functName st) (functType st) (functPreviousImmediatelyColon st) (functPreviousImmediatelyClosingBracket st) (functBodyHasOthers st) (functBodyHasPreviousContent st) (functDeclStartParseIdx st) (functDeclParsing st) (codeBlocksHasComments st) (codeBlocksSymbolToDetect st) (codeBlocksLastSymbolDetectionEnd st) (codeBlocksHasContents st) (codeBlocksStartOfPotentialDetection st) (cbSymbSpacesTextsOnly st) (cbSymbAttemptedDetect st) (cbSymbStringStream st) (cbSymbTokenStream st) (cbSymbClassOpeningBrace st) (cbSymbClassClosingBrace st) (cbSymbClassDefnText st) (cbSymbFuncOpeningBracket st) (cbSymbFuncClosingBracket st) (cbSymbFuncOpeningBrace st) (cbSymbFuncClosingBrace st) (cbSymbFuncDefnText st) v (cbSymbFuncRetTypeBracesMatcher st).
Definition set_cbSymbFuncRetTypeBracesMatcher (v : BracesMatcher.t) (st : State) : State :=
  mkState (bracesMatcher st) (curlyBracesMatcher st) (argumentMatcher st) (parseType st) (globalDetectionStartIndex st) (mostRecentStatementsEndTokIdx st) (continuousSpacingsAfterTerminateStatements st) (functOpeningBracket st) (functClosingBracket st) (functOpeningBrace st) (functClosingBrace st) (functRetTypeBracesMatcher st) (functName st) (functType st) (functPreviousImmediatelyColon st) (functPreviousImmediatelyClosingBracket st) (functBodyHasOthers st) (functBodyHasPreviousContent st) (functDeclStartParseIdx st) (functDeclParsing st) (codeBlocksHasComments st) (codeBlocksSymbolToDetect st) (codeBlocksLastSymbolDetectionEnd st) (codeBlocksHasContents st) (codeBlocksStartOfPotentialDetection st) (cbSymbSpacesTextsOnly st) (cbSymbAttemptedDetect st) (cbSymbStringStream st) (cbSymbTokenStream st) (cbSymbClassOpeningBrace st) (cbSymbClassClosingBrace st) (cbSymbClassDefnText st) (cbSymbFuncOpeningBracket st) (cbSymbFuncClosingBracket st) (cbSymbFuncOpeningBrace st) (cbSymbFuncClosingBrace st) (cbSymbFuncDefnText st) (cbSymbFuncPreviousImmediatelyColon st) v.


Definition braces : list Braces :=
  [mkBraces "{" "}"; mkBraces "[" "]"; mkBraces "(" ")"].
Definition curlyBraces : list Braces := [mkBraces "{" "}"].
Definition retTypeBraces : list Braces :=
  [mkBraces "{" "}"; mkBraces "[" "]"; mkBraces "(" ")"; mkBraces "<" ">"].

Definition resetDetectionState (st : State) (startTokIndex : Z) (parsingNonTerminal : NonTerminal)
  : State :=
  let st := set_globalDetectionStartIndex startTokIndex st in
  let st := set_parseType parsingNonTerminal st in
  let st := set_bracesMatcher (BracesMatcher.reset (bracesMatcher st)) st in
  let st := set_curlyBracesMatcher (BracesMatcher.reset (curlyBracesMatcher st)) st in
  let st := set_argumentMatcher (fst (TypeScriptVarDeclMatcher.reset (argumentMatcher st))) st in
  let st := set_mostRecentStatementsEndTokIdx (startTokIndex - 1) st in
  let st := set_continuousSpacingsAfterTerminateStatements true st in
  match parsingNonTerminal with
  | TOP_LEVEL | CLASSES =>
      let st := set_codeBlocksHasComments false st in
      let st := set_codeBlocksSymbolToDetect (T STATEMENTS_FILLER) st in
      let st := set_codeBlocksLastSymbolDetectionEnd (startTokIndex - 1) st in
      let st := set_codeBlocksHasContents false st in
      set_codeBlocksStartOfPotentialDetection (-1) st
  | FUNCTIONS =>
      let st := set_functOpeningBracket (-1) st in
      let st := set_functClosingBracket (-1) st in
      let st := set_functOpeningBrace (-1) st in
      let st := set_functClosingBrace (-1) st in
      let st := set_functRetTypeBracesMatcher (BracesMatcher.reset (functRetTypeBracesMatcher st)) st in
      let st := set_functName EmptyString st in
      let st := set_functType None st in
      let st := set_functPreviousImmediatelyColon false st in
      set_functPreviousImmediatelyClosingBracket false st
  | FUNCTION_BODY =>
      let st := set_functBodyHasOthers false st in
      set_functBodyHasPreviousContent false st
  | FUNCTION_DECLARATION =>
      let st := set_functDeclStartParseIdx (-1) st in
      set_functDeclParsing false st
  end.

(** [new TypeScriptParser()]. *)
Definition constructor : result State :=
  bm <- BracesMatcher.constructor braces ;;
  curly <- BracesMatcher.constructor curlyBraces ;;
  am <- TypeScriptVarDeclMatcher.constructor ;;
  functRet <- BracesMatcher.constructor retTypeBraces ;;
  cbRet <- BracesMatcher.constructor retTypeBraces ;;
  Ok (resetDetectionState
        (mkState bm curly am TOP_LEVEL (-1) (-1) true
                 (-1) (-1) (-1) (-1) functRet EmptyString None false false
                 false false
                 (-1) false
                 false (T STATEMENTS_FILLER) (-1) false (-1)
                 true false EmptyString []
                 (-1) (-1) None
                 (-1) (-1) (-1) (-1) None false cbRet)
        0 TOP_LEVEL).

Definition preparse (st : State) (codeLines : list string) (tokens : list Token) : result State :=
  Ok st.

Definition isCommentBeforeFunction : bool := true.

Definition preparseGetTokenizer (st : State)
  : result (AbstractTokenizer.t TypeScriptTokenizer.lexer) :=
  TypeScriptTokenizer.constructor.

(** The seven node factories have the text of [PythonParser]'s. *)
Definition createArgumentNode := PythonParser.createArgumentNode.
Definition createAttributesNode := PythonParser.createAttributesNode.
Definition createCommentsNode := PythonParser.createCommentsNode.
Definition createReferencesNode := PythonParser.createReferencesNode.
Definition createClassesNode := PythonParser.createClassesNode.
Definition createFunctionsNode := PythonParser.createFunctionsNode.
Definition createFunctionDeclarationNode := PythonParser.createFunctionDeclarationNode.

Definition currentDepth (st : State) : Z :=
  Z.of_nat (BracesMatcher.currentDepth (bracesMatcher st)).
Definition curlyDepth (st : State) : Z :=
  Z.of_nat (BracesMatcher.currentDepth (curlyBracesMatcher st)).

Definition contentsIs (token : Token) (s : string) : bool := String.eqb (stringContents token) s.
Definition typeIs (token : Token) (ty : TokenType) : bool := TokenType_eqb (tokenType token) ty.

(** [stripString]. *)
Definition stripString (s : string) : string :=
  Js.trim (Js.str (Js.replaceLineBreaksAndTabs (Js.chars s))).

Definition checkCodeEndCondition (st : State) (token : Token) : bool :=
  (contentsIs token Js.newline && (currentDepth st =? 0))
  || (contentsIs token ";" && (curlyDepth st =? 0)).

Definition updateBracesAndTerminateStatementsState (st : State) (token : Token)
  (currentTokIndex : Z) : result State :=
  if typeIs token SPACINGS then
    if checkCodeEndCondition st token then
      let st := if contentsIs token ";" && (0 <? currentDepth st)
                then set_bracesMatcher (BracesMatcher.reset (bracesMatcher st)) st
                else st in
      let st := set_mostRecentStatementsEndTokIdx currentTokIndex st in
      Ok (set_continuousSpacingsAfterTerminateStatements true st)
    else Ok st
  else if typeIs token BRACES then
    '(bm, _) <- rethrowAsCodeParsingError "Error during brace matching! "
                  (BracesMatcher.next (bracesMatcher st) (stringContents token)) ;;
    let st := set_bracesMatcher bm st in
    st <- (if contentsIs token "{" || contentsIs token "}" then
             '(curly, _) <- rethrowAsCodeParsingError "Error during curly brace matching! "
                              (BracesMatcher.next (curlyBracesMatcher st) (stringContents token)) ;;
             Ok (set_curlyBracesMatcher curly st)
           else Ok st) ;;
    Ok (set_continuousSpacingsAfterTerminateStatements false st)
  else Ok (set_continuousSpacingsAfterTerminateStatements false st).

Definition isAngleOrBrace (token : Token) : bool :=
  typeIs token BRACES || contentsIs token "<" || contentsIs token ">".

Definition detectFunctionsSymbol (p : ParserBase) (st : State) (state : list Symbol)
  (token : option Token) (currentTokIndex depth : Z)
  : result (State * option SymbolAdditionDirective) :=
  match token with
  | None =>
      Ok (st, Some (mkDirective (plainSymbol (NT FUNCTION_BODY))
                                (Some (plainSymbol (T FILLER))) (Some 1) None))
  | Some token =>
      '(st, retValue) <-
        (if functOpeningBracket st =? -1 then
           let st := if typeIs token OTHERS then set_functName (stringContents token) st else st in
           let st := if contentsIs token "(" && (currentDepth st =? 0)
                     then set_functOpeningBracket currentTokIndex st else st in
           Ok (st, None)
         else if functClosingBracket st =? -1 then
           if contentsIs token ")" && (currentDepth st =? 1)
           then Ok (set_functPreviousImmediatelyClosingBracket true
                      (set_functClosingBracket currentTokIndex st), None)
           else Ok (st, None)
         else if functOpeningBrace st =? -1 then
           let retTypeDepth := BracesMatcher.currentDepth (functRetTypeBracesMatcher st) in
           let '(st, retValue) :=
             if (retTypeDepth =? 0)%nat && negb (functPreviousImmediatelyColon st)
                && contentsIs token "{"
             then
               let st := match functType st with
                         | Some ty => set_functType (Some (stripString ty)) st
                         | None => st
                         end in
               let st := set_functOpeningBrace currentTokIndex st in
               let st := set_functRetTypeBracesMatcher
                           (BracesMatcher.reset (functRetTypeBracesMatcher st)) st in
               (st, Some (mkDirective
                            (mkSymbolInfo (NT FUNCTION_DECLARATION)
                               (Some (mkTokenRange (globalDetectionStartIndex st) (functOpeningBrace st)))
                               (Some (FunctionDeclarationInfo (Js.trim (functName st)) (functType st))))
                            (Some (plainSymbol (T FILLER))) (Some 1) None))
             else if functPreviousImmediatelyColon st && (retTypeDepth =? 0)%nat
             then (set_functType (Some (stringContents token)) st, None)
             else
               match functType st with
               | Some ty => (set_functType (Some (ty ++ stringContents token)%string) st, None)
               | None => (st, None)
               end in
           st <- (if isAngleOrBrace token then
                    '(bm, _) <- rethrowAsCodeParsingError "Error during brace matching! "
                                  (BracesMatcher.next (functRetTypeBracesMatcher st) (stringContents token)) ;;
                    Ok (set_functRetTypeBracesMatcher bm st)
                  else Ok st) ;;
           Ok (st, retValue)
         else if functClosingBrace st =? -1 then
           if (curlyDepth st =? 1) && contentsIs token "}"
           then Ok (set_functClosingBrace currentTokIndex st, None)
           else Ok (st, None)
         else Ok (st, None)) ;;
      let st := if contentsIs token ":" then set_functPreviousImmediatelyColon true st
                else if negb (typeIs token SPACINGS) then set_functPreviousImmediatelyColon false st
                else st in
      let st := if negb (typeIs token SPACINGS)
                then set_functPreviousImmediatelyClosingBracket false st else st in
      st <- updateBracesAndTerminateStatementsState st token currentTokIndex ;;
      Ok (st, retValue)
  end.

Definition fillerOf (hasOthers : bool) : SymbolInfo :=
  plainSymbol (T (if hasOthers then STATEMENTS_FILLER else FILLER)).

Definition isBlockComment (token : Token) : bool :=
  typeIs token MULTILINE_COMMENTS_OR_STRINGS
  && Js.startsWith (stringContents token) "/*" && Js.endsWith (stringContents token) "*/".

(** [substring(2, length)] of a [//] comment and [substring(2, length - 2)]
    of a block comment. *)
Definition lineCommentText (token : Token) : string :=
  Js.substring (stringContents token) 2 (Js.len (stringContents token)).
Definition blockCommentText (token : Token) : string :=
  Js.substring (stringContents token) 2 (Js.len (stringContents token) - 2).

Definition detectFunctionBodySymbol (p : ParserBase) (st : State) (state : list Symbol)
  (token : option Token) (currentTokIndex depth : Z)
  : result (State * option SymbolAdditionDirective) :=
  match token with
  | None =>
      if functBodyHasPreviousContent st
      then Ok (st, Some (oneSymbol (fillerOf (functBodyHasOthers st))))
      else Ok (st, None)
  | Some token =>
      let comment :=
        if typeIs token SINGLELINE_COMMENTS
        then Some (symbolWithInfo (T COMMENT_SINGLELINE) (CommentsInfo (lineCommentText token)))
        else if isBlockComment token
        then Some (symbolWithInfo (T COMMENT_MULTILINE) (CommentsInfo (blockCommentText token)))
        else None in
      match comment with
      | Some c =>
          let retDirective :=
            if functBodyHasPreviousContent st
            then mkDirective (fillerOf (functBodyHasOthers st)) (Some c) None None
            else oneSymbol c in
          Ok (set_functBodyHasPreviousContent false (set_functBodyHasOthers false st),
              Some retDirective)
      | None =>
          let st := set_functBodyHasPreviousContent true st in
          Ok (if negb (typeIs token SPACINGS) then set_functBodyHasOthers true st else st, None)
      end
  end.

Definition argumentDirective (st : State) (currentTokIndex : Z)
  (action : TypeScriptVarDeclMatcher.Declaration) : State * SymbolAdditionDirective :=
  (set_functDeclStartParseIdx currentTokIndex st,
   mkDirective (plainSymbol (T FILLER))
               (Some (symbolWithInfo (T ARGUMENT)
                        (ArgumentInfo (TypeScriptVarDeclMatcher.name action)
                                      (TypeScriptVarDeclMatcher.type action))))
               (Some (currentTokIndex - functDeclStartParseIdx st - 1))
               (Some 1)).

Definition detectFunctionDeclarationSymbol (p : ParserBase) (st : State) (state : list Symbol)
  (token : option Token) (currentTokIndex depth : Z)
  : result (State * option SymbolAdditionDirective) :=
  match token with
  | None => Ok (st, Some (oneSymbol (plainSymbol (T FILLER))))
  | Some token =>
      '(st, retDirective) <-
        (if functDeclParsing st then
           '(am, action) <- TypeScriptVarDeclMatcher.next (argumentMatcher st) token ;;
           let st := set_argumentMatcher am st in
           match action with
           | Some a => let '(st, d) := argumentDirective st currentTokIndex a in Ok (st, Some d)
           | None => Ok (st, None)
           end
         else Ok (st, None)) ;;
      st <- updateBracesAndTerminateStatementsState st token currentTokIndex ;;
      if functDeclParsing st && (currentDepth st =? 0) then
        let st := set_functDeclParsing false st in
        let '(am, action) := TypeScriptVarDeclMatcher.reset (argumentMatcher st) in
        let st := set_argumentMatcher am st in
        match action with
        | Some a => let '(st, d) := argumentDirective st currentTokIndex a in Ok (st, Some d)
        | None => Ok (st, retDirective)
        end
      else if (0 <? currentDepth st) && (functDeclStartParseIdx st =? -1)
      then Ok (set_functDeclParsing true (set_functDeclStartParseIdx currentTokIndex st), retDirective)
      else Ok (st, retDirective)
  end.

Definition unexpected : exn := Error "Unexpected!".

Definition tokenStreamAt (st : State) (i : Z) : result Token :=
  match Js.nthZ (cbSymbTokenStream st) i with
  | Some tok => Ok tok
  | None => Throw (TypeError "Cannot read properties of undefined")
  end.

(** The inner range of a function: from the token after the opening brace
    to the closing brace. *)
Definition functionInnerRange (p : ParserBase) (st : State) : result Range :=
  first <- AbstractParser.getTokenChRange p (cbSymbFuncOpeningBrace st + 1) ;;
  last <- AbstractParser.getTokenChRange p (cbSymbFuncClosingBrace st) ;;
  AbstractParser.getRange p (cr_start first) (cr_start last).

(** The [FUNCTIONS] branch of [attemptConcludeCodeBlock], the same text
    for the top level and for classes. *)
Definition concludeFunctions (p : ParserBase) (st : State) : result (option SymbolInfo) :=
  match cbSymbFuncDefnText st with
  | Some defnText =>
      if negb (cbSymbFuncOpeningBracket st =? -1) && negb (cbSymbFuncClosingBracket st =? -1)
         && negb (cbSymbFuncOpeningBrace st =? -1) && negb (cbSymbFuncClosingBrace st =? -1)
         && (1 <? cbSymbFuncClosingBrace st - cbSymbFuncOpeningBrace st)
      then
        range <- functionInnerRange p st ;;
        Ok (Some (symbolWithInfo (NT FUNCTIONS) (FunctionsInfo defnText range)))
      else Ok None
  | None => Ok None
  end.

Definition resolveReference (referenceLoc : string) : option string :=
  if Js.startsWith referenceLoc "./" then
    let referenceLoc := Js.substring referenceLoc 2 (Js.len referenceLoc) in
    if 0 <? Js.len referenceLoc then Some ("local-file://" ++ referenceLoc)%string else None
  else if Js.startsWith referenceLoc "../" then
    let referenceLoc := Js.substring referenceLoc 3 (Js.len referenceLoc) in
    if 0 <? Js.len referenceLoc then Some ("local-file://../" ++ referenceLoc)%string else None
  else if 0 <? Js.len referenceLoc then Some ("environment://" ++ referenceLoc)%string
  else None.

(** [attemptConcludeCodeBlock]: the symbol to create, or [None] to
    invalidate the detection. *)
Definition attemptConcludeCodeBlock (p : ParserBase) (st : State) (symbolToDetect : Symbol)
  : result (State * option SymbolInfo) :=
  match parseType st with
  | TOP_LEVEL =>
      match symbolToDetect with
      | T REFERENCES =>
          let n := Z.of_nat (List.length (cbSymbTokenStream st)) in
          if 3 <=? n then
            first <- tokenStreamAt st 0 ;;
            beforeLast <- tokenStreamAt st (n - 2) ;;
            last <- tokenStreamAt st (n - 1) ;;
            if (contentsIs first "import" || contentsIs first "export")
               && contentsIs beforeLast "from" && typeIs last STRINGS
            then
              let referenceText :=
                stripString (Js.substring (cbSymbStringStream st) 0 (Js.len (cbSymbStringStream st) - 1)) in
              let referenceLoc :=
                Js.substring (stringContents last) 1 (Js.len (stringContents last) - 1) in
              Ok (st, Some (symbolWithInfo (T REFERENCES)
                              (ReferencesInfo referenceText (resolveReference referenceLoc))))
            else Ok (st, None)
          else Ok (st, None)
      | NT CLASSES =>
          match cbSymbClassDefnText st with
          | Some defnText =>
              if negb (cbSymbClassOpeningBrace st =? -1) && negb (cbSymbClassClosingBrace st =? -1)
              then
                let tokRange := mkTokenRange (cbSymbClassOpeningBrace st + 1) (cbSymbClassClosingBrace st) in
                first <- AbstractParser.getTokenChRange p (startTok tokRange) ;;
                last <- AbstractParser.getTokenChRange p (endTok tokRange) ;;
                range <- AbstractParser.getRange p (cr_start first) (cr_start last) ;;
                Ok (st, Some (mkSymbolInfo (NT CLASSES) (Some tokRange)
                                           (Some (ClassesInfo None defnText range))))
              else Ok (st, None)
          | None => Ok (st, None)
          end
      | NT FUNCTIONS => s <- concludeFunctions p st ;; Ok (st, s)
      | _ => Throw unexpected
      end
  | CLASSES =>
      match symbolToDetect with
      | T ATTRIBUTES =>
          let '(am, action) := TypeScriptVarDeclMatcher.reset (argumentMatcher st) in
          let st := set_argumentMatcher am st in
          match action with
          | Some a =>
              match TypeScriptVarDeclMatcher.type a with
              | Some ty =>
                  if 0 <? Js.len (TypeScriptVarDeclMatcher.name a)
                  then Ok (st, Some (symbolWithInfo (T ATTRIBUTES)
                                       (AttributesInfo (TypeScriptVarDeclMatcher.name a) (Some ty))))
                  else Ok (st, None)
              | None => Ok (st, None)
              end
          | None => Ok (st, None)
          end
      | NT FUNCTIONS => s <- concludeFunctions p st ;; Ok (st, s)
      | _ => Throw unexpected
      end
  | _ => Throw unexpected
  end.

(** The part of [detectSymbolsAsCodeBlocks] that follows a function from its
    closing bracket on: return type, opening brace, closing brace, and the
    downgrade when something follows the closing brace. *)
Definition followFunctionFromClosingBracket (st : State) (token : Token) (currentTokIndex : Z)
  : result State :=
  if cbSymbFuncClosingBracket st =? -1 then
    if contentsIs token ")" && (currentDepth st =? 1)
    then Ok (set_cbSymbFuncClosingBracket currentTokIndex st)
    else Ok st
  else if cbSymbFuncOpeningBrace st =? -1 then
    let st :=
      if (BracesMatcher.currentDepth (cbSymbFuncRetTypeBracesMatcher st) =? 0)%nat
         && negb (cbSymbFuncPreviousImmediatelyColon st) && contentsIs token "{"
      then
        let st := set_cbSymbFuncDefnText
                    (Some (stripString (Js.substring (cbSymbStringStream st) 0
                                                     (Js.len (cbSymbStringStream st) - 1)))) st in
        let st := set_cbSymbFuncOpeningBrace currentTokIndex st in
        set_cbSymbFuncRetTypeBracesMatcher (BracesMatcher.reset (cbSymbFuncRetTypeBracesMatcher st)) st
      else st in
    if isAngleOrBrace token then
      '(bm, _) <- rethrowAsCodeParsingError "Error during brace matching! "
                    (BracesMatcher.next (cbSymbFuncRetTypeBracesMatcher st) (stringContents token)) ;;
      Ok (set_cbSymbFuncRetTypeBracesMatcher bm st)
    else Ok st
  else if cbSymbFuncClosingBrace st =? -1 then
    if (curlyDepth st =? 1) && contentsIs token "}"
    then Ok (set_cbSymbFuncClosingBrace currentTokIndex st)
    else Ok st
  else if negb (typeIs token SPACINGS)
  then Ok (set_codeBlocksSymbolToDetect (T STATEMENTS_FILLER) (set_codeBlocksHasContents true st))
  else Ok st.

Definition trackColon (st : State) (token : Token) : State :=
  if contentsIs token ":" then set_cbSymbFuncPreviousImmediatelyColon true st
  else if negb (typeIs token SPACINGS) then set_cbSymbFuncPreviousImmediatelyColon false st
  else st.

Definition upgradeTo (st : State) (s : Symbol) : State :=
  set_cbSymbAttemptedDetect true (set_codeBlocksSymbolToDetect s st).

Definition detectSymbolsAsCodeBlocks (p : ParserBase) (st : State) (token : Token)
  (currentTokIndex startStatementIdx : Z) : result (State * option SymbolAdditionDirective) :=
  let st :=
    if startStatementIdx =? 0 then
      let st := set_cbSymbSpacesTextsOnly true st in
      let st := set_cbSymbAttemptedDetect false st in
      let st := set_cbSymbStringStream EmptyString st in
      let st := set_cbSymbTokenStream [] st in
      let st := set_cbSymbClassOpeningBrace (-1) st in
      let st := set_cbSymbClassClosingBrace (-1) st in
      let st := set_cbSymbClassDefnText None st in
      let st := set_cbSymbFuncOpeningBracket (-1) st in
      let st := set_cbSymbFuncClosingBracket (-1) st in
      let st := set_cbSymbFuncOpeningBrace (-1) st in
      let st := set_cbSymbFuncClosingBrace (-1) st in
      let st := set_cbSymbFuncDefnText None st in
      let st := set_cbSymbFuncPreviousImmediatelyColon false st in
      set_cbSymbFuncRetTypeBracesMatcher (BracesMatcher.reset (cbSymbFuncRetTypeBracesMatcher st)) st
    else st in
  let st := set_cbSymbStringStream (cbSymbStringStream st ++ stringContents token)%string st in
  let st := if negb (typeIs token SPACINGS)
            then set_cbSymbTokenStream (cbSymbTokenStream st ++ [token]) st else st in
  '(st, action) <-
    (match parseType st with
     | TOP_LEVEL =>
         match codeBlocksSymbolToDetect st with
         | T STATEMENTS_FILLER =>
             if negb (cbSymbAttemptedDetect st) then
               if (startStatementIdx =? 0) && contentsIs token "import"
               then Ok (upgradeTo st (T REFERENCES), None)
               else
                 first <- tokenStreamAt st 0 ;;
                 if contentsIs first "export" && contentsIs token "from"
                 then Ok (upgradeTo st (T REFERENCES), None)
                 else if cbSymbSpacesTextsOnly st
                         && (contentsIs token "class" || contentsIs token "interface")
                 then Ok (upgradeTo st (NT CLASSES), None)
                 else if cbSymbSpacesTextsOnly st && contentsIs token "function"
                 then Ok (upgradeTo st (NT FUNCTIONS), None)
                 else Ok (st, None)
             else Ok (st, None)
         | T REFERENCES =>
             if checkCodeEndCondition st token then
               '(st, create) <- attemptConcludeCodeBlock p st (codeBlocksSymbolToDetect st) ;;
               Ok (st, Some create)
             else Ok (st, None)
         | NT CLASSES =>
             if checkCodeEndCondition st token then
               '(st, create) <- attemptConcludeCodeBlock p st (codeBlocksSymbolToDetect st) ;;
               Ok (st, Some create)
             else if negb (cbSymbClassOpeningBrace st =? -1) then
               if negb (cbSymbClassClosingBrace st =? -1) && negb (typeIs token SPACINGS)
               then Ok (set_codeBlocksSymbolToDetect (T STATEMENTS_FILLER)
                          (set_codeBlocksHasContents true st), None)
               else if contentsIs token "}" && (currentDepth st =? 1)
               then Ok (set_cbSymbClassClosingBrace currentTokIndex st, None)
               else Ok (st, None)
             else if contentsIs token "{" && (currentDepth st =? 0)
             then Ok (set_cbSymbClassDefnText
                        (Some (stripString (Js.substring (cbSymbStringStream st) 0
                                                         (Js.len (cbSymbStringStream st) - 1))))
                        (set_cbSymbClassOpeningBrace currentTokIndex st), None)
             else Ok (st, None)
         | NT FUNCTIONS =>
             if checkCodeEndCondition st token then
               '(st, create) <- attemptConcludeCodeBlock p st (codeBlocksSymbolToDetect st) ;;
               Ok (st, Some create)
             else
               st <- (if cbSymbFuncOpeningBracket st =? -1 then
                        if contentsIs token "(" && (currentDepth st =? 0)
                        then Ok (set_cbSymbFuncOpeningBracket currentTokIndex st)
                        else Ok st
                      else followFunctionFromClosingBracket st token currentTokIndex) ;;
               Ok (trackColon st token, None)
         | _ => Ok (st, None)
         end
     | CLASSES =>
         match codeBlocksSymbolToDetect st with
         | T STATEMENTS_FILLER =>
             if negb (cbSymbAttemptedDetect st) then
               let n := Z.of_nat (List.length (cbSymbTokenStream st)) in
               if (2 <=? n) && contentsIs token ":" && (currentDepth st =? 0)
                  && cbSymbSpacesTextsOnly st
               then
                 let st := upgradeTo st (T ATTRIBUTES) in
                 let am := fst (TypeScriptVarDeclMatcher.reset (argumentMatcher st)) in
                 beforeLast <- tokenStreamAt st (n - 2) ;;
                 last <- tokenStreamAt st (n - 1) ;;
                 '(am, _) <- TypeScriptVarDeclMatcher.next am beforeLast ;;
                 '(am, _) <- TypeScriptVarDeclMatcher.next am last ;;
                 Ok (set_argumentMatcher am st, None)
               else if cbSymbSpacesTextsOnly st && contentsIs token "(" && (currentDepth st =? 0)
               then Ok (set_cbSymbFuncOpeningBracket currentTokIndex (upgradeTo st (NT FUNCTIONS)), None)
               else Ok (st, None)
             else Ok (st, None)
         | T ATTRIBUTES =>
             if checkCodeEndCondition st token then
               '(st, create) <- attemptConcludeCodeBlock p st (codeBlocksSymbolToDetect st) ;;
               Ok (st, Some create)
             else
               '(am, _) <- TypeScriptVarDeclMatcher.next (argumentMatcher st) token ;;
               Ok (set_argumentMatcher am st, None)
         | NT FUNCTIONS =>
             if checkCodeEndCondition st token then
               '(st, create) <- attemptConcludeCodeBlock p st (codeBlocksSymbolToDetect st) ;;
               Ok (st, Some create)
             else
               st <- followFunctionFromClosingBracket st token currentTokIndex ;;
               Ok (trackColon st token, None)
         | _ => Ok (st, None)
         end
     | _ => Throw unexpected
     end) ;;
  let '(st, retValue) :=
    match action with
    | None => (st, None)
    | Some None =>
        (set_codeBlocksSymbolToDetect (T STATEMENTS_FILLER) (set_codeBlocksHasContents true st), None)
    | Some (Some create) =>
        let retValue :=
          if codeBlocksStartOfPotentialDetection st - codeBlocksLastSymbolDetectionEnd st =? 1
          then mkDirective create None (Some 1) None
          else mkDirective (fillerOf (codeBlocksHasContents st)) (Some create)
                           (Some (currentTokIndex - codeBlocksStartOfPotentialDetection st))
                           (Some 1) in
        (set_codeBlocksSymbolToDetect (T STATEMENTS_FILLER)
           (set_codeBlocksLastSymbolDetectionEnd (currentTokIndex - 1) st),
         Some retValue)
    end in
  let st := if negb (typeIs token SPACINGS || typeIs token OTHERS)
            then set_cbSymbSpacesTextsOnly false st else st in
  Ok (st, retValue).

(** A comment met by [detectCodeBlocks]: alone, or after the filler that
    precedes it. *)
Definition commentDirective (st : State) (currentTokIndex : Z) (comment : SymbolInfo)
  : State * SymbolAdditionDirective :=
  let priorFillerLength := currentTokIndex - codeBlocksLastSymbolDetectionEnd st - 1 in
  let retValue :=
    if priorFillerLength =? 0 then oneSymbol comment
    else mkDirective (fillerOf (codeBlocksHasContents st)) (Some comment) None None in
  let st := set_codeBlocksHasComments true st in
  let st := set_codeBlocksLastSymbolDetectionEnd currentTokIndex st in
  (set_codeBlocksHasContents false st, retValue).

Definition detectCodeBlocks (p : ParserBase) (st : State) (token : option Token)
  (currentTokIndex : Z) : result (State * option SymbolAdditionDirective) :=
  match token with
  | None =>
      if Symbol_eqb (codeBlocksSymbolToDetect st) (T STATEMENTS_FILLER)
      then Ok (st, Some (oneSymbol (fillerOf (codeBlocksHasContents st))))
      else
        '(st, create) <- attemptConcludeCodeBlock p st (codeBlocksSymbolToDetect st) ;;
        match create with
        | None => Ok (st, Some (oneSymbol (plainSymbol (T STATEMENTS_FILLER))))
        | Some create =>
            let gap := codeBlocksStartOfPotentialDetection st - codeBlocksLastSymbolDetectionEnd st - 1 in
            if 0 <? gap
            then Ok (st, Some (mkDirective (fillerOf (codeBlocksHasContents st)) (Some create)
                                 (Some (currentTokIndex - codeBlocksStartOfPotentialDetection st)) None))
            else Ok (st, Some (oneSymbol create))
        end
  | Some token =>
      let startStatementIdx := currentTokIndex - mostRecentStatementsEndTokIdx st - 1 in
      let st :=
        if startStatementIdx =? 0 then
          let st := if negb (Symbol_eqb (codeBlocksSymbolToDetect st) (T STATEMENTS_FILLER))
                    then set_codeBlocksHasContents true
                           (set_codeBlocksSymbolToDetect (T STATEMENTS_FILLER) st)
                    else st in
          set_codeBlocksHasComments false st
        else st in
      '(st, retValue) <-
        (if Symbol_eqb (codeBlocksSymbolToDetect st) (T STATEMENTS_FILLER) then
           if typeIs token SINGLELINE_COMMENTS then
             let '(st, d) := commentDirective st currentTokIndex
                               (symbolWithInfo (T COMMENT_SINGLELINE) (CommentsInfo (lineCommentText token))) in
             Ok (st, Some d)
           else if isBlockComment token then
             let '(st, d) := commentDirective st currentTokIndex
                               (symbolWithInfo (T COMMENT_MULTILINE) (CommentsInfo (blockCommentText token))) in
             Ok (st, Some d)
           else if negb (codeBlocksHasComments st) then
             if negb (continuousSpacingsAfterTerminateStatements st) || negb (typeIs token SPACINGS)
             then
               let st := if continuousSpacingsAfterTerminateStatements st
                         then set_codeBlocksStartOfPotentialDetection currentTokIndex st
                         else st in
               detectSymbolsAsCodeBlocks p st token currentTokIndex
                                         (currentTokIndex - codeBlocksStartOfPotentialDetection st)
             else Ok (st, None)
           else if negb (typeIs token SPACINGS)
           then Ok (set_codeBlocksHasContents true st, None)
           else Ok (st, None)
         else
           detectSymbolsAsCodeBlocks p st token currentTokIndex
                                     (currentTokIndex - codeBlocksStartOfPotentialDetection st)) ;;
      st <- updateBracesAndTerminateStatementsState st token currentTokIndex ;;
      Ok (st, retValue)
  end.

Definition detectTopLevelSymbol (p : ParserBase) (st : State) (state : list Symbol)
  (token : option Token) (currentTokIndex depth : Z)
  : result (State * option SymbolAdditionDirective) :=
  detectCodeBlocks p st token currentTokIndex.

Definition detectClassesSymbol (p : ParserBase) (st : State) (state : list Symbol)
  (token : option Token) (currentTokIndex depth : Z)
  : result (State * option SymbolAdditionDirective) :=
  detectCodeBlocks p st token currentTokIndex.

Definition language : Language :=
  mkLanguage TypeScriptTokenizer.lexer State preparse preparseGetTokenizer
             createArgumentNode createAttributesNode createCommentsNode createReferencesNode
             createClassesNode createFunctionsNode createFunctionDeclarationNode
             resetDetectionState isCommentBeforeFunction
             detectTopLevelSymbol detectClassesSymbol detectFunctionsSymbol
             detectFunctionBodySymbol detectFunctionDeclarationSymbol.

(** [new TypeScriptParser().parse(codeLines)]. *)
Definition parse (codeLines : list string) : result AbstractSyntaxTree.t :=
  st <- constructor ;;
  AbstractParser.parse language st codeLines.

End TypeScriptParser.

(* ================================================================== *)
(** ** ASTGenericTokenizer.ts *)

Module TreeTokenType.
Inductive t : Type :=
| TOP_LEVEL | REFERENCES | FUNCTION_GROUP | FUNCTION | FUNCTION_DEFINITION
| COMMENTS | CLASS | ATTRIBUTE | ARGUMENT | OTHERS.
End TreeTokenType.

Module TreeToken.
Record t : Type := mkTreeToken {
  stringContents : string;
  tokenType : TreeTokenType.t;
  range : option Range;
  originalNode : option NodeId
}.
End TreeToken.

Module TokenAction.
Inductive t : Type := TERMINATE | RESOLVE.
End TokenAction.

Record TextRange : Type := mkTextRange { text : string; textRange : Range }.

(** The object that [convertIntoTokens] returns. *)
Record Conversion : Type := mkConversion {
  prefixTokens : option (list TreeToken.t);
  suffixTokens : option (list TreeToken.t);
  action : TokenAction.t
}.

(** The private fields of [ASTGenericTokenizer] apart from [tree], which
    every method below receives as an argument; [tokenList] is the field
    [tokenString]. *)
Record TreeFields : Type := mkTreeFields {
  tokenList : list TreeToken.t;
  tfStart : Index;
  tfEnd : Index;
  subtreeRestrictionPath : option (list NodeId);
  nodeToReplace : option NodeId;
  replacementString : option string;
  nodeToReplaceTokenIdx : Z;
  fillTokens : bool
}.

(** The methods a subclass of [ASTGenericTokenizer] supplies or overrides,
    over the fields [SubState] it adds. *)
Record TreeTokenizer : Type := mkTreeTokenizer {
  SubState : Type;
  pretokenize : AbstractSyntaxTree.t -> TreeFields -> SubState -> result (TreeFields * SubState);
  posttokenize : AbstractSyntaxTree.t -> TreeFields -> SubState -> result (TreeFields * SubState);
  convertIntoTokens : AbstractSyntaxTree.t -> TreeFields -> SubState -> NodeId -> nat
                      -> option NodeId -> TextRange -> option TextRange -> option TextRange
                      -> result (SubState * Conversion);
  handleFirstSuffixTokenIfNecessary : AbstractSyntaxTree.t -> SubState -> TreeToken.t
                                      -> result (option TreeToken.t);
  handleLastSuffixTokenWithRangeIfNecessary : SubState -> TreeToken.t -> result SubState
}.

Module ASTGenericTokenizer.
Local Open Scope nat_scope.


Definition push (f : TreeFields) (toks : list TreeToken.t) : TreeFields :=
  mkTreeFields (tokenList f ++ toks) (tfStart f) (tfEnd f) (subtreeRestrictionPath f)
               (nodeToReplace f) (replacementString f) (nodeToReplaceTokenIdx f) (fillTokens f).

Definition set_nodeToReplaceTokenIdx (i : Z) (f : TreeFields) : TreeFields :=
  mkTreeFields (tokenList f) (tfStart f) (tfEnd f) (subtreeRestrictionPath f)
               (nodeToReplace f) (replacementString f) i (fillTokens f).

Definition getCodeString (tree : AbstractSyntaxTree.t) (range : Range) : result string :=
  AbstractSyntaxTree.getSourceTextFromRange (AbstractSyntaxTree.sourceLines tree) range.

Definition getCodeStringFromIndices (tree : AbstractSyntaxTree.t) (start end_ : Index)
  : result string :=
  getCodeString tree (Utils.indexesToRange start end_).

Definition isNonEmpty (r : Range) : bool :=
  (Utils.compare (Utils.rangeToStartIndex r) (Utils.rangeToEndIndex r) =? -1)%Z.

Definition textOf (tree : AbstractSyntaxTree.t) (r : option Range) : result (option TextRange) :=
  match r with
  | Some r =>
      if isNonEmpty r
      then t <- getCodeString tree r ;; Ok (Some (mkTextRange t r))
      else Ok None
  | None => Ok None
  end.

(** [getTexts]. *)
Definition getTexts (tree : AbstractSyntaxTree.t) (node : NodeId)
  : result (TextRange * option TextRange * option TextRange) :=
  let st := AbstractSyntaxTree.store tree in
  n <- Heap.get st node ;;
  let range := SyntaxNode.range n in
  prefixRange <- Heap.getPrefixRange st node ;;
  suffixRange <- Heap.getSuffixRange st node ;;
  if (SyntaxNode.isFunctions n || SyntaxNode.isClasses n)
     && (match prefixRange, suffixRange with Some _, Some _ => false | _, _ => true end)
  then Throw (CodeParserImplError "The Parser must implement and resolve the inner range for Functions and Classes! This is the maximal inner range so that when taken away, the class/function is still a valid class/function (with no body).")
  else
    tokenText <- getCodeString tree range ;;
    tokenPrefixText <- textOf tree prefixRange ;;
    tokenSuffixText <- textOf tree suffixRange ;;
    Ok (mkTextRange tokenText range, tokenPrefixText, tokenSuffixText).

Definition isNodeToReplace (f : TreeFields) (node : NodeId) : bool :=
  match nodeToReplace f with
  | Some r => node =? r
  | None => false
  end.

Definition isResolved (resolveRestrictionNode : option NodeId) (child : NodeId) : bool :=
  match resolveRestrictionNode with
  | None => true
  | Some r => child =? r
  end.

Definition subRestrictionNode (f : TreeFields) (depth : nat) : option NodeId :=
  match subtreeRestrictionPath f with
  | Some path => if depth + 1 <? List.length path then nth_error path (depth + 1) else None
  | None => None
  end.

Fixpoint lastWithRange (toks : list TreeToken.t) (acc : option TreeToken.t) : option TreeToken.t :=
  match toks with
  | [] => acc
  | tok :: rest =>
      lastWithRange rest (match TreeToken.range tok with Some _ => Some tok | None => acc end)
  end.

Definition orEmpty (toks : option (list TreeToken.t)) : list TreeToken.t :=
  match toks with Some l => l | None => [] end.

Section WithTokenizer.
Variable K : TreeTokenizer.
Variable tree : AbstractSyntaxTree.t.

(** The part of [recursivelyTokenize] after the children: the token that
    may precede the suffix tokens, the suffix tokens, and the note of the
    last of them that has a range. *)
Definition pushSuffixTokens (suffix : option (list TreeToken.t)) (f : TreeFields)
  (s : SubState K) : result (TreeFields * SubState K) :=
  match suffix with
  | None => Ok (f, s)
  | Some suffix =>
      f <- (match suffix with
            | first :: _ =>
                additionalToken <- handleFirstSuffixTokenIfNecessary K tree s first ;;
                match additionalToken with
                | Some tok => Ok (push f [tok])
                | None => Ok f
                end
            | [] => Ok f
            end) ;;
      let f := push f suffix in
      match lastWithRange suffix None with
      | Some tok => s <- handleLastSuffixTokenWithRangeIfNecessary K s tok ;; Ok (f, s)
      | None => Ok (f, s)
      end
  end.

(** The loop of [recursivelyTokenize] over the children of a node; [rec] is
    the recursive call. *)
Fixpoint tokenizeChildren
  (rec : NodeId -> nat -> option NodeId -> option NodeId -> TreeFields -> SubState K
         -> result (TreeFields * SubState K))
  (depth : nat) (resolveRestrictionNode : option NodeId)
  (children : list NodeId) (prevChild : option NodeId) (f : TreeFields) (s : SubState K)
  : result (TreeFields * SubState K) :=
  match children with
  | [] => Ok (f, s)
  | child :: rest =>
      if isResolved resolveRestrictionNode child then
        '(f, s) <- rec child (depth + 1) prevChild (subRestrictionNode f depth) f s ;;
        tokenizeChildren rec depth resolveRestrictionNode rest (Some child) f s
      else tokenizeChildren rec depth resolveRestrictionNode rest prevChild f s
  end.

(** [recursivelyTokenize]; [fuel] bounds the depth of the recursion. *)
Fixpoint recursivelyTokenize (fuel : nat) (node : NodeId) (depth : nat)
  (previousNode resolveRestrictionNode : option NodeId) (f : TreeFields) (s : SubState K)
  : result (TreeFields * SubState K) :=
  match fuel with
  | O => Throw OutOfFuel
  | S fuel' =>
      if isNodeToReplace f node then
        let repStr := match replacementString f with
                      | None => "[PLACEHOLDER/ERROR: Didn't provide replacement string!]"
                      | Some r => r
                      end in
        let f := push f [TreeToken.mkTreeToken repStr TreeTokenType.OTHERS None None] in
        Ok (set_nodeToReplaceTokenIdx (Z.of_nat (List.length (tokenList f)) - 1) f, s)
      else
        '(tokenText, tokenPrefixText, tokenSuffixText) <- getTexts tree node ;;
        '(s, conv) <- convertIntoTokens K tree f s node depth previousNode
                                        tokenText tokenPrefixText tokenSuffixText ;;
        let f := push f (orEmpty (prefixTokens conv)) in
        '(f, s) <-
          (match action conv with
           | TokenAction.RESOLVE =>
               children <- Heap.listChildren (AbstractSyntaxTree.store tree) node ;;
               tokenizeChildren (recursivelyTokenize fuel') depth resolveRestrictionNode
                                children None f s
           | TokenAction.TERMINATE => Ok (f, s)
           end) ;;
        pushSuffixTokens (suffixTokens conv) f s
  end.

(** The recursion is as deep as the tree, which has at most as many levels
    as the store has nodes. *)
Definition tokenizeFuel : nat := S (List.length (AbstractSyntaxTree.store tree)).

(** [tokenize(tree, fillTokens)] on a tokenizer whose own fields are [s]. *)
Definition tokenize (s : SubState K) (fillTokens : bool) : result (list TreeToken.t) :=
  let '(start, end_) := AbstractSyntaxTree.getMaxRangeAsIndices tree in
  let f := mkTreeFields [] start end_ None None None (-1) fillTokens in
  '(f, s) <- pretokenize K tree f s ;;
  '(f, s) <- recursivelyTokenize tokenizeFuel (AbstractSyntaxTree.getRoot tree) 0 None None f s ;;
  '(f, s) <- posttokenize K tree f s ;;
  Ok (tokenList f).

End WithTokenizer.

End ASTGenericTokenizer.

(* ================================================================== *)
(** ** ASTFaithfulTokenizer.ts *)

Module TokenizationMode.
Inductive t : Type :=
| NONE
| TOP_LEVEL_ONLY
| FUNCTIONS_AND_CLASSES
| FUNCTIONS_AND_CLASSES_AND_ARGUMENTS
| EVERYTHING.
End TokenizationMode.

Module ASTFaithfulTokenizer.
Local Open Scope nat_scope.

(** The tokenizer adds [prevEndIndex] to the fields; [tokenizationMode] and
    [excludeInnerRangeIfPossible] are fixed at construction. *)
Definition constructor : Index := mkIndex 0 0.

Definition pretokenize (tree : AbstractSyntaxTree.t) (f : TreeFields) (prevEndIndex : Index)
  : result (TreeFields * Index) :=
  Ok (f, tfStart f).

Definition posttokenize (tree : AbstractSyntaxTree.t) (f : TreeFields) (prevEndIndex : Index)
  : result (TreeFields * Index) :=
  let diff := Utils.compare prevEndIndex (tfEnd f) in
  if (diff =? -1)%Z then
    contents <- ASTGenericTokenizer.getCodeStringFromIndices tree prevEndIndex (tfEnd f) ;;
    Ok (ASTGenericTokenizer.push f
          [TreeToken.mkTreeToken contents TreeTokenType.OTHERS
             (Some (Utils.indexesToRange prevEndIndex (tfEnd f))) None],
        prevEndIndex)
  else if (diff =? 1)%Z then Throw (Error "Unexpected end index larger than global end!")
  else Ok (f, prevEndIndex).

Definition invalidComparison : exn :=
  Error "Invalid comparison! Expected previous end to be less than or equal to the current range.".

Definition tokenOf (t : TextRange) (tokenType : TreeTokenType.t) (node : NodeId) : TreeToken.t :=
  TreeToken.mkTreeToken (text t) tokenType (Some (textRange t)) (Some node).

(** [getPrefixTokens]: the new [prevEndIndex] and the tokens. *)
Definition getPrefixTokens (tree : AbstractSyntaxTree.t) (prevEndIndex : Index)
  (tokenText : TextRange) (tokenType : TreeTokenType.t) (originalNode : NodeId)
  : result (Index * list TreeToken.t) :=
  let comparison := Utils.compare prevEndIndex (Utils.rangeToStartIndex (textRange tokenText)) in
  retTokens <-
    (if (comparison =? 1)%Z then Throw invalidComparison
     else if (comparison =? -1)%Z then
       let fillRange := Utils.indexesToRange prevEndIndex
                                             (Utils.rangeToStartIndex (textRange tokenText)) in
       fill <- ASTGenericTokenizer.getCodeString tree fillRange ;;
       Ok [TreeToken.mkTreeToken fill TreeTokenType.OTHERS (Some fillRange) None;
           tokenOf tokenText tokenType originalNode]
     else Ok [tokenOf tokenText tokenType originalNode]) ;;
  Ok (Utils.rangeToEndIndex (textRange tokenText), retTokens).

Definition handleFirstSuffixTokenIfNecessary (tree : AbstractSyntaxTree.t) (prevEndIndex : Index)
  (firstSuffixToken : TreeToken.t) : result (option TreeToken.t) :=
  match TreeToken.range firstSuffixToken with
  | Some range =>
      let comparison := Utils.compare prevEndIndex (Utils.rangeToStartIndex range) in
      if (comparison =? 1)%Z then Throw invalidComparison
      else if (comparison =? -1)%Z then
        let fillRange := Utils.indexesToRange prevEndIndex (Utils.rangeToStartIndex range) in
        fill <- ASTGenericTokenizer.getCodeString tree fillRange ;;
        Ok (Some (TreeToken.mkTreeToken fill TreeTokenType.OTHERS (Some fillRange) None))
      else Ok None
  | None => Ok None
  end.

Definition handleLastSuffixTokenWithRangeIfNecessary (prevEndIndex : Index)
  (lastSuffixToken : TreeToken.t) : result Index :=
  match TreeToken.range lastSuffixToken with
  | Some range => Ok (Utils.rangeToEndIndex range)
  | None => Throw (TypeError "Cannot read properties of undefined")
  end.

(** [node.getParent() instanceof X]. *)
Definition parentIs (tree : AbstractSyntaxTree.t) (node : NodeId)
  (isX : SyntaxNode.t -> bool) : result bool :=
  parent <- Heap.getParent (AbstractSyntaxTree.store tree) node ;;
  match parent with
  | Some p => n <- Heap.get (AbstractSyntaxTree.store tree) p ;; Ok (isX n)
  | None => Ok false
  end.

Definition resolveOnly : Conversion := mkConversion None None TokenAction.RESOLVE.
Definition terminateOnly : Conversion := mkConversion None None TokenAction.TERMINATE.

(** [{prefixTokens: this.getPrefixTokens(tokenText, type, node), action}]. *)
Definition prefixOnly (tree : AbstractSyntaxTree.t) (prevEndIndex : Index) (t : TextRange)
  (tokenType : TreeTokenType.t) (node : NodeId) (action : TokenAction.t)
  : result (Index * Conversion) :=
  '(prevEndIndex, toks) <- getPrefixTokens tree prevEndIndex t tokenType node ;;
  Ok (prevEndIndex, mkConversion (Some toks) None action).

(** The split of a node into its prefix and its suffix, where it has
    them: the shape that classes, functions and function declarations
    share. [whole] is the action when there is no prefix text. *)
Definition splitIfPossible (tree : AbstractSyntaxTree.t) (prevEndIndex : Index)
  (tokenText : TextRange) (tokenPrefixText tokenSuffixText : option TextRange)
  (tokenType : TreeTokenType.t) (node : NodeId) (split whole : TokenAction.t)
  : result (Index * Conversion) :=
  match tokenPrefixText with
  | Some prefixText =>
      match tokenSuffixText with
      | Some suffixText =>
          '(prevEndIndex, toks) <- getPrefixTokens tree prevEndIndex prefixText tokenType node ;;
          Ok (prevEndIndex,
              mkConversion (Some toks) (Some [tokenOf suffixText tokenType node]) split)
      | None => prefixOnly tree prevEndIndex prefixText tokenType node split
      end
  | None => prefixOnly tree prevEndIndex tokenText tokenType node whole
  end.

Definition notExplored : exn := Error "Some scenarios not explored!".

Section WithMode.
Variable tokenizationMode : TokenizationMode.t.
Variable excludeInnerRangeIfPossible : bool.

(** A class or a function that is not resolved: split only on request. *)
Definition terminated (tree : AbstractSyntaxTree.t) (prevEndIndex : Index)
  (tokenText : TextRange) (tokenPrefixText tokenSuffixText : option TextRange)
  (tokenType : TreeTokenType.t) (node : NodeId) : result (Index * Conversion) :=
  if excludeInnerRangeIfPossible
  then splitIfPossible tree prevEndIndex tokenText tokenPrefixText tokenSuffixText
                       tokenType node TokenAction.TERMINATE TokenAction.TERMINATE
  else prefixOnly tree prevEndIndex tokenText tokenType node TokenAction.TERMINATE.

Definition convertTopLevel (tree : AbstractSyntaxTree.t) (prevEndIndex : Index)
  (node : NodeId) (depth : nat) (tokenText : TextRange)
  (tokenPrefixText tokenSuffixText : option TextRange) : result (Index * Conversion) :=
  if depth =? 0 then Ok (prevEndIndex, resolveOnly)
  else
    n <- Heap.get (AbstractSyntaxTree.store tree) node ;;
    match SyntaxNode.kind n with
    | References _ _ =>
        prefixOnly tree prevEndIndex tokenText TreeTokenType.REFERENCES node TokenAction.TERMINATE
    | Comments _ _ =>
        inTopLevel <- parentIs tree node SyntaxNode.isTopLevel ;;
        if inTopLevel
        then prefixOnly tree prevEndIndex tokenText TreeTokenType.COMMENTS node TokenAction.TERMINATE
        else Ok (prevEndIndex, terminateOnly)
    | Classes _ _ =>
        terminated tree prevEndIndex tokenText tokenPrefixText tokenSuffixText
                   TreeTokenType.CLASS node
    | FunctionGroups => Ok (prevEndIndex, resolveOnly)
    | Functions _ _ =>
        terminated tree prevEndIndex tokenText tokenPrefixText tokenSuffixText
                   TreeTokenType.FUNCTION node
    | _ => Throw notExplored
    end.

Definition convertFunctionsAndClasses (tree : AbstractSyntaxTree.t) (prevEndIndex : Index)
  (node : NodeId) (depth : nat) (tokenText : TextRange)
  (tokenPrefixText tokenSuffixText : option TextRange) : result (Index * Conversion) :=
  if depth =? 0 then Ok (prevEndIndex, resolveOnly)
  else
    n <- Heap.get (AbstractSyntaxTree.store tree) node ;;
    match SyntaxNode.kind n with
    | References _ _ =>
        prefixOnly tree prevEndIndex tokenText TreeTokenType.REFERENCES node TokenAction.TERMINATE
    | Comments _ _ =>
        inGroup <- parentIs tree node SyntaxNode.isFunctionGroups ;;
        if excludeInnerRangeIfPossible || negb inGroup || (SyntaxNode.siblingRank n =? 0)
        then prefixOnly tree prevEndIndex tokenText TreeTokenType.COMMENTS node TokenAction.TERMINATE
        else Ok (prevEndIndex, terminateOnly)
    | Classes _ _ =>
        splitIfPossible tree prevEndIndex tokenText tokenPrefixText tokenSuffixText
                        TreeTokenType.CLASS node TokenAction.RESOLVE TokenAction.RESOLVE
    | Attributes _ _ =>
        prefixOnly tree prevEndIndex tokenText TreeTokenType.ATTRIBUTE node TokenAction.TERMINATE
    | FunctionGroups => Ok (prevEndIndex, resolveOnly)
    | Functions _ _ =>
        terminated tree prevEndIndex tokenText tokenPrefixText tokenSuffixText
                   TreeTokenType.FUNCTION node
    | _ => Throw notExplored
    end.

Definition convertFunctionsAndClassesAndArguments (tree : AbstractSyntaxTree.t)
  (prevEndIndex : Index) (node : NodeId) (depth : nat) (tokenText : TextRange)
  (tokenPrefixText tokenSuffixText : option TextRange) : result (Index * Conversion) :=
  if depth =? 0 then Ok (prevEndIndex, resolveOnly)
  else
    n <- Heap.get (AbstractSyntaxTree.store tree) node ;;
    match SyntaxNode.kind n with
    | References _ _ =>
        prefixOnly tree prevEndIndex tokenText TreeTokenType.REFERENCES node TokenAction.TERMINATE
    | Comments _ _ =>
        inFunction <- parentIs tree node SyntaxNode.isFunctions ;;
        if inFunction then Ok (prevEndIndex, terminateOnly)
        else prefixOnly tree prevEndIndex tokenText TreeTokenType.COMMENTS node TokenAction.TERMINATE
    | Classes _ _ =>
        splitIfPossible tree prevEndIndex tokenText tokenPrefixText tokenSuffixText
                        TreeTokenType.CLASS node TokenAction.RESOLVE TokenAction.RESOLVE
    | Attributes _ _ =>
        prefixOnly tree prevEndIndex tokenText TreeTokenType.ATTRIBUTE node TokenAction.TERMINATE
    | FunctionGroups => Ok (prevEndIndex, resolveOnly)
    | Functions _ _ => Ok (prevEndIndex, resolveOnly)
    | FunctionDeclaration _ _ =>
        splitIfPossible tree prevEndIndex tokenText tokenPrefixText tokenSuffixText
                        TreeTokenType.FUNCTION_DEFINITION node
                        TokenAction.RESOLVE TokenAction.TERMINATE
    | Argument _ _ =>
        prefixOnly tree prevEndIndex tokenText TreeTokenType.ARGUMENT node TokenAction.TERMINATE
    | TopLevel => Throw notExplored
    end.

Definition convertEverything (tree : AbstractSyntaxTree.t) (prevEndIndex : Index)
  (node : NodeId) (depth : nat) (tokenText : TextRange)
  (tokenPrefixText tokenSuffixText : option TextRange) : result (Index * Conversion) :=
  if depth =? 0 then Ok (prevEndIndex, resolveOnly)
  else
    n <- Heap.get (AbstractSyntaxTree.store tree) node ;;
    match SyntaxNode.kind n with
    | References _ _ =>
        prefixOnly tree prevEndIndex tokenText TreeTokenType.REFERENCES node TokenAction.TERMINATE
    | Comments _ _ =>
        inGroup <- parentIs tree node SyntaxNode.isFunctionGroups ;;
        if negb inGroup || (SyntaxNode.siblingRank n =? 0)
        then prefixOnly tree prevEndIndex tokenText TreeTokenType.COMMENTS node TokenAction.TERMINATE
        else Ok (prevEndIndex, terminateOnly)
    | Classes _ _ =>
        splitIfPossible tree prevEndIndex tokenText tokenPrefixText tokenSuffixText
                        TreeTokenType.CLASS node TokenAction.RESOLVE TokenAction.RESOLVE
    | Attributes _ _ =>
        prefixOnly tree prevEndIndex tokenText TreeTokenType.ATTRIBUTE node TokenAction.TERMINATE
    | FunctionGroups => Ok (prevEndIndex, resolveOnly)
    | Functions _ _ => Ok (prevEndIndex, resolveOnly)
    | FunctionDeclaration _ _ =>
        splitIfPossible tree prevEndIndex tokenText tokenPrefixText tokenSuffixText
                        TreeTokenType.FUNCTION_DEFINITION node
                        TokenAction.RESOLVE TokenAction.TERMINATE
    | Argument _ _ =>
        prefixOnly tree prevEndIndex tokenText TreeTokenType.ARGUMENT node TokenAction.TERMINATE
    | TopLevel => Throw notExplored
    end.

Definition convertIntoTokens (tree : AbstractSyntaxTree.t) (f : TreeFields) (prevEndIndex : Index)
  (node : NodeId) (depth : nat) (previousNode : option NodeId) (tokenText : TextRange)
  (tokenPrefixText tokenSuffixText : option TextRange) : result (Index * Conversion) :=
  match tokenizationMode with
  | TokenizationMode.NONE =>
      Ok (tfEnd f,
          mkConversion (Some [tokenOf tokenText TreeTokenType.TOP_LEVEL node]) None
                       TokenAction.TERMINATE)
  | TokenizationMode.TOP_LEVEL_ONLY =>
      convertTopLevel tree prevEndIndex node depth tokenText tokenPrefixText tokenSuffixText
  | TokenizationMode.FUNCTIONS_AND_CLASSES =>
      convertFunctionsAndClasses tree prevEndIndex node depth tokenText
                                 tokenPrefixText tokenSuffixText
  | TokenizationMode.FUNCTIONS_AND_CLASSES_AND_ARGUMENTS =>
      convertFunctionsAndClassesAndArguments tree prevEndIndex node depth tokenText
                                             tokenPrefixText tokenSuffixText
  | TokenizationMode.EVERYTHING =>
      convertEverything tree prevEndIndex node depth tokenText tokenPrefixText tokenSuffixText
  end.

(** [ASTFaithfulTokenizer] as a subclass of [ASTGenericTokenizer]. *)
Definition class : TreeTokenizer :=
  mkTreeTokenizer Index pretokenize posttokenize convertIntoTokens
                  handleFirstSuffixTokenIfNecessary handleLastSuffixTokenWithRangeIfNecessary.

End WithMode.

End ASTFaithfulTokenizer.

(* ================================================================== *)
(** ** ASTFlatteningUtils.ts and the entry points of the visualizer *)

(** [flattenFaithfully(tree, mode, excludeInnerRangeIfPossible)]. *)
Definition flattenFaithfully (tree : AbstractSyntaxTree.t) (mode : TokenizationMode.t)
  (excludeInnerRangeIfPossible : bool) : result (list TreeToken.t) :=
  ASTGenericTokenizer.tokenize (ASTFaithfulTokenizer.class mode excludeInnerRangeIfPossible)
                               tree ASTFaithfulTokenizer.constructor true.

(** [tokenizePython(x)] and [tokenizeTypeScript(x)]: the characters of [x],
    then the end of the stream. *)
Definition tokenizePython (x : string) : result (list Token) :=
  tokenizer <- PythonTokenizer.constructor ;;
  tokenizer <- AbstractTokenizer.feed tokenizer (Js.chars x) ;;
  tokenizer <- AbstractTokenizer.next tokenizer None ;;
  Ok (AbstractTokenizer.getTokens tokenizer).

Definition tokenizeTypeScript (x : string) : result (list Token) :=
  tokenizer <- TypeScriptTokenizer.constructor ;;
  tokenizer <- AbstractTokenizer.feed tokenizer (Js.chars x) ;;
  tokenizer <- AbstractTokenizer.next tokenizer None ;;
  Ok (AbstractTokenizer.getTokens tokenizer).



(* ================================================================== *)
(** * Verification *)

(** ** Predicates of the statements and of their proofs *)

Section MatcherPredicates.
Context {A : Type} (eqbA : A -> A -> bool).
Local Open Scope nat_scope.

(** [b] is a suffix of [a]. *)
Definition IsSuffixOf (b a : list A) : Prop := exists pre, a = pre ++ b.

(** No pattern is a suffix of a pattern at another position. *)
Definition SuffixFree (values : list (list A)) : Prop :=
  forall i j a b, i <> j -> nth_error values i = Some a -> nth_error values j = Some b ->
                  ~ IsSuffixOf b a.

(** The test [num === expr[currentProgress]] of [next], and its two
    outcomes for a progress that passes it. *)
Definition hitb (expr : list A) (sym : A) (p : nat) : bool :=
  match nth_error expr p with
  | Some x => eqbA sym x
  | None => false
  end.

Definition completesb (expr : list A) (sym : A) (p : nat) : bool :=
  hitb expr sym p && (p + 1 =? List.length expr).

Definition staysb (expr : list A) (sym : A) (p : nat) : bool :=
  hitb expr sym p && negb (p + 1 =? List.length expr).

(** A progress [p] of a pattern after the symbols [h] (oldest first) have
    been fed since the last reset: the first [p] symbols of the pattern are
    the last [p] symbols fed, and the pattern is not yet complete. *)
Definition progressOk (expr h : list A) (p : nat) : Prop :=
  1 <= p /\ p < List.length expr /\ IsSuffixOf (firstn p expr) h.

Definition entryOk (h : list A) (pm : JsRecord (list nat)) (entry : string * list A) : Prop :=
  exists ps, recGet pm (fst entry) = Some ps /\ NoDup ps /\ Forall (progressOk (snd entry) h) ps.

(** The patterns that come later in the iteration exclude each other as
    suffixes of one and the same stream. *)
Fixpoint exclusive (values : list (list A)) : Prop :=
  match values with
  | [] => True
  | v :: rest =>
      (forall w, IsSuffixOf v w -> Forall (fun v' => ~ IsSuffixOf v' w) rest) /\ exclusive rest
  end.

Definition matcherInv (m : Matcher A) (h : list A) : Prop :=
  NoDup (recKeys (expressions m))
  /\ exclusive (recValues (expressions m))
  /\ Forall (entryOk h (potentialMatches m)) (expressions m).

End MatcherPredicates.

(** The pattern sets the constructors of the two matchers are to refuse:
    an empty pattern, the same pattern at two positions, or a pattern that
    is a suffix of the pattern at another position. *)
Definition BadPatterns {A : Type} (values : list (list A)) : Prop :=
  In [] values
  \/ (exists i j a, i <> j /\ nth_error values i = Some a /\ nth_error values j = Some a)
  \/ (exists i j a b, i <> j /\ nth_error values i = Some a /\ nth_error values j = Some b
                      /\ IsSuffixOf b a).

Section LexerPredicates.
Local Open Scope nat_scope.

(** The text of a token list. *)
Fixpoint tokensText (toks : list Token) : string :=
  match toks with
  | [] => EmptyString
  | t :: rest => (stringContents t ++ tokensText rest)%string
  end.

(** The character ranges of [toks] tile the offsets from [start] to
    [stop]: each token is non-empty, starts where the one before it ends,
    and is as long as its text. *)
Fixpoint contiguous (start : nat) (toks : list Token) (stop : nat) : Prop :=
  match toks with
  | [] => start = stop
  | t :: rest =>
      cr_start (characterRange t) = start
      /\ cr_end (characterRange t) = start + String.length (stringContents t)
      /\ 1 <= String.length (stringContents t)
      /\ contiguous (cr_end (characterRange t)) rest stop
  end.

(** The characters [parse] feeds to the tokenizer: every line followed
    by a line feed. *)
Definition fedLines (lines : list string) : list ascii :=
  List.concat (map (fun l => Js.chars l ++ [Js.nl]) lines).

(** The tokenizer after the characters [fed]: the tokens and the buffer
    hold them all, in order, and the two indices are the offsets of the
    buffer's ends. *)
Definition lexInv {L : Lexer} (tk : AbstractTokenizer.t L) (fed : list ascii) : Prop :=
  let b := AbstractTokenizer.base tk in
  ended b = false
  /\ Js.chars (tokensText (tokenString b)) ++ Js.chars (stringBuffer b) = fed
  /\ contiguous 0 (tokenString b) (tokStartIdx b)
  /\ charIdx b = tokStartIdx b + String.length (stringBuffer b).

(** While the Python lexer is inside a comment or a string, the buffer is
    not empty. *)
Definition pyInv (tk : AbstractTokenizer.t PythonTokenizer.lexer) : Prop :=
  let st := AbstractTokenizer.sub tk in
  (PythonTokenizer.insideSingleLineComments st = true
   -> PythonTokenizer.insideStringStatus st = PythonTokenizer.NONE)
  /\ (PythonTokenizer.insideSingleLineComments st = true
      \/ PythonTokenizer.insideStringStatus st <> PythonTokenizer.NONE
      -> 1 <= String.length (stringBuffer (AbstractTokenizer.base tk))).

(** The three states of the TypeScript lexer's matcher: nothing pending,
    a slash pending, a star pending. *)
Definition tsMatcher (slash star : list nat) : StringExpressionMatcher.t :=
  mkMatcher (map (fun e : string * string => (fst e, Js.chars (snd e))) TypeScriptTokenizer.patterns)
            [("COMMENT_START", slash); ("MULTILINE_COMMENT_START", slash);
             ("MULTILINE_COMMENT_END", star)].

Definition afterNothing : StringExpressionMatcher.t := tsMatcher [] [].
Definition afterSlash : StringExpressionMatcher.t := tsMatcher [1] [].
Definition afterStar : StringExpressionMatcher.t := tsMatcher [] [1].

(** While the TypeScript lexer is inside a comment, a string or an
    assignment, and while a slash is pending, the buffer is not empty. *)
Definition tsInv (tk : AbstractTokenizer.t TypeScriptTokenizer.lexer) : Prop :=
  let st := AbstractTokenizer.sub tk in
  (TypeScriptTokenizer.stringMatcher st = afterNothing
   \/ TypeScriptTokenizer.stringMatcher st = afterSlash
   \/ TypeScriptTokenizer.stringMatcher st = afterStar)
  /\ (TypeScriptTokenizer.insideSingleLineComments st = true
      -> TypeScriptTokenizer.insideStringStatus st = TypeScriptTokenizer.NONE)
  /\ (TypeScriptTokenizer.insideSingleLineComments st = true
      \/ TypeScriptTokenizer.insideStringStatus st <> TypeScriptTokenizer.NONE
      \/ TypeScriptTokenizer.stringMatcher st = afterSlash
      -> 1 <= String.length (stringBuffer (AbstractTokenizer.base tk))).

End LexerPredicates.

(** The text [parse] works on: every line followed by a line feed. *)
Fixpoint linesText (lines : list string) : string :=
  match lines with
  | [] => EmptyString
  | l :: rest => (l ++ Js.newline ++ linesText rest)%string
  end.

(** The tokens that the front end of [parsePython(x)] and of
    [parseTypeScript(x)] hands to the parser. *)
Definition lexPythonSource (x : string) : result (list Token) :=
  st <- PythonParser.constructor ;;
  p <- AbstractParser.tokenizeLines PythonParser.language st (Utils.splitIntoLines x) ;;
  Ok (sourceTokens p).

Definition lexTypeScriptSource (x : string) : result (list Token) :=
  st <- TypeScriptParser.constructor ;;
  p <- AbstractParser.tokenizeLines TypeScriptParser.language st (Utils.splitIntoLines x) ;;
  Ok (sourceTokens p).

(** The symbols that [parse] detects at the top level of a Python source,
    with their token ranges: the front end, [preparse], and the first
    round of detection of [parseNonTerminal]. *)
Definition pythonTopLevelSymbols (codeLines : list string)
  : result (list Symbol * list TokenRange) :=
  st <- PythonParser.constructor ;;
  p <- AbstractParser.tokenizeLines PythonParser.language st codeLines ;;
  det <- PythonParser.preparse st codeLines (sourceTokens p) ;;
  '(acc, _) <- AbstractParser.detectSymbols PythonParser.language p TOP_LEVEL
                 (mkTokenRange 0 (Z.of_nat (List.length (sourceTokens p)))) 0 det ;;
  Ok (AbstractParser.state acc, AbstractParser.symbolRange acc).

(** The tree of the TypeScript source [/** hello */], [function f() { }]:
    the root, the comment, the function, the group of the two, and the
    declaration of the function. *)
Definition commentedFunctionTree : AbstractSyntaxTree.t :=
  AbstractSyntaxTree.mkAST
    [SyntaxNode.mkNode TopLevel (mkRange 0 0 2 0) None [3%nat] None 0;
     SyntaxNode.mkNode (Comments true "* hello ") (mkRange 0 0 0 12) None [] (Some 3%nat) 0;
     SyntaxNode.mkNode (Functions "function f()" false) (mkRange 1 0 1 16)
                       (Some (mkRange 1 14 1 15)) [4%nat] (Some 3%nat) 1;
     SyntaxNode.mkNode FunctionGroups (mkRange 0 0 1 16) None [1%nat; 2%nat] (Some 0%nat) 0;
     SyntaxNode.mkNode (FunctionDeclaration "f" None) (mkRange 1 0 1 13) None [] (Some 2%nat) 0]
    0%nat
    ["/** hello */"; "function f() { }"].

(* ------------------------------------------------------------------ *)
(** Predicates for the text of a tree *)

(** The flat offset of the position [(l, c)] in the text of the lines. *)
Definition offset (lines : list string) (l c : nat) : nat :=
  (List.length (fedLines (firstn l lines)) + c)%nat.


(** The characters of the text from one flat offset to another. *)
Definition flatSlice (lines : list string) (from to : nat) : list ascii :=
  firstn (to - from) (skipn from (fedLines lines)).








(** A source without carriage return. *)
Definition noCarriageReturn (x : string) : bool :=
  forallb (fun c => negb (Ascii.eqb c (ascii_of_nat 13))) (Js.chars x).

(** A Python function with a doc comment, and a TypeScript statement;
    neither ends in a line feed. *)
Definition pythonDocSource : string :=
  "def f():" ++ Js.newline ++ "    '''doc'''" ++ Js.newline ++ "    return 1".



(* ------------------------------------------------------------------ *)
(** Predicates for the shape of a tree *)

(** The class of a node: what [instanceof] sees. *)
Inductive Tag : Type :=
| TopLevelT | ReferencesT | ClassesT | FunctionsT | FunctionGroupsT
| FunctionDeclarationT | ArgumentT | AttributesT | CommentsT (isMultiLine : bool).

Definition tag (k : NodeKind) : Tag :=
  match k with
  | TopLevel => TopLevelT
  | References _ _ => ReferencesT
  | Classes _ _ => ClassesT
  | Functions _ _ => FunctionsT
  | FunctionGroups => FunctionGroupsT
  | FunctionDeclaration _ _ => FunctionDeclarationT
  | Argument _ _ => ArgumentT
  | Attributes _ _ => AttributesT
  | Comments ml _ => CommentsT ml
  end.

(** What the tree shows of a node of the heap. *)
Definition tagOf (st : Store) (id : NodeId) : option Tag :=
  match nth_error st id with Some n => Some (tag (SyntaxNode.kind n)) | None => None end.

Definition rangeOf (st : Store) (id : NodeId) : Range :=
  match nth_error st id with Some n => SyntaxNode.range n | None => mkRange 0 0 0 0 end.

Definition parentOf (st : Store) (id : NodeId) : option NodeId :=
  match nth_error st id with Some n => SyntaxNode.parent n | None => None end.

Definition rankOf (st : Store) (id : NodeId) : nat :=
  match nth_error st id with Some n => SyntaxNode.siblingRank n | None => 0%nat end.

Definition childrenOf (st : Store) (id : NodeId) : list NodeId :=
  match nth_error st id with Some n => SyntaxNode.children n | None => [] end.

(** [st'] shows what [st] shows. *)
Definition sameView (st st' : Store) : Prop :=
  List.length st' = List.length st
  /\ forall id,
       tagOf st' id = tagOf st id /\ rangeOf st' id = rangeOf st id
       /\ parentOf st' id = parentOf st id /\ rankOf st' id = rankOf st id
       /\ childrenOf st' id = childrenOf st id.

(** [st'] is [st] after [this.addChild(node)]. *)
Definition Added (st : Store) (this node : NodeId) (st' : Store) : Prop :=
  List.length st' = List.length st
  /\ (this < List.length st)%nat /\ (node < List.length st)%nat
  /\ forall id,
       tagOf st' id = tagOf st id /\ rangeOf st' id = rangeOf st id
       /\ parentOf st' id = (if (id =? node)%nat then Some this else parentOf st id)
       /\ rankOf st' id = (if (id =? node)%nat then List.length (childrenOf st this)
                           else rankOf st id)
       /\ childrenOf st' id = (if (id =? this)%nat then childrenOf st this ++ [node]
                               else childrenOf st id).

(** [st'] is [st] with one more node, which shows [t], [r] and nothing
    else. *)
Definition Allocated (st : Store) (t : Tag) (r : Range) (st' : Store) : Prop :=
  List.length st' = S (List.length st)
  /\ forall id,
       tagOf st' id = (if (id =? List.length st)%nat then Some t else tagOf st id)
       /\ rangeOf st' id = (if (id =? List.length st)%nat then r else rangeOf st id)
       /\ parentOf st' id = (if (id =? List.length st)%nat then None else parentOf st id)
       /\ rankOf st' id = (if (id =? List.length st)%nat then 0%nat else rankOf st id)
       /\ childrenOf st' id = (if (id =? List.length st)%nat then [] else childrenOf st id).

(** What [st] shows of its nodes, [st'] shows too. *)
Definition extendsView (st st' : Store) : Prop :=
  (List.length st <= List.length st')%nat
  /\ forall id, (id < List.length st)%nat ->
       tagOf st' id = tagOf st id /\ rangeOf st' id = rangeOf st id
       /\ parentOf st' id = parentOf st id /\ rankOf st' id = rankOf st id
       /\ childrenOf st' id = childrenOf st id.

(** A node as a factory has to return it: of the class that the factory
    is named after, at the range it was given, and not yet in a tree. *)
Definition nodeOk (t : Tag) (r : Range) (n : SyntaxNode.t) : Prop :=
  tag (SyntaxNode.kind n) = t /\ SyntaxNode.range n = r /\ SyntaxNode.parent n = None
  /\ SyntaxNode.children n = [] /\ SyntaxNode.siblingRank n = 0%nat.

Definition FactoriesOk (L : Language) : Prop :=
  (forall r i n, createArgumentNode L r i = Ok n -> nodeOk ArgumentT r n)
  /\ (forall r i n, createAttributesNode L r i = Ok n -> nodeOk AttributesT r n)
  /\ (forall r ml i n, createCommentsNode L r ml i = Ok n -> nodeOk (CommentsT ml) r n)
  /\ (forall r i n, createReferencesNode L r i = Ok n -> nodeOk ReferencesT r n)
  /\ (forall r i n, createClassesNode L r i = Ok n -> nodeOk ClassesT r n)
  /\ (forall r i n, createFunctionsNode L r i = Ok n -> nodeOk FunctionsT r n)
  /\ (forall r i n, createFunctionDeclarationNode L r i = Ok n ->
        nodeOk FunctionDeclarationT r n).

(** The class of the node that [resolveIntoNode] creates for a symbol. *)
Definition symTag (s : Symbol) : option Tag :=
  match s with
  | T ARGUMENT => Some ArgumentT
  | T ATTRIBUTES => Some AttributesT
  | T COMMENT_MULTILINE => Some (CommentsT true)
  | T COMMENT_SINGLELINE => Some (CommentsT false)
  | T REFERENCES => Some ReferencesT
  | NT CLASSES => Some ClassesT
  | NT FUNCTIONS => Some FunctionsT
  | NT FUNCTION_DECLARATION => Some FunctionDeclarationT
  | T FILLER | T STATEMENTS_FILLER | NT FUNCTION_BODY | NT TOP_LEVEL => None
  end.

(** The range of the tokens of a symbol, as [resolveIntoNode] computes
    it. *)
Definition tokenSpanRange (p : ParserBase) (r : TokenRange) : result Range :=
  first <- AbstractParser.getTokenChRange p (startTok r) ;;
  last <- AbstractParser.getTokenChRange p (endTok r - 1) ;;
  AbstractParser.getRange p (cr_start first) (cr_end last).

Definition somes {A : Type} (l : list (option A)) : list A :=
  flat_map (fun o => match o with Some x => [x] | None => [] end) l.

(** The nodes that [resolveAll] has created in [st1], symbol by symbol. *)
Inductive Resolved (p : ParserBase) (st1 : Store)
  : list Symbol -> list TokenRange -> list (option NodeId) -> Prop :=
| Resolved_nil : Resolved p st1 [] [] []
| Resolved_none sym r rng state ranges nodes :
    symTag sym = None ->
    tokenSpanRange p r = Ok rng ->
    Resolved p st1 state ranges nodes ->
    Resolved p st1 (sym :: state) (r :: ranges) (None :: nodes)
| Resolved_some sym r rng t x state ranges nodes :
    symTag sym = Some t ->
    tokenSpanRange p r = Ok rng ->
    tagOf st1 x = Some t ->
    rangeOf st1 x = rng ->
    parentOf st1 x = None ->
    childrenOf st1 x = [] ->
    rankOf st1 x = 0%nat ->
    Resolved p st1 state ranges nodes ->
    Resolved p st1 (sym :: state) (r :: ranges) (Some x :: nodes).

Section ShapePredicates.
Variable cb : bool.

(** The children of a group: the function alone, a comment and the
    function where comments come before functions, the function and its
    doc comment where the comment is the first statement of the body. *)
Definition groupShape (st : Store) (g : NodeId) : Prop :=
  (exists f, childrenOf st g = [f] /\ tagOf st f = Some FunctionsT)
  \/ (cb = true /\ exists c f, childrenOf st g = [c; f]
                     /\ tagOf st c = Some (CommentsT true) /\ tagOf st f = Some FunctionsT)
  \/ (cb = false /\ exists f c, childrenOf st g = [f; c]
                      /\ tagOf st f = Some FunctionsT /\ tagOf st c = Some (CommentsT true)).

(** A child knows its parent and its place. *)
Definition linked (st : Store) : Prop :=
  forall p i x, nth_error (childrenOf st p) i = Some x ->
    (x < List.length st)%nat /\ parentOf st x = Some p /\ rankOf st x = i.

Definition groupsOk (st : Store) : Prop :=
  forall g, tagOf st g = Some FunctionGroupsT -> groupShape st g.

Definition shapeInv (st : Store) : Prop := linked st /\ groupsOk st.

Definition inFunction (nt : NonTerminal) : bool :=
  match nt with FUNCTIONS | FUNCTION_BODY => true | _ => false end.

(** A function whose group may still receive the doc comment. *)
Definition liftable (st : Store) (X : NodeId) : Prop :=
  tagOf st X = Some FunctionsT
  /\ exists g, parentOf st X = Some g /\ tagOf st g = Some FunctionGroupsT
               /\ childrenOf st g = [X].

(** What [parseNonTerminal] needs of the node it parses into. *)
Definition shapePre (nt : NonTerminal) (X : NodeId) (st : Store) : Prop :=
  (X < List.length st)%nat /\ tagOf st X <> Some FunctionGroupsT
  /\ (inFunction nt = true -> cb = false -> liftable st X).

(** The nodes that [parseNonTerminal] may add children to. *)
Definition touched (nt : NonTerminal) (st : Store) (X id : NodeId) : Prop :=
  id = X \/ (inFunction nt = true /\ cb = false /\ parentOf st X = Some id).

Definition shapeFrame (nt : NonTerminal) (X : NodeId) (st st' : Store) : Prop :=
  (List.length st <= List.length st')%nat
  /\ forall id, (id < List.length st)%nat ->
       tagOf st' id = tagOf st id /\ rangeOf st' id = rangeOf st id
       /\ parentOf st' id = parentOf st id /\ rankOf st' id = rankOf st id
       /\ (~ touched nt st X id -> childrenOf st' id = childrenOf st id).

End ShapePredicates.

(** [flushDangling], as a relation between what the stores show. *)
Inductive Flushed (check : bool) (X : NodeId)
  : Store -> option NodeId -> Store -> option NodeId -> Prop :=
| Flushed_add st d st' :
    check = true -> Added st X d st' -> Flushed check X st (Some d) st' None
| Flushed_keep st dg :
    check = false \/ dg = None -> Flushed check X st dg st dg.

(** One round of the loop that adds the nodes to the parent, for a symbol
    with a node [x]: the comment is held back, the doc comment is added to
    the group of the function, the node is added to the parent, the
    function is added to a group with the comment held back, or to a group
    of its own. *)
Inductive AttachStep (X : NodeId) (check checkFirst : bool) (x : NodeId)
  (st0 : Store) (dg : option NodeId) (first : bool) : Store -> option NodeId -> Prop :=
| Step_hold st1 dg1 :
    tagOf st0 x = Some (CommentsT true) -> check = true ->
    Flushed check X st0 dg st1 dg1 ->
    AttachStep X check checkFirst x st0 dg first st1 (Some x)
| Step_lift st1 dg1 g st2 :
    tagOf st0 x = Some (CommentsT true) -> check = false -> checkFirst = true ->
    first = true ->
    Flushed check X st0 dg st1 dg1 ->
    parentOf st1 X = Some g -> Added st1 g x st2 ->
    AttachStep X check checkFirst x st0 dg first st2 dg1
| Step_plain t st1 dg1 st2 :
    tagOf st0 x = Some t -> t <> FunctionsT ->
    (t = CommentsT true -> check = false /\ (checkFirst = false \/ first = false)) ->
    Flushed check X st0 dg st1 dg1 ->
    Added st1 X x st2 ->
    AttachStep X check checkFirst x st0 dg first st2 dg1
| Step_pair d r st1 st2 st3 st4 :
    tagOf st0 x = Some FunctionsT -> check = true -> dg = Some d ->
    Utils.mergeRanges [rangeOf st0 d; rangeOf st0 x] = Ok r ->
    Allocated st0 FunctionGroupsT r st1 ->
    Added st1 (List.length st0) d st2 ->
    Added st2 (List.length st0) x st3 ->
    Added st3 X (List.length st0) st4 ->
    AttachStep X check checkFirst x st0 dg first st4 None
| Step_single st1 st2 st3 :
    tagOf st0 x = Some FunctionsT -> check = false \/ dg = None ->
    Allocated st0 FunctionGroupsT (rangeOf st0 x) st1 ->
    Added st1 (List.length st0) x st2 ->
    Added st2 X (List.length st0) st3 ->
    AttachStep X check checkFirst x st0 dg first st3 dg.

Section AttachPredicates.
Variable cb : bool.
Variable nt : NonTerminal.
Variable X : NodeId.
Variable st1 : Store.
Variable L0 : nat.

(** What the loop that adds the nodes keeps. [st1] is the heap when the
    loop starts, and the nodes from [L0] on are the ones that
    [resolveAll] has created; [pending] are the nodes not yet added, and
    [e] is a group that is being filled. *)
Definition coreInv (st : Store) (pending : list NodeId) (e : option NodeId) : Prop :=
  linked st
  /\ (List.length st1 <= List.length st)%nat
  /\ (forall id, (id < List.length st1)%nat ->
        tagOf st id = tagOf st1 id /\ rangeOf st id = rangeOf st1 id)
  /\ (forall id, (id < L0)%nat ->
        parentOf st id = parentOf st1 id /\ rankOf st id = rankOf st1 id
        /\ (~ touched cb nt st1 X id -> childrenOf st id = childrenOf st1 id))
  /\ (forall id, (L0 <= id < List.length st1)%nat -> childrenOf st id = [])
  /\ (forall x, In x pending -> (L0 <= x < List.length st1)%nat /\ parentOf st x = None)
  /\ (forall y, (L0 <= y < List.length st1)%nat -> ~ In y pending ->
        tagOf st y = Some FunctionsT -> cb = false ->
        exists g, (List.length st1 <= g)%nat /\ parentOf st y = Some g
                  /\ tagOf st g = Some FunctionGroupsT /\ childrenOf st g = [y])
  /\ (forall g, tagOf st g = Some FunctionGroupsT -> Some g <> e -> groupShape cb st g).

End AttachPredicates.

Definition dlist (dg : option NodeId) : list NodeId :=
  match dg with Some d => [d] | None => [] end.

Section AttachLoopPredicates.
Variable cb : bool.
Variable nt : NonTerminal.
Variable X : NodeId.
Variable st1 : Store.
Variable L0 : nat.
Variable check : bool.

(** The invariant of the loop that adds the nodes: [dg] is the comment
    held back, [first] the flag [isFirst], [rem] the nodes still to add. *)
Definition attachInv (st : Store) (dg : option NodeId) (first : bool)
  (rem : list (option NodeId)) : Prop :=
  coreInv cb nt X st1 L0 st (somes rem ++ dlist dg) None
  /\ NoDup (somes rem)
  /\ (forall d, dg = Some d ->
        check = true /\ tagOf st d = Some (CommentsT true) /\ ~ In d (somes rem))
  /\ (first = true -> inFunction nt = true -> cb = false -> liftable st X).

End AttachLoopPredicates.

(** The four arrays of [parseNonTerminal] have one entry per symbol. *)
Definition accLengths (acc : AbstractParser.Acc) : Prop :=
  List.length (AbstractParser.symbolRange acc) = List.length (AbstractParser.state acc)
  /\ List.length (AbstractParser.ntParseRange acc) = List.length (AbstractParser.state acc)
  /\ List.length (AbstractParser.nodeCreationInformationArr acc)
     = List.length (AbstractParser.state acc).

(** The non-terminals that the validation lets through. *)
Definition ntAllowed (nt : NonTerminal) (s : Symbol) : Prop :=
  match s with
  | T _ => True
  | NT n =>
      match nt with
      | TOP_LEVEL => n = CLASSES \/ n = FUNCTIONS
      | CLASSES => n = FUNCTIONS
      | _ => False
      end
  end.

Section RecursePredicates.
Variable cb : bool.
Variable nt : NonTerminal.
Variable X : NodeId.
Variable st1 : Store.
Variable L0 : nat.

(** What the loop of the recursion keeps; [rem] are the nodes that it
    has not yet parsed into. *)
Definition recInv (st : Store) (rem : list NodeId) : Prop :=
  shapeInv cb st
  /\ (List.length st1 <= List.length st)%nat
  /\ (forall id, (id < List.length st1)%nat ->
        tagOf st id = tagOf st1 id /\ rangeOf st id = rangeOf st1 id)
  /\ (forall id, (id < L0)%nat ->
        parentOf st id = parentOf st1 id /\ rankOf st id = rankOf st1 id
        /\ (~ touched cb nt st1 X id -> childrenOf st id = childrenOf st1 id))
  /\ (forall y, In y rem ->
        (L0 <= y < List.length st1)%nat /\ childrenOf st y = []
        /\ (tagOf st y = Some FunctionsT -> cb = false ->
            exists g, (List.length st1 <= g)%nat /\ parentOf st y = Some g
                      /\ tagOf st g = Some FunctionGroupsT /\ childrenOf st g = [y])).

End RecursePredicates.

(** The node of a symbol, if it has one. *)
Definition nodeFor (st1 : Store) (sym : Symbol) (ani : option NodeId) : Prop :=
  match symTag sym with
  | Some t => exists x, ani = Some x /\ tagOf st1 x = Some t
  | None => ani = None
  end.

(** What [parseNonTerminal] does to the shape of the tree, as a property
    of a function of its type. *)
Definition keepsShape (L : Language)
  (rec : NonTerminal -> NodeId -> TokenRange -> Z -> AbstractParser.PState L
         -> result (AbstractParser.PState L)) : Prop :=
  forall n x r d ps ps',
    rec n x r d ps = Ok ps' ->
    shapeInv (isCommentBeforeFunction L) (AbstractParser.psStore L ps) ->
    shapePre (isCommentBeforeFunction L) n x (AbstractParser.psStore L ps) ->
    shapeInv (isCommentBeforeFunction L) (AbstractParser.psStore L ps')
    /\ shapeFrame (isCommentBeforeFunction L) n x (AbstractParser.psStore L ps)
                  (AbstractParser.psStore L ps').

(** [x] is the child of [g] at place [rank], and of class [t]. *)
Definition childAt (st : Store) (g x : NodeId) (rank : nat) (t : Tag) : Prop :=
  tagOf st x = Some t /\ parentOf st x = Some g /\ rankOf st x = rank.

(** A group that holds its function alone. *)
Definition groupOfOne (st : Store) (g : NodeId) : Prop :=
  exists f, childrenOf st g = [f] /\ childAt st g f 0%nat FunctionsT.

(** A group that holds a comment and then the function. *)
Definition groupCommentFirst (st : Store) (g : NodeId) : Prop :=
  exists c f, childrenOf st g = [c; f]
              /\ childAt st g c 0%nat (CommentsT true) /\ childAt st g f 1%nat FunctionsT.

(** A group that holds the function and then its doc comment. *)
Definition groupFunctionFirst (st : Store) (g : NodeId) : Prop :=
  exists f c, childrenOf st g = [f; c]
              /\ childAt st g f 0%nat FunctionsT /\ childAt st g c 1%nat (CommentsT true).

(** The shape of a group in the words of the specification: one child, a
    function, or two children, a comment with sibling rank 0 followed by a
    function with sibling rank 1. *)
Definition groupAsSpecified (st : Store) (g : NodeId) : Prop :=
  (exists f, childrenOf st g = [f] /\ childAt st g f 0%nat FunctionsT)
  \/ (exists c f ml, childrenOf st g = [c; f]
                     /\ childAt st g c 0%nat (CommentsT ml) /\ childAt st g f 1%nat FunctionsT).

(** The lines of [pythonDocSource]. *)
Definition pythonDocLines : list string :=
  ["def f():"; "    '''doc'''"; "    return 1"].

(* ------------------------------------------------------------------ *)
(** Predicates for the order of the siblings *)

(** [compare(i, j) <= 0]. *)
Definition idxLe (i j : Index) : Prop := (Utils.compare i j <= 0)%Z.

(** The positions that [feedLines] records for the lines from [k] on. *)
Fixpoint linePositions (k : nat) (lines : list string) : list Index :=
  match lines with
  | [] => []
  | l :: rest => map (mkIndex k) (seq 0 (S (String.length l))) ++ linePositions (S k) rest
  end.

(** The flat offset at which token [k] starts; the end of the text for
    the index after the last token. *)
Definition tokStartAt (p : ParserBase) (k : Z) : nat :=
  match Js.nthZ (sourceTokens p) k with
  | Some t => cr_start (characterRange t)
  | None => numChars p
  end.

(** The position at which token [k] starts. *)
Definition boundary (p : ParserBase) (k : Z) : Index :=
  nth (tokStartAt p k) (positionMap p) (mkIndex 0 0).

(** What the order of the siblings needs of the front end: the tokens
    tile the text, and the positions grow with the offsets. *)
Definition frontOk (p : ParserBase) : Prop :=
  contiguous 0 (sourceTokens p) (numChars p)
  /\ List.length (positionMap p) = S (numChars p)
  /\ (forall i j, (i <= j <= numChars p)%nat ->
        idxLe (nth i (positionMap p) (mkIndex 0 0)) (nth j (positionMap p) (mkIndex 0 0))).

(** The ranges of the symbols of one call follow one another from [s] to
    [e]. *)
Fixpoint chained (s : Z) (ranges : list TokenRange) (e : Z) : Prop :=
  match ranges with
  | [] => s = e
  | r :: rest => startTok r = s /\ (s <= endTok r)%Z /\ chained (endTok r) rest e
  end.

(** [assertParseRangeCorrectness] on a parse range. *)
Definition parseRangeIn (r : TokenRange) (pr : option TokenRange) : Prop :=
  match pr with
  | Some q => (startTok r <= startTok q)%Z /\ (endTok q <= endTok r)%Z
  | None => True
  end.

Definition accOrdered (s : Z) (acc : AbstractParser.Acc) : Prop :=
  chained s (AbstractParser.symbolRange acc) (AbstractParser.parsedEndTokIndex acc)
  /\ Forall2 parseRangeIn (AbstractParser.symbolRange acc) (AbstractParser.ntParseRange acc).

Definition startOf (st : Store) (x : NodeId) : Index :=
  Utils.rangeToStartIndex (rangeOf st x).

Definition endOf (st : Store) (x : NodeId) : Index :=
  Utils.rangeToEndIndex (rangeOf st x).

(** Every child of [X] ends at [c] or before it. *)
Definition endsBefore (st : Store) (X : NodeId) (c : Index) : Prop :=
  forall x, In x (childrenOf st X) -> idxLe (endOf st x) c.

Section OrderPredicates.
Variable cb : bool.

(** A group of a parser whose doc comments are the first statement of the
    body: the comment follows the function, and lies inside it. *)
Definition docGroup (st : Store) (g : NodeId) : Prop :=
  cb = false /\ tagOf st g = Some FunctionGroupsT.

(** A child ends where the next one starts, or before it; the groups that
    may hold a doc comment apart. *)
Definition ordered (st : Store) : Prop :=
  forall g i a b,
    nth_error (childrenOf st g) i = Some a ->
    nth_error (childrenOf st g) (S i) = Some b ->
    docGroup st g \/ idxLe (endOf st a) (startOf st b).

(** What the loop that adds the nodes keeps of the order: [c] is where the
    tokens of the next symbol start. *)
Definition orderInv (X : NodeId) (st : Store) (dg : option NodeId) (c : Index) : Prop :=
  ordered st
  /\ endsBefore st X c
  /\ (forall d, dg = Some d -> endsBefore st X (startOf st d) /\ idxLe (endOf st d) c).

End OrderPredicates.

(** What [parseNonTerminal] does to the order of the siblings, as a
    property of a function of its type. *)
Definition keepsOrder (L : Language) (p : ParserBase)
  (rec : NonTerminal -> NodeId -> TokenRange -> Z -> AbstractParser.PState L
         -> result (AbstractParser.PState L)) : Prop :=
  forall n x r d ps ps',
    rec n x r d ps = Ok ps' ->
    shapeInv (isCommentBeforeFunction L) (AbstractParser.psStore L ps) ->
    shapePre (isCommentBeforeFunction L) n x (AbstractParser.psStore L ps) ->
    ordered (isCommentBeforeFunction L) (AbstractParser.psStore L ps) ->
    endsBefore (AbstractParser.psStore L ps) x (boundary p (startTok r)) ->
    ordered (isCommentBeforeFunction L) (AbstractParser.psStore L ps').

(** The tokenizer that [preparseGetTokenizer] returns has read nothing
    yet, as a tokenizer that has just been constructed. *)
Definition freshTokenizer (L : Language) : Prop :=
  forall det tk, preparseGetTokenizer L det = Ok tk ->
                 AbstractTokenizer.base tk = AbstractTokenizer.emptyBase.

(** The siblings of [pythonDocLines]: the function and its doc comment. *)
Definition pythonDocFunction : NodeId := 1%nat.
Definition pythonDocComment : NodeId := 4%nat.
Definition pythonDocGroup : NodeId := 2%nat.

(** A doc comment, a function and a comment in TypeScript. *)
Definition typescriptGroupLines : list string :=
  ["/** hello */"; "function f() { return 1; }"; "// bye"].

(* ------------------------------------------------------------------ *)
(** Predicates for the trees that [parse] returns *)

(** The root is a top-level node without a parent; the children of a node
    have it as their parent and their place among the children as their
    sibling rank, and no node is listed twice. *)
Definition linkedTree (tree : AbstractSyntaxTree.t) : Prop :=
  let st := AbstractSyntaxTree.store tree in
  Heap.getParent st (AbstractSyntaxTree.getRoot tree) = Ok None
  /\ tagOf st (AbstractSyntaxTree.getRoot tree) = Some TopLevelT
  /\ forall (p : NodeId) (cs : list NodeId),
       Heap.listChildren st p = Ok cs ->
       NoDup cs
       /\ forall (i : nat) (x : NodeId),
            nth_error cs i = Some x ->
            Heap.getParent st x = Ok (Some p) /\ Heap.getSiblingRank st x = Ok i.

(* ------------------------------------------------------------------ *)
(** Predicates for the ranges of a tree *)

(** No range ends before it starts, and the range of a child lies inside
    the range of its parent. *)
Definition rangesNest (st : Store) : Prop :=
  (forall id, (id < List.length st)%nat -> idxLe (startOf st id) (endOf st id))
  /\ (forall g x, In x (childrenOf st g) ->
        Utils.contains (rangeOf st g) (rangeOf st x) = true).

(** The tokens of [r] lie inside the range of [X]. *)
Definition coversTokens (p : ParserBase) (st : Store) (X : NodeId) (r : TokenRange) : Prop :=
  forall k, (startTok r <= k <= endTok r)%Z ->
    idxLe (startOf st X) (boundary p k) /\ idxLe (boundary p k) (endOf st X).

(** What [parseNonTerminal] does to the ranges of the tree, as a property
    of a function of its type. *)
Definition keepsNesting (L : Language) (p : ParserBase)
  (rec : NonTerminal -> NodeId -> TokenRange -> Z -> AbstractParser.PState L
         -> result (AbstractParser.PState L)) : Prop :=
  forall n x r d ps ps',
    rec n x r d ps = Ok ps' ->
    shapeInv (isCommentBeforeFunction L) (AbstractParser.psStore L ps) ->
    shapePre (isCommentBeforeFunction L) n x (AbstractParser.psStore L ps) ->
    rangesNest (AbstractParser.psStore L ps) ->
    coversTokens p (AbstractParser.psStore L ps) x r ->
    rangesNest (AbstractParser.psStore L ps').

(** [assertRangeValid] returns on every node, and no range ends before it
    starts. *)
Definition validRanges (tree : AbstractSyntaxTree.t) : Prop :=
  let st := AbstractSyntaxTree.store tree in
  forall id n, Heap.get st id = Ok n ->
    Heap.assertRangeValid st id = Ok tt
    /\ (Utils.compare (Utils.rangeToStartIndex (SyntaxNode.range n))
                      (Utils.rangeToEndIndex (SyntaxNode.range n)) <= 0)%Z.

(* ------------------------------------------------------------------ *)
(** Predicates for the symbols of one call of [parseNonTerminal] *)

(** A terminal has no parse range, a non-terminal has one. *)
Definition parseRangeGiven (s : Symbol) (pr : option TokenRange) : Prop :=
  isTerminal s = true <-> pr = None.

(** What [parseNonTerminal] holds when its detection loop is over: one
    entry per symbol in each of the four arrays, token ranges that follow
    one another from the first token of the call to its last, and parse
    ranges inside the ranges of their symbols. *)
Definition symbolsPartition (tokRange : TokenRange) (acc : AbstractParser.Acc) : Prop :=
  accLengths acc
  /\ chained (startTok tokRange) (AbstractParser.symbolRange acc) (endTok tokRange)
  /\ Forall2 parseRangeIn (AbstractParser.symbolRange acc) (AbstractParser.ntParseRange acc)
  /\ Forall2 parseRangeGiven (AbstractParser.state acc) (AbstractParser.ntParseRange acc)
  /\ (startTok tokRange <= endTok tokRange)%Z.

(* ------------------------------------------------------------------ *)
(** Predicates for [splitIntoLines] *)

Definition isCR (c : ascii) : bool := Ascii.eqb c (ascii_of_nat 13).
Definition isLF (c : ascii) : bool := Ascii.eqb c Js.nl.

(** The text without the carriage returns that stand directly before a
    line feed. *)
Fixpoint withoutCrBeforeLf (l : list ascii) : list ascii :=
  match l with
  | [] => []
  | c :: r =>
      match r with
      | d :: _ => if isCR c && isLF d then withoutCrBeforeLf r else c :: withoutCrBeforeLf r
      | [] => [c]
      end
  end.

(** The number of line feeds. *)
Definition lineFeeds (l : list ascii) : nat := List.length (filter isLF l).

(* ------------------------------------------------------------------ *)
(** Predicates for what a matcher answers *)

Section MatcherStream.
Context {A : Type}.
Local Open Scope nat_scope.

(** The symbols fed since the last reset, oldest first; [h] are the ones
    fed before [ops]. *)
Fixpoint streamOf (ops : list (Op A)) (h : list A) : list A :=
  match ops with
  | [] => h
  | Feed sym :: rest => streamOf rest (h ++ [sym])
  | Reset :: rest => streamOf rest []
  end.

(** The progresses of a pattern are all the proper prefixes of it that the
    stream ends with. *)
Definition entryFull (h : list A) (pm : JsRecord (list nat)) (entry : string * list A) : Prop :=
  exists ps, recGet pm (fst entry) = Some ps /\ NoDup ps
             /\ forall p, In p ps <-> progressOk (snd entry) h p.

Definition matcherFull (m : Matcher A) (h : list A) : Prop :=
  NoDup (recKeys (expressions m))
  /\ exclusive (recValues (expressions m))
  /\ Forall (fun v => v <> []) (recValues (expressions m))
  /\ Forall (entryFull h (potentialMatches m)) (expressions m).

(** The answer of [next] names the pattern that the stream ends with. *)
Definition answers (patterns : JsRecord (list A)) (stream : list A) (out : option string)
  : Prop :=
  forall key, out = Some key
              <-> exists e, recGet patterns key = Some e /\ IsSuffixOf e stream.

End MatcherStream.

(* ------------------------------------------------------------------ *)
(** Predicates for the indentation of Python lines *)

(** [line.trim().length === 0] *)
Definition isBlankLine (line : string) : bool := Js.len (Js.trim line) =? 0.

(** The first character of the line is [c]. *)
Definition startsWithChar (c : ascii) (line : string) : bool :=
  match Js.chars line with
  | c' :: _ => Ascii.eqb c' c
  | [] => false
  end.

Definition spaceIndented (line : string) : bool :=
  negb (isBlankLine line) && startsWithChar " "%char line.

Definition tabIndented (line : string) : bool :=
  negb (isBlankLine line) && startsWithChar (ascii_of_nat 9) line.

(* ------------------------------------------------------------------ *)
(** Predicates for the words of braces *)

(** The characters of [w] given to [next] one after the other; the depths
    that the calls return are collected. *)
Fixpoint feedBraces (m : BracesMatcher.t) (w : list string)
  : result (BracesMatcher.t * list nat) :=
  match w with
  | [] => Ok (m, [])
  | ch :: rest =>
      '(m', depth) <- BracesMatcher.next m ch ;;
      '(m'', depths) <- feedBraces m' rest ;;
      Ok (m'', depth :: depths)
  end.

(** The well-nested words over the pairs of [braces]. *)
Inductive Balanced (braces : list Braces) : list string -> Prop :=
| Balanced_nil : Balanced braces []
| Balanced_wrap (b : Braces) (w : list string) :
    In b braces -> Balanced braces w -> Balanced braces (opening b :: w ++ [closing b])
| Balanced_app (u v : list string) :
    Balanced braces u -> Balanced braces v -> Balanced braces (u ++ v).

(** [Unclosed braces s w]: the word [w] is well nested but for the opening
    braces [s], which it leaves open, the outermost first. *)
Inductive Unclosed (braces : list Braces) : list string -> list string -> Prop :=
| Unclosed_none (w : list string) : Balanced braces w -> Unclosed braces [] w
| Unclosed_open (s w : list string) (b : Braces) (v : list string) :
    Unclosed braces s w -> In b braces -> Balanced braces v ->
    Unclosed braces (s ++ [opening b]) (w ++ opening b :: v).

(** No closing brace is an opening brace as well. *)
Definition closingApart (braces : list Braces) : Prop :=
  forall b b', In b braces -> In b' braces -> closing b <> opening b'.

(** The matcher [m] with the stack [s]. *)
Definition withStack (m : BracesMatcher.t) (s : list string) : BracesMatcher.t :=
  BracesMatcher.mkBracesMatcher (BracesMatcher.openingToClosing m)
                                (BracesMatcher.closingToOpening m) s.

(* ------------------------------------------------------------------ *)
(** Predicates for the classes of parents and children *)

(** The classes of the children that a node of a class may have. *)
Definition childAllowed (parent child : Tag) : bool :=
  match parent, child with
  | TopLevelT, (CommentsT _ | ReferencesT | ClassesT | FunctionGroupsT) => true
  | ClassesT, (CommentsT _ | AttributesT | FunctionGroupsT) => true
  | FunctionGroupsT, (FunctionsT | CommentsT true) => true
  | FunctionsT, (FunctionDeclarationT | CommentsT _) => true
  | FunctionDeclarationT, (CommentsT _ | ArgumentT) => true
  | _, _ => false
  end.

(** The class of the node that a non-terminal is parsed into: the body of
    a function is parsed into the node of the function. *)
Definition ntTag (nt : NonTerminal) : Tag :=
  match nt with
  | TOP_LEVEL => TopLevelT
  | CLASSES => ClassesT
  | FUNCTIONS => FunctionsT
  | FUNCTION_BODY => FunctionsT
  | FUNCTION_DECLARATION => FunctionDeclarationT
  end.

(** A node of class [t] may be added below the node that [nt] is parsed
    into; a function is added inside a group. *)
Definition attachAllowed (nt : NonTerminal) (t : Tag) : bool :=
  match t with
  | FunctionsT => childAllowed (ntTag nt) FunctionGroupsT
  | _ => childAllowed (ntTag nt) t
  end.

(** How far down a class sits. *)
Definition level (t : Tag) : nat :=
  match t with
  | TopLevelT => 0
  | ClassesT => 1
  | FunctionGroupsT => 2
  | FunctionsT => 3
  | FunctionDeclarationT => 4
  | ReferencesT | ArgumentT | AttributesT | CommentsT _ => 5
  end%nat.

(** Every child is of a class that its parent may have, and the parent of
    a node lists the node among its children. *)
Definition kindsOk (st : Store) : Prop :=
  (forall g x, In x (childrenOf st g) ->
     exists tg tx, tagOf st g = Some tg /\ tagOf st x = Some tx
                   /\ childAllowed tg tx = true)
  /\ (forall x g, parentOf st x = Some g -> In x (childrenOf st g)).

(** What [parseNonTerminal] does to the classes of the tree, as a property
    of a function of its type. *)
Definition keepsKinds (L : Language)
  (rec : NonTerminal -> NodeId -> TokenRange -> Z -> AbstractParser.PState L
         -> result (AbstractParser.PState L)) : Prop :=
  forall n x r d ps ps',
    rec n x r d ps = Ok ps' ->
    shapeInv (isCommentBeforeFunction L) (AbstractParser.psStore L ps) ->
    shapePre (isCommentBeforeFunction L) n x (AbstractParser.psStore L ps) ->
    kindsOk (AbstractParser.psStore L ps) ->
    tagOf (AbstractParser.psStore L ps) x = Some (ntTag n) ->
    kindsOk (AbstractParser.psStore L ps').

(** The classes of a tree: the children of every node are of the classes
    that the class of the node may have, and every node with a parent is
    among the children of that parent. *)
Definition treeGrammar (tree : AbstractSyntaxTree.t) : Prop :=
  let st := AbstractSyntaxTree.store tree in
  (forall p np x, Heap.get st p = Ok np -> In x (SyntaxNode.children np) ->
     exists nx, Heap.get st x = Ok nx
                /\ childAllowed (tag (SyntaxNode.kind np)) (tag (SyntaxNode.kind nx)) = true)
  /\ (forall x nx p, Heap.get st x = Ok nx -> SyntaxNode.parent nx = Some p ->
        exists np, Heap.get st p = Ok np /\ In x (SyntaxNode.children np)).

(* ------------------------------------------------------------------ *)
(** Predicates for the depth of the nodes *)

(** [getDepth] returns on every node, with six rounds of the recursion at
    most: the depth is 0 for a node without a parent and one more than the
    depth of the parent otherwise, and it is bounded by the class of the
    node. *)
Definition depthsOk (tree : AbstractSyntaxTree.t) : Prop :=
  let st := AbstractSyntaxTree.store tree in
  forall x nx, Heap.get st x = Ok nx ->
    exists d,
      (forall fuel, (5 < fuel)%nat -> Heap.getDepth fuel st x = Ok d)
      /\ (d <= level (tag (SyntaxNode.kind nx)))%nat
      /\ match SyntaxNode.parent nx with
         | None => d = 0%nat
         | Some p =>
             exists dp, (forall fuel, (5 < fuel)%nat -> Heap.getDepth fuel st p = Ok dp)
                        /\ d = (dp + 1)%nat
         end.

(* ------------------------------------------------------------------ *)
(** Predicates for the search of a node *)

(** [y] is [x] or below it. *)
Inductive Below (st : Store) : NodeId -> NodeId -> Prop :=
| Below_self (x : NodeId) : Below st x x
| Below_child (x c y : NodeId) :
    In c (childrenOf st x) -> Below st c y -> Below st x y.

(** The walk that [getSmallestNodeContains] and [getNodeContainsIndex]
    share: down to the first child whose range passes [test], until
    [stop] holds or no child passes. *)
Fixpoint descendLoop (fuel : nat) (st : Store) (test : Range -> bool) (stop : NodeId -> bool)
  (node : NodeId) : result NodeId :=
  match fuel with
  | O => Throw OutOfFuel
  | S fuel' =>
      if stop node then Ok node
      else
        n <- Heap.get st node ;;
        found <- AbstractSyntaxTree.firstChild st test (SyntaxNode.children n) ;;
        match found with
        | Some child => descendLoop fuel' st test stop child
        | None => Ok node
        end
  end.

Definition stopOf (terminationCondition : option (NodeId -> bool)) (node : NodeId) : bool :=
  match terminationCondition with Some f => f node | None => false end.

(** The two searches return, within six rounds; the node found is the
    root or below it, its range passes the test if the range of the root
    does, and no child of it passes the test, unless the termination
    condition stopped the search there. *)
Definition searchesReturn (tree : AbstractSyntaxTree.t) : Prop :=
  let st := AbstractSyntaxTree.store tree in
  let root := AbstractSyntaxTree.getRoot tree in
  (forall range : Range,
     exists node,
       (forall fuel, (5 < fuel)%nat ->
          AbstractSyntaxTree.getSmallestNodeContains fuel tree range = Ok node)
       /\ Below st root node
       /\ (Utils.contains (rangeOf st root) range = true ->
           Utils.contains (rangeOf st node) range = true)
       /\ (forall c, In c (childrenOf st node) ->
             Utils.contains (rangeOf st c) range = false))
  /\ (forall (index : Index) (terminationCondition : option (NodeId -> bool)),
        exists node,
          (forall fuel, (5 < fuel)%nat ->
             AbstractSyntaxTree.getNodeContainsIndex fuel tree index terminationCondition
             = Ok node)
          /\ Below st root node
          /\ (Utils.containsIndex (rangeOf st root) index = true ->
              Utils.containsIndex (rangeOf st node) index = true)
          /\ (stopOf terminationCondition node = true
              \/ forall c, In c (childrenOf st node) ->
                   Utils.containsIndex (rangeOf st c) index = false)).

(** The range holds a character at least. *)
Definition nonEmptyRange (r : Range) : Prop :=
  ~ idxLe (Utils.rangeToEndIndex r) (Utils.rangeToStartIndex r).

(** The node found is the deepest one: every node of the tree whose range
    contains the index, or the range searched for, is the node found or
    above it. *)
Definition searchesFindTheDeepest (tree : AbstractSyntaxTree.t) : Prop :=
  let st := AbstractSyntaxTree.store tree in
  let root := AbstractSyntaxTree.getRoot tree in
  (forall (index : Index) (fuel : nat) (node y : NodeId),
     AbstractSyntaxTree.getNodeContainsIndex fuel tree index None = Ok node ->
     Below st root y -> Utils.containsIndex (rangeOf st y) index = true ->
     Below st y node)
  /\ (forall (range : Range) (fuel : nat) (node y : NodeId),
        nonEmptyRange range ->
        AbstractSyntaxTree.getSmallestNodeContains fuel tree range = Ok node ->
        Below st root y -> Utils.contains (rangeOf st y) range = true ->
        Below st y node).

(* ------------------------------------------------------------------ *)
(** Predicates for the comments of the groups *)

(** [hasComment] returns on every group of functions, and answers whether
    the group has two children: the function and its comment. *)
Definition hasCommentOk (tree : AbstractSyntaxTree.t) : Prop :=
  let st := AbstractSyntaxTree.store tree in
  forall g n, Heap.get st g = Ok n -> tag (SyntaxNode.kind n) = FunctionGroupsT ->
    Heap.hasComment st g = Ok (List.length (SyntaxNode.children n) =? 2)%nat.

(* ------------------------------------------------------------------ *)
(** Predicates for the classes of the Python tokens *)

Definition pyBrace (c : ascii) : bool :=
  PythonTokenizer.isCh c "{" || PythonTokenizer.isCh c "}" || PythonTokenizer.isCh c "["
  || PythonTokenizer.isCh c "]" || PythonTokenizer.isCh c "(" || PythonTokenizer.isCh c ")".

Definition pySpacing (c : ascii) : bool :=
  PythonTokenizer.isCh c " " || PythonTokenizer.isCh c Js.tab
  || PythonTokenizer.isCh c Js.newline.

Definition pyQuote (c : ascii) : bool :=
  PythonTokenizer.isCh c Js.dquote || PythonTokenizer.isCh c "'".

(** A character that starts nothing and ends nothing. *)
Definition pyPlain (c : ascii) : bool :=
  negb (pyBrace c || pySpacing c || PythonTokenizer.isCh c ":" || PythonTokenizer.isCh c ","
        || PythonTokenizer.isCh c "#" || pyQuote c).

Definition noLineFeed (l : list ascii) : bool :=
  forallb (fun x => negb (PythonTokenizer.isCh x Js.newline)) l.

(** The texts that a token of a type may have: a brace, a spacing
    character, a comma; a comment from its [#] up to the end of the line; a
    string from its quote on; a text between triple quotes from the three
    quotes on; a colon, or a run of plain characters. *)
Definition pyClassOk (ty : TokenType) (l : list ascii) : bool :=
  match ty with
  | BRACES => match l with [c] => pyBrace c | _ => false end
  | SPACINGS => match l with [c] => pySpacing c | _ => false end
  | COMMAS => match l with [c] => PythonTokenizer.isCh c "," | _ => false end
  | SINGLELINE_COMMENTS =>
      match l with
      | c :: rest => PythonTokenizer.isCh c "#" && noLineFeed rest
      | [] => false
      end
  | STRINGS => match l with c :: _ => pyQuote c | [] => false end
  | MULTILINE_COMMENTS_OR_STRINGS =>
      match l with
      | a :: b :: c :: _ => pyQuote a && Ascii.eqb b a && Ascii.eqb c a
      | _ => false
      end
  | OTHERS =>
      match l with
      | [] => false
      | [c] => PythonTokenizer.isCh c ":" || pyPlain c
      | _ => forallb pyPlain l
      end
  | CONTINUATION => false
  end.

Definition pyTokenOk (t : Token) : bool :=
  pyClassOk (tokenType t) (Js.chars (stringContents t)).

(** The buffer inside a string: the quote first; alone while one quote
    has been counted, twice while two have. *)
Definition quoteBuf (q : string) (count : nat) (buf : list ascii) : Prop :=
  exists c rest, buf = c :: rest /\ PythonTokenizer.isCh c q = true
                 /\ (count = 1%nat -> rest = []) /\ (count = 2%nat -> rest = [c]).

Definition tripleBuf (q : string) (buf : list ascii) : Prop :=
  exists c rest, buf = c :: c :: c :: rest /\ PythonTokenizer.isCh c q = true.

(** The buffer of the Python lexer, state by state. *)
Definition pyBufOk (st : PythonTokenizer.State) (buf : list ascii) : Prop :=
  if PythonTokenizer.insideSingleLineComments st
  then PythonTokenizer.insideStringStatus st = PythonTokenizer.NONE
       /\ exists c rest, buf = c :: rest /\ PythonTokenizer.isCh c "#" = true
                         /\ noLineFeed rest = true
  else
    match PythonTokenizer.insideStringStatus st with
    | PythonTokenizer.NONE => forallb pyPlain buf = true
    | PythonTokenizer.SINGLE_QUOTES =>
        quoteBuf "'" (PythonTokenizer.contiguousQuotesCount st) buf
    | PythonTokenizer.DOUBLE_QUOTES =>
        quoteBuf Js.dquote (PythonTokenizer.contiguousQuotesCount st) buf
    | PythonTokenizer.TRIPLE_SINGLE_QUOTES => tripleBuf "'" buf
    | PythonTokenizer.TRIPLE_DOUBLE_QUOTES => tripleBuf Js.dquote buf
    end.

Definition pyClassInv (tk : AbstractTokenizer.t PythonTokenizer.lexer) : Prop :=
  pyBufOk (AbstractTokenizer.sub tk) (Js.chars (stringBuffer (AbstractTokenizer.base tk)))
  /\ forallb pyTokenOk (tokenString (AbstractTokenizer.base tk)) = true.

(** What an answer of the Python lexer has to be like, for the buffer
    [buf] and the new character [c]: the tokens that it makes are of their
    classes, and the buffer that it leaves is the one of the new state. *)
Definition pyStepOk (st' : PythonTokenizer.State) (mr : option MatchResult)
  (buf : list ascii) (c : ascii) : Prop :=
  match mr with
  | None => pyBufOk st' (buf ++ [c])
  | Some m =>
      numSplitCharacters m = None
      /\ match singleChType m with
         | None => pyClassOk (mrType m) (buf ++ [c]) = true /\ pyBufOk st' []
         | Some sct =>
             (buf <> [] -> pyClassOk (mrType m) buf = true)
             /\ if TokenType_eqb sct CONTINUATION then pyBufOk st' [c]
                else pyClassOk sct [c] = true /\ pyBufOk st' []
         end
  end.

(* ------------------------------------------------------------------ *)
(** Predicates for the classes of the TypeScript tokens *)

Definition tsBrace (c : ascii) : bool :=
  TypeScriptTokenizer.isCh c "{" || TypeScriptTokenizer.isCh c "}"
  || TypeScriptTokenizer.isCh c "[" || TypeScriptTokenizer.isCh c "]"
  || TypeScriptTokenizer.isCh c "(" || TypeScriptTokenizer.isCh c ")".

Definition tsSpacing (c : ascii) : bool :=
  TypeScriptTokenizer.isCh c " " || TypeScriptTokenizer.isCh c Js.tab
  || TypeScriptTokenizer.isCh c Js.newline || TypeScriptTokenizer.isCh c ";".

(** The characters that are a token of type [OTHERS] on their own. *)
Definition tsSingle (c : ascii) : bool :=
  TypeScriptTokenizer.isCh c ":" || TypeScriptTokenizer.isCh c "<"
  || TypeScriptTokenizer.isCh c ">".

Definition tsQuote (c : ascii) : bool :=
  TypeScriptTokenizer.isCh c "'" || TypeScriptTokenizer.isCh c Js.dquote.

(** A character that starts nothing and ends nothing on its own; the slash
    and the star are among them. *)
Definition tsPlain (c : ascii) : bool :=
  negb (tsBrace c || tsSpacing c || TypeScriptTokenizer.isCh c "," || tsSingle c
        || TypeScriptTokenizer.isCh c "=" || TypeScriptTokenizer.isCh c "`" || tsQuote c).

Definition tsNoLineFeed (l : list ascii) : bool :=
  forallb (fun x => negb (TypeScriptTokenizer.isCh x Js.newline)) l.

(** The start of a comment between [/*] and [*/]: the two characters, or
    the star alone when the slash went to the token before. *)
Definition tsCommentStart (l : list ascii) : bool :=
  match l with
  | a :: rest =>
      TypeScriptTokenizer.isCh a "*"
      || (TypeScriptTokenizer.isCh a "/"
          && match rest with
             | b :: _ => TypeScriptTokenizer.isCh b "*"
             | [] => false
             end)
  | [] => false
  end.

(** The texts that a token of a type may have: a brace, a spacing
    character, a comma; a comment from a slash up to the end of the line;
    a string from its quote on, within one line; a text from a backtick on,
    or a comment from its [/*] or [*] on; one of [:], [<], [>], [=], the
    arrow [=>], or a run of plain characters. *)
Definition tsClassOk (ty : TokenType) (l : list ascii) : bool :=
  match ty with
  | BRACES => match l with [c] => tsBrace c | _ => false end
  | SPACINGS => match l with [c] => tsSpacing c | _ => false end
  | COMMAS => match l with [c] => TypeScriptTokenizer.isCh c "," | _ => false end
  | SINGLELINE_COMMENTS =>
      match l with
      | c :: rest => TypeScriptTokenizer.isCh c "/" && tsNoLineFeed rest
      | [] => false
      end
  | STRINGS =>
      match l with
      | c :: rest => tsQuote c && tsNoLineFeed rest
      | [] => false
      end
  | MULTILINE_COMMENTS_OR_STRINGS =>
      match l with
      | c :: _ => TypeScriptTokenizer.isCh c "`" || tsCommentStart l
      | [] => false
      end
  | OTHERS =>
      match l with
      | [] => false
      | [c] => tsSingle c || TypeScriptTokenizer.isCh c "=" || tsPlain c
      | [a; b] =>
          (TypeScriptTokenizer.isCh a "=" && TypeScriptTokenizer.isCh b ">")
          || forallb tsPlain l
      | _ => forallb tsPlain l
      end
  | CONTINUATION => false
  end.

Definition tsTokenOk (t : Token) : bool :=
  tsClassOk (tokenType t) (Js.chars (stringContents t)).

(** The buffer inside a string: the quote first, and no line feed. *)
Definition tsQuoteBuf (q : string) (buf : list ascii) : Prop :=
  exists c rest, buf = c :: rest /\ TypeScriptTokenizer.isCh c q = true
                 /\ tsNoLineFeed rest = true.

(** The buffer of the TypeScript lexer, state by state. Outside comments
    and strings it is a run of plain characters, and it ends with the slash
    that the matcher has pending. *)
Definition tsBufOk (st : TypeScriptTokenizer.State) (buf : list ascii) : Prop :=
  if TypeScriptTokenizer.insideSingleLineComments st
  then TypeScriptTokenizer.insideStringStatus st = TypeScriptTokenizer.NONE
       /\ tsQuoteBuf "/" buf
  else
    match TypeScriptTokenizer.insideStringStatus st with
    | TypeScriptTokenizer.NONE =>
        forallb tsPlain buf = true
        /\ (TypeScriptTokenizer.stringMatcher st = afterSlash
            -> exists pre c, buf = pre ++ [c] /\ TypeScriptTokenizer.isCh c "/" = true)
    | TypeScriptTokenizer.SINGLE_QUOTES => tsQuoteBuf "'" buf
    | TypeScriptTokenizer.DOUBLE_QUOTES => tsQuoteBuf Js.dquote buf
    | TypeScriptTokenizer.MULTILINE_BACKTICKS =>
        exists c rest, buf = c :: rest /\ TypeScriptTokenizer.isCh c "`" = true
    | TypeScriptTokenizer.MULTILINE_COMMENTS => tsCommentStart buf = true
    | TypeScriptTokenizer.EQUALS =>
        exists c, buf = [c] /\ TypeScriptTokenizer.isCh c "=" = true
    end.

Definition tsClassInv (tk : AbstractTokenizer.t TypeScriptTokenizer.lexer) : Prop :=
  tsBufOk (AbstractTokenizer.sub tk) (Js.chars (stringBuffer (AbstractTokenizer.base tk)))
  /\ forallb tsTokenOk (tokenString (AbstractTokenizer.base tk)) = true.

(** What an answer of the TypeScript lexer has to be like, for the buffer
    [buf] and the new character [c]: the tokens that it makes are of their
    classes, and the buffer that it leaves is the one of the new state. *)
Definition tsStepOk (st' : TypeScriptTokenizer.State) (mr : option MatchResult)
  (buf : list ascii) (c : ascii) : Prop :=
  match mr with
  | None => tsBufOk st' (buf ++ [c])
  | Some m =>
      numSplitCharacters m = None
      /\ match singleChType m with
         | None => tsClassOk (mrType m) (buf ++ [c]) = true /\ tsBufOk st' []
         | Some sct =>
             (buf <> [] -> tsClassOk (mrType m) buf = true)
             /\ if TokenType_eqb sct CONTINUATION then tsBufOk st' [c]
                else tsClassOk sct [c] = true /\ tsBufOk st' []
         end
  end.

(** The matcher of the TypeScript lexer, after one character and the
    reset that follows a match. *)
Definition afterMatch (p : StringExpressionMatcher.t * option string)
  : StringExpressionMatcher.t :=
  match snd p with
  | Some _ => reset (fst p)
  | None => fst p
  end.

(** The types and the texts of a list of tokens. *)
Definition tokenTexts (toks : list Token) : list (TokenType * string) :=
  map (fun t => (tokenType t, stringContents t)) toks.

(* ------------------------------------------------------------------ *)
(** The life of a tokenizer *)

(** The calls of [next] for the characters of [x], and for the end of the
    stream when [finish] is set. *)
Definition lexAfter {L : Lexer} (tk0 : AbstractTokenizer.t L) (x : string) (finish : bool)
  : result (AbstractTokenizer.t L) :=
  tk <- AbstractTokenizer.feed tk0 (Js.chars x) ;;
  if finish then AbstractTokenizer.next tk None else Ok tk.

(** The tokens of [y] by the tokenizer [tk]. *)
Definition lexFrom {L : Lexer} (tk : AbstractTokenizer.t L) (y : string) : result (list Token) :=
  tk <- AbstractTokenizer.feed tk (Js.chars y) ;;
  tk <- AbstractTokenizer.next tk None ;;
  Ok (AbstractTokenizer.getTokens tk).

Definition endedError : exn :=
  Error "Cannot call next when already ended! Must reset with .reset().".

(* ------------------------------------------------------------------ *)
(** Predicates for the declarations that the matcher of variable
    declarations reads *)

Definition isBraceOf (braces : list Braces) (t : string) : bool :=
  existsb (fun x => String.eqb (opening x) t) braces
  || existsb (fun x => String.eqb (closing x) t) braces.

(** Tokens between a pair of braces: any tokens, with the braces among
    them well nested. *)
Inductive Inside (braces : list Braces) : list Token -> Prop :=
| Inside_nil : Inside braces []
| Inside_plain (t : Token) (w : list Token) :
    isBraceOf braces (stringContents t) = false -> Inside braces w -> Inside braces (t :: w)
| Inside_group (b : Braces) (o c : Token) (inner w : list Token) :
    In b braces -> stringContents o = opening b -> stringContents c = closing b ->
    Inside braces inner -> Inside braces w -> Inside braces (o :: inner ++ c :: w).

(** The tokens of a type or of an assigned value: well nested, and none
    of the separators [seps] outside the braces. *)
Inductive Nested (braces : list Braces) (seps : list string) : list Token -> Prop :=
| Nested_nil : Nested braces seps []
| Nested_plain (t : Token) (w : list Token) :
    ~ In (stringContents t) seps -> isBraceOf braces (stringContents t) = false ->
    Nested braces seps w -> Nested braces seps (t :: w)
| Nested_group (b : Braces) (o c : Token) (inner w : list Token) :
    In b braces -> stringContents o = opening b -> stringContents c = closing b ->
    Inside braces inner -> Nested braces seps w -> Nested braces seps (o :: inner ++ c :: w).

(** The tokens given to [next] one after the other; what the calls return
    is collected. *)
Fixpoint feedDecl (m : TypeScriptVarDeclMatcher.t) (toks : list Token)
  : result (TypeScriptVarDeclMatcher.t * list (option TypeScriptVarDeclMatcher.Declaration)) :=
  match toks with
  | [] => Ok (m, [])
  | tok :: rest =>
      '(m', out) <- TypeScriptVarDeclMatcher.next m tok ;;
      '(m'', outs) <- feedDecl m' rest ;;
      Ok (m'', out :: outs)
  end.

(** The tokens of a declaration: the name, a colon and the type, an equals
    sign and the value, and the token that ends it. *)
Definition declTokens (name : list Token) (type : option (Token * list Token))
  (value : option (Token * list Token)) (stop : Token) : list Token :=
  name
  ++ match type with Some (colon, ty) => colon :: ty | None => [] end
  ++ match value with Some (equals, val) => equals :: val | None => [] end
  ++ [stop].

Definition partText (part : option (Token * list Token)) : option string :=
  match part with
  | Some (_, t :: rest) => Some (Js.trim (tokensText (t :: rest)))
  | _ => None
  end.

(** The declaration that the tokens spell, if they spell a name. *)
Definition declOf (name : list Token) (type value : option (Token * list Token))
  : option TypeScriptVarDeclMatcher.Declaration :=
  if Js.len (Js.trim (tokensText name)) =? 0 then None
  else Some (TypeScriptVarDeclMatcher.mkDeclaration
               (Js.trim (tokensText name)) (partText type) (partText value)).

(** The tokens of a declaration are well formed. *)
Definition declOk (name : list Token) (type value : option (Token * list Token))
  (stop : Token) : Prop :=
  Forall (fun t => ~ In (stringContents t) [":"; "="; ";"; ","; ")"]) name
  /\ match type with
     | Some (colon, ty) =>
         stringContents colon = ":"
         /\ Nested TypeScriptVarDeclMatcher.typeBraces ["="; ";"; ","; ")"] ty
     | None => True
     end
  /\ match value with
     | Some (equals, val) =>
         stringContents equals = "="
         /\ Nested TypeScriptVarDeclMatcher.assignmentBraces [";"; ","; ")"] val
     | None => True
     end
  /\ In (stringContents stop) [";"; ","; ")"].

(** The matcher [m] in the state [st], with the three buffers and the
    two stacks of open braces. *)
Definition declState (m : TypeScriptVarDeclMatcher.t)
  (st : TypeScriptVarDeclMatcher.ReadingState) (nb tb ab : option string)
  (s1 s2 : list string) : TypeScriptVarDeclMatcher.t :=
  TypeScriptVarDeclMatcher.mkVarDeclMatcher
    st nb tb ab
    (withStack (TypeScriptVarDeclMatcher.typeBracesMatcher m) s1)
    (withStack (TypeScriptVarDeclMatcher.assignmentBracesMatcher m) s2).

(** The buffer after the texts of [toks]. *)
Definition appendAll (buffer : option string) (toks : list Token) : option string :=
  fold_left (fun b t => TypeScriptVarDeclMatcher.appendTo b (stringContents t)) toks buffer.

(** What [reset] returns for the three buffers. *)
Definition resetValue (nb tb ab : option string)
  : option TypeScriptVarDeclMatcher.Declaration :=
  match nb with
  | None => None
  | Some n =>
      if Js.len (Js.trim n) =? 0 then None
      else Some (TypeScriptVarDeclMatcher.mkDeclaration
                   (Js.trim n) (option_map Js.trim tb) (option_map Js.trim ab))
  end.

(** A token with the text [s]. *)
Definition wordToken (s : string) : Token := mkToken s OTHERS (mkCharacterRange 0 0).

(* ------------------------------------------------------------------ *)
(** Predicates for the positions of the ranges *)

(** The position of a character of the text; the line feed of a line is
    at the position after the last character of the line. *)
Definition charPos (lines : list string) (i : Index) : Prop :=
  (line i < List.length lines)%nat
  /\ (character i <= String.length (nth (line i) lines EmptyString))%nat.

(** A position at which a range may end: the position of a character, or
    the position after the last line feed. *)
Definition endPos (lines : list string) (i : Index) : Prop :=
  charPos lines i \/ i = mkIndex (List.length lines) 0.

(** A range from a character of the text to a position of the text. *)
Definition goodRange (lines : list string) (r : Range) : Prop :=
  charPos lines (Utils.rangeToStartIndex r) /\ endPos lines (Utils.rangeToEndIndex r).

Definition goodRanges (lines : list string) (st : Store) : Prop :=
  forall id, (id < List.length st)%nat -> goodRange lines (rangeOf st id).

(** What [parseNonTerminal] does to the positions of the ranges, as a
    property of a function of its type. *)
Definition keepsGood (L : Language) (lines : list string)
  (rec : NonTerminal -> NodeId -> TokenRange -> Z -> AbstractParser.PState L
         -> result (AbstractParser.PState L)) : Prop :=
  forall n x r d ps ps',
    rec n x r d ps = Ok ps' ->
    shapeInv (isCommentBeforeFunction L) (AbstractParser.psStore L ps) ->
    shapePre (isCommentBeforeFunction L) n x (AbstractParser.psStore L ps) ->
    goodRanges lines (AbstractParser.psStore L ps) ->
    goodRanges lines (AbstractParser.psStore L ps').

(** The text of every node can be read: [getSourceTextFromRange] returns
    on the range of the node, with the characters between the offsets of
    the two ends of the range. *)
Definition textsReadable (tree : AbstractSyntaxTree.t) : Prop :=
  let lines := AbstractSyntaxTree.sourceLines tree in
  forall id n,
    Heap.get (AbstractSyntaxTree.store tree) id = Ok n ->
    exists s,
      AbstractSyntaxTree.getSourceTextFromRange lines (SyntaxNode.range n) = Ok s
      /\ Js.chars s
         = flatSlice lines
             (offset lines (start_line (SyntaxNode.range n))
                     (start_character (SyntaxNode.range n)))
             (offset lines (end_line (SyntaxNode.range n))
                     (end_character (SyntaxNode.range n))).

(* ================================================================== *)
(** ** Strings *)

Ltac inv H := inversion H; subst; clear H.

(** Case analysis on the first computation of a [bind]. *)
Ltac bind_cases H :=
  match type of H with
  | bind ?m _ = _ =>
      let E := fresh "E" in
      destruct m eqn:E; simpl in H; [ | discriminate H ]
  end.

Ltac bind_pair H :=
  match type of H with
  | bind ?m _ = _ =>
      let E := fresh "E" in
      destruct m as [[? ?] |] eqn:E; simpl in H; [ | discriminate H ]
  end.


Lemma chars_str (l : list ascii) : Js.chars (Js.str l) = l.
Proof. apply list_ascii_of_string_of_list_ascii. Qed.

Lemma str_chars (s : string) : Js.str (Js.chars s) = s.
Proof. apply string_of_list_ascii_of_string. Qed.


Lemma chars_app (a b : string) : Js.chars (a ++ b) = Js.chars a ++ Js.chars b.
Proof.
  induction a as [| c a IH]; simpl; auto. now rewrite <- IH.
Qed.

Lemma str_app (a b : list ascii) : Js.str (a ++ b) = (Js.str a ++ Js.str b)%string.
Proof.
  induction a as [| c a IH]; simpl; auto. now rewrite <- IH.
Qed.

Lemma length_chars (s : string) : List.length (Js.chars s) = String.length s.
Proof.
  induction s as [| c s IH]; simpl; auto.
Qed.

Lemma length_str (l : list ascii) : String.length (Js.str l) = List.length l.
Proof.
  induction l as [| c l IH]; simpl; auto.
Qed.

Lemma string_length_app (a b : string) :
  String.length (a ++ b) = (String.length a + String.length b)%nat.
Proof.
  induction a as [| c a IH]; simpl; auto.
Qed.

Lemma string_app_nil_r (a : string) : (a ++ EmptyString)%string = a.
Proof.
  induction a as [| c a IH]; simpl; auto. now rewrite IH.
Qed.

Lemma string_app_assoc (a b c : string) : ((a ++ b) ++ c)%string = (a ++ (b ++ c))%string.
Proof.
  induction a as [| x a IH]; simpl; auto. now rewrite IH.
Qed.

Lemma chars_inj (a b : string) : Js.chars a = Js.chars b -> a = b.
Proof.
  intros H. rewrite <- (string_of_list_ascii_of_string a), <- (string_of_list_ascii_of_string b).
  unfold Js.chars in H. now rewrite H.
Qed.

(** [s.substring(a, b)] for [0 <= a <= b <= s.length]. *)
Lemma substring_inside (s : string) (a b : nat) :
  (a <= b)%nat -> (b <= String.length s)%nat ->
  Js.substring s (Z.of_nat a) (Z.of_nat b) = Js.str (firstn (b - a) (skipn a (Js.chars s))).
Proof.
  intros Hab Hb. unfold Js.substring, Js.clamp, Js.len.
  replace (Z.to_nat (Z.max 0 (Z.min (Z.of_nat a) (Z.of_nat (String.length s))))) with a by lia.
  replace (Z.to_nat (Z.max 0 (Z.min (Z.of_nat b) (Z.of_nat (String.length s))))) with b by lia.
  now rewrite Nat.max_r, Nat.min_l by lia.
Qed.

(** The two halves that [next] cuts the buffer into. *)
Lemma substring_head (s : string) (k : nat) :
  (k <= String.length s)%nat ->
  Js.chars (Js.substring s 0 (Js.len s - Z.of_nat k))
  = firstn (String.length s - k) (Js.chars s).
Proof.
  intros Hk. unfold Js.len.
  replace (Z.of_nat (String.length s) - Z.of_nat k) with (Z.of_nat (String.length s - k)) by lia.
  change 0 with (Z.of_nat 0).
  rewrite substring_inside by lia.
  rewrite chars_str. simpl. now rewrite Nat.sub_0_r.
Qed.

Lemma substring_tail (s : string) (k : nat) :
  (k <= String.length s)%nat ->
  Js.chars (Js.substring s (Js.len s - Z.of_nat k) (Js.len s))
  = skipn (String.length s - k) (Js.chars s).
Proof.
  intros Hk. unfold Js.len.
  replace (Z.of_nat (String.length s) - Z.of_nat k) with (Z.of_nat (String.length s - k)) by lia.
  rewrite substring_inside by lia.
  rewrite chars_str. apply firstn_all2.
  rewrite length_skipn, length_chars. lia.
Qed.

Lemma substring_tail_length (s : string) (k : nat) :
  (k <= String.length s)%nat ->
  String.length (Js.substring s (Js.len s - Z.of_nat k) (Js.len s)) = k.
Proof.
  intros Hk. rewrite <- length_chars, substring_tail, length_skipn, length_chars by assumption.
  lia.
Qed.

Lemma substring_last_length (s : string) :
  (1 <= String.length s)%nat ->
  String.length (Js.substring s (Js.len s - 1) (Js.len s)) = 1%nat.
Proof.
  intros H. apply (substring_tail_length s 1 H).
Qed.

(* ================================================================== *)
(** ** The stream matchers *)

Section RecordLemmas.
Context {T : Type}.

Lemma recGet_recSet_same (r : JsRecord T) (k : string) (v : T) :
  recGet (recSet r k v) k = Some v.
Proof.
  induction r as [| [k' w] r IH]; simpl.
  - now rewrite String.eqb_refl.
  - destruct (String.eqb k' k) eqn:E; simpl; rewrite E; auto.
Qed.

Lemma recGet_recSet_other (r : JsRecord T) (k k' : string) (v : T) :
  k' <> k -> recGet (recSet r k v) k' = recGet r k'.
Proof.
  intros Hne. induction r as [| [k0 w] r IH]; simpl.
  - destruct (String.eqb k k') eqn:E; auto.
    apply String.eqb_eq in E. congruence.
  - destruct (String.eqb k0 k) eqn:E; simpl.
    + apply String.eqb_eq in E. subst k0.
      destruct (String.eqb k k') eqn:E'; auto.
      apply String.eqb_eq in E'. congruence.
    + now rewrite IH.
Qed.

Lemma recGet_Some_In (r : JsRecord T) (k : string) (v : T) :
  recGet r k = Some v -> In k (recKeys r).
Proof.
  induction r as [| [k0 w] r IH]; simpl; [discriminate |].
  destruct (String.eqb k0 k) eqn:E; intros H.
  - left. now apply String.eqb_eq.
  - right. auto.
Qed.

End RecordLemmas.

Lemma NoDup_map_S (l : list nat) : NoDup l -> NoDup (map S l).
Proof.
  induction 1 as [| x l Hnotin Hnd IH]; simpl; constructor; auto.
  intros Hin. apply in_map_iff in Hin. destruct Hin as [y [Hy Hin]].
  inv Hy. contradiction.
Qed.

Section MatcherSafety.
Context {A : Type} (eqbA : A -> A -> bool).
Hypothesis eqbA_eq : forall x y, eqbA x y = true <-> x = y.
Local Open Scope nat_scope.

Lemma resetLoop_get (keys : list string) :
  forall (pm : JsRecord (list nat)) (k : string),
    (In k keys -> recGet (resetLoop keys pm) k = Some [])
    /\ (~ In k keys -> recGet (resetLoop keys pm) k = recGet pm k).
Proof.
  induction keys as [| k0 keys IH]; intros pm k; simpl.
  - split; [tauto | auto].
  - destruct (IH (recSet pm k0 []) k) as [IHin IHout].
    destruct (in_dec string_dec k keys) as [Hin | Hout].
    + split; auto. tauto.
    + split.
      * intros [-> | Hin]; [| tauto].
        rewrite IHout by assumption. apply recGet_recSet_same.
      * intros Hn. rewrite IHout by assumption.
        apply recGet_recSet_other. intros ->. tauto.
Qed.

Lemma initPotentialMatches_resetLoop (keys : list string) (pm : JsRecord (list nat)) :
  initPotentialMatches keys pm = resetLoop keys pm.
Proof.
  revert pm. induction keys; intros pm; simpl; auto.
Qed.

Lemma suffix_of_same (a b w : list A) :
  IsSuffixOf a w -> IsSuffixOf b w -> IsSuffixOf a b \/ IsSuffixOf b a.
Proof.
  intros [p1 H1] [p2 H2]. subst w.
  destruct (app_eq_app _ _ _ _ H2) as [l [[? ?] | [? ?]]]; subst.
  - left. now exists l.
  - right. now exists l.
Qed.

Lemma SuffixFree_tail (v : list A) (values : list (list A)) :
  SuffixFree (v :: values) -> SuffixFree values.
Proof.
  intros H i j a b Hij Ha Hb. apply (H (S i) (S j) a b); auto.
Qed.

Lemma SuffixFree_exclusive (values : list (list A)) :
  SuffixFree values -> exclusive values.
Proof.
  induction values as [| v rest IH]; intros H; simpl; auto.
  split.
  - intros w Hv. apply Forall_forall. intros v' Hin Hv'.
    destruct (In_nth_error _ _ Hin) as [j Hj].
    destruct (suffix_of_same _ _ _ Hv Hv') as [S1 | S1].
    + apply (H (S j) 0 v' v); auto.
    + apply (H 0 (S j) v v'); auto.
  - apply IH. eapply SuffixFree_tail; eauto.
Qed.

Lemma firstn_snoc (e : list A) (p : nat) (x : A) :
  nth_error e p = Some x -> firstn (S p) e = firstn p e ++ [x].
Proof.
  revert p. induction e as [| a e IH]; intros [| p] H; simpl in *; try discriminate.
  - now inv H.
  - f_equal. auto.
Qed.

Lemma hit_extends (e h : list A) (sym : A) (p : nat) :
  hitb eqbA e sym p = true -> IsSuffixOf (firstn p e) h ->
  IsSuffixOf (firstn (S p) e) (h ++ [sym]).
Proof.
  unfold hitb. intros Hhit [pre ->].
  destruct (nth_error e p) as [x |] eqn:E; [| discriminate].
  apply eqbA_eq in Hhit. subst x.
  exists pre. rewrite (firstn_snoc _ _ _ E). now rewrite app_assoc.
Qed.

Lemma hit_lt (e : list A) (sym : A) (p : nat) :
  hitb eqbA e sym p = true -> p < List.length e.
Proof.
  unfold hitb. intros H. apply nth_error_Some.
  destruct (nth_error e p); [discriminate | discriminate].
Qed.

Lemma completes_suffix (e h : list A) (sym : A) (p : nat) :
  completesb eqbA e sym p = true -> IsSuffixOf (firstn p e) h ->
  IsSuffixOf e (h ++ [sym]).
Proof.
  unfold completesb. intros Hc Hs.
  apply andb_true_iff in Hc. destruct Hc as [Hhit Hlen].
  apply Nat.eqb_eq in Hlen.
  pose proof (hit_extends _ _ _ _ Hhit Hs) as H.
  rewrite firstn_all2 in H by lia. exact H.
Qed.

(** The inner loop of [next] on a list of pairwise distinct progresses,
    when no match is pending or none of the progresses completes. *)
Lemma advance_spec (key : string) (e : list A) (sym : A) :
  forall (rs : list nat) (matched : option string),
    NoDup rs ->
    (matched = None \/ forall p, In p rs -> completesb eqbA e sym p = false) ->
    advance eqbA key e sym rs matched
    = Ok (map S (filter (staysb eqbA e sym) rs),
          if existsb (completesb eqbA e sym) rs then Some key else matched).
Proof.
  induction rs as [| p rs IH]; intros matched Hnd Hm; simpl; auto.
  inversion Hnd as [| ? ? Hnotin Hnd']; subst.
  unfold staysb, completesb at 1. fold (hitb eqbA e sym p).
  destruct (hitb eqbA e sym p) eqn:Hhit; simpl.
  - destruct (p + 1 =? List.length e) eqn:Hlen; simpl.
    + assert (Hc : completesb eqbA e sym p = true)
        by (unfold completesb; now rewrite Hhit, Hlen).
      destruct Hm as [-> | Hm].
      2:{ rewrite Hm in Hc by (now left). discriminate. }
      rewrite IH; auto.
      * simpl. destruct (existsb (completesb eqbA e sym) rs); reflexivity.
      * right. intros q Hq. unfold completesb.
        destruct (hitb eqbA e sym q); simpl; auto.
        apply Nat.eqb_neq. apply Nat.eqb_eq in Hlen.
        intros Hq'. assert (q = p) by lia. subst q. contradiction.
    + rewrite IH; auto.
      * simpl. replace (p + 1) with (S p) by lia. reflexivity.
      * destruct Hm as [Hm | Hm]; [now left | right].
        intros q Hq. apply Hm. now right.
  - rewrite IH; auto.
    destruct Hm as [Hm | Hm]; [now left | right].
    intros q Hq. apply Hm. now right.
Qed.

Lemma entryOk_frame (h : list A) (pm pm' : JsRecord (list nat)) (entry : string * list A) :
  recGet pm' (fst entry) = recGet pm (fst entry) -> entryOk h pm entry -> entryOk h pm' entry.
Proof.
  intros Hget [ps [H1 H2]]. exists ps. now rewrite Hget.
Qed.

(** The progresses of one pattern after a symbol. *)
Lemma stepped_progresses_ok (e h : list A) (sym : A) (ps : list nat) :
  NoDup ps -> Forall (progressOk e h) ps ->
  let ps' := rev (map S (filter (staysb eqbA e sym) (rev (ps ++ [0])))) in
  NoDup ps' /\ Forall (progressOk e (h ++ [sym])) ps'.
Proof.
  intros Hnd Hok ps'. subst ps'.
  assert (Hnd0 : NoDup (ps ++ [0])).
  { apply NoDup_app; [assumption | repeat constructor; auto | ].
    intros x Hx [<- | []].
    rewrite Forall_forall in Hok. destruct (Hok _ Hx). lia. }
  assert (Hok0 : Forall (fun p => IsSuffixOf (firstn p e) h) (ps ++ [0])).
  { apply Forall_app. split.
    - eapply Forall_impl; [| exact Hok]. intros p Hp. apply Hp.
    - repeat constructor. exists h. simpl. now rewrite app_nil_r. }
  split.
  - apply NoDup_rev. apply NoDup_map_S.
    apply NoDup_filter. now apply NoDup_rev.
  - apply Forall_rev. apply Forall_forall. intros q Hq.
    apply in_map_iff in Hq. destruct Hq as [p [<- Hp]].
    apply filter_In in Hp. destruct Hp as [Hp Hstay].
    apply in_rev in Hp.
    unfold staysb in Hstay. apply andb_true_iff in Hstay. destruct Hstay as [Hhit Hlen].
    apply negb_true_iff in Hlen. apply Nat.eqb_neq in Hlen.
    pose proof (hit_lt _ _ _ Hhit).
    rewrite Forall_forall in Hok0.
    repeat split; try lia.
    apply hit_extends; auto.
Qed.

(** The outer loop of [next]: with the invariant on the entries still to
    visit, and a pending match only if none of them can complete, the loop
    returns and the invariant holds for the longer stream. *)
Lemma nextLoop_ok (h : list A) (sym : A) :
  forall (entries : JsRecord (list A)) (pm : JsRecord (list nat)) (matched : option string),
    NoDup (recKeys entries) ->
    exclusive (recValues entries) ->
    Forall (entryOk h pm) entries ->
    (matched = None \/ Forall (fun v => ~ IsSuffixOf v (h ++ [sym])) (recValues entries)) ->
    exists pm' m',
      nextLoop eqbA entries sym pm matched = Ok (pm', m')
      /\ Forall (entryOk (h ++ [sym]) pm') entries
      /\ (forall k, ~ In k (recKeys entries) -> recGet pm' k = recGet pm k).
Proof.
  induction entries as [| [key e] rest IH]; intros pm matched Hnd Hex Hok Hm; simpl.
  - exists pm, matched. auto.
  - inversion Hnd as [| ? ? Hnotin Hnd']; subst.
    inversion Hok as [| ? ? [ps [Hget [Hps Hpok]]] Hok']; subst. simpl in Hget.
    destruct Hex as [Hex1 Hex2].
    rewrite Hget.
    destruct (stepped_progresses_ok e h sym ps Hps Hpok) as [Hnd1 Hok1].
    assert (Hnd0 : NoDup (rev (ps ++ [0]))).
    { apply NoDup_rev. apply NoDup_app; [assumption | repeat constructor; auto | ].
      intros x Hx [<- | []].
      rewrite Forall_forall in Hpok. destruct (Hpok _ Hx). lia. }
    assert (Hsuf : forall p, In p (rev (ps ++ [0])) -> IsSuffixOf (firstn p e) h).
    { intros p Hp. apply in_rev in Hp. apply in_app_iff in Hp.
      destruct Hp as [Hp | [<- | []]].
      - rewrite Forall_forall in Hpok. apply (Hpok _ Hp).
      - exists h. simpl. now rewrite app_nil_r. }
    rewrite advance_spec; auto.
    2:{ destruct Hm as [Hm | Hm]; [now left | right].
        intros p Hp. destruct (completesb eqbA e sym p) eqn:Hc; auto.
        exfalso. inversion Hm as [| ? ? Hne _]; subst.
        apply Hne. eapply completes_suffix; eauto. }
    simpl.
    set (ps' := rev (map S (filter (staysb eqbA e sym) (rev (ps ++ [0]))))) in *.
    set (m1 := if existsb (completesb eqbA e sym) (rev (ps ++ [0])) then Some key else matched).
    destruct (IH (recSet pm key ps') m1 Hnd' Hex2) as [pm' [m' [Hrun [Hok2 Hframe]]]].
    + apply Forall_forall. intros entry Hin.
      rewrite Forall_forall in Hok'.
      apply entryOk_frame with (pm := pm); auto.
      apply recGet_recSet_other. intros Heq. apply Hnotin.
      rewrite <- Heq. unfold recKeys. now apply in_map.
    + subst m1.
      destruct (existsb (completesb eqbA e sym) (rev (ps ++ [0]))) eqn:Hex.
      * right. apply existsb_exists in Hex. destruct Hex as [p [Hp Hc]].
        apply Hex1. eapply completes_suffix; eauto.
      * destruct Hm as [Hm | Hm]; [now left | right]. now inv Hm.
    + exists pm', m'. split; [exact Hrun | split].
      * constructor; auto.
        exists ps'. simpl. split; [| split; assumption].
        rewrite Hframe by assumption. apply recGet_recSet_same.
      * intros k Hk. simpl in Hk.
        rewrite Hframe by tauto.
        apply recGet_recSet_other. intros ->. tauto.
Qed.

Lemma next_ok (m : Matcher A) (h : list A) (sym : A) :
  matcherInv m h ->
  exists m' out, next eqbA m sym = Ok (m', out) /\ matcherInv m' (h ++ [sym]).
Proof.
  intros [Hnd [Hex Hok]]. unfold next.
  destruct (nextLoop_ok h sym (expressions m) (potentialMatches m) None Hnd Hex Hok)
    as [pm' [m' [Hrun [Hok' _]]]]; [now left |].
  rewrite Hrun. simpl.
  exists (mkMatcher (expressions m) pm'), m'. split; auto.
  repeat split; auto.
Qed.

Lemma reset_ok (m : Matcher A) (h : list A) :
  matcherInv m h -> matcherInv (reset m) [].
Proof.
  intros [Hnd [Hex Hok]]. repeat split; auto. simpl.
  apply Forall_forall. intros entry Hin.
  rewrite Forall_forall in Hok. destruct (Hok _ Hin) as [ps [Hget _]].
  exists []. split; [| split; constructor].
  apply resetLoop_get. eapply recGet_Some_In; eauto.
Qed.

Lemma initial_ok (es : JsRecord (list A)) :
  NoDup (recKeys es) -> SuffixFree (recValues es) ->
  matcherInv (mkMatcher es (initPotentialMatches (recKeys es) [])) [].
Proof.
  intros Hnd Hsf. repeat split; auto.
  - now apply SuffixFree_exclusive.
  - simpl. apply Forall_forall. intros entry Hin.
    exists []. split; [| split; constructor].
    rewrite initPotentialMatches_resetLoop.
    apply resetLoop_get. unfold recKeys. now apply in_map.
Qed.

(** A run of feeds and resets from a state that satisfies the invariant
    never throws. *)
Lemma run_ok (ops : list (Op A)) :
  forall (m : Matcher A) (h : list A),
    matcherInv m h -> exists r, run eqbA m ops = Ok r.
Proof.
  induction ops as [| [sym |] ops IH]; intros m h Hinv; simpl.
  - eauto.
  - destruct (next_ok m h sym Hinv) as [m' [out [Hnext Hinv']]].
    rewrite Hnext. simpl.
    destruct (IH m' _ Hinv') as [[m'' outs] Hrun].
    rewrite Hrun. simpl. eauto.
  - apply (IH (reset m) []). eapply reset_ok; eauto.
Qed.

(** What the double loop of [validateExpressions] establishes when it
    finds nothing, for a check that recognises suffixes. *)
Lemma suffixInner_false (check : list A -> list A -> bool) (a : list A) (i : nat) :
  forall (values : list (list A)) (j0 : nat),
    suffixInner check a i values j0 = false ->
    forall j b, nth_error values j = Some b -> i <> j0 + j -> check a b = false.
Proof.
  induction values as [| v rest IH]; intros j0 H j b Hb Hij.
  - destruct j; discriminate.
  - simpl in H. apply orb_false_iff in H. destruct H as [H1 H2].
    destruct j as [| j]; simpl in Hb.
    + inv Hb. destruct (i =? j0) eqn:E; auto.
      apply Nat.eqb_eq in E. lia.
    + apply (IH (j0 + 1) H2 j b Hb). lia.
Qed.

Lemma suffixOuter_false (check : list A -> list A -> bool) (all : list (list A)) :
  forall (values : list (list A)) (i0 : nat),
    suffixOuter check all values i0 = false ->
    forall i j a b, nth_error values i = Some a -> nth_error all j = Some b ->
                    i0 + i <> j -> check a b = false.
Proof.
  induction values as [| v rest IH]; intros i0 H i j a b Ha Hb Hij.
  - destruct i; discriminate.
  - simpl in H. apply orb_false_iff in H. destruct H as [H1 H2].
    destruct i as [| i]; simpl in Ha.
    + inv Ha. apply (suffixInner_false check a i0 all 0 H1 j b Hb). lia.
    + apply (IH (i0 + 1) H2 i j a b Ha Hb). lia.
Qed.

Lemma suffixOuter_SuffixFree (check : list A -> list A -> bool) (values : list (list A)) :
  (forall a b, IsSuffixOf b a -> check a b = true) ->
  suffixOuter check values values 0 = false -> SuffixFree values.
Proof.
  intros Hcheck H i j a b Hij Ha Hb Hs.
  pose proof (suffixOuter_false check values values 0 H i j a b Ha Hb) as Hf.
  rewrite Hcheck in Hf by assumption.
  assert (0 + i <> j) by lia. specialize (Hf H0). discriminate.
Qed.

End MatcherSafety.

Section ValidationFinds.
Context {A : Type}.
Local Open Scope nat_scope.

Lemma suffixInner_true (check : list A -> list A -> bool) (a : list A) (i : nat) :
  forall (values : list (list A)) (j0 j : nat) (b : list A),
    nth_error values j = Some b -> i <> j0 + j -> check a b = true ->
    suffixInner check a i values j0 = true.
Proof.
  induction values as [| v rest IH]; intros j0 j b Hb Hij Hc.
  - destruct j; discriminate.
  - simpl. destruct j as [| j]; simpl in Hb.
    + inv Hb. destruct (i =? j0) eqn:E.
      * apply Nat.eqb_eq in E. lia.
      * now rewrite Hc.
    + rewrite (IH (j0 + 1) j b Hb); [apply orb_true_r | lia | assumption].
Qed.

Lemma suffixOuter_true (check : list A -> list A -> bool) (all : list (list A)) :
  forall (values : list (list A)) (i0 i j : nat) (a b : list A),
    nth_error values i = Some a -> nth_error all j = Some b -> i0 + i <> j ->
    check a b = true -> suffixOuter check all values i0 = true.
Proof.
  induction values as [| v rest IH]; intros i0 i j a b Ha Hb Hij Hc.
  - destruct i; discriminate.
  - simpl. destruct i as [| i]; simpl in Ha.
    + inv Ha. rewrite (suffixInner_true check a i0 all 0 j b); auto. lia.
    + rewrite (IH (i0 + 1) i j a b); auto; [apply orb_true_r | lia].
Qed.

(** A bad pattern set has an empty pattern or makes the double loop of
    [validateExpressions] find a pair. *)
Lemma BadPatterns_found (check : list A -> list A -> bool) (values : list (list A)) :
  (forall a b, IsSuffixOf b a -> check a b = true) ->
  BadPatterns values ->
  existsb (fun value => List.length value =? 0) values = true
  \/ suffixOuter check values values 0 = true.
Proof.
  intros Hcheck [Hempty | [[i [j [a [Hij [Ha Hb]]]]] | [i [j [a [b [Hij [Ha [Hb Hs]]]]]]]]].
  - left. apply existsb_exists. exists []. auto.
  - right. apply (suffixOuter_true check values values 0 i j a a); auto.
    apply Hcheck. now exists [].
  - right. apply (suffixOuter_true check values values 0 i j a b); auto.
Qed.

End ValidationFinds.

(** [isSuffix] and [endsWith] recognise every suffix. *)
Lemma isSuffixLoop_complete (pre b : list Z) :
  forall (todo i : nat),
    (1 <= i)%nat -> (i + todo = List.length b + 1)%nat ->
    ExpressionMatcher.isSuffixLoop (pre ++ b) b i todo = true.
Proof.
  induction todo as [| todo IH]; intros i Hi Hlen; simpl; auto.
  rewrite length_app.
  replace (List.length pre + List.length b - i)%nat
    with (List.length pre + (List.length b - i))%nat by lia.
  rewrite nth_error_app2 by lia.
  replace (List.length pre + (List.length b - i) - List.length pre)%nat
    with (List.length b - i)%nat by lia.
  destruct (nth_error b (List.length b - i)) as [x |] eqn:E.
  - rewrite Z.eqb_refl. apply IH; lia.
  - apply nth_error_None in E. lia.
Qed.

Lemma isSuffix_complete (a b : list Z) :
  IsSuffixOf b a -> ExpressionMatcher.isSuffix a b = true.
Proof.
  intros [pre ->]. unfold ExpressionMatcher.isSuffix.
  destruct (List.length (pre ++ b) <? List.length b)%nat eqn:E.
  - apply Nat.ltb_lt in E. rewrite length_app in E. lia.
  - apply isSuffixLoop_complete; lia.
Qed.

Lemma prefix_str_app (x y : list ascii) :
  String.prefix (Js.str x) (Js.str (x ++ y)) = true.
Proof.
  induction x as [| c x IH]; simpl.
  - now destruct (Js.str y).
  - destruct (ascii_dec c c); [exact IH | congruence].
Qed.

Lemma endsWithChars_complete (a b : list ascii) :
  IsSuffixOf b a -> StringExpressionMatcher.endsWithChars a b = true.
Proof.
  intros [pre ->]. unfold StringExpressionMatcher.endsWithChars, Js.endsWith.
  rewrite !chars_str, rev_app_distr. apply prefix_str_app.
Qed.

(** C6. The constructors of [ExpressionMatcher] and of
    [StringExpressionMatcher] throw on every pattern set that holds an
    empty pattern, the same pattern twice, or a pattern that is a suffix of
    another one; the patterns "bar" and "foobar" are such a set. *)
Theorem matcher_constructors_reject_bad_patterns :
  (forall expressions : JsRecord (list Z),
      BadPatterns (recValues expressions) ->
      exists e, ExpressionMatcher.constructor expressions = Throw e)
  /\ (forall expressions : JsRecord string,
         BadPatterns (map Js.chars (recValues expressions)) ->
         exists e, StringExpressionMatcher.constructor expressions = Throw e)
  /\ StringExpressionMatcher.constructor [("a", "bar"); ("b", "foobar")]
     = Throw (Error "Ambiguous expressions: one string has another as a suffix.").
Proof.
  split; [| split].
  - intros expressions Hbad.
    unfold ExpressionMatcher.constructor, ExpressionMatcher.validateExpressions.
    destruct (List.length (recValues expressions) =? 0)%nat; simpl; eauto.
    destruct (BadPatterns_found ExpressionMatcher.isSuffix _ isSuffix_complete Hbad)
      as [H | H].
    + rewrite H. simpl. eauto.
    + destruct (existsb _ (recValues expressions)); simpl; eauto.
      rewrite H. simpl. eauto.
  - intros expressions Hbad.
    unfold StringExpressionMatcher.constructor, StringExpressionMatcher.validateExpressions.
    destruct (List.length (map Js.chars (recValues expressions)) =? 0)%nat; simpl; eauto.
    destruct (BadPatterns_found StringExpressionMatcher.endsWithChars _
                                endsWithChars_complete Hbad) as [H | H].
    + rewrite H. simpl. eauto.
    + destruct (existsb _ (map Js.chars (recValues expressions))); simpl; eauto.
      rewrite H. simpl. eauto.
  - reflexivity.
Qed.

(** The pattern set of "bar" and "foobar" is bad, and the constructor
    throws on it. *)
Lemma matcher_constructors_reject_bad_patterns_witness :
  BadPatterns (map Js.chars (recValues [("a", "bar"); ("b", "foobar")]))
  /\ exists e, StringExpressionMatcher.constructor [("a", "bar"); ("b", "foobar")] = Throw e.
Proof.
  assert (H : BadPatterns (map Js.chars (recValues [("a", "bar"); ("b", "foobar")]))).
  { right. right. exists 1%nat, 0%nat, (Js.chars "foobar"), (Js.chars "bar").
    repeat split; try reflexivity; [discriminate |].
    exists (Js.chars "foo"). reflexivity. }
  split; [exact H |].
  exact (proj1 (proj2 matcher_constructors_reject_bad_patterns) _ H).
Defined.

(** C7. On a matcher that its constructor accepted, no sequence of calls of
    [next] and [reset] throws: the error for several matches on one symbol
    is never raised, for [ExpressionMatcher] and for
    [StringExpressionMatcher]. The keys of the pattern object are pairwise
    distinct. *)
Theorem matcher_multiple_matches_unreachable :
  (forall (expressions : JsRecord (list Z)) (m : ExpressionMatcher.t) (ops : list (Op Z)),
      NoDup (recKeys expressions) ->
      ExpressionMatcher.constructor expressions = Ok m ->
      exists r, run Z.eqb m ops = Ok r)
  /\ (forall (expressions : JsRecord string) (m : StringExpressionMatcher.t)
             (ops : list (Op ascii)),
         NoDup (recKeys expressions) ->
         StringExpressionMatcher.constructor expressions = Ok m ->
         exists r, run Ascii.eqb m ops = Ok r).
Proof.
  split.
  - intros expressions m ops Hnd Hc.
    unfold ExpressionMatcher.constructor, ExpressionMatcher.validateExpressions in Hc.
    destruct (List.length (recValues expressions) =? 0)%nat; [discriminate |].
    destruct (existsb _ (recValues expressions)); [discriminate |].
    destruct (suffixOuter ExpressionMatcher.isSuffix _ _ 0) eqn:Hs; [discriminate |].
    destruct (negb _); [discriminate |]. simpl in Hc. inv Hc.
    apply (run_ok Z.eqb Z.eqb_eq ops _ []).
    apply initial_ok; auto.
    eapply suffixOuter_SuffixFree; [apply isSuffix_complete | exact Hs].
  - intros expressions m ops Hnd Hc.
    unfold StringExpressionMatcher.constructor, StringExpressionMatcher.validateExpressions in Hc.
    destruct (List.length (map Js.chars (recValues expressions)) =? 0)%nat; [discriminate |].
    destruct (existsb _ (map Js.chars (recValues expressions))); [discriminate |].
    destruct (suffixOuter StringExpressionMatcher.endsWithChars _ _ 0) eqn:Hs; [discriminate |].
    simpl in Hc. inv Hc.
    apply (run_ok Ascii.eqb Ascii.eqb_eq ops _ []).
    assert (Hk : recKeys (map (fun e : string * string => (fst e, Js.chars (snd e))) expressions)
                 = recKeys expressions).
    { unfold recKeys. rewrite map_map. reflexivity. }
    assert (Hv : recValues (map (fun e : string * string => (fst e, Js.chars (snd e))) expressions)
                 = map Js.chars (recValues expressions)).
    { unfold recValues. rewrite !map_map. reflexivity. }
    rewrite <- Hk. apply initial_ok.
    + now rewrite Hk.
    + rewrite Hv.
      eapply suffixOuter_SuffixFree; [apply endsWithChars_complete | exact Hs].
Qed.

(** The three patterns of the TypeScript lexer, fed the text [a/*/] with a
    reset in the middle. *)
Lemma matcher_multiple_matches_unreachable_witness :
  NoDup (recKeys TypeScriptTokenizer.patterns)
  /\ exists m, StringExpressionMatcher.constructor TypeScriptTokenizer.patterns = Ok m
               /\ exists r, run Ascii.eqb m
                                [Feed "a"%char; Feed "/"%char; Feed "*"%char; Reset;
                                 Feed "/"%char] = Ok r.
Proof.
  assert (Hnd : NoDup (recKeys TypeScriptTokenizer.patterns)).
  { repeat constructor; simpl; intuition discriminate. }
  split; [exact Hnd |].
  eexists. split; [reflexivity |].
  exact (proj2 matcher_multiple_matches_unreachable _ _ _ Hnd eq_refl).
Defined.

(* ================================================================== *)
(** ** The constructor of BracesMatcher *)

Lemma constructorLoop_bad_length (braces : list Braces) :
  forall (temp : list string) (o2c c2o : JsRecord string),
    (exists b, In b braces
               /\ (String.length (opening b) <> 1%nat \/ String.length (closing b) <> 1%nat)) ->
    exists e, BracesMatcher.constructorLoop braces temp o2c c2o = Throw e.
Proof.
  induction braces as [| brace rest IH]; intros temp o2c c2o [b [Hin Hbad]].
  - destruct Hin.
  - simpl.
    destruct (String.length (opening brace) =? 1)%nat eqn:E1; simpl; eauto.
    destruct (String.length (closing brace) =? 1)%nat eqn:E2; simpl; eauto.
    destruct (BracesMatcher.arrIncludes temp (opening brace)); eauto.
    destruct (BracesMatcher.arrIncludes (temp ++ [opening brace]) (closing brace)); eauto.
    apply IH. destruct Hin as [<- | Hin]; [| eauto].
    apply Nat.eqb_eq in E1. apply Nat.eqb_eq in E2. exfalso. tauto.
Qed.

Lemma arrIncludes_In (arr : list string) (x : string) :
  BracesMatcher.arrIncludes arr x = true <-> In x arr.
Proof.
  unfold BracesMatcher.arrIncludes. rewrite existsb_exists. split.
  - intros [y [Hy E]]. apply String.eqb_eq in E. now subst.
  - intros H. exists x. split; auto. apply String.eqb_refl.
Qed.

Lemma constructorLoop_repeated_opening (braces : list Braces) :
  forall (temp : list string) (o2c c2o : JsRecord string),
    (exists b, In b braces /\ In (opening b) temp) \/ ~ NoDup (map opening braces) ->
    exists e, BracesMatcher.constructorLoop braces temp o2c c2o = Throw e.
Proof.
  induction braces as [| brace rest IH]; intros temp o2c c2o H.
  - destruct H as [[b [[] _]] | H]; exfalso; apply H; constructor.
  - simpl.
    destruct (String.length (opening brace) =? 1)%nat; simpl; eauto.
    destruct (String.length (closing brace) =? 1)%nat; simpl; eauto.
    destruct (BracesMatcher.arrIncludes temp (opening brace)) eqn:E; eauto.
    destruct (BracesMatcher.arrIncludes (temp ++ [opening brace]) (closing brace)); eauto.
    apply IH.
    destruct H as [[b [[<- | Hin] Hb]] | H].
    + apply arrIncludes_In in Hb. congruence.
    + left. exists b. split; auto. apply in_app_iff. now left.
    + destruct (in_dec string_dec (opening brace) (map opening rest)) as [Hd | Hd].
      * left. apply in_map_iff in Hd. destruct Hd as [b [Hb Hin]].
        exists b. split; auto. rewrite Hb. apply in_app_iff. right. now left.
      * right. intros Hnd. apply H. simpl. now constructor.
Qed.

(** C8. The constructor of [BracesMatcher] throws on a character that is
    not one code unit long and on a repeated opening character, but it
    accepts two pairs with the same closing character, and a closing
    character that a later pair opens with. *)
Theorem BracesMatcher_constructor_misses_repeated_closing :
  (forall braces : list Braces,
      (exists b, In b braces
                 /\ (String.length (opening b) <> 1%nat \/ String.length (closing b) <> 1%nat)) ->
      exists e, BracesMatcher.constructor braces = Throw e)
  /\ (forall braces : list Braces,
         ~ NoDup (map opening braces) -> exists e, BracesMatcher.constructor braces = Throw e)
  /\ BracesMatcher.constructor [mkBraces "(" ")"; mkBraces "[" ")"]
     = Ok (BracesMatcher.mkBracesMatcher [("(", ")"); ("[", ")")] [(")", "[")] [])
  /\ BracesMatcher.constructor [mkBraces "(" ")"; mkBraces ")" "]"]
     = Ok (BracesMatcher.mkBracesMatcher [("(", ")"); (")", "]")] [(")", "("); ("]", ")")] []).
Proof.
  split; [| split; [| split]].
  - intros braces H. now apply constructorLoop_bad_length.
  - intros braces H. apply constructorLoop_repeated_opening. now right.
  - reflexivity.
  - reflexivity.
Qed.

(** Two pairs that open with the same character. *)
Lemma BracesMatcher_constructor_misses_repeated_closing_witness :
  ~ NoDup (map opening [mkBraces "(" ")"; mkBraces "(" "]"])
  /\ exists e, BracesMatcher.constructor [mkBraces "(" ")"; mkBraces "(" "]"] = Throw e.
Proof.
  assert (H : ~ NoDup (map opening [mkBraces "(" ")"; mkBraces "(" "]"])).
  { intros Hnd. inversion Hnd as [| ? ? Hnotin _]; subst. apply Hnotin. now left. }
  split; [exact H |].
  exact (proj1 (proj2 BracesMatcher_constructor_misses_repeated_closing) _ H).
Defined.

(* ================================================================== *)
(** ** parse on empty input *)

(** C10. On no lines at all, and on one line of length zero, [parse]
    throws the [CodeParsingError] for an empty source whatever the language
    is: no method of the language (tokenizer, [preparse], detectors, node
    factories) takes part in the result. The Python and the TypeScript
    parser are two instances. *)
Theorem parse_rejects_empty_input (codeLines : list string) :
  codeLines = [] \/ codeLines = [EmptyString] ->
  (forall (L : Language) (det : DetState L),
      AbstractParser.parse L det codeLines
      = Throw (CodeParsingError "Cannot parse empty string!"))
  /\ PythonParser.parse codeLines = Throw (CodeParsingError "Cannot parse empty string!")
  /\ TypeScriptParser.parse codeLines = Throw (CodeParsingError "Cannot parse empty string!").
Proof.
  intros [-> | ->]; repeat split; reflexivity.
Qed.

Lemma parse_rejects_empty_input_witness :
  PythonParser.parse [EmptyString] = Throw (CodeParsingError "Cannot parse empty string!").
Proof.
  exact (proj1 (proj2 (parse_rejects_empty_input [EmptyString] (or_intror eq_refl)))).
Defined.

(* ================================================================== *)
(** ** The lexer: AbstractTokenizer.next *)

Lemma tokensText_app (a b : list Token) :
  tokensText (a ++ b) = (tokensText a ++ tokensText b)%string.
Proof.
  induction a as [| t a IH]; simpl; auto.
  now rewrite IH, string_app_assoc.
Qed.

Lemma contiguous_app (a b : list Token) :
  forall start mid stop,
    contiguous start a mid -> contiguous mid b stop -> contiguous start (a ++ b) stop.
Proof.
  induction a as [| t a IH]; intros start mid stop Ha Hb; simpl in *.
  - now subst.
  - destruct Ha as [H1 [H2 [H3 H4]]]. repeat split; auto. eapply IH; eauto.
Qed.

Lemma contiguous_stop (toks : list Token) :
  forall start stop,
    contiguous start toks stop -> stop = (start + String.length (tokensText toks))%nat.
Proof.
  induction toks as [| t toks IH]; intros start stop H; simpl in *.
  - lia.
  - destruct H as [H1 [H2 [H3 H4]]]. apply IH in H4.
    rewrite string_length_app. lia.
Qed.

Lemma contiguous_one (start : nat) (contents : string) (ty : TokenType) :
  (1 <= String.length contents)%nat ->
  contiguous start
    [mkToken contents ty (mkCharacterRange start (start + String.length contents))]
    (start + String.length contents).
Proof.
  intros H. simpl. repeat split; auto.
Qed.

Section LexerStep.
Context {L : Lexer}.
Local Open Scope nat_scope.

(** One character: whatever the lexer answers, if [next] returns then the
    tokens and the buffer hold the characters fed so far. *)
Lemma next_char_inv (tk tk' : AbstractTokenizer.t L) (fed : list ascii) (c : ascii) :
  lexInv tk fed -> AbstractTokenizer.next tk (Some c) = Ok tk' -> lexInv tk' (fed ++ [c]).
Proof.
  intros [Hend [Htext [Hcont Hidx]]] H. subst fed.
  unfold AbstractTokenizer.next in H. rewrite Hend in H.
  bind_cases H. destruct a as [s' [mr |]].
  2:{ inv H. unfold lexInv. simpl. repeat split; auto.
      - rewrite chars_app, app_assoc. reflexivity.
      - rewrite string_length_app. simpl. lia. }
  destruct (TokenType_eqb (mrType mr) CONTINUATION); [discriminate |].
  set (buf := (stringBuffer (AbstractTokenizer.base tk) ++ String c EmptyString)%string) in *.
  assert (Hbuf : String.length buf = String.length (stringBuffer (AbstractTokenizer.base tk)) + 1).
  { subst buf. rewrite string_length_app. reflexivity. }
  assert (Hfed : Js.chars (tokensText (tokenString (AbstractTokenizer.base tk))) ++ Js.chars buf
                 = (Js.chars (tokensText (tokenString (AbstractTokenizer.base tk)))
                    ++ Js.chars (stringBuffer (AbstractTokenizer.base tk))) ++ [c]).
  { subst buf. rewrite chars_app, app_assoc. reflexivity. }
  destruct (singleChType mr) as [sct |].
  - set (k := match numSplitCharacters mr with Some k => k | None => 1 end) in *.
    destruct (k <? 1) eqn:Hk1; [discriminate |].
    destruct (charIdx (AbstractTokenizer.base tk) + 1 - tokStartIdx (AbstractTokenizer.base tk) <? k + 1)
      eqn:Hk2; [discriminate |].
    apply Nat.ltb_ge in Hk1, Hk2.
    assert (Hk : k + 1 <= String.length buf) by lia.
    pose proof (substring_head buf k ltac:(lia)) as Hhead.
    pose proof (substring_tail buf k ltac:(lia)) as Htail.
    set (head := Js.substring buf 0 (Js.len buf - Z.of_nat k)) in *.
    set (tail := Js.substring buf (Js.len buf - Z.of_nat k) (Js.len buf)) in *.
    assert (Hlh : String.length head = String.length buf - k).
    { rewrite <- length_chars, Hhead, length_firstn, length_chars. lia. }
    assert (Hlt : String.length tail = k).
    { rewrite <- length_chars, Htail, length_skipn, length_chars. lia. }
    assert (Hsplit : Js.chars head ++ Js.chars tail = Js.chars buf).
    { rewrite Hhead, Htail. apply firstn_skipn. }
    destruct (TokenType_eqb sct CONTINUATION); inv H; unfold lexInv; simpl.
    + repeat split; auto.
      * rewrite <- Hfed, tokensText_app. simpl. rewrite string_app_nil_r.
        now rewrite chars_app, <- app_assoc, Hsplit.
      * eapply contiguous_app; [exact Hcont |].
        simpl. repeat split; try lia.
      * lia.
    + repeat split; auto.
      * rewrite <- Hfed, tokensText_app. simpl. rewrite string_app_nil_r.
        now rewrite !chars_app, app_nil_r, Hsplit.
      * eapply contiguous_app; [exact Hcont |].
        simpl. repeat split; try lia.
  - inv H. unfold lexInv. simpl. repeat split; auto.
    + rewrite <- Hfed, tokensText_app. simpl. rewrite string_app_nil_r, app_nil_r.
      now rewrite chars_app.
    + eapply contiguous_app; [exact Hcont |].
      simpl. fold buf. repeat split; try lia.
Qed.

(** The end of the stream: [next(null)] returns, and the tokens are the
    characters fed, tiled from offset 0. *)
Lemma next_end_inv (tk : AbstractTokenizer.t L) (fed : list ascii) :
  lexInv tk fed ->
  exists tk', AbstractTokenizer.next tk None = Ok tk'
              /\ Js.chars (tokensText (AbstractTokenizer.getTokens tk')) = fed
              /\ contiguous 0 (AbstractTokenizer.getTokens tk') (List.length fed).
Proof.
  intros [Hend [Htext [Hcont Hidx]]].
  unfold AbstractTokenizer.next. rewrite Hend.
  eexists. split; [reflexivity |].
  unfold AbstractTokenizer.getTokens. simpl.
  pose proof (contiguous_stop _ _ _ Hcont) as Hstop. simpl in Hstop.
  assert (Hlen : List.length fed
                 = tokStartIdx (AbstractTokenizer.base tk)
                   + String.length (stringBuffer (AbstractTokenizer.base tk))).
  { rewrite <- Htext, length_app, !length_chars. lia. }
  destruct (tokStartIdx (AbstractTokenizer.base tk) <? charIdx (AbstractTokenizer.base tk)) eqn:E.
  - apply Nat.ltb_lt in E. split.
    + rewrite tokensText_app. simpl. rewrite string_app_nil_r, chars_app. exact Htext.
    + eapply contiguous_app; [exact Hcont |].
      simpl. repeat split; lia.
  - apply Nat.ltb_ge in E.
    assert (Hempty : stringBuffer (AbstractTokenizer.base tk) = EmptyString).
    { destruct (stringBuffer (AbstractTokenizer.base tk)); [reflexivity | simpl in *; lia]. }
    rewrite Hempty in *. simpl in *. rewrite app_nil_r in Htext.
    split; [exact Htext |].
    replace (List.length fed) with (tokStartIdx (AbstractTokenizer.base tk)) by lia.
    exact Hcont.
Qed.

Lemma initial_lexInv (s : LexState L) :
  lexInv (@AbstractTokenizer.mkTokenizer L AbstractTokenizer.emptyBase s) [].
Proof.
  unfold lexInv. simpl. repeat split; auto.
Qed.

(** A lexer with an invariant [J] under which [next] returns on every
    character. *)
Variable J : AbstractTokenizer.t L -> Prop.
Hypothesis J_step :
  forall tk fed c, lexInv tk fed -> J tk ->
                   exists tk', AbstractTokenizer.next tk (Some c) = Ok tk' /\ J tk'.

Lemma next_char_total (tk : AbstractTokenizer.t L) (fed : list ascii) (c : ascii) :
  lexInv tk fed -> J tk ->
  exists tk', AbstractTokenizer.next tk (Some c) = Ok tk' /\ lexInv tk' (fed ++ [c]) /\ J tk'.
Proof.
  intros Hinv HJ. destruct (J_step tk fed c Hinv HJ) as [tk' [Hnext HJ']].
  exists tk'. split; [exact Hnext | split; [eapply next_char_inv; eauto | exact HJ']].
Qed.

Lemma feed_total (input : list ascii) :
  forall (tk : AbstractTokenizer.t L) (fed : list ascii),
    lexInv tk fed -> J tk ->
    exists tk', AbstractTokenizer.feed tk input = Ok tk' /\ lexInv tk' (fed ++ input) /\ J tk'.
Proof.
  induction input as [| c input IH]; intros tk fed Hinv HJ; simpl.
  - exists tk. rewrite app_nil_r. auto.
  - destruct (next_char_total tk fed c Hinv HJ) as [tk1 [Hnext [Hinv1 HJ1]]].
    rewrite Hnext. simpl.
    destruct (IH tk1 _ Hinv1 HJ1) as [tk' [Hfeed [Hinv' HJ']]].
    exists tk'. rewrite <- app_assoc in Hinv'. auto.
Qed.

End LexerStep.

(* ================================================================== *)
(** ** The two lexers never throw *)

(** Turns the recorded outcomes of tests on lengths into arithmetic. *)
Ltac arith_tests :=
  repeat match goal with
         | H : (_ =? _)%nat = true |- _ => apply Nat.eqb_eq in H
         | H : (_ =? _)%nat = false |- _ => apply Nat.eqb_neq in H
         | H : (_ <? _)%nat = true |- _ => apply Nat.ltb_lt in H
         | H : (_ <? _)%nat = false |- _ => apply Nat.ltb_ge in H
         end.

(** Case analysis on every test and every matched value of the goal. *)
Ltac split_tests :=
  repeat (match goal with
          | |- context [if ?b then _ else _] =>
              let E := fresh "E" in destruct b eqn:E
          | |- context [match ?x with _ => _ end] =>
              let E := fresh "E" in destruct x eqn:E
          end; simpl in *; try discriminate).

Lemma python_lexer_step (tk : AbstractTokenizer.t PythonTokenizer.lexer)
  (fed : list ascii) (c : ascii) :
  lexInv tk fed -> pyInv tk ->
  exists tk', AbstractTokenizer.next tk (Some c) = Ok tk' /\ pyInv tk'.
Proof.
  intros [Hend [_ [_ Hidx]]] [Hc Hb].
  destruct tk as [[toks buf ci ts en] [comments status escape quotes]].
  simpl in *. subst en ci.
  unfold AbstractTokenizer.next. simpl.
  unfold PythonTokenizer.matchNext, PythonTokenizer.handleSingleQuoteSituation,
    PythonTokenizer.handleDoubleQuoteSituation, PythonTokenizer.handleTripleSingleQuoteSituation,
    PythonTokenizer.handleTripleDoubleQuoteSituation, PythonTokenizer.handleQuoteSituation,
    PythonTokenizer.handleTripleQuoteSituation, PythonTokenizer.handleOtherSituation,
    AbstractTokenizer.currentBufferSingleCharacter,
    PythonTokenizer.setStatus, PythonTokenizer.setEscape, PythonTokenizer.setCount,
    PythonTokenizer.setComments, pyInv.
  simpl.
  assert (Hlen : String.length (buf ++ String c EmptyString) = (String.length buf + 1)%nat)
    by (rewrite string_length_app; reflexivity).
  rewrite ?Hlen.
  destruct comments; [specialize (Hc eq_refl); subst status |];
    [assert (1 <= String.length buf)%nat by (apply Hb; now left)
    | destruct status;
      [| assert (1 <= String.length buf)%nat by (apply Hb; right; discriminate) ..]];
    clear Hb; try clear Hc;
    simpl; split_tests; arith_tests;
    try (exfalso; lia);
    (eexists; split; [reflexivity |]; simpl;
     split; [intros; try discriminate; try reflexivity
            | intros [? | ?]; try discriminate; try congruence;
              rewrite ?substring_last_length by (rewrite Hlen; lia);
              rewrite ?Hlen; simpl; try lia ]).
Qed.

Lemma typescript_lexer_step (tk : AbstractTokenizer.t TypeScriptTokenizer.lexer)
  (fed : list ascii) (c : ascii) :
  lexInv tk fed -> tsInv tk ->
  exists tk', AbstractTokenizer.next tk (Some c) = Ok tk' /\ tsInv tk'.
Proof.
  intros [Hend [_ [_ Hidx]]] [Hm [Hc Hb]].
  destruct tk as [[toks buf ci ts en] [comments status escape sm]].
  simpl in *. subst en ci.
  assert (Hlen : String.length (buf ++ String c EmptyString) = (String.length buf + 1)%nat)
    by (rewrite string_length_app; reflexivity).
  assert (Hslash : sm = afterSlash -> (1 <= String.length buf)%nat) by auto.
  assert (Hin : comments = true \/ status <> TypeScriptTokenizer.NONE
                -> (1 <= String.length buf)%nat) by (intros [? | ?]; auto).
  clear Hb.
  unfold AbstractTokenizer.next. simpl.
  unfold TypeScriptTokenizer.matchNext, StringExpressionMatcher.next, next.
  destruct Hm as [-> | [-> | ->]];
    (destruct (Ascii.eqb c "/"%char) eqn:E1;
     [ apply Ascii.eqb_eq in E1; subst c
     | destruct (Ascii.eqb c "*"%char) eqn:E2;
       [ apply Ascii.eqb_eq in E2; subst c | ] ]);
    unfold afterNothing, afterSlash, afterStar, tsMatcher in *; simpl;
    rewrite ?E1, ?E2; simpl;
    try (assert (1 <= String.length buf)%nat by (apply Hslash; reflexivity));
    clear Hslash;
    unfold TypeScriptTokenizer.handleSingleQuoteSituation,
      TypeScriptTokenizer.handleDoubleQuoteSituation, TypeScriptTokenizer.handleQuoteSituation,
      TypeScriptTokenizer.handleMultilineBackticksSituation,
      TypeScriptTokenizer.handleMultilineCommentsSituation,
      TypeScriptTokenizer.handleEqualsSituation, TypeScriptTokenizer.handleOtherSituation,
      AbstractTokenizer.currentBufferLength,
      TypeScriptTokenizer.setStatus, TypeScriptTokenizer.setEscape,
      TypeScriptTokenizer.setComments, TypeScriptTokenizer.setMatcher, tsInv;
    simpl; rewrite ?Hlen;
    (destruct comments; [specialize (Hc eq_refl); subst status |];
     [ assert (1 <= String.length buf)%nat by (apply Hin; now left)
     | destruct status;
       [| assert (1 <= String.length buf)%nat by (apply Hin; right; discriminate) ..]]);
    clear Hin; try clear Hc;
    simpl; split_tests; arith_tests;
    try (exfalso; lia);
    (eexists; split; [reflexivity |]; simpl;
     split; [auto |];
     split; [intros; try discriminate; try reflexivity
            | intros [? | [? | ?]]; try discriminate; try congruence;
              rewrite ?substring_last_length by (rewrite Hlen; lia);
              rewrite ?Hlen; simpl; try lia ]).
Qed.

(* ================================================================== *)
(** ** The front end of parse *)

Lemma chars_linesText (lines : list string) : Js.chars (linesText lines) = fedLines lines.
Proof.
  induction lines as [| l lines IH]; [reflexivity |].
  change (linesText (l :: lines)) with (l ++ Js.newline ++ linesText lines)%string.
  change (fedLines (l :: lines)) with ((Js.chars l ++ [Js.nl]) ++ fedLines lines).
  rewrite !chars_app, IH, <- app_assoc. reflexivity.
Qed.

Section FrontEnd.
Variable L : Language.
Variable J : AbstractTokenizer.t (lexer L) -> Prop.
Hypothesis J_step :
  forall tk fed c, lexInv tk fed -> J tk ->
                   exists tk', AbstractTokenizer.next tk (Some c) = Ok tk' /\ J tk'.

Lemma feedLine_total (chars : list ascii) :
  forall (lineIndex character_ : nat) (positionMap : list Index)
         (tk : AbstractTokenizer.t (lexer L)) (fed : list ascii),
    lexInv tk fed -> J tk ->
    exists positionMap' tk',
      AbstractParser.feedLine L lineIndex chars character_ positionMap tk = Ok (positionMap', tk')
      /\ lexInv tk' (fed ++ chars ++ [Js.nl]) /\ J tk'.
Proof.
  induction chars as [| c chars IH]; intros lineIndex character_ positionMap tk fed Hinv HJ; simpl.
  - destruct (next_char_total J J_step tk fed Js.nl Hinv HJ) as [tk' [Hnext [Hinv' HJ']]].
    rewrite Hnext. simpl. eauto.
  - destruct (next_char_total J J_step tk fed c Hinv HJ) as [tk1 [Hnext [Hinv1 HJ1]]].
    rewrite Hnext. simpl.
    destruct (IH lineIndex (S character_) (positionMap ++ [mkIndex lineIndex character_])
                 tk1 _ Hinv1 HJ1) as [pm' [tk' [Hfeed [Hinv' HJ']]]].
    rewrite Hfeed. exists pm', tk'. rewrite <- app_assoc in Hinv'. auto.
Qed.

Lemma feedLines_total (codeLines : list string) :
  forall (lineIndex : nat) (positionMap : list Index)
         (tk : AbstractTokenizer.t (lexer L)) (fed : list ascii),
    lexInv tk fed -> J tk ->
    exists positionMap' tk',
      AbstractParser.feedLines L codeLines lineIndex positionMap tk = Ok (positionMap', tk')
      /\ lexInv tk' (fed ++ fedLines codeLines) /\ J tk'.
Proof.
  induction codeLines as [| l codeLines IH]; intros lineIndex positionMap tk fed Hinv HJ; simpl.
  - exists positionMap, tk. unfold fedLines. simpl. rewrite app_nil_r. auto.
  - destruct (feedLine_total (Js.chars l) lineIndex 0%nat positionMap tk fed Hinv HJ)
      as [pm1 [tk1 [Hfeed [Hinv1 HJ1]]]].
    rewrite Hfeed. simpl.
    destruct (IH (S lineIndex) pm1 tk1 _ Hinv1 HJ1) as [pm' [tk' [Hfeeds [Hinv' HJ']]]].
    rewrite Hfeeds. exists pm', tk'.
    unfold fedLines in *. simpl. rewrite <- !app_assoc in *. auto.
Qed.

(** The front end returns, with tokens that tile the text of the lines. *)
Lemma tokenizeLines_total (det : DetState L) (tk0 : AbstractTokenizer.t (lexer L))
  (codeLines : list string) :
  preparseGetTokenizer L det = Ok tk0 -> lexInv tk0 [] -> J tk0 ->
  exists p, AbstractParser.tokenizeLines L det codeLines = Ok p
            /\ sourceLines p = codeLines
            /\ tokensText (sourceTokens p) = linesText codeLines
            /\ contiguous 0 (sourceTokens p) (String.length (linesText codeLines)).
Proof.
  intros Hget Hinv HJ. unfold AbstractParser.tokenizeLines. rewrite Hget. simpl.
  destruct (feedLines_total codeLines 0%nat [] tk0 [] Hinv HJ) as [pm [tk [Hfeed [Hinv' _]]]].
  rewrite Hfeed. simpl.
  destruct (next_end_inv tk _ Hinv') as [tk' [Hend [Htext Hcont]]].
  rewrite Hend. simpl. eexists. split; [reflexivity |]. simpl.
  split; [reflexivity |].
  change ([] ++ fedLines codeLines) with (fedLines codeLines) in *.
  rewrite <- chars_linesText in Htext, Hcont. rewrite length_chars in Hcont.
  split; [now apply chars_inj | exact Hcont].
Qed.

End FrontEnd.

Lemma python_tokenizer_initial :
  exists tk0, PythonTokenizer.constructor = Ok tk0 /\ lexInv tk0 [] /\ pyInv tk0.
Proof.
  eexists. split; [reflexivity |]. split; [apply initial_lexInv |].
  unfold pyInv. simpl. split; [discriminate | intros [? | ?]; [discriminate | congruence]].
Qed.

Lemma typescript_tokenizer_initial :
  exists tk0, TypeScriptTokenizer.constructor = Ok tk0 /\ lexInv tk0 [] /\ tsInv tk0.
Proof.
  eexists. split; [reflexivity |]. split; [apply initial_lexInv |].
  unfold tsInv. simpl. split; [now left |].
  split; [discriminate | intros [? | [? | ?]]; [discriminate | congruence | discriminate]].
Qed.

(** C5, as the code has it. For every list of lines the front end of
    [parse] returns, for the Python and for the TypeScript lexer; the texts
    of the tokens, put together, are the lines with a line feed after each
    of them, the last one included; the character ranges of the tokens tile
    the offsets from 0 to the length of that text. *)
Theorem lexing_reproduces_the_lines (codeLines : list string) :
  (forall st : PythonParser.State,
      exists p, AbstractParser.tokenizeLines PythonParser.language st codeLines = Ok p
                /\ tokensText (sourceTokens p) = linesText codeLines
                /\ contiguous 0 (sourceTokens p) (String.length (linesText codeLines)))
  /\ (forall st : TypeScriptParser.State,
         exists p, AbstractParser.tokenizeLines TypeScriptParser.language st codeLines = Ok p
                   /\ tokensText (sourceTokens p) = linesText codeLines
                   /\ contiguous 0 (sourceTokens p) (String.length (linesText codeLines))).
Proof.
  split; intros st.
  - destruct python_tokenizer_initial as [tk0 [H0 [Hinv HJ]]].
    destruct (tokenizeLines_total PythonParser.language pyInv python_lexer_step st tk0
                                  codeLines H0 Hinv HJ) as [p [Hp [_ [Ht Hc]]]].
    eauto.
  - destruct typescript_tokenizer_initial as [tk0 [H0 [Hinv HJ]]].
    destruct (tokenizeLines_total TypeScriptParser.language tsInv typescript_lexer_step st tk0
                                  codeLines H0 Hinv HJ) as [p [Hp [_ [Ht Hc]]]].
    eauto.
Qed.

(** C5 fails on sources. The source [a CR LF b], split into lines as
    [parsePython] and [parseTypeScript] split it, is lexed to [a LF b LF],
    which is neither the source nor the source with a line feed added. The
    source [a LF], whose last line has its line feed, is lexed to
    [a LF LF]. *)
Lemma lexing_changes_the_source :
  let crlf := ("a" ++ Js.cr ++ Js.newline ++ "b")%string in
  let terminated := ("a" ++ Js.newline)%string in
  (exists toks, lexPythonSource crlf = Ok toks
                /\ tokensText toks = ("a" ++ Js.newline ++ "b" ++ Js.newline)%string
                /\ tokensText toks <> crlf
                /\ tokensText toks <> (crlf ++ Js.newline)%string)
  /\ (exists toks, lexTypeScriptSource crlf = Ok toks
                   /\ tokensText toks = ("a" ++ Js.newline ++ "b" ++ Js.newline)%string
                   /\ tokensText toks <> crlf
                   /\ tokensText toks <> (crlf ++ Js.newline)%string)
  /\ (exists toks, lexPythonSource terminated = Ok toks
                   /\ tokensText toks = ("a" ++ Js.newline ++ Js.newline)%string
                   /\ tokensText toks <> terminated)
  /\ (exists toks, lexTypeScriptSource terminated = Ok toks
                   /\ tokensText toks = ("a" ++ Js.newline ++ Js.newline)%string
                   /\ tokensText toks <> terminated).
Proof.
  repeat split; eexists; (split; [vm_compute; reflexivity |]);
    repeat split; vm_compute; congruence.
Qed.

(** The lexers on their own, as [tokenizePython] and [tokenizeTypeScript]
    run them: the text of the tokens is the text that was fed. *)
Theorem tokenize_reproduces_the_text (x : string) :
  (exists toks, tokenizePython x = Ok toks
                /\ tokensText toks = x /\ contiguous 0 toks (String.length x))
  /\ (exists toks, tokenizeTypeScript x = Ok toks
                   /\ tokensText toks = x /\ contiguous 0 toks (String.length x)).
Proof.
  split.
  - destruct python_tokenizer_initial as [tk0 [H0 [Hinv HJ]]].
    unfold tokenizePython. rewrite H0. simpl.
    destruct (feed_total pyInv python_lexer_step (Js.chars x) tk0 [] Hinv HJ)
      as [tk [Hfeed [Hinv' _]]].
    rewrite Hfeed. simpl.
    destruct (next_end_inv tk _ Hinv') as [tk' [Hend [Htext Hcont]]].
    rewrite Hend. simpl. eexists. split; [reflexivity |].
    simpl in *. rewrite length_chars in Hcont. split; [now apply chars_inj | exact Hcont].
  - destruct typescript_tokenizer_initial as [tk0 [H0 [Hinv HJ]]].
    unfold tokenizeTypeScript. rewrite H0. simpl.
    destruct (feed_total tsInv typescript_lexer_step (Js.chars x) tk0 [] Hinv HJ)
      as [tk [Hfeed [Hinv' _]]].
    rewrite Hfeed. simpl.
    destruct (next_end_inv tk _ Hinv') as [tk' [Hend [Htext Hcont]]].
    rewrite Hend. simpl. eexists. split; [reflexivity |].
    simpl in *. rewrite length_chars in Hcont. split; [now apply chars_inj | exact Hcont].
Qed.

(* ================================================================== *)
(** ** A Python statement over two lines *)

(** C9, as the code has it. With the second line indented by two spaces,
    the statement [x = (1 +], [  2)] is one [STATEMENTS_FILLER] over the
    tokens 0 to 12, the line feed inside the brackets (token 8) included;
    the line feed after it is a [FILLER]; the tree is the root alone. *)
Theorem python_statement_across_lines :
  pythonTopLevelSymbols ["x = (1 +"; "  2)"]
  = Ok ([T STATEMENTS_FILLER; T FILLER], [mkTokenRange 0 13; mkTokenRange 13 14])
  /\ PythonParser.parse ["x = (1 +"; "  2)"]
     = Ok (AbstractSyntaxTree.mkAST [SyntaxNode.new TopLevel (mkRange 0 0 2 0)] 0%nat
                                    ["x = (1 +"; "  2)"]).
Proof.
  split; vm_compute; reflexivity.
Qed.

(** C9 fails as stated. With the second line indented by one space,
    [preparse] finds no indentation step and [parse] throws. *)
Lemma python_statement_one_space_rejected :
  PythonParser.parse ["x = (1 +"; " 2)"]
  = Throw (CodeParsingError
             "Unable to detect a consistent indentation step within the allowed threshold.").
Proof.
  vm_compute. reflexivity.
Qed.

(* ================================================================== *)
(** ** A TypeScript function with a comment before it *)

(** A comment that is the first child of its parent is always emitted at
    the fidelity [FUNCTIONS_AND_CLASSES]. *)
Lemma first_comment_is_emitted (excl : bool) (tree : AbstractSyntaxTree.t)
  (prevEndIndex : Index) (node : NodeId) (n : SyntaxNode.t) (depth : nat)
  (tokenText : TextRange) (pre suf : option TextRange) (r : Index * Conversion) :
  Heap.get (AbstractSyntaxTree.store tree) node = Ok n ->
  SyntaxNode.isComments n = true -> SyntaxNode.siblingRank n = 0%nat -> depth <> 0%nat ->
  ASTFaithfulTokenizer.convertFunctionsAndClasses excl tree prevEndIndex node depth
                                                  tokenText pre suf = Ok r ->
  exists fill,
    prefixTokens (snd r)
    = Some (fill ++ [ASTFaithfulTokenizer.tokenOf tokenText TreeTokenType.COMMENTS node]).
Proof.
  intros Hget Hc Hrank Hdepth H.
  unfold ASTFaithfulTokenizer.convertFunctionsAndClasses in H.
  destruct (depth =? 0)%nat eqn:E; [apply Nat.eqb_eq in E; contradiction |].
  rewrite Hget in H. simpl in H.
  unfold SyntaxNode.isComments in Hc.
  destruct (SyntaxNode.kind n); try discriminate.
  bind_cases H. rewrite Hrank in H. simpl in H.
  rewrite !orb_true_r in H.
  unfold ASTFaithfulTokenizer.prefixOnly, ASTFaithfulTokenizer.getPrefixTokens in H.
  bind_cases H. destruct a0 as [idx toks]. inv H. simpl.
  bind_cases E1. inv E1.
  destruct (Utils.compare prevEndIndex (Utils.rangeToStartIndex (textRange tokenText)) =? 1);
    [discriminate |].
  destruct (Utils.compare prevEndIndex (Utils.rangeToStartIndex (textRange tokenText)) =? -1).
  - bind_cases E2. inv E2. eexists [_]. reflexivity.
  - inv E2. exists []. reflexivity.
Qed.

(** A comment that comes later among the children of a [FunctionGroups]
    node is not emitted at that fidelity when inner ranges are kept. *)
Lemma later_comment_is_skipped (tree : AbstractSyntaxTree.t)
  (prevEndIndex : Index) (node : NodeId) (n : SyntaxNode.t) (depth : nat)
  (tokenText : TextRange) (pre suf : option TextRange) :
  Heap.get (AbstractSyntaxTree.store tree) node = Ok n ->
  SyntaxNode.isComments n = true -> SyntaxNode.siblingRank n <> 0%nat -> depth <> 0%nat ->
  ASTFaithfulTokenizer.parentIs tree node SyntaxNode.isFunctionGroups = Ok true ->
  ASTFaithfulTokenizer.convertFunctionsAndClasses false tree prevEndIndex node depth
                                                  tokenText pre suf
  = Ok (prevEndIndex, ASTFaithfulTokenizer.terminateOnly).
Proof.
  intros Hget Hc Hrank Hdepth Hp.
  unfold ASTFaithfulTokenizer.convertFunctionsAndClasses.
  destruct (depth =? 0)%nat eqn:E; [apply Nat.eqb_eq in E; contradiction |].
  rewrite Hget. simpl.
  unfold SyntaxNode.isComments in Hc.
  destruct (SyntaxNode.kind n); try discriminate.
  rewrite Hp. simpl.
  destruct (SyntaxNode.siblingRank n =? 0)%nat eqn:E'; [apply Nat.eqb_eq in E'; contradiction |].
  reflexivity.
Qed.

(** C4, as the code has it. With a body that is not empty, [{ }], the
    comment and the function are the two children of a [FunctionGroups]
    node, the comment first (its contents keep the second star and the
    blanks); at the fidelity [FUNCTIONS_AND_CLASSES] with inner ranges
    kept, the comment has a token of its own, before the token of the
    function. At that fidelity a comment that is a first child is always
    emitted; the comment that is skipped is one that comes later in a
    [FunctionGroups] node, as the doc comment of a Python function does. *)
Theorem typescript_comment_before_function :
  (TypeScriptParser.parse ["/** hello */"; "function f() { }"] = Ok commentedFunctionTree
   /\ flattenFaithfully commentedFunctionTree TokenizationMode.FUNCTIONS_AND_CLASSES false
      = Ok [TreeToken.mkTreeToken "/** hello */" TreeTokenType.COMMENTS
                                  (Some (mkRange 0 0 0 12)) (Some 1%nat);
            TreeToken.mkTreeToken Js.newline TreeTokenType.OTHERS
                                  (Some (mkRange 0 12 1 0)) None;
            TreeToken.mkTreeToken "function f() { }" TreeTokenType.FUNCTION
                                  (Some (mkRange 1 0 1 16)) (Some 2%nat);
            TreeToken.mkTreeToken Js.newline TreeTokenType.OTHERS
                                  (Some (mkRange 1 16 2 0)) None])
  /\ (forall excl tree prevEndIndex node n depth tokenText pre suf r,
         Heap.get (AbstractSyntaxTree.store tree) node = Ok n ->
         SyntaxNode.isComments n = true -> SyntaxNode.siblingRank n = 0%nat -> depth <> 0%nat ->
         ASTFaithfulTokenizer.convertFunctionsAndClasses excl tree prevEndIndex node depth
                                                         tokenText pre suf = Ok r ->
         exists fill,
           prefixTokens (snd r)
           = Some (fill ++ [ASTFaithfulTokenizer.tokenOf tokenText TreeTokenType.COMMENTS node]))
  /\ (forall tree prevEndIndex node n depth tokenText pre suf,
         Heap.get (AbstractSyntaxTree.store tree) node = Ok n ->
         SyntaxNode.isComments n = true -> SyntaxNode.siblingRank n <> 0%nat -> depth <> 0%nat ->
         ASTFaithfulTokenizer.parentIs tree node SyntaxNode.isFunctionGroups = Ok true ->
         ASTFaithfulTokenizer.convertFunctionsAndClasses false tree prevEndIndex node depth
                                                         tokenText pre suf
         = Ok (prevEndIndex, ASTFaithfulTokenizer.terminateOnly))
  /\ (exists tree,
         PythonParser.parse ["def f():"; "    '''doc'''"; "    return 1"] = Ok tree
         /\ flattenFaithfully tree TokenizationMode.FUNCTIONS_AND_CLASSES false
            = Ok [TreeToken.mkTreeToken
                    ("def f():" ++ Js.newline ++ "    '''doc'''" ++ Js.newline ++ "    return 1")
                    TreeTokenType.FUNCTION (Some (mkRange 0 0 2 12)) (Some 1%nat);
                  TreeToken.mkTreeToken Js.newline TreeTokenType.OTHERS
                                        (Some (mkRange 2 12 3 0)) None]).
Proof.
  split; [| split; [| split]].
  - split; vm_compute; reflexivity.
  - exact first_comment_is_emitted.
  - exact later_comment_is_skipped.
  - eexists. split; [vm_compute; reflexivity |]. vm_compute. reflexivity.
Qed.

(** The comment of the example is a first child, and the general part of
    the theorem gives its token. *)
Lemma typescript_comment_before_function_witness :
  exists n r,
    Heap.get (AbstractSyntaxTree.store commentedFunctionTree) 1%nat = Ok n
    /\ SyntaxNode.isComments n = true /\ SyntaxNode.siblingRank n = 0%nat
    /\ ASTFaithfulTokenizer.convertFunctionsAndClasses false commentedFunctionTree
         (mkIndex 0 0) 1%nat 2%nat (mkTextRange "/** hello */" (mkRange 0 0 0 12)) None None
       = Ok r
    /\ exists fill,
         prefixTokens (snd r)
         = Some (fill ++ [ASTFaithfulTokenizer.tokenOf
                            (mkTextRange "/** hello */" (mkRange 0 0 0 12))
                            TreeTokenType.COMMENTS 1%nat]).
Proof.
  eexists. eexists.
  split; [vm_compute; reflexivity |].
  split; [reflexivity |]. split; [reflexivity |].
  split; [vm_compute; reflexivity |].
  eapply (proj1 (proj2 typescript_comment_before_function))
    with (tree := commentedFunctionTree) (depth := 2%nat) (excl := false)
         (prevEndIndex := mkIndex 0 0) (pre := None) (suf := None);
    [ vm_compute; reflexivity | reflexivity | reflexivity | discriminate
    | vm_compute; reflexivity ].
Defined.

(** C4 fails as stated. With the body [{}] the function is not recognised:
    the tree is the root with the comment as its only child, there is no
    [FunctionGroups] node and no [Functions] node, and the comment has a
    token of its own at the fidelity [FUNCTIONS_AND_CLASSES]. *)
Lemma typescript_empty_body_is_no_function :
  exists tree,
    TypeScriptParser.parse ["/** hello */"; "function f() {}"] = Ok tree
    /\ AbstractSyntaxTree.store tree
       = [SyntaxNode.mkNode TopLevel (mkRange 0 0 2 0) None [1%nat] None 0;
          SyntaxNode.mkNode (Comments true "* hello ") (mkRange 0 0 0 12) None []
                            (Some 0%nat) 0]
    /\ flattenFaithfully tree TokenizationMode.FUNCTIONS_AND_CLASSES false
       = Ok [TreeToken.mkTreeToken "/** hello */" TreeTokenType.COMMENTS
                                   (Some (mkRange 0 0 0 12)) (Some 1%nat);
             TreeToken.mkTreeToken (Js.newline ++ "function f() {}" ++ Js.newline)
                                   TreeTokenType.OTHERS (Some (mkRange 0 12 2 0)) None].
Proof.
  eexists. split; [vm_compute; reflexivity |]. split; vm_compute; reflexivity.
Qed.

(* ================================================================== *)
(** ** The text of a range *)

Section SourceText.
Local Open Scope nat_scope.

Lemma fedLines_app (a b : list string) : fedLines (a ++ b) = fedLines a ++ fedLines b.
Proof.
  unfold fedLines. now rewrite map_app, concat_app.
Qed.

Lemma fedLines_cons (l : string) (rest : list string) :
  fedLines (l :: rest) = Js.chars l ++ [Js.nl] ++ fedLines rest.
Proof.
  unfold fedLines. simpl. now rewrite <- app_assoc.
Qed.

Lemma chars_join (x : string) (mid : list string) (z : string) :
  Js.chars (Js.join Js.newline (x :: mid ++ [z]))
  = Js.chars x ++ [Js.nl] ++ fedLines mid ++ Js.chars z.
Proof.
  revert x. induction mid as [| m mid IH]; intros x.
  - simpl. rewrite !chars_app. reflexivity.
  - change (Js.join Js.newline (x :: (m :: mid) ++ [z]))
      with (x ++ Js.newline ++ Js.join Js.newline (m :: mid ++ [z]))%string.
    rewrite !chars_app, IH, fedLines_cons.
    change (Js.chars Js.newline) with [Js.nl].
    simpl. rewrite <- !app_assoc. reflexivity.
Qed.

Lemma setLast_snoc (f : string -> string) (a : string) (mid : list string) (y : string) :
  AbstractSyntaxTree.setLast (a :: mid ++ [y]) f = a :: mid ++ [f y].
Proof.
  revert a. induction mid as [| m mid IH]; intros a; [reflexivity |].
  change (AbstractSyntaxTree.setLast (a :: (m :: mid) ++ [y]) f)
    with (a :: AbstractSyntaxTree.setLast (m :: mid ++ [y]) f).
  now rewrite IH.
Qed.

Lemma chars_substringFrom (s : string) (a : nat) :
  a <= String.length s -> Js.chars (Js.substringFrom s (Z.of_nat a)) = skipn a (Js.chars s).
Proof.
  intros H. unfold Js.substringFrom, Js.len.
  rewrite substring_inside by lia. rewrite chars_str.
  apply firstn_all2. rewrite length_skipn, length_chars. lia.
Qed.

Lemma chars_substring_to (s : string) (b : nat) :
  b <= String.length s -> Js.chars (Js.substring s 0 (Z.of_nat b)) = firstn b (Js.chars s).
Proof.
  intros H. change 0%Z with (Z.of_nat 0).
  rewrite substring_inside by lia. rewrite chars_str. simpl. now rewrite Nat.sub_0_r.
Qed.

Lemma chars_substring (s : string) (a b : nat) :
  a <= b -> b <= String.length s ->
  Js.chars (Js.substring s (Z.of_nat a) (Z.of_nat b)) = firstn (b - a) (skipn a (Js.chars s)).
Proof.
  intros Ha Hb. rewrite substring_inside by lia. apply chars_str.
Qed.

(** [getSourceText], when it returns, returns the characters between the
    flat offsets of its two ends. *)
Lemma getSourceText_flat (lines : list string) (sl sc el ec : nat) (s : string) :
  AbstractSyntaxTree.getSourceText lines sl sc el ec = Ok s ->
  offset lines sl sc <= offset lines el ec
  /\ offset lines el ec <= List.length (fedLines lines)
  /\ Js.chars s = flatSlice lines (offset lines sl sc) (offset lines el ec).
Proof.
  unfold AbstractSyntaxTree.getSourceText, offset, flatSlice.
  intros H.
  destruct ((List.length lines <? el) || (el <? sl) || ((sl =? el) && (ec <? sc))) eqn:C1;
    [discriminate |].
  apply orb_false_iff in C1. destruct C1 as [C1 C3].
  apply orb_false_iff in C1. destruct C1 as [C1 C2].
  apply Nat.ltb_ge in C1, C2.
  destruct (((el =? List.length lines) && negb (ec =? 0))
            || ((el <? List.length lines)
                && (String.length (nth el lines EmptyString) <? ec))) eqn:C4;
    [discriminate |].
  apply orb_false_iff in C4. destruct C4 as [C4 C5].
  destruct (nth_error lines sl) as [firstLine |] eqn:Hfirst; [| discriminate].
  destruct (String.length firstLine <? sc) eqn:C6; [discriminate |].
  apply Nat.ltb_ge in C6.
  destruct (nth_error_split lines sl Hfirst) as [pre [rest [Hlines Hpre]]].
  assert (Hsl : sl < List.length lines) by (apply nth_error_Some; congruence).
  assert (Hfpre : firstn sl lines = pre).
  { subst lines sl. now rewrite firstn_app, Nat.sub_diag, firstn_all, app_nil_r. }
  rewrite Hfpre.
  destruct (Nat.eq_dec el sl) as [-> | Hne].
  - (* one line *)
    rewrite Nat.eqb_refl in C3. simpl in C3. apply Nat.ltb_ge in C3.
    rewrite Hfpre.
    assert (Hec : ec <= String.length firstLine).
    { destruct (sl <? List.length lines) eqn:E; [| apply Nat.ltb_ge in E; lia].
      simpl in C5. apply Nat.ltb_ge in C5.
      rewrite (nth_error_nth _ _ _ Hfirst) in C5. exact C5. }
    assert (Hslice : Js.slice lines sl (Nat.min (sl + 1) (List.length lines)) = [firstLine]).
    { unfold Js.slice. rewrite Nat.min_l by lia.
      replace (sl + 1 - sl) with 1 by lia.
      subst lines sl. rewrite skipn_app, Nat.sub_diag, skipn_all. reflexivity. }
    rewrite Hslice in H.
    destruct (sl =? List.length lines) eqn:E; [apply Nat.eqb_eq in E; lia |].
    simpl in H. inv H.
    split; [lia |]. split.
    + rewrite fedLines_app, fedLines_cons, !length_app, length_chars. lia.
    + rewrite chars_substring by assumption.
      rewrite fedLines_app, fedLines_cons.
      rewrite skipn_app.
      replace (skipn (List.length (fedLines pre) + sc) (fedLines pre)) with (@nil ascii)
        by (symmetry; apply skipn_all2; lia).
      replace (List.length (fedLines pre) + sc - List.length (fedLines pre)) with sc by lia.
      simpl. rewrite skipn_app, firstn_app.
      rewrite length_skipn, length_chars.
      replace (List.length (fedLines pre) + ec - (List.length (fedLines pre) + sc))
        with (ec - sc) by lia.
      replace (ec - sc - (String.length firstLine - sc)) with 0 by lia.
      rewrite firstn_O, app_nil_r. reflexivity.
  - (* several lines *)
    assert (Hlt : sl < el) by lia.
    destruct (sl =? el) eqn:E; [apply Nat.eqb_eq in E; lia |]. clear C3 E.
    assert (Hrest : List.length rest = List.length lines - sl - 1).
    { subst lines. rewrite length_app. simpl. lia. }
    set (mid := firstn (el - sl - 1) rest).
    set (post := skipn (el - sl - 1) rest).
    assert (Hsplit : rest = mid ++ post) by (symmetry; apply firstn_skipn).
    assert (Hmid : List.length mid = el - sl - 1).
    { unfold mid. rewrite length_firstn. lia. }
    assert (Hfel : firstn el lines = pre ++ firstLine :: mid).
    { rewrite Hlines. rewrite firstn_app.
      replace (firstn el pre) with pre by (symmetry; apply firstn_all2; lia).
      f_equal. rewrite Hpre. replace (el - sl) with (S (el - sl - 1)) by lia.
      reflexivity. }
    rewrite Hfel.
    assert (Hy : exists y,
               Js.slice lines sl (Nat.min (el + 1) (List.length lines))
               ++ (if el =? List.length lines then [EmptyString] else [])
               = firstLine :: mid ++ [y]
               /\ ec <= String.length y
               /\ firstn ec (Js.chars y ++ [Js.nl] ++ fedLines (skipn 1 post))
                  = firstn ec (Js.chars y)
               /\ (el = List.length lines -> post = [] /\ ec = 0)
               /\ (el < List.length lines -> post = y :: skipn 1 post)).
    { destruct (el =? List.length lines) eqn:E.
      - apply Nat.eqb_eq in E. exists EmptyString.
        simpl in C4. apply negb_false_iff in C4. apply Nat.eqb_eq in C4. subst ec.
        assert (Hpost : post = []).
        { unfold post. apply skipn_all2. lia. }
        repeat split; auto; try lia.
        unfold Js.slice. rewrite Nat.min_r by lia.
        rewrite Hlines at 2. rewrite skipn_app.
        replace (skipn sl pre) with (@nil string) by (symmetry; apply skipn_all2; lia).
        rewrite Hpre, Nat.sub_diag. simpl.
        rewrite firstn_all2 by (simpl; lia).
        rewrite Hsplit at 1. rewrite Hpost, app_nil_r. reflexivity.
      - apply Nat.eqb_neq in E.
        assert (Hel : el < List.length lines) by lia.
        destruct post as [| y post'] eqn:Hpost.
        { exfalso. assert (List.length rest = List.length mid) by (rewrite Hsplit, app_nil_r; reflexivity).
          lia. }
        exists y.
        assert (Hnth : nth el lines EmptyString = y).
        { rewrite Hlines. rewrite app_nth2 by lia. rewrite Hpre.
          replace (el - sl) with (S (el - sl - 1)) by lia. simpl.
          rewrite Hsplit. rewrite app_nth2 by lia. rewrite Hmid, Nat.sub_diag. reflexivity. }
        destruct (el <? List.length lines) eqn:E2; [| apply Nat.ltb_ge in E2; lia].
        simpl in C5. apply Nat.ltb_ge in C5. rewrite Hnth in C5.
        repeat split; auto; try lia.
        + unfold Js.slice. rewrite Nat.min_l by lia.
          rewrite Hlines at 1. rewrite skipn_app.
          replace (skipn sl pre) with (@nil string) by (symmetry; apply skipn_all2; lia).
          rewrite Hpre, Nat.sub_diag. simpl.
          replace (el + 1 - sl) with (S (List.length mid + 1)) by lia.
          rewrite app_nil_r. simpl. f_equal. rewrite Hsplit, firstn_app.
          rewrite firstn_all2 by lia.
          replace (List.length mid + 1 - List.length mid) with 1 by lia.
          reflexivity.
        + rewrite firstn_app, length_chars.
          replace (ec - String.length y) with 0 by lia.
          now rewrite firstn_O, app_nil_r. }
    destruct Hy as [y [Hls [Hec [Hfirstn [Hend Hin]]]]].
    rewrite Hls in H.
    assert (Hres : s = Js.join Js.newline
                         (Js.substringFrom firstLine (Z.of_nat sc)
                          :: mid ++ [Js.substring y 0 (Z.of_nat ec)])).
    { destruct (mid ++ [y]) as [| m0 l0] eqn:Em; [destruct mid; discriminate |].
      rewrite <- Em in H. simpl AbstractSyntaxTree.setFirst in H.
      rewrite setLast_snoc in H.
      destruct (mid ++ [Js.substring y 0 (Z.of_nat ec)]) as [| m1 l1] eqn:Em1;
        [destruct mid; discriminate |].
      congruence. }
    subst s. rewrite chars_join, chars_substringFrom, chars_substring_to by assumption.
    assert (HF : fedLines lines
                 = fedLines pre ++ Js.chars firstLine ++ [Js.nl] ++ fedLines mid ++ fedLines post).
    { rewrite Hlines, Hsplit, fedLines_app, fedLines_cons, fedLines_app. reflexivity. }
    rewrite fedLines_app, fedLines_cons, !length_app, length_chars. simpl List.length.
    split; [lia |]. split.
    + rewrite HF, !length_app, length_chars. simpl List.length.
      destruct (Nat.eq_dec el (List.length lines)) as [He | He].
      * destruct (Hend He) as [_ ->]. lia.
      * rewrite (Hin ltac:(lia)), fedLines_cons, !length_app, length_chars. lia.
    + rewrite HF.
      rewrite skipn_app.
      replace (skipn (List.length (fedLines pre) + sc) (fedLines pre)) with (@nil ascii)
        by (symmetry; apply skipn_all2; lia).
      replace (List.length (fedLines pre) + sc - List.length (fedLines pre)) with sc by lia.
      rewrite app_nil_l.
      rewrite skipn_app, length_chars.
      replace (sc - String.length firstLine) with 0 by lia.
      rewrite skipn_O.
      rewrite firstn_app, length_skipn, length_chars.
      rewrite (firstn_all2 (skipn sc (Js.chars firstLine)))
        by (rewrite length_skipn, length_chars; lia).
      f_equal.
      replace (List.length (fedLines pre) + (String.length firstLine + (1 + List.length (fedLines mid))) + ec
               - (List.length (fedLines pre) + sc) - (String.length firstLine - sc))
        with (1 + (List.length (fedLines mid) + ec)) by lia.
      simpl. f_equal.
      rewrite firstn_app.
      rewrite (firstn_all2 (fedLines mid)) by lia.
      f_equal.
      replace (List.length (fedLines mid) + ec - List.length (fedLines mid)) with ec by lia.
      destruct (Nat.eq_dec el (List.length lines)) as [He | He].
      * destruct (Hend He) as [-> ->]. simpl. now destruct (Js.chars y).
      * rewrite (Hin ltac:(lia)), fedLines_cons. symmetry. exact Hfirstn.
Qed.

End SourceText.

(* ================================================================== *)
(** ** The faithful tokenizer spells the text *)

Section FaithfulText.
Local Open Scope nat_scope.


Lemma firstn_extend {A : Type} (l : list A) (a b : nat) :
  a <= b -> firstn a l ++ firstn (b - a) (skipn a l) = firstn b l.
Proof.
  revert a b. induction l as [| x l IH]; intros a b H.
  - now rewrite skipn_nil, !firstn_nil.
  - destruct a as [| a].
    + simpl. now rewrite Nat.sub_0_r.
    + destruct b as [| b]; [lia |]. simpl. f_equal. apply IH. lia.
Qed.

Variable tree : AbstractSyntaxTree.t.
Let lines := AbstractSyntaxTree.sourceLines tree.















Section Walk.
Variable mode : TokenizationMode.t.
Variable excl : bool.
Hypothesis Hmode : mode <> TokenizationMode.NONE.
Let K := ASTFaithfulTokenizer.class mode excl.




End Walk.







End FaithfulText.

(* ================================================================== *)
(** ** The parser never moves a node *)

Section HeapFacts.
Local Open Scope nat_scope.

Lemma get_Ok (st : Store) (id : NodeId) (n : SyntaxNode.t) :
  Heap.get st id = Ok n <-> nth_error st id = Some n.
Proof.
  unfold Heap.get. destruct (nth_error st id); split; intros H; inv H; reflexivity.
Qed.

Lemma length_set (st : Store) (id : NodeId) (n : SyntaxNode.t) :
  List.length (Heap.set st id n) = List.length st.
Proof.
  revert id. induction st as [| m st IH]; intros [| id]; simpl; auto.
Qed.

Lemma nth_error_set_same (st : Store) (id : NodeId) (n : SyntaxNode.t) :
  id < List.length st -> nth_error (Heap.set st id n) id = Some n.
Proof.
  revert id. induction st as [| m st IH]; intros [| id] H; simpl in *; try lia; auto.
  apply IH. lia.
Qed.

Lemma nth_error_set_other (st : Store) (id j : NodeId) (n : SyntaxNode.t) :
  j <> id -> nth_error (Heap.set st id n) j = nth_error st j.
Proof.
  revert id j. induction st as [| m st IH]; intros [| id] [| j] H; simpl; auto.
  congruence.
Qed.







End HeapFacts.

Section ParserKeepsRanges.
Variable L : Language.









Lemma parseNonTerminal_S (fuel : nat) (p : ParserBase) (nonTerminal : NonTerminal)
  (parent : NodeId) (tokRange : TokenRange) (depth : Z) (ps : AbstractParser.PState L) :
  AbstractParser.parseNonTerminal L (S fuel) p nonTerminal parent tokRange depth ps
  = ('(acc, det) <- AbstractParser.detectSymbols L p nonTerminal tokRange depth
                                                  (AbstractParser.psDet L ps) ;;
     '(st, childNodes) <- AbstractParser.resolveAll L p (AbstractParser.state acc)
                            (AbstractParser.symbolRange acc)
                            (AbstractParser.nodeCreationInformationArr acc)
                            (AbstractParser.psStore L ps) ;;
     if NonTerminal_eqb nonTerminal FUNCTIONS then
       let '(first, last) := AbstractParser.getFirstLast (AbstractParser.state acc) in
       match Js.nthZ childNodes first, Js.nthZ (AbstractParser.ntParseRange acc) first,
             Js.nthZ (AbstractParser.ntParseRange acc) last with
       | Some (Some declaration), Some (Some declarationRange), Some (Some bodyRange) =>
           st <- Heap.addChild st parent declaration ;;
           ps <- AbstractParser.parseNonTerminal L fuel p FUNCTION_DECLARATION declaration
                   declarationRange (depth + 1) (AbstractParser.mkPState L st det) ;;
           AbstractParser.parseNonTerminal L fuel p FUNCTION_BODY parent bodyRange
                                           (depth + 1) ps
       | _, _, _ => Throw AbstractParser.undefinedError
       end
     else
       st <- AbstractParser.attachChildren L nonTerminal parent (AbstractParser.state acc)
                                           childNodes st ;;
       AbstractParser.recurseChildren L (AbstractParser.parseNonTerminal L fuel p) parent depth
         (AbstractParser.state acc) childNodes (AbstractParser.ntParseRange acc)
         (AbstractParser.mkPState L st det)).
Proof. reflexivity. Qed.



End ParserKeepsRanges.

(* ================================================================== *)
(** ** Flattening a parsed tree *)


(* ================================================================== *)
(** ** The round trip through the tree *)



Lemma python_parse_inv (codeLines : list string) (tree : AbstractSyntaxTree.t) :
  PythonParser.parse codeLines = Ok tree ->
  exists det, AbstractParser.parse PythonParser.language det codeLines = Ok tree.
Proof.
  unfold PythonParser.parse. intros H.
  destruct PythonParser.constructor as [det |]; [| discriminate]. eauto.
Qed.

Lemma typescript_parse_inv (codeLines : list string) (tree : AbstractSyntaxTree.t) :
  TypeScriptParser.parse codeLines = Ok tree ->
  exists det, AbstractParser.parse TypeScriptParser.language det codeLines = Ok tree.
Proof.
  unfold TypeScriptParser.parse. intros H.
  destruct TypeScriptParser.constructor as [det |]; [| discriminate]. eauto.
Qed.




(* ================================================================== *)
(** ** What the operations of the heap change *)

Section HeapView.
Local Open Scope nat_scope.

Lemma tagOf_Some (st : Store) (id : NodeId) (t : Tag) :
  tagOf st id = Some t -> id < List.length st.
Proof.
  unfold tagOf. intros H. apply nth_error_Some. destruct (nth_error st id); congruence.
Qed.

Lemma tagOf_lt (st : Store) (id : NodeId) :
  id < List.length st -> exists t, tagOf st id = Some t.
Proof.
  unfold tagOf. intros H. apply nth_error_Some in H.
  destruct (nth_error st id); [eauto | congruence].
Qed.

Lemma tagOf_get (st : Store) (id : NodeId) (n : SyntaxNode.t) :
  Heap.get st id = Ok n -> tagOf st id = Some (tag (SyntaxNode.kind n)).
Proof. intros H. apply get_Ok in H. unfold tagOf. now rewrite H. Qed.

Lemma sameView_refl (st : Store) : sameView st st.
Proof. split; [reflexivity | intros id; repeat split]. Qed.

Lemma sameView_trans (a b c : Store) : sameView a b -> sameView b c -> sameView a c.
Proof.
  intros [L1 H1] [L2 H2]. split; [congruence |]. intros id.
  destruct (H1 id) as (A1 & A2 & A3 & A4 & A5).
  destruct (H2 id) as (B1 & B2 & B3 & B4 & B5).
  repeat split; congruence.
Qed.

Lemma view_set (st : Store) (id : NodeId) (old n : SyntaxNode.t) (j : NodeId) :
  nth_error st id = Some old ->
  nth_error (Heap.set st id n) j = if j =? id then Some n else nth_error st j.
Proof.
  intros Hold. destruct (Nat.eqb_spec j id) as [-> | Hne].
  - apply nth_error_set_same. apply nth_error_Some. congruence.
  - now apply nth_error_set_other.
Qed.

Lemma flagHaveFunctionBody_view (st : Store) (this : NodeId) (st' : Store) :
  Heap.flagHaveFunctionBody st this = Ok st' -> sameView st st'.
Proof.
  unfold Heap.flagHaveFunctionBody. intros H.
  destruct (Heap.get st this) as [n |] eqn:E; [| discriminate].
  simpl in H. apply get_Ok in E.
  destruct (SyntaxNode.kind n) eqn:Ek; try discriminate. inv H.
  split; [apply length_set |]. intros id.
  unfold tagOf, rangeOf, parentOf, rankOf, childrenOf.
  rewrite (view_set _ _ _ _ _ E).
  destruct (Nat.eqb_spec id this) as [-> | Hne]; [| repeat split].
  rewrite E. simpl. rewrite Ek. repeat split.
Qed.

Lemma addChild_view (st : Store) (this node : NodeId) (st' : Store) :
  Heap.addChild st this node = Ok st' -> Added st this node st'.
Proof.
  unfold Heap.addChild. intros H.
  destruct (Heap.get st this) as [p |] eqn:Ep; [| discriminate].
  destruct (Heap.get st node) as [c |] eqn:Ec; [| discriminate].
  cbn [bind] in H.
  match type of H with
  | bind (Heap.get ?s this) _ = _ => destruct (Heap.get s this) as [p1 |] eqn:Ep1; [| discriminate]
  end.
  cbn [bind] in H. inv H.
  apply get_Ok in Ep, Ec, Ep1.
  assert (Hthis : this < List.length st) by (apply nth_error_Some; congruence).
  assert (Hnode : node < List.length st) by (apply nth_error_Some; congruence).
  rewrite (view_set _ _ _ _ _ Ec) in Ep1.
  split; [now rewrite !length_set |]. split; [exact Hthis |]. split; [exact Hnode |].
  intros id. unfold tagOf, rangeOf, parentOf, rankOf, childrenOf.
  rewrite (view_set _ _ p1) by (rewrite (view_set _ _ _ _ _ Ec); exact Ep1).
  rewrite (view_set _ _ _ _ _ Ec). rewrite Ep.
  destruct (Nat.eqb_spec this node) as [Heq | Hne].
  - subst node. inv Ep1. rewrite Ec in Ep. inv Ep.
    destruct (Nat.eqb_spec id this) as [-> | Hid]; simpl.
    + rewrite Ec. repeat split.
    + repeat split.
  - rewrite Ep in Ep1. inv Ep1.
    destruct (Nat.eqb_spec id this) as [-> | Hid]; simpl.
    + destruct (Nat.eqb_spec this node) as [| _]; [contradiction |].
      rewrite Ep. repeat split.
    + destruct (Nat.eqb_spec id node) as [-> | Hid2]; simpl.
      * rewrite Ec. repeat split.
      * repeat split.
Qed.

Lemma alloc_view (st : Store) (n : SyntaxNode.t) :
  SyntaxNode.parent n = None -> SyntaxNode.children n = [] -> SyntaxNode.siblingRank n = 0 ->
  Allocated st (tag (SyntaxNode.kind n)) (SyntaxNode.range n) (st ++ [n]).
Proof.
  intros Hp Hc Hr. split; [rewrite length_app; simpl; lia |].
  intros id. unfold tagOf, rangeOf, parentOf, rankOf, childrenOf.
  destruct (Nat.eqb_spec id (List.length st)) as [-> | Hne].
  - rewrite nth_error_app2, Nat.sub_diag by lia. simpl. repeat split; assumption.
  - destruct (Nat.lt_ge_cases id (List.length st)) as [Hlt | Hge].
    + rewrite nth_error_app1 by assumption. repeat split.
    + assert (H1 : nth_error (st ++ [n]) id = None)
        by (apply nth_error_None; rewrite length_app; simpl; lia).
      assert (H2 : nth_error st id = None) by (apply nth_error_None; lia).
      rewrite H1, H2. repeat split.
Qed.

End HeapView.

(* ================================================================== *)
(** ** One round of the loop that adds the nodes *)

Section AttachSpec.
Local Open Scope nat_scope.

Lemma rangeOf_get (st : Store) (id : NodeId) (n : SyntaxNode.t) :
  Heap.get st id = Ok n -> rangeOf st id = SyntaxNode.range n.
Proof. intros H. apply get_Ok in H. unfold rangeOf. now rewrite H. Qed.

Lemma parentOf_getParent (st : Store) (id : NodeId) (g : option NodeId) :
  Heap.getParent st id = Ok g -> parentOf st id = g.
Proof.
  unfold Heap.getParent. intros H.
  destruct (Heap.get st id) as [n |] eqn:E; [| discriminate].
  apply get_Ok in E. unfold parentOf. rewrite E. now inv H.
Qed.

Lemma rangeOf_getRange (st : Store) (id : NodeId) (r : Range) :
  Heap.getRange st id = Ok r -> rangeOf st id = r.
Proof.
  unfold Heap.getRange. intros H.
  destruct (Heap.get st id) as [n |] eqn:E; [| discriminate].
  apply get_Ok in E. unfold rangeOf. rewrite E. now inv H.
Qed.

Lemma isComments_tag (n : SyntaxNode.t) :
  SyntaxNode.isComments n = true ->
  tag (SyntaxNode.kind n) = CommentsT (SyntaxNode.isMultiLineComments n).
Proof.
  unfold SyntaxNode.isComments, SyntaxNode.isMultiLineComments.
  destruct (SyntaxNode.kind n); try discriminate. reflexivity.
Qed.

Lemma isComments_false_tag (n : SyntaxNode.t) (ml : bool) :
  SyntaxNode.isComments n = false -> tag (SyntaxNode.kind n) <> CommentsT ml.
Proof.
  unfold SyntaxNode.isComments. destruct (SyntaxNode.kind n); try discriminate; discriminate.
Qed.

Lemma isFunctions_tag (n : SyntaxNode.t) :
  SyntaxNode.isFunctions n = true <-> tag (SyntaxNode.kind n) = FunctionsT.
Proof.
  unfold SyntaxNode.isFunctions.
  destruct (SyntaxNode.kind n); split; intros H; try discriminate; reflexivity.
Qed.

Lemma flushDangling_spec (check : bool) (X : NodeId) (a a' : AbstractParser.AttachState) :
  AbstractParser.flushDangling check X a = Ok a' ->
  Flushed check X (AbstractParser.atStore a) (AbstractParser.danglingMultilineComment a)
          (AbstractParser.atStore a') (AbstractParser.danglingMultilineComment a')
  /\ AbstractParser.isFirst a' = AbstractParser.isFirst a.
Proof.
  unfold AbstractParser.flushDangling. intros H.
  destruct (AbstractParser.danglingMultilineComment a) as [d |] eqn:Ed.
  - destruct check.
    + destruct (Heap.addChild (AbstractParser.atStore a) X d) as [st |] eqn:E; [| discriminate].
      inv H. simpl. split; [| reflexivity].
      apply Flushed_add; [reflexivity | now apply addChild_view].
    + inv H. rewrite Ed. split; [| reflexivity]. apply Flushed_keep. now left.
  - inv H. rewrite Ed. split; [| reflexivity]. apply Flushed_keep. now right.
Qed.

Lemma Symbol_eqb_eq (a b : Symbol) : Symbol_eqb a b = true -> a = b.
Proof.
  destruct a as [[] | []], b as [[] | []]; simpl; intros H; try discriminate; reflexivity.
Qed.

Lemma flag_if_view (c : bool) (st : Store) (X : NodeId) (st' : Store) :
  (if c then Heap.flagHaveFunctionBody st X else Ok st) = Ok st' -> sameView st st'.
Proof.
  destruct c; intros H.
  - eapply flagHaveFunctionBody_view; eauto.
  - inv H. apply sameView_refl.
Qed.

Lemma sameView_tagOf (st st' : Store) (id : NodeId) :
  sameView st st' -> tagOf st' id = tagOf st id.
Proof. intros [_ H]. apply H. Qed.

Lemma sameView_rangeOf (st st' : Store) (id : NodeId) :
  sameView st st' -> rangeOf st' id = rangeOf st id.
Proof. intros [_ H]. apply H. Qed.

(** [attachOne] either leaves what the store shows as it is, or makes one
    of the five steps. *)
Lemma attachOne_spec (nt : NonTerminal) (X : NodeId) (check checkFirst : bool)
  (sym : Symbol) (ani : option NodeId) (a a' : AbstractParser.AttachState) :
  AbstractParser.attachOne nt X check checkFirst sym ani a = Ok a' ->
  (sameView (AbstractParser.atStore a) (AbstractParser.atStore a')
   /\ AbstractParser.danglingMultilineComment a' = AbstractParser.danglingMultilineComment a
   /\ (AbstractParser.isFirst a' = AbstractParser.isFirst a
       \/ AbstractParser.isFirst a' = false)
   /\ (ani = None \/ symTag sym = None))
  \/ (exists x stf,
        ani = Some x
        /\ sameView (AbstractParser.atStore a) stf
        /\ AbstractParser.isFirst a' = false
        /\ AttachStep X check checkFirst x stf
                      (AbstractParser.danglingMultilineComment a) (AbstractParser.isFirst a)
                      (AbstractParser.atStore a')
                      (AbstractParser.danglingMultilineComment a')).
Proof.
  unfold AbstractParser.attachOne. intros H.
  destruct (Symbol_eqb sym (T FILLER)) eqn:Efiller.
  { inv H. left. split; [apply sameView_refl |]. repeat split; auto.
    right. apply Symbol_eqb_eq in Efiller. now subst sym. }
  destruct (Symbol_eqb sym (T STATEMENTS_FILLER)) eqn:Estmt.
  { apply Symbol_eqb_eq in Estmt. subst sym.
    match type of H with bind ?m _ = _ => destruct m as [inBody |]; [| discriminate] end.
    cbn [bind] in H.
    match type of H with bind ?m _ = _ => destruct m as [st |] eqn:Eflag; [| discriminate] end.
    cbn [bind] in H. inv H. left. simpl.
    split; [eapply flag_if_view; eauto | auto]. }
  destruct ani as [x |]; [| inv H; left; split; [apply sameView_refl | auto]].
  destruct (Heap.get (AbstractParser.atStore a) x) as [node |] eqn:Enode; [| discriminate].
  cbn [bind] in H.
  match type of H with bind ?m _ = _ => destruct m as [inBody |]; [| discriminate] end.
  cbn [bind] in H.
  match type of H with bind ?m _ = _ => destruct m as [stf |] eqn:Eflag; [| discriminate] end.
  cbn [bind] in H.
  apply flag_if_view in Eflag.
  match type of H with bind ?m _ = _ => destruct m as [a2 |] eqn:Estep; [| discriminate] end.
  cbn [bind] in H. inv H. cbn [AbstractParser.atStore AbstractParser.danglingMultilineComment
                                AbstractParser.isFirst].
  right. exists x, stf. split; [reflexivity |]. split; [exact Eflag |]. split; [reflexivity |].
  assert (Htag : tagOf stf x = Some (tag (SyntaxNode.kind node))).
  { rewrite (sameView_tagOf _ _ _ Eflag). now apply tagOf_get. }
  assert (Hrange : rangeOf stf x = SyntaxNode.range node).
  { rewrite (sameView_rangeOf _ _ _ Eflag). now apply rangeOf_get. }
  clear Enode Eflag.
  set (a1 := AbstractParser.mkAttachState stf (AbstractParser.danglingMultilineComment a)
                                          (AbstractParser.isFirst a)) in *.
  destruct (SyntaxNode.isComments node) eqn:Ecomment.
  - (* a comment *)
    apply isComments_tag in Ecomment. rewrite Ecomment in Htag.
    destruct (AbstractParser.flushDangling check X a1) as [a3 |] eqn:Eflush; [| discriminate].
    cbn [bind] in Estep.
    apply flushDangling_spec in Eflush. destruct Eflush as [Eflush Efirst].
    cbn [AbstractParser.atStore AbstractParser.danglingMultilineComment
         AbstractParser.isFirst a1] in Eflush, Efirst.
    destruct (check && SyntaxNode.isMultiLineComments node) eqn:Ehold.
    + apply andb_true_iff in Ehold. destruct Ehold as [-> Eml]. rewrite Eml in Htag.
      inv Estep. simpl. eapply Step_hold; eauto.
    + destruct (checkFirst && SyntaxNode.isMultiLineComments node && AbstractParser.isFirst a3)
        eqn:Elift.
      * apply andb_true_iff in Elift. destruct Elift as [Elift E3].
        apply andb_true_iff in Elift. destruct Elift as [-> Eml].
        rewrite Eml in Htag, Ehold. rewrite andb_true_r in Ehold. subst check.
        destruct (Heap.getParent (AbstractParser.atStore a3) X) as [[g |] |] eqn:Eg;
          try discriminate.
        cbn [bind] in Estep.
        destruct (Heap.addChild (AbstractParser.atStore a3) g x) as [st2 |] eqn:Eadd;
          [| discriminate].
        inv Estep. simpl.
        eapply Step_lift; eauto using addChild_view, parentOf_getParent; congruence.
      * destruct (Heap.addChild (AbstractParser.atStore a3) X x) as [st2 |] eqn:Eadd;
          [| discriminate].
        inv Estep. simpl.
        eapply Step_plain; eauto using addChild_view; [discriminate |].
        intros Ht. injection Ht as Eml. rewrite Eml in Ehold, Elift.
        rewrite andb_true_r in Ehold, Elift. rewrite Efirst in Elift.
        split; [exact Ehold |].
        destruct checkFirst; [right; exact Elift | now left].
  - destruct (SyntaxNode.isFunctions node) eqn:Efun.
    + (* a function *)
      apply isFunctions_tag in Efun. rewrite Efun in Htag.
      destruct (if check then AbstractParser.danglingMultilineComment a1 else None)
        as [d |] eqn:Ed.
      * assert (Hc : check = true /\ AbstractParser.danglingMultilineComment a = Some d).
        { destruct check; [split; [reflexivity | exact Ed] | discriminate]. }
        destruct Hc as [-> Hd].
        destruct (Heap.getRange (AbstractParser.atStore a1) d) as [dRange |] eqn:Er;
          [| discriminate].
        cbn [bind] in Estep.
        destruct (Utils.mergeRanges [dRange; SyntaxNode.range node]) as [r |] eqn:Em;
          [| discriminate].
        cbn [bind] in Estep. unfold Heap.alloc in Estep.
        cbn [AbstractParser.atStore a1] in Estep, Er.
        match type of Estep with bind ?m _ = _ => destruct m as [st2 |] eqn:E2; [| discriminate] end.
        cbn [bind] in Estep.
        match type of Estep with bind ?m _ = _ => destruct m as [st3 |] eqn:E3; [| discriminate] end.
        cbn [bind] in Estep.
        match type of Estep with bind ?m _ = _ => destruct m as [st4 |] eqn:E4; [| discriminate] end.
        cbn [bind] in Estep. inv Estep. simpl.
        apply rangeOf_getRange in Er. subst dRange. rewrite <- Hrange in Em.
        eapply Step_pair; eauto using addChild_view.
        apply (alloc_view stf (SyntaxNode.new FunctionGroups r)); reflexivity.
      * unfold Heap.alloc in Estep. cbn [AbstractParser.atStore a1] in Estep.
        match type of Estep with bind ?m _ = _ => destruct m as [st2 |] eqn:E2; [| discriminate] end.
        cbn [bind] in Estep.
        match type of Estep with bind ?m _ = _ => destruct m as [st3 |] eqn:E3; [| discriminate] end.
        cbn [bind] in Estep. inv Estep. simpl.
        eapply Step_single; eauto using addChild_view.
        -- destruct check; [right; exact Ed | now left].
        -- rewrite Hrange.
           apply (alloc_view stf (SyntaxNode.new FunctionGroups (SyntaxNode.range node)));
             reflexivity.
    + (* another node *)
      destruct (AbstractParser.flushDangling check X a1) as [a3 |] eqn:Eflush; [| discriminate].
      cbn [bind] in Estep.
      apply flushDangling_spec in Eflush. destruct Eflush as [Eflush Efirst].
      cbn [AbstractParser.atStore AbstractParser.danglingMultilineComment
           AbstractParser.isFirst a1] in Eflush, Efirst.
      destruct (Heap.addChild (AbstractParser.atStore a3) X x) as [st2 |] eqn:Eadd;
        [| discriminate].
      inv Estep. simpl.
      eapply Step_plain; eauto using addChild_view.
      * intros Ht. apply isFunctions_tag in Ht. congruence.
      * intros Ht. exfalso. eapply isComments_false_tag; eauto.
Qed.

End AttachSpec.

(* ================================================================== *)
(** ** What the loop that adds the nodes keeps *)

Section TreeSteps.
Local Open Scope nat_scope.
Variable cb : bool.

Lemma Added_length (st st' : Store) (this node : NodeId) :
  Added st this node st' -> List.length st' = List.length st.
Proof. intros H. apply H. Qed.

Lemma Added_tagOf (st st' : Store) (this node id : NodeId) :
  Added st this node st' -> tagOf st' id = tagOf st id.
Proof. intros (_ & _ & _ & H). apply H. Qed.

Lemma Added_rangeOf (st st' : Store) (this node id : NodeId) :
  Added st this node st' -> rangeOf st' id = rangeOf st id.
Proof. intros (_ & _ & _ & H). apply H. Qed.

Lemma Added_parentOf (st st' : Store) (this node id : NodeId) :
  Added st this node st' ->
  parentOf st' id = if id =? node then Some this else parentOf st id.
Proof. intros (_ & _ & _ & H). apply H. Qed.

Lemma Added_rankOf (st st' : Store) (this node id : NodeId) :
  Added st this node st' ->
  rankOf st' id = if id =? node then List.length (childrenOf st this) else rankOf st id.
Proof. intros (_ & _ & _ & H). apply H. Qed.

Lemma Added_childrenOf (st st' : Store) (this node id : NodeId) :
  Added st this node st' ->
  childrenOf st' id = if id =? this then childrenOf st this ++ [node] else childrenOf st id.
Proof. intros (_ & _ & _ & H). apply H. Qed.

Lemma Added_childrenOf_other (st st' : Store) (this node id : NodeId) :
  Added st this node st' -> id <> this -> childrenOf st' id = childrenOf st id.
Proof.
  intros H Hne. rewrite (Added_childrenOf _ _ _ _ _ H).
  destruct (Nat.eqb_spec id this); [contradiction | reflexivity].
Qed.

Lemma Added_childrenOf_this (st st' : Store) (this node : NodeId) :
  Added st this node st' -> childrenOf st' this = childrenOf st this ++ [node].
Proof.
  intros H. rewrite (Added_childrenOf _ _ _ _ _ H). now rewrite Nat.eqb_refl.
Qed.

Lemma Added_parentOf_other (st st' : Store) (this node id : NodeId) :
  Added st this node st' -> id <> node -> parentOf st' id = parentOf st id.
Proof.
  intros H Hne. rewrite (Added_parentOf _ _ _ _ _ H).
  destruct (Nat.eqb_spec id node); [contradiction | reflexivity].
Qed.

Lemma Added_rankOf_other (st st' : Store) (this node id : NodeId) :
  Added st this node st' -> id <> node -> rankOf st' id = rankOf st id.
Proof.
  intros H Hne. rewrite (Added_rankOf _ _ _ _ _ H).
  destruct (Nat.eqb_spec id node); [contradiction | reflexivity].
Qed.

Lemma Added_parentOf_node (st st' : Store) (this node : NodeId) :
  Added st this node st' -> parentOf st' node = Some this.
Proof.
  intros H. rewrite (Added_parentOf _ _ _ _ _ H). now rewrite Nat.eqb_refl.
Qed.

Lemma groupShape_same (st st' : Store) (g : NodeId) :
  (forall id t, tagOf st id = Some t -> tagOf st' id = Some t) ->
  childrenOf st' g = childrenOf st g ->
  groupShape cb st g -> groupShape cb st' g.
Proof.
  intros Htag Hch H. unfold groupShape in *. rewrite Hch.
  destruct H as [[f [H1 H2]] | [[Hcb [c [f [H1 [H2 H3]]]]] | [Hcb [f [c [H1 [H2 H3]]]]]]].
  - left. exists f. auto.
  - right. left. split; [exact Hcb |]. exists c, f. auto.
  - right. right. split; [exact Hcb |]. exists f, c. auto.
Qed.

(** A node that has no parent is added. *)
Lemma linked_Added (st st' : Store) (this node : NodeId) :
  linked st -> Added st this node st' -> parentOf st node = None -> linked st'.
Proof.
  intros Hl Ha Hnone p i x Hx.
  rewrite (Added_length _ _ _ _ Ha).
  rewrite (Added_childrenOf _ _ _ _ _ Ha) in Hx.
  assert (Hold : forall q, nth_error (childrenOf st q) i = Some x ->
                   x < List.length st /\ parentOf st' x = Some q /\ rankOf st' x = i).
  { intros q Hq. destruct (Hl _ _ _ Hq) as [H1 [H2 H3]].
    assert (x <> node) by congruence.
    rewrite (Added_parentOf_other _ _ _ _ _ Ha), (Added_rankOf_other _ _ _ _ _ Ha) by assumption.
    auto. }
  destruct (Nat.eqb_spec p this) as [-> | Hne]; [| now apply Hold].
  destruct (Nat.lt_ge_cases i (List.length (childrenOf st this))) as [Hlt | Hge].
  - rewrite nth_error_app1 in Hx by assumption. now apply Hold.
  - rewrite nth_error_app2 in Hx by assumption.
    destruct (i - List.length (childrenOf st this)) as [| k] eqn:Ek;
      [| destruct k; discriminate].
    simpl in Hx. inv Hx.
    split; [apply Ha |].
    rewrite (Added_parentOf _ _ _ _ _ Ha), (Added_rankOf _ _ _ _ _ Ha), Nat.eqb_refl.
    split; [reflexivity | lia].
Qed.

Lemma Allocated_old (st st' : Store) (t : Tag) (r : Range) (id : NodeId) :
  Allocated st t r st' -> id <> List.length st ->
  tagOf st' id = tagOf st id /\ rangeOf st' id = rangeOf st id
  /\ parentOf st' id = parentOf st id /\ rankOf st' id = rankOf st id
  /\ childrenOf st' id = childrenOf st id.
Proof.
  intros [_ H] Hne. specialize (H id).
  destruct (Nat.eqb_spec id (List.length st)); [contradiction | exact H].
Qed.

Lemma Allocated_new (st st' : Store) (t : Tag) (r : Range) :
  Allocated st t r st' ->
  tagOf st' (List.length st) = Some t /\ rangeOf st' (List.length st) = r
  /\ parentOf st' (List.length st) = None /\ rankOf st' (List.length st) = 0
  /\ childrenOf st' (List.length st) = [].
Proof.
  intros [_ H]. specialize (H (List.length st)). now rewrite Nat.eqb_refl in H.
Qed.

Lemma childrenOf_lt (st : Store) (id x : NodeId) :
  In x (childrenOf st id) -> id < List.length st.
Proof.
  unfold childrenOf. intros H. apply nth_error_Some.
  destruct (nth_error st id); [discriminate | contradiction].
Qed.

Lemma parentOf_lt (st : Store) (id p : NodeId) :
  parentOf st id = Some p -> id < List.length st.
Proof.
  unfold parentOf. intros H. apply nth_error_Some.
  destruct (nth_error st id); [discriminate | discriminate].
Qed.

End TreeSteps.

Section Core.
Local Open Scope nat_scope.
Variable cb : bool.
Variable nt : NonTerminal.
Variable X : NodeId.
Variable st1 : Store.
Variable L0 : nat.
Hypothesis HL0 : L0 <= List.length st1.
Hypothesis HX : X < L0.
Hypothesis Hfresh : forall id, L0 <= id < List.length st1 -> tagOf st1 id <> Some FunctionGroupsT.

Lemma coreInv_sameView (st st' : Store) (pending : list NodeId) (e : option NodeId) :
  coreInv cb nt X st1 L0 st pending e -> sameView st st' ->
  coreInv cb nt X st1 L0 st' pending e.
Proof.
  intros (C1 & C2 & C3 & C4 & C5 & C6 & C7 & C8) [Hlen Hv].
  assert (Ht : forall id, tagOf st' id = tagOf st id) by (intros; apply Hv).
  assert (Hr : forall id, rangeOf st' id = rangeOf st id) by (intros; apply Hv).
  assert (Hp : forall id, parentOf st' id = parentOf st id) by (intros; apply Hv).
  assert (Hk : forall id, rankOf st' id = rankOf st id) by (intros; apply Hv).
  assert (Hc : forall id, childrenOf st' id = childrenOf st id) by (intros; apply Hv).
  unfold coreInv. rewrite Hlen.
  split; [| split; [exact C2 | split; [| split; [| split; [| split; [| split]]]]]].
  - intros p i x Hx. rewrite Hc in Hx. rewrite Hlen, Hp, Hk. now apply C1.
  - intros id Hid. rewrite Ht, Hr. now apply C3.
  - intros id Hid. rewrite Hp, Hk, Hc. now apply C4.
  - intros id Hid. rewrite Hc. now apply C5.
  - intros x Hx. rewrite Hp. now apply C6.
  - intros y Hy Hn Hty Hcb. rewrite Ht in Hty.
    destruct (C7 y Hy Hn Hty Hcb) as [g Hg]. exists g. now rewrite Hp, Ht, Hc.
  - intros g Hg He. rewrite Ht in Hg.
    apply (groupShape_same cb st); [intros; now rewrite Ht | apply Hc | now apply C8].
Qed.

Lemma coreInv_pending (st : Store) (pending pending' : list NodeId) (e : option NodeId) :
  (forall x, In x pending <-> In x pending') ->
  coreInv cb nt X st1 L0 st pending e -> coreInv cb nt X st1 L0 st pending' e.
Proof.
  intros Hiff (C1 & C2 & C3 & C4 & C5 & C6 & C7 & C8).
  repeat split; auto.
  - now apply C1 in H.
  - now apply C1 in H.
  - now apply C1 in H.
  - now apply C3.
  - now apply C3.
  - now apply C4.
  - now apply C4.
  - now apply C4.
  - apply C6. now apply Hiff.
  - apply C6. now apply Hiff.
  - apply C6. now apply Hiff.
  - intros y Hy Hn. apply C7; auto. intros Hin. apply Hn. now apply Hiff.
Qed.

Lemma coreInv_close (st : Store) (pending : list NodeId) (g : NodeId) :
  coreInv cb nt X st1 L0 st pending (Some g) ->
  (tagOf st g = Some FunctionGroupsT -> groupShape cb st g) ->
  coreInv cb nt X st1 L0 st pending None.
Proof.
  intros (C1 & C2 & C3 & C4 & C5 & C6 & C7 & C8) Hg.
  unfold coreInv. repeat (split; [assumption |]).
  intros g' Hg' _. destruct (Nat.eq_dec g' g) as [-> | Hne]; [now apply Hg |].
  apply C8; [assumption | congruence].
Qed.

Lemma coreInv_open (st : Store) (pending : list NodeId) (g : NodeId) :
  coreInv cb nt X st1 L0 st pending None ->
  coreInv cb nt X st1 L0 st pending (Some g).
Proof.
  intros (C1 & C2 & C3 & C4 & C5 & C6 & C7 & C8).
  unfold coreInv. repeat (split; [assumption |]).
  intros g' Hg' _. apply C8; [assumption | discriminate].
Qed.

(** [this.addChild(node)] in the loop. *)
Lemma coreInv_Added (st st' : Store) (this node : NodeId) (pending : list NodeId)
  (e : option NodeId) :
  coreInv cb nt X st1 L0 st pending e ->
  Added st this node st' ->
  e = None \/ e = Some this ->
  parentOf st node = None ->
  In node pending \/ List.length st1 <= node ->
  this = X \/ (touched cb nt st1 X this /\ tagOf st this = Some FunctionGroupsT)
  \/ List.length st1 <= this ->
  this < List.length st1 \/ cb = true \/ (forall y, L0 <= y -> childrenOf st this <> [y]) ->
  (tagOf st node = Some FunctionsT -> cb = false -> In node pending ->
   List.length st1 <= this /\ tagOf st this = Some FunctionGroupsT
   /\ childrenOf st this = []) ->
  coreInv cb nt X st1 L0 st' (remove Nat.eq_dec node pending) (Some this).
Proof.
  intros (C1 & C2 & C3 & C4 & C5 & C6 & C7 & C8) Ha He Hnone Hnode Hthis Hgroup Hfun.
  assert (Ht : forall id, tagOf st' id = tagOf st id)
    by (intros; eapply Added_tagOf; eauto).
  assert (Hr : forall id, rangeOf st' id = rangeOf st id)
    by (intros; eapply Added_rangeOf; eauto).
  assert (HnodeL0 : L0 <= node).
  { destruct Hnode as [Hin | Hge]; [apply C6 in Hin | ]; lia. }
  unfold coreInv. rewrite (Added_length _ _ _ _ Ha).
  split; [| split; [exact C2 | split; [| split; [| split; [| split; [| split]]]]]].
  - eapply linked_Added; eauto.
  - intros id Hid. rewrite Ht, Hr. now apply C3.
  - intros id Hid. destruct (C4 id Hid) as (P1 & P2 & P3).
    rewrite (Added_parentOf_other _ _ _ _ _ Ha), (Added_rankOf_other _ _ _ _ _ Ha) by lia.
    split; [exact P1 |]. split; [exact P2 |].
    intros Hnt. rewrite (Added_childrenOf_other _ _ _ _ _ Ha); [now apply P3 |].
    intros ->. destruct Hthis as [-> | [[Htouched _] | Hge]].
    + apply Hnt. now left.
    + now apply Hnt.
    + lia.
  - intros id Hid. rewrite (Added_childrenOf_other _ _ _ _ _ Ha); [now apply C5 |].
    intros ->. destruct Hthis as [-> | [[_ Htag] | Hge]].
    + lia.
    + apply (Hfresh this Hid). rewrite <- Htag. symmetry. apply C3. lia.
    + lia.
  - intros x Hx. apply in_remove in Hx. destruct Hx as [Hx Hne].
    rewrite (Added_parentOf_other _ _ _ _ _ Ha) by assumption. now apply C6.
  - intros y Hy Hn Hty Hcb. rewrite Ht in Hty.
    destruct (Nat.eq_dec y node) as [-> | Hne].
    + destruct Hnode as [Hin | Hge]; [| lia].
      destruct (Hfun Hty Hcb Hin) as (G1 & G2 & G3).
      exists this. rewrite (Added_parentOf_node _ _ _ _ Ha), Ht.
      rewrite (Added_childrenOf_this _ _ _ _ Ha), G3. auto.
    + assert (Hn' : ~ In y pending).
      { intros Hin. apply Hn. now apply in_in_remove. }
      destruct (C7 y Hy Hn' Hty Hcb) as (g & G1 & G2 & G3 & G4).
      exists g. rewrite (Added_parentOf_other _ _ _ _ _ Ha), Ht by assumption.
      rewrite (Added_childrenOf_other _ _ _ _ _ Ha); [auto |].
      intros ->. destruct Hgroup as [Hlt | [Htrue | Hch]].
      * lia.
      * congruence.
      * apply (Hch y); [lia | exact G4].
  - intros g Hg Hne. rewrite Ht in Hg.
    assert (g <> this) by congruence.
    apply (groupShape_same cb st).
    + intros id t. now rewrite Ht.
    + now apply (Added_childrenOf_other _ _ _ _ _ Ha).
    + apply C8; [exact Hg |]. destruct He as [-> | ->]; congruence.
Qed.

(** A node is allocated in the loop: the group. *)
Lemma coreInv_Allocated (st st' : Store) (t : Tag) (r : Range) (pending : list NodeId) :
  coreInv cb nt X st1 L0 st pending None ->
  Allocated st t r st' ->
  coreInv cb nt X st1 L0 st' pending (Some (List.length st)).
Proof.
  intros (C1 & C2 & C3 & C4 & C5 & C6 & C7 & C8) Ha.
  assert (Hlen : List.length st' = S (List.length st)) by apply Ha.
  assert (Hold : forall id, id < List.length st ->
            tagOf st' id = tagOf st id /\ rangeOf st' id = rangeOf st id
            /\ parentOf st' id = parentOf st id /\ rankOf st' id = rankOf st id
            /\ childrenOf st' id = childrenOf st id).
  { intros id Hid. apply (Allocated_old _ _ _ _ _ Ha). lia. }
  destruct (Allocated_new _ _ _ _ Ha) as (N1 & N2 & N3 & N4 & N5).
  unfold coreInv. rewrite Hlen.
  split; [| split; [lia | split; [| split; [| split; [| split; [| split]]]]]].
  - intros p i x Hx.
    destruct (Nat.eq_dec p (List.length st)) as [-> | Hne].
    + rewrite N5 in Hx. destruct i; discriminate.
    + destruct (Allocated_old _ _ _ _ _ Ha Hne) as (_ & _ & _ & _ & Hc).
      rewrite Hc in Hx. destruct (C1 _ _ _ Hx) as (H1 & H2 & H3).
      destruct (Hold x H1) as (_ & _ & Hp & Hk & _).
      rewrite Hp, Hk. split; [lia | auto].
  - intros id Hid. destruct (Hold id ltac:(lia)) as (A1 & A2 & _).
    rewrite A1, A2. now apply C3.
  - intros id Hid. destruct (Hold id ltac:(lia)) as (_ & _ & A3 & A4 & A5).
    rewrite A3, A4, A5. now apply C4.
  - intros id Hid. destruct (Hold id ltac:(lia)) as (_ & _ & _ & _ & A5).
    rewrite A5. now apply C5.
  - intros x Hx. destruct (C6 x Hx) as [Hx1 Hx2].
    destruct (Hold x ltac:(lia)) as (_ & _ & A3 & _). rewrite A3. auto.
  - intros y Hy Hn Hty Hcb.
    destruct (Hold y ltac:(lia)) as (A1 & _ & A3 & _). rewrite A1 in Hty.
    destruct (C7 y Hy Hn Hty Hcb) as (g & G1 & G2 & G3 & G4).
    exists g. pose proof (tagOf_Some _ _ _ G3) as Hg.
    destruct (Hold g Hg) as (B1 & _ & _ & _ & B5).
    rewrite A3, B1, B5. auto.
  - intros g Hg Hne.
    assert (Hg' : g <> List.length st) by (intros ->; now apply Hne).
    destruct (Allocated_old _ _ _ _ _ Ha Hg') as (B1 & _ & _ & _ & B5).
    rewrite B1 in Hg.
    apply (groupShape_same cb st); [| exact B5 | apply C8; [exact Hg | discriminate]].
    intros id t0 Hid. pose proof (tagOf_Some _ _ _ Hid) as Hlt.
    destruct (Hold id Hlt) as (A1 & _). congruence.
Qed.

End Core.

(* ================================================================== *)
(** ** The loop that adds the nodes keeps the shape *)

Section AttachLoop.
Local Open Scope nat_scope.
Variable cb : bool.
Variable nt : NonTerminal.
Variable X : NodeId.
Variable st1 : Store.
Variable L0 : nat.
Variable check checkFirst : bool.
Hypothesis HL0 : L0 <= List.length st1.
Hypothesis HX : X < L0.
Hypothesis Hfresh : forall id, L0 <= id < List.length st1 -> tagOf st1 id <> Some FunctionGroupsT.
Hypothesis HXtag : tagOf st1 X <> Some FunctionGroupsT.
Hypothesis Hcheck : check = true -> cb = true.
Hypothesis HcheckFirst : checkFirst = true -> cb = false /\ inFunction nt = true.

Let core := coreInv cb nt X st1 L0.
Let inv := attachInv cb nt X st1 L0 check.

Lemma core_tagX (st : Store) (pending : list NodeId) (e : option NodeId) :
  core st pending e -> tagOf st X <> Some FunctionGroupsT.
Proof.
  intros (_ & _ & C3 & _). destruct (C3 X ltac:(lia)) as [-> _]. exact HXtag.
Qed.

Lemma core_close_parent (st : Store) (pending : list NodeId) :
  core st pending (Some X) -> core st pending None.
Proof.
  intros H. eapply coreInv_close; [exact H |].
  intros Hg. exfalso. eapply core_tagX; eauto.
Qed.

Lemma core_pending_orphan (st : Store) (pending : list NodeId) (e : option NodeId) (x : NodeId) :
  core st pending e -> In x pending -> parentOf st x = None /\ L0 <= x < List.length st1.
Proof.
  intros (_ & _ & _ & _ & _ & C6 & _) Hin. destruct (C6 x Hin). auto.
Qed.

(** [parent.addChild(node)] for a pending node that is no function. *)
Lemma core_add_to_parent (st st' : Store) (node : NodeId) (pending : list NodeId) :
  core st pending None ->
  Added st X node st' ->
  In node pending ->
  tagOf st node <> Some FunctionsT ->
  core st' (remove Nat.eq_dec node pending) None.
Proof.
  intros Hc Ha Hin Htag. apply core_close_parent.
  eapply coreInv_Added; eauto.
  - now apply (core_pending_orphan _ _ _ _ Hc).
  - left. lia.
  - intros Hf. contradiction.
Qed.

Lemma in_remove_iff (l : list NodeId) (x y : NodeId) :
  In y (remove Nat.eq_dec x l) <-> In y l /\ y <> x.
Proof.
  split.
  - apply in_remove.
  - intros [H1 H2]. now apply in_in_remove.
Qed.

Lemma in_dlist (dg : option NodeId) (d : NodeId) : In d (dlist dg) <-> dg = Some d.
Proof.
  destruct dg as [d' |]; simpl; split; intros H.
  - destruct H as [-> | []]. reflexivity.
  - inv H. now left.
  - contradiction.
  - discriminate.
Qed.

Lemma somes_cons_some {A : Type} (x : A) (l : list (option A)) :
  somes (Some x :: l) = x :: somes l.
Proof. reflexivity. Qed.

Lemma somes_cons_none {A : Type} (l : list (option A)) : somes (None :: l) = somes l.
Proof. reflexivity. Qed.

(** The comment held back is added to the parent, or kept. *)
Lemma core_Flushed (st st' : Store) (dg dg' : option NodeId) (pending : list NodeId) :
  core st (pending ++ dlist dg) None ->
  (forall d, dg = Some d -> tagOf st d = Some (CommentsT true) /\ ~ In d pending) ->
  Flushed check X st dg st' dg' ->
  core st' (pending ++ dlist dg') None
  /\ (forall id, tagOf st' id = tagOf st id)
  /\ (forall d, dg' = Some d -> dg = Some d /\ st' = st)
  /\ (dg' = None \/ check = false).
Proof.
  intros Hc Hdg Hf. inv Hf.
  - destruct (Hdg d eq_refl) as [Htag Hnin].
    split; [| split; [| split]].
    + eapply coreInv_pending; [| eapply core_add_to_parent; [exact Hc | exact H0 | |]].
      * intros x. rewrite in_remove_iff, !in_app_iff. simpl.
        split; [intros [[H1 | [H1 | []]] H2]; auto; congruence |].
        intros [H1 | []]. split; [now left |]. intros ->. contradiction.
      * apply in_app_iff. right. now left.
      * rewrite Htag. discriminate.
    + intros id. eapply Added_tagOf; eauto.
    + discriminate.
    + now left.
  - split; [exact Hc |]. split; [reflexivity |]. split; [auto |].
    destruct H as [-> | ->]; auto.
Qed.

Lemma core_tags (st : Store) (pending : list NodeId) (e : option NodeId) (id : NodeId) :
  core st pending e -> id < List.length st1 -> tagOf st id = tagOf st1 id.
Proof. intros (_ & _ & C3 & _) H. now apply C3. Qed.

Lemma inv_sameView (st st' : Store) (dg : option NodeId) (first : bool)
  (rem : list (option NodeId)) :
  inv st dg first rem -> sameView st st' -> inv st' dg first rem.
Proof.
  intros (I1 & I2 & I3 & I4) Hv.
  assert (Ht : forall id, tagOf st' id = tagOf st id) by (intros; apply Hv).
  assert (Hp : forall id, parentOf st' id = parentOf st id) by (intros; apply Hv).
  assert (Hc : forall id, childrenOf st' id = childrenOf st id) by (intros; apply Hv).
  split; [eapply coreInv_sameView; eauto |]. split; [exact I2 |]. split.
  - intros d Hd. rewrite Ht. now apply I3.
  - intros H1 H2 H3. destruct (I4 H1 H2 H3) as [T1 [g [G1 [G2 G3]]]].
    split; [now rewrite Ht |]. exists g. now rewrite Hp, Ht, Hc.
Qed.

Lemma inv_first (st : Store) (dg : option NodeId) (first : bool) (rem : list (option NodeId)) :
  inv st dg first rem -> inv st dg false rem.
Proof.
  intros (I1 & I2 & I3 & I4). repeat (split; [assumption |]). discriminate.
Qed.

Lemma inv_skip (st : Store) (dg : option NodeId) (first : bool) (rem : list (option NodeId)) :
  inv st dg first (None :: rem) -> inv st dg first rem.
Proof. intros H. exact H. Qed.

(** One of the five steps. *)
Lemma inv_step (st st' : Store) (dg dg' : option NodeId) (first : bool) (x : NodeId)
  (rem : list (option NodeId)) :
  inv st dg first (Some x :: rem) ->
  AttachStep X check checkFirst x st dg first st' dg' ->
  inv st' dg' false rem.
Proof.
  intros (I1 & I2 & I3 & I4) Hstep.
  rewrite somes_cons_some in I1, I2, I3.
  assert (Hxrem : ~ In x (somes rem)) by (now inv I2).
  assert (Hrem : NoDup (somes rem)) by (now inv I2).
  assert (Hdg : forall d, dg = Some d ->
                  tagOf st d = Some (CommentsT true) /\ ~ In d (x :: somes rem)).
  { intros d Hd. destruct (I3 d Hd) as (_ & D2 & D3). auto. }
  assert (Hxd : dg <> Some x).
  { intros Hd. destruct (I3 x Hd) as (_ & _ & D3). apply D3. now left. }
  assert (Hdrem : forall d, dg = Some d -> ~ In d (somes rem)).
  { intros d Hd Hin. destruct (I3 d Hd) as (_ & _ & D3). apply D3. now right. }
  assert (Hpend : forall (dg0 : option NodeId) y,
            dg0 <> Some x ->
            In y (remove Nat.eq_dec x ((x :: somes rem) ++ dlist dg0))
            <-> In y (somes rem ++ dlist dg0)).
  { intros dg0 y Hne. rewrite in_remove_iff. simpl. rewrite !in_app_iff, !in_dlist.
    split.
    - intros [[H1 | [H1 | H1]] H2]; auto. congruence.
    - intros [H1 | H1]; (split; [auto |]); intros ->; [contradiction | congruence]. }
  inversion Hstep as
    [ sA dA T1 T2 T3 E1 E2
    | sA dA g sB T1 T2 T3 T4 T5 T6 T7 E1 E2
    | t sA dA sB T1 T2 T3 T4 T5 E1 E2
    | d r sA sB sC sD T1 T2 T3 T4 T5 T6 T7 T8 E1 E2
    | sA sB sC T1 T2 T3 T4 T5 E1 E2 ]; clear Hstep.
  - (* the comment is held back *)
    destruct (core_Flushed _ _ _ _ _ I1 Hdg T3) as (F1 & F2 & F3 & F4).
    assert (dA = None) by (destruct F4; [assumption | congruence]). subst dA.
    split; [| split; [exact Hrem | split; [| discriminate]]].
    + eapply coreInv_pending; [| exact F1].
      intros y. simpl. rewrite !in_app_iff. simpl. tauto.
    + intros d Hd. injection Hd as <-. rewrite F2. auto.
  - (* the doc comment goes to the group of the function *)
    assert (Hnone : dg = None).
    { destruct dg as [d |]; [| reflexivity]. destruct (I3 d eq_refl). congruence. }
    assert (Hsame : sA = st /\ dg' = dg).
    { inversion T5; [congruence | auto]. }
    destruct Hsame as [-> ->]. clear T5.
    destruct (HcheckFirst T3) as [Hcb Hin].
    destruct (I4 T4 Hin Hcb) as (G0 & g' & G1 & G2 & G3).
    assert (g' = g) by congruence. subst g'.
    assert (Hx : In x ((x :: somes rem) ++ dlist dg)) by (now left).
    destruct (core_pending_orphan _ _ _ _ I1 Hx) as [Hxp Hxr].
    assert (Hcore : core st' (remove Nat.eq_dec x ((x :: somes rem) ++ dlist dg)) (Some g)).
    { eapply coreInv_Added; eauto.
      - right. left. split; [| exact G2]. right. split; [exact Hin |]. split; [exact Hcb |].
        destruct I1 as (_ & _ & _ & C4 & _). destruct (C4 X HX) as [<- _]. exact G1.
      - right. right. intros y Hy. rewrite G3. intros E. injection E as ->. lia.
      - intros Hf. rewrite T1 in Hf. discriminate. }
    split; [| split; [exact Hrem | split; [| discriminate]]].
    + eapply coreInv_pending; [intros y; apply Hpend; exact Hxd |].
      eapply coreInv_close; [exact Hcore |].
      intros _. right. right. split; [exact Hcb |]. exists X, x.
      rewrite (Added_childrenOf_this _ _ _ _ T7), G3.
      rewrite !(Added_tagOf _ _ _ _ _ T7). auto.
    + intros d Hd. congruence.
  - (* the node goes to the parent *)
    destruct (core_Flushed _ _ _ _ _ I1 Hdg T4) as (F1 & F2 & F3 & F4).
    assert (Hne : dg' <> Some x).
    { intros E. destruct (F3 _ E). congruence. }
    split; [| split; [exact Hrem | split; [| discriminate]]].
    + eapply coreInv_pending; [intros y; apply (Hpend dg'); exact Hne |].
      eapply core_add_to_parent; eauto.
      * now left.
      * rewrite F2, T1. congruence.
    + intros d Hd. destruct (F3 d Hd) as [H1 H2]. subst sA.
      destruct (I3 d H1) as (D1 & D2 & D3).
      rewrite (Added_tagOf _ _ _ _ _ T5).
      split; [exact D1 |]. split; [exact D2 |]. intros Hin. apply D3. now right.
  - (* the function and the comment held back go to a group *)
    destruct (I3 d T3) as (D1 & D2 & D3).
    assert (Hcb : cb = true) by auto.
    assert (Hd : In d ((x :: somes rem) ++ dlist dg))
      by (apply in_app_iff; right; apply in_dlist; exact T3).
    assert (Hx : In x ((x :: somes rem) ++ dlist dg)) by (now left).
    assert (Hxd' : x <> d) by congruence.
    pose proof (coreInv_Allocated cb nt X st1 L0 HL0 HX _ _ _ _ _ I1 T5) as A1.
    destruct (Allocated_new _ _ _ _ T5) as (N1 & N2 & N3 & N4 & N5).
    assert (Hlen : List.length st1 <= List.length st) by apply I1.
    assert (Hold : forall id, id < List.length st1 ->
              parentOf sA id = parentOf st id /\ tagOf sA id = tagOf st id).
    { intros id Hid.
      destruct (Allocated_old _ _ _ _ id T5 ltac:(lia)) as (P1 & _ & P3 & _). auto. }
    destruct (core_pending_orphan _ _ _ _ I1 Hd) as [Hdp Hdr].
    destruct (core_pending_orphan _ _ _ _ I1 Hx) as [Hxp Hxr].
    assert (A2 : core sB (remove Nat.eq_dec d ((x :: somes rem) ++ dlist dg))
                      (Some (List.length st))).
    { eapply coreInv_Added; eauto.
      destruct (Hold d ltac:(lia)) as [-> _]. exact Hdp. }
    assert (A3 : core sC (remove Nat.eq_dec x
                            (remove Nat.eq_dec d ((x :: somes rem) ++ dlist dg)))
                      (Some (List.length st))).
    { eapply coreInv_Added; eauto.
      - rewrite (Added_parentOf_other _ _ _ _ _ T6) by assumption.
        destruct (Hold x ltac:(lia)) as [-> _]. exact Hxp.
      - left. apply in_remove_iff. auto.
      - intros _ Hf. congruence. }
    assert (A4 : core sC (remove Nat.eq_dec x
                            (remove Nat.eq_dec d ((x :: somes rem) ++ dlist dg)))
                      None).
    { eapply coreInv_close; [exact A3 |]. intros _. right. left.
      split; [exact Hcb |]. exists d, x.
      rewrite (Added_childrenOf_this _ _ _ _ T7), (Added_childrenOf_this _ _ _ _ T6), N5.
      rewrite !(Added_tagOf _ _ _ _ _ T7), !(Added_tagOf _ _ _ _ _ T6).
      destruct (Hold d ltac:(lia)) as [_ ->]. destruct (Hold x ltac:(lia)) as [_ ->].
      auto. }
    assert (A5 : core st' (remove Nat.eq_dec (List.length st)
                             (remove Nat.eq_dec x
                                (remove Nat.eq_dec d ((x :: somes rem) ++ dlist dg))))
                      None).
    { apply core_close_parent. eapply coreInv_Added; eauto.
      - rewrite (Added_parentOf_other _ _ _ _ _ T7), (Added_parentOf_other _ _ _ _ _ T6)
          by lia. exact N3.
      - intros Hf. rewrite (Added_tagOf _ _ _ _ _ T7), (Added_tagOf _ _ _ _ _ T6), N1 in Hf.
        discriminate. }
    split; [| split; [exact Hrem | split; [discriminate | discriminate]]].
    eapply coreInv_pending; [| exact A5].
    intros y. rewrite !in_remove_iff. simpl. rewrite !in_app_iff, !in_dlist. simpl.
    split.
    + intros [[[[H7 | [H7 | H7]] H8] H9] H10]; auto; congruence.
    + intros [H7 | []].
      assert (Hy1 : y <> x) by (intros ->; contradiction).
      assert (Hy2 : y <> d) by (intros ->; exact (Hdrem d T3 H7)).
      assert (Hy3 : y <> List.length st).
      { intros ->. destruct I1 as (_ & _ & _ & _ & _ & C6 & _).
        destruct (C6 (List.length st)) as [? _]; [right; apply in_app_iff; now left | lia]. }
      tauto.
  - (* the function goes to a group of its own *)
    subst dg'.
    assert (Hx : In x ((x :: somes rem) ++ dlist dg)) by (now left).
    pose proof (coreInv_Allocated cb nt X st1 L0 HL0 HX _ _ _ _ _ I1 T3) as A1.
    destruct (Allocated_new _ _ _ _ T3) as (N1 & N2 & N3 & N4 & N5).
    assert (Hlen : List.length st1 <= List.length st) by apply I1.
    assert (Hold : forall id, id < List.length st1 ->
              parentOf sA id = parentOf st id /\ tagOf sA id = tagOf st id).
    { intros id Hid.
      destruct (Allocated_old _ _ _ _ id T3 ltac:(lia)) as (P1 & _ & P3 & _). auto. }
    destruct (core_pending_orphan _ _ _ _ I1 Hx) as [Hxp Hxr].
    assert (A3 : core sB (remove Nat.eq_dec x ((x :: somes rem) ++ dlist dg))
                      (Some (List.length st))).
    { eapply coreInv_Added; eauto.
      - destruct (Hold x ltac:(lia)) as [-> _]. exact Hxp.
      - right. right. intros y _. rewrite N5. discriminate. }
    assert (A4 : core sB (remove Nat.eq_dec x ((x :: somes rem) ++ dlist dg)) None).
    { eapply coreInv_close; [exact A3 |]. intros _. left. exists x.
      rewrite (Added_childrenOf_this _ _ _ _ T4), N5.
      rewrite !(Added_tagOf _ _ _ _ _ T4).
      destruct (Hold x ltac:(lia)) as [_ ->]. auto. }
    assert (A5 : core st' (remove Nat.eq_dec (List.length st)
                             (remove Nat.eq_dec x ((x :: somes rem) ++ dlist dg)))
                      None).
    { apply core_close_parent. eapply coreInv_Added; eauto; try (left; lia).
      - rewrite (Added_parentOf_other _ _ _ _ _ T4) by lia. exact N3.
      - intros Hf. rewrite (Added_tagOf _ _ _ _ _ T4), N1 in Hf. discriminate. }
    split; [| split; [exact Hrem | split; [| discriminate]]].
    + eapply coreInv_pending; [| exact A5].
      intros y. rewrite in_remove_iff. rewrite (Hpend dg y Hxd).
      split; [tauto |]. intros Hy. split; [exact Hy |]. intros ->.
      destruct I1 as (_ & _ & _ & _ & _ & C6 & _).
      destruct (C6 (List.length st)) as [? _]; [| lia].
      apply in_app_iff in Hy. apply in_app_iff. destruct Hy; [left; now right | now right].
    + intros d Hd. destruct (I3 d Hd) as (D1 & D2 & D3).
      rewrite (Added_tagOf _ _ _ _ _ T5), (Added_tagOf _ _ _ _ _ T4).
      destruct (Hold d) as [_ ->].
      * destruct (core_pending_orphan _ _ _ d I1); [| lia].
        apply in_app_iff. right. apply in_dlist. exact Hd.
      * split; [exact D1 |]. split; [exact D2 |]. intros Hin. apply D3. now right.
Qed.

(** The whole loop. *)
Lemma attachLoop_inv (state : list Symbol) :
  forall (childNodes : list (option NodeId)) (a a' : AbstractParser.AttachState),
    Forall2 (fun sym ani => symTag sym = None -> ani = None) state childNodes ->
    AbstractParser.attachLoop nt X check checkFirst state childNodes a = Ok a' ->
    inv (AbstractParser.atStore a) (AbstractParser.danglingMultilineComment a)
        (AbstractParser.isFirst a) childNodes ->
    inv (AbstractParser.atStore a') (AbstractParser.danglingMultilineComment a')
        (AbstractParser.isFirst a') [].
Proof.
  induction state as [| sym state IH]; intros childNodes a a' Hrel H Hinv.
  - inversion Hrel; subst childNodes. simpl in H. injection H as <-. exact Hinv.
  - inversion Hrel as [| s0 ani st0 rem Hsym Hrest]; subst childNodes. clear Hrel.
    cbn [AbstractParser.attachLoop] in H.
    destruct (AbstractParser.attachOne nt X check checkFirst sym ani a) as [a1 |] eqn:E1;
      [| discriminate].
    cbn [bind] in H. apply (IH _ _ _ Hrest H). clear H IH.
    destruct (attachOne_spec _ _ _ _ _ _ _ _ E1)
      as [(V1 & V2 & V3 & V4) | (x & stf & -> & V1 & V2 & V3)].
    + assert (Hnone : ani = None) by (destruct V4; auto). subst ani.
      apply inv_skip in Hinv. rewrite V2.
      pose proof (inv_sameView _ _ _ _ _ Hinv V1) as Hinv1.
      destruct V3 as [-> | ->]; [exact Hinv1 | eapply inv_first; eauto].
    + rewrite V2. eapply inv_step; [| exact V3].
      eapply inv_sameView; eauto.
Qed.

(** The loop and the comment that is still held back when it ends. *)
Lemma attach_end (st st' : Store) (dg : option NodeId) (first : bool) :
  inv st dg first [] ->
  match dg with Some d => Added st X d st' | None => st' = st end ->
  core st' [] None.
Proof.
  intros (I1 & I2 & I3 & I4) H. simpl in I1.
  destruct dg as [d |]; [| subst st'; exact I1].
  destruct (I3 d eq_refl) as (D1 & D2 & D3).
  eapply coreInv_pending; [| eapply core_add_to_parent; [exact I1 | exact H | now left |]].
  - intros y. rewrite in_remove_iff. simpl. split; [intros [[H1 | []] H2]; congruence | tauto].
  - rewrite D2. discriminate.
Qed.

End AttachLoop.

(* ================================================================== *)
(** ** The nodes that [resolveAll] creates *)

Section Resolve.
Local Open Scope nat_scope.
Variable L : Language.
Hypothesis HF : FactoriesOk L.

Lemma extendsView_refl (st : Store) : extendsView st st.
Proof. split; [lia | intros id _; repeat split]. Qed.

Lemma extendsView_trans (a b c : Store) :
  extendsView a b -> extendsView b c -> extendsView a c.
Proof.
  intros [L1 H1] [L2 H2]. split; [lia |]. intros id Hid.
  destruct (H1 id Hid) as (A1 & A2 & A3 & A4 & A5).
  destruct (H2 id ltac:(lia)) as (B1 & B2 & B3 & B4 & B5).
  repeat split; congruence.
Qed.

Lemma Allocated_extendsView (st st' : Store) (t : Tag) (r : Range) :
  Allocated st t r st' -> extendsView st st'.
Proof.
  intros Ha. split; [destruct Ha as [-> _]; lia |].
  intros id Hid. apply (Allocated_old _ _ _ _ _ Ha). lia.
Qed.

Lemma sameView_extendsView (st st' : Store) : sameView st st' -> extendsView st st'.
Proof. intros [Hl H]. split; [lia | intros id _; apply H]. Qed.

Lemma Added_extendsView_tag (st st' : Store) (this node : NodeId) :
  Added st this node st' -> List.length st <= List.length st'.
Proof. intros [-> _]. lia. Qed.

Lemma created_spec (m : result SyntaxNode.t) (t : Tag) (rng : Range) (st st' : Store)
  (node : option NodeId) :
  (forall n, m = Ok n -> nodeOk t rng n) ->
  (n <- m ;; let '(s, id) := Heap.alloc st n in Ok (s, Some id)) = Ok (st', node) ->
  node = Some (List.length st) /\ Allocated st t rng st'.
Proof.
  intros Hok H. destruct m as [n |]; [| discriminate].
  destruct (Hok n eq_refl) as (N1 & N2 & N3 & N4 & N5).
  cbn in H. injection H as <- <-. split; [reflexivity |].
  rewrite <- N1, <- N2. now apply alloc_view.
Qed.

Lemma resolveIntoNode_spec (p : ParserBase) (sym : Symbol) (r : TokenRange)
  (info : option NodeCreationInformation) (st st' : Store) (node : option NodeId) :
  AbstractParser.resolveIntoNode L p sym r info st = Ok (st', node) ->
  exists rng,
    tokenSpanRange p r = Ok rng
    /\ match node with
       | None => st' = st /\ symTag sym = None
       | Some x => exists t, symTag sym = Some t /\ x = List.length st
                             /\ Allocated st t rng st'
       end.
Proof.
  unfold AbstractParser.resolveIntoNode, tokenSpanRange. intros H.
  destruct (AbstractParser.getTokenChRange p (startTok r)) as [first |]; [| discriminate].
  cbn [bind] in *.
  destruct (AbstractParser.getTokenChRange p (endTok r - 1)) as [last |]; [| discriminate].
  cbn [bind] in *.
  destruct (AbstractParser.getRange p (cr_start first) (cr_end last)) as [rng |];
    [| discriminate].
  cbn [bind] in H. exists rng. split; [reflexivity |].
  destruct HF as (F1 & F2 & F3 & F4 & F5 & F6 & F7).
  destruct sym as [[] | []]; cbn [symTag];
    try (inv H; split; reflexivity); try discriminate;
    (eapply created_spec in H; [destruct H as [-> Ha]; eexists; eauto | eauto]).
Qed.

Lemma Resolved_extends (p : ParserBase) (st st' : Store) (state : list Symbol)
  (ranges : list TokenRange) (nodes : list (option NodeId)) :
  Resolved p st state ranges nodes ->
  extendsView st st' ->
  (forall x, In x (somes nodes) -> x < List.length st) ->
  Resolved p st' state ranges nodes.
Proof.
  intros H Hext. induction H; intros Hin.
  - constructor.
  - econstructor; eauto.
  - assert (Hx : x < List.length st) by (apply Hin; now left).
    destruct Hext as [Hl Hv]. destruct (Hv x Hx) as (A1 & A2 & A3 & A4 & A5).
    econstructor; eauto; try congruence.
    apply IHResolved. intros y Hy. apply Hin. now right.
Qed.

Lemma resolveAll_spec (p : ParserBase) (state : list Symbol) :
  forall (ranges : list TokenRange) (infos : list (option NodeCreationInformation))
         (st st1 : Store) (nodes : list (option NodeId)),
    List.length ranges = List.length state ->
    List.length infos = List.length state ->
    AbstractParser.resolveAll L p state ranges infos st = Ok (st1, nodes) ->
    extendsView st st1
    /\ somes nodes = seq (List.length st) (List.length st1 - List.length st)
    /\ Resolved p st1 state ranges nodes.
Proof.
  induction state as [| sym state IH]; intros ranges infos st st1 nodes Hr Hi H.
  - destruct ranges; [| discriminate]. inv H.
    split; [apply extendsView_refl |]. rewrite Nat.sub_diag. split; constructor.
  - destruct ranges as [| r ranges]; [discriminate |].
    destruct infos as [| i infos]; [discriminate |].
    simpl in Hr, Hi. cbn [AbstractParser.resolveAll] in H.
    destruct (AbstractParser.resolveIntoNode L p sym r i st) as [[sa node] |] eqn:E1;
      [| discriminate].
    cbn [bind] in H.
    destruct (AbstractParser.resolveAll L p state ranges infos sa) as [[sb rest] |] eqn:E2;
      [| discriminate].
    cbn [bind] in H. inv H.
    destruct (IH ranges infos sa st1 rest ltac:(lia) ltac:(lia) E2) as (X1 & X2 & X3).
    destruct (resolveIntoNode_spec _ _ _ _ _ _ _ E1) as (rng & Hrng & Hnode).
    destruct node as [x |].
    + destruct Hnode as (t & Ht & -> & Ha).
      pose proof (Allocated_extendsView _ _ _ _ Ha) as Hext.
      assert (Hlen : List.length sa = S (List.length st)) by apply Ha.
      destruct X1 as [Hl1 Hv1].
      split; [eapply extendsView_trans; [exact Hext | split; assumption] |].
      split.
      * rewrite somes_cons_some, X2, Hlen.
        replace (List.length st1 - List.length st) with (S (List.length st1 - S (List.length st)))
          by lia.
        reflexivity.
      * destruct (Allocated_new _ _ _ _ Ha) as (N1 & N2 & N3 & N4 & N5).
        destruct (Hv1 (List.length st) ltac:(lia)) as (A1 & A2 & A3 & A4 & A5).
        econstructor; eauto; congruence.
    + destruct Hnode as [-> Ht].
      split; [exact X1 |]. split; [exact X2 |].
      econstructor; eauto.
Qed.

End Resolve.

(* ================================================================== *)
(** ** What the detection loop returns *)

Section DetectLengths.
Local Open Scope nat_scope.
Variable L : Language.

Lemma pushSymbol_lengths (acc acc' : AbstractParser.Acc) (sym : SymbolInfo) (r : TokenRange) :
  AbstractParser.pushSymbol acc sym r = Ok acc' -> accLengths acc -> accLengths acc'.
Proof.
  unfold AbstractParser.pushSymbol. intros H (A1 & A2 & A3).
  match type of H with bind ?m _ = _ => destruct m; [| discriminate] end.
  cbn [bind] in H. inv H. unfold accLengths. simpl.
  rewrite !length_app. simpl. lia.
Qed.

Lemma setBuffer_lengths (acc : AbstractParser.Acc) (e : Z) (b : list Token) :
  accLengths acc -> accLengths (AbstractParser.setBuffer acc e b).
Proof. intros H. exact H. Qed.

Lemma manageBuffer_lengths (d : SymbolAdditionDirective) (acc acc' : AbstractParser.Acc) :
  AbstractParser.manageBuffer d acc = Ok acc' -> accLengths acc -> accLengths acc'.
Proof.
  unfold AbstractParser.manageBuffer. intros H Hacc.
  destruct (secondSymbol d) as [s2 |], (secondSymbolLen d) as [l |],
           (firstTwoSymbolsEndBufferLen d) as [f |];
    repeat match type of H with
      | bind ?m _ = _ =>
          let E := fresh "E" in
          destruct m eqn:E; [apply pushSymbol_lengths in E; [| assumption] | discriminate];
          cbn [bind] in H
      end;
    try discriminate; inv H; apply setBuffer_lengths; assumption.
Qed.

Lemma updateTokenStreamState_lengths (p : ParserBase) (depth : Z) (nt : NonTerminal)
  (acc acc' : AbstractParser.Acc) (i : Z) (c : bool) (det det' : DetState L) :
  AbstractParser.updateTokenStreamState L p depth nt acc i c det = Ok (acc', det') ->
  accLengths acc -> accLengths acc'.
Proof.
  unfold AbstractParser.updateTokenStreamState. intros H Hacc.
  match type of H with bind ?m _ = _ => destruct m; [| discriminate] end.
  cbn [bind] in H.
  match type of H with bind ?m _ = _ => destruct m as [[det1 [d |]] |]; [| | discriminate] end;
    cbn [bind] in H.
  - match type of H with bind ?m _ = _ => destruct m; [| discriminate] end.
    cbn [bind] in H.
    destruct (AbstractParser.manageBuffer d acc) as [acc1 |] eqn:E; [| discriminate].
    cbn [bind] in H. inv H. eapply manageBuffer_lengths; eauto.
  - now inv H.
Qed.

Lemma detectLoop_lengths (p : ParserBase) (depth : Z) (nt : NonTerminal) (count : nat) :
  forall (i : Z) (acc acc' : AbstractParser.Acc) (det det' : DetState L),
    AbstractParser.detectLoop L p depth nt count i acc det = Ok (acc', det') ->
    accLengths acc -> accLengths acc'.
Proof.
  induction count as [| count IH]; intros i acc acc' det det' H Hacc.
  - now inv H.
  - cbn [AbstractParser.detectLoop] in H.
    destruct (Js.nthZ (sourceTokens p) i) as [token |]; [| discriminate].
    match type of H with
    | bind ?m _ = _ => destruct m as [[acc1 det1] |] eqn:E; [| discriminate]
    end.
    cbn [bind] in H. apply updateTokenStreamState_lengths in E; [| exact Hacc].
    eapply IH; eauto.
Qed.

Lemma validate_allowed (nt : NonTerminal) (state : list Symbol) :
  AbstractParser.validateParsingState nt state = Ok tt ->
  nt <> FUNCTIONS ->
  Forall (ntAllowed nt) state.
Proof.
  intros H Hnt. destruct nt; try contradiction; simpl in H.
  - unfold AbstractParser.validateParsingStateTopLevel in H.
    destruct (forallb _ state) eqn:E; [| discriminate].
    rewrite forallb_forall in E. apply Forall_forall. intros s Hs.
    specialize (E s Hs). destruct s as [t | []]; simpl; auto; discriminate.
  - unfold AbstractParser.validateParsingStateClasses in H.
    destruct (forallb _ state) eqn:E; [| discriminate].
    rewrite forallb_forall in E. apply Forall_forall. intros s Hs.
    specialize (E s Hs). destruct s as [t | []]; simpl; auto; discriminate.
  - induction state as [| s state IH]; [constructor |].
    simpl in H.
    destruct (Symbol_eqb s (T STATEMENTS_FILLER)); [discriminate |].
    match type of H with (if ?c then _ else _) = _ => destruct c eqn:E; [discriminate |] end.
    constructor; [| now apply IH].
    destruct s as [t | []]; simpl; auto; discriminate.
  - unfold AbstractParser.validateParsingStateFunctionBody in H.
    destruct (forallb _ state) eqn:E; [| discriminate].
    rewrite forallb_forall in E. apply Forall_forall. intros s Hs.
    specialize (E s Hs). destruct s as [t | []]; simpl; auto; discriminate.
Qed.

Lemma detectSymbols_spec (p : ParserBase) (nt : NonTerminal) (tokRange : TokenRange)
  (depth : Z) (det det' : DetState L) (acc : AbstractParser.Acc) :
  AbstractParser.detectSymbols L p nt tokRange depth det = Ok (acc, det') ->
  accLengths acc
  /\ AbstractParser.validateParsingState nt (AbstractParser.state acc) = Ok tt.
Proof.
  unfold AbstractParser.detectSymbols. intros H.
  match type of H with
  | bind ?m _ = _ => destruct m as [[acc1 det1] |] eqn:E1; [| discriminate]
  end.
  cbn [bind] in H.
  match type of H with
  | bind ?m _ = _ => destruct m as [[acc2 det2] |] eqn:E2; [| discriminate]
  end.
  cbn [bind] in H.
  match type of H with (if ?c then _ else _) = _ => destruct c; [discriminate |] end.
  destruct (AbstractParser.validateParsingState nt (AbstractParser.state acc2)) as [[] |] eqn:E3;
    [| discriminate].
  cbn [bind] in H. inv H. split; [| exact E3].
  apply updateTokenStreamState_lengths in E2; [exact E2 |].
  apply detectLoop_lengths in E1; [exact E1 |].
  repeat split.
Qed.

End DetectLengths.

(* ================================================================== *)
(** ** The recursion keeps the shape *)

Section Recurse.
Local Open Scope nat_scope.
Variable L : Language.
Let cb := isCommentBeforeFunction L.
Variable nt : NonTerminal.
Variable X : NodeId.
Variable st1 : Store.
Variable L0 : nat.
Hypothesis HL0 : L0 <= List.length st1.
Hypothesis HX : X < L0.
Hypothesis Hfresh : forall id, L0 <= id < List.length st1 -> tagOf st1 id <> Some FunctionGroupsT.

Lemma Resolved_nodeFor (p : ParserBase) (state : list Symbol) (ranges : list TokenRange)
  (nodes : list (option NodeId)) :
  Resolved p st1 state ranges nodes -> Forall2 (nodeFor st1) state nodes.
Proof.
  intros H. induction H; constructor; auto; unfold nodeFor.
  - now rewrite H.
  - rewrite H. eauto.
Qed.

Lemma coreInv_recInv (st : Store) (rem : list NodeId) :
  coreInv cb nt X st1 L0 st [] None ->
  (forall y, In y rem -> L0 <= y < List.length st1) ->
  recInv cb nt X st1 L0 st rem.
Proof.
  intros (C1 & C2 & C3 & C4 & C5 & C6 & C7 & C8) Hrem.
  split; [split; [exact C1 |] |].
  - intros g Hg. apply C8; [exact Hg | discriminate].
  - repeat (split; [assumption |]).
    intros y Hy. specialize (Hrem y Hy).
    split; [exact Hrem |]. split; [now apply C5 |].
    intros Ht Hcb. apply C7; auto.
Qed.

Lemma recInv_drop (st : Store) (x : NodeId) (rem : list NodeId) :
  recInv cb nt X st1 L0 st (x :: rem) -> recInv cb nt X st1 L0 st rem.
Proof.
  intros (R1 & R2 & R3 & R4 & R5). repeat (split; [assumption |]).
  intros y Hy. apply R5. now right.
Qed.

(** Parsing into one of the new nodes. *)
Lemma recInv_step (st st' : Store) (n : NonTerminal) (x : NodeId) (rem : list NodeId) :
  recInv cb nt X st1 L0 st (x :: rem) ->
  ~ In x rem ->
  (inFunction n = true -> tagOf st1 x = Some FunctionsT) ->
  shapeInv cb st' ->
  shapeFrame cb n x st st' ->
  recInv cb nt X st1 L0 st' rem.
Proof.
  intros (R1 & R2 & R3 & R4 & R5) Hx Hn Hinv [F1 F2].
  destruct (R5 x ltac:(now left)) as (X1 & X2 & X3).
  assert (Htx : tagOf st x = tagOf st1 x) by (apply R3; lia).
  assert (Hgroup : forall id, inFunction n = true -> cb = false -> parentOf st x = Some id ->
             List.length st1 <= id /\ tagOf st id = Some FunctionGroupsT
             /\ childrenOf st id = [x]).
  { intros id H1 H2 H3. rewrite <- Htx in Hn.
    destruct (X3 (Hn H1) H2) as (g & G1 & G2 & G3 & G4).
    assert (g = id) by congruence. subst g. auto. }
  split; [exact Hinv |]. split; [lia |]. split; [| split].
  - intros id Hid. destruct (F2 id ltac:(lia)) as (A1 & A2 & _).
    rewrite A1, A2. now apply R3.
  - intros id Hid. destruct (F2 id ltac:(lia)) as (_ & _ & A3 & A4 & A5).
    destruct (R4 id Hid) as (B3 & B4 & B5).
    rewrite A3, A4. split; [exact B3 |]. split; [exact B4 |].
    intros Hnt. rewrite A5; [now apply B5 |].
    intros [-> | (T1 & T2 & T3)]; [lia |].
    destruct (Hgroup id T1 T2 T3) as [G1 _]. lia.
  - intros y Hy. destruct (R5 y ltac:(now right)) as (Y1 & Y2 & Y3).
    assert (Hyx : y <> x) by (intros ->; contradiction).
    assert (Hty : tagOf st y <> Some FunctionGroupsT).
    { destruct (R3 y ltac:(lia)) as [-> _]. now apply Hfresh. }
    destruct (F2 y ltac:(lia)) as (A1 & _ & A3 & _ & A5).
    split; [exact Y1 |]. split.
    + rewrite A5; [exact Y2 |].
      intros [-> | (T1 & T2 & T3)]; [contradiction |].
      destruct (Hgroup y T1 T2 T3) as (_ & G2 & _). contradiction.
    + intros Ht Hcb. rewrite A1 in Ht.
      destruct (Y3 Ht Hcb) as (g & G1 & G2 & G3 & G4).
      pose proof (tagOf_Some _ _ _ G3) as Hg.
      destruct (F2 g Hg) as (B1 & _ & _ & _ & B5).
      exists g. rewrite A3, B1. split; [exact G1 |]. split; [exact G2 |].
      split; [exact G3 |]. rewrite B5; [exact G4 |].
      intros [-> | (T1 & T2 & T3)].
      * rewrite Htx in G3. apply (Hfresh x X1). exact G3.
      * destruct (Hgroup g T1 T2 T3) as (_ & _ & G5). congruence.
Qed.

Variable p : ParserBase.
Variable rec : NonTerminal -> NodeId -> TokenRange -> Z -> AbstractParser.PState L
               -> result (AbstractParser.PState L).
Hypothesis Hrec : keepsShape L rec.

Lemma recurseChildren_shape (depth : Z) (state : list Symbol) :
  forall (childNodes : list (option NodeId)) (ranges : list (option TokenRange))
         (ps ps' : AbstractParser.PState L),
    Forall (ntAllowed nt) state ->
    Forall2 (nodeFor st1) state childNodes ->
    NoDup (somes childNodes) ->
    AbstractParser.recurseChildren L rec X depth state childNodes ranges ps = Ok ps' ->
    recInv cb nt X st1 L0 (AbstractParser.psStore L ps) (somes childNodes) ->
    recInv cb nt X st1 L0 (AbstractParser.psStore L ps') [].
Proof.
  induction state as [| sym state IH]; intros childNodes ranges ps ps' Hok Hrel Hnd H Hinv.
  - inversion Hrel; subst childNodes. simpl in H. injection H as <-. exact Hinv.
  - inversion Hrel as [| s0 ani st0 rem Hsym Hrest]; subst childNodes. clear Hrel.
    inversion Hok as [| s1 st2 Hs Hoks]; subst. clear Hok.
    cbn [AbstractParser.recurseChildren] in H.
    destruct ranges as [| range ranges].
    { injection H as <-.
      clear - Hinv. revert Hinv. generalize (somes (ani :: rem)).
      intros l. induction l as [| y l IHl]; [auto |].
      intros H. apply IHl. eapply recInv_drop; eauto. }
    assert (Hdrop : recInv cb nt X st1 L0 (AbstractParser.psStore L ps) (somes rem)).
    { destruct ani as [x |]; [eapply recInv_drop; exact Hinv | exact Hinv]. }
    assert (Hnd' : NoDup (somes rem)).
    { destruct ani as [x |]; [now inversion Hnd | exact Hnd]. }
    destruct sym as [t | n].
    + eapply IH; eauto.
    + unfold nodeFor in Hsym.
      assert (Hn : exists t, symTag (NT n) = Some t
                             /\ (inFunction n = true -> t = FunctionsT)).
      { destruct nt, n; simpl in Hs; try contradiction;
          try (destruct Hs; discriminate); try discriminate;
          eexists; (split; [reflexivity |]); simpl; intros; congruence. }
      destruct Hn as (t & Ht & Hfun). rewrite Ht in Hsym.
      destruct Hsym as (x & -> & Htag).
      destruct range as [r |]; [| discriminate].
      destruct (rec n x r (depth + 1)%Z ps) as [ps1 |] eqn:E; [| discriminate].
      cbn [bind] in H.
      rewrite somes_cons_some in Hinv, Hnd.
      eapply (IH _ _ _ _ Hoks Hrest Hnd' H).
      assert (Hpre : shapePre cb n x (AbstractParser.psStore L ps)).
      { destruct Hinv as (R1 & R2 & R3 & R4 & R5).
        destruct (R5 x ltac:(now left)) as (X1 & X2 & X3).
        destruct (R3 x ltac:(lia)) as [Htx _].
        split; [lia |]. split.
        - rewrite Htx. now apply Hfresh.
        - intros Hin Hcb. rewrite <- Htx in Htag.
          specialize (Hfun Hin). subst t.
          destruct (X3 Htag Hcb) as (g & G1 & G2 & G3 & G4).
          split; [exact Htag |]. exists g. auto. }
      destruct (Hrec _ _ _ _ _ _ E (proj1 Hinv) Hpre) as [S1 S2].
      eapply recInv_step; eauto.
      * now inversion Hnd.
      * intros Hin. rewrite Htag. f_equal. auto.
Qed.

End Recurse.

(* ================================================================== *)
(** ** [parseNonTerminal] keeps the shape *)

Section ParseShape.
Local Open Scope nat_scope.
Variable L : Language.
Hypothesis HF : FactoriesOk L.
Let cb := isCommentBeforeFunction L.

Lemma symTag_not_group (sym : Symbol) : symTag sym <> Some FunctionGroupsT.
Proof. destruct sym as [[] | []]; discriminate. Qed.

Lemma Resolved_In (p : ParserBase) (st1 : Store) (state : list Symbol)
  (ranges : list TokenRange) (nodes : list (option NodeId)) (x : NodeId) :
  Resolved p st1 state ranges nodes ->
  In x (somes nodes) ->
  exists sym t, symTag sym = Some t /\ tagOf st1 x = Some t /\ parentOf st1 x = None
                /\ childrenOf st1 x = [] /\ rankOf st1 x = 0.
Proof.
  intros H. induction H; intros Hin.
  - contradiction.
  - now apply IHResolved.
  - destruct Hin as [<- | Hin]; [| now apply IHResolved].
    exists sym, t. auto.
Qed.

Lemma Resolved_symTag_none (p : ParserBase) (st1 : Store) (state : list Symbol)
  (ranges : list TokenRange) (nodes : list (option NodeId)) :
  Resolved p st1 state ranges nodes ->
  Forall2 (fun sym ani => symTag sym = None -> ani = None) state nodes.
Proof.
  intros H. induction H; constructor; auto. intros E. congruence.
Qed.

Lemma shapeInv_Added (st st' : Store) (this node : NodeId) :
  shapeInv cb st -> Added st this node st' ->
  parentOf st node = None -> tagOf st this <> Some FunctionGroupsT ->
  shapeInv cb st'.
Proof.
  intros [H1 H2] Ha Hnone Htag. split; [eapply linked_Added; eauto |].
  intros g Hg. rewrite (Added_tagOf _ _ _ _ _ Ha) in Hg.
  apply (groupShape_same cb st).
  - intros id t. now rewrite (Added_tagOf _ _ _ _ _ Ha).
  - apply (Added_childrenOf_other _ _ _ _ _ Ha). congruence.
  - now apply H2.
Qed.

(** The heap after [resolveAll]. *)
Lemma shapeInv_resolved (st0 st1 : Store) :
  shapeInv cb st0 -> extendsView st0 st1 ->
  (forall id, List.length st0 <= id < List.length st1 ->
     childrenOf st1 id = [] /\ tagOf st1 id <> Some FunctionGroupsT) ->
  shapeInv cb st1.
Proof.
  intros [H1 H2] [Hl Hv] Hnew.
  assert (Hch : forall id x, In x (childrenOf st1 id) -> id < List.length st0).
  { intros id x Hin. pose proof (childrenOf_lt _ _ _ Hin) as Hid.
    destruct (Nat.lt_ge_cases id (List.length st0)) as [Hlt | Hge]; [exact Hlt |].
    destruct (Hnew id ltac:(lia)) as [E _]. rewrite E in Hin. contradiction. }
  split.
  - intros p i x Hx. pose proof (Hch p x (nth_error_In _ _ Hx)) as Hp.
    destruct (Hv p Hp) as (_ & _ & _ & _ & A5). rewrite A5 in Hx.
    destruct (H1 _ _ _ Hx) as (B1 & B2 & B3).
    destruct (Hv x B1) as (_ & _ & C3 & C4 & _). rewrite C3, C4. split; [lia | auto].
  - intros g Hg. pose proof (tagOf_Some _ _ _ Hg) as Hlt.
    destruct (Nat.lt_ge_cases g (List.length st0)) as [Hg0 | Hge].
    + destruct (Hv g Hg0) as (A1 & _ & _ & _ & A5). rewrite A1 in Hg.
      apply (groupShape_same cb st0); [| exact A5 | now apply H2].
      intros id t Hid. pose proof (tagOf_Some _ _ _ Hid) as Hid0.
      destruct (Hv id Hid0) as (B1 & _). congruence.
    + destruct (Hnew g ltac:(lia)) as [_ E]. contradiction.
Qed.

Lemma nthZ_In {A : Type} (l : list A) (i : Z) (x : A) :
  Js.nthZ l i = Some x -> In x l.
Proof.
  unfold Js.nthZ. destruct (i <? 0)%Z; [discriminate |]. apply nth_error_In.
Qed.

Lemma In_somes {A : Type} (l : list (option A)) (x : A) : In (Some x) l <-> In x (somes l).
Proof.
  unfold somes. rewrite in_flat_map. split.
  - intros H. exists (Some x). split; [exact H | now left].
  - intros [[y |] [H1 H2]]; [| contradiction]. destruct H2 as [-> | []]. exact H1.
Qed.

Lemma liftable_kept (X : NodeId) (st st' : Store) :
  liftable st X ->
  (List.length st <= List.length st') ->
  (forall id, id < List.length st ->
     tagOf st' id = tagOf st id /\ parentOf st' id = parentOf st id) ->
  (forall g, parentOf st X = Some g -> childrenOf st' g = childrenOf st g) ->
  liftable st' X.
Proof.
  intros (T1 & g & G1 & G2 & G3) Hl Hv Hg.
  pose proof (tagOf_Some _ _ _ T1) as HX. pose proof (tagOf_Some _ _ _ G2) as Hgl.
  destruct (Hv X HX) as [A1 A2]. destruct (Hv g Hgl) as [B1 _].
  split; [congruence |]. exists g. rewrite A2, B1, (Hg g G1). auto.
Qed.

Lemma parseNonTerminal_shape (p : ParserBase) (fuel : nat) :
  keepsShape L (AbstractParser.parseNonTerminal L fuel p).
Proof.
  induction fuel as [| fuel IH]; intros nt X tokRange depth ps ps' H Hinv Hpre;
    [discriminate |].
  fold cb in Hinv, Hpre |- *.
  rewrite parseNonTerminal_S in H.
  destruct (AbstractParser.detectSymbols L p nt tokRange depth (AbstractParser.psDet L ps))
    as [[acc det] |] eqn:Edet; [| discriminate].
  cbn [bind] in H.
  destruct (detectSymbols_spec _ _ _ _ _ _ _ _ Edet) as [(A1 & A2 & A3) Hvalid].
  clear Edet.
  set (st0 := AbstractParser.psStore L ps) in *.
  destruct (AbstractParser.resolveAll L p (AbstractParser.state acc)
              (AbstractParser.symbolRange acc) (AbstractParser.nodeCreationInformationArr acc)
              st0) as [[st1 nodes] |] eqn:Eres; [| discriminate].
  cbn [bind] in H.
  destruct (resolveAll_spec L HF _ _ _ _ _ _ _ A1 A3 Eres) as (Hext & Hseq & Hres).
  clear Eres.
  destruct Hpre as (HX & HXtag & Hlift).
  assert (Hl01 : List.length st0 <= List.length st1) by apply Hext.
  assert (Hin_fresh : forall x, In x (somes nodes) <-> List.length st0 <= x < List.length st1).
  { intros x. rewrite Hseq, in_seq. lia. }
  assert (Hnew : forall id, List.length st0 <= id < List.length st1 ->
             tagOf st1 id <> Some FunctionGroupsT /\ parentOf st1 id = None
             /\ childrenOf st1 id = []).
  { intros id Hid. apply Hin_fresh in Hid.
    destruct (Resolved_In _ _ _ _ _ _ Hres Hid) as (sym & t & S1 & S2 & S3 & S4 & S5).
    split; [| auto]. rewrite S2, <- S1. apply symTag_not_group. }
  assert (Hfresh : forall id, List.length st0 <= id < List.length st1 ->
             tagOf st1 id <> Some FunctionGroupsT) by (intros; now apply Hnew).
  assert (Hinv1 : shapeInv cb st1).
  { eapply shapeInv_resolved; eauto. intros id Hid.
    destruct (Hnew id Hid) as (N1 & N2 & N3). auto. }
  destruct Hext as [_ Hv01].
  assert (HXtag1 : tagOf st1 X <> Some FunctionGroupsT).
  { destruct (Hv01 X HX) as [-> _]. exact HXtag. }
  assert (Hlift1 : inFunction nt = true -> cb = false -> liftable st1 X).
  { intros H1 H2. eapply liftable_kept; [exact (Hlift H1 H2) | lia | |].
    - intros id Hid. destruct (Hv01 id Hid) as (B1 & _ & B3 & _). auto.
    - intros g Hg. destruct (Hlift H1 H2) as (_ & g' & G1 & G2 & _).
      assert (g' = g) by congruence. subst g'.
      apply (Hv01 g). eapply tagOf_Some; eauto. }
  destruct (NonTerminal_eqb nt FUNCTIONS) eqn:Ent.
  - (* a function: its declaration and its body *)
    assert (nt = FUNCTIONS) by (destruct nt; try discriminate; reflexivity). subst nt.
    destruct (AbstractParser.getFirstLast (AbstractParser.state acc)) as [first last].
    destruct (Js.nthZ nodes first) as [[D |] |] eqn:ED; try discriminate.
    destruct (Js.nthZ (AbstractParser.ntParseRange acc) first) as [[declarationRange |] |];
      try discriminate.
    destruct (Js.nthZ (AbstractParser.ntParseRange acc) last) as [[bodyRange |] |];
      try discriminate.
    destruct (Heap.addChild st1 X D) as [st2 |] eqn:Eadd; [| discriminate].
    cbn [bind] in H. apply addChild_view in Eadd.
    destruct (AbstractParser.parseNonTerminal L fuel p FUNCTION_DECLARATION D declarationRange
                (depth + 1)%Z (AbstractParser.mkPState L st2 det)) as [ps3 |] eqn:Edecl;
      [| discriminate].
    cbn [bind] in H.
    assert (HD : List.length st0 <= D < List.length st1).
    { apply Hin_fresh. apply In_somes. eapply nthZ_In; eauto. }
    destruct (Hnew D HD) as (D1 & D2 & D3).
    assert (Hinv2 : shapeInv cb st2) by (eapply shapeInv_Added; eauto).
    assert (Hlen2 : List.length st2 = List.length st1) by apply Eadd.
    assert (Hpre2 : shapePre cb FUNCTION_DECLARATION D st2).
    { split; [lia |]. split; [| discriminate].
      rewrite (Added_tagOf _ _ _ _ _ Eadd). exact D1. }
    destruct (IH _ _ _ _ _ _ Edecl Hinv2 Hpre2) as [Hinv3 [Hl3 Hf3]].
    cbn [AbstractParser.psStore] in Hinv3, Hl3, Hf3.
    set (st3 := AbstractParser.psStore L ps3) in *. fold cb in Hinv3, Hf3.
    assert (Hold3 : forall id, id < List.length st0 ->
              tagOf st3 id = tagOf st0 id /\ rangeOf st3 id = rangeOf st0 id
              /\ parentOf st3 id = parentOf st0 id /\ rankOf st3 id = rankOf st0 id
              /\ (id <> X -> childrenOf st3 id = childrenOf st0 id)).
    { intros id Hid.
      destruct (Hf3 id ltac:(lia)) as (B1 & B2 & B3 & B4 & B5).
      destruct (Hv01 id Hid) as (C1 & C2 & C3 & C4 & C5).
      rewrite B1, B2, B3, B4.
      rewrite (Added_tagOf _ _ _ _ _ Eadd), (Added_rangeOf _ _ _ _ _ Eadd).
      rewrite (Added_parentOf_other _ _ _ _ _ Eadd), (Added_rankOf_other _ _ _ _ _ Eadd)
        by lia.
      repeat (split; [assumption |]).
      intros Hne. rewrite B5.
      - rewrite (Added_childrenOf_other _ _ _ _ _ Eadd) by assumption. exact C5.
      - intros [-> | (T1 & _)]; [lia | discriminate]. }
    assert (Hpre3 : shapePre cb FUNCTION_BODY X st3).
    { split; [lia |]. split.
      - destruct (Hold3 X HX) as [-> _]. exact HXtag.
      - intros _ Hcb. eapply liftable_kept; [exact (Hlift eq_refl Hcb) | lia | |].
        + intros id Hid. destruct (Hold3 id Hid) as (B1 & _ & B3 & _). auto.
        + intros g Hg. destruct (Hlift eq_refl Hcb) as (T1 & g' & G1 & G2 & _).
          assert (g' = g) by congruence. subst g'.
          apply Hold3; [eapply tagOf_Some; eauto |]. intros ->. congruence. }
    destruct (IH _ _ _ _ _ _ H Hinv3 Hpre3) as [Hinv4 [Hl4 Hf4]].
    fold st3 in Hl4, Hf4. fold cb in Hinv4, Hf4.
    split; [exact Hinv4 |]. split; [lia |].
    intros id Hid.
    destruct (Hf4 id ltac:(lia)) as (B1 & B2 & B3 & B4 & B5).
    destruct (Hold3 id Hid) as (C1 & C2 & C3 & C4 & C5).
    rewrite B1, B2, B3, B4. repeat (split; [assumption |]).
    intros Hnt. rewrite B5.
    + apply C5. intros ->. apply Hnt. now left.
    + intros [-> | (T1 & T2 & T3)]; [apply Hnt; now left |].
      apply Hnt. right. split; [reflexivity |]. split; [exact T2 |].
      destruct (Hold3 X HX) as (_ & _ & <- & _). exact T3.
  - (* the other non-terminals: the nodes are added, then parsed into *)
    assert (Hnt : nt <> FUNCTIONS) by (intros ->; discriminate).
    pose proof (validate_allowed _ _ Hvalid Hnt) as Hallowed.
    destruct (AbstractParser.attachChildren L nt X (AbstractParser.state acc) nodes st1)
      as [st2 |] eqn:Eatt; [| discriminate].
    cbn [bind] in H.
    unfold AbstractParser.attachChildren in Eatt.
    match type of Eatt with
    | bind (AbstractParser.attachLoop _ _ ?c1 ?c2 _ _ _) _ = _ =>
        set (check := c1) in *; set (checkFirst := c2) in *
    end.
    destruct (AbstractParser.attachLoop nt X check checkFirst (AbstractParser.state acc) nodes
                (AbstractParser.mkAttachState st1 None true)) as [a |] eqn:Eloop;
      [| discriminate].
    cbn [bind] in Eatt.
    assert (Hcheck : check = true -> cb = true).
    { unfold check. fold cb. intros E. apply andb_true_iff in E. apply E. }
    assert (HcheckFirst : checkFirst = true -> cb = false /\ inFunction nt = true).
    { unfold checkFirst. fold cb. intros E. apply andb_true_iff in E. destruct E as [E1 E2].
      apply negb_true_iff in E1. split; [exact E1 |].
      destruct nt; try discriminate; reflexivity. }
    assert (Hstart : attachInv cb nt X st1 (List.length st0) check st1 None true nodes).
    { split; [| split; [| split]].
      - rewrite app_nil_r. unfold coreInv.
        split; [apply Hinv1 |]. split; [lia |]. split; [auto |]. split; [auto |].
        split; [intros id Hid; now apply Hnew |]. split; [| split].
        + intros x Hx. apply Hin_fresh in Hx. split; [exact Hx | now apply Hnew].
        + intros y Hy Hn. exfalso. apply Hn. now apply Hin_fresh.
        + intros g Hg _. now apply Hinv1.
      - rewrite Hseq. apply seq_NoDup.
      - discriminate.
      - intros _. exact Hlift1. }
    assert (Hend : attachInv cb nt X st1 (List.length st0) check
                     (AbstractParser.atStore a) (AbstractParser.danglingMultilineComment a)
                     (AbstractParser.isFirst a) []).
    { eapply (attachLoop_inv cb nt X st1 (List.length st0) check checkFirst);
        [.. | exact Eloop | exact Hstart]; eauto using Resolved_symTag_none. }
    assert (Hcore : coreInv cb nt X st1 (List.length st0) st2 [] None).
    { eapply (attach_end cb nt X st1 (List.length st0) check); [.. | exact Hend |]; eauto.
      destruct (AbstractParser.danglingMultilineComment a) as [d |].
      - now apply addChild_view.
      - now inv Eatt. }
    clear Eatt Eloop Hend Hstart.
    assert (Hrec0 : recInv cb nt X st1 (List.length st0) st2 (somes nodes)).
    { apply coreInv_recInv; [exact Hcore |]. intros y Hy. now apply Hin_fresh. }
    assert (Hfin : recInv cb nt X st1 (List.length st0) (AbstractParser.psStore L ps') []).
    { eapply (recurseChildren_shape L nt X st1 (List.length st0));
        [.. | exact H | exact Hrec0]; eauto using Resolved_nodeFor.
      rewrite Hseq. apply seq_NoDup. }
    destruct Hfin as (R1 & R2 & R3 & R4 & _).
    split; [exact R1 |]. split; [lia |].
    intros id Hid.
    destruct (Hv01 id Hid) as (C1 & C2 & C3 & C4 & C5).
    destruct (R3 id ltac:(lia)) as [-> ->]. destruct (R4 id Hid) as (-> & -> & B5).
    repeat (split; [assumption |]).
    intros Hn. rewrite B5; [exact C5 |].
    intros [-> | (T1 & T2 & T3)]; apply Hn; [now left |].
    right. split; [exact T1 |]. split; [exact T2 |].
    destruct (Hv01 X HX) as (_ & _ & <- & _). exact T3.
Qed.

End ParseShape.

(* ================================================================== *)
(** ** The shape of the groups of a parsed tree *)

Section ParsedShape.
Local Open Scope nat_scope.

Lemma python_factories : FactoriesOk PythonParser.language.
Proof.
  unfold FactoriesOk, nodeOk. simpl.
  repeat split;
    match goal with
    | H : _ = Ok _ |- _ =>
        unfold PythonParser.createArgumentNode, PythonParser.createAttributesNode,
               PythonParser.createCommentsNode, PythonParser.createReferencesNode,
               PythonParser.createClassesNode, PythonParser.createFunctionsNode,
               PythonParser.createFunctionDeclarationNode,
               SyntaxNode.overrideInnerRange in H;
        repeat match type of H with
          | match ?x with _ => _ end = _ => destruct x; try discriminate H
          | (if ?c then _ else _) = _ => destruct c; try discriminate H
          end;
        inv H; reflexivity
    end.
Qed.

Lemma typescript_factories : FactoriesOk TypeScriptParser.language.
Proof. exact python_factories. Qed.

Lemma parse_shape (L : Language) (det : DetState L) (codeLines : list string)
  (tree : AbstractSyntaxTree.t) :
  FactoriesOk L ->
  AbstractParser.parse L det codeLines = Ok tree ->
  shapeInv (isCommentBeforeFunction L) (AbstractSyntaxTree.store tree).
Proof.
  intros HF H. unfold AbstractParser.parse in H.
  destruct (AbstractParser.isEmptyInput codeLines); [discriminate |].
  destruct (AbstractParser.tokenizeLines L det codeLines) as [p |]; [| discriminate].
  cbn [bind] in H.
  destruct (preparse L det codeLines (sourceTokens p)) as [det1 |]; [| discriminate].
  unfold Heap.alloc in H. cbn [bind] in H.
  match type of H with
  | bind ?m _ = _ => destruct m as [ps |] eqn:E; [| discriminate]
  end.
  cbn [bind] in H. injection H as <-. cbn [AbstractSyntaxTree.store].
  pose proof (parseNonTerminal_shape L HF _ _ _ _ _ _ _ _ E) as Hs.
  apply Hs.
  - cbn [AbstractParser.psStore app]. split.
    + intros q i x Hx. destruct q as [| q]; [destruct i; discriminate |].
      destruct q; destruct i; discriminate.
    + intros g Hg. destruct g as [| g]; [discriminate |]. destruct g; discriminate.
  - cbn [AbstractParser.psStore app List.length]. split; [simpl; lia |].
    split; discriminate.
Qed.

Lemma group_children (cb : bool) (st : Store) (g : NodeId) :
  shapeInv cb st -> tagOf st g = Some FunctionGroupsT ->
  groupOfOne st g
  \/ (cb = true /\ groupCommentFirst st g)
  \/ (cb = false /\ groupFunctionFirst st g).
Proof.
  intros [Hl Hg] Htag.
  assert (Hchild : forall i x, nth_error (childrenOf st g) i = Some x ->
                     parentOf st x = Some g /\ rankOf st x = i).
  { intros i x Hx. destruct (Hl _ _ _ Hx) as (_ & H1 & H2). auto. }
  destruct (Hg g Htag) as [(f & H1 & H2) | [(Hcb & c & f & H1 & H2 & H3)
                                          | (Hcb & f & c & H1 & H2 & H3)]].
  - left. exists f. split; [exact H1 |].
    destruct (Hchild 0 f) as [P1 P2]; [now rewrite H1 |]. repeat split; assumption.
  - right. left. split; [exact Hcb |]. exists c, f. split; [exact H1 |].
    destruct (Hchild 0 c) as [P1 P2]; [now rewrite H1 |].
    destruct (Hchild 1 f) as [P3 P4]; [now rewrite H1 |]. repeat split; assumption.
  - right. right. split; [exact Hcb |]. exists f, c. split; [exact H1 |].
    destruct (Hchild 0 f) as [P1 P2]; [now rewrite H1 |].
    destruct (Hchild 1 c) as [P3 P4]; [now rewrite H1 |]. repeat split; assumption.
Qed.

End ParsedShape.

(** C3, as the code has it. After every successful parse by a parser whose
    factories return fresh nodes of their class, a group holds its function
    alone, or two children: where comments come before functions (the
    TypeScript-like parser) a multi-line comment with sibling rank 0
    followed by the function with sibling rank 1, as specified; where the
    doc comment is the first statement of the body (the Python parser) the
    function with sibling rank 0 followed by the doc comment with sibling
    rank 1. *)
Theorem function_groups_shape :
  (forall (L : Language) (det : DetState L) (codeLines : list string)
          (tree : AbstractSyntaxTree.t) (g : NodeId),
      FactoriesOk L ->
      AbstractParser.parse L det codeLines = Ok tree ->
      tagOf (AbstractSyntaxTree.store tree) g = Some FunctionGroupsT ->
      groupOfOne (AbstractSyntaxTree.store tree) g
      \/ (isCommentBeforeFunction L = true
          /\ groupCommentFirst (AbstractSyntaxTree.store tree) g)
      \/ (isCommentBeforeFunction L = false
          /\ groupFunctionFirst (AbstractSyntaxTree.store tree) g))
  /\ (forall (codeLines : list string) (tree : AbstractSyntaxTree.t) (g : NodeId),
         TypeScriptParser.parse codeLines = Ok tree ->
         tagOf (AbstractSyntaxTree.store tree) g = Some FunctionGroupsT ->
         groupAsSpecified (AbstractSyntaxTree.store tree) g)
  /\ (forall (codeLines : list string) (tree : AbstractSyntaxTree.t) (g : NodeId),
         PythonParser.parse codeLines = Ok tree ->
         tagOf (AbstractSyntaxTree.store tree) g = Some FunctionGroupsT ->
         groupOfOne (AbstractSyntaxTree.store tree) g
         \/ groupFunctionFirst (AbstractSyntaxTree.store tree) g).
Proof.
  split; [| split].
  - intros L det codeLines tree g HF Hparse Htag.
    eapply group_children; [eapply parse_shape; eauto | exact Htag].
  - intros codeLines tree g Hparse Htag.
    apply typescript_parse_inv in Hparse. destruct Hparse as [det Hparse].
    pose proof (parse_shape _ _ _ _ typescript_factories Hparse) as Hinv.
    destruct (group_children _ _ _ Hinv Htag)
      as [(f & H1 & H2) | [(_ & c & f & H1 & H2 & H3) | (Hcb & _)]].
    + left. exists f. auto.
    + right. exists c, f, true. auto.
    + discriminate.
  - intros codeLines tree g Hparse Htag.
    apply python_parse_inv in Hparse. destruct Hparse as [det Hparse].
    pose proof (parse_shape _ _ _ _ python_factories Hparse) as Hinv.
    destruct (group_children _ _ _ Hinv Htag) as [H | [(Hcb & _) | (_ & H)]].
    + now left.
    + discriminate.
    + now right.
Qed.

Lemma function_groups_shape_witness :
  exists tree : AbstractSyntaxTree.t,
    PythonParser.parse pythonDocLines = Ok tree
    /\ tagOf (AbstractSyntaxTree.store tree) 2%nat = Some FunctionGroupsT
    /\ (groupOfOne (AbstractSyntaxTree.store tree) 2%nat
        \/ groupFunctionFirst (AbstractSyntaxTree.store tree) 2%nat).
Proof.
  eexists. split; [vm_compute; reflexivity |]. split; [reflexivity |].
  eapply (proj2 (proj2 function_groups_shape) pythonDocLines).
  - vm_compute. reflexivity.
  - reflexivity.
Defined.

(** The claim C3 as written fails for the Python parser: the group of a
    function with a doc comment holds the function first and the comment
    second. *)
Lemma python_doc_comment_follows_function :
  exists tree : AbstractSyntaxTree.t,
    PythonParser.parse pythonDocLines = Ok tree
    /\ tagOf (AbstractSyntaxTree.store tree) 2%nat = Some FunctionGroupsT
    /\ childrenOf (AbstractSyntaxTree.store tree) 2%nat = [1%nat; 4%nat]
    /\ childAt (AbstractSyntaxTree.store tree) 2%nat 1%nat 0%nat FunctionsT
    /\ childAt (AbstractSyntaxTree.store tree) 2%nat 4%nat 1%nat (CommentsT true)
    /\ ~ groupAsSpecified (AbstractSyntaxTree.store tree) 2%nat.
Proof.
  eexists. split; [vm_compute; reflexivity |].
  split; [reflexivity |]. split; [reflexivity |].
  split; [repeat split |]. split; [repeat split |].
  intros [(f & H1 & _) | (c & f & ml & H1 & (H2 & _) & _)].
  - discriminate.
  - injection H1 as <- <-. discriminate.
Qed.

(* ================================================================== *)
(** ** Positions and token boundaries *)

Section Positions.
Local Open Scope nat_scope.

Lemma idxLe_iff (i j : Index) :
  idxLe i j <-> line i < line j \/ (line i = line j /\ character i <= character j).
Proof.
  unfold idxLe, Utils.compare.
  destruct (line i <? line j) eqn:E1; [apply Nat.ltb_lt in E1; split; [auto | lia] |].
  apply Nat.ltb_ge in E1.
  destruct (line j <? line i) eqn:E2; [apply Nat.ltb_lt in E2; split; lia |].
  apply Nat.ltb_ge in E2.
  destruct (character i <? character j) eqn:E3; [apply Nat.ltb_lt in E3; split; lia |].
  apply Nat.ltb_ge in E3.
  destruct (character j <? character i) eqn:E4; [apply Nat.ltb_lt in E4; split; lia |].
  apply Nat.ltb_ge in E4. split; lia.
Qed.

Lemma idxLe_refl (i : Index) : idxLe i i.
Proof. apply idxLe_iff. lia. Qed.

Lemma idxLe_trans (i j k : Index) : idxLe i j -> idxLe j k -> idxLe i k.
Proof. rewrite !idxLe_iff. lia. Qed.

Lemma linePositions_line (lines : list string) :
  forall k i, In i (linePositions k lines) -> k <= line i.
Proof.
  induction lines as [| l rest IH]; intros k i Hin; [contradiction |].
  simpl in Hin. destruct Hin as [<- | Hin]; [simpl; lia |].
  apply in_app_iff in Hin. destruct Hin as [Hin | Hin].
  - apply in_map_iff in Hin. destruct Hin as [c [<- _]]. simpl. lia.
  - apply IH in Hin. lia.
Qed.

Lemma linePositions_length (lines : list string) :
  forall k, List.length (linePositions k lines) = List.length (fedLines lines).
Proof.
  induction lines as [| l rest IH]; intros k; [reflexivity |].
  cbn [linePositions]. rewrite fedLines_cons, !length_app, length_map, length_seq, IH.
  rewrite length_chars. simpl. lia.
Qed.

Lemma sorted_line (k : nat) (cs : list nat) :
  StronglySorted le cs -> StronglySorted idxLe (map (mkIndex k) cs).
Proof.
  intros H. induction H as [| c cs Hs IH Hall]; [constructor |].
  simpl. constructor; [exact IH |].
  apply Forall_map. eapply Forall_impl; [| exact Hall].
  intros c' Hc. apply idxLe_iff. simpl. lia.
Qed.

Lemma sorted_seq (a n : nat) : StronglySorted le (seq a n).
Proof.
  revert a. induction n as [| n IH]; intros a; [constructor |].
  simpl. constructor; [apply IH |].
  apply Forall_forall. intros x Hx. apply in_seq in Hx. lia.
Qed.

Lemma sorted_app {A : Type} (R : A -> A -> Prop) (l1 l2 : list A) :
  StronglySorted R l1 -> StronglySorted R l2 ->
  (forall x y, In x l1 -> In y l2 -> R x y) ->
  StronglySorted R (l1 ++ l2).
Proof.
  intros H1 H2 H. induction H1 as [| x l1 Hs IH Hall]; [exact H2 |].
  simpl. constructor.
  - apply IH. intros a b Ha Hb. apply H; [now right | exact Hb].
  - apply Forall_app. split; [exact Hall |].
    apply Forall_forall. intros y Hy. apply H; [now left | exact Hy].
Qed.

Lemma linePositions_sorted (lines : list string) :
  forall k, StronglySorted idxLe (linePositions k lines
                                  ++ [mkIndex (k + List.length lines) 0]).
Proof.
  induction lines as [| l rest IH]; intros k.
  - simpl. constructor; [constructor | constructor].
  - cbn [linePositions]. rewrite <- app_assoc. apply sorted_app.
    + apply sorted_line. apply sorted_seq.
    + replace (k + List.length (l :: rest)) with (S k + List.length rest) by (simpl; lia).
      apply IH.
    + intros x y Hx Hy. apply in_map_iff in Hx. destruct Hx as [c [<- _]].
      apply idxLe_iff. simpl. left.
      apply in_app_iff in Hy. destruct Hy as [Hy | [<- | []]].
      * apply linePositions_line in Hy. lia.
      * simpl. lia.
Qed.

Lemma sorted_nth {A : Type} (R : A -> A -> Prop) (d : A) (l : list A) :
  (forall x, R x x) -> StronglySorted R l ->
  forall i j, i <= j < List.length l -> R (nth i l d) (nth j l d).
Proof.
  intros Hrefl H. induction H as [| x l Hs IH Hall]; intros i j Hij; [simpl in Hij; lia |].
  destruct i as [| i], j as [| j]; simpl in *; try lia.
  - apply Hrefl.
  - rewrite Forall_forall in Hall. apply Hall. apply nth_In. lia.
  - apply IH. lia.
Qed.

Section FrontEndPositions.
Variable L : Language.

Lemma feedLine_positions (chars : list ascii) :
  forall (k c : nat) (pm pm' : list Index) (tk tk' : AbstractTokenizer.t (lexer L)),
    AbstractParser.feedLine L k chars c pm tk = Ok (pm', tk') ->
    pm' = pm ++ map (mkIndex k) (seq c (S (List.length chars))).
Proof.
  induction chars as [| ch chars IH]; intros k c pm pm' tk tk' H;
    cbn [AbstractParser.feedLine] in H.
  - destruct (AbstractTokenizer.next tk (Some Js.nl)) as [tk1 |]; [| discriminate].
    cbn [bind] in H. now inv H.
  - destruct (AbstractTokenizer.next tk (Some ch)) as [tk1 |]; [| discriminate].
    cbn [bind] in H. apply IH in H. subst pm'.
    rewrite <- app_assoc. reflexivity.
Qed.

Lemma feedLines_positions (lines : list string) :
  forall (k : nat) (pm pm' : list Index) (tk tk' : AbstractTokenizer.t (lexer L)),
    AbstractParser.feedLines L lines k pm tk = Ok (pm', tk') ->
    pm' = pm ++ linePositions k lines.
Proof.
  induction lines as [| l rest IH]; intros k pm pm' tk tk' H;
    cbn [AbstractParser.feedLines] in H.
  - inv H. now rewrite app_nil_r.
  - destruct (AbstractParser.feedLine L k (Js.chars l) 0 pm tk) as [[pm1 tk1] |] eqn:E;
      [| discriminate].
    cbn [bind] in H. apply feedLine_positions in E. apply IH in H. subst pm' pm1.
    cbn [linePositions]. rewrite length_chars, <- app_assoc. reflexivity.
Qed.

(** The position map of the front end. *)
Lemma tokenizeLines_positions (det : DetState L) (codeLines : list string) (p : ParserBase) :
  AbstractParser.tokenizeLines L det codeLines = Ok p ->
  List.length (positionMap p) = S (numChars p)
  /\ (forall i j, i <= j <= numChars p ->
        idxLe (nth i (positionMap p) (mkIndex 0 0)) (nth j (positionMap p) (mkIndex 0 0))).
Proof.
  unfold AbstractParser.tokenizeLines. intros H.
  destruct (preparseGetTokenizer L det) as [tk0 |]; [| discriminate].
  cbn [bind] in H.
  destruct (AbstractParser.feedLines L codeLines 0 [] tk0) as [[pm tk] |] eqn:E;
    [| discriminate].
  cbn [bind] in H.
  destruct (AbstractTokenizer.next tk None) as [tk1 |]; [| discriminate].
  cbn [bind] in H. inv H. cbn [positionMap numChars].
  apply feedLines_positions in E. simpl in E. subst pm.
  split; [rewrite length_app; simpl; lia |].
  intros i j Hij. apply sorted_nth.
  - apply idxLe_refl.
  - apply (linePositions_sorted codeLines 0).
  - rewrite length_app. simpl. lia.
Qed.

End FrontEndPositions.

(** *** Token boundaries *)

Lemma contiguous_nth (toks : list Token) :
  forall (start stop k : nat) (t : Token),
    contiguous start toks stop ->
    nth_error toks k = Some t ->
    start <= cr_start (characterRange t)
    /\ cr_start (characterRange t) < cr_end (characterRange t)
    /\ cr_end (characterRange t) <= stop
    /\ cr_end (characterRange t)
       = match nth_error toks (S k) with
         | Some t' => cr_start (characterRange t')
         | None => stop
         end.
Proof.
  induction toks as [| t0 toks IH]; intros start stop k t Hc Hk; [destruct k; discriminate |].
  destruct Hc as (C1 & C2 & C3 & C4).
  assert (Hstop : forall s, contiguous s toks stop -> s <= stop).
  { clear. induction toks as [| t1 toks IH]; intros s H; simpl in H; [lia |].
    destruct H as (C1 & C2 & C3 & C4). apply IH in C4. lia. }
  destruct k as [| k].
  - simpl in Hk. inv Hk. split; [lia |]. split; [lia |].
    split; [now apply Hstop |].
    destruct toks as [| t1 toks]; simpl; [simpl in C4; exact C4 |].
    destruct C4 as (D1 & _). now rewrite D1.
  - simpl in Hk. destruct (IH _ _ _ _ C4 Hk) as (E1 & E2 & E3 & E4).
    split; [lia |]. split; [exact E2 |]. split; [exact E3 | exact E4].
Qed.

Section Boundaries.
Variable p : ParserBase.
Hypothesis Hfront : frontOk p.

Lemma tokStartAt_le (k : Z) : tokStartAt p k <= numChars p.
Proof.
  unfold tokStartAt, Js.nthZ. destruct Hfront as (Hc & _).
  destruct (k <? 0)%Z; [lia |].
  destruct (nth_error (sourceTokens p) (Z.to_nat k)) as [t |] eqn:E; [| lia].
  destruct (contiguous_nth _ _ _ _ _ Hc E) as (_ & H2 & H3 & _). lia.
Qed.

Lemma tokStartAt_succ (k : Z) (t : Token) :
  Js.nthZ (sourceTokens p) k = Some t ->
  tokStartAt p k = cr_start (characterRange t)
  /\ tokStartAt p (k + 1) = cr_end (characterRange t)
  /\ tokStartAt p k < tokStartAt p (k + 1).
Proof.
  intros E. unfold tokStartAt. rewrite E. split; [reflexivity |].
  unfold Js.nthZ in *. destruct (k <? 0)%Z eqn:Ek; [discriminate |].
  apply Z.ltb_ge in Ek.
  destruct (k + 1 <? 0)%Z eqn:Ek1; [apply Z.ltb_lt in Ek1; lia |].
  replace (Z.to_nat (k + 1)) with (S (Z.to_nat k)) by lia.
  destruct Hfront as (Hc & _).
  destruct (contiguous_nth _ _ _ _ _ Hc E) as (_ & H2 & _ & H4).
  rewrite <- H4. split; [reflexivity | exact H2].
Qed.

Lemma tokStartAt_mono_nat (n : nat) (a : Z) :
  (0 <= a)%Z -> tokStartAt p a <= tokStartAt p (a + Z.of_nat n).
Proof.
  intros Ha. induction n as [| n IH]; [now rewrite Z.add_0_r |].
  replace (a + Z.of_nat (S n))%Z with ((a + Z.of_nat n) + 1)%Z by lia.
  destruct (Js.nthZ (sourceTokens p) (a + Z.of_nat n)) as [t |] eqn:E.
  - destruct (tokStartAt_succ _ _ E) as (_ & _ & H). lia.
  - assert (H1 : tokStartAt p (a + Z.of_nat n) = numChars p)
      by (unfold tokStartAt; now rewrite E).
    assert (H2 : tokStartAt p (a + Z.of_nat n + 1) = numChars p).
    { unfold tokStartAt, Js.nthZ in *.
      destruct (a + Z.of_nat n <? 0)%Z eqn:E1; [apply Z.ltb_lt in E1; lia |].
      destruct (a + Z.of_nat n + 1 <? 0)%Z eqn:E2; [reflexivity |].
      apply nth_error_None in E.
      replace (Z.to_nat (a + Z.of_nat n + 1)) with (S (Z.to_nat (a + Z.of_nat n))) by lia.
      assert (E3 : nth_error (sourceTokens p) (S (Z.to_nat (a + Z.of_nat n))) = None)
        by (apply nth_error_None; lia).
      now rewrite E3. }
    pose proof (tokStartAt_le a). lia.
Qed.

Lemma tokStartAt_mono (a b : Z) : (0 <= a <= b)%Z -> tokStartAt p a <= tokStartAt p b.
Proof.
  intros H. replace b with (a + Z.of_nat (Z.to_nat (b - a)))%Z by lia.
  apply tokStartAt_mono_nat. lia.
Qed.

(** The boundaries grow with the token indices. *)
Lemma boundary_mono (a b : Z) : (0 <= a <= b)%Z -> idxLe (boundary p a) (boundary p b).
Proof.
  intros H. unfold boundary. destruct Hfront as (_ & _ & Hpm). apply Hpm.
  split; [now apply tokStartAt_mono | apply tokStartAt_le].
Qed.

(** The range of the tokens of a symbol lies between two boundaries. *)
Lemma tokenSpanRange_boundary (r : TokenRange) (rng : Range) :
  tokenSpanRange p r = Ok rng ->
  Utils.rangeToStartIndex rng = boundary p (startTok r)
  /\ Utils.rangeToEndIndex rng = boundary p (endTok r)
  /\ (0 <= startTok r)%Z /\ (1 <= endTok r)%Z.
Proof.
  unfold tokenSpanRange, AbstractParser.getTokenChRange, AbstractParser.getRange.
  intros H.
  destruct (Js.nthZ (sourceTokens p) (startTok r)) as [first |] eqn:E1; [| discriminate].
  cbn [bind] in H.
  destruct (Js.nthZ (sourceTokens p) (endTok r - 1)) as [last |] eqn:E2; [| discriminate].
  cbn [bind] in H.
  destruct (nth_error (positionMap p) (cr_start (characterRange first))) as [s |] eqn:E3;
    [| discriminate].
  destruct (nth_error (positionMap p) (cr_end (characterRange last))) as [e |] eqn:E4;
    [| discriminate].
  inv H. unfold Utils.rangeToStartIndex, Utils.rangeToEndIndex. simpl.
  destruct (tokStartAt_succ _ _ E1) as (S1 & _).
  destruct (tokStartAt_succ _ _ E2) as (_ & S2 & _).
  replace (endTok r - 1 + 1)%Z with (endTok r) in S2 by lia.
  unfold boundary. rewrite S1, S2.
  rewrite (nth_error_nth _ _ _ E3), (nth_error_nth _ _ _ E4).
  split; [now destruct s |]. split; [now destruct e |].
  unfold Js.nthZ in E1, E2.
  destruct (startTok r <? 0)%Z eqn:F1; [discriminate |].
  destruct (endTok r - 1 <? 0)%Z eqn:F2; [discriminate |].
  apply Z.ltb_ge in F1, F2. lia.
Qed.

End Boundaries.

End Positions.

(* ================================================================== *)
(** ** The ranges that the detection loop commits *)

Section DetectRanges.
Variable L : Language.

Lemma chained_snoc (ranges : list TokenRange) :
  forall (s e e' : Z),
    chained s ranges e -> e <= e' ->
    chained s (ranges ++ [mkTokenRange e e']) e'.
Proof.
  induction ranges as [| r rest IH]; intros s e e' H He; simpl in *.
  - subst. repeat split; lia.
  - destruct H as (H1 & H2 & H3). repeat split; auto.
Qed.

Lemma chained_le (ranges : list TokenRange) :
  forall (s e : Z), chained s ranges e -> s <= e.
Proof.
  induction ranges as [| r rest IH]; intros s e H; simpl in H; [lia |].
  destruct H as (H1 & H2 & H3). apply IH in H3. lia.
Qed.

(** A later symbol starts where an earlier one ends, or after it. *)
Lemma chained_nth (ranges : list TokenRange) :
  forall (s e : Z) (i j : nat) (ri rj : TokenRange),
    chained s ranges e ->
    nth_error ranges i = Some ri -> nth_error ranges j = Some rj -> (i < j)%nat ->
    endTok ri <= startTok rj.
Proof.
  induction ranges as [| r rest IH]; intros s e i j ri rj H Hi Hj Hij;
    [destruct i; discriminate |].
  destruct H as (H1 & H2 & H3).
  destruct j as [| j]; [lia |]. simpl in Hj.
  destruct i as [| i].
  - simpl in Hi. inv Hi. clear IH Hij. revert H3 j Hj. generalize (endTok ri).
    induction rest as [| r' rest IH]; intros z H3 j Hj; [destruct j; discriminate |].
    destruct H3 as (G1 & G2 & G3). destruct j as [| j]; simpl in Hj.
    + inv Hj. lia.
    + specialize (IH _ G3 _ Hj). lia.
  - simpl in Hi. eapply IH; eauto. lia.
Qed.

Lemma chained_start (ranges : list TokenRange) :
  forall (s e : Z) (i : nat) (ri : TokenRange),
    chained s ranges e -> nth_error ranges i = Some ri ->
    s <= startTok ri /\ startTok ri <= endTok ri.
Proof.
  induction ranges as [| r rest IH]; intros s e i ri H Hi; [destruct i; discriminate |].
  destruct H as (H1 & H2 & H3). destruct i as [| i]; simpl in Hi.
  - inv Hi. lia.
  - destruct (IH _ _ _ _ H3 Hi). lia.
Qed.

Lemma pushSymbol_ranges (acc acc' : AbstractParser.Acc) (sym : SymbolInfo) (r : TokenRange) :
  AbstractParser.pushSymbol acc sym r = Ok acc' ->
  exists pr,
    AbstractParser.symbolRange acc' = AbstractParser.symbolRange acc ++ [r]
    /\ AbstractParser.ntParseRange acc' = AbstractParser.ntParseRange acc ++ [pr]
    /\ parseRangeIn r pr
    /\ AbstractParser.parsedEndTokIndex acc' = AbstractParser.parsedEndTokIndex acc
    /\ AbstractParser.tokenBuffer acc' = AbstractParser.tokenBuffer acc.
Proof.
  unfold AbstractParser.pushSymbol. intros H.
  match type of H with bind ?m _ = _ => destruct m eqn:E; [| discriminate] end.
  cbn [bind] in H. inv H. simpl. eexists. repeat split.
  unfold AbstractParser.assertParseRangeCorrectness in E.
  destruct (negb (isTerminal (symbolType sym))).
  - destruct (parseRange sym) as [q |]; simpl.
    + match type of E with (if negb ?c then _ else _) = _ => destruct c eqn:Ec; [| discriminate] end.
      apply andb_true_iff in Ec. destruct Ec as [E1 E2].
      apply Z.leb_le in E1, E2. lia.
    + match type of E with (if negb ?c then _ else _) = _ => destruct c eqn:Ec; [| discriminate] end.
      apply andb_true_iff in Ec. destruct Ec as [E1 E2].
      apply Z.leb_le in E1, E2. lia.
  - destruct (parseRange sym); [discriminate | exact I].
Qed.

Lemma accOrdered_push (s e e' : Z) (acc acc' : AbstractParser.Acc) (sym : SymbolInfo) :
  AbstractParser.pushSymbol acc sym (mkTokenRange e e') = Ok acc' ->
  chained s (AbstractParser.symbolRange acc) e ->
  Forall2 parseRangeIn (AbstractParser.symbolRange acc) (AbstractParser.ntParseRange acc) ->
  e <= e' ->
  chained s (AbstractParser.symbolRange acc') e'
  /\ Forall2 parseRangeIn (AbstractParser.symbolRange acc') (AbstractParser.ntParseRange acc').
Proof.
  intros H A1 A2 He.
  destruct (pushSymbol_ranges _ _ _ _ H) as (pr & P1 & P2 & P3 & P4 & P5).
  split.
  - rewrite P1. now apply chained_snoc.
  - rewrite P1, P2. apply Forall2_app; [exact A2 |]. constructor; [exact P3 | constructor].
Qed.

Lemma manageBuffer_ordered (s : Z) (d : SymbolAdditionDirective) (acc acc' : AbstractParser.Acc) :
  AbstractParser.checkDirective d (Z.of_nat (List.length (AbstractParser.tokenBuffer acc)))
  = Ok tt ->
  AbstractParser.manageBuffer d acc = Ok acc' ->
  accOrdered s acc -> accOrdered s acc'.
Proof.
  unfold AbstractParser.checkDirective, AbstractParser.manageBuffer.
  set (n := Z.of_nat (List.length (AbstractParser.tokenBuffer acc))).
  set (pe := AbstractParser.parsedEndTokIndex acc).
  assert (Hn : 0 <= n) by (unfold n; lia).
  intros Hc H (A1 & A2). fold pe in A1.
  destruct (AbstractParser.isTopLevelSymbol (symbolType (symbol d))); [discriminate |].
  match type of Hc with (if ?c then _ else _) = _ => destruct c; [discriminate |] end.
  destruct (secondSymbol d) as [s2 |], (secondSymbolLen d) as [l |],
           (firstTwoSymbolsEndBufferLen d) as [f |]; simpl in Hc;
    repeat match type of Hc with
      | (if ?c then _ else _) = _ =>
          let E := fresh "E" in destruct c eqn:E; [discriminate |]
      end;
    try discriminate;
    repeat match goal with
      | E : (_ <? _) = false |- _ => apply Z.ltb_ge in E
      | E : (_ <=? _) = false |- _ => apply Z.leb_gt in E
      end;
    replace (pe + 0) with pe in H by lia;
    repeat match type of H with
      | bind ?m _ = _ =>
          let P := fresh "P" in
          destruct m eqn:P; [| discriminate]; cbn [bind] in H
      end;
    inv H; unfold accOrdered; simpl;
    repeat match goal with
      | P : AbstractParser.pushSymbol _ _ _ = Ok _ |- _ =>
          eapply accOrdered_push in P; [destruct P | eassumption | eassumption | lia]
      end.
  all: try (split; [| assumption]).
  all: try match goal with
    | H : chained ?s0 ?r ?x |- chained ?s0 ?r ?y => replace y with x by lia; exact H
    end.
Qed.

Lemma updateTokenStreamState_ordered (s : Z) (p : ParserBase) (depth : Z) (nt : NonTerminal)
  (acc acc' : AbstractParser.Acc) (i : Z) (c : bool) (det det' : DetState L) :
  AbstractParser.updateTokenStreamState L p depth nt acc i c det = Ok (acc', det') ->
  accOrdered s acc -> accOrdered s acc'.
Proof.
  unfold AbstractParser.updateTokenStreamState. intros H Hacc.
  match type of H with bind ?m _ = _ => destruct m; [| discriminate] end.
  cbn [bind] in H.
  match type of H with bind ?m _ = _ => destruct m as [[det1 [d |]] |]; [| | discriminate] end;
    cbn [bind] in H.
  - match type of H with bind ?m _ = _ => destruct m as [[] |] eqn:Ec; [| discriminate] end.
    cbn [bind] in H.
    destruct (AbstractParser.manageBuffer d acc) as [acc1 |] eqn:E; [| discriminate].
    cbn [bind] in H. inv H. eapply manageBuffer_ordered; eauto.
  - now inv H.
Qed.

Lemma detectLoop_ordered (s : Z) (p : ParserBase) (depth : Z) (nt : NonTerminal) (count : nat) :
  forall (i : Z) (acc acc' : AbstractParser.Acc) (det det' : DetState L),
    AbstractParser.detectLoop L p depth nt count i acc det = Ok (acc', det') ->
    accOrdered s acc -> accOrdered s acc'.
Proof.
  induction count as [| count IH]; intros i acc acc' det det' H Hacc.
  - now inv H.
  - cbn [AbstractParser.detectLoop] in H.
    destruct (Js.nthZ (sourceTokens p) i) as [token |]; [| discriminate].
    match type of H with
    | bind ?m _ = _ => destruct m as [[acc1 det1] |] eqn:E; [| discriminate]
    end.
    cbn [bind] in H. apply (updateTokenStreamState_ordered s) in E; [| exact Hacc].
    eapply IH; eauto.
Qed.

(** The symbols of one call partition its token range, and the parse range
    of a non-terminal lies inside the range of its symbol. *)
Lemma detectSymbols_ordered (p : ParserBase) (nt : NonTerminal) (tokRange : TokenRange)
  (depth : Z) (det det' : DetState L) (acc : AbstractParser.Acc) :
  AbstractParser.detectSymbols L p nt tokRange depth det = Ok (acc, det') ->
  chained (startTok tokRange) (AbstractParser.symbolRange acc) (endTok tokRange)
  /\ Forall2 parseRangeIn (AbstractParser.symbolRange acc) (AbstractParser.ntParseRange acc).
Proof.
  unfold AbstractParser.detectSymbols. intros H.
  match type of H with
  | bind ?m _ = _ => destruct m as [[acc1 det1] |] eqn:E1; [| discriminate]
  end.
  cbn [bind] in H.
  match type of H with
  | bind ?m _ = _ => destruct m as [[acc2 det2] |] eqn:E2; [| discriminate]
  end.
  cbn [bind] in H.
  match type of H with (if negb ?c then _ else _) = _ => destruct c eqn:Ee; [| discriminate] end.
  simpl in H.
  destruct (AbstractParser.validateParsingState nt (AbstractParser.state acc2)) as [[] |] eqn:E3;
    [| discriminate].
  cbn [bind] in H. inv H. apply Z.eqb_eq in Ee. rewrite <- Ee.
  apply (updateTokenStreamState_ordered (startTok tokRange)) in E2; [exact E2 |].
  apply (detectLoop_ordered (startTok tokRange)) in E1; [exact E1 |].
  split; simpl; [reflexivity | constructor].
Qed.

(** *** The first and the last symbol of a function *)

Lemma getFirstLastFrom_spec (state : list Symbol) (i : nat) :
  AbstractParser.getFirstLastFrom state = Some i ->
  (i < List.length state)%nat
  /\ (forall j s, (j < i)%nat -> nth_error state j = Some s ->
        s = T FILLER \/ s = T STATEMENTS_FILLER)
  /\ (exists s, nth_error state i = Some s /\ s <> T FILLER /\ s <> T STATEMENTS_FILLER).
Proof.
  unfold AbstractParser.getFirstLastFrom.
  set (isContent := fun s : Symbol =>
         negb (Symbol_eqb s (T FILLER)) && negb (Symbol_eqb s (T STATEMENTS_FILLER))).
  set (go := fix go (l : list Symbol) (i : nat) {struct l} : option nat :=
         match l with
         | [] => None
         | s :: rest => if isContent s then Some i else go rest (S i)
         end).
  assert (G : forall l k i, go l k = Some i ->
            (k <= i)%nat /\ (i - k < List.length l)%nat
            /\ (forall j s, (j < i - k)%nat -> nth_error l j = Some s ->
                  s = T FILLER \/ s = T STATEMENTS_FILLER)
            /\ (exists s, nth_error l (i - k) = Some s /\ s <> T FILLER /\ s <> T STATEMENTS_FILLER)).
  { induction l as [| s rest IH]; intros k i0 H; simpl in H; [discriminate |].
    destruct (isContent s) eqn:Ec.
    - inv H. rewrite Nat.sub_diag. simpl. split; [lia |]. split; [lia |].
      split; [intros j s0 Hj; lia |].
      exists s. split; [reflexivity |].
      unfold isContent in Ec. apply andb_true_iff in Ec. destruct Ec as [E1 E2].
      split; intros ->; simpl in *; discriminate.
    - apply IH in H. destruct H as (H1 & H2 & H3 & H4).
      split; [lia |]. split; [simpl; lia |].
      replace (i0 - k)%nat with (S (i0 - S k)) by lia.
      split.
      + intros [| j] s0 Hj Hs; simpl in Hs.
        * inv Hs. unfold isContent in Ec.
          destruct (Symbol_eqb s0 (T FILLER)) eqn:F1;
            [left; now apply Symbol_eqb_eq |].
          destruct (Symbol_eqb s0 (T STATEMENTS_FILLER)) eqn:F2;
            [right; now apply Symbol_eqb_eq | discriminate].
        * eapply H3; eauto. lia.
      + exact H4. }
  intros H. apply G in H. rewrite Nat.sub_0_r in H. tauto.
Qed.

(** Where the first and the last content symbol differ, the first one
    comes first. *)
Lemma getFirstLast_order (state : list Symbol) (fi la : Z) (sf sl : Symbol) :
  AbstractParser.getFirstLast state = (fi, la) ->
  Js.nthZ state fi = Some sf -> Js.nthZ state la = Some sl ->
  sf <> T FILLER -> sf <> T STATEMENTS_FILLER ->
  sl <> T FILLER -> sl <> T STATEMENTS_FILLER ->
  sf <> sl -> 0 <= fi < la.
Proof.
  unfold AbstractParser.getFirstLast. intros H Hf Hl F1 F2 L1 L2 Hne.
  inv H.
  destruct (AbstractParser.getFirstLastFrom state) as [i |] eqn:Ei; [| discriminate].
  destruct (AbstractParser.getFirstLastFrom (rev state)) as [j |] eqn:Ej; [| discriminate].
  apply getFirstLastFrom_spec in Ei, Ej.
  destruct Ei as (I1 & I2 & _). destruct Ej as (J1 & J2 & _).
  rewrite length_rev in J1.
  unfold Js.nthZ in Hf, Hl.
  destruct (Z.of_nat i <? 0) eqn:G1; [discriminate |].
  destruct (Z.of_nat (Datatypes.length state) - 1 - Z.of_nat j <? 0) eqn:G2; [discriminate |].
  rewrite Nat2Z.id in Hf.
  replace (Z.to_nat (Z.of_nat (Datatypes.length state) - 1 - Z.of_nat j))
    with (List.length state - 1 - j)%nat in Hl by lia.
  split; [lia |].
  destruct (Nat.lt_trichotomy i (List.length state - 1 - j)) as [Hlt | [Heq | Hgt]]; [lia | |].
  - rewrite Heq in Hf. congruence.
  - destruct (I2 _ _ Hgt Hl); contradiction.
Qed.

End DetectRanges.

(* ================================================================== *)
(** ** The order of the siblings, step by step *)

Section OrderSteps.
Local Open Scope nat_scope.
Variable cb : bool.

Lemma endsBefore_trans (st : Store) (X : NodeId) (c c' : Index) :
  endsBefore st X c -> idxLe c c' -> endsBefore st X c'.
Proof. intros H Hc x Hx. eapply idxLe_trans; [apply H; exact Hx | exact Hc]. Qed.

Lemma endsBefore_nil (st : Store) (X : NodeId) (c : Index) :
  childrenOf st X = [] -> endsBefore st X c.
Proof. intros E x Hx. rewrite E in Hx. contradiction. Qed.

(** Two stores that show the same children and the same ranges and
    classes. *)
Lemma ordered_same (st st' : Store) :
  (forall id, childrenOf st' id = childrenOf st id) ->
  (forall id, rangeOf st' id = rangeOf st id) ->
  (forall id, tagOf st' id = tagOf st id) ->
  ordered cb st -> ordered cb st'.
Proof.
  intros Hc Hr Ht H g i a b Ha Hb. rewrite Hc in Ha, Hb.
  unfold docGroup, endOf, startOf. rewrite Ht, !Hr. exact (H g i a b Ha Hb).
Qed.

Lemma endsBefore_same (st st' : Store) (X : NodeId) (c : Index) :
  childrenOf st' X = childrenOf st X ->
  (forall x, In x (childrenOf st X) -> rangeOf st' x = rangeOf st x) ->
  endsBefore st X c -> endsBefore st' X c.
Proof.
  intros Hc Hr H x Hx. rewrite Hc in Hx. unfold endOf. rewrite (Hr x Hx). now apply H.
Qed.

Lemma ordered_sameView (st st' : Store) :
  sameView st st' -> ordered cb st -> ordered cb st'.
Proof.
  intros [_ Hv]. apply ordered_same; intros id; apply (Hv id).
Qed.

Lemma endsBefore_sameView (st st' : Store) (X : NodeId) (c : Index) :
  sameView st st' -> endsBefore st X c -> endsBefore st' X c.
Proof.
  intros [_ Hv]. apply endsBefore_same; [apply (Hv X) | intros x _; apply (Hv x)].
Qed.

(** [this.addChild(node)] where the children of [this] end before [node]
    starts. *)
Lemma ordered_Added (st st' : Store) (this node : NodeId) :
  ordered cb st -> Added st this node st' ->
  docGroup cb st this \/ endsBefore st this (startOf st node) ->
  ordered cb st'.
Proof.
  intros H Ha Hend g i a b Hi Hj.
  unfold docGroup, endOf, startOf.
  rewrite (Added_tagOf _ _ _ _ _ Ha), !(Added_rangeOf _ _ _ _ _ Ha).
  destruct (Nat.eq_dec g this) as [-> | Hne].
  - rewrite (Added_childrenOf_this _ _ _ _ Ha) in Hi, Hj.
    destruct Hend as [Hg | Hend]; [now left |].
    destruct (Nat.lt_ge_cases (S i) (List.length (childrenOf st this))) as [Hlt | Hge].
    + rewrite nth_error_app1 in Hi, Hj by lia. exact (H _ _ _ _ Hi Hj).
    + rewrite nth_error_app2 in Hj by lia.
      destruct (S i - List.length (childrenOf st this)) as [| k] eqn:Ek;
        [| destruct k; discriminate].
      simpl in Hj. injection Hj as <-.
      rewrite nth_error_app1 in Hi by lia.
      right. apply Hend. eapply nth_error_In; eauto.
  - rewrite (Added_childrenOf_other _ _ _ _ _ Ha) in Hi, Hj by assumption.
    exact (H _ _ _ _ Hi Hj).
Qed.

Lemma endsBefore_Added (st st' : Store) (this node : NodeId) (c : Index) :
  endsBefore st this c -> Added st this node st' ->
  idxLe (endOf st node) c ->
  endsBefore st' this c.
Proof.
  intros H Ha Hn x Hx. unfold endOf. rewrite (Added_rangeOf _ _ _ _ _ Ha).
  rewrite (Added_childrenOf_this _ _ _ _ Ha) in Hx.
  apply in_app_iff in Hx. destruct Hx as [Hx | [<- | []]]; [now apply H | exact Hn].
Qed.

Lemma endsBefore_Added_other (st st' : Store) (this node X : NodeId) (c : Index) :
  endsBefore st X c -> Added st this node st' -> X <> this ->
  endsBefore st' X c.
Proof.
  intros H Ha Hne. eapply endsBefore_same; [| | exact H].
  - now apply (Added_childrenOf_other _ _ _ _ _ Ha).
  - intros x _. apply (Added_rangeOf _ _ _ _ _ Ha).
Qed.

Lemma linked_bound (st : Store) (g x : NodeId) :
  linked st -> In x (childrenOf st g) -> x < List.length st.
Proof.
  intros Hl Hx. apply In_nth_error in Hx. destruct Hx as [i Hi].
  now destruct (Hl _ _ _ Hi).
Qed.

(** A store that shows what [st] shows of its nodes, and new nodes without
    children. *)
Lemma ordered_extends (st st' : Store) :
  linked st -> extendsView st st' ->
  (forall id, List.length st <= id -> childrenOf st' id = []) ->
  ordered cb st -> ordered cb st'.
Proof.
  intros Hl [Hlen Hv] Hnew H g i a b Hi Hj.
  destruct (Nat.lt_ge_cases g (List.length st)) as [Hg | Hg].
  - destruct (Hv g Hg) as (T1 & _ & _ & _ & C1). rewrite C1 in Hi, Hj.
    pose proof (linked_bound _ _ _ Hl (nth_error_In _ _ Hi)) as Ba.
    pose proof (linked_bound _ _ _ Hl (nth_error_In _ _ Hj)) as Bb.
    destruct (Hv a Ba) as (_ & Ra & _). destruct (Hv b Bb) as (_ & Rb & _).
    unfold docGroup, endOf, startOf. rewrite T1, Ra, Rb. exact (H _ _ _ _ Hi Hj).
  - rewrite (Hnew g Hg) in Hi. destruct i; discriminate.
Qed.

Lemma endsBefore_extends (st st' : Store) (X : NodeId) (c : Index) :
  linked st -> extendsView st st' -> X < List.length st ->
  endsBefore st X c -> endsBefore st' X c.
Proof.
  intros Hl [Hlen Hv] HX H.
  destruct (Hv X HX) as (_ & _ & _ & _ & C1).
  eapply endsBefore_same; [exact C1 | | exact H].
  intros x Hx. apply (Hv x). eapply linked_bound; eauto.
Qed.

Lemma Allocated_children_new (st st' : Store) (t : Tag) (r : Range) (id : NodeId) :
  Allocated st t r st' -> List.length st <= id -> childrenOf st' id = [].
Proof.
  intros [Hlen Hv] Hid. destruct (Hv id) as (_ & _ & _ & _ & C).
  rewrite C. destruct (id =? List.length st) eqn:E; [reflexivity |].
  unfold childrenOf. assert (N : nth_error st id = None) by (apply nth_error_None; lia).
  now rewrite N.
Qed.

Lemma ordered_Allocated (st st' : Store) (t : Tag) (r : Range) :
  linked st -> Allocated st t r st' -> ordered cb st -> ordered cb st'.
Proof.
  intros Hl Ha. apply ordered_extends; [exact Hl | | ].
  - eapply Allocated_extendsView; eauto.
  - intros id Hid. eapply Allocated_children_new; eauto.
Qed.

Lemma endsBefore_Allocated (st st' : Store) (t : Tag) (r : Range) (X : NodeId) (c : Index) :
  linked st -> Allocated st t r st' -> X < List.length st ->
  endsBefore st X c -> endsBefore st' X c.
Proof.
  intros Hl Ha. apply endsBefore_extends; [exact Hl |].
  eapply Allocated_extendsView; eauto.
Qed.

(** The range that [mergeRanges] returns for two ranges starts where one
    of them starts, and ends where one of them ends. *)
Lemma mergeRanges_two (r1 r2 r : Range) :
  Utils.mergeRanges [r1; r2] = Ok r ->
  (Utils.rangeToStartIndex r = Utils.rangeToStartIndex r1
   \/ Utils.rangeToStartIndex r = Utils.rangeToStartIndex r2)
  /\ (Utils.rangeToEndIndex r = Utils.rangeToEndIndex r1
      \/ Utils.rangeToEndIndex r = Utils.rangeToEndIndex r2).
Proof.
  unfold Utils.mergeRanges. cbn [Utils.mergeLoop]. intros H. injection H as <-.
  unfold Utils.indexesToRange, Utils.rangeToStartIndex, Utils.rangeToEndIndex.
  cbn [start_line start_character end_line end_character].
  split.
  - match goal with |- context [if ?c then _ else _] => destruct c end; simpl; auto.
  - match goal with |- context [if ?c then _ else _] => destruct c end; simpl; auto.
Qed.

End OrderSteps.

(* ================================================================== *)
(** ** The loop that adds the nodes keeps the order *)

Section OrderLoop.
Local Open Scope nat_scope.
Variable cb : bool.
Variable nt : NonTerminal.
Variable X : NodeId.
Variable st1 : Store.
Variable L0 : nat.
Variable check checkFirst : bool.
Hypothesis HL0 : L0 <= List.length st1.
Hypothesis HX : X < L0.
Hypothesis Hfresh : forall id, L0 <= id < List.length st1 -> tagOf st1 id <> Some FunctionGroupsT.
Hypothesis HXtag : tagOf st1 X <> Some FunctionGroupsT.
Hypothesis Hcheck : check = true -> cb = true.
Hypothesis HcheckFirst : checkFirst = true -> cb = false /\ inFunction nt = true.

Let inv := attachInv cb nt X st1 L0 check.

Lemma orderInv_sameView (st st' : Store) (dg : option NodeId) (c : Index) :
  sameView st st' -> orderInv cb X st dg c -> orderInv cb X st' dg c.
Proof.
  intros Hv (O1 & O2 & O3).
  assert (Hr : forall id, rangeOf st' id = rangeOf st id) by (intros; apply Hv).
  split; [eapply ordered_sameView; eauto |].
  split; [eapply endsBefore_sameView; eauto |].
  intros d Hd. destruct (O3 d Hd) as [D1 D2]. unfold startOf, endOf. rewrite Hr.
  split; [eapply endsBefore_sameView; eauto | exact D2].
Qed.

(** A symbol without a node: the tokens of the next symbol start later. *)
Lemma orderInv_skip (st : Store) (dg : option NodeId) (c c' : Index) :
  orderInv cb X st dg c -> idxLe c c' -> orderInv cb X st dg c'.
Proof.
  intros (O1 & O2 & O3) Hc. split; [exact O1 |].
  split; [eapply endsBefore_trans; eauto |].
  intros d Hd. destruct (O3 d Hd) as [D1 D2]. split; [exact D1 |].
  eapply idxLe_trans; eauto.
Qed.

(** One of the five steps, for a node that lies between [c] and [c']. *)
Lemma order_step (st st' : Store) (dg dg' : option NodeId) (first : bool) (x : NodeId)
  (rem : list (option NodeId)) (c c' : Index) :
  inv st dg first (Some x :: rem) ->
  AttachStep X check checkFirst x st dg first st' dg' ->
  orderInv cb X st dg c ->
  startOf st x = c -> endOf st x = c' -> idxLe c c' ->
  orderInv cb X st' dg' c'.
Proof.
  intros (I1 & I2 & I3 & I4) Hstep (O1 & O2 & O3) Hs He Hcc.
  pose proof I1 as (Hl & Hlen & _).
  assert (HXlt : X < List.length st) by lia.
  assert (HXt : tagOf st X <> Some FunctionGroupsT)
    by exact (core_tagX cb nt X st1 L0 HL0 HX HXtag _ _ _ I1).
  assert (Hnodg : check = false \/ dg = None -> dg = None).
  { intros [Hc | Hd]; [| exact Hd]. destruct dg as [d |]; [| reflexivity].
    destruct (I3 d eq_refl) as [D1 _]. congruence. }
  assert (Hflush : forall sta dga, Flushed check X st dg sta dga ->
            ordered cb sta /\ endsBefore sta X c
            /\ (forall id, rangeOf sta id = rangeOf st id)
            /\ dga = None /\ (check = false -> sta = st)).
  { intros sta dga Hf.
    inversion Hf as [s0 d s1 Hc Ha E1 E2 E3 E4 | s0 dg0 Hk E1 E2 E3 E4].
    - subst dg. destruct (O3 d eq_refl) as [D1 D2].
      split; [eapply ordered_Added; eauto |].
      split; [eapply endsBefore_Added; eauto |].
      split; [intros id; eapply Added_rangeOf; eauto |].
      split; [reflexivity |]. intros Hc'. congruence.
    - subst sta. split; [exact O1 |]. split; [exact O2 |].
      split; [reflexivity |]. split; [| reflexivity].
      subst dga. now apply Hnodg. }
  inversion Hstep as
    [ sta dga T1 C1 F1 E1 E2
    | sta dga g stb T1 C1 C2 C3 F1 P1 A1 E1 E2
    | t sta dga stb T1 T2 T3 F1 A1 E1 E2
    | d r sta stb stc std T1 C1 D0 M1 A1 A2 A3 A4 E1 E2
    | sta stb stc T1 C1 A1 A2 A3 E1 E2 ]; clear Hstep.
  - (* the comment is held back *)
    destruct (Hflush _ _ F1) as (F2 & F3 & F4 & _).
    split; [exact F2 |]. split; [eapply endsBefore_trans; eauto |].
    intros d Hd. injection Hd as <-. unfold startOf, endOf. rewrite F4.
    fold (startOf st x). fold (endOf st x). rewrite Hs, He.
    split; [exact F3 | apply idxLe_refl].
  - (* the doc comment goes to the group of the function *)
    destruct (Hflush _ _ F1) as (_ & _ & _ & F5 & F6).
    specialize (F6 C1). subst sta. subst dg'. rewrite F5.
    destruct (HcheckFirst C2) as [Hcb Hin].
    destruct (I4 C3 Hin Hcb) as (_ & g' & G1 & G2 & _).
    assert (g' = g) by congruence. subst g'.
    assert (Hne : X <> g) by (intros <-; contradiction).
    split; [eapply ordered_Added; [exact O1 | exact A1 | left; split; assumption] |].
    split; [| discriminate].
    eapply endsBefore_Added_other; [| exact A1 | exact Hne].
    eapply endsBefore_trans; [eassumption | exact Hcc].
  - (* the node is added to the parent *)
    destruct (Hflush _ _ F1) as (F2 & F3 & F4 & F5 & _).
    subst dg'. rewrite F5.
    assert (Hsx : startOf sta x = c) by (unfold startOf; now rewrite F4).
    assert (Hex : endOf sta x = c') by (unfold endOf; now rewrite F4).
    split; [eapply ordered_Added; [exact F2 | exact A1 | right; now rewrite Hsx] |].
    split; [| discriminate].
    eapply endsBefore_Added; [| exact A1 |].
    + eapply endsBefore_trans; [eassumption | exact Hcc].
    + rewrite Hex. apply idxLe_refl.
  - (* the comment held back and the function make a group *)
    subst dg. destruct (O3 d eq_refl) as [D1 D2].
    set (g := List.length st) in *.
    destruct (Allocated_new _ _ _ _ A1) as (_ & N2 & _ & _ & N5). fold g in N2, N5.
    assert (Hdx : d < g /\ x < g).
    { destruct (core_pending_orphan cb nt X st1 L0 _ _ _ d I1) as [_ ?];
        [apply in_app_iff; right; now left |].
      destruct (core_pending_orphan cb nt X st1 L0 _ _ _ x I1) as [_ ?];
        [apply in_app_iff; left; now left |].
      unfold g. lia. }
    assert (Hold : forall id, id <> g -> rangeOf stc id = rangeOf st id).
    { intros id Hid.
      rewrite (Added_rangeOf _ _ _ _ _ A3), (Added_rangeOf _ _ _ _ _ A2).
      now apply (Allocated_old _ _ _ _ _ A1). }
    assert (Hg : rangeOf stc g = r).
    { now rewrite (Added_rangeOf _ _ _ _ _ A3), (Added_rangeOf _ _ _ _ _ A2). }
    assert (HXc : childrenOf stc X = childrenOf st X).
    { rewrite (Added_childrenOf_other _ _ _ _ _ A3), (Added_childrenOf_other _ _ _ _ _ A2)
        by (unfold g; lia).
      apply (Allocated_old _ _ _ _ _ A1). unfold g. lia. }
    assert (HXe : forall z, endsBefore st X z -> endsBefore stc X z).
    { intros z Hz. eapply endsBefore_same; [exact HXc | | exact Hz].
      intros y Hy. apply Hold. pose proof (linked_bound _ _ _ Hl Hy). unfold g. lia. }
    destruct (mergeRanges_two _ _ _ M1) as [M2 M3].
    assert (O1a : ordered cb sta) by (eapply ordered_Allocated; eauto).
    assert (O1b : ordered cb stb).
    { eapply ordered_Added; [exact O1a | exact A2 |]. right. now apply endsBefore_nil. }
    assert (O1c : ordered cb stc).
    { eapply ordered_Added; [exact O1b | exact A3 |]. right.
      eapply endsBefore_Added; [apply endsBefore_nil; exact N5 | exact A2 |].
      unfold endOf, startOf. rewrite (Added_rangeOf _ _ _ _ _ A2).
      destruct (Allocated_old _ _ _ _ d A1 ltac:(unfold g; lia)) as (_ & -> & _).
      destruct (Allocated_old _ _ _ _ x A1 ltac:(unfold g; lia)) as (_ & -> & _).
      fold (startOf st x). fold (endOf st d). now rewrite Hs. }
    subst dg'.
    split; [eapply ordered_Added; [exact O1c | exact A4 |]; right |].
    + apply HXe. unfold startOf. rewrite Hg.
      destruct M2 as [-> | ->]; [exact D1 |].
      fold (startOf st x). now rewrite Hs.
    + split; [| discriminate].
      eapply endsBefore_Added; [| exact A4 |].
      * apply HXe. eapply endsBefore_trans; [exact O2 | exact Hcc].
      * unfold endOf. rewrite Hg.
        destruct M3 as [-> | ->].
        -- fold (endOf st d). eapply idxLe_trans; eauto.
        -- fold (endOf st x). rewrite He. apply idxLe_refl.
  - (* the function makes a group of its own *)
    subst dg'. pose proof (Hnodg C1) as Hd. rewrite Hd.
    set (g := List.length st) in *.
    destruct (Allocated_new _ _ _ _ A1) as (_ & N2 & _ & _ & N5). fold g in N2, N5.
    assert (Hxg : x < g).
    { destruct (core_pending_orphan cb nt X st1 L0 _ _ _ x I1) as [_ ?];
        [apply in_app_iff; left; now left |].
      unfold g. lia. }
    assert (Hold : forall id, id <> g -> rangeOf stb id = rangeOf st id).
    { intros id Hid. rewrite (Added_rangeOf _ _ _ _ _ A2).
      now apply (Allocated_old _ _ _ _ _ A1). }
    assert (Hg : rangeOf stb g = rangeOf st x).
    { now rewrite (Added_rangeOf _ _ _ _ _ A2). }
    assert (HXc : childrenOf stb X = childrenOf st X).
    { rewrite (Added_childrenOf_other _ _ _ _ _ A2) by (unfold g; lia).
      apply (Allocated_old _ _ _ _ _ A1). unfold g. lia. }
    assert (HXe : forall z, endsBefore st X z -> endsBefore stb X z).
    { intros z Hz. eapply endsBefore_same; [exact HXc | | exact Hz].
      intros y Hy. apply Hold. pose proof (linked_bound _ _ _ Hl Hy). unfold g. lia. }
    assert (O1a : ordered cb sta) by (eapply ordered_Allocated; eauto).
    assert (O1b : ordered cb stb).
    { eapply ordered_Added; [exact O1a | exact A2 |]. right. now apply endsBefore_nil. }
    split; [eapply ordered_Added; [exact O1b | exact A3 |]; right |].
    + apply HXe. unfold startOf. rewrite Hg. fold (startOf st x). now rewrite Hs.
    + split; [| discriminate].
      eapply endsBefore_Added; [| exact A3 |].
      * apply HXe. eapply endsBefore_trans; [exact O2 | exact Hcc].
      * unfold endOf. rewrite Hg. fold (endOf st x). rewrite He. apply idxLe_refl.
Qed.

Variable p : ParserBase.
Hypothesis Hfront : frontOk p.

(** The whole loop: the nodes are added in the order of their tokens. *)
Lemma attachLoop_order (state : list Symbol) (ranges : list TokenRange)
  (nodes : list (option NodeId)) :
  Resolved p st1 state ranges nodes ->
  forall (s e : Z) (a a' : AbstractParser.AttachState),
    chained s ranges e ->
    AbstractParser.attachLoop nt X check checkFirst state nodes a = Ok a' ->
    inv (AbstractParser.atStore a) (AbstractParser.danglingMultilineComment a)
        (AbstractParser.isFirst a) nodes ->
    orderInv cb X (AbstractParser.atStore a) (AbstractParser.danglingMultilineComment a)
             (boundary p s) ->
    inv (AbstractParser.atStore a') (AbstractParser.danglingMultilineComment a')
        (AbstractParser.isFirst a') []
    /\ orderInv cb X (AbstractParser.atStore a') (AbstractParser.danglingMultilineComment a')
                (boundary p e).
Proof.
  intros Hres.
  induction Hres as [| sym r rng state ranges nodes Hsym Hspan Hres IH
                     | sym r rng t x state ranges nodes Hsym Hspan R1 R2 R3 R4 R5 Hres IH];
    intros s e a a' Hch H Hinv Hord.
  - simpl in H. injection H as <-. simpl in Hch. subst e. auto.
  - destruct Hch as (C1 & C2 & C3).
    destruct (tokenSpanRange_boundary p Hfront _ _ Hspan) as (_ & _ & B3 & _).
    cbn [AbstractParser.attachLoop] in H.
    destruct (AbstractParser.attachOne nt X check checkFirst sym None a) as [a1 |] eqn:E1;
      [| discriminate].
    cbn [bind] in H. apply (IH _ _ _ _ C3 H); clear H IH.
    + destruct (attachOne_spec _ _ _ _ _ _ _ _ E1)
        as [(V1 & V2 & V3 & V4) | (y & stf & Hy & _)]; [| discriminate].
      rewrite V2. apply inv_skip in Hinv.
      pose proof (inv_sameView _ _ _ _ _ _ _ _ _ _ _ Hinv V1) as Hinv1.
      destruct V3 as [-> | ->]; [exact Hinv1 | eapply inv_first; eauto].
    + destruct (attachOne_spec _ _ _ _ _ _ _ _ E1)
        as [(V1 & V2 & V3 & V4) | (y & stf & Hy & _)]; [| discriminate].
      rewrite V2. eapply orderInv_skip; [eapply orderInv_sameView; eauto |].
      apply boundary_mono; [exact Hfront | lia].
  - destruct Hch as (C1 & C2 & C3).
    destruct (tokenSpanRange_boundary p Hfront _ _ Hspan) as (B1 & B2 & B3 & _).
    cbn [AbstractParser.attachLoop] in H.
    destruct (AbstractParser.attachOne nt X check checkFirst sym (Some x) a) as [a1 |] eqn:E1;
      [| discriminate].
    cbn [bind] in H. 
    destruct (attachOne_spec _ _ _ _ _ _ _ _ E1)
      as [(V1 & V2 & V3 & [V4 | V4]) | (y & stf & Hy & V1 & V2 & V3)];
      [discriminate | congruence |].
    injection Hy as <-.
    pose proof (inv_sameView _ _ _ _ _ _ _ _ _ _ _ Hinv V1) as Hinv1.
    apply (orderInv_sameView _ _ _ _ V1) in Hord.
    assert (Hrx : rangeOf stf x = rng).
    { destruct Hinv1 as (I1 & _).
      destruct (core_pending_orphan cb nt X st1 L0 _ _ _ x I1) as [_ Hx];
        [apply in_app_iff; left; now left |].
      destruct I1 as (_ & _ & I3 & _). destruct (I3 x ltac:(lia)) as [_ ->]. exact R2. }
    apply (IH _ _ _ _ C3 H); clear H IH.
    + rewrite V2.
      exact (inv_step cb nt X st1 L0 check checkFirst HL0 HX Hfresh HXtag Hcheck HcheckFirst
               _ _ _ _ _ _ _ Hinv1 V3).
    + eapply order_step; [exact Hinv1 | exact V3 | exact Hord | | |].
      * unfold startOf. rewrite Hrx, B1, C1. reflexivity.
      * unfold endOf. rewrite Hrx, B2. reflexivity.
      * apply boundary_mono; [exact Hfront | lia].
Qed.

(** The comment that is still held back when the loop ends. *)
Lemma attach_end_order (st st' : Store) (dg : option NodeId) (c : Index) :
  orderInv cb X st dg c ->
  match dg with Some d => Added st X d st' | None => st' = st end ->
  ordered cb st'.
Proof.
  intros (O1 & O2 & O3) H. destruct dg as [d |]; [| subst st'; exact O1].
  destruct (O3 d eq_refl) as [D1 _].
  eapply ordered_Added; [exact O1 | exact H | now right].
Qed.

End OrderLoop.

(* ================================================================== *)
(** ** The recursion keeps the order *)

Section RecurseOrder.
Local Open Scope nat_scope.
Variable L : Language.
Let cb := isCommentBeforeFunction L.
Variable nt : NonTerminal.
Variable X : NodeId.
Variable st1 : Store.
Variable L0 : nat.
Hypothesis HL0 : L0 <= List.length st1.
Hypothesis HX : X < L0.
Hypothesis Hfresh : forall id, L0 <= id < List.length st1 -> tagOf st1 id <> Some FunctionGroupsT.
Variable p : ParserBase.
Variable rec : NonTerminal -> NodeId -> TokenRange -> Z -> AbstractParser.PState L
               -> result (AbstractParser.PState L).
Hypothesis Hrec : keepsShape L rec.
Hypothesis Hord : keepsOrder L p rec.

Lemma recurseChildren_order (depth : Z) (state : list Symbol) :
  forall (childNodes : list (option NodeId)) (ranges : list (option TokenRange))
         (ps ps' : AbstractParser.PState L),
    Forall (ntAllowed nt) state ->
    Forall2 (nodeFor st1) state childNodes ->
    NoDup (somes childNodes) ->
    AbstractParser.recurseChildren L rec X depth state childNodes ranges ps = Ok ps' ->
    recInv cb nt X st1 L0 (AbstractParser.psStore L ps) (somes childNodes) ->
    ordered cb (AbstractParser.psStore L ps) ->
    ordered cb (AbstractParser.psStore L ps').
Proof.
  induction state as [| sym state IH]; intros childNodes ranges ps ps' Hok Hrel Hnd H Hinv Ho.
  - inversion Hrel; subst childNodes. simpl in H. injection H as <-. exact Ho.
  - inversion Hrel as [| s0 ani st0 rem Hsym Hrest]; subst childNodes. clear Hrel.
    inversion Hok as [| s1 st2 Hs Hoks]; subst. clear Hok.
    cbn [AbstractParser.recurseChildren] in H.
    destruct ranges as [| range ranges]; [injection H as <-; exact Ho |].
    assert (Hdrop : recInv cb nt X st1 L0 (AbstractParser.psStore L ps) (somes rem)).
    { destruct ani as [x |]; [eapply recInv_drop; exact Hinv | exact Hinv]. }
    assert (Hnd' : NoDup (somes rem)).
    { destruct ani as [x |]; [now inversion Hnd | exact Hnd]. }
    destruct sym as [t | n].
    + eapply IH; eauto.
    + unfold nodeFor in Hsym.
      assert (Hn : exists t, symTag (NT n) = Some t
                             /\ (inFunction n = true -> t = FunctionsT)).
      { destruct nt, n; simpl in Hs; try contradiction;
          try (destruct Hs; discriminate); try discriminate;
          eexists; (split; [reflexivity |]); simpl; intros; congruence. }
      destruct Hn as (t & Ht & Hfun). rewrite Ht in Hsym.
      destruct Hsym as (x & -> & Htag).
      destruct range as [r |]; [| discriminate].
      destruct (rec n x r (depth + 1)%Z ps) as [ps1 |] eqn:E; [| discriminate].
      cbn [bind] in H.
      rewrite somes_cons_some in Hinv, Hnd.
      assert (Hpre : shapePre cb n x (AbstractParser.psStore L ps)).
      { destruct Hinv as (R1 & R2 & R3 & R4 & R5).
        destruct (R5 x ltac:(now left)) as (X1 & X2 & X3).
        destruct (R3 x ltac:(lia)) as [Htx _].
        split; [lia |]. split.
        - rewrite Htx. now apply Hfresh.
        - intros Hin Hcb. rewrite <- Htx in Htag.
          specialize (Hfun Hin). subst t.
          destruct (X3 Htag Hcb) as (g & G1 & G2 & G3 & G4).
          split; [exact Htag |]. exists g. auto. }
      assert (Hnil : childrenOf (AbstractParser.psStore L ps) x = []).
      { destruct Hinv as (_ & _ & _ & _ & R5). now destruct (R5 x ltac:(now left)) as (_ & ? & _). }
      destruct (Hrec _ _ _ _ _ _ E (proj1 Hinv) Hpre) as [S1 S2].
      pose proof (Hord _ _ _ _ _ _ E (proj1 Hinv) Hpre Ho (endsBefore_nil _ _ _ Hnil)) as Ho1.
      eapply (IH _ _ _ _ Hoks Hrest Hnd' H); [| exact Ho1].
      eapply (recInv_step L nt X st1 L0); [.. | exact Hinv | | | exact S1 | exact S2]; eauto.
      * now inversion Hnd.
      * intros Hin. rewrite Htag. f_equal. auto.
Qed.

End RecurseOrder.

(* ================================================================== *)
(** ** [parseNonTerminal] keeps the order of the siblings *)

Section ParseOrder.
Local Open Scope nat_scope.
Variable L : Language.
Hypothesis HF : FactoriesOk L.
Let cb := isCommentBeforeFunction L.
Variable p : ParserBase.
Hypothesis Hfront : frontOk p.

Lemma Resolved_nth (st1 : Store) (state : list Symbol) (ranges : list TokenRange)
  (nodes : list (option NodeId)) :
  Resolved p st1 state ranges nodes ->
  forall (i : nat) (x : NodeId),
    nth_error nodes i = Some (Some x) ->
    exists r rng, nth_error ranges i = Some r /\ tokenSpanRange p r = Ok rng
                  /\ rangeOf st1 x = rng.
Proof.
  intros H. induction H; intros i y Hi.
  - destruct i; discriminate.
  - destruct i as [| i]; [discriminate |]. simpl in Hi. now apply IHResolved.
  - destruct i as [| i]; simpl in Hi.
    + injection Hi as <-. exists r, rng. auto.
    + now apply IHResolved.
Qed.

Lemma Resolved_span (st1 : Store) (state : list Symbol) (ranges : list TokenRange)
  (nodes : list (option NodeId)) :
  Resolved p st1 state ranges nodes ->
  forall r, In r ranges -> exists rng, tokenSpanRange p r = Ok rng.
Proof.
  intros H. induction H; intros r0 Hr.
  - contradiction.
  - destruct Hr as [<- | Hr]; eauto.
  - destruct Hr as [<- | Hr]; eauto.
Qed.

Lemma validate_functions (state : list Symbol) (fi la : Z) :
  AbstractParser.validateParsingState FUNCTIONS state = Ok tt ->
  AbstractParser.getFirstLast state = (fi, la) ->
  (0 <= fi < la)%Z.
Proof.
  simpl. unfold AbstractParser.validateParsingStateFunctions. intros H E.
  destruct (List.length state <? 2); [discriminate |].
  rewrite E in H.
  destruct (fi =? -1)%Z; [discriminate |].
  destruct (Js.nthZ state fi) as [[t | []] |] eqn:E1; try discriminate.
  destruct (la =? -1)%Z; [discriminate |].
  destruct (Js.nthZ state la) as [[t | []] |] eqn:E2; try discriminate.
  eapply getFirstLast_order; eauto; discriminate.
Qed.

Lemma parseNonTerminal_order (fuel : nat) :
  keepsOrder L p (AbstractParser.parseNonTerminal L fuel p).
Proof.
  induction fuel as [| fuel IH]; intros nt X tokRange depth ps ps' H Hinv Hpre Ho He;
    [discriminate |].
  pose proof (parseNonTerminal_shape L HF p fuel) as Hshape.
  fold cb in Hinv, Hpre, Ho |- *.
  rewrite parseNonTerminal_S in H.
  destruct (AbstractParser.detectSymbols L p nt tokRange depth (AbstractParser.psDet L ps))
    as [[acc det] |] eqn:Edet; [| discriminate].
  cbn [bind] in H.
  destruct (detectSymbols_spec _ _ _ _ _ _ _ _ Edet) as [(A1 & A2 & A3) Hvalid].
  destruct (detectSymbols_ordered _ _ _ _ _ _ _ _ Edet) as [Hch Hpr].
  clear Edet.
  set (st0 := AbstractParser.psStore L ps) in *.
  destruct (AbstractParser.resolveAll L p (AbstractParser.state acc)
              (AbstractParser.symbolRange acc) (AbstractParser.nodeCreationInformationArr acc)
              st0) as [[st1 nodes] |] eqn:Eres; [| discriminate].
  cbn [bind] in H.
  destruct (resolveAll_spec L HF _ _ _ _ _ _ _ A1 A3 Eres) as (Hext & Hseq & Hres).
  clear Eres.
  destruct Hpre as (HX & HXtag & Hlift).
  assert (Hl01 : List.length st0 <= List.length st1) by apply Hext.
  assert (Hin_fresh : forall x, In x (somes nodes) <-> List.length st0 <= x < List.length st1).
  { intros x. rewrite Hseq, in_seq. lia. }
  assert (Hnew : forall id, List.length st0 <= id < List.length st1 ->
             tagOf st1 id <> Some FunctionGroupsT /\ parentOf st1 id = None
             /\ childrenOf st1 id = []).
  { intros id Hid. apply Hin_fresh in Hid.
    destruct (Resolved_In _ _ _ _ _ _ Hres Hid) as (sym & t & S1 & S2 & S3 & S4 & S5).
    split; [| auto]. rewrite S2, <- S1. apply symTag_not_group. }
  assert (Hfresh : forall id, List.length st0 <= id < List.length st1 ->
             tagOf st1 id <> Some FunctionGroupsT) by (intros; now apply Hnew).
  assert (Hinv1 : shapeInv cb st1).
  { eapply shapeInv_resolved; eauto. intros id Hid.
    destruct (Hnew id Hid) as (N1 & N2 & N3). auto. }
  assert (Hnil1 : forall id, List.length st0 <= id -> childrenOf st1 id = []).
  { intros id Hid. destruct (Nat.lt_ge_cases id (List.length st1)) as [Hlt | Hge].
    - now apply Hnew.
    - unfold childrenOf.
      assert (N : nth_error st1 id = None) by (apply nth_error_None; lia).
      now rewrite N. }
  assert (Ho1 : ordered cb st1).
  { eapply ordered_extends; [apply Hinv | exact Hext | exact Hnil1 | exact Ho]. }
  assert (He1 : endsBefore st1 X (boundary p (startTok tokRange))).
  { eapply endsBefore_extends; [apply Hinv | exact Hext | exact HX | exact He]. }
  destruct Hext as [_ Hv01].
  assert (HXtag1 : tagOf st1 X <> Some FunctionGroupsT).
  { destruct (Hv01 X HX) as [-> _]. exact HXtag. }
  assert (Hlift1 : inFunction nt = true -> cb = false -> liftable st1 X).
  { intros H1 H2. eapply liftable_kept; [exact (Hlift H1 H2) | lia | |].
    - intros id Hid. destruct (Hv01 id Hid) as (B1 & _ & B3 & _). auto.
    - intros g Hg. destruct (Hlift H1 H2) as (_ & g' & G1 & G2 & _).
      assert (g' = g) by congruence. subst g'.
      apply (Hv01 g). eapply tagOf_Some; eauto. }
  destruct (NonTerminal_eqb nt FUNCTIONS) eqn:Ent.
  - (* a function: its declaration and its body *)
    assert (nt = FUNCTIONS) by (destruct nt; try discriminate; reflexivity). subst nt.
    destruct (AbstractParser.getFirstLast (AbstractParser.state acc)) as [first last] eqn:Efl.
    pose proof (validate_functions _ _ _ Hvalid Efl) as Hfl.
    destruct (Js.nthZ nodes first) as [[D |] |] eqn:ED; try discriminate.
    destruct (Js.nthZ (AbstractParser.ntParseRange acc) first) as [[declarationRange |] |];
      try discriminate.
    destruct (Js.nthZ (AbstractParser.ntParseRange acc) last) as [[bodyRange |] |] eqn:EB;
      try discriminate.
    destruct (Heap.addChild st1 X D) as [st2 |] eqn:Eadd; [| discriminate].
    cbn [bind] in H. apply addChild_view in Eadd.
    destruct (AbstractParser.parseNonTerminal L fuel p FUNCTION_DECLARATION D declarationRange
                (depth + 1)%Z (AbstractParser.mkPState L st2 det)) as [ps3 |] eqn:Edecl;
      [| discriminate].
    cbn [bind] in H.
    assert (HD : List.length st0 <= D < List.length st1).
    { apply Hin_fresh. apply In_somes. eapply nthZ_In; eauto. }
    destruct (Hnew D HD) as (D1 & D2 & D3).
    (* the ranges of the declaration and of the body *)
    unfold Js.nthZ in ED, EB.
    destruct (first <? 0)%Z eqn:F1; [discriminate |].
    destruct (last <? 0)%Z eqn:F2; [discriminate |].
    destruct (Resolved_nth _ _ _ _ Hres _ _ ED) as (rf & rngf & Rf1 & Rf2 & Rf3).
    destruct (nth_error (AbstractParser.symbolRange acc) (Z.to_nat last)) as [rl |] eqn:Rl1.
    2:{ apply nth_error_None in Rl1. pose proof (nth_error_Some (AbstractParser.ntParseRange acc) (Z.to_nat last)) as Q.
        rewrite EB in Q. assert (Q' : Z.to_nat last < List.length (AbstractParser.ntParseRange acc))
          by (apply Q; discriminate). lia. }
    assert (Hin_l : parseRangeIn rl (Some bodyRange)).
    { clear - Hpr Rl1 EB. revert Rl1 EB. generalize (Z.to_nat last).
      induction Hpr as [| r0 q0 rs qs Hq Hrest IHp]; intros n Rl1 EB;
        [destruct n; discriminate |].
      destruct n as [| n]; simpl in Rl1, EB.
      - injection Rl1 as <-. injection EB as ->. exact Hq.
      - eapply IHp; eauto. }
    destruct Hin_l as [Hl1 _].
    pose proof (chained_nth _ _ _ _ _ _ _ Hch Rf1 Rl1 ltac:(lia)) as Hfl'.
    destruct (chained_start _ _ _ _ _ Hch Rf1) as [Hs1 Hs2].
    destruct (tokenSpanRange_boundary p Hfront _ _ Rf2) as (Bf1 & Bf2 & Bf3 & _).
    assert (Hs0 : (0 <= startTok tokRange)%Z).
    { destruct (AbstractParser.symbolRange acc) as [| r0 rs] eqn:Er;
        [destruct (Z.to_nat first); discriminate |].
      destruct Hch as (C1 & _).
      destruct (Resolved_span _ _ _ _ Hres r0) as [rng0 Hr0]; [now left |].
      destruct (tokenSpanRange_boundary p Hfront _ _ Hr0) as (_ & _ & ? & _). lia. }
    assert (HDs : startOf st1 D = boundary p (startTok rf))
      by (unfold startOf; now rewrite Rf3).
    assert (HDe : endOf st1 D = boundary p (endTok rf))
      by (unfold endOf; now rewrite Rf3).
    assert (Hinv2 : shapeInv cb st2) by (eapply shapeInv_Added; eauto).
    assert (Ho2 : ordered cb st2).
    { eapply ordered_Added; [exact Ho1 | exact Eadd |]. right.
      rewrite HDs. eapply endsBefore_trans; [exact He1 |].
      apply boundary_mono; [exact Hfront | lia]. }
    assert (Hlen2 : List.length st2 = List.length st1) by apply Eadd.
    assert (Hpre2 : shapePre cb FUNCTION_DECLARATION D st2).
    { split; [lia |]. split; [| discriminate].
      rewrite (Added_tagOf _ _ _ _ _ Eadd). exact D1. }
    assert (HDnil : childrenOf st2 D = []).
    { rewrite (Added_childrenOf_other _ _ _ _ _ Eadd) by lia. exact D3. }
    destruct (Hshape _ _ _ _ _ _ Edecl Hinv2 Hpre2) as [Hinv3 [Hl3 Hf3]].
    pose proof (IH _ _ _ _ _ _ Edecl Hinv2 Hpre2 Ho2 (endsBefore_nil _ _ _ HDnil)) as Ho3.
    cbn [AbstractParser.psStore] in Hinv3, Hl3, Hf3, Ho3.
    set (st3 := AbstractParser.psStore L ps3) in *. fold cb in Hinv3, Hf3, Ho3.
    assert (Hold3 : forall id, id < List.length st0 ->
              tagOf st3 id = tagOf st0 id /\ rangeOf st3 id = rangeOf st0 id
              /\ parentOf st3 id = parentOf st0 id /\ rankOf st3 id = rankOf st0 id
              /\ (id <> X -> childrenOf st3 id = childrenOf st0 id)).
    { intros id Hid.
      destruct (Hf3 id ltac:(lia)) as (B1 & B2 & B3 & B4 & B5).
      destruct (Hv01 id Hid) as (C1 & C2 & C3 & C4 & C5).
      rewrite B1, B2, B3, B4.
      rewrite (Added_tagOf _ _ _ _ _ Eadd), (Added_rangeOf _ _ _ _ _ Eadd).
      rewrite (Added_parentOf_other _ _ _ _ _ Eadd), (Added_rankOf_other _ _ _ _ _ Eadd)
        by lia.
      repeat (split; [assumption |]).
      intros Hne. rewrite B5.
      - rewrite (Added_childrenOf_other _ _ _ _ _ Eadd) by assumption. exact C5.
      - intros [-> | (T1 & _)]; [lia | discriminate]. }
    assert (Hpre3 : shapePre cb FUNCTION_BODY X st3).
    { split; [lia |]. split.
      - destruct (Hold3 X HX) as [-> _]. exact HXtag.
      - intros _ Hcb. eapply liftable_kept; [exact (Hlift eq_refl Hcb) | lia | |].
        + intros id Hid. destruct (Hold3 id Hid) as (B1 & _ & B3 & _). auto.
        + intros g Hg. destruct (Hlift eq_refl Hcb) as (T1 & g' & G1 & G2 & _).
          assert (g' = g) by congruence. subst g'.
          apply Hold3; [eapply tagOf_Some; eauto |]. intros ->. congruence. }
    assert (He3 : endsBefore st3 X (boundary p (startTok bodyRange))).
    { assert (HXc : childrenOf st3 X = childrenOf st1 X ++ [D]).
      { destruct (Hf3 X ltac:(lia)) as (_ & _ & _ & _ & B5). rewrite B5.
        - apply (Added_childrenOf_this _ _ _ _ Eadd).
        - intros [E | (T1 & _)]; [lia | discriminate]. }
      assert (Hr3 : forall id, id < List.length st1 -> rangeOf st3 id = rangeOf st1 id).
      { intros id Hid. destruct (Hf3 id ltac:(lia)) as (_ & -> & _).
        apply (Added_rangeOf _ _ _ _ _ Eadd). }
      intros y Hy. rewrite HXc in Hy. unfold endOf.
      apply in_app_iff in Hy. destruct Hy as [Hy | [<- | []]].
      - rewrite Hr3 by (eapply linked_bound; [apply Hinv1 | exact Hy]).
        eapply idxLe_trans; [apply (He1 y Hy) |].
        apply boundary_mono; [exact Hfront | lia].
      - rewrite Hr3 by lia. fold (endOf st1 D). rewrite HDe.
        apply boundary_mono; [exact Hfront | lia]. }
    exact (IH _ _ _ _ _ _ H Hinv3 Hpre3 Ho3 He3).
  - (* the other non-terminals: the nodes are added, then parsed into *)
    assert (Hnt : nt <> FUNCTIONS) by (intros ->; discriminate).
    pose proof (validate_allowed _ _ Hvalid Hnt) as Hallowed.
    destruct (AbstractParser.attachChildren L nt X (AbstractParser.state acc) nodes st1)
      as [st2 |] eqn:Eatt; [| discriminate].
    cbn [bind] in H.
    unfold AbstractParser.attachChildren in Eatt.
    match type of Eatt with
    | bind (AbstractParser.attachLoop _ _ ?c1 ?c2 _ _ _) _ = _ =>
        set (check := c1) in *; set (checkFirst := c2) in *
    end.
    destruct (AbstractParser.attachLoop nt X check checkFirst (AbstractParser.state acc) nodes
                (AbstractParser.mkAttachState st1 None true)) as [a |] eqn:Eloop;
      [| discriminate].
    cbn [bind] in Eatt.
    assert (Hcheck : check = true -> cb = true).
    { unfold check. fold cb. intros E. apply andb_true_iff in E. apply E. }
    assert (HcheckFirst : checkFirst = true -> cb = false /\ inFunction nt = true).
    { unfold checkFirst. fold cb. intros E. apply andb_true_iff in E. destruct E as [E1 E2].
      apply negb_true_iff in E1. split; [exact E1 |].
      destruct nt; try discriminate; reflexivity. }
    assert (Hstart : attachInv cb nt X st1 (List.length st0) check st1 None true nodes).
    { split; [| split; [| split]].
      - rewrite app_nil_r. unfold coreInv.
        split; [apply Hinv1 |]. split; [lia |]. split; [auto |]. split; [auto |].
        split; [intros id Hid; now apply Hnew |]. split; [| split].
        + intros x Hx. apply Hin_fresh in Hx. split; [exact Hx | now apply Hnew].
        + intros y Hy Hn. exfalso. apply Hn. now apply Hin_fresh.
        + intros g Hg _. now apply Hinv1.
      - rewrite Hseq. apply seq_NoDup.
      - discriminate.
      - intros _. exact Hlift1. }
    assert (Hostart : orderInv cb X st1 None (boundary p (startTok tokRange))).
    { split; [exact Ho1 |]. split; [exact He1 | discriminate]. }
    destruct (attachLoop_order cb nt X st1 (List.length st0) check checkFirst
                Hl01 HX Hfresh HXtag1 Hcheck HcheckFirst p Hfront _ _ _ Hres _ _ _ _
                Hch Eloop Hstart Hostart) as [Hend Hoend].
    assert (Hadd : match AbstractParser.danglingMultilineComment a with
                   | Some d => Added (AbstractParser.atStore a) X d st2
                   | None => st2 = AbstractParser.atStore a
                   end).
    { destruct (AbstractParser.danglingMultilineComment a) as [d |].
      - now apply addChild_view.
      - now inv Eatt. }
    assert (Hcore : coreInv cb nt X st1 (List.length st0) st2 [] None).
    { eapply (attach_end cb nt X st1 (List.length st0) check); [.. | exact Hend | exact Hadd];
        eauto. }
    pose proof (attach_end_order cb X _ _ _ _ Hoend Hadd) as Ho2.
    clear Eatt Eloop Hend Hstart Hoend Hostart Hadd.
    assert (Hrec0 : recInv cb nt X st1 (List.length st0) st2 (somes nodes)).
    { apply coreInv_recInv; [exact Hcore |]. intros y Hy. now apply Hin_fresh. }
    eapply (recurseChildren_order L nt X st1 (List.length st0));
      [.. | exact H | exact Hrec0 | exact Ho2]; eauto using Resolved_nodeFor.
    rewrite Hseq. apply seq_NoDup.
Qed.

End ParseOrder.

(* ================================================================== *)
(** ** The order of the siblings of a parsed tree *)

Section ParsedOrder.
Local Open Scope nat_scope.

Section FrontEndTiles.
Variable L : Language.

Lemma feedLine_inv (chars : list ascii) :
  forall (k c : nat) (pm pm' : list Index) (tk tk' : AbstractTokenizer.t (lexer L))
         (fed : list ascii),
    AbstractParser.feedLine L k chars c pm tk = Ok (pm', tk') ->
    lexInv tk fed -> lexInv tk' (fed ++ chars ++ [Js.nl]).
Proof.
  induction chars as [| ch chars IH]; intros k c pm pm' tk tk' fed H Hinv;
    cbn [AbstractParser.feedLine] in H.
  - destruct (AbstractTokenizer.next tk (Some Js.nl)) as [tk1 |] eqn:E; [| discriminate].
    cbn [bind] in H. inv H. eapply next_char_inv; eauto.
  - destruct (AbstractTokenizer.next tk (Some ch)) as [tk1 |] eqn:E; [| discriminate].
    cbn [bind] in H. apply (next_char_inv _ _ _ _ Hinv) in E.
    apply (IH _ _ _ _ _ _ _ H) in E. now rewrite <- app_assoc in E.
Qed.

Lemma feedLines_inv (lines : list string) :
  forall (k : nat) (pm pm' : list Index) (tk tk' : AbstractTokenizer.t (lexer L))
         (fed : list ascii),
    AbstractParser.feedLines L lines k pm tk = Ok (pm', tk') ->
    lexInv tk fed -> lexInv tk' (fed ++ fedLines lines).
Proof.
  induction lines as [| l rest IH]; intros k pm pm' tk tk' fed H Hinv;
    cbn [AbstractParser.feedLines] in H.
  - inv H. unfold fedLines. simpl. now rewrite app_nil_r.
  - destruct (AbstractParser.feedLine L k (Js.chars l) 0 pm tk) as [[pm1 tk1] |] eqn:E;
      [| discriminate].
    cbn [bind] in H. apply (feedLine_inv _ _ _ _ _ _ _ _ E) in Hinv.
    apply (IH _ _ _ _ _ _ H) in Hinv.
    rewrite fedLines_cons. now rewrite <- !app_assoc in *.
Qed.

(** The tokens and the positions of the front end. *)
Lemma tokenizeLines_front (det : DetState L) (codeLines : list string) (p : ParserBase) :
  freshTokenizer L ->
  AbstractParser.tokenizeLines L det codeLines = Ok p ->
  frontOk p.
Proof.
  intros Hfresh H. split; [| eapply tokenizeLines_positions; eauto].
  unfold AbstractParser.tokenizeLines in H.
  destruct (preparseGetTokenizer L det) as [tk0 |] eqn:E0; [| discriminate].
  cbn [bind] in H.
  destruct (AbstractParser.feedLines L codeLines 0 [] tk0) as [[pm tk] |] eqn:E;
    [| discriminate].
  cbn [bind] in H.
  assert (Hinv0 : lexInv tk0 []).
  { specialize (Hfresh _ _ E0). unfold lexInv. rewrite Hfresh. simpl. repeat split; auto. }
  pose proof (feedLines_inv _ _ _ _ _ _ _ E Hinv0) as Hinv. simpl in Hinv.
  destruct (next_end_inv _ _ Hinv) as (tk' & Hend & _ & Hc).
  rewrite Hend in H. cbn [bind] in H. inv H. cbn [sourceTokens numChars].
  apply feedLines_positions in E. simpl in E. subst pm.
  now rewrite linePositions_length.
Qed.

Lemma parse_order (det : DetState L) (codeLines : list string)
  (tree : AbstractSyntaxTree.t) :
  FactoriesOk L -> freshTokenizer L ->
  AbstractParser.parse L det codeLines = Ok tree ->
  ordered (isCommentBeforeFunction L) (AbstractSyntaxTree.store tree).
Proof.
  intros HF Hfresh H. unfold AbstractParser.parse in H.
  destruct (AbstractParser.isEmptyInput codeLines); [discriminate |].
  destruct (AbstractParser.tokenizeLines L det codeLines) as [p |] eqn:Etok; [| discriminate].
  cbn [bind] in H.
  pose proof (tokenizeLines_front _ _ _ Hfresh Etok) as Hfront.
  destruct (preparse L det codeLines (sourceTokens p)) as [det1 |]; [| discriminate].
  unfold Heap.alloc in H. cbn [bind] in H.
  match type of H with
  | bind ?m _ = _ => destruct m as [ps |] eqn:E; [| discriminate]
  end.
  cbn [bind] in H. injection H as <-. cbn [AbstractSyntaxTree.store].
  apply (parseNonTerminal_order L HF p Hfront _ _ _ _ _ _ _ E).
  - cbn [AbstractParser.psStore app]. split.
    + intros q i x Hx. destruct q as [| q]; [destruct i; discriminate |].
      destruct q; destruct i; discriminate.
    + intros g Hg. destruct g as [| g]; [discriminate |]. destruct g; discriminate.
  - cbn [AbstractParser.psStore app List.length]. split; [simpl; lia |].
    split; discriminate.
  - cbn [AbstractParser.psStore app]. intros g i a b Ha.
    destruct g as [| g]; [destruct i; discriminate |]. destruct g; destruct i; discriminate.
  - cbn [AbstractParser.psStore app]. intros x Hx. contradiction.
Qed.

End FrontEndTiles.

Lemma python_fresh : freshTokenizer PythonParser.language.
Proof. intros det tk H. simpl in H. now inv H. Qed.

Lemma typescript_fresh : freshTokenizer TypeScriptParser.language.
Proof.
  intros det tk H. simpl in H. unfold TypeScriptParser.preparseGetTokenizer in H.
  unfold TypeScriptTokenizer.constructor in H.
  repeat match type of H with
    | bind ?m _ = _ => destruct m; [| discriminate]; cbn [bind] in H
    end.
  now inv H.
Qed.

End ParsedOrder.

(** The order of the siblings. After every successful parse by a parser
    whose factories return fresh nodes of their class and whose tokenizer
    starts fresh, a child ends where the next child of the same node
    starts, or before it, unless the node is a group of a parser whose doc
    comments are the first statement of the body. For the TypeScript parser
    every two consecutive siblings are in that order; for the Python parser
    the only exception is a function followed by its doc comment in their
    group, and it occurs: in [pythonDocLines] the function ends after the
    doc comment that follows it starts. *)
Theorem siblings_follow_one_another :
  (forall (L : Language) (det : DetState L) (codeLines : list string)
          (tree : AbstractSyntaxTree.t) (g : NodeId) (i : nat) (a b : NodeId),
      FactoriesOk L -> freshTokenizer L ->
      AbstractParser.parse L det codeLines = Ok tree ->
      nth_error (childrenOf (AbstractSyntaxTree.store tree) g) i = Some a ->
      nth_error (childrenOf (AbstractSyntaxTree.store tree) g) (S i) = Some b ->
      docGroup (isCommentBeforeFunction L) (AbstractSyntaxTree.store tree) g
      \/ idxLe (endOf (AbstractSyntaxTree.store tree) a)
               (startOf (AbstractSyntaxTree.store tree) b))
  /\ (forall (codeLines : list string) (tree : AbstractSyntaxTree.t)
             (g : NodeId) (i : nat) (a b : NodeId),
         TypeScriptParser.parse codeLines = Ok tree ->
         nth_error (childrenOf (AbstractSyntaxTree.store tree) g) i = Some a ->
         nth_error (childrenOf (AbstractSyntaxTree.store tree) g) (S i) = Some b ->
         idxLe (endOf (AbstractSyntaxTree.store tree) a)
               (startOf (AbstractSyntaxTree.store tree) b))
  /\ (forall (codeLines : list string) (tree : AbstractSyntaxTree.t)
             (g : NodeId) (i : nat) (a b : NodeId),
         PythonParser.parse codeLines = Ok tree ->
         nth_error (childrenOf (AbstractSyntaxTree.store tree) g) i = Some a ->
         nth_error (childrenOf (AbstractSyntaxTree.store tree) g) (S i) = Some b ->
         (tagOf (AbstractSyntaxTree.store tree) g = Some FunctionGroupsT
          /\ tagOf (AbstractSyntaxTree.store tree) a = Some FunctionsT
          /\ tagOf (AbstractSyntaxTree.store tree) b = Some (CommentsT true))
         \/ idxLe (endOf (AbstractSyntaxTree.store tree) a)
                  (startOf (AbstractSyntaxTree.store tree) b))
  /\ (exists tree : AbstractSyntaxTree.t,
         PythonParser.parse pythonDocLines = Ok tree
         /\ childrenOf (AbstractSyntaxTree.store tree) pythonDocGroup
            = [pythonDocFunction; pythonDocComment]
         /\ ~ idxLe (endOf (AbstractSyntaxTree.store tree) pythonDocFunction)
                    (startOf (AbstractSyntaxTree.store tree) pythonDocComment)).
Proof.
  split; [| split; [| split]].
  - intros L det codeLines tree g i a b HF Hfresh Hparse Ha Hb.
    exact (parse_order L det codeLines tree HF Hfresh Hparse g i a b Ha Hb).
  - intros codeLines tree g i a b Hparse Ha Hb.
    apply typescript_parse_inv in Hparse. destruct Hparse as [det Hparse].
    destruct (parse_order _ _ _ _ typescript_factories typescript_fresh Hparse g i a b Ha Hb)
      as [[Hcb _] | H]; [discriminate | exact H].
  - intros codeLines tree g i a b Hparse Ha Hb.
    apply python_parse_inv in Hparse. destruct Hparse as [det Hparse].
    destruct (parse_order _ _ _ _ python_factories python_fresh Hparse g i a b Ha Hb)
      as [[_ Hg] | H]; [left | now right].
    pose proof (parse_shape _ _ _ _ python_factories Hparse) as Hinv.
    destruct (group_children _ _ _ Hinv Hg)
      as [(f & H1 & _) | [(Hcb & _) | (_ & f & c & H1 & (F1 & _) & (C1 & _))]].
    + rewrite H1 in Hb. destruct i; discriminate.
    + discriminate.
    + rewrite H1 in Ha, Hb. destruct i as [| i]; [| destruct i; discriminate].
      simpl in Ha, Hb. injection Ha as <-. injection Hb as <-. auto.
  - eexists. split; [vm_compute; reflexivity |]. split; [reflexivity |].
    unfold idxLe. vm_compute. intros H. apply H. reflexivity.
Qed.

Lemma siblings_follow_one_another_witness :
  exists tree : AbstractSyntaxTree.t,
    TypeScriptParser.parse typescriptGroupLines = Ok tree
    /\ nth_error (childrenOf (AbstractSyntaxTree.store tree) 0%nat) 0%nat = Some 4%nat
    /\ nth_error (childrenOf (AbstractSyntaxTree.store tree) 0%nat) 1%nat = Some 3%nat
    /\ idxLe (endOf (AbstractSyntaxTree.store tree) 4%nat)
             (startOf (AbstractSyntaxTree.store tree) 3%nat).
Proof.
  eexists. split; [vm_compute; reflexivity |]. split; [reflexivity |].
  split; [reflexivity |].
  eapply (proj1 (proj2 siblings_follow_one_another) typescriptGroupLines _ 0%nat 0%nat).
  - vm_compute. reflexivity.
  - reflexivity.
  - reflexivity.
Defined.

(* ================================================================== *)
(** ** The order of the positions and the union of ranges *)

Section RangeFacts.
Local Open Scope Z_scope.

Lemma compare_cases3 (a b : Index) :
  (Utils.compare a b = -1
   /\ (line a < line b \/ (line a = line b /\ character a < character b))%nat)
  \/ (Utils.compare a b = 0 /\ line a = line b /\ character a = character b)
  \/ (Utils.compare a b = 1
      /\ (line b < line a \/ (line a = line b /\ character b < character a))%nat).
Proof.
  unfold Utils.compare.
  destruct (line a <? line b)%nat eqn:E1; [apply Nat.ltb_lt in E1; left; split; [reflexivity | lia] |].
  apply Nat.ltb_ge in E1.
  destruct (line b <? line a)%nat eqn:E2;
    [apply Nat.ltb_lt in E2; right; right; split; [reflexivity | lia] |].
  apply Nat.ltb_ge in E2.
  destruct (character a <? character b)%nat eqn:E3;
    [apply Nat.ltb_lt in E3; left; split; [reflexivity | lia] |].
  apply Nat.ltb_ge in E3.
  destruct (character b <? character a)%nat eqn:E4;
    [apply Nat.ltb_lt in E4; right; right; split; [reflexivity | lia] |].
  apply Nat.ltb_ge in E4. right; left. split; [reflexivity | lia].
Qed.

Lemma mergeLoop_spec (ranges : list Range) :
  forall (s e : Index),
    let m := Utils.mergeLoop s e ranges in
    idxLe (Utils.rangeToStartIndex m) s /\ idxLe e (Utils.rangeToEndIndex m)
    /\ (forall r, In r ranges ->
          idxLe (Utils.rangeToStartIndex m) (Utils.rangeToStartIndex r)
          /\ idxLe (Utils.rangeToEndIndex r) (Utils.rangeToEndIndex m))
    /\ (Utils.rangeToStartIndex m = s
        \/ exists r, In r ranges /\ Utils.rangeToStartIndex m = Utils.rangeToStartIndex r)
    /\ (Utils.rangeToEndIndex m = e
        \/ exists r, In r ranges /\ Utils.rangeToEndIndex m = Utils.rangeToEndIndex r).
Proof.
  induction ranges as [| r rest IH]; intros s e; cbn zeta.
  - simpl. unfold Utils.indexesToRange, Utils.rangeToStartIndex, Utils.rangeToEndIndex. simpl.
    destruct s, e. simpl.
    split; [apply idxLe_refl |]. split; [apply idxLe_refl |].
    split; [intros r [] |]. split; now left.
  - cbn [Utils.mergeLoop].
    set (s' := if (Utils.compare (Utils.rangeToStartIndex r) s =? -1)
               then Utils.rangeToStartIndex r else s).
    set (e' := if (Utils.compare e (Utils.rangeToEndIndex r) =? -1)
               then Utils.rangeToEndIndex r else e).
    destruct (IH s' e') as (H1 & H2 & H3 & H4 & H5).
    assert (Hs : idxLe s' s /\ idxLe s' (Utils.rangeToStartIndex r)
                 /\ (s' = s \/ s' = Utils.rangeToStartIndex r)).
    { unfold s'. destruct (compare_cases3 (Utils.rangeToStartIndex r) s)
        as [[E G] | [[E G] | [E G]]]; rewrite E; simpl.
      - split; [apply idxLe_iff; lia |]. split; [apply idxLe_refl | now right].
      - split; [apply idxLe_refl |]. split; [apply idxLe_iff; lia | now left].
      - split; [apply idxLe_refl |]. split; [apply idxLe_iff; lia | now left]. }
    assert (He : idxLe e e' /\ idxLe (Utils.rangeToEndIndex r) e'
                 /\ (e' = e \/ e' = Utils.rangeToEndIndex r)).
    { unfold e'. destruct (compare_cases3 e (Utils.rangeToEndIndex r))
        as [[E G] | [[E G] | [E G]]]; rewrite E; simpl.
      - split; [apply idxLe_iff; lia |]. split; [apply idxLe_refl | now right].
      - split; [apply idxLe_refl |]. split; [apply idxLe_iff; lia | now left].
      - split; [apply idxLe_refl |]. split; [apply idxLe_iff; lia | now left]. }
    destruct Hs as (S1 & S2 & S3). destruct He as (E1 & E2 & E3).
    split; [eapply idxLe_trans; eauto |]. split; [eapply idxLe_trans; eauto |].
    split; [| split].
    + intros r0 [<- | Hr]; [| now apply H3].
      split; eapply idxLe_trans; eauto.
    + destruct H4 as [H4 | (r0 & R1 & R2)].
      * destruct S3 as [S3 | S3]; [left; congruence |].
        right. exists r. split; [now left | congruence].
      * right. exists r0. split; [now right | exact R2].
    + destruct H5 as [H5 | (r0 & R1 & R2)].
      * destruct E3 as [E3 | E3]; [left; congruence |].
        right. exists r. split; [now left | congruence].
      * right. exists r0. split; [now right | exact R2].
Qed.

Lemma contains_iff (big inside : Range) :
  Utils.contains big inside = true
  <-> idxLe (Utils.rangeToStartIndex big) (Utils.rangeToStartIndex inside)
      /\ idxLe (Utils.rangeToEndIndex inside) (Utils.rangeToEndIndex big).
Proof.
  unfold Utils.contains, idxLe. rewrite andb_true_iff, !Z.leb_le. tauto.
Qed.

End RangeFacts.

(** [compare] orders the positions: it answers 0 on equal positions only,
    swapping the arguments negates the answer, and "at or before" is
    transitive; the answer is -1, 0 or 1. *)
Theorem compare_orders_the_positions :
  (forall a b : Index, Utils.compare a b = 0 <-> a = b)
  /\ (forall a b : Index, Utils.compare b a = - Utils.compare a b)
  /\ (forall a b c : Index,
         Utils.compare a b <= 0 -> Utils.compare b c <= 0 -> Utils.compare a c <= 0)
  /\ (forall a b c : Index,
         Utils.compare a b = -1 -> Utils.compare b c <= 0 -> Utils.compare a c = -1)
  /\ (forall a b : Index,
         Utils.compare a b = -1 \/ Utils.compare a b = 0 \/ Utils.compare a b = 1).
Proof.
  split; [| split; [| split; [| split]]].
  - intros [la ca] [lb cb]. split.
    + intros H. destruct (compare_cases3 (mkIndex la ca) (mkIndex lb cb))
        as [[E G] | [[E G] | [E G]]]; simpl in *; try lia.
      destruct G as [-> ->]. reflexivity.
    + intros <-. destruct (compare_cases3 (mkIndex la ca) (mkIndex la ca))
        as [[E G] | [[E G] | [E G]]]; simpl in *; lia.
  - intros a b.
    destruct (compare_cases3 a b) as [[E G] | [[E G] | [E G]]];
      destruct (compare_cases3 b a) as [[E' G'] | [[E' G'] | [E' G']]]; lia.
  - intros a b c H1 H2. exact (idxLe_trans a b c H1 H2).
  - intros a b c H1 H2.
    destruct (compare_cases3 a b) as [[E G] | [[E G] | [E G]]];
      destruct (compare_cases3 b c) as [[E' G'] | [[E' G'] | [E' G']]];
      destruct (compare_cases3 a c) as [[E'' G''] | [[E'' G''] | [E'' G'']]]; lia.
  - intros a b. destruct (compare_cases3 a b) as [[E G] | [[E G] | [E G]]]; auto.
Qed.

Lemma compare_orders_the_positions_witness :
  Utils.compare (mkIndex 0 3) (mkIndex 1 0) <= 0
  /\ Utils.compare (mkIndex 1 0) (mkIndex 1 2) <= 0
  /\ Utils.compare (mkIndex 0 3) (mkIndex 1 2) <= 0.
Proof.
  split; [vm_compute; discriminate |]. split; [vm_compute; discriminate |].
  apply (proj1 (proj2 (proj2 compare_orders_the_positions)) _ (mkIndex 1 0));
    vm_compute; discriminate.
Defined.

(** [mergeRanges] throws on no ranges; on one range or more it returns,
    and the range it returns contains every range of the list, starts
    where one of them starts and ends where one of them ends, whatever the
    order of the list. *)
Theorem mergeRanges_is_the_union (ranges : list Range) :
  match ranges with
  | [] => Utils.mergeRanges ranges = Throw (Error "No ranges to merge.")
  | _ :: _ =>
      exists m, Utils.mergeRanges ranges = Ok m
                /\ (forall r, In r ranges -> Utils.contains m r = true)
                /\ (exists r, In r ranges
                              /\ Utils.rangeToStartIndex m = Utils.rangeToStartIndex r)
                /\ (exists r, In r ranges
                              /\ Utils.rangeToEndIndex m = Utils.rangeToEndIndex r)
  end.
Proof.
  destruct ranges as [| r0 rest]; [reflexivity |].
  unfold Utils.mergeRanges. eexists. split; [reflexivity |].
  destruct (mergeLoop_spec rest (Utils.rangeToStartIndex r0) (Utils.rangeToEndIndex r0))
    as (H1 & H2 & H3 & H4 & H5).
  split; [| split].
  - intros r [<- | Hr]; apply contains_iff; [split; assumption | now apply H3].
  - destruct H4 as [H4 | (r & R1 & R2)].
    + exists r0. split; [now left | exact H4].
    + exists r. split; [now right | exact R2].
  - destruct H5 as [H5 | (r & R1 & R2)].
    + exists r0. split; [now left | exact H5].
    + exists r. split; [now right | exact R2].
Qed.

(* ================================================================== *)
(** ** Parents, children and ranks of a parsed tree *)

Section ParsedLinks.
Local Open Scope nat_scope.

Lemma parse_root (L : Language) (det : DetState L) (codeLines : list string)
  (tree : AbstractSyntaxTree.t) :
  FactoriesOk L ->
  AbstractParser.parse L det codeLines = Ok tree ->
  AbstractSyntaxTree.getRoot tree = 0
  /\ 0 < List.length (AbstractSyntaxTree.store tree)
  /\ tagOf (AbstractSyntaxTree.store tree) 0 = Some TopLevelT
  /\ parentOf (AbstractSyntaxTree.store tree) 0 = None
  /\ rangeOf (AbstractSyntaxTree.store tree) 0 = Utils.getMaxRange codeLines.
Proof.
  intros HF H. unfold AbstractParser.parse in H.
  destruct (AbstractParser.isEmptyInput codeLines); [discriminate |].
  destruct (AbstractParser.tokenizeLines L det codeLines) as [p |] eqn:Etok; [| discriminate].
  cbn [bind] in H.
  assert (Hlines : sourceLines p = codeLines).
  { unfold AbstractParser.tokenizeLines in Etok.
    bind_cases Etok. bind_pair Etok. bind_cases Etok. now inv Etok. }
  destruct (preparse L det codeLines (sourceTokens p)) as [det1 |]; [| discriminate].
  unfold Heap.alloc in H. cbn [bind] in H.
  match type of H with
  | bind ?m _ = _ => destruct m as [ps |] eqn:E; [| discriminate]
  end.
  cbn [bind] in H. injection H as <-.
  cbn [AbstractSyntaxTree.store AbstractSyntaxTree.getRoot AbstractSyntaxTree.root].
  pose proof (parseNonTerminal_shape L HF _ _ _ _ _ _ _ _ E) as Hs.
  destruct Hs as [_ [Hl Hf]].
  - cbn [AbstractParser.psStore app]. split.
    + intros q i x Hx. destruct q as [| q]; [destruct i; discriminate |].
      destruct q; destruct i; discriminate.
    + intros g Hg. destruct g as [| g]; [discriminate |]. destruct g; discriminate.
  - cbn [AbstractParser.psStore app List.length]. split; [simpl; lia |].
    split; discriminate.
  - cbn [AbstractParser.psStore app List.length] in Hl, Hf.
    destruct (Hf 0 ltac:(simpl; lia)) as (F1 & F2 & F3 & _).
    split; [reflexivity |]. split; [simpl in Hl; lia |].
    rewrite F1, F2, F3, <- Hlines. repeat split.
Qed.

Lemma getParent_parentOf (st : Store) (x : NodeId) (p : option NodeId) :
  x < List.length st -> parentOf st x = p -> Heap.getParent st x = Ok p.
Proof.
  unfold parentOf, Heap.getParent, Heap.get. intros Hx H.
  destruct (nth_error st x) as [n |] eqn:E; [simpl; now subst |].
  apply nth_error_None in E. lia.
Qed.

Lemma getSiblingRank_rankOf (st : Store) (x : NodeId) (i : nat) :
  x < List.length st -> rankOf st x = i -> Heap.getSiblingRank st x = Ok i.
Proof.
  unfold rankOf, Heap.getSiblingRank, Heap.get. intros Hx H.
  destruct (nth_error st x) as [n |] eqn:E; [simpl; now subst |].
  apply nth_error_None in E. lia.
Qed.

Lemma listChildren_childrenOf (st : Store) (p : NodeId) (cs : list NodeId) :
  Heap.listChildren st p = Ok cs -> childrenOf st p = cs.
Proof.
  unfold childrenOf, Heap.listChildren, Heap.get.
  destruct (nth_error st p) as [n |]; [simpl; congruence | discriminate].
Qed.

End ParsedLinks.

(** Parents and ranks. After every successful parse (by a parser whose
    factories return fresh nodes of their class, as the Python and the
    TypeScript parser) the root is a top-level node without a parent, and
    for every node that has children, each child has that node as its
    parent and its place in the list of the children as its sibling rank;
    no node is listed twice. *)
Theorem children_know_their_parent :
  (forall (L : Language) (det : DetState L) (codeLines : list string)
          (tree : AbstractSyntaxTree.t),
      FactoriesOk L ->
      AbstractParser.parse L det codeLines = Ok tree -> linkedTree tree)
  /\ (forall (codeLines : list string) (tree : AbstractSyntaxTree.t),
         PythonParser.parse codeLines = Ok tree -> linkedTree tree)
  /\ (forall (codeLines : list string) (tree : AbstractSyntaxTree.t),
         TypeScriptParser.parse codeLines = Ok tree -> linkedTree tree).
Proof.
  assert (G : forall (L : Language) (det : DetState L) (codeLines : list string)
                     (tree : AbstractSyntaxTree.t),
             FactoriesOk L ->
             AbstractParser.parse L det codeLines = Ok tree -> linkedTree tree).
  { intros L det codeLines tree HF H. unfold linkedTree.
    destruct (parse_root _ _ _ _ HF H) as (R1 & R2 & R3 & R4 & _).
    destruct (parse_shape _ _ _ _ HF H) as [Hl _].
    rewrite R1. split; [now apply getParent_parentOf |]. split; [exact R3 |].
    intros p cs Hcs. apply listChildren_childrenOf in Hcs. subst cs.
    assert (Hlink : forall i x,
              nth_error (childrenOf (AbstractSyntaxTree.store tree) p) i = Some x ->
              Heap.getParent (AbstractSyntaxTree.store tree) x = Ok (Some p)
              /\ Heap.getSiblingRank (AbstractSyntaxTree.store tree) x = Ok i).
    { intros i x Hx. destruct (Hl _ _ _ Hx) as (B1 & B2 & B3).
      split; [now apply getParent_parentOf | now apply getSiblingRank_rankOf]. }
    split; [| exact Hlink].
    apply (proj2 (NoDup_nth_error _)). intros i j Hi Hij.
    destruct (nth_error (childrenOf (AbstractSyntaxTree.store tree) p) i) as [x |] eqn:Ex;
      [| apply nth_error_None in Ex; lia].
    symmetry in Hij.
    destruct (Hlink _ _ Ex) as [_ A]. destruct (Hlink _ _ Hij) as [_ B]. congruence. }
  split; [exact G |]. split.
  - intros codeLines tree H. apply python_parse_inv in H. destruct H as [det H].
    exact (G _ _ _ _ python_factories H).
  - intros codeLines tree H. apply typescript_parse_inv in H. destruct H as [det H].
    exact (G _ _ _ _ typescript_factories H).
Qed.

Lemma children_know_their_parent_witness :
  exists tree : AbstractSyntaxTree.t,
    PythonParser.parse pythonDocLines = Ok tree /\ linkedTree tree.
Proof.
  eexists. split; [vm_compute; reflexivity |].
  apply (proj1 (proj2 children_know_their_parent) pythonDocLines).
  vm_compute. reflexivity.
Defined.

(* ================================================================== *)
(** ** The ranges of the tree, step by step *)

Section NestSteps.
Local Open Scope nat_scope.

Lemma contains_refl (r : Range) : Utils.contains r r = true.
Proof. apply contains_iff. split; apply idxLe_refl. Qed.

Lemma contains_trans (a b c : Range) :
  Utils.contains a b = true -> Utils.contains b c = true -> Utils.contains a c = true.
Proof.
  rewrite !contains_iff. intros [H1 H2] [H3 H4]. split; eapply idxLe_trans; eauto.
Qed.

Lemma rangesNest_same (st st' : Store) :
  List.length st' = List.length st ->
  (forall id, childrenOf st' id = childrenOf st id) ->
  (forall id, rangeOf st' id = rangeOf st id) ->
  rangesNest st -> rangesNest st'.
Proof.
  intros Hl Hc Hr [H1 H2]. split.
  - intros id Hid. unfold startOf, endOf. rewrite Hr. apply H1. lia.
  - intros g x Hx. rewrite Hc in Hx. rewrite !Hr. now apply H2.
Qed.

Lemma rangesNest_sameView (st st' : Store) :
  sameView st st' -> rangesNest st -> rangesNest st'.
Proof.
  intros [Hl Hv]. apply rangesNest_same; [exact Hl | |]; intros id; apply (Hv id).
Qed.

(** [this.addChild(node)] for a node inside the range of [this]. *)
Lemma rangesNest_Added (st st' : Store) (this node : NodeId) :
  rangesNest st -> Added st this node st' ->
  Utils.contains (rangeOf st this) (rangeOf st node) = true ->
  rangesNest st'.
Proof.
  intros [H1 H2] Ha Hin. split.
  - intros id Hid. unfold startOf, endOf. rewrite (Added_rangeOf _ _ _ _ _ Ha).
    apply H1. rewrite <- (Added_length _ _ _ _ Ha). exact Hid.
  - intros g x Hx. rewrite !(Added_rangeOf _ _ _ _ _ Ha).
    destruct (Nat.eq_dec g this) as [-> | Hne].
    + rewrite (Added_childrenOf_this _ _ _ _ Ha) in Hx.
      apply in_app_iff in Hx. destruct Hx as [Hx | [<- | []]]; [now apply H2 | exact Hin].
    + rewrite (Added_childrenOf_other _ _ _ _ _ Ha) in Hx by assumption. now apply H2.
Qed.

(** A store that shows what [st] shows of its nodes, and new nodes without
    children whose ranges do not end before they start. *)
Lemma rangesNest_extends (st st' : Store) :
  linked st -> extendsView st st' ->
  (forall id, List.length st <= id -> childrenOf st' id = []) ->
  (forall id, List.length st <= id < List.length st' -> idxLe (startOf st' id) (endOf st' id)) ->
  rangesNest st -> rangesNest st'.
Proof.
  intros Hl [Hlen Hv] Hnew Hwf [H1 H2]. split.
  - intros id Hid. destruct (Nat.lt_ge_cases id (List.length st)) as [Hlt | Hge].
    + destruct (Hv id Hlt) as (_ & R & _). unfold startOf, endOf. rewrite R. now apply H1.
    + apply Hwf. lia.
  - intros g x Hx. destruct (Nat.lt_ge_cases g (List.length st)) as [Hg | Hg].
    + destruct (Hv g Hg) as (_ & Rg & _ & _ & C1). rewrite C1 in Hx.
      pose proof (linked_bound _ _ _ Hl Hx) as Bx.
      destruct (Hv x Bx) as (_ & Rx & _). rewrite Rg, Rx. now apply H2.
    + rewrite (Hnew g Hg) in Hx. contradiction.
Qed.

Lemma rangesNest_Allocated (st st' : Store) (t : Tag) (r : Range) :
  linked st -> Allocated st t r st' ->
  idxLe (Utils.rangeToStartIndex r) (Utils.rangeToEndIndex r) ->
  rangesNest st -> rangesNest st'.
Proof.
  intros Hl Ha Hr. apply rangesNest_extends; [exact Hl | | |].
  - eapply Allocated_extendsView; eauto.
  - intros id Hid. eapply Allocated_children_new; eauto.
  - intros id Hid. destruct Ha as [Hlen Hv].
    assert (id = List.length st) by lia. subst id.
    destruct (Hv (List.length st)) as (_ & R & _). rewrite Nat.eqb_refl in R.
    unfold startOf, endOf. now rewrite R.
Qed.

Lemma mergeRanges_pair (r1 r2 m : Range) :
  Utils.mergeRanges [r1; r2] = Ok m ->
  Utils.contains m r1 = true /\ Utils.contains m r2 = true.
Proof.
  unfold Utils.mergeRanges. intros H. injection H as <-.
  destruct (mergeLoop_spec [r2] (Utils.rangeToStartIndex r1) (Utils.rangeToEndIndex r1))
    as (H1 & H2 & H3 & _).
  split; apply contains_iff; [split; assumption | apply H3; now left].
Qed.

End NestSteps.

(* ================================================================== *)
(** ** The loop that adds the nodes keeps the ranges nested *)

Section NestLoop.
Local Open Scope nat_scope.
Variable cb : bool.
Variable nt : NonTerminal.
Variable X : NodeId.
Variable st1 : Store.
Variable L0 : nat.
Variable check checkFirst : bool.
Hypothesis HL0 : L0 <= List.length st1.
Hypothesis HX : X < L0.
Hypothesis Hfresh : forall id, L0 <= id < List.length st1 -> tagOf st1 id <> Some FunctionGroupsT.
Hypothesis HXtag : tagOf st1 X <> Some FunctionGroupsT.
Hypothesis Hcheck : check = true -> cb = true.
Hypothesis HcheckFirst : checkFirst = true -> cb = false /\ inFunction nt = true.
Hypothesis Hinside : forall y, L0 <= y < List.length st1 ->
                       Utils.contains (rangeOf st1 X) (rangeOf st1 y) = true.

Let inv := attachInv cb nt X st1 L0 check.

(** One of the five steps. *)
Lemma nest_step (st st' : Store) (dg dg' : option NodeId) (first : bool) (x : NodeId)
  (rem : list (option NodeId)) :
  inv st dg first (Some x :: rem) ->
  AttachStep X check checkFirst x st dg first st' dg' ->
  rangesNest st -> rangesNest st'.
Proof.
  intros (I1 & I2 & I3 & I4) Hstep Hn.
  pose proof I1 as (Hl & Hlen & Hold & _).
  assert (HrX : rangeOf st X = rangeOf st1 X) by (apply Hold; lia).
  assert (Hpend : forall y, In y (somes (Some x :: rem) ++ dlist dg) ->
            y < List.length st
            /\ Utils.contains (rangeOf st X) (rangeOf st y) = true).
  { intros y Hy. destruct (core_pending_orphan cb nt X st1 L0 _ _ _ y I1 Hy) as [_ By].
    split; [lia |]. rewrite HrX. destruct (Hold y ltac:(lia)) as [_ ->]. now apply Hinside. }
  destruct (Hpend x) as [Bx Cx]; [apply in_app_iff; left; now left |].
  assert (Hflush : forall sta dga, Flushed check X st dg sta dga ->
            rangesNest sta /\ (forall id, rangeOf sta id = rangeOf st id)
            /\ (check = false -> sta = st)).
  { intros sta dga Hf.
    inversion Hf as [s0 d s1 Hc Ha E1 E2 E3 E4 | s0 dg0 Hk E1 E2 E3 E4].
    - subst dg. destruct (Hpend d) as [_ Cd]; [apply in_app_iff; right; now left |].
      split; [eapply rangesNest_Added; eauto |].
      split; [intros id; eapply Added_rangeOf; eauto |]. intros Hc'. congruence.
    - subst sta. auto. }
  inversion Hstep as
    [ sta dga T1 C1 F1 E1 E2
    | sta dga g stb T1 C1 C2 C3 F1 P1 A1 E1 E2
    | t sta dga stb T1 T2 T3 F1 A1 E1 E2
    | d r sta stb stc std T1 C1 D0 M1 A1 A2 A3 A4 E1 E2
    | sta stb stc T1 C1 A1 A2 A3 E1 E2 ]; clear Hstep.
  - now destruct (Hflush _ _ F1).
  - destruct (Hflush _ _ F1) as (_ & _ & F6). specialize (F6 C1). subst sta.
    destruct (HcheckFirst C2) as [Hcb Hin].
    destruct (I4 C3 Hin Hcb) as (_ & g' & G1 & G2 & G3).
    assert (g' = g) by congruence. subst g'.
    eapply rangesNest_Added; [exact Hn | exact A1 |].
    eapply contains_trans; [| exact Cx].
    apply (proj2 Hn). rewrite G3. now left.
  - destruct (Hflush _ _ F1) as (F2 & F4 & _).
    eapply rangesNest_Added; [exact F2 | exact A1 |]. now rewrite !F4.
  - subst dg. destruct (Hpend d) as [Bd Cd]; [apply in_app_iff; right; now left |].
    set (g := List.length st) in *.
    destruct (mergeRanges_pair _ _ _ M1) as [Md Mx].
    destruct (mergeRanges_two _ _ _ M1) as [M2 M3].
    pose proof (proj1 Hn x Bx) as Wx. unfold startOf, endOf in Wx.
    assert (Wr : idxLe (Utils.rangeToStartIndex r) (Utils.rangeToEndIndex r)).
    { apply contains_iff in Mx. destruct Mx as [Q1 Q2].
      eapply idxLe_trans; [exact Q1 |]. eapply idxLe_trans; [exact Wx | exact Q2]. }
    assert (CXr : Utils.contains (rangeOf st X) r = true).
    { apply contains_iff in Cd, Cx. apply contains_iff.
      destruct Cd as [Q1 Q2], Cx as [Q3 Q4].
      split; [destruct M2 as [-> | ->] | destruct M3 as [-> | ->]]; assumption. }
    destruct (Allocated_new _ _ _ _ A1) as (_ & N2 & _). fold g in N2.
    assert (Ra : forall id, id <> g -> rangeOf sta id = rangeOf st id).
    { intros id Hid. now apply (Allocated_old _ _ _ _ _ A1). }
    pose proof (rangesNest_Allocated _ _ _ _ Hl A1 Wr Hn) as Na.
    assert (Nb : rangesNest stb).
    { eapply rangesNest_Added; [exact Na | exact A2 |].
      rewrite N2, Ra by (unfold g; lia). exact Md. }
    assert (Nc : rangesNest stc).
    { eapply rangesNest_Added; [exact Nb | exact A3 |].
      rewrite !(Added_rangeOf _ _ _ _ _ A2), N2, Ra by (unfold g; lia). exact Mx. }
    eapply rangesNest_Added; [exact Nc | exact A4 |].
    rewrite !(Added_rangeOf _ _ _ _ _ A3), !(Added_rangeOf _ _ _ _ _ A2), N2,
      Ra by (unfold g; lia).
    exact CXr.
  - set (g := List.length st) in *.
    pose proof (proj1 Hn x Bx) as Wx. unfold startOf, endOf in Wx.
    destruct (Allocated_new _ _ _ _ A1) as (_ & N2 & _). fold g in N2.
    assert (Ra : forall id, id <> g -> rangeOf sta id = rangeOf st id).
    { intros id Hid. now apply (Allocated_old _ _ _ _ _ A1). }
    pose proof (rangesNest_Allocated _ _ _ _ Hl A1 Wx Hn) as Na.
    assert (Nb : rangesNest stb).
    { eapply rangesNest_Added; [exact Na | exact A2 |].
      rewrite N2, Ra by (unfold g; lia). apply contains_refl. }
    eapply rangesNest_Added; [exact Nb | exact A3 |].
    rewrite !(Added_rangeOf _ _ _ _ _ A2), N2, Ra by (unfold g; lia). exact Cx.
Qed.

(** The whole loop. *)
Lemma attachLoop_nest (state : list Symbol) :
  forall (childNodes : list (option NodeId)) (a a' : AbstractParser.AttachState),
    Forall2 (fun sym ani => symTag sym = None -> ani = None) state childNodes ->
    AbstractParser.attachLoop nt X check checkFirst state childNodes a = Ok a' ->
    inv (AbstractParser.atStore a) (AbstractParser.danglingMultilineComment a)
        (AbstractParser.isFirst a) childNodes ->
    rangesNest (AbstractParser.atStore a) ->
    inv (AbstractParser.atStore a') (AbstractParser.danglingMultilineComment a')
        (AbstractParser.isFirst a') []
    /\ rangesNest (AbstractParser.atStore a').
Proof.
  induction state as [| sym state IH]; intros childNodes a a' Hrel H Hinv Hn.
  - inversion Hrel; subst childNodes. simpl in H. injection H as <-. auto.
  - inversion Hrel as [| s0 ani st0 rem Hsym Hrest]; subst childNodes. clear Hrel.
    cbn [AbstractParser.attachLoop] in H.
    destruct (AbstractParser.attachOne nt X check checkFirst sym ani a) as [a1 |] eqn:E1;
      [| discriminate].
    cbn [bind] in H.
    destruct (attachOne_spec _ _ _ _ _ _ _ _ E1)
      as [(V1 & V2 & V3 & V4) | (x & stf & -> & V1 & V2 & V3)].
    + assert (Hnone : ani = None) by (destruct V4; auto). subst ani.
      apply (IH _ _ _ Hrest H); [| eapply rangesNest_sameView; eauto].
      apply inv_skip in Hinv. rewrite V2.
      pose proof (inv_sameView _ _ _ _ _ _ _ _ _ _ _ Hinv V1) as Hinv1.
      destruct V3 as [-> | ->]; [exact Hinv1 | eapply inv_first; eauto].
    + pose proof (inv_sameView _ _ _ _ _ _ _ _ _ _ _ Hinv V1) as Hinv1.
      apply (IH _ _ _ Hrest H).
      * rewrite V2.
        exact (inv_step cb nt X st1 L0 check checkFirst HL0 HX Hfresh HXtag Hcheck HcheckFirst
                 _ _ _ _ _ _ _ Hinv1 V3).
      * eapply nest_step; [exact Hinv1 | exact V3 |]. eapply rangesNest_sameView; eauto.
Qed.

(** The comment that is still held back when the loop ends. *)
Lemma attach_end_nest (st st' : Store) (dg : option NodeId) (first : bool) :
  inv st dg first [] ->
  rangesNest st ->
  match dg with Some d => Added st X d st' | None => st' = st end ->
  rangesNest st'.
Proof.
  intros (I1 & _) Hn H. destruct dg as [d |]; [| subst st'; exact Hn].
  pose proof I1 as (_ & _ & Hold & _).
  destruct (core_pending_orphan cb nt X st1 L0 _ _ _ d I1) as [_ Bd]; [now left |].
  eapply rangesNest_Added; [exact Hn | exact H |].
  destruct (Hold X ltac:(lia)) as [_ ->]. destruct (Hold d ltac:(lia)) as [_ ->].
  now apply Hinside.
Qed.

End NestLoop.

(* ================================================================== *)
(** ** The recursion keeps the ranges nested *)

Section NestFacts.
Local Open Scope nat_scope.

Lemma Forall2_nth {A B : Type} (R : A -> B -> Prop) (l1 : list A) (l2 : list B) :
  Forall2 R l1 l2 ->
  forall i a b, nth_error l1 i = Some a -> nth_error l2 i = Some b -> R a b.
Proof.
  intros H. induction H as [| x y l1 l2 Hxy Hrest IH]; intros i a b Ha Hb;
    [destruct i; discriminate |].
  destruct i as [| i]; simpl in Ha, Hb.
  - injection Ha as <-. injection Hb as <-. exact Hxy.
  - eapply IH; eauto.
Qed.

Lemma chained_end (ranges : list TokenRange) :
  forall (s e : Z) (i : nat) (ri : TokenRange),
    chained s ranges e -> nth_error ranges i = Some ri -> (endTok ri <= e)%Z.
Proof.
  induction ranges as [| r rest IH]; intros s e i ri H Hi; [destruct i; discriminate |].
  destruct H as (H1 & H2 & H3). destruct i as [| i]; simpl in Hi.
  - injection Hi as <-. eapply chained_le; eauto.
  - eapply IH; eauto.
Qed.

Variable p : ParserBase.
Hypothesis Hfront : frontOk p.

(** The range of a symbol whose tokens lie inside the tokens of [r]. *)
Lemma span_inside (st : Store) (X : NodeId) (r q : TokenRange) (rng : Range) :
  coversTokens p st X r ->
  tokenSpanRange p q = Ok rng ->
  (startTok r <= startTok q)%Z -> (startTok q <= endTok q)%Z -> (endTok q <= endTok r)%Z ->
  Utils.contains (rangeOf st X) rng = true
  /\ idxLe (Utils.rangeToStartIndex rng) (Utils.rangeToEndIndex rng).
Proof.
  intros Hc Hq H1 H2 H3.
  destruct (tokenSpanRange_boundary p Hfront _ _ Hq) as (B1 & B2 & B3 & _).
  split.
  - apply contains_iff. rewrite B1, B2.
    split; [apply (Hc (startTok q)) | apply (Hc (endTok q))]; lia.
  - rewrite B1, B2. apply boundary_mono; [exact Hfront | lia].
Qed.

(** The tokens of a parse range lie inside the range of the node of the
    symbol. *)
Lemma covers_parse_range (st : Store) (x : NodeId) (r q : TokenRange) (rng : Range) :
  tokenSpanRange p r = Ok rng -> rangeOf st x = rng ->
  parseRangeIn r (Some q) ->
  coversTokens p st x q.
Proof.
  intros Hr Hx [H1 H2] k Hk.
  destruct (tokenSpanRange_boundary p Hfront _ _ Hr) as (B1 & B2 & B3 & _).
  unfold startOf, endOf. rewrite Hx, B1, B2.
  split; apply boundary_mono; try exact Hfront; lia.
Qed.

End NestFacts.

Section RecurseNest.
Local Open Scope nat_scope.
Variable L : Language.
Let cb := isCommentBeforeFunction L.
Variable nt : NonTerminal.
Variable X : NodeId.
Variable st1 : Store.
Variable L0 : nat.
Hypothesis HL0 : L0 <= List.length st1.
Hypothesis HX : X < L0.
Hypothesis Hfresh : forall id, L0 <= id < List.length st1 -> tagOf st1 id <> Some FunctionGroupsT.
Variable p : ParserBase.
Hypothesis Hfront : frontOk p.
Variable rec : NonTerminal -> NodeId -> TokenRange -> Z -> AbstractParser.PState L
               -> result (AbstractParser.PState L).
Hypothesis Hrec : keepsShape L rec.
Hypothesis Hnest : keepsNesting L p rec.

Lemma recurseChildren_nest (depth : Z) (state : list Symbol) (symRanges : list TokenRange)
  (nodes : list (option NodeId)) :
  Resolved p st1 state symRanges nodes ->
  forall (ntRanges : list (option TokenRange)) (ps ps' : AbstractParser.PState L),
    Forall (ntAllowed nt) state ->
    Forall2 parseRangeIn symRanges ntRanges ->
    NoDup (somes nodes) ->
    AbstractParser.recurseChildren L rec X depth state nodes ntRanges ps = Ok ps' ->
    recInv cb nt X st1 L0 (AbstractParser.psStore L ps) (somes nodes) ->
    rangesNest (AbstractParser.psStore L ps) ->
    rangesNest (AbstractParser.psStore L ps').
Proof.
  intros Hres.
  induction Hres as [| sym r rng state ranges nodes Hsym Hspan Hres IH
                     | sym r rng t x state ranges nodes Hsym Hspan R1 R2 R3 R4 R5 Hres IH];
    intros ntRanges ps ps' Hok Hpr Hnd H Hinv Hn.
  - simpl in H. injection H as <-. exact Hn.
  - inversion Hok as [| s1 st2 Hs Hoks]; subst. clear Hok.
    inversion Hpr as [| r0 q rs qs Hq Hprs]; subst. clear Hpr.
    cbn [AbstractParser.recurseChildren] in H.
    destruct sym as [t | n].
    + eapply IH; eauto.
    + exfalso. destruct nt, n; simpl in Hs, Hsym; try contradiction;
        try (destruct Hs; discriminate); discriminate.
  - inversion Hok as [| s1 st2 Hs Hoks]; subst. clear Hok.
    inversion Hpr as [| r0 q rs qs Hq Hprs]; subst. clear Hpr.
    cbn [AbstractParser.recurseChildren] in H.
    rewrite somes_cons_some in Hinv, Hnd.
    assert (Hnd' : NoDup (somes nodes)) by now inversion Hnd.
    destruct sym as [t0 | n].
    + eapply IH; eauto. eapply recInv_drop; exact Hinv.
    + assert (Hfun : inFunction n = true -> t = FunctionsT).
      { destruct nt, n; simpl in Hs, Hsym; try contradiction;
          try (destruct Hs; discriminate); try discriminate;
          intros; congruence. }
      destruct q as [q |]; [| discriminate].
      destruct (rec n x q (depth + 1)%Z ps) as [ps1 |] eqn:E; [| discriminate].
      cbn [bind] in H.
      pose proof Hinv as (Q1 & Q2 & Q3 & Q4 & Q5).
      destruct (Q5 x ltac:(now left)) as (X1 & X2 & X3).
      destruct (Q3 x ltac:(lia)) as [Htx Hrx].
      assert (Hpre : shapePre cb n x (AbstractParser.psStore L ps)).
      { split; [lia |]. split.
        - rewrite Htx. now apply Hfresh.
        - intros Hin Hcb. rewrite <- Htx in R1.
          specialize (Hfun Hin). subst t.
          destruct (X3 R1 Hcb) as (g & G1 & G2 & G3 & G4).
          split; [exact R1 |]. exists g. auto. }
      assert (Hcov : coversTokens p (AbstractParser.psStore L ps) x q).
      { eapply covers_parse_range; [exact Hfront | exact Hspan | | exact Hq]. congruence. }
      destruct (Hrec _ _ _ _ _ _ E Q1 Hpre) as [S1 S2].
      pose proof (Hnest _ _ _ _ _ _ E Q1 Hpre Hn Hcov) as Hn1.
      eapply (IH _ _ _ Hoks Hprs Hnd' H); [| exact Hn1].
      eapply (recInv_step L nt X st1 L0); [.. | exact Hinv | | | exact S1 | exact S2]; eauto.
      * now inversion Hnd.
      * intros Hin. rewrite R1. f_equal. auto.
Qed.

End RecurseNest.

(* ================================================================== *)
(** ** [parseNonTerminal] keeps the ranges nested *)

Section ParseNest.
Local Open Scope nat_scope.
Variable L : Language.
Hypothesis HF : FactoriesOk L.
Let cb := isCommentBeforeFunction L.
Variable p : ParserBase.
Hypothesis Hfront : frontOk p.

Lemma Resolved_range (st1 : Store) (state : list Symbol) (ranges : list TokenRange)
  (nodes : list (option NodeId)) (x : NodeId) :
  Resolved p st1 state ranges nodes ->
  In x (somes nodes) ->
  exists i r rng, nth_error ranges i = Some r /\ tokenSpanRange p r = Ok rng
                  /\ rangeOf st1 x = rng.
Proof.
  intros Hres Hx. apply In_somes in Hx. apply In_nth_error in Hx. destruct Hx as [i Hi].
  destruct (Resolved_nth p _ _ _ _ Hres _ _ Hi) as (r & rng & H1 & H2 & H3).
  exists i, r, rng. auto.
Qed.

Lemma parseNonTerminal_nest (fuel : nat) :
  keepsNesting L p (AbstractParser.parseNonTerminal L fuel p).
Proof.
  induction fuel as [| fuel IH]; intros nt X tokRange depth ps ps' H Hinv Hpre Hn Hc;
    [discriminate |].
  pose proof (parseNonTerminal_shape L HF p fuel) as Hshape.
  fold cb in Hinv, Hpre |- *.
  rewrite parseNonTerminal_S in H.
  destruct (AbstractParser.detectSymbols L p nt tokRange depth (AbstractParser.psDet L ps))
    as [[acc det] |] eqn:Edet; [| discriminate].
  cbn [bind] in H.
  destruct (detectSymbols_spec _ _ _ _ _ _ _ _ Edet) as [(A1 & A2 & A3) Hvalid].
  destruct (detectSymbols_ordered _ _ _ _ _ _ _ _ Edet) as [Hch Hpr].
  clear Edet.
  set (st0 := AbstractParser.psStore L ps) in *.
  destruct (AbstractParser.resolveAll L p (AbstractParser.state acc)
              (AbstractParser.symbolRange acc) (AbstractParser.nodeCreationInformationArr acc)
              st0) as [[st1 nodes] |] eqn:Eres; [| discriminate].
  cbn [bind] in H.
  destruct (resolveAll_spec L HF _ _ _ _ _ _ _ A1 A3 Eres) as (Hext & Hseq & Hres).
  clear Eres.
  destruct Hpre as (HX & HXtag & Hlift).
  assert (Hl01 : List.length st0 <= List.length st1) by apply Hext.
  assert (Hin_fresh : forall x, In x (somes nodes) <-> List.length st0 <= x < List.length st1).
  { intros x. rewrite Hseq, in_seq. lia. }
  assert (Hnew : forall id, List.length st0 <= id < List.length st1 ->
             tagOf st1 id <> Some FunctionGroupsT /\ parentOf st1 id = None
             /\ childrenOf st1 id = []).
  { intros id Hid. apply Hin_fresh in Hid.
    destruct (Resolved_In _ _ _ _ _ _ Hres Hid) as (sym & t & S1 & S2 & S3 & S4 & S5).
    split; [| auto]. rewrite S2, <- S1. apply symTag_not_group. }
  assert (Hfresh : forall id, List.length st0 <= id < List.length st1 ->
             tagOf st1 id <> Some FunctionGroupsT) by (intros; now apply Hnew).
  assert (Hinv1 : shapeInv cb st1).
  { eapply shapeInv_resolved; eauto. intros id Hid.
    destruct (Hnew id Hid) as (N1 & N2 & N3). auto. }
  assert (Hnil1 : forall id, List.length st0 <= id -> childrenOf st1 id = []).
  { intros id Hid. destruct (Nat.lt_ge_cases id (List.length st1)) as [Hlt | Hge].
    - now apply Hnew.
    - unfold childrenOf.
      assert (N : nth_error st1 id = None) by (apply nth_error_None; lia).
      now rewrite N. }
  assert (HrX : rangeOf st1 X = rangeOf st0 X) by (apply (proj2 Hext); exact HX).
  assert (Hc1 : coversTokens p st1 X tokRange).
  { intros k Hk. unfold startOf, endOf. rewrite HrX. now apply Hc. }
  assert (Hspan : forall i r rng, nth_error (AbstractParser.symbolRange acc) i = Some r ->
            tokenSpanRange p r = Ok rng ->
            Utils.contains (rangeOf st1 X) rng = true
            /\ idxLe (Utils.rangeToStartIndex rng) (Utils.rangeToEndIndex rng)).
  { intros i r rng Hi Hr.
    destruct (chained_start _ _ _ _ _ Hch Hi) as [C1 C2].
    pose proof (chained_end _ _ _ _ _ Hch Hi) as C3.
    eapply span_inside; eauto. }
  assert (Hfresh_in : forall y, List.length st0 <= y < List.length st1 ->
            Utils.contains (rangeOf st1 X) (rangeOf st1 y) = true
            /\ idxLe (startOf st1 y) (endOf st1 y)).
  { intros y Hy. apply Hin_fresh in Hy.
    destruct (Resolved_range _ _ _ _ _ Hres Hy) as (i & r & rng & Q1 & Q2 & Q3).
    unfold startOf, endOf. rewrite Q3. eapply Hspan; eauto. }
  assert (Hn1 : rangesNest st1).
  { eapply rangesNest_extends; [apply Hinv | exact Hext | exact Hnil1 | | exact Hn].
    intros id Hid. now apply Hfresh_in. }
  destruct Hext as [_ Hv01].
  assert (HXtag1 : tagOf st1 X <> Some FunctionGroupsT).
  { destruct (Hv01 X HX) as [-> _]. exact HXtag. }
  assert (Hlift1 : inFunction nt = true -> cb = false -> liftable st1 X).
  { intros H1 H2. eapply liftable_kept; [exact (Hlift H1 H2) | lia | |].
    - intros id Hid. destruct (Hv01 id Hid) as (B1 & _ & B3 & _). auto.
    - intros g Hg. destruct (Hlift H1 H2) as (_ & g' & G1 & G2 & _).
      assert (g' = g) by congruence. subst g'.
      apply (Hv01 g). eapply tagOf_Some; eauto. }
  destruct (NonTerminal_eqb nt FUNCTIONS) eqn:Ent.
  - (* a function: its declaration and its body *)
    assert (nt = FUNCTIONS) by (destruct nt; try discriminate; reflexivity). subst nt.
    destruct (AbstractParser.getFirstLast (AbstractParser.state acc)) as [first last] eqn:Efl.
    destruct (Js.nthZ nodes first) as [[D |] |] eqn:ED; try discriminate.
    destruct (Js.nthZ (AbstractParser.ntParseRange acc) first) as [[declarationRange |] |]
      eqn:EDR; try discriminate.
    destruct (Js.nthZ (AbstractParser.ntParseRange acc) last) as [[bodyRange |] |] eqn:EB;
      try discriminate.
    destruct (Heap.addChild st1 X D) as [st2 |] eqn:Eadd; [| discriminate].
    cbn [bind] in H. apply addChild_view in Eadd.
    destruct (AbstractParser.parseNonTerminal L fuel p FUNCTION_DECLARATION D declarationRange
                (depth + 1)%Z (AbstractParser.mkPState L st2 det)) as [ps3 |] eqn:Edecl;
      [| discriminate].
    cbn [bind] in H.
    assert (HD : List.length st0 <= D < List.length st1).
    { apply Hin_fresh. apply In_somes. eapply nthZ_In; eauto. }
    destruct (Hnew D HD) as (D1 & D2 & D3).
    unfold Js.nthZ in ED, EDR, EB.
    destruct (first <? 0)%Z eqn:F1; [discriminate |].
    destruct (last <? 0)%Z eqn:F2; [discriminate |].
    destruct (Resolved_nth p _ _ _ _ Hres _ _ ED) as (rf & rngf & Rf1 & Rf2 & Rf3).
    pose proof (Forall2_nth _ _ _ Hpr _ _ _ Rf1 EDR) as Hdecl.
    destruct (nth_error (AbstractParser.symbolRange acc) (Z.to_nat last)) as [rl |] eqn:Rl1.
    2:{ apply nth_error_None in Rl1.
        assert (Q : Z.to_nat last < List.length (AbstractParser.ntParseRange acc))
          by (apply nth_error_Some; rewrite EB; discriminate).
        lia. }
    pose proof (Forall2_nth _ _ _ Hpr _ _ _ Rl1 EB) as [Hb1 Hb2].
    destruct (chained_start _ _ _ _ _ Hch Rl1) as [Cl1 Cl2].
    pose proof (chained_end _ _ _ _ _ Hch Rl1) as Cl3.
    assert (Hinv2 : shapeInv cb st2) by (eapply shapeInv_Added; eauto).
    assert (Hn2 : rangesNest st2).
    { eapply rangesNest_Added; [exact Hn1 | exact Eadd |]. now apply Hfresh_in. }
    assert (Hlen2 : List.length st2 = List.length st1) by apply Eadd.
    assert (Hpre2 : shapePre cb FUNCTION_DECLARATION D st2).
    { split; [lia |]. split; [| discriminate].
      rewrite (Added_tagOf _ _ _ _ _ Eadd). exact D1. }
    assert (Hc2 : coversTokens p st2 D declarationRange).
    { eapply covers_parse_range; [exact Hfront | exact Rf2 | | exact Hdecl].
      now rewrite (Added_rangeOf _ _ _ _ _ Eadd). }
    destruct (Hshape _ _ _ _ _ _ Edecl Hinv2 Hpre2) as [Hinv3 [Hl3 Hf3]].
    pose proof (IH _ _ _ _ _ _ Edecl Hinv2 Hpre2 Hn2 Hc2) as Hn3.
    cbn [AbstractParser.psStore] in Hinv3, Hl3, Hf3, Hn3.
    set (st3 := AbstractParser.psStore L ps3) in *. fold cb in Hinv3, Hf3.
    assert (Hold3 : forall id, id < List.length st0 ->
              tagOf st3 id = tagOf st0 id /\ rangeOf st3 id = rangeOf st0 id
              /\ parentOf st3 id = parentOf st0 id /\ rankOf st3 id = rankOf st0 id
              /\ (id <> X -> childrenOf st3 id = childrenOf st0 id)).
    { intros id Hid.
      destruct (Hf3 id ltac:(lia)) as (B1 & B2 & B3 & B4 & B5).
      destruct (Hv01 id Hid) as (C1 & C2 & C3 & C4 & C5).
      rewrite B1, B2, B3, B4.
      rewrite (Added_tagOf _ _ _ _ _ Eadd), (Added_rangeOf _ _ _ _ _ Eadd).
      rewrite (Added_parentOf_other _ _ _ _ _ Eadd), (Added_rankOf_other _ _ _ _ _ Eadd)
        by lia.
      repeat (split; [assumption |]).
      intros Hne. rewrite B5.
      - rewrite (Added_childrenOf_other _ _ _ _ _ Eadd) by assumption. exact C5.
      - intros [-> | (T1 & _)]; [lia | discriminate]. }
    assert (Hpre3 : shapePre cb FUNCTION_BODY X st3).
    { split; [lia |]. split.
      - destruct (Hold3 X HX) as [-> _]. exact HXtag.
      - intros _ Hcb. eapply liftable_kept; [exact (Hlift eq_refl Hcb) | lia | |].
        + intros id Hid. destruct (Hold3 id Hid) as (B1 & _ & B3 & _). auto.
        + intros g Hg. destruct (Hlift eq_refl Hcb) as (T1 & g' & G1 & G2 & _).
          assert (g' = g) by congruence. subst g'.
          apply Hold3; [eapply tagOf_Some; eauto |]. intros ->. congruence. }
    assert (Hc3 : coversTokens p st3 X bodyRange).
    { intros k Hk. unfold startOf, endOf.
      destruct (Hold3 X HX) as (_ & -> & _). apply Hc. lia. }
    exact (IH _ _ _ _ _ _ H Hinv3 Hpre3 Hn3 Hc3).
  - (* the other non-terminals: the nodes are added, then parsed into *)
    assert (Hnt : nt <> FUNCTIONS) by (intros ->; discriminate).
    pose proof (validate_allowed _ _ Hvalid Hnt) as Hallowed.
    destruct (AbstractParser.attachChildren L nt X (AbstractParser.state acc) nodes st1)
      as [st2 |] eqn:Eatt; [| discriminate].
    cbn [bind] in H.
    unfold AbstractParser.attachChildren in Eatt.
    match type of Eatt with
    | bind (AbstractParser.attachLoop _ _ ?c1 ?c2 _ _ _) _ = _ =>
        set (check := c1) in *; set (checkFirst := c2) in *
    end.
    destruct (AbstractParser.attachLoop nt X check checkFirst (AbstractParser.state acc) nodes
                (AbstractParser.mkAttachState st1 None true)) as [a |] eqn:Eloop;
      [| discriminate].
    cbn [bind] in Eatt.
    assert (Hcheck : check = true -> cb = true).
    { unfold check. fold cb. intros E. apply andb_true_iff in E. apply E. }
    assert (HcheckFirst : checkFirst = true -> cb = false /\ inFunction nt = true).
    { unfold checkFirst. fold cb. intros E. apply andb_true_iff in E. destruct E as [E1 E2].
      apply negb_true_iff in E1. split; [exact E1 |].
      destruct nt; try discriminate; reflexivity. }
    assert (Hstart : attachInv cb nt X st1 (List.length st0) check st1 None true nodes).
    { split; [| split; [| split]].
      - rewrite app_nil_r. unfold coreInv.
        split; [apply Hinv1 |]. split; [lia |]. split; [auto |]. split; [auto |].
        split; [intros id Hid; now apply Hnew |]. split; [| split].
        + intros x Hx. apply Hin_fresh in Hx. split; [exact Hx | now apply Hnew].
        + intros y Hy Hn'. exfalso. apply Hn'. now apply Hin_fresh.
        + intros g Hg _. now apply Hinv1.
      - rewrite Hseq. apply seq_NoDup.
      - discriminate.
      - intros _. exact Hlift1. }
    assert (Hinside : forall y, List.length st0 <= y < List.length st1 ->
              Utils.contains (rangeOf st1 X) (rangeOf st1 y) = true)
      by (intros y Hy; now apply Hfresh_in).
    destruct (attachLoop_nest cb nt X st1 (List.length st0) check checkFirst
                Hl01 HX Hfresh HXtag1 Hcheck HcheckFirst Hinside _ _ _ _
                (Resolved_symTag_none _ _ _ _ _ Hres) Eloop Hstart Hn1) as [Hend Hnend].
    assert (Hadd : match AbstractParser.danglingMultilineComment a with
                   | Some d => Added (AbstractParser.atStore a) X d st2
                   | None => st2 = AbstractParser.atStore a
                   end).
    { destruct (AbstractParser.danglingMultilineComment a) as [d |].
      - now apply addChild_view.
      - now inv Eatt. }
    assert (Hcore : coreInv cb nt X st1 (List.length st0) st2 [] None).
    { eapply (attach_end cb nt X st1 (List.length st0) check); [.. | exact Hend | exact Hadd];
        eauto. }
    pose proof (attach_end_nest cb nt X st1 (List.length st0) check Hl01 HX Hinside
                  _ _ _ _ Hend Hnend Hadd) as Hn2.
    clear Eatt Eloop Hend Hstart Hnend Hadd.
    assert (Hrec0 : recInv cb nt X st1 (List.length st0) st2 (somes nodes)).
    { apply coreInv_recInv; [exact Hcore |]. intros y Hy. now apply Hin_fresh. }
    eapply (recurseChildren_nest L nt X st1 (List.length st0) Hl01 HX Hfresh p Hfront
              _ Hshape IH);
      [exact Hres | exact Hallowed | exact Hpr | | exact H | exact Hrec0 | exact Hn2].
    rewrite Hseq. apply seq_NoDup.
Qed.

End ParseNest.

Section ParsedNest.
Local Open Scope nat_scope.

Lemma tokenizeLines_last (L : Language) (det : DetState L) (codeLines : list string)
  (p : ParserBase) :
  AbstractParser.tokenizeLines L det codeLines = Ok p ->
  sourceLines p = codeLines
  /\ nth (numChars p) (positionMap p) (mkIndex 0 0) = mkIndex (List.length codeLines) 0.
Proof.
  unfold AbstractParser.tokenizeLines. intros H.
  destruct (preparseGetTokenizer L det) as [tk0 |]; [| discriminate].
  cbn [bind] in H.
  destruct (AbstractParser.feedLines L codeLines 0 [] tk0) as [[pm tk] |] eqn:E;
    [| discriminate].
  cbn [bind] in H.
  destruct (AbstractTokenizer.next tk None) as [tk1 |]; [| discriminate].
  cbn [bind] in H. inv H. cbn [positionMap numChars sourceLines].
  split; [reflexivity |]. rewrite nth_middle. reflexivity.
Qed.

Lemma parse_nest (L : Language) (det : DetState L) (codeLines : list string)
  (tree : AbstractSyntaxTree.t) :
  FactoriesOk L -> freshTokenizer L ->
  AbstractParser.parse L det codeLines = Ok tree ->
  rangesNest (AbstractSyntaxTree.store tree).
Proof.
  intros HF Hfresh H. unfold AbstractParser.parse in H.
  destruct (AbstractParser.isEmptyInput codeLines) eqn:Eempty; [discriminate |].
  destruct (AbstractParser.tokenizeLines L det codeLines) as [p |] eqn:Etok; [| discriminate].
  cbn [bind] in H.
  pose proof (tokenizeLines_front _ _ _ _ Hfresh Etok) as Hfront.
  destruct (tokenizeLines_last _ _ _ _ Etok) as [Hlines Hlast].
  destruct (preparse L det codeLines (sourceTokens p)) as [det1 |]; [| discriminate].
  unfold Heap.alloc in H. cbn [bind] in H.
  match type of H with
  | bind ?m _ = _ => destruct m as [ps |] eqn:E; [| discriminate]
  end.
  cbn [bind] in H. injection H as <-. cbn [AbstractSyntaxTree.store].
  assert (Hmax : Utils.getMaxRange (sourceLines p) = mkRange 0 0 (List.length codeLines) 0).
  { rewrite Hlines. destruct codeLines; [discriminate | reflexivity]. }
  apply (parseNonTerminal_nest L HF p Hfront _ _ _ _ _ _ _ E).
  - cbn [AbstractParser.psStore app]. split.
    + intros q i x Hx. destruct q as [| q]; [destruct i; discriminate |].
      destruct q; destruct i; discriminate.
    + intros g Hg. destruct g as [| g]; [discriminate |]. destruct g; discriminate.
  - cbn [AbstractParser.psStore app List.length]. split; [simpl; lia |].
    split; discriminate.
  - cbn [AbstractParser.psStore app]. split.
    + intros id Hid. simpl in Hid. assert (id = 0) by lia. subst id.
      unfold startOf, endOf, rangeOf. simpl. rewrite Hmax. apply idxLe_iff. simpl. lia.
    + intros g x Hx. destruct g as [| g]; [contradiction |]. destruct g; contradiction.
  - cbn [AbstractParser.psStore app]. intros k Hk.
    unfold startOf, endOf, rangeOf. simpl. rewrite Hmax. split.
    + apply idxLe_iff. simpl. lia.
    + unfold Utils.rangeToEndIndex. simpl. rewrite <- Hlast. unfold boundary.
      apply Hfront. split; [apply tokStartAt_le; exact Hfront | lia].
Qed.

Lemma assertChildrenInside_ok (st : Store) (range : Range) (children : list NodeId) :
  (forall x, In x children ->
     x < List.length st /\ Utils.contains range (rangeOf st x) = true) ->
  Heap.assertChildrenInside st range children = Ok tt.
Proof.
  induction children as [| c rest IH]; intros H; [reflexivity |].
  destruct (H c ltac:(now left)) as [Hc Hin].
  cbn [Heap.assertChildrenInside]. unfold Heap.get, rangeOf in *.
  destruct (nth_error st c) as [n |] eqn:E; [| apply nth_error_None in E; lia].
  cbn [bind]. rewrite Hin. simpl. apply IH. intros x Hx. apply H. now right.
Qed.

Lemma nest_valid (cb : bool) (tree : AbstractSyntaxTree.t) :
  shapeInv cb (AbstractSyntaxTree.store tree) ->
  rangesNest (AbstractSyntaxTree.store tree) ->
  validRanges tree.
Proof.
  intros [Hl _] [H1 H2] id n Hn.
  assert (Hid : nth_error (AbstractSyntaxTree.store tree) id = Some n).
  { unfold Heap.get in Hn. destruct (nth_error _ id); [congruence | discriminate]. }
  split.
  - unfold Heap.assertRangeValid. rewrite Hn. cbn [bind].
    apply assertChildrenInside_ok. intros x Hx.
    assert (Hx' : In x (childrenOf (AbstractSyntaxTree.store tree) id))
      by (unfold childrenOf; now rewrite Hid).
    split; [eapply linked_bound; eauto |].
    specialize (H2 id x Hx'). unfold rangeOf at 1 in H2. now rewrite Hid in H2.
  - assert (Hlt : id < List.length (AbstractSyntaxTree.store tree))
      by (apply nth_error_Some; congruence).
    specialize (H1 id Hlt). unfold startOf, endOf, rangeOf in H1. now rewrite Hid in H1.
Qed.

End ParsedNest.

(** The ranges of a parsed tree. After every successful parse (by a parser
    whose factories return fresh nodes of their class and whose tokenizer
    starts fresh, as the Python and the TypeScript parser) the range of
    every child lies inside the range of its parent, so that
    [assertRangeValid] returns on every node, and no range ends before it
    starts. *)
Theorem ranges_of_children_lie_inside :
  (forall (L : Language) (det : DetState L) (codeLines : list string)
          (tree : AbstractSyntaxTree.t),
      FactoriesOk L -> freshTokenizer L ->
      AbstractParser.parse L det codeLines = Ok tree -> validRanges tree)
  /\ (forall (codeLines : list string) (tree : AbstractSyntaxTree.t),
         PythonParser.parse codeLines = Ok tree -> validRanges tree)
  /\ (forall (codeLines : list string) (tree : AbstractSyntaxTree.t),
         TypeScriptParser.parse codeLines = Ok tree -> validRanges tree).
Proof.
  assert (G : forall (L : Language) (det : DetState L) (codeLines : list string)
                     (tree : AbstractSyntaxTree.t),
             FactoriesOk L -> freshTokenizer L ->
             AbstractParser.parse L det codeLines = Ok tree -> validRanges tree).
  { intros L det codeLines tree HF Hfresh H.
    eapply nest_valid; [eapply parse_shape; eauto | eapply parse_nest; eauto]. }
  split; [exact G |]. split.
  - intros codeLines tree H. apply python_parse_inv in H. destruct H as [det H].
    exact (G _ _ _ _ python_factories python_fresh H).
  - intros codeLines tree H. apply typescript_parse_inv in H. destruct H as [det H].
    exact (G _ _ _ _ typescript_factories typescript_fresh H).
Qed.

Lemma ranges_of_children_lie_inside_witness :
  exists tree : AbstractSyntaxTree.t,
    TypeScriptParser.parse typescriptGroupLines = Ok tree /\ validRanges tree.
Proof.
  eexists. split; [vm_compute; reflexivity |].
  apply (proj2 (proj2 ranges_of_children_lie_inside) typescriptGroupLines).
  vm_compute. reflexivity.
Defined.

(* ================================================================== *)
(** ** The symbols of one call partition its tokens *)

Section DetectGiven.
Variable L : Language.

Let given (acc : AbstractParser.Acc) : Prop :=
  Forall2 parseRangeGiven (AbstractParser.state acc) (AbstractParser.ntParseRange acc).

Lemma pushSymbol_given (acc acc' : AbstractParser.Acc) (sym : SymbolInfo) (r : TokenRange) :
  AbstractParser.pushSymbol acc sym r = Ok acc' -> given acc -> given acc'.
Proof.
  unfold AbstractParser.pushSymbol, given. intros H Hg.
  match type of H with bind ?m _ = _ => destruct m eqn:E; [| discriminate] end.
  cbn [bind] in H. inv H. simpl. apply Forall2_app; [exact Hg |].
  constructor; [| constructor].
  unfold AbstractParser.assertParseRangeCorrectness in E. unfold parseRangeGiven.
  destruct (isTerminal (symbolType sym)); simpl in *.
  - destruct (parseRange sym); [discriminate | tauto].
  - destruct (parseRange sym); split; discriminate.
Qed.

Lemma manageBuffer_given (d : SymbolAdditionDirective) (acc acc' : AbstractParser.Acc) :
  AbstractParser.manageBuffer d acc = Ok acc' -> given acc -> given acc'.
Proof.
  unfold AbstractParser.manageBuffer. intros H Hacc.
  destruct (secondSymbol d) as [s2 |], (secondSymbolLen d) as [l |],
           (firstTwoSymbolsEndBufferLen d) as [f |];
    repeat match type of H with
      | bind ?m _ = _ =>
          let E := fresh "E" in
          destruct m eqn:E; [apply pushSymbol_given in E; [| assumption] | discriminate];
          cbn [bind] in H
      end;
    try discriminate; inv H; assumption.
Qed.

Lemma updateTokenStreamState_given (p : ParserBase) (depth : Z) (nt : NonTerminal)
  (acc acc' : AbstractParser.Acc) (i : Z) (c : bool) (det det' : DetState L) :
  AbstractParser.updateTokenStreamState L p depth nt acc i c det = Ok (acc', det') ->
  given acc -> given acc'.
Proof.
  unfold AbstractParser.updateTokenStreamState. intros H Hacc.
  match type of H with bind ?m _ = _ => destruct m; [| discriminate] end.
  cbn [bind] in H.
  match type of H with bind ?m _ = _ => destruct m as [[det1 [d |]] |]; [| | discriminate] end;
    cbn [bind] in H.
  - match type of H with bind ?m _ = _ => destruct m; [| discriminate] end.
    cbn [bind] in H.
    destruct (AbstractParser.manageBuffer d acc) as [acc1 |] eqn:E; [| discriminate].
    cbn [bind] in H. inv H. eapply manageBuffer_given; eauto.
  - now inv H.
Qed.

Lemma detectLoop_given (p : ParserBase) (depth : Z) (nt : NonTerminal) (count : nat) :
  forall (i : Z) (acc acc' : AbstractParser.Acc) (det det' : DetState L),
    AbstractParser.detectLoop L p depth nt count i acc det = Ok (acc', det') ->
    given acc -> given acc'.
Proof.
  induction count as [| count IH]; intros i acc acc' det det' H Hacc.
  - now inv H.
  - cbn [AbstractParser.detectLoop] in H.
    destruct (Js.nthZ (sourceTokens p) i) as [token |]; [| discriminate].
    match type of H with
    | bind ?m _ = _ => destruct m as [[acc1 det1] |] eqn:E; [| discriminate]
    end.
    cbn [bind] in H. apply updateTokenStreamState_given in E; [| exact Hacc].
    eapply IH; eauto.
Qed.

Lemma detectSymbols_given (p : ParserBase) (nt : NonTerminal) (tokRange : TokenRange)
  (depth : Z) (det det' : DetState L) (acc : AbstractParser.Acc) :
  AbstractParser.detectSymbols L p nt tokRange depth det = Ok (acc, det') -> given acc.
Proof.
  unfold AbstractParser.detectSymbols. intros H.
  match type of H with
  | bind ?m _ = _ => destruct m as [[acc1 det1] |] eqn:E1; [| discriminate]
  end.
  cbn [bind] in H.
  match type of H with
  | bind ?m _ = _ => destruct m as [[acc2 det2] |] eqn:E2; [| discriminate]
  end.
  cbn [bind] in H.
  match type of H with (if ?c then _ else _) = _ => destruct c; [discriminate |] end.
  destruct (AbstractParser.validateParsingState nt (AbstractParser.state acc2)) as [[] |] eqn:E3;
    [| discriminate].
  cbn [bind] in H. inv H.
  apply updateTokenStreamState_given in E2; [exact E2 |].
  apply detectLoop_given in E1; [exact E1 |]. constructor.
Qed.

End DetectGiven.

(** The symbols of one call. Whatever the language, when the detection
    loop of [parseNonTerminal] on the tokens from [startTok] to [endTok]
    returns, the token ranges of the symbols it has committed follow one
    another without gap or overlap from [startTok] to [endTok], which
    come in that order; the four arrays have one entry per symbol; a
    terminal has no parse range, a non-terminal has one, inside the range
    of its symbol; and the symbols pass the validation of the production. *)
Theorem symbols_partition_the_tokens (L : Language) (p : ParserBase) (nt : NonTerminal)
  (tokRange : TokenRange) (depth : Z) (det det' : DetState L) (acc : AbstractParser.Acc) :
  AbstractParser.detectSymbols L p nt tokRange depth det = Ok (acc, det') ->
  symbolsPartition tokRange acc
  /\ AbstractParser.validateParsingState nt (AbstractParser.state acc) = Ok tt.
Proof.
  intros H.
  destruct (detectSymbols_spec _ _ _ _ _ _ _ _ H) as [Hlen Hvalid].
  destruct (detectSymbols_ordered _ _ _ _ _ _ _ _ H) as [Hch Hpr].
  split; [| exact Hvalid].
  split; [exact Hlen |]. split; [exact Hch |]. split; [exact Hpr |].
  split; [eapply detectSymbols_given; eauto | eapply chained_le; eauto].
Qed.

Lemma symbols_partition_the_tokens_witness :
  exists (det0 : PythonParser.State) (p : ParserBase) (det1 : PythonParser.State)
         (acc : AbstractParser.Acc) (det' : PythonParser.State),
    PythonParser.constructor = Ok det0
    /\ AbstractParser.tokenizeLines PythonParser.language det0 pythonDocLines = Ok p
    /\ PythonParser.preparse det0 pythonDocLines (sourceTokens p) = Ok det1
    /\ AbstractParser.detectSymbols PythonParser.language p TOP_LEVEL
         (mkTokenRange 0 (Z.of_nat (List.length (sourceTokens p)))) 0 det1 = Ok (acc, det')
    /\ symbolsPartition (mkTokenRange 0 (Z.of_nat (List.length (sourceTokens p)))) acc
    /\ List.length (AbstractParser.state acc) = 2%nat.
Proof.
  do 5 eexists.
  split; [vm_compute; reflexivity |].
  split; [vm_compute; reflexivity |].
  split; [vm_compute; reflexivity |].
  match goal with
  | |- ?A /\ _ =>
      assert (H : A) by (vm_compute; reflexivity);
      split; [exact H |];
      split; [exact (proj1 (symbols_partition_the_tokens _ _ _ _ _ _ _ _ H)) | reflexivity]
  end.
Defined.

(* ================================================================== *)
(** ** The position map and the characters of the source *)

Section PositionMap.
Local Open Scope nat_scope.

Lemma charAt_nth (s : string) (i : nat) (c : ascii) :
  nth_error (Js.chars s) i = Some c ->
  Js.charAt s (Z.of_nat i) = String c EmptyString.
Proof.
  intros H. unfold Js.charAt, Js.len.
  assert (Hi : i < String.length s).
  { rewrite <- length_chars. apply nth_error_Some. congruence. }
  destruct (Z.of_nat i <? 0)%Z eqn:E1; [apply Z.ltb_lt in E1; lia |].
  destruct (Z.of_nat (String.length s) <=? Z.of_nat i)%Z eqn:E2;
    [apply Z.leb_le in E2; lia |].
  simpl. rewrite Nat2Z.id.
  destruct (nth_error_split _ _ H) as (l1 & l2 & Hs & Hl).
  rewrite Hs, skipn_app, <- Hl, Nat.sub_diag, skipn_all. reflexivity.
Qed.

(** The positions of the lines from [k] on, in a source whose first [k]
    lines are [pre]. *)
Lemma positions_spec (rest : list string) :
  forall (pre : list string) (i : nat) (c : ascii),
    nth_error (fedLines rest) i = Some c ->
    exists idx,
      nth_error (linePositions (List.length pre) rest) i = Some idx
      /\ Utils.getCharacter (pre ++ rest) idx = Ok (String c EmptyString)
      /\ exists idx',
           nth_error (linePositions (List.length pre) rest
                      ++ [mkIndex (List.length pre + List.length rest) 0]) (S i) = Some idx'
           /\ Utils.next (pre ++ rest) idx = Ok idx'.
Proof.
  induction rest as [| l rest IH]; intros pre i c Hc.
  - destruct i; discriminate.
  - rewrite fedLines_cons in Hc. cbn [linePositions].
    assert (Hline : nth_error (pre ++ l :: rest) (List.length pre) = Some l).
    { rewrite nth_error_app2 by lia. now rewrite Nat.sub_diag. }
    destruct (Nat.lt_ge_cases i (S (String.length l))) as [Hlt | Hge].
    + exists (mkIndex (List.length pre) i).
      split; [| split].
      * rewrite nth_error_app1 by (rewrite length_map, length_seq; lia).
        rewrite nth_error_map, nth_error_seq.
        destruct (i <? S (String.length l)) eqn:E; [reflexivity | apply Nat.ltb_ge in E; lia].
      * unfold Utils.getCharacter. cbn [line character]. rewrite Hline.
        destruct (String.length l <? i) eqn:E1; [apply Nat.ltb_lt in E1; lia |].
        destruct (i =? String.length l) eqn:E2.
        -- apply Nat.eqb_eq in E2. subst i.
           rewrite nth_error_app2 in Hc by (rewrite length_chars; lia).
           rewrite length_chars, Nat.sub_diag in Hc. simpl in Hc. now inv Hc.
        -- apply Nat.eqb_neq in E2.
           rewrite nth_error_app1 in Hc by (rewrite length_chars; lia).
           now rewrite (charAt_nth _ _ _ Hc).
      * unfold Utils.next. cbn [line character]. rewrite Hline.
        destruct (i <? String.length l) eqn:E1.
        -- apply Nat.ltb_lt in E1. eexists. split; [| reflexivity].
           rewrite <- app_assoc.
           rewrite nth_error_app1 by (rewrite length_map, length_seq; lia).
           rewrite nth_error_map, nth_error_seq.
           destruct (S i <? S (String.length l)) eqn:E; [| apply Nat.ltb_ge in E; lia].
           simpl. do 2 f_equal. lia.
        -- apply Nat.ltb_ge in E1. assert (i = String.length l) by lia. subst i.
           rewrite Nat.eqb_refl. eexists. split; [| reflexivity].
           rewrite <- app_assoc.
           rewrite nth_error_app2 by (rewrite length_map, length_seq; lia).
           rewrite length_map, length_seq, Nat.sub_diag.
           destruct rest as [| l2 rest]; simpl; do 2 f_equal; lia.
    + assert (Hc' : nth_error (fedLines rest) (i - S (String.length l)) = Some c).
      { rewrite app_assoc, nth_error_app2 in Hc
          by (rewrite length_app, length_chars; simpl; lia).
        rewrite length_app, length_chars in Hc. simpl in Hc.
        replace (i - (String.length l + 1)) with (i - S (String.length l)) in Hc by lia.
        exact Hc. }
      destruct (IH (pre ++ [l]) _ _ Hc') as (idx & P1 & P2 & idx' & P3 & P4).
      rewrite length_app in P1, P3. simpl in P1, P3.
      replace (List.length pre + 1) with (S (List.length pre)) in P1, P3 by lia.
      rewrite <- app_assoc in P2, P4. simpl in P2, P4.
      exists idx. split; [| split; [exact P2 |]].
      * rewrite nth_error_app2 by (rewrite length_map, length_seq; lia).
        now rewrite length_map, length_seq.
      * exists idx'. split; [| exact P4].
        rewrite <- app_assoc.
        rewrite nth_error_app2 by (rewrite length_map, length_seq; lia).
        rewrite length_map, length_seq.
        replace (S i - S (String.length l)) with (S (i - S (String.length l))) by lia.
        replace (List.length pre + List.length (l :: rest))
          with (S (List.length pre) + List.length rest) by (simpl; lia).
        exact P3.
Qed.

Variable L : Language.

Lemma tokenizeLines_map (det : DetState L) (codeLines : list string) (p : ParserBase) :
  AbstractParser.tokenizeLines L det codeLines = Ok p ->
  sourceLines p = codeLines
  /\ numChars p = String.length (linesText codeLines)
  /\ positionMap p = linePositions 0 codeLines ++ [mkIndex (List.length codeLines) 0].
Proof.
  unfold AbstractParser.tokenizeLines. intros H.
  destruct (preparseGetTokenizer L det) as [tk0 |]; [| discriminate].
  cbn [bind] in H.
  destruct (AbstractParser.feedLines L codeLines 0 [] tk0) as [[pm tk] |] eqn:E;
    [| discriminate].
  cbn [bind] in H.
  destruct (AbstractTokenizer.next tk None) as [tk1 |]; [| discriminate].
  cbn [bind] in H. inv H. cbn [positionMap numChars sourceLines].
  apply feedLines_positions in E. simpl in E. subst pm.
  split; [reflexivity |]. split; [| reflexivity].
  now rewrite linePositions_length, <- chars_linesText, length_chars.
Qed.

Lemma getCharacterFromIndex_spec (det : DetState L) (codeLines : list string) (p : ParserBase)
  (i : nat) (c : ascii) :
  AbstractParser.tokenizeLines L det codeLines = Ok p ->
  nth_error (Js.chars (linesText codeLines)) i = Some c ->
  AbstractParser.getCharacterFromIndex p i = Ok (String c EmptyString).
Proof.
  intros H Hc. destruct (tokenizeLines_map _ _ _ H) as (H1 & H2 & H3).
  rewrite chars_linesText in Hc.
  destruct (positions_spec codeLines [] i c Hc) as (idx & P1 & P2 & _).
  simpl in P1, P2.
  unfold AbstractParser.getCharacterFromIndex, AbstractParser.getIndex.
  rewrite H3, H1. rewrite nth_error_app1 by (apply nth_error_Some; congruence).
  now rewrite P1.
Qed.

Lemma getSubstringLoop_spec (det : DetState L) (codeLines : list string) (p : ParserBase) :
  AbstractParser.tokenizeLines L det codeLines = Ok p ->
  forall (count i : nat) (str : string),
    i + count <= numChars p ->
    AbstractParser.getSubstringLoop p i count str
    = Ok (str ++ Js.str (firstn count (skipn i (Js.chars (linesText codeLines)))))%string.
Proof.
  intros H. destruct (tokenizeLines_map _ _ _ H) as (_ & H2 & _).
  induction count as [| count IH]; intros i str Hi.
  - simpl. now rewrite string_app_nil_r.
  - cbn [AbstractParser.getSubstringLoop].
    destruct (nth_error (Js.chars (linesText codeLines)) i) as [c |] eqn:Ec.
    2:{ apply nth_error_None in Ec. rewrite length_chars in Ec. lia. }
    rewrite (getCharacterFromIndex_spec _ _ _ _ _ H Ec). cbn [bind].
    rewrite IH by lia.
    destruct (nth_error_split _ _ Ec) as (l1 & l2 & Hs & Hl).
    rewrite Hs. rewrite !skipn_app. subst i.
    replace (S (List.length l1) - List.length l1) with 1 by lia.
    rewrite Nat.sub_diag, skipn_all, (skipn_all2 (n := S (List.length l1))) by lia.
    simpl. now rewrite string_app_assoc.
Qed.

End PositionMap.

(** The text accessors of the parser. Once the front end of [parse] has
    read the lines, whatever the language, [getCodeLength] is the length
    of the text made of every line followed by a line feed;
    [getSubstring(a, b)] returns the characters of that text from [a] to
    [b] whenever [a <= b <= getCodeLength()], throws on [b < a], and throws
    whenever [a < b] and [b] is past the end of the text. *)
Theorem getSubstring_reads_the_text (L : Language) (det : DetState L)
  (codeLines : list string) (p : ParserBase) :
  AbstractParser.tokenizeLines L det codeLines = Ok p ->
  AbstractParser.getCodeLength p = String.length (linesText codeLines)
  /\ (forall a b : nat,
         (a <= b <= AbstractParser.getCodeLength p)%nat ->
         AbstractParser.getSubstring p a b
         = Ok (Js.substring (linesText codeLines) (Z.of_nat a) (Z.of_nat b)))
  /\ (forall a b : nat,
         (b < a)%nat ->
         AbstractParser.getSubstring p a b = Throw (Error "Invalid start end range!"))
  /\ (forall a b : nat,
         (a < b)%nat -> (AbstractParser.getCodeLength p < b)%nat ->
         exists e, AbstractParser.getSubstring p a b = Throw e).
Proof.
  intros H. destruct (tokenizeLines_map _ _ _ _ H) as (H1 & H2 & H3).
  unfold AbstractParser.getCodeLength.
  split; [exact H2 |]. split; [| split].
  - intros a b Hab. unfold AbstractParser.getSubstring.
    destruct (b <? a)%nat eqn:E; [apply Nat.ltb_lt in E; lia |].
    rewrite (getSubstringLoop_spec _ _ _ _ H) by lia. simpl.
    now rewrite substring_inside by lia.
  - intros a b Hab. unfold AbstractParser.getSubstring.
    apply Nat.ltb_lt in Hab. now rewrite Hab.
  - intros a b Hab Hb. unfold AbstractParser.getSubstring.
    destruct (b <? a)%nat eqn:E; [apply Nat.ltb_lt in E; lia |].
    assert (Hend : forall i, (numChars p <= i)%nat ->
              exists e, AbstractParser.getCharacterFromIndex p i = Throw e).
    { intros i Hi. unfold AbstractParser.getCharacterFromIndex, AbstractParser.getIndex.
      rewrite H3, H1.
      assert (Hlen : List.length (linePositions 0 codeLines) = numChars p).
      { now rewrite H2, linePositions_length, <- chars_linesText, length_chars. }
      destruct (Nat.eq_dec i (numChars p)) as [-> | Hne].
      - rewrite nth_error_app2 by lia. rewrite Hlen, Nat.sub_diag. simpl.
        unfold Utils.getCharacter. simpl.
        assert (N : nth_error codeLines (List.length codeLines) = None)
          by (apply nth_error_None; lia).
        rewrite N. eauto.
      - assert (N : nth_error (linePositions 0 codeLines ++ [mkIndex (List.length codeLines) 0]) i
                    = None).
        { apply nth_error_None. rewrite length_app. simpl. lia. }
        rewrite N. eauto. }
    assert (Hloop : forall count i str, (0 < count)%nat -> (numChars p < i + count)%nat ->
              exists e, AbstractParser.getSubstringLoop p i count str = Throw e).
    { induction count as [| count IH]; intros i str Hpos Hi; [lia |].
      cbn [AbstractParser.getSubstringLoop].
      destruct (AbstractParser.getCharacterFromIndex p i) as [ch |] eqn:Ech;
        [| eexists; reflexivity].
      cbn [bind].
      destruct (Nat.lt_ge_cases i (numChars p)) as [Hlt | Hge].
      - apply IH; lia.
      - destruct (Hend i Hge) as [e He]. congruence. }
    apply Hloop; lia.
Qed.

Lemma getSubstring_reads_the_text_witness :
  exists (det0 : PythonParser.State) (p : ParserBase),
    PythonParser.constructor = Ok det0
    /\ AbstractParser.tokenizeLines PythonParser.language det0 pythonDocLines = Ok p
    /\ AbstractParser.getSubstring p 4%nat 7%nat = Ok "f()".
Proof.
  do 2 eexists. split; [vm_compute; reflexivity |].
  match goal with
  | |- ?A /\ _ =>
      assert (H : A) by (vm_compute; reflexivity);
      split; [exact H |];
      apply (proj1 (proj2 (getSubstring_reads_the_text _ _ _ _ H)) 4%nat 7%nat);
      split; [lia | vm_compute; lia]
  end.
Defined.

(** The position map follows [next]. Once the front end of [parse] has
    read the lines, whatever the language, the position map starts at line
    0, character 0 when there is a line, each of its entries before the
    last is a position at which [getCharacter] returns, [next] of an entry
    is the entry after it, and at the last entry, the start of the line
    after the last line, [next] and [getCharacter] throw. *)
Theorem position_map_follows_next (L : Language) (det : DetState L)
  (codeLines : list string) (p : ParserBase) :
  AbstractParser.tokenizeLines L det codeLines = Ok p ->
  (forall i : nat,
      (i < AbstractParser.getCodeLength p)%nat ->
      exists idx idx' ch,
        AbstractParser.getIndex p i = Some idx
        /\ AbstractParser.getIndex p (S i) = Some idx'
        /\ Utils.next codeLines idx = Ok idx'
        /\ Utils.compare idx idx' = (-1)%Z
        /\ Utils.getCharacter codeLines idx = Ok ch)
  /\ AbstractParser.getIndex p (AbstractParser.getCodeLength p)
     = Some (mkIndex (List.length codeLines) 0)
  /\ (exists e, Utils.next codeLines (mkIndex (List.length codeLines) 0) = Throw e)
  /\ (exists e, Utils.getCharacter codeLines (mkIndex (List.length codeLines) 0) = Throw e)
  /\ (codeLines <> [] -> AbstractParser.getIndex p 0 = Some (mkIndex 0 0)).
Proof.
  intros H. destruct (tokenizeLines_map _ _ _ _ H) as (H1 & H2 & H3).
  assert (Hlen : List.length (linePositions 0 codeLines) = numChars p).
  { now rewrite H2, linePositions_length, <- chars_linesText, length_chars. }
  assert (N : nth_error codeLines (List.length codeLines) = None)
    by (apply nth_error_None; lia).
  unfold AbstractParser.getCodeLength, AbstractParser.getIndex. rewrite H3.
  split; [| split; [| split; [| split]]].
  - intros i Hi.
    destruct (nth_error (fedLines codeLines) i) as [c |] eqn:Ec.
    2:{ apply nth_error_None in Ec. rewrite <- (linePositions_length codeLines 0) in Ec. lia. }
    destruct (positions_spec codeLines [] i c Ec) as (idx & P1 & P2 & idx' & P3 & P4).
    simpl in P1, P2, P3, P4.
    exists idx, idx', (String c EmptyString).
    split; [rewrite nth_error_app1 by lia; exact P1 |].
    split; [exact P3 |]. split; [exact P4 |]. split; [| exact P2].
    clear - P4. unfold Utils.next in P4.
    destruct (nth_error codeLines (line idx)) as [l |]; [| discriminate].
    destruct (character idx <? String.length l)%nat.
    + inv P4. unfold Utils.compare. simpl.
      rewrite Nat.ltb_irrefl.
      destruct (character idx <? character idx + 1)%nat eqn:E; [reflexivity |].
      apply Nat.ltb_ge in E. lia.
    + destruct (character idx =? String.length l)%nat; [| discriminate].
      inv P4. unfold Utils.compare. simpl.
      destruct (line idx <? line idx + 1)%nat eqn:E; [reflexivity |].
      apply Nat.ltb_ge in E. lia.
  - rewrite nth_error_app2 by lia. now rewrite Hlen, Nat.sub_diag.
  - unfold Utils.next. simpl. rewrite N. eauto.
  - unfold Utils.getCharacter. simpl. rewrite N. eauto.
  - intros Hne. destruct codeLines as [| l rest]; [contradiction |]. reflexivity.
Qed.

Lemma position_map_follows_next_witness :
  exists (det0 : PythonParser.State) (p : ParserBase),
    PythonParser.constructor = Ok det0
    /\ AbstractParser.tokenizeLines PythonParser.language det0 pythonDocLines = Ok p
    /\ AbstractParser.getIndex p (AbstractParser.getCodeLength p) = Some (mkIndex 3 0).
Proof.
  do 2 eexists. split; [vm_compute; reflexivity |].
  match goal with
  | |- ?A /\ _ =>
      assert (H : A) by (vm_compute; reflexivity);
      split; [exact H |];
      exact (proj1 (proj2 (position_map_follows_next _ _ _ _ H)))
  end.
Defined.

(* ================================================================== *)
(** ** The text of a range *)

Section SourceRanges.
Local Open Scope nat_scope.

(** [getSourceText] returns exactly on the ranges that pass its three
    checks and start on a line of the source. *)
Lemma getSourceText_returns (lines : list string) (sl sc el ec : nat) :
  (exists s, AbstractSyntaxTree.getSourceText lines sl sc el ec = Ok s)
  <-> (el <= List.length lines /\ sl <= el /\ (sl = el -> sc <= ec)
       /\ (el = List.length lines -> ec = 0)
       /\ (el < List.length lines -> ec <= String.length (nth el lines EmptyString))
       /\ sl < List.length lines
       /\ sc <= String.length (nth sl lines EmptyString)).
Proof.
  unfold AbstractSyntaxTree.getSourceText.
  destruct (List.length lines <? el) eqn:C1;
    [apply Nat.ltb_lt in C1; simpl; split; [intros [s H]; discriminate | lia] |].
  apply Nat.ltb_ge in C1.
  destruct (el <? sl) eqn:C2;
    [apply Nat.ltb_lt in C2; simpl; split; [intros [s H]; discriminate | lia] |].
  apply Nat.ltb_ge in C2.
  destruct ((sl =? el) && (ec <? sc)) eqn:C3.
  { apply andb_true_iff in C3. destruct C3 as [C3 C3'].
    apply Nat.eqb_eq in C3. apply Nat.ltb_lt in C3'.
    simpl. split; [intros [s H]; discriminate | lia]. }
  assert (C3' : sl = el -> sc <= ec).
  { intros ->. rewrite Nat.eqb_refl in C3. simpl in C3. now apply Nat.ltb_ge in C3. }
  simpl.
  destruct ((el =? List.length lines) && negb (ec =? 0)) eqn:C4.
  { apply andb_true_iff in C4. destruct C4 as [C4 C4'].
    apply Nat.eqb_eq in C4. apply negb_true_iff in C4'. apply Nat.eqb_neq in C4'.
    simpl. split; [intros [s H]; discriminate | lia]. }
  assert (C4' : el = List.length lines -> ec = 0).
  { intros E. rewrite E, Nat.eqb_refl in C4. simpl in C4.
    apply negb_false_iff in C4. now apply Nat.eqb_eq in C4. }
  destruct ((el <? List.length lines)
            && (String.length (nth el lines EmptyString) <? ec)) eqn:C5.
  { apply andb_true_iff in C5. destruct C5 as [C5 C5'].
    apply Nat.ltb_lt in C5, C5'.
    simpl. split; [intros [s H]; discriminate | lia]. }
  assert (C5' : el < List.length lines -> ec <= String.length (nth el lines EmptyString)).
  { intros E. apply Nat.ltb_lt in E. rewrite E in C5. simpl in C5. now apply Nat.ltb_ge in C5. }
  simpl.
  destruct (nth_error lines sl) as [firstLine |] eqn:Hfirst.
  2:{ apply nth_error_None in Hfirst. split; [intros [s H]; discriminate | lia]. }
  assert (Hsl : sl < List.length lines) by (apply nth_error_Some; congruence).
  rewrite (nth_error_nth _ _ _ Hfirst).
  destruct (String.length firstLine <? sc) eqn:C6.
  { apply Nat.ltb_lt in C6. split; [intros [s H]; discriminate | lia]. }
  apply Nat.ltb_ge in C6.
  split; [intros _; repeat (split; [assumption |]); assumption |].
  intros _.
  match goal with
  | |- exists s, match ?l with _ => _ end = _ => destruct l as [| x [| y r]]; eauto
  end.
Qed.

Lemma flatSlice_app (lines : list string) (a b c : nat) :
  a <= b -> b <= c ->
  flatSlice lines a c = flatSlice lines a b ++ flatSlice lines b c.
Proof.
  intros H1 H2. unfold flatSlice.
  rewrite <- (firstn_extend (skipn a (fedLines lines)) (b - a) (c - a)) by lia.
  rewrite skipn_skipn.
  replace (c - a - (b - a)) with (c - b) by lia.
  replace (b - a + a) with b by lia. reflexivity.
Qed.

End SourceRanges.

(** The text of adjacent ranges. When [getSourceText] returns the text of
    the range from a first position to a second, and the text of the range
    from the second to a third, it returns on the range from the first to
    the third, and the text is the two texts put together. On the maximal
    range of a source with one line or more it returns every line followed
    by a line feed; on the maximal range of no lines it throws. *)
Theorem getSourceText_joins_adjacent_ranges :
  (forall (lines : list string) (l1 c1 l2 c2 l3 c3 : nat) (s t : string),
      AbstractSyntaxTree.getSourceText lines l1 c1 l2 c2 = Ok s ->
      AbstractSyntaxTree.getSourceText lines l2 c2 l3 c3 = Ok t ->
      AbstractSyntaxTree.getSourceText lines l1 c1 l3 c3 = Ok (s ++ t)%string)
  /\ (forall lines : list string,
         lines <> [] ->
         AbstractSyntaxTree.getSourceTextFromRange lines (Utils.getMaxRange lines)
         = Ok (linesText lines))
  /\ (exists e, AbstractSyntaxTree.getSourceTextFromRange [] (Utils.getMaxRange []) = Throw e).
Proof.
  split; [| split].
  - intros lines l1 c1 l2 c2 l3 c3 s t Hs Ht.
    pose proof (proj1 (getSourceText_returns lines l1 c1 l2 c2) (ex_intro _ s Hs))
      as (A1 & A2 & A3 & A4 & A5 & A6 & A7).
    pose proof (proj1 (getSourceText_returns lines l2 c2 l3 c3) (ex_intro _ t Ht))
      as (B1 & B2 & B3 & B4 & B5 & B6 & B7).
    destruct (proj2 (getSourceText_returns lines l1 c1 l3 c3)) as [u Hu].
    { repeat (split; [first [assumption | lia] |]). assumption. }
    rewrite Hu. f_equal. apply chars_inj. rewrite chars_app.
    destruct (getSourceText_flat _ _ _ _ _ _ Hs) as (S1 & S2 & ->).
    destruct (getSourceText_flat _ _ _ _ _ _ Ht) as (T1 & T2 & ->).
    destruct (getSourceText_flat _ _ _ _ _ _ Hu) as (U1 & U2 & ->).
    now apply flatSlice_app.
  - intros lines Hne. unfold AbstractSyntaxTree.getSourceTextFromRange.
    assert (Hmax : Utils.getMaxRange lines = mkRange 0 0 (List.length lines) 0)
      by (destruct lines; [contradiction | reflexivity]).
    rewrite Hmax. cbn [start_line start_character end_line end_character].
    assert (Hn : (0 < List.length lines)%nat)
      by (destruct lines; [contradiction | simpl; lia]).
    destruct (proj2 (getSourceText_returns lines 0 0 (List.length lines) 0)) as [u Hu].
    { repeat (split; [lia |]). lia. }
    rewrite Hu. f_equal. apply chars_inj.
    destruct (getSourceText_flat _ _ _ _ _ _ Hu) as (_ & _ & ->).
    unfold flatSlice, offset. rewrite firstn_all. simpl.
    rewrite Nat.add_0_r, Nat.sub_0_r, firstn_all. symmetry. apply chars_linesText.
  - eexists. reflexivity.
Qed.

Lemma getSourceText_joins_adjacent_ranges_witness :
  AbstractSyntaxTree.getSourceText ["ab"; "cd"] 0 1 1 0 = Ok ("b" ++ Js.newline)%string
  /\ AbstractSyntaxTree.getSourceText ["ab"; "cd"] 1 0 1 2 = Ok "cd"
  /\ AbstractSyntaxTree.getSourceText ["ab"; "cd"] 0 1 1 2
     = Ok (("b" ++ Js.newline) ++ "cd")%string.
Proof.
  split; [reflexivity |]. split; [reflexivity |].
  apply (proj1 getSourceText_joins_adjacent_ranges ["ab"; "cd"] 0 1 1 0 1 2)%nat; reflexivity.
Defined.

(* ================================================================== *)
(** ** Splitting a source into lines *)

Section SplitLines.
Local Open Scope nat_scope.

Lemma withoutCr_cons (c : ascii) (r : list ascii) :
  isLF c = true \/ isCR c = false ->
  withoutCrBeforeLf (c :: r) = c :: withoutCrBeforeLf r.
Proof.
  intros H. destruct r as [| d r]; [reflexivity |].
  cbn [withoutCrBeforeLf].
  destruct (isCR c) eqn:E; [| reflexivity].
  destruct H as [H | H]; [| discriminate].
  unfold isCR, isLF in *. apply Ascii.eqb_eq in E, H. subst c. discriminate.
Qed.

(** A prefix without line feed, before the rest of the text. *)
Lemma withoutCr_prefix (cur l : list ascii) :
  forallb (fun c => negb (isLF c)) cur = true ->
  withoutCrBeforeLf (rev cur ++ l)
  = rev (match l, cur with
         | d :: _, c :: cur' => if isLF d && isCR c then cur' else cur
         | _, _ => cur
         end) ++ withoutCrBeforeLf l.
Proof.
  revert l. induction cur as [| c cur IH]; intros l H.
  - simpl. now destruct l.
  - simpl in H. apply andb_true_iff in H. destruct H as [Hc Hcur].
    apply negb_true_iff in Hc.
    cbn [rev]. rewrite <- app_assoc. cbn [app]. rewrite (IH (c :: l) Hcur).
    match goal with
    | |- rev ?m ++ _ = _ =>
        assert (Hadj : m = cur) by (destruct cur; [reflexivity | now rewrite Hc]);
        rewrite Hadj; clear Hadj
    end.
    destruct l as [| d l].
    + simpl. now rewrite app_nil_r.
    + cbn [withoutCrBeforeLf].
      destruct (isLF d && isCR c) eqn:E.
      * apply andb_true_iff in E. destruct E as [E1 E2]. rewrite E1, E2. reflexivity.
      * assert (E' : isCR c && isLF d = false) by (now rewrite andb_comm).
        rewrite E'. cbn [rev]. now rewrite <- app_assoc.
Qed.

Lemma splitLinesAux_nonempty (l cur : list ascii) : Utils.splitLinesAux l cur <> [].
Proof.
  revert cur. induction l as [| c r IH]; intros cur; simpl; [discriminate |].
  destruct (Ascii.eqb c Js.nl); [discriminate | apply IH].
Qed.

Lemma join_cons (x : string) (rest : list string) :
  rest <> [] ->
  Js.join Js.newline (x :: rest) = (x ++ Js.newline ++ Js.join Js.newline rest)%string.
Proof. destruct rest; [contradiction | reflexivity]. Qed.

Lemma splitLinesAux_join (l : list ascii) :
  forall cur,
    forallb (fun c => negb (isLF c)) cur = true ->
    Js.chars (Js.join Js.newline (Utils.splitLinesAux l cur))
    = withoutCrBeforeLf (rev cur ++ l).
Proof.
  induction l as [| c r IH]; intros cur Hcur.
  - simpl. rewrite chars_str, withoutCr_prefix by exact Hcur. simpl.
    now rewrite app_nil_r.
  - cbn [Utils.splitLinesAux]. destruct (Ascii.eqb c Js.nl) eqn:Ec.
    + rewrite join_cons by apply splitLinesAux_nonempty.
      rewrite !chars_app, chars_str, (IH [] eq_refl).
      rewrite (withoutCr_prefix cur (c :: r) Hcur).
      assert (Hlf : isLF c = true) by exact Ec.
      rewrite withoutCr_cons by now left.
      apply Ascii.eqb_eq in Ec. subst c. simpl app.
      destruct cur as [| d cur']; [reflexivity |].
      reflexivity.
    + rewrite IH.
      * cbn [rev]. now rewrite <- app_assoc.
      * simpl. unfold isLF at 1. now rewrite Ec.
Qed.

Lemma splitLinesAux_length (l : list ascii) :
  forall cur, List.length (Utils.splitLinesAux l cur) = S (lineFeeds l).
Proof.
  unfold lineFeeds. induction l as [| c r IH]; intros cur; simpl; [reflexivity |].
  unfold isLF at 1. destruct (Ascii.eqb c Js.nl); simpl; now rewrite IH.
Qed.

Lemma forallb_rev' {A : Type} (f : A -> bool) (l : list A) :
  forallb f (rev l) = forallb f l.
Proof.
  induction l as [| x l IH]; [reflexivity |].
  simpl. rewrite forallb_app, IH. simpl. rewrite andb_true_r. apply andb_comm.
Qed.

Lemma splitLinesAux_lines (l : list ascii) :
  forall cur line,
    forallb (fun c => negb (isLF c)) cur = true ->
    In line (Utils.splitLinesAux l cur) ->
    forallb (fun c => negb (isLF c)) (Js.chars line) = true.
Proof.
  induction l as [| c r IH]; intros cur line Hcur Hin.
  - simpl in Hin. destruct Hin as [<- | []]. rewrite chars_str, forallb_rev'. exact Hcur.
  - cbn [Utils.splitLinesAux] in Hin. destruct (Ascii.eqb c Js.nl) eqn:Ec.
    + destruct Hin as [<- | Hin]; [| eapply (IH []); eauto].
      rewrite chars_str, forallb_rev'.
      destruct cur as [| d cur']; [reflexivity |].
      simpl in Hcur. apply andb_true_iff in Hcur. destruct Hcur as [Hd Hc'].
      destruct (Ascii.eqb d (ascii_of_nat 13)); [exact Hc' |].
      simpl. now rewrite Hd, Hc'.
    + eapply (IH (c :: cur)); eauto. simpl. unfold isLF at 1. now rewrite Ec.
Qed.

Lemma withoutCr_id (l : list ascii) :
  forallb (fun c => negb (isCR c)) l = true -> withoutCrBeforeLf l = l.
Proof.
  induction l as [| c r IH]; intros H; [reflexivity |].
  simpl in H. apply andb_true_iff in H. destruct H as [Hc Hr].
  apply negb_true_iff in Hc.
  rewrite withoutCr_cons by now right. now rewrite IH.
Qed.

End SplitLines.

(** [splitIntoLines]. For every string, the lines it returns are one more
    than the line feeds of the string, none of them holds a line feed, and
    joined with line feeds they are the string without the carriage
    returns that stand directly before a line feed; so a string without
    carriage return is split and joined into itself. *)
Theorem splitIntoLines_splits_at_line_feeds (x : string) :
  List.length (Utils.splitIntoLines x) = S (lineFeeds (Js.chars x))
  /\ (forall line, In line (Utils.splitIntoLines x) ->
        Js.includes line Js.nl = false)
  /\ Js.chars (Js.join Js.newline (Utils.splitIntoLines x))
     = withoutCrBeforeLf (Js.chars x)
  /\ (noCarriageReturn x = true ->
      Js.join Js.newline (Utils.splitIntoLines x) = x).
Proof.
  unfold Utils.splitIntoLines.
  split; [apply splitLinesAux_length |]. split; [| split].
  - intros line Hin.
    pose proof (splitLinesAux_lines _ [] line eq_refl Hin) as H.
    unfold Js.includes. destruct (existsb (Ascii.eqb Js.nl) (Js.chars line)) eqn:E;
      [| reflexivity].
    apply existsb_exists in E. destruct E as (c & Hc & Ec).
    rewrite forallb_forall in H. specialize (H c Hc).
    apply Ascii.eqb_eq in Ec. subst c. unfold isLF in H.
    rewrite Ascii.eqb_refl in H. discriminate.
  - exact (splitLinesAux_join _ [] eq_refl).
  - intros H. apply chars_inj. rewrite (splitLinesAux_join _ [] eq_refl).
    simpl. apply withoutCr_id. exact H.
Qed.

Lemma splitIntoLines_splits_at_line_feeds_witness :
  noCarriageReturn pythonDocSource = true
  /\ Js.join Js.newline (Utils.splitIntoLines pythonDocSource) = pythonDocSource.
Proof.
  split; [reflexivity |].
  apply (proj2 (proj2 (proj2 (splitIntoLines_splits_at_line_feeds pythonDocSource)))).
  reflexivity.
Defined.

(* ================================================================== *)
(** ** What a matcher answers *)

Section MatcherAnswers.
Context {A : Type} (eqbA : A -> A -> bool).
Hypothesis eqbA_eq : forall x y, eqbA x y = true <-> x = y.
Local Open Scope nat_scope.

Lemma entryFull_ok (h : list A) (pm : JsRecord (list nat)) (entry : string * list A) :
  entryFull h pm entry -> entryOk h pm entry.
Proof.
  intros (ps & H1 & H2 & H3). exists ps. split; [exact H1 |]. split; [exact H2 |].
  apply Forall_forall. intros p Hp. now apply H3.
Qed.

Lemma snoc_suffix (a h : list A) (x sym : A) :
  IsSuffixOf (a ++ [x]) (h ++ [sym]) -> x = sym /\ IsSuffixOf a h.
Proof.
  intros [pre H]. rewrite app_assoc in H. apply app_inj_tail in H.
  destruct H as [-> ->]. split; [reflexivity | now exists pre].
Qed.

(** The progresses of one pattern after a symbol are all those that the
    longer stream allows. *)
Lemma stepped_progresses_full (e h : list A) (sym : A) (ps : list nat) :
  NoDup ps -> (forall p, In p ps <-> progressOk e h p) ->
  let ps' := rev (map S (filter (staysb eqbA e sym) (rev (ps ++ [0])))) in
  NoDup ps' /\ forall q, In q ps' <-> progressOk e (h ++ [sym]) q.
Proof.
  intros Hnd Hfull ps'.
  assert (Hok : Forall (progressOk e h) ps).
  { apply Forall_forall. intros p Hp. now apply Hfull. }
  destruct (stepped_progresses_ok eqbA eqbA_eq e h sym ps Hnd Hok) as [N1 N2].
  fold ps' in N1, N2. split; [exact N1 |].
  intros q. split; [rewrite Forall_forall in N2; apply N2 |].
  intros (Q1 & Q2 & Q3).
  destruct q as [| p]; [lia |].
  destruct (nth_error e p) as [x |] eqn:Ex; [| apply nth_error_None in Ex; lia].
  rewrite (firstn_snoc _ _ _ Ex) in Q3.
  destruct (snoc_suffix _ _ _ _ Q3) as [-> Hs].
  unfold ps'. rewrite <- in_rev. apply in_map. apply filter_In. split.
  - rewrite <- in_rev. apply in_app_iff.
    destruct p as [| p]; [right; now left | left].
    apply Hfull. repeat split; [lia | lia | exact Hs].
  - unfold staysb, hitb. rewrite Ex.
    rewrite (proj2 (eqbA_eq sym sym) eq_refl). simpl.
    apply negb_true_iff. apply Nat.eqb_neq. lia.
Qed.

(** A pattern completes on a symbol exactly when the longer stream ends
    with it. *)
Lemma completes_iff (e h : list A) (sym : A) (ps : list nat) :
  e <> [] -> (forall p, In p ps <-> progressOk e h p) ->
  existsb (completesb eqbA e sym) (rev (ps ++ [0])) = true <-> IsSuffixOf e (h ++ [sym]).
Proof.
  intros Hne Hfull. split.
  - intros H. apply existsb_exists in H. destruct H as (p & Hp & Hc).
    eapply (completes_suffix eqbA eqbA_eq); [exact Hc |].
    apply in_rev in Hp. apply in_app_iff in Hp. destruct Hp as [Hp | [<- | []]].
    + now apply Hfull.
    + exists h. simpl. now rewrite app_nil_r.
  - intros Hs.
    assert (Hlen : 0 < List.length e) by (destruct e; [contradiction | simpl; lia]).
    set (p := List.length e - 1).
    destruct (nth_error e p) as [x |] eqn:Ex; [| apply nth_error_None in Ex; lia].
    assert (He : e = firstn p e ++ [x]).
    { rewrite <- (firstn_snoc _ _ _ Ex). symmetry. apply firstn_all2. unfold p. lia. }
    rewrite He in Hs. destruct (snoc_suffix _ _ _ _ Hs) as [-> Hs'].
    apply existsb_exists. exists p. split.
    + rewrite <- in_rev. apply in_app_iff.
      destruct p as [| p'] eqn:Ep; [right; now left | left].
      apply Hfull. repeat split; [lia | lia | exact Hs'].
    + unfold completesb, hitb. rewrite Ex, (proj2 (eqbA_eq sym sym) eq_refl). simpl.
      apply Nat.eqb_eq. unfold p. lia.
Qed.

Lemma entryFull_frame (h : list A) (pm pm' : JsRecord (list nat)) (entry : string * list A) :
  recGet pm' (fst entry) = recGet pm (fst entry) -> entryFull h pm entry -> entryFull h pm' entry.
Proof.
  intros Hget (ps & H1 & H2). exists ps. now rewrite Hget.
Qed.

(** The outer loop of [next], with what it answers. *)
Lemma nextLoop_full (h : list A) (sym : A) :
  forall (entries : JsRecord (list A)) (pm : JsRecord (list nat)) (matched : option string),
    NoDup (recKeys entries) ->
    exclusive (recValues entries) ->
    Forall (fun v => v <> []) (recValues entries) ->
    Forall (entryFull h pm) entries ->
    (matched = None \/ Forall (fun v => ~ IsSuffixOf v (h ++ [sym])) (recValues entries)) ->
    exists pm' m',
      nextLoop eqbA entries sym pm matched = Ok (pm', m')
      /\ Forall (entryFull (h ++ [sym]) pm') entries
      /\ (forall k, ~ In k (recKeys entries) -> recGet pm' k = recGet pm k)
      /\ (Forall (fun v => ~ IsSuffixOf v (h ++ [sym])) (recValues entries) -> m' = matched)
      /\ (forall k e, In (k, e) entries -> IsSuffixOf e (h ++ [sym]) -> m' = Some k)
      /\ (m' = matched
          \/ exists k e, m' = Some k /\ In (k, e) entries /\ IsSuffixOf e (h ++ [sym])).
Proof.
  induction entries as [| [key e] rest IH]; intros pm matched Hnd Hex Hne Hok Hm; simpl.
  - exists pm, matched. repeat split; auto. intros k e [].
  - inversion Hnd as [| ? ? Hnotin Hnd']; subst.
    inversion Hok as [| ? ? [ps [Hget [Hps Hfull]]] Hok']; subst. simpl in Hget, Hfull.
    inversion Hne as [| ? ? Hne1 Hne2]; subst.
    destruct Hex as [Hex1 Hex2].
    rewrite Hget.
    destruct (stepped_progresses_full e h sym ps Hps Hfull) as [Hnd1 Hfull1].
    pose proof (completes_iff e h sym ps Hne1 Hfull) as Hcomp.
    assert (Hnd0 : NoDup (rev (ps ++ [0]))).
    { apply NoDup_rev. apply NoDup_app; [assumption | repeat constructor; auto | ].
      intros x Hx [<- | []]. apply Hfull in Hx. destruct Hx. lia. }
    rewrite (advance_spec eqbA); auto.
    2:{ destruct Hm as [Hm | Hm]; [now left | right].
        intros p Hp. destruct (completesb eqbA e sym p) eqn:Hc; auto.
        exfalso. inversion Hm as [| ? ? Hno _]; subst.
        apply Hno. apply Hcomp. apply existsb_exists. eauto. }
    simpl.
    set (ps' := rev (map S (filter (staysb eqbA e sym) (rev (ps ++ [0]))))) in *.
    set (m1 := if existsb (completesb eqbA e sym) (rev (ps ++ [0])) then Some key else matched).
    destruct (IH (recSet pm key ps') m1 Hnd' Hex2 Hne2) as (pm' & m' & Hrun & Hok2 & Hframe & Hout1 & Hout2 & Hout3).
    + apply Forall_forall. intros entry Hin.
      rewrite Forall_forall in Hok'.
      apply entryFull_frame with (pm := pm); auto.
      apply recGet_recSet_other. intros Heq. apply Hnotin.
      rewrite <- Heq. unfold recKeys. now apply in_map.
    + subst m1.
      destruct (existsb (completesb eqbA e sym) (rev (ps ++ [0]))) eqn:Hexb.
      * right. apply Hex1. now apply Hcomp.
      * destruct Hm as [Hm | Hm]; [now left | right]. now inv Hm.
    + exists pm', m'. split; [exact Hrun |]. split; [| split; [| split; [| split]]].
      * constructor; auto.
        exists ps'. simpl. split; [| split; assumption].
        rewrite Hframe by assumption. apply recGet_recSet_same.
      * intros k Hk. simpl in Hk.
        rewrite Hframe by tauto.
        apply recGet_recSet_other. intros ->. tauto.
      * intros Hnone. inversion Hnone as [| ? ? Hno Hnos]; subst.
        rewrite (Hout1 Hnos). subst m1.
        destruct (existsb (completesb eqbA e sym) (rev (ps ++ [0]))) eqn:Hexb; [| reflexivity].
        exfalso. apply Hno. now apply Hcomp.
      * intros k e0 [Heq | Hin] Hs.
        -- inv Heq. rewrite (Hout1 (Hex1 _ Hs)). subst m1.
           now rewrite (proj2 Hcomp Hs).
        -- eapply Hout2; eauto.
      * destruct Hout3 as [-> | (k & e0 & K1 & K2 & K3)].
        -- subst m1.
           destruct (existsb (completesb eqbA e sym) (rev (ps ++ [0]))) eqn:Hexb;
             [| now left].
           right. exists key, e. split; [reflexivity |]. split; [now left |].
           now apply Hcomp.
        -- right. exists k, e0. split; [exact K1 |]. split; [now right | exact K3].
Qed.

Lemma In_recGet (r : JsRecord (list A)) (k : string) (e : list A) :
  NoDup (recKeys r) -> In (k, e) r -> recGet r k = Some e.
Proof.
  induction r as [| [k0 e0] r IH]; intros Hnd Hin; [contradiction |].
  inversion Hnd as [| ? ? Hnotin Hnd']; subst. simpl.
  destruct Hin as [Heq | Hin].
  - inv Heq. now rewrite String.eqb_refl.
  - destruct (String.eqb k0 k) eqn:E; [| now apply IH].
    apply String.eqb_eq in E. subst k0. exfalso. apply Hnotin.
    unfold recKeys. change k with (fst (k, e)). now apply in_map.
Qed.

Lemma recGet_In (r : JsRecord (list A)) (k : string) (e : list A) :
  recGet r k = Some e -> In (k, e) r.
Proof.
  induction r as [| [k0 e0] r IH]; simpl; [discriminate |].
  destruct (String.eqb k0 k) eqn:E; intros H.
  - apply String.eqb_eq in E. inv H. now left.
  - right. auto.
Qed.

Lemma next_full (m : Matcher A) (h : list A) (sym : A) :
  matcherFull m h ->
  exists m' out, next eqbA m sym = Ok (m', out)
                 /\ matcherFull m' (h ++ [sym])
                 /\ expressions m' = expressions m
                 /\ answers (expressions m) (h ++ [sym]) out.
Proof.
  intros (Hnd & Hex & Hne & Hok). unfold next.
  destruct (nextLoop_full h sym (expressions m) (potentialMatches m) None Hnd Hex Hne Hok)
    as (pm' & m' & Hrun & Hok' & _ & Hout1 & Hout2 & Hout3); [now left |].
  rewrite Hrun. simpl.
  exists (mkMatcher (expressions m) pm'), m'. split; [reflexivity |].
  split; [repeat split; auto |]. split; [reflexivity |].
  intros key. split.
  - intros ->. destruct Hout3 as [Hn | (k & e & K1 & K2 & K3)]; [discriminate |].
    inv K1. exists e. split; [now apply In_recGet | exact K3].
  - intros (e & He & Hs). eapply Hout2; [| exact Hs]. now apply recGet_In.
Qed.

Lemma reset_full (m : Matcher A) (h : list A) :
  matcherFull m h -> matcherFull (reset m) [] /\ expressions (reset m) = expressions m.
Proof.
  intros (Hnd & Hex & Hne & Hok). split; [| reflexivity].
  repeat split; auto. simpl.
  apply Forall_forall. intros entry Hin.
  rewrite Forall_forall in Hok. destruct (Hok _ Hin) as [ps [Hget _]].
  exists []. split; [| split; [constructor |]].
  - apply resetLoop_get. eapply recGet_Some_In; eauto.
  - intros p. split; [intros [] |]. intros (P1 & P2 & [pre P3]).
    destruct (firstn p (snd entry)) eqn:E.
    + apply (f_equal (@List.length A)) in E. rewrite length_firstn in E. simpl in E. lia.
    + destruct pre; discriminate.
Qed.

Lemma initial_full (es : JsRecord (list A)) :
  NoDup (recKeys es) -> SuffixFree (recValues es) ->
  Forall (fun v => v <> []) (recValues es) ->
  matcherFull (mkMatcher es (initPotentialMatches (recKeys es) [])) [].
Proof.
  intros Hnd Hsf Hne. repeat split; auto.
  - now apply SuffixFree_exclusive.
  - simpl. apply Forall_forall. intros entry Hin.
    exists []. split; [| split; [constructor |]].
    + rewrite initPotentialMatches_resetLoop.
      apply resetLoop_get. unfold recKeys. now apply in_map.
    + intros p. split; [intros [] |]. intros (P1 & P2 & [pre P3]).
      destruct (firstn p (snd entry)) eqn:E.
      * apply (f_equal (@List.length A)) in E. rewrite length_firstn in E. simpl in E. lia.
      * destruct pre; discriminate.
Qed.

(** A run of feeds and resets, and then one more symbol. *)
Lemma run_answers (ops : list (Op A)) :
  forall (m : Matcher A) (h : list A) (sym : A),
    matcherFull m h ->
    exists m' outs,
      run eqbA m (ops ++ [Feed sym]) = Ok (m', outs)
      /\ answers (expressions m) (streamOf ops h ++ [sym]) (last outs None).
Proof.
  induction ops as [| [s |] ops IH]; intros m h sym Hinv; simpl.
  - destruct (next_full m h sym Hinv) as (m' & out & Hnext & _ & _ & Hans).
    rewrite Hnext. simpl. exists m', [out]. split; [reflexivity | exact Hans].
  - destruct (next_full m h s Hinv) as (m1 & out & Hnext & Hinv1 & He & _).
    rewrite Hnext. simpl.
    destruct (IH m1 _ sym Hinv1) as (m' & outs & Hrun & Hans).
    rewrite Hrun. simpl. exists m', (out :: outs). split; [reflexivity |].
    rewrite He in Hans.
    assert (Hne : outs <> []).
    { clear - Hrun. intros ->. revert m1 Hrun.
      induction ops as [| [s |] ops IH]; intros m1 Hrun; simpl in Hrun.
      - destruct (next eqbA m1 sym) as [[? ?] |]; [| discriminate]. discriminate.
      - destruct (next eqbA m1 s) as [[m2 o] |]; [| discriminate]. simpl in Hrun.
        destruct (run eqbA m2 (ops ++ [Feed sym])) as [[? ?] |]; discriminate.
      - eapply IH; eauto. }
    destruct outs; [contradiction | exact Hans].
  - destruct (reset_full m h Hinv) as [Hinv1 He].
    destruct (IH (reset m) [] sym Hinv1) as (m' & outs & Hrun & Hans).
    exists m', outs. split; [exact Hrun |]. now rewrite He in Hans.
Qed.

End MatcherAnswers.

Lemma nonempty_values {A : Type} (values : list (list A)) :
  existsb (fun value => (List.length value =? 0)%nat) values = false ->
  Forall (fun v => v <> []) values.
Proof.
  intros H. apply Forall_forall. intros v Hin ->.
  assert (Ht : existsb (fun value : list A => (List.length value =? 0)%nat) values = true).
  { apply existsb_exists. exists []. auto. }
  congruence.
Qed.

(** X12. On a matcher that its constructor accepted, whatever was fed and
    reset before, [next] returns the key of a pattern exactly when the
    symbols fed since the last reset, the new one included, end with that
    pattern; it returns no key when they end with no pattern. This holds
    for [ExpressionMatcher] and for [StringExpressionMatcher]. The keys of
    the pattern object are pairwise distinct. *)
Theorem next_names_the_pattern_at_the_end :
  (forall (patterns : JsRecord (list Z)) (m : ExpressionMatcher.t) (ops : list (Op Z))
          (sym : Z),
      NoDup (recKeys patterns) ->
      ExpressionMatcher.constructor patterns = Ok m ->
      exists m' outs,
        run Z.eqb m (ops ++ [Feed sym]) = Ok (m', outs)
        /\ answers (expressions m) (streamOf ops [] ++ [sym]) (last outs None))
  /\ (forall (patterns : JsRecord string) (m : StringExpressionMatcher.t)
             (ops : list (Op ascii)) (ch : ascii),
         NoDup (recKeys patterns) ->
         StringExpressionMatcher.constructor patterns = Ok m ->
         exists m' outs,
           run Ascii.eqb m (ops ++ [Feed ch]) = Ok (m', outs)
           /\ answers (expressions m) (streamOf ops [] ++ [ch]) (last outs None)).
Proof.
  split.
  - intros patterns m ops sym Hnd Hc.
    unfold ExpressionMatcher.constructor, ExpressionMatcher.validateExpressions in Hc.
    destruct (List.length (recValues patterns) =? 0)%nat; [discriminate |].
    destruct (existsb _ (recValues patterns)) eqn:Hne; [discriminate |].
    destruct (suffixOuter ExpressionMatcher.isSuffix _ _ 0) eqn:Hs; [discriminate |].
    destruct (negb _); [discriminate |]. simpl in Hc. inv Hc.
    apply (run_answers Z.eqb Z.eqb_eq ops _ []).
    apply initial_full; auto.
    + eapply suffixOuter_SuffixFree; [apply isSuffix_complete | exact Hs].
    + now apply nonempty_values.
  - intros patterns m ops ch Hnd Hc.
    unfold StringExpressionMatcher.constructor, StringExpressionMatcher.validateExpressions in Hc.
    destruct (List.length (map Js.chars (recValues patterns)) =? 0)%nat; [discriminate |].
    destruct (existsb _ (map Js.chars (recValues patterns))) eqn:Hne; [discriminate |].
    destruct (suffixOuter StringExpressionMatcher.endsWithChars _ _ 0) eqn:Hs; [discriminate |].
    simpl in Hc. inv Hc.
    apply (run_answers Ascii.eqb Ascii.eqb_eq ops _ []).
    assert (Hk : recKeys (map (fun e : string * string => (fst e, Js.chars (snd e))) patterns)
                 = recKeys patterns).
    { unfold recKeys. rewrite map_map. reflexivity. }
    assert (Hv : recValues (map (fun e : string * string => (fst e, Js.chars (snd e))) patterns)
                 = map Js.chars (recValues patterns)).
    { unfold recValues. rewrite !map_map. reflexivity. }
    rewrite <- Hk. apply initial_full.
    + now rewrite Hk.
    + rewrite Hv.
      eapply suffixOuter_SuffixFree; [apply endsWithChars_complete | exact Hs].
    + rewrite Hv. now apply nonempty_values.
Qed.

(** The three patterns of the TypeScript lexer, fed [x], a reset, [a], [/]
    and then [*]. *)
Lemma next_names_the_pattern_at_the_end_witness :
  NoDup (recKeys TypeScriptTokenizer.patterns)
  /\ exists m, StringExpressionMatcher.constructor TypeScriptTokenizer.patterns = Ok m
               /\ exists m' outs,
                   run Ascii.eqb m
                       ([Feed "x"%char; Reset; Feed "a"%char; Feed "/"%char]
                          ++ [Feed "*"%char]) = Ok (m', outs)
                   /\ answers (expressions m)
                              (streamOf [Feed "x"%char; Reset; Feed "a"%char; Feed "/"%char] []
                                 ++ ["*"%char])
                              (last outs None).
Proof.
  assert (Hnd : NoDup (recKeys TypeScriptTokenizer.patterns)).
  { repeat constructor; simpl; intuition discriminate. }
  split; [exact Hnd |].
  eexists. split; [reflexivity |].
  exact (proj2 next_names_the_pattern_at_the_end _ _ _ _ Hnd eq_refl).
Defined.

(* ================================================================== *)
(** ** The indentation that the Python parser wants *)

Lemma scanIndents_none (codeLines : list string) :
  forall (spaces : list Z) (tabs : Z),
    forallb (fun line => negb (spaceIndented line) && negb (tabIndented line)) codeLines = true ->
    PythonParser.scanIndents codeLines spaces tabs = Ok (spaces, tabs).
Proof.
  induction codeLines as [| line rest IH]; intros spaces tabs H; simpl in *; [reflexivity |].
  apply andb_true_iff in H. destruct H as [H1 H2].
  unfold spaceIndented, tabIndented, isBlankLine, startsWithChar in H1.
  destruct (Js.len (Js.trim line) =? 0); [now apply IH |].
  simpl in H1.
  destruct (Js.chars line) as [| c r]; simpl; [now apply IH |].
  destruct (Ascii.eqb c " "%char); [discriminate |].
  destruct (Ascii.eqb c (ascii_of_nat 9)); [discriminate |].
  simpl. now apply IH.
Qed.

Lemma scanIndents_mixed (codeLines : list string) :
  forall (spaces : list Z) (tabs : Z),
    0 <= tabs ->
    spaces <> [] \/ existsb spaceIndented codeLines = true ->
    0 < tabs \/ existsb tabIndented codeLines = true ->
    PythonParser.scanIndents codeLines spaces tabs = Throw PythonParser.mixedIndentation
    \/ exists spaces' tabs',
        PythonParser.scanIndents codeLines spaces tabs = Ok (spaces', tabs')
        /\ spaces' <> [] /\ 0 < tabs'.
Proof.
  induction codeLines as [| line rest IH]; intros spaces tabs H0 HS HT; simpl in *.
  - right. exists spaces, tabs. split; [reflexivity |].
    split; [destruct HS as [? | ?]; [assumption | discriminate]
           | destruct HT as [? | ?]; [assumption | discriminate]].
  - unfold spaceIndented, tabIndented, isBlankLine, startsWithChar in HS, HT.
    destruct (Js.len (Js.trim line) =? 0); simpl in HS, HT; [now apply IH |].
    destruct (Js.chars line) as [| c r]; simpl in *; [now apply IH |].
    destruct (Ascii.eqb c " "%char) eqn:Esp.
    + apply Ascii.eqb_eq in Esp. subst c. simpl.
      destruct (existsb (Ascii.eqb (ascii_of_nat 9)) (PythonParser.leadingIndent r));
        [now left |].
      simpl. apply IH; [exact H0 | |].
      * left. now destruct spaces.
      * destruct HT as [? | HT]; [now left | right; exact HT].
    + destruct (Ascii.eqb c (ascii_of_nat 9)) eqn:Etab; simpl.
      * apply Ascii.eqb_eq in Etab. subst c. simpl.
        destruct (existsb (Ascii.eqb " "%char) (PythonParser.leadingIndent r)); simpl;
          [now left |].
        apply IH; [lia | exact HS |]. left. lia.
      * now apply IH.
Qed.

(** X13. The Python parser wants indentation. A source none of whose
    non-blank lines begins with a space or a tab is not parsed: but for the
    empty source, [parse] throws the error of [preparse] for an indentation
    step that was not found. A source with a non-blank line that begins
    with a space and a non-blank line that begins with a tab is rejected
    for its mixed indentation. *)
Theorem python_parse_wants_indentation (codeLines : list string) :
  (AbstractParser.isEmptyInput codeLines = false ->
   forallb (fun line => negb (spaceIndented line) && negb (tabIndented line)) codeLines = true ->
   PythonParser.parse codeLines
   = Throw (CodeParsingError
              "Unable to detect a consistent indentation step within the allowed threshold."))
  /\ (existsb spaceIndented codeLines = true ->
      existsb tabIndented codeLines = true ->
      PythonParser.parse codeLines
      = Throw (CodeParsingError
                 "Python code cannot have mixed spaces and tabs for indentation!")).
Proof.
  destruct python_tokenizer_initial as [tk0 [H0 [Hinv HJ]]].
  assert (Hc : exists st, PythonParser.constructor = Ok st) by (eexists; reflexivity).
  destruct Hc as [st Hc].
  destruct (tokenizeLines_total PythonParser.language pyInv python_lexer_step st tk0
                                codeLines H0 Hinv HJ) as [p [Hp _]].
  split.
  - intros Hne Hnone.
    unfold PythonParser.parse. rewrite Hc. cbn [bind].
    unfold AbstractParser.parse. rewrite Hne, Hp. cbn [bind].
    change (preparse PythonParser.language) with PythonParser.preparse.
    unfold PythonParser.preparse.
    rewrite (scanIndents_none codeLines [] 0 Hnone). reflexivity.
  - intros HS HT.
    assert (Hne : AbstractParser.isEmptyInput codeLines = false).
    { destruct codeLines as [| l [| l' r]]; [discriminate | | reflexivity].
      simpl in HS. rewrite orb_false_r in HS.
      unfold spaceIndented, startsWithChar in HS. apply andb_true_iff in HS.
      destruct HS as [_ HS]. destruct l; [discriminate | reflexivity]. }
    unfold PythonParser.parse. rewrite Hc. cbn [bind].
    unfold AbstractParser.parse. rewrite Hne, Hp. cbn [bind].
    change (preparse PythonParser.language) with PythonParser.preparse.
    unfold PythonParser.preparse.
    destruct (scanIndents_mixed codeLines [] 0 (Z.le_refl 0) (or_intror HS) (or_intror HT))
      as [-> | (spaces & tabs & -> & Hs & Ht)]; [reflexivity |].
    cbn [bind].
    destruct spaces as [| s0 spaces]; [contradiction |].
    assert (E : (0 <? Z.of_nat (List.length (s0 :: spaces))) && (0 <? tabs) = true).
    { apply andb_true_iff. split; apply Z.ltb_lt; [simpl; lia | exact Ht]. }
    rewrite E. reflexivity.
Qed.

(** The one-line source [x = 1], and a source with one line behind a space
    and one behind a tab. *)
Lemma python_parse_wants_indentation_witness :
  PythonParser.parse ["x = 1"]
  = Throw (CodeParsingError
             "Unable to detect a consistent indentation step within the allowed threshold.")
  /\ PythonParser.parse ["if a:"; "  b = 1"; "if c:"; (Js.tab ++ "d = 1")%string]
     = Throw (CodeParsingError
                "Python code cannot have mixed spaces and tabs for indentation!").
Proof.
  split.
  - apply (proj1 (python_parse_wants_indentation ["x = 1"])); reflexivity.
  - apply (proj2 (python_parse_wants_indentation
                    ["if a:"; "  b = 1"; "if c:"; (Js.tab ++ "d = 1")%string])); reflexivity.
Defined.

(* ================================================================== *)
(** ** The words that a braces matcher accepts *)

Section BracesWords.
Local Open Scope nat_scope.

Lemma has_recSet (r : JsRecord string) (k k' : string) (v : string) :
  BracesMatcher.has (recSet r k v) k' = true <-> k' = k \/ BracesMatcher.has r k' = true.
Proof.
  unfold BracesMatcher.has.
  destruct (string_dec k' k) as [-> | Hne].
  - rewrite recGet_recSet_same. tauto.
  - rewrite recGet_recSet_other by assumption. tauto.
Qed.

(** What the loop of the constructor leaves in the two maps. *)
Lemma constructorLoop_maps (braces : list Braces) :
  forall (tmp : list string) (o2c c2o : JsRecord string) (m : BracesMatcher.t),
    BracesMatcher.constructorLoop braces tmp o2c c2o = Ok m ->
    (forall k, recGet o2c k <> None -> In k tmp) ->
    BracesMatcher.stack m = []
    /\ (forall k c, recGet (BracesMatcher.openingToClosing m) k = Some c
                    <-> recGet o2c k = Some c
                        \/ exists b, In b braces /\ opening b = k /\ closing b = c)
    /\ (forall k, BracesMatcher.has (BracesMatcher.closingToOpening m) k = true
                  <-> BracesMatcher.has c2o k = true
                      \/ exists b, In b braces /\ closing b = k)
    /\ Forall (fun b => String.length (opening b) = 1 /\ String.length (closing b) = 1) braces.
Proof.
  induction braces as [| b rest IH]; intros tmp o2c c2o m H Hkeys; simpl in H.
  - inv H. simpl. split; [reflexivity |].
    split; [| split; [| constructor]].
    + intros k c. split; [now left | intros [? | (b & [] & _)]; assumption].
    + intros k. split; [now left | intros [? | (b & [] & _)]; assumption].
  - destruct (String.length (opening b) =? 1) eqn:Eo; [| discriminate].
    destruct (String.length (closing b) =? 1) eqn:Ec; [| discriminate].
    simpl in H.
    destruct (BracesMatcher.arrIncludes tmp (opening b)) eqn:Ei; [discriminate |].
    destruct (BracesMatcher.arrIncludes (tmp ++ [opening b]) (closing b)); [discriminate |].
    apply Nat.eqb_eq in Eo, Ec.
    assert (Hnot : ~ In (opening b) tmp).
    { intros Hin. apply arrIncludes_In in Hin. congruence. }
    destruct (IH _ _ _ _ H) as (Hs & Ho & Hc & Hl).
    { intros k Hk. apply in_or_app.
      destruct (string_dec k (opening b)) as [-> | Hne]; [right; now left |].
      rewrite recGet_recSet_other in Hk by assumption. left. auto. }
    split; [exact Hs |]. split; [| split; [| constructor; auto]].
    + intros k c. rewrite Ho. split.
      * intros [Hk | (b' & Hin & E1 & E2)].
        -- destruct (string_dec k (opening b)) as [-> | Hne].
           ++ rewrite recGet_recSet_same in Hk. inv Hk.
              right. exists b. split; [now left | auto].
           ++ rewrite recGet_recSet_other in Hk by assumption. now left.
        -- right. exists b'. split; [now right | auto].
      * intros [Hk | (b' & [<- | Hin] & E1 & E2)].
        -- left. rewrite recGet_recSet_other; [exact Hk |].
           intros ->. apply Hnot, Hkeys. congruence.
        -- left. subst k c. apply recGet_recSet_same.
        -- right. exists b'. auto.
    + intros k. rewrite Hc, has_recSet. split.
      * intros [[-> | Hk] | (b' & Hin & E)].
        -- right. exists b. split; [now left | reflexivity].
        -- now left.
        -- right. exists b'. split; [now right | exact E].
      * intros [Hk | (b' & [<- | Hin] & E)].
        -- left. now right.
        -- left. left. now symmetry.
        -- right. exists b'. auto.
Qed.

Variable braces : list Braces.
Variable m0 : BracesMatcher.t.

Hypothesis opening_spec :
  forall k c, recGet (BracesMatcher.openingToClosing m0) k = Some c <-> exists b, In b braces /\ opening b = k /\ closing b = c.
Hypothesis closing_spec :
  forall k, BracesMatcher.has (BracesMatcher.closingToOpening m0) k = true <-> exists b, In b braces /\ closing b = k.
Hypothesis one_character :
  Forall (fun b => String.length (opening b) = 1 /\ String.length (closing b) = 1) braces.
Hypothesis apart : closingApart braces.

Lemma next_opening (s : list string) (b : Braces) :
  In b braces ->
  BracesMatcher.next (withStack m0 s) (opening b)
  = Ok (withStack m0 (s ++ [opening b]), List.length (s ++ [opening b])).
Proof.
  intros Hin. unfold BracesMatcher.next. simpl.
  rewrite Forall_forall in one_character. destruct (one_character _ Hin) as [-> _]. simpl.
  assert (Hget : recGet (BracesMatcher.openingToClosing m0) (opening b) = Some (closing b)).
  { apply opening_spec. exists b. auto. }
  unfold BracesMatcher.has. now rewrite Hget.
Qed.

Lemma closing_not_opening (b : Braces) :
  In b braces -> BracesMatcher.has (BracesMatcher.openingToClosing m0) (closing b) = false.
Proof.
  intros Hin. unfold BracesMatcher.has.
  destruct (recGet (BracesMatcher.openingToClosing m0) (closing b)) as [c |] eqn:E; [| reflexivity].
  apply opening_spec in E. destruct E as (b' & Hin' & E1 & _).
  exfalso. apply (apart b b' Hin Hin'). now symmetry.
Qed.

Lemma next_closing (s : list string) (b : Braces) :
  In b braces ->
  BracesMatcher.next (withStack m0 (s ++ [opening b])) (closing b)
  = Ok (withStack m0 s, List.length s).
Proof.
  intros Hin. unfold BracesMatcher.next. simpl.
  rewrite Forall_forall in one_character. destruct (one_character _ Hin) as [_ ->]. simpl.
  rewrite (closing_not_opening b Hin).
  assert (Hc : BracesMatcher.has (BracesMatcher.closingToOpening m0) (closing b) = true).
  { apply closing_spec. exists b. auto. }
  rewrite Hc, rev_app_distr. simpl.
  assert (Hget : recGet (BracesMatcher.openingToClosing m0) (opening b) = Some (closing b)).
  { apply opening_spec. exists b. auto. }
  rewrite Hget, String.eqb_refl, rev_involutive. reflexivity.
Qed.

Lemma feedBraces_app (u v : list string) :
  forall (m : BracesMatcher.t),
    feedBraces m (u ++ v)
    = ('(m1, d1) <- feedBraces m u ;;
       '(m2, d2) <- feedBraces m1 v ;;
       Ok (m2, d1 ++ d2)).
Proof.
  induction u as [| ch u IH]; intros m; simpl.
  - destruct (feedBraces m v) as [[m2 d2] |]; reflexivity.
  - destruct (BracesMatcher.next m ch) as [[m' d] |]; simpl; [| reflexivity].
    rewrite IH.
    destruct (feedBraces m' u) as [[m1 d1] |]; simpl; [| reflexivity].
    destruct (feedBraces m1 v) as [[m2 d2] |]; reflexivity.
Qed.

(** A well-nested word brings the matcher back to where it was. *)
Lemma feedBraces_balanced (w : list string) :
  Balanced braces w ->
  forall s, exists depths, feedBraces (withStack m0 s) w = Ok (withStack m0 s, depths)
                           /\ last depths (List.length s) = List.length s.
Proof.
  induction 1 as [| b w Hin Hw IH | u v Hu IHu Hv IHv]; intros s.
  - exists []. split; reflexivity.
  - simpl. rewrite (next_opening s b Hin). simpl.
    rewrite feedBraces_app.
    destruct (IH (s ++ [opening b])) as (ds & -> & _). simpl.
    rewrite (next_closing s b Hin). simpl.
    eexists. split; [reflexivity |].
    rewrite app_comm_cons, last_last. reflexivity.
  - rewrite feedBraces_app.
    destruct (IHu s) as (d1 & -> & L1). simpl.
    destruct (IHv s) as (d2 & -> & L2). simpl.
    eexists. split; [reflexivity |].
    destruct d2 as [| x d2]; [now rewrite app_nil_r |].
    change (x :: d2) with ([x] ++ d2) in *.
    rewrite app_assoc. destruct d2 as [| y d2] using rev_ind.
    + rewrite app_nil_r, last_last. simpl in L2. exact L2.
    + rewrite app_assoc, last_last. rewrite app_assoc, last_last in L2. exact L2.
Qed.

Lemma Unclosed_balanced (s w v : list string) :
  Unclosed braces s w -> Balanced braces v -> Unclosed braces s (w ++ v).
Proof.
  intros H Hv. destruct H as [w Hw | s w b v0 Hu Hin Hv0].
  - constructor. now constructor.
  - rewrite <- app_assoc. simpl. constructor; auto. now constructor.
Qed.

Lemma feedBraces_unclosed (s w : list string) :
  Unclosed braces s w ->
  exists depths, feedBraces (withStack m0 []) w = Ok (withStack m0 s, depths)
                 /\ last depths 0 = List.length s.
Proof.
  induction 1 as [w Hw | s w b v Hu IH Hin Hv].
  - destruct (feedBraces_balanced w Hw []) as (ds & Hf & Hl). eauto.
  - destruct IH as (d1 & Hf & _).
    rewrite feedBraces_app, Hf. simpl.
    rewrite (next_opening s b Hin). simpl.
    destruct (feedBraces_balanced v Hv (s ++ [opening b])) as (d2 & -> & L2). simpl.
    eexists. split; [reflexivity |].
    destruct d2 as [| x d2] using rev_ind.
    + rewrite last_last. reflexivity.
    + rewrite app_comm_cons, app_assoc, last_last.
      rewrite last_last in L2. exact L2.
Qed.

(** One call that returns, on a matcher with these maps. *)
Lemma next_returns (s : list string) (ch : string) (m : BracesMatcher.t) (d : nat) :
  BracesMatcher.next (withStack m0 s) ch = Ok (m, d) ->
  d = List.length (BracesMatcher.stack m)
  /\ ((exists b, In b braces /\ opening b = ch /\ m = withStack m0 (s ++ [ch]))
      \/ (exists b s', In b braces /\ closing b = ch /\ s = s' ++ [opening b]
                       /\ m = withStack m0 s')).
Proof.
  unfold BracesMatcher.next. simpl. intros H.
  destruct (negb (String.length ch =? 1)); [discriminate |].
  unfold BracesMatcher.has in H at 1.
  destruct (recGet (BracesMatcher.openingToClosing m0) ch) as [c |] eqn:Eo.
  - inv H. split; [reflexivity |]. left.
    apply opening_spec in Eo. destruct Eo as (b & Hin & E1 & _).
    exists b. auto.
  - destruct (BracesMatcher.has (BracesMatcher.closingToOpening m0) ch) eqn:Ec; [| discriminate].
    destruct (rev s) as [| lastOpening below] eqn:Er; [discriminate |].
    destruct (recGet (BracesMatcher.openingToClosing m0) lastOpening) as [expected |] eqn:El; [| discriminate].
    destruct (String.eqb ch expected) eqn:Ee; [| discriminate].
    apply String.eqb_eq in Ee. subst expected. inv H.
    split; [reflexivity |]. right.
    apply opening_spec in El. destruct El as (b & Hin & E1 & E2).
    exists b, (rev below). repeat split; auto.
    rewrite E1. apply (f_equal (@rev string)) in Er.
    rewrite rev_involutive in Er. exact Er.
Qed.

Lemma Unclosed_close (s w : list string) (b : Braces) :
  Unclosed braces (s ++ [opening b]) w -> In b braces ->
  Unclosed braces s (w ++ [closing b]).
Proof.
  intros H Hin.
  inversion H as [w0 Hw E1 E2 | s0 w0 b0 v Hu Hin0 Hv E1 E2].
  - destruct s; discriminate.
  - apply app_inj_tail in E1. destruct E1 as [-> E1].
    rewrite <- app_assoc. simpl.
    apply Unclosed_balanced; [exact Hu |].
    rewrite E1. now constructor.
Qed.

Lemma feedBraces_returns (w : list string) :
  forall (m : BracesMatcher.t) (depths : list nat),
    feedBraces (withStack m0 []) w = Ok (m, depths) ->
    exists s, m = withStack m0 s /\ Unclosed braces s w
              /\ last depths 0 = List.length s.
Proof.
  induction w as [| ch w IH] using rev_ind; intros m depths H.
  - inv H. exists []. split; [reflexivity |]. split; [| reflexivity].
    constructor. constructor.
  - rewrite feedBraces_app in H.
    destruct (feedBraces (withStack m0 []) w) as [[m1 d1] |] eqn:E1; [| discriminate].
    simpl in H.
    destruct (IH m1 d1 eq_refl) as (s & -> & Hu & _).
    destruct (BracesMatcher.next (withStack m0 s) ch) as [[m2 d] |] eqn:E2; [| discriminate].
    simpl in H. inv H.
    destruct (next_returns s ch m d E2) as [Hd [(b & Hin & <- & ->) | (b & s' & Hin & <- & -> & ->)]].
    + exists (s ++ [opening b]). split; [reflexivity |].
      split; [| now rewrite last_last].
      constructor; auto. constructor.
    + exists s'. split; [reflexivity |].
      split; [| now rewrite last_last].
      now apply Unclosed_close.
Qed.

End BracesWords.

(** X14. A braces matcher accepts the well-nested words. For a matcher
    that the constructor accepted, with no closing brace that is an opening
    brace as well: feeding the characters of a word to [next] returns every
    time and leaves the stack [s] exactly when the word is well nested but
    for the opening braces [s] that it leaves open; the calls return, the
    last one with depth 0, exactly when the word is well nested. On every
    other word a call throws. *)
Theorem braces_matcher_accepts_nested_words (braces : list Braces) (m : BracesMatcher.t)
  (w : list string) :
  BracesMatcher.constructor braces = Ok m ->
  closingApart braces ->
  (forall s, (exists m' depths, feedBraces m w = Ok (m', depths)
                                /\ BracesMatcher.stack m' = s
                                /\ last depths 0%nat = List.length s)
             <-> Unclosed braces s w)
  /\ ((exists m' depths, feedBraces m w = Ok (m', depths) /\ last depths 0%nat = 0%nat)
      <-> Balanced braces w).
Proof.
  intros Hc Hapart. unfold BracesMatcher.constructor in Hc.
  destruct (constructorLoop_maps braces [] [] [] m Hc) as (Hs & Ho & Hcl & Hone).
  { intros k Hk. now contradiction Hk. }
  assert (Ho' : forall k c, recGet (BracesMatcher.openingToClosing m) k = Some c
                            <-> exists b, In b braces /\ opening b = k /\ closing b = c).
  { intros k c. rewrite Ho. split; [intros [? | ?]; [discriminate | assumption] | now right]. }
  assert (Hcl' : forall k, BracesMatcher.has (BracesMatcher.closingToOpening m) k = true
                           <-> exists b, In b braces /\ closing b = k).
  { intros k. rewrite Hcl. split; [intros [? | ?]; [discriminate | assumption] | now right]. }
  assert (Hm : m = withStack m []).
  { destruct m as [a b s]. simpl in Hs. subst s. reflexivity. }
  split.
  - intros s. split.
    + intros (m' & depths & Hf & Hst & _). rewrite Hm in Hf.
      destruct (feedBraces_returns braces m Ho' w m' depths Hf) as (s' & -> & Hu & _).
      simpl in Hst. now subst s'.
    + intros Hu.
      destruct (feedBraces_unclosed braces m Ho' Hcl' Hone Hapart s w Hu) as (depths & Hf & Hl).
      rewrite <- Hm in Hf. exists (withStack m s), depths. auto.
  - split.
    + intros (m' & depths & Hf & Hl). rewrite Hm in Hf.
      destruct (feedBraces_returns braces m Ho' w m' depths Hf) as (s' & -> & Hu & Hl').
      rewrite Hl in Hl'. destruct s' as [| x s']; [| discriminate].
      inversion Hu as [w0 Hw E1 E2 | s0 w0 b0 v Hu0 Hin0 Hv E1 E2]; [exact Hw |].
      destruct s0; discriminate.
    + intros Hb.
      destruct (feedBraces_balanced braces m Ho' Hcl' Hone Hapart w Hb []) as (depths & Hf & Hl).
      rewrite <- Hm in Hf. exists m, depths. rewrite Hm at 1. rewrite <- Hm. auto.
Qed.

(** The braces of the Python parser, and the word of a parenthesis around
    a pair of brackets. *)
Lemma braces_matcher_accepts_nested_words_witness :
  closingApart PythonParser.braces
  /\ exists m, BracesMatcher.constructor PythonParser.braces = Ok m
               /\ ((exists m' depths, feedBraces m ["("; "["; "]"; ")"] = Ok (m', depths)
                                      /\ last depths 0%nat = 0%nat)
                   <-> Balanced PythonParser.braces ["("; "["; "]"; ")"]).
Proof.
  assert (Hapart : closingApart PythonParser.braces).
  { intros b b' [<- | [<- | [<- | []]]] [<- | [<- | [<- | []]]]; discriminate. }
  split; [exact Hapart |].
  eexists. split; [reflexivity |].
  apply (braces_matcher_accepts_nested_words PythonParser.braces _ ["("; "["; "]"; ")"]);
    [reflexivity | exact Hapart].
Defined.

(* ================================================================== *)
(** ** The classes of the tree, step by step *)

Section KindsSteps.
Local Open Scope nat_scope.

Lemma childAllowed_level (a b : Tag) : childAllowed a b = true -> level a < level b.
Proof.
  destruct a, b; simpl; intros H; try discriminate; try lia;
    destruct isMultiLine; try discriminate; lia.
Qed.

Lemma kindsOk_same (st st' : Store) :
  (forall id, childrenOf st' id = childrenOf st id) ->
  (forall id, tagOf st' id = tagOf st id) ->
  (forall id, parentOf st' id = parentOf st id) ->
  kindsOk st -> kindsOk st'.
Proof.
  intros Hc Ht Hp [H1 H2]. split.
  - intros g x Hx. rewrite Hc in Hx. rewrite !Ht. now apply H1.
  - intros x g Hx. rewrite Hp in Hx. rewrite Hc. now apply H2.
Qed.

Lemma kindsOk_sameView (st st' : Store) :
  sameView st st' -> kindsOk st -> kindsOk st'.
Proof.
  intros [Hl Hv]. apply kindsOk_same; intros id; apply (Hv id).
Qed.

(** [this.addChild(node)] for a node of a class that [this] may have. *)
Lemma kindsOk_Added (st st' : Store) (this node : NodeId) (tg tx : Tag) :
  kindsOk st -> Added st this node st' ->
  tagOf st this = Some tg -> tagOf st node = Some tx -> childAllowed tg tx = true ->
  kindsOk st'.
Proof.
  intros [H1 H2] Ha Tg Tx Hal. split.
  - intros g x Hx. rewrite !(Added_tagOf _ _ _ _ _ Ha).
    destruct (Nat.eq_dec g this) as [-> | Hne].
    + rewrite (Added_childrenOf_this _ _ _ _ Ha) in Hx.
      apply in_app_iff in Hx. destruct Hx as [Hx | [<- | []]]; [now apply H1 |].
      exists tg, tx. auto.
    + rewrite (Added_childrenOf_other _ _ _ _ _ Ha) in Hx by assumption. now apply H1.
  - intros x g Hx. rewrite (Added_parentOf _ _ _ _ _ Ha) in Hx.
    destruct (Nat.eqb_spec x node) as [-> | Hne].
    + injection Hx as <-. rewrite (Added_childrenOf_this _ _ _ _ Ha).
      apply in_app_iff. right. now left.
    + destruct (Nat.eq_dec g this) as [-> | Hg].
      * rewrite (Added_childrenOf_this _ _ _ _ Ha). apply in_app_iff. left. now apply H2.
      * rewrite (Added_childrenOf_other _ _ _ _ _ Ha) by assumption. now apply H2.
Qed.

(** A store that shows what [st] shows of its nodes, and new nodes without
    children and without a parent. *)
Lemma kindsOk_extends (st st' : Store) :
  linked st -> extendsView st st' ->
  (forall id, List.length st <= id -> childrenOf st' id = []) ->
  (forall id, List.length st <= id -> parentOf st' id = None) ->
  kindsOk st -> kindsOk st'.
Proof.
  intros Hl [Hlen Hv] Hnew Hpar [H1 H2]. split.
  - intros g x Hx. destruct (Nat.lt_ge_cases g (List.length st)) as [Hg | Hg].
    + destruct (Hv g Hg) as (Tg & _ & _ & _ & C1). rewrite C1 in Hx.
      pose proof (linked_bound _ _ _ Hl Hx) as Bx.
      destruct (Hv x Bx) as (Tx & _). rewrite Tg, Tx. now apply H1.
    + rewrite (Hnew g Hg) in Hx. contradiction.
  - intros x g Hx. destruct (Nat.lt_ge_cases x (List.length st)) as [Bx | Bx].
    + destruct (Hv x Bx) as (_ & _ & P & _). rewrite P in Hx.
      pose proof (H2 _ _ Hx) as Hin.
      destruct (H1 _ _ Hin) as (tg & _ & Tg & _).
      destruct (Hv g (tagOf_Some _ _ _ Tg)) as (_ & _ & _ & _ & C). now rewrite C.
    + rewrite (Hpar x Bx) in Hx. discriminate.
Qed.

Lemma kindsOk_Allocated (st st' : Store) (t : Tag) (r : Range) :
  linked st -> Allocated st t r st' -> kindsOk st -> kindsOk st'.
Proof.
  intros Hl Ha. apply kindsOk_extends; [exact Hl | | |].
  - eapply Allocated_extendsView; eauto.
  - intros id Hid. eapply Allocated_children_new; eauto.
  - intros id Hid. destruct Ha as [Hlen Hv]. destruct (Hv id) as (_ & _ & P & _).
    rewrite P. destruct (id =? List.length st) eqn:E; [reflexivity |].
    unfold parentOf. assert (N : nth_error st id = None) by (apply nth_error_None; lia).
    now rewrite N.
Qed.

End KindsSteps.

(* ================================================================== *)
(** ** The loop that adds the nodes keeps the classes *)

Section KindsLoop.
Local Open Scope nat_scope.
Variable cb : bool.
Variable nt : NonTerminal.
Variable X : NodeId.
Variable st1 : Store.
Variable L0 : nat.
Variable check checkFirst : bool.
Hypothesis HL0 : L0 <= List.length st1.
Hypothesis HX : X < L0.
Hypothesis Hfresh : forall id, L0 <= id < List.length st1 -> tagOf st1 id <> Some FunctionGroupsT.
Hypothesis HXtag : tagOf st1 X <> Some FunctionGroupsT.
Hypothesis Hcheck : check = true -> cb = true.
Hypothesis HcheckFirst : checkFirst = true -> cb = false /\ inFunction nt = true.
Hypothesis HXkind : tagOf st1 X = Some (ntTag nt).
Hypothesis Hkinds : forall y, L0 <= y < List.length st1 ->
                      exists t, tagOf st1 y = Some t /\ attachAllowed nt t = true.

Let inv := attachInv cb nt X st1 L0 check.

(** One of the five steps. *)
Lemma kinds_step (st st' : Store) (dg dg' : option NodeId) (first : bool) (x : NodeId)
  (rem : list (option NodeId)) :
  inv st dg first (Some x :: rem) ->
  AttachStep X check checkFirst x st dg first st' dg' ->
  kindsOk st -> kindsOk st'.
Proof.
  intros (I1 & I2 & I3 & I4) Hstep Hn.
  pose proof I1 as (Hl & Hlen & Hold & _).
  assert (HtX : tagOf st X = Some (ntTag nt)).
  { destruct (Hold X ltac:(lia)) as [-> _]. exact HXkind. }
  assert (Hpend : forall y, In y (somes (Some x :: rem) ++ dlist dg) ->
            exists t, tagOf st y = Some t /\ attachAllowed nt t = true).
  { intros y Hy. destruct (core_pending_orphan cb nt X st1 L0 _ _ _ y I1 Hy) as [_ By].
    destruct (Hold y ltac:(lia)) as [-> _]. now apply Hkinds. }
  destruct (Hpend x) as (tx & Tx & Ax); [apply in_app_iff; left; now left |].
  assert (Hflush : forall sta dga, Flushed check X st dg sta dga ->
            kindsOk sta /\ (forall id, tagOf sta id = tagOf st id)
            /\ (check = false -> sta = st)).
  { intros sta dga Hf.
    inversion Hf as [s0 d s1 Hc Ha E1 E2 E3 E4 | s0 dg0 Hk E1 E2 E3 E4].
    - subst dg. destruct (Hpend d) as (td & Td & Ad); [apply in_app_iff; right; now left |].
      destruct (I3 d eq_refl) as (_ & Tc & _).
      assert (td = CommentsT true) by congruence. subst td.
      split; [eapply kindsOk_Added; eauto |].
      split; [intros id; eapply Added_tagOf; eauto |]. intros Hc'. congruence.
    - subst sta. auto. }
  inversion Hstep as
    [ sta dga T1 C1 F1 E1 E2
    | sta dga g stb T1 C1 C2 C3 F1 P1 A1 E1 E2
    | t sta dga stb T1 T2 T3 F1 A1 E1 E2
    | d r sta stb stc std T1 C1 D0 M1 A1 A2 A3 A4 E1 E2
    | sta stb stc T1 C1 A1 A2 A3 E1 E2 ]; clear Hstep.
  - now destruct (Hflush _ _ F1).
  - destruct (Hflush _ _ F1) as (_ & _ & F6). specialize (F6 C1). subst sta.
    destruct (HcheckFirst C2) as [Hcb Hin].
    destruct (I4 C3 Hin Hcb) as (_ & g' & G1 & G2 & G3).
    assert (g' = g) by congruence. subst g'.
    eapply (kindsOk_Added _ _ _ _ FunctionGroupsT (CommentsT true));
      [exact Hn | exact A1 | exact G2 | exact T1 | reflexivity].
  - destruct (Hflush _ _ F1) as (F2 & F4 & _).
    assert (tx = t) by congruence. subst tx.
    eapply kindsOk_Added; [exact F2 | exact A1 | | |].
    + rewrite F4. exact HtX.
    + rewrite F4. exact T1.
    + destruct t; try exact Ax. contradiction.
  - subst dg. set (g := List.length st) in *.
    assert (tx = FunctionsT) by congruence. subst tx.
    destruct (Allocated_new _ _ _ _ A1) as (N1 & _). fold g in N1.
    assert (Bd : d < g).
    { destruct (core_pending_orphan cb nt X st1 L0 _ _ _ d I1) as [_ By];
        [apply in_app_iff; right; now left | unfold g; lia]. }
    assert (Bx : x < g).
    { destruct (core_pending_orphan cb nt X st1 L0 _ _ _ x I1) as [_ By];
        [apply in_app_iff; left; now left | unfold g; lia]. }
    assert (Ta : forall id, id <> g -> tagOf sta id = tagOf st id).
    { intros id Hid. now apply (Allocated_old _ _ _ _ _ A1). }
    destruct (I3 d eq_refl) as (_ & Tc & _).
    pose proof (kindsOk_Allocated _ _ _ _ Hl A1 Hn) as Na.
    assert (Nb : kindsOk stb).
    { eapply (kindsOk_Added _ _ _ _ FunctionGroupsT (CommentsT true));
        [exact Na | exact A2 | exact N1 | | reflexivity].
      rewrite Ta by lia. exact Tc. }
    assert (Nc : kindsOk stc).
    { eapply (kindsOk_Added _ _ _ _ FunctionGroupsT FunctionsT);
        [exact Nb | exact A3 | | | reflexivity].
      - rewrite (Added_tagOf _ _ _ _ _ A2). exact N1.
      - rewrite (Added_tagOf _ _ _ _ _ A2), Ta by lia. exact T1. }
    eapply kindsOk_Added; [exact Nc | exact A4 | | | exact Ax].
    + rewrite (Added_tagOf _ _ _ _ _ A3), (Added_tagOf _ _ _ _ _ A2), Ta by (unfold g; lia).
      exact HtX.
    + rewrite (Added_tagOf _ _ _ _ _ A3), (Added_tagOf _ _ _ _ _ A2). exact N1.
  - set (g := List.length st) in *.
    assert (tx = FunctionsT) by congruence. subst tx.
    destruct (Allocated_new _ _ _ _ A1) as (N1 & _). fold g in N1.
    assert (Bx : x < g).
    { destruct (core_pending_orphan cb nt X st1 L0 _ _ _ x I1) as [_ By];
        [apply in_app_iff; left; now left | unfold g; lia]. }
    assert (Ta : forall id, id <> g -> tagOf sta id = tagOf st id).
    { intros id Hid. now apply (Allocated_old _ _ _ _ _ A1). }
    pose proof (kindsOk_Allocated _ _ _ _ Hl A1 Hn) as Na.
    assert (Nb : kindsOk stb).
    { eapply (kindsOk_Added _ _ _ _ FunctionGroupsT FunctionsT);
        [exact Na | exact A2 | exact N1 | | reflexivity].
      rewrite Ta by lia. exact T1. }
    eapply kindsOk_Added; [exact Nb | exact A3 | | | exact Ax].
    + rewrite (Added_tagOf _ _ _ _ _ A2), Ta by (unfold g; lia). exact HtX.
    + rewrite (Added_tagOf _ _ _ _ _ A2). exact N1.
Qed.

(** The whole loop. *)
Lemma attachLoop_kinds (state : list Symbol) :
  forall (childNodes : list (option NodeId)) (a a' : AbstractParser.AttachState),
    Forall2 (fun sym ani => symTag sym = None -> ani = None) state childNodes ->
    AbstractParser.attachLoop nt X check checkFirst state childNodes a = Ok a' ->
    inv (AbstractParser.atStore a) (AbstractParser.danglingMultilineComment a)
        (AbstractParser.isFirst a) childNodes ->
    kindsOk (AbstractParser.atStore a) ->
    inv (AbstractParser.atStore a') (AbstractParser.danglingMultilineComment a')
        (AbstractParser.isFirst a') []
    /\ kindsOk (AbstractParser.atStore a').
Proof.
  induction state as [| sym state IH]; intros childNodes a a' Hrel H Hinv Hn.
  - inversion Hrel; subst childNodes. simpl in H. injection H as <-. auto.
  - inversion Hrel as [| s0 ani st0 rem Hsym Hrest]; subst childNodes. clear Hrel.
    cbn [AbstractParser.attachLoop] in H.
    destruct (AbstractParser.attachOne nt X check checkFirst sym ani a) as [a1 |] eqn:E1;
      [| discriminate].
    cbn [bind] in H.
    destruct (attachOne_spec _ _ _ _ _ _ _ _ E1)
      as [(V1 & V2 & V3 & V4) | (x & stf & -> & V1 & V2 & V3)].
    + assert (Hnone : ani = None) by (destruct V4; auto). subst ani.
      apply (IH _ _ _ Hrest H); [| eapply kindsOk_sameView; eauto].
      apply inv_skip in Hinv. rewrite V2.
      pose proof (inv_sameView _ _ _ _ _ _ _ _ _ _ _ Hinv V1) as Hinv1.
      destruct V3 as [-> | ->]; [exact Hinv1 | eapply inv_first; eauto].
    + pose proof (inv_sameView _ _ _ _ _ _ _ _ _ _ _ Hinv V1) as Hinv1.
      apply (IH _ _ _ Hrest H).
      * rewrite V2.
        exact (inv_step cb nt X st1 L0 check checkFirst HL0 HX Hfresh HXtag Hcheck HcheckFirst
                 _ _ _ _ _ _ _ Hinv1 V3).
      * eapply kinds_step; [exact Hinv1 | exact V3 |]. eapply kindsOk_sameView; eauto.
Qed.

(** The comment that is still held back when the loop ends. *)
Lemma attach_end_kinds (st st' : Store) (dg : option NodeId) (first : bool) :
  inv st dg first [] ->
  kindsOk st ->
  match dg with Some d => Added st X d st' | None => st' = st end ->
  kindsOk st'.
Proof.
  intros (I1 & _ & I3 & _) Hn H. destruct dg as [d |]; [| subst st'; exact Hn].
  pose proof I1 as (_ & _ & Hold & _).
  destruct (core_pending_orphan cb nt X st1 L0 _ _ _ d I1) as [_ Bd]; [now left |].
  destruct (I3 d eq_refl) as (_ & Tc & _).
  destruct (Hkinds d Bd) as (td & Td & Ad).
  assert (Td' : tagOf st d = Some td) by (destruct (Hold d ltac:(lia)) as [-> _]; exact Td).
  assert (td = CommentsT true) by congruence. subst td.
  eapply kindsOk_Added; [exact Hn | exact H | | exact Tc | exact Ad].
  destruct (Hold X ltac:(lia)) as [-> _]. exact HXkind.
Qed.

End KindsLoop.

(* ================================================================== *)
(** ** The recursion keeps the classes *)

Section KindsFacts.
Local Open Scope nat_scope.

Lemma symTag_ntTag (n : NonTerminal) (t : Tag) : symTag (NT n) = Some t -> t = ntTag n.
Proof. destruct n; simpl; intros H; inv H; reflexivity. Qed.

(** The symbols that the validation lets through give nodes of the
    classes that the node parsed into may have. *)
Lemma validate_kinds (nt : NonTerminal) (state : list Symbol) :
  AbstractParser.validateParsingState nt state = Ok tt ->
  nt <> FUNCTIONS ->
  Forall (fun s => forall t, symTag s = Some t -> attachAllowed nt t = true) state.
Proof.
  intros H Hnt. destruct nt; try contradiction; simpl in H.
  - unfold AbstractParser.validateParsingStateTopLevel in H.
    destruct (forallb _ state) eqn:E; [| discriminate].
    rewrite forallb_forall in E. apply Forall_forall. intros s Hs t Ht.
    specialize (E s Hs). destruct s as [[] | []]; simpl in *; inv Ht; try reflexivity;
      discriminate.
  - unfold AbstractParser.validateParsingStateClasses in H.
    destruct (forallb _ state) eqn:E; [| discriminate].
    rewrite forallb_forall in E. apply Forall_forall. intros s Hs t Ht.
    specialize (E s Hs). destruct s as [[] | []]; simpl in *; inv Ht; try reflexivity;
      discriminate.
  - induction state as [| s state IH]; [constructor |].
    simpl in H.
    destruct (Symbol_eqb s (T STATEMENTS_FILLER)); [discriminate |].
    match type of H with (if ?c then _ else _) = _ => destruct c eqn:E; [discriminate |] end.
    constructor; [| now apply IH].
    intros t Ht. destruct s as [[] | []]; simpl in *; inv Ht; try reflexivity; discriminate.
  - unfold AbstractParser.validateParsingStateFunctionBody in H.
    destruct (forallb _ state) eqn:E; [| discriminate].
    rewrite forallb_forall in E. apply Forall_forall. intros s Hs t Ht.
    specialize (E s Hs). destruct s as [[] | []]; simpl in *; inv Ht; try reflexivity;
      discriminate.
Qed.

(** The first symbol of a function that is no filler is its declaration. *)
Lemma validate_functions_first (state : list Symbol) (fi la : Z) :
  AbstractParser.validateParsingState FUNCTIONS state = Ok tt ->
  AbstractParser.getFirstLast state = (fi, la) ->
  Js.nthZ state fi = Some (NT FUNCTION_DECLARATION).
Proof.
  simpl. unfold AbstractParser.validateParsingStateFunctions. intros H E.
  destruct (List.length state <? 2); [discriminate |].
  rewrite E in H.
  destruct (fi =? -1)%Z; [discriminate |].
  destruct (Js.nthZ state fi) as [[t | []] |] eqn:E1; try discriminate.
  reflexivity.
Qed.

Lemma Resolved_nth_tag (p : ParserBase) (st1 : Store) (state : list Symbol)
  (ranges : list TokenRange) (nodes : list (option NodeId)) :
  Resolved p st1 state ranges nodes ->
  forall (i : nat) (x : NodeId),
    nth_error nodes i = Some (Some x) ->
    exists sym t, nth_error state i = Some sym /\ symTag sym = Some t
                  /\ tagOf st1 x = Some t.
Proof.
  intros H. induction H; intros i y Hi.
  - destruct i; discriminate.
  - destruct i as [| i]; simpl in Hi; [discriminate |]. simpl. eauto.
  - destruct i as [| i]; simpl in Hi.
    + inv Hi. simpl. eauto.
    + simpl. eauto.
Qed.

End KindsFacts.

Section RecurseKinds.
Local Open Scope nat_scope.
Variable L : Language.
Let cb := isCommentBeforeFunction L.
Variable nt : NonTerminal.
Variable X : NodeId.
Variable st1 : Store.
Variable L0 : nat.
Hypothesis HL0 : L0 <= List.length st1.
Hypothesis HX : X < L0.
Hypothesis Hfresh : forall id, L0 <= id < List.length st1 -> tagOf st1 id <> Some FunctionGroupsT.
Variable p : ParserBase.
Variable rec : NonTerminal -> NodeId -> TokenRange -> Z -> AbstractParser.PState L
               -> result (AbstractParser.PState L).
Hypothesis Hrec : keepsShape L rec.
Hypothesis Hkeeps : keepsKinds L rec.

Lemma recurseChildren_kinds (depth : Z) (state : list Symbol) (symRanges : list TokenRange)
  (nodes : list (option NodeId)) :
  Resolved p st1 state symRanges nodes ->
  forall (ntRanges : list (option TokenRange)) (ps ps' : AbstractParser.PState L),
    Forall (ntAllowed nt) state ->
    NoDup (somes nodes) ->
    AbstractParser.recurseChildren L rec X depth state nodes ntRanges ps = Ok ps' ->
    recInv cb nt X st1 L0 (AbstractParser.psStore L ps) (somes nodes) ->
    kindsOk (AbstractParser.psStore L ps) ->
    kindsOk (AbstractParser.psStore L ps').
Proof.
  intros Hres.
  induction Hres as [| sym r rng state ranges nodes Hsym Hspan Hres IH
                     | sym r rng t x state ranges nodes Hsym Hspan R1 R2 R3 R4 R5 Hres IH];
    intros ntRanges ps ps' Hok Hnd H Hinv Hn.
  - simpl in H. injection H as <-. exact Hn.
  - inversion Hok as [| s1 st2 Hs Hoks]; subst. clear Hok.
    cbn [AbstractParser.recurseChildren] in H.
    destruct ntRanges as [| q ntRanges]; [injection H as <-; exact Hn |].
    destruct sym as [t | n].
    + eapply IH; eauto.
    + exfalso. destruct nt, n; simpl in Hs, Hsym; try contradiction;
        try (destruct Hs; discriminate); discriminate.
  - inversion Hok as [| s1 st2 Hs Hoks]; subst. clear Hok.
    cbn [AbstractParser.recurseChildren] in H.
    destruct ntRanges as [| q ntRanges]; [injection H as <-; exact Hn |].
    rewrite somes_cons_some in Hinv, Hnd.
    assert (Hnd' : NoDup (somes nodes)) by now inversion Hnd.
    destruct sym as [t0 | n].
    + eapply IH; eauto. eapply recInv_drop; exact Hinv.
    + assert (Hfun : inFunction n = true -> t = FunctionsT).
      { destruct nt, n; simpl in Hs, Hsym; try contradiction;
          try (destruct Hs; discriminate); try discriminate;
          intros; congruence. }
      destruct q as [q |]; [| discriminate].
      destruct (rec n x q (depth + 1)%Z ps) as [ps1 |] eqn:E; [| discriminate].
      cbn [bind] in H.
      pose proof Hinv as (Q1 & Q2 & Q3 & Q4 & Q5).
      destruct (Q5 x ltac:(now left)) as (X1 & X2 & X3).
      destruct (Q3 x ltac:(lia)) as [Htx Hrx].
      assert (Hpre : shapePre cb n x (AbstractParser.psStore L ps)).
      { split; [lia |]. split.
        - rewrite Htx. now apply Hfresh.
        - intros Hin Hcb. rewrite <- Htx in R1.
          specialize (Hfun Hin). subst t.
          destruct (X3 R1 Hcb) as (g & G1 & G2 & G3 & G4).
          split; [exact R1 |]. exists g. auto. }
      assert (Hkind : tagOf (AbstractParser.psStore L ps) x = Some (ntTag n)).
      { rewrite Htx, R1. f_equal. now apply symTag_ntTag. }
      destruct (Hrec _ _ _ _ _ _ E Q1 Hpre) as [S1 S2].
      pose proof (Hkeeps _ _ _ _ _ _ E Q1 Hpre Hn Hkind) as Hn1.
      eapply (IH _ _ _ Hoks Hnd' H); [| exact Hn1].
      eapply (recInv_step L nt X st1 L0); [.. | exact Hinv | | | exact S1 | exact S2]; eauto.
      * now inversion Hnd.
      * intros Hin. rewrite R1. f_equal. auto.
Qed.

End RecurseKinds.

(* ================================================================== *)
(** ** [parseNonTerminal] keeps the classes *)

Section ParseKinds.
Local Open Scope nat_scope.
Variable L : Language.
Hypothesis HF : FactoriesOk L.
Let cb := isCommentBeforeFunction L.
Variable p : ParserBase.

Lemma Resolved_In_sym (st1 : Store) (state : list Symbol) (ranges : list TokenRange)
  (nodes : list (option NodeId)) (x : NodeId) :
  Resolved p st1 state ranges nodes ->
  In x (somes nodes) ->
  exists sym t, In sym state /\ symTag sym = Some t /\ tagOf st1 x = Some t.
Proof.
  intros Hres Hx. apply In_somes in Hx. apply In_nth_error in Hx. destruct Hx as [i Hi].
  destruct (Resolved_nth_tag p _ _ _ _ Hres _ _ Hi) as (sym & t & H1 & H2 & H3).
  exists sym, t. split; [eapply nth_error_In; eauto | auto].
Qed.

Lemma parseNonTerminal_kinds (fuel : nat) :
  keepsKinds L (AbstractParser.parseNonTerminal L fuel p).
Proof.
  induction fuel as [| fuel IH]; intros nt X tokRange depth ps ps' H Hinv Hpre Hn HXk;
    [discriminate |].
  pose proof (parseNonTerminal_shape L HF p fuel) as Hshape.
  fold cb in Hinv, Hpre |- *.
  rewrite parseNonTerminal_S in H.
  destruct (AbstractParser.detectSymbols L p nt tokRange depth (AbstractParser.psDet L ps))
    as [[acc det] |] eqn:Edet; [| discriminate].
  cbn [bind] in H.
  destruct (detectSymbols_spec _ _ _ _ _ _ _ _ Edet) as [(A1 & A2 & A3) Hvalid].
  clear Edet.
  set (st0 := AbstractParser.psStore L ps) in *.
  destruct (AbstractParser.resolveAll L p (AbstractParser.state acc)
              (AbstractParser.symbolRange acc) (AbstractParser.nodeCreationInformationArr acc)
              st0) as [[st1 nodes] |] eqn:Eres; [| discriminate].
  cbn [bind] in H.
  destruct (resolveAll_spec L HF _ _ _ _ _ _ _ A1 A3 Eres) as (Hext & Hseq & Hres).
  clear Eres.
  destruct Hpre as (HX & HXtag & Hlift).
  assert (Hl01 : List.length st0 <= List.length st1) by apply Hext.
  assert (Hin_fresh : forall x, In x (somes nodes) <-> List.length st0 <= x < List.length st1).
  { intros x. rewrite Hseq, in_seq. lia. }
  assert (Hnew : forall id, List.length st0 <= id < List.length st1 ->
             tagOf st1 id <> Some FunctionGroupsT /\ parentOf st1 id = None
             /\ childrenOf st1 id = []).
  { intros id Hid. apply Hin_fresh in Hid.
    destruct (Resolved_In _ _ _ _ _ _ Hres Hid) as (sym & t & S1 & S2 & S3 & S4 & S5).
    split; [| auto]. rewrite S2, <- S1. apply symTag_not_group. }
  assert (Hfresh : forall id, List.length st0 <= id < List.length st1 ->
             tagOf st1 id <> Some FunctionGroupsT) by (intros; now apply Hnew).
  assert (Hinv1 : shapeInv cb st1).
  { eapply shapeInv_resolved; eauto. intros id Hid.
    destruct (Hnew id Hid) as (N1 & N2 & N3). auto. }
  assert (Hnil1 : forall id, List.length st0 <= id -> childrenOf st1 id = []).
  { intros id Hid. destruct (Nat.lt_ge_cases id (List.length st1)) as [Hlt | Hge].
    - now apply Hnew.
    - unfold childrenOf.
      assert (N : nth_error st1 id = None) by (apply nth_error_None; lia).
      now rewrite N. }
  assert (Hpar1 : forall id, List.length st0 <= id -> parentOf st1 id = None).
  { intros id Hid. destruct (Nat.lt_ge_cases id (List.length st1)) as [Hlt | Hge].
    - now apply Hnew.
    - unfold parentOf.
      assert (N : nth_error st1 id = None) by (apply nth_error_None; lia).
      now rewrite N. }
  assert (Hn1 : kindsOk st1).
  { eapply kindsOk_extends; [apply Hinv | exact Hext | exact Hnil1 | exact Hpar1 | exact Hn]. }
  destruct Hext as [_ Hv01].
  assert (HXtag1 : tagOf st1 X <> Some FunctionGroupsT).
  { destruct (Hv01 X HX) as [-> _]. exact HXtag. }
  assert (HXk1 : tagOf st1 X = Some (ntTag nt)).
  { destruct (Hv01 X HX) as [-> _]. exact HXk. }
  assert (Hlift1 : inFunction nt = true -> cb = false -> liftable st1 X).
  { intros H1 H2. eapply liftable_kept; [exact (Hlift H1 H2) | lia | |].
    - intros id Hid. destruct (Hv01 id Hid) as (B1 & _ & B3 & _). auto.
    - intros g Hg. destruct (Hlift H1 H2) as (_ & g' & G1 & G2 & _).
      assert (g' = g) by congruence. subst g'.
      apply (Hv01 g). eapply tagOf_Some; eauto. }
  destruct (NonTerminal_eqb nt FUNCTIONS) eqn:Ent.
  - (* a function: its declaration and its body *)
    assert (nt = FUNCTIONS) by (destruct nt; try discriminate; reflexivity). subst nt.
    destruct (AbstractParser.getFirstLast (AbstractParser.state acc)) as [first last] eqn:Efl.
    pose proof (validate_functions_first _ _ _ Hvalid Efl) as Hfirst.
    destruct (Js.nthZ nodes first) as [[D |] |] eqn:ED; try discriminate.
    destruct (Js.nthZ (AbstractParser.ntParseRange acc) first) as [[declarationRange |] |]
      eqn:EDR; try discriminate.
    destruct (Js.nthZ (AbstractParser.ntParseRange acc) last) as [[bodyRange |] |] eqn:EB;
      try discriminate.
    destruct (Heap.addChild st1 X D) as [st2 |] eqn:Eadd; [| discriminate].
    cbn [bind] in H. apply addChild_view in Eadd.
    destruct (AbstractParser.parseNonTerminal L fuel p FUNCTION_DECLARATION D declarationRange
                (depth + 1)%Z (AbstractParser.mkPState L st2 det)) as [ps3 |] eqn:Edecl;
      [| discriminate].
    cbn [bind] in H.
    assert (HD : List.length st0 <= D < List.length st1).
    { apply Hin_fresh. apply In_somes. eapply nthZ_In; eauto. }
    destruct (Hnew D HD) as (D1 & D2 & D3).
    unfold Js.nthZ in ED, Hfirst.
    destruct (first <? 0)%Z eqn:F1; [discriminate |].
    destruct (Resolved_nth_tag p _ _ _ _ Hres _ _ ED) as (sym & t & Rf1 & Rf2 & Rf3).
    assert (sym = NT FUNCTION_DECLARATION) by congruence. subst sym.
    simpl in Rf2. injection Rf2 as <-.
    assert (Hinv2 : shapeInv cb st2) by (eapply shapeInv_Added; eauto).
    assert (Hn2 : kindsOk st2).
    { eapply (kindsOk_Added _ _ _ _ FunctionsT FunctionDeclarationT);
        [exact Hn1 | exact Eadd | exact HXk1 | exact Rf3 | reflexivity]. }
    assert (Hlen2 : List.length st2 = List.length st1) by apply Eadd.
    assert (Hpre2 : shapePre cb FUNCTION_DECLARATION D st2).
    { split; [lia |]. split; [| discriminate].
      rewrite (Added_tagOf _ _ _ _ _ Eadd). exact D1. }
    assert (HDk : tagOf st2 D = Some (ntTag FUNCTION_DECLARATION)).
    { rewrite (Added_tagOf _ _ _ _ _ Eadd). exact Rf3. }
    destruct (Hshape _ _ _ _ _ _ Edecl Hinv2 Hpre2) as [Hinv3 [Hl3 Hf3]].
    pose proof (IH _ _ _ _ _ _ Edecl Hinv2 Hpre2 Hn2 HDk) as Hn3.
    cbn [AbstractParser.psStore] in Hinv3, Hl3, Hf3, Hn3.
    set (st3 := AbstractParser.psStore L ps3) in *. fold cb in Hinv3, Hf3.
    assert (Hold3 : forall id, id < List.length st0 ->
              tagOf st3 id = tagOf st0 id /\ rangeOf st3 id = rangeOf st0 id
              /\ parentOf st3 id = parentOf st0 id /\ rankOf st3 id = rankOf st0 id
              /\ (id <> X -> childrenOf st3 id = childrenOf st0 id)).
    { intros id Hid.
      destruct (Hf3 id ltac:(lia)) as (B1 & B2 & B3 & B4 & B5).
      destruct (Hv01 id Hid) as (C1 & C2 & C3 & C4 & C5).
      rewrite B1, B2, B3, B4.
      rewrite (Added_tagOf _ _ _ _ _ Eadd), (Added_rangeOf _ _ _ _ _ Eadd).
      rewrite (Added_parentOf_other _ _ _ _ _ Eadd), (Added_rankOf_other _ _ _ _ _ Eadd)
        by lia.
      repeat (split; [assumption |]).
      intros Hne. rewrite B5.
      - rewrite (Added_childrenOf_other _ _ _ _ _ Eadd) by assumption. exact C5.
      - intros [-> | (T1 & _)]; [lia | discriminate]. }
    assert (Hpre3 : shapePre cb FUNCTION_BODY X st3).
    { split; [lia |]. split.
      - destruct (Hold3 X HX) as [-> _]. exact HXtag.
      - intros _ Hcb. eapply liftable_kept; [exact (Hlift eq_refl Hcb) | lia | |].
        + intros id Hid. destruct (Hold3 id Hid) as (B1 & _ & B3 & _). auto.
        + intros g Hg. destruct (Hlift eq_refl Hcb) as (T1 & g' & G1 & G2 & _).
          assert (g' = g) by congruence. subst g'.
          apply Hold3; [eapply tagOf_Some; eauto |]. intros ->. congruence. }
    assert (HXk3 : tagOf st3 X = Some (ntTag FUNCTION_BODY)).
    { destruct (Hold3 X HX) as [-> _]. exact HXk. }
    exact (IH _ _ _ _ _ _ H Hinv3 Hpre3 Hn3 HXk3).
  - (* the other non-terminals: the nodes are added, then parsed into *)
    assert (Hnt : nt <> FUNCTIONS) by (intros ->; discriminate).
    pose proof (validate_allowed _ _ Hvalid Hnt) as Hallowed.
    pose proof (validate_kinds _ _ Hvalid Hnt) as Hvk.
    destruct (AbstractParser.attachChildren L nt X (AbstractParser.state acc) nodes st1)
      as [st2 |] eqn:Eatt; [| discriminate].
    cbn [bind] in H.
    unfold AbstractParser.attachChildren in Eatt.
    match type of Eatt with
    | bind (AbstractParser.attachLoop _ _ ?c1 ?c2 _ _ _) _ = _ =>
        set (check := c1) in *; set (checkFirst := c2) in *
    end.
    destruct (AbstractParser.attachLoop nt X check checkFirst (AbstractParser.state acc) nodes
                (AbstractParser.mkAttachState st1 None true)) as [a |] eqn:Eloop;
      [| discriminate].
    cbn [bind] in Eatt.
    assert (Hcheck : check = true -> cb = true).
    { unfold check. fold cb. intros E. apply andb_true_iff in E. apply E. }
    assert (HcheckFirst : checkFirst = true -> cb = false /\ inFunction nt = true).
    { unfold checkFirst. fold cb. intros E. apply andb_true_iff in E. destruct E as [E1 E2].
      apply negb_true_iff in E1. split; [exact E1 |].
      destruct nt; try discriminate; reflexivity. }
    assert (Hstart : attachInv cb nt X st1 (List.length st0) check st1 None true nodes).
    { split; [| split; [| split]].
      - rewrite app_nil_r. unfold coreInv.
        split; [apply Hinv1 |]. split; [lia |]. split; [auto |]. split; [auto |].
        split; [intros id Hid; now apply Hnew |]. split; [| split].
        + intros x Hx. apply Hin_fresh in Hx. split; [exact Hx | now apply Hnew].
        + intros y Hy Hn'. exfalso. apply Hn'. now apply Hin_fresh.
        + intros g Hg _. now apply Hinv1.
      - rewrite Hseq. apply seq_NoDup.
      - discriminate.
      - intros _. exact Hlift1. }
    assert (Hkinds : forall y, List.length st0 <= y < List.length st1 ->
              exists t, tagOf st1 y = Some t /\ attachAllowed nt t = true).
    { intros y Hy. apply Hin_fresh in Hy.
      destruct (Resolved_In_sym _ _ _ _ _ Hres Hy) as (sym & t & Q1 & Q2 & Q3).
      exists t. split; [exact Q3 |].
      rewrite Forall_forall in Hvk. exact (Hvk sym Q1 t Q2). }
    destruct (attachLoop_kinds cb nt X st1 (List.length st0) check checkFirst
                Hl01 HX Hfresh HXtag1 Hcheck HcheckFirst HXk1 Hkinds _ _ _ _
                (Resolved_symTag_none _ _ _ _ _ Hres) Eloop Hstart Hn1) as [Hend Hnend].
    assert (Hadd : match AbstractParser.danglingMultilineComment a with
                   | Some d => Added (AbstractParser.atStore a) X d st2
                   | None => st2 = AbstractParser.atStore a
                   end).
    { destruct (AbstractParser.danglingMultilineComment a) as [d |].
      - now apply addChild_view.
      - now inv Eatt. }
    assert (Hcore : coreInv cb nt X st1 (List.length st0) st2 [] None).
    { eapply (attach_end cb nt X st1 (List.length st0) check); [.. | exact Hend | exact Hadd];
        eauto. }
    pose proof (attach_end_kinds cb nt X st1 (List.length st0) check Hl01 HX HXk1 Hkinds
                  _ _ _ _ Hend Hnend Hadd) as Hn2.
    clear Eatt Eloop Hend Hstart Hnend Hadd.
    assert (Hrec0 : recInv cb nt X st1 (List.length st0) st2 (somes nodes)).
    { apply coreInv_recInv; [exact Hcore |]. intros y Hy. now apply Hin_fresh. }
    eapply (recurseChildren_kinds L nt X st1 (List.length st0) Hl01 HX Hfresh p
              _ Hshape IH);
      [exact Hres | exact Hallowed | | exact H | exact Hrec0 | exact Hn2].
    rewrite Hseq. apply seq_NoDup.
Qed.

End ParseKinds.

(* ================================================================== *)
(** ** The classes of a parsed tree *)

Section ParsedKinds.
Local Open Scope nat_scope.

Lemma parse_kinds (L : Language) (det : DetState L) (codeLines : list string)
  (tree : AbstractSyntaxTree.t) :
  FactoriesOk L ->
  AbstractParser.parse L det codeLines = Ok tree ->
  kindsOk (AbstractSyntaxTree.store tree).
Proof.
  intros HF H. unfold AbstractParser.parse in H.
  destruct (AbstractParser.isEmptyInput codeLines) eqn:Eempty; [discriminate |].
  destruct (AbstractParser.tokenizeLines L det codeLines) as [p |] eqn:Etok; [| discriminate].
  cbn [bind] in H.
  destruct (preparse L det codeLines (sourceTokens p)) as [det1 |]; [| discriminate].
  unfold Heap.alloc in H. cbn [bind] in H.
  match type of H with
  | bind ?m _ = _ => destruct m as [ps |] eqn:E; [| discriminate]
  end.
  cbn [bind] in H. injection H as <-. cbn [AbstractSyntaxTree.store].
  apply (parseNonTerminal_kinds L HF p _ _ _ _ _ _ _ E).
  - cbn [AbstractParser.psStore app]. split.
    + intros q i x Hx. destruct q as [| q]; [destruct i; discriminate |].
      destruct q; destruct i; discriminate.
    + intros g Hg. destruct g as [| g]; [discriminate |]. destruct g; discriminate.
  - cbn [AbstractParser.psStore app List.length]. split; [simpl; lia |].
    split; discriminate.
  - cbn [AbstractParser.psStore app]. split.
    + intros g x Hx. destruct g as [| g]; [contradiction |]. destruct g; contradiction.
    + intros x g Hx. destruct x as [| x]; [discriminate |]. destruct x; discriminate.
  - reflexivity.
Qed.

Lemma get_nth (st : Store) (id : NodeId) (n : SyntaxNode.t) :
  Heap.get st id = Ok n <-> nth_error st id = Some n.
Proof.
  unfold Heap.get. destruct (nth_error st id); split; intros H; congruence.
Qed.

Lemma kinds_tree (tree : AbstractSyntaxTree.t) :
  kindsOk (AbstractSyntaxTree.store tree) -> treeGrammar tree.
Proof.
  intros [H1 H2]. split.
  - intros p np x Hp Hx. apply get_nth in Hp.
    assert (Hin : In x (childrenOf (AbstractSyntaxTree.store tree) p))
      by (unfold childrenOf; now rewrite Hp).
    destruct (H1 _ _ Hin) as (tg & tx & Tg & Tx & Hal).
    unfold tagOf in Tg, Tx. rewrite Hp in Tg. injection Tg as <-.
    destruct (nth_error (AbstractSyntaxTree.store tree) x) as [nx |] eqn:Ex; [| discriminate].
    injection Tx as <-. exists nx. split; [now apply get_nth | exact Hal].
  - intros x nx p Hx Hp. apply get_nth in Hx.
    assert (Hpar : parentOf (AbstractSyntaxTree.store tree) x = Some p)
      by (unfold parentOf; now rewrite Hx).
    pose proof (H2 _ _ Hpar) as Hin. unfold childrenOf in Hin.
    destruct (nth_error (AbstractSyntaxTree.store tree) p) as [np |] eqn:Ep; [| contradiction].
    exists np. split; [now apply get_nth | exact Hin].
Qed.

End ParsedKinds.

(** X15. The classes of a parsed tree. After every successful parse (by a
    parser whose factories return fresh nodes of their class, as the Python
    and the TypeScript parser) the children of the top level are comments,
    references, classes and groups of functions; those of a class are
    comments, attributes and groups of functions; those of a group are
    functions and multi-line comments; those of a function are its
    declaration and comments; those of a declaration are comments and
    arguments; the other nodes have no children. Every node with a parent
    is among the children of that parent. *)
Theorem children_are_of_the_classes_of_the_grammar :
  (forall (L : Language) (det : DetState L) (codeLines : list string)
          (tree : AbstractSyntaxTree.t),
      FactoriesOk L ->
      AbstractParser.parse L det codeLines = Ok tree -> treeGrammar tree)
  /\ (forall (codeLines : list string) (tree : AbstractSyntaxTree.t),
         PythonParser.parse codeLines = Ok tree -> treeGrammar tree)
  /\ (forall (codeLines : list string) (tree : AbstractSyntaxTree.t),
         TypeScriptParser.parse codeLines = Ok tree -> treeGrammar tree).
Proof.
  assert (G : forall (L : Language) (det : DetState L) (codeLines : list string)
                     (tree : AbstractSyntaxTree.t),
             FactoriesOk L ->
             AbstractParser.parse L det codeLines = Ok tree -> treeGrammar tree).
  { intros L det codeLines tree HF H. apply kinds_tree. eapply parse_kinds; eauto. }
  split; [exact G |]. split.
  - intros codeLines tree H. apply python_parse_inv in H. destruct H as [det H].
    exact (G _ _ _ _ python_factories H).
  - intros codeLines tree H. apply typescript_parse_inv in H. destruct H as [det H].
    exact (G _ _ _ _ typescript_factories H).
Qed.

Lemma children_are_of_the_classes_of_the_grammar_witness :
  exists tree : AbstractSyntaxTree.t,
    PythonParser.parse pythonDocLines = Ok tree /\ treeGrammar tree.
Proof.
  eexists. split; [vm_compute; reflexivity |].
  apply (proj1 (proj2 children_are_of_the_classes_of_the_grammar) pythonDocLines).
  vm_compute. reflexivity.
Defined.

(* ================================================================== *)
(** ** The depth of the nodes *)

Section Depths.
Local Open Scope nat_scope.

Lemma level_le (t : Tag) : level t <= 5.
Proof. destruct t; simpl; lia. Qed.

(** The parent of a node is of a class further up. *)
Lemma parent_level (st : Store) (x g : NodeId) (t : Tag) :
  kindsOk st -> tagOf st x = Some t -> parentOf st x = Some g ->
  exists tg, tagOf st g = Some tg /\ level tg < level t.
Proof.
  intros [H1 H2] Tx Hp. destruct (H1 _ _ (H2 _ _ Hp)) as (tg & tx & Tg & Tx' & Hal).
  assert (tx = t) by congruence. subst tx.
  exists tg. split; [exact Tg | now apply childAllowed_level].
Qed.

Lemma getDepth_returns (st : Store) :
  kindsOk st ->
  forall (k : nat) (x : NodeId) (t : Tag),
    tagOf st x = Some t -> level t <= k ->
    exists d, d <= level t
              /\ forall fuel, level t < fuel -> Heap.getDepth fuel st x = Ok d.
Proof.
  intros Hk. induction k as [| k IH]; intros x t Tx Hlev.
  - destruct (parentOf st x) as [g |] eqn:Hp.
    + destruct (parent_level _ _ _ _ Hk Tx Hp) as (tg & _ & Hlt). lia.
    + exists 0. split; [lia |]. intros fuel Hf. destruct fuel as [| fuel]; [lia |].
      cbn [Heap.getDepth]. unfold tagOf, parentOf, Heap.get in *.
      destruct (nth_error st x) as [n |]; [| discriminate]. cbn [bind]. now rewrite Hp.
  - destruct (parentOf st x) as [g |] eqn:Hp.
    + destruct (parent_level _ _ _ _ Hk Tx Hp) as (tg & Tg & Hlt).
      destruct (IH g tg Tg ltac:(lia)) as (dg & Hdg & Hrun).
      exists (dg + 1). split; [lia |]. intros fuel Hf. destruct fuel as [| fuel]; [lia |].
      cbn [Heap.getDepth]. unfold tagOf, parentOf, Heap.get in Tx, Hp |- *.
      destruct (nth_error st x) as [n |]; [| discriminate]. cbn [bind]. rewrite Hp.
      rewrite (Hrun fuel ltac:(lia)). reflexivity.
    + exists 0. split; [lia |]. intros fuel Hf. destruct fuel as [| fuel]; [lia |].
      cbn [Heap.getDepth]. unfold tagOf, parentOf, Heap.get in *.
      destruct (nth_error st x) as [n |]; [| discriminate]. cbn [bind]. now rewrite Hp.
Qed.

Lemma getDepth_S (fuel : nat) (st : Store) (x : NodeId) :
  Heap.getDepth (S fuel) st x
  = (n <- Heap.get st x ;;
     match SyntaxNode.parent n with
     | None => Ok 0
     | Some parent => d <- Heap.getDepth fuel st parent ;; Ok (d + 1)
     end).
Proof. reflexivity. Qed.

Lemma kinds_depths (tree : AbstractSyntaxTree.t) :
  kindsOk (AbstractSyntaxTree.store tree) -> depthsOk tree.
Proof.
  intros Hk x nx Hx. apply get_nth in Hx.
  set (st := AbstractSyntaxTree.store tree) in *.
  assert (Tx : tagOf st x = Some (tag (SyntaxNode.kind nx))) by (unfold tagOf; now rewrite Hx).
  destruct (getDepth_returns st Hk _ x _ Tx (Nat.le_refl _)) as (d & Hd & Hrun).
  pose proof (level_le (tag (SyntaxNode.kind nx))) as Hl5.
  exists d. split; [intros fuel Hf; apply Hrun; lia |]. split; [exact Hd |].
  specialize (Hrun 7 ltac:(lia)). rewrite getDepth_S in Hrun.
  unfold Heap.get in Hrun at 1. rewrite Hx in Hrun. cbn [bind] in Hrun.
  destruct (SyntaxNode.parent nx) as [p |] eqn:Hp; [| congruence].
  assert (Pp : parentOf st x = Some p) by (unfold parentOf; now rewrite Hx).
  destruct (parent_level _ _ _ _ Hk Tx Pp) as (tg & Tg & Hlt).
  destruct (getDepth_returns st Hk _ p _ Tg (Nat.le_refl _)) as (dp & _ & Hrunp).
  pose proof (level_le tg) as Hg5.
  exists dp. split; [intros fuel Hf; apply Hrunp; lia |].
  rewrite (Hrunp 6 ltac:(lia)) in Hrun. cbn [bind] in Hrun. congruence.
Qed.

End Depths.

(** X16. The depth of the nodes. After every successful parse (by a
    parser whose factories return fresh nodes of their class, as the Python
    and the TypeScript parser) [getDepth] returns on every node: the parents
    of a node form no cycle. The depth is 0 for a node without a parent and
    one more than the depth of the parent otherwise; it is at most 1 for a
    class, 2 for a group of functions, 3 for a function, 4 for a
    declaration and 5 for any node. *)
Theorem getDepth_returns_on_parsed_trees :
  (forall (L : Language) (det : DetState L) (codeLines : list string)
          (tree : AbstractSyntaxTree.t),
      FactoriesOk L ->
      AbstractParser.parse L det codeLines = Ok tree -> depthsOk tree)
  /\ (forall (codeLines : list string) (tree : AbstractSyntaxTree.t),
         PythonParser.parse codeLines = Ok tree -> depthsOk tree)
  /\ (forall (codeLines : list string) (tree : AbstractSyntaxTree.t),
         TypeScriptParser.parse codeLines = Ok tree -> depthsOk tree).
Proof.
  assert (G : forall (L : Language) (det : DetState L) (codeLines : list string)
                     (tree : AbstractSyntaxTree.t),
             FactoriesOk L ->
             AbstractParser.parse L det codeLines = Ok tree -> depthsOk tree).
  { intros L det codeLines tree HF H. apply kinds_depths. eapply parse_kinds; eauto. }
  split; [exact G |]. split.
  - intros codeLines tree H. apply python_parse_inv in H. destruct H as [det H].
    exact (G _ _ _ _ python_factories H).
  - intros codeLines tree H. apply typescript_parse_inv in H. destruct H as [det H].
    exact (G _ _ _ _ typescript_factories H).
Qed.

Lemma getDepth_returns_on_parsed_trees_witness :
  exists tree : AbstractSyntaxTree.t,
    TypeScriptParser.parse typescriptGroupLines = Ok tree /\ depthsOk tree.
Proof.
  eexists. split; [vm_compute; reflexivity |].
  apply (proj2 (proj2 getDepth_returns_on_parsed_trees) typescriptGroupLines).
  vm_compute. reflexivity.
Defined.

(* ================================================================== *)
(** ** The search of a node *)

Section Searches.
Local Open Scope nat_scope.

Lemma smallestLoop_descend (st : Store) (range : Range) (fuel : nat) :
  forall node,
    AbstractSyntaxTree.smallestLoop fuel st range node
    = descendLoop fuel st (fun r => Utils.contains r range) (fun _ => false) node.
Proof.
  induction fuel as [| fuel IH]; intros node; [reflexivity |].
  cbn [AbstractSyntaxTree.smallestLoop descendLoop].
  destruct (Heap.get st node) as [n |]; [| reflexivity]. cbn [bind].
  destruct (AbstractSyntaxTree.firstChild st _ (SyntaxNode.children n)) as [[c |] |];
    cbn [bind]; auto.
Qed.

Lemma containsIndexLoop_descend (st : Store) (index : Index)
  (terminationCondition : option (NodeId -> bool)) (fuel : nat) :
  forall node,
    AbstractSyntaxTree.containsIndexLoop fuel st index terminationCondition node
    = descendLoop fuel st (fun r => Utils.containsIndex r index)
                  (stopOf terminationCondition) node.
Proof.
  induction fuel as [| fuel IH]; intros node; [reflexivity |].
  cbn [AbstractSyntaxTree.containsIndexLoop descendLoop]. unfold stopOf at 1.
  destruct (match terminationCondition with Some f => f node | None => false end);
    [reflexivity |].
  destruct (Heap.get st node) as [n |]; [| reflexivity]. cbn [bind].
  destruct (AbstractSyntaxTree.firstChild st _ (SyntaxNode.children n)) as [[c |] |];
    cbn [bind]; auto.
Qed.

Variable st : Store.
Variable test : Range -> bool.

(** The child that the inner loop finds is the first one that passes. *)
Lemma firstChild_found (cs : list NodeId) :
  forall found,
    AbstractSyntaxTree.firstChild st test cs = Ok found ->
    match found with
    | Some c => exists i, nth_error cs i = Some c /\ test (rangeOf st c) = true
                          /\ forall j b, j < i -> nth_error cs j = Some b ->
                                         test (rangeOf st b) = false
    | None => forall c, In c cs -> test (rangeOf st c) = false
    end.
Proof.
  induction cs as [| c cs IH]; intros found H; cbn [AbstractSyntaxTree.firstChild] in H.
  - injection H as <-. intros c [].
  - unfold Heap.get in H. destruct (nth_error st c) as [n |] eqn:E; [| discriminate].
    cbn [bind] in H.
    assert (Hr : rangeOf st c = SyntaxNode.range n) by (unfold rangeOf; now rewrite E).
    destruct (test (SyntaxNode.range n)) eqn:Et.
    + injection H as <-. exists 0. split; [reflexivity |]. split; [now rewrite Hr |].
      intros j b Hj. lia.
    + specialize (IH found H). destruct found as [c' |].
      * destruct IH as (i & I1 & I2 & I3). exists (S i). split; [exact I1 |].
        split; [exact I2 |]. intros j b Hj Hb. destruct j as [| j].
        -- simpl in Hb. injection Hb as <-. now rewrite Hr.
        -- apply (I3 j b); [lia | exact Hb].
      * intros x [<- | Hx]; [now rewrite Hr | now apply IH].
Qed.

Lemma firstChild_returns (cs : list NodeId) :
  (forall c, In c cs -> c < List.length st) ->
  exists found, AbstractSyntaxTree.firstChild st test cs = Ok found.
Proof.
  induction cs as [| c cs IH]; intros Hcs; cbn [AbstractSyntaxTree.firstChild]; [eauto |].
  unfold Heap.get. destruct (nth_error st c) as [n |] eqn:E.
  - cbn [bind]. destruct (test (SyntaxNode.range n)); [eauto |].
    apply IH. intros x Hx. apply Hcs. now right.
  - apply nth_error_None in E. specialize (Hcs c ltac:(now left)). lia.
Qed.

Variable stop : NodeId -> bool.

Lemma descendLoop_S (fuel : nat) (node : NodeId) :
  descendLoop (S fuel) st test stop node
  = (if stop node then Ok node
     else
       n <- Heap.get st node ;;
       found <- AbstractSyntaxTree.firstChild st test (SyntaxNode.children n) ;;
       match found with
       | Some child => descendLoop fuel st test stop child
       | None => Ok node
       end).
Proof. reflexivity. Qed.

(** Where the walk ends, if it ends. *)
Lemma descend_below (fuel : nat) :
  forall node r,
    descendLoop fuel st test stop node = Ok r ->
    Below st node r
    /\ (r = node \/ test (rangeOf st r) = true)
    /\ (stop r = true \/ forall c, In c (childrenOf st r) -> test (rangeOf st c) = false).
Proof.
  induction fuel as [| fuel IH]; intros node r H; [discriminate |].
  rewrite descendLoop_S in H.
  destruct (stop node) eqn:Es.
  - injection H as <-. split; [constructor |]. split; [now left | now left].
  - unfold Heap.get in H. destruct (nth_error st node) as [n |] eqn:E; [| discriminate].
    cbn [bind] in H.
    assert (Hc : childrenOf st node = SyntaxNode.children n)
      by (unfold childrenOf; now rewrite E).
    destruct (AbstractSyntaxTree.firstChild st test (SyntaxNode.children n))
      as [found |] eqn:Ef; [| discriminate].
    cbn [bind] in H. apply firstChild_found in Ef. destruct found as [c |].
    + destruct Ef as (i & I1 & I2 & _).
      destruct (IH _ _ H) as (B1 & B2 & B3).
      split; [| split; [| exact B3]].
      * eapply Below_child; [| exact B1]. rewrite Hc. eapply nth_error_In; eauto.
      * right. destruct B2 as [-> | B2]; assumption.
    + injection H as <-. split; [constructor |]. split; [now left |].
      right. rewrite Hc. exact Ef.
Qed.

(** The walk ends: a child is of a class further down. *)
Lemma descend_returns :
  kindsOk st ->
  forall (k : nat) (node : NodeId) (t : Tag),
    tagOf st node = Some t -> 5 - level t <= k ->
    exists r, forall fuel, 5 - level t < fuel -> descendLoop fuel st test stop node = Ok r.
Proof.
  intros Hk. induction k as [| k IH]; intros node t Tn Hlev.
  - destruct (stop node) eqn:Es.
    { exists node. intros fuel Hf. destruct fuel as [| fuel]; [lia |].
      rewrite descendLoop_S. now rewrite Es. }
    assert (Hget : exists n, nth_error st node = Some n).
    { unfold tagOf in Tn. destruct (nth_error st node); [eauto | discriminate]. }
    destruct Hget as [n En].
    assert (Hc : childrenOf st node = SyntaxNode.children n)
      by (unfold childrenOf; now rewrite En).
    destruct (firstChild_returns (SyntaxNode.children n)) as [found Ef].
    { intros c Hin. rewrite <- Hc in Hin. destruct (proj1 Hk _ _ Hin) as (_ & tx & _ & Tx & _).
      eapply tagOf_Some; eauto. }
    pose proof (firstChild_found _ _ Ef) as Hfound.
    destruct found as [c |].
    + destruct Hfound as (i & I1 & _). apply nth_error_In in I1. rewrite <- Hc in I1.
      destruct (proj1 Hk _ _ I1) as (tg & tx & Tg & Tx & Hal).
      assert (tg = t) by congruence. subst tg.
      apply childAllowed_level in Hal. pose proof (level_le tx). lia.
    + exists node. intros fuel Hf. destruct fuel as [| fuel]; [lia |].
      rewrite descendLoop_S, Es. unfold Heap.get. rewrite En. cbn [bind].
      rewrite Ef. reflexivity.
  - destruct (stop node) eqn:Es.
    { exists node. intros fuel Hf. destruct fuel as [| fuel]; [lia |].
      rewrite descendLoop_S. now rewrite Es. }
    assert (Hget : exists n, nth_error st node = Some n).
    { unfold tagOf in Tn. destruct (nth_error st node); [eauto | discriminate]. }
    destruct Hget as [n En].
    assert (Hc : childrenOf st node = SyntaxNode.children n)
      by (unfold childrenOf; now rewrite En).
    destruct (firstChild_returns (SyntaxNode.children n)) as [found Ef].
    { intros c Hin. rewrite <- Hc in Hin. destruct (proj1 Hk _ _ Hin) as (_ & tx & _ & Tx & _).
      eapply tagOf_Some; eauto. }
    pose proof (firstChild_found _ _ Ef) as Hfound.
    destruct found as [c |].
    + destruct Hfound as (i & I1 & _). apply nth_error_In in I1. rewrite <- Hc in I1.
      destruct (proj1 Hk _ _ I1) as (tg & tx & Tg & Tx & Hal).
      assert (tg = t) by congruence. subst tg.
      apply childAllowed_level in Hal. pose proof (level_le tx) as Hl5.
      destruct (IH c tx Tx ltac:(lia)) as [r Hr].
      exists r. intros fuel Hf. destruct fuel as [| fuel]; [lia |].
      rewrite descendLoop_S, Es. unfold Heap.get. rewrite En. cbn [bind].
      rewrite Ef. cbn [bind]. apply Hr. lia.
    + exists node. intros fuel Hf. destruct fuel as [| fuel]; [lia |].
      rewrite descendLoop_S, Es. unfold Heap.get. rewrite En. cbn [bind].
      rewrite Ef. reflexivity.
Qed.

End Searches.

Section Deepest.
Local Open Scope nat_scope.
Variable st : Store.
Variable test : Range -> bool.
Hypothesis Hnest : forall g x, In x (childrenOf st g) ->
                     Utils.contains (rangeOf st g) (rangeOf st x) = true.
Hypothesis Hmono : forall a b, Utils.contains a b = true -> test b = true -> test a = true.
Hypothesis Huniq : forall g i j a b,
    nth_error (childrenOf st g) i = Some a -> nth_error (childrenOf st g) j = Some b ->
    test (rangeOf st a) = true -> test (rangeOf st b) = true -> i = j.

Lemma below_test (x y : NodeId) :
  Below st x y -> test (rangeOf st y) = true -> test (rangeOf st x) = true.
Proof.
  induction 1 as [x | x c y Hin Hb IH]; intros Hy; [exact Hy |].
  eapply Hmono; [apply Hnest; exact Hin | now apply IH].
Qed.

(** With one child at most that passes, the walk comes by every node that
    passes. *)
Lemma descend_deepest (x y : NodeId) :
  Below st x y -> test (rangeOf st y) = true ->
  forall fuel r, descendLoop fuel st test (fun _ => false) x = Ok r -> Below st y r.
Proof.
  induction 1 as [x | x c y Hin Hb IH]; intros Hy fuel r H.
  - now apply (descend_below st test (fun _ => false) fuel).
  - destruct fuel as [| fuel]; [discriminate |].
    rewrite descendLoop_S in H.
    unfold Heap.get in H. destruct (nth_error st x) as [n |] eqn:E; [| discriminate].
    cbn [bind] in H.
    assert (Hc : childrenOf st x = SyntaxNode.children n)
      by (unfold childrenOf; now rewrite E).
    destruct (AbstractSyntaxTree.firstChild st test (SyntaxNode.children n))
      as [found |] eqn:Ef; [| discriminate].
    cbn [bind] in H. apply firstChild_found in Ef.
    pose proof (below_test _ _ Hb Hy) as Hcpass.
    destruct found as [c' |].
    + destruct Ef as (i & I1 & I2 & _). rewrite <- Hc in I1.
      destruct (In_nth_error _ _ Hin) as [j Hj].
      assert (i = j) by (eapply Huniq; eauto). subst j.
      assert (c' = c) by congruence. subst c'.
      eapply IH; eauto.
    + rewrite <- Hc in Ef. rewrite (Ef c Hin) in Hcpass. discriminate.
Qed.

End Deepest.

Section SiblingsApart.
Local Open Scope nat_scope.
Variable st : Store.
Hypothesis Hord : forall g i a b,
    nth_error (childrenOf st g) i = Some a -> nth_error (childrenOf st g) (S i) = Some b ->
    idxLe (endOf st a) (startOf st b).
Hypothesis Hwf : forall id, id < List.length st -> idxLe (startOf st id) (endOf st id).
Hypothesis Hl : linked st.

Lemma siblings_sorted (g : NodeId) (d : nat) :
  forall i a b,
    nth_error (childrenOf st g) i = Some a ->
    nth_error (childrenOf st g) (i + S d) = Some b ->
    idxLe (endOf st a) (startOf st b).
Proof.
  induction d as [| d IH]; intros i a b Ha Hb.
  - replace (i + 1) with (S i) in Hb by lia. eapply Hord; eauto.
  - destruct (nth_error (childrenOf st g) (i + S d)) as [m |] eqn:Em.
    + pose proof (IH _ _ _ Ha Em) as H1.
      replace (i + S (S d)) with (S (i + S d)) in Hb by lia.
      pose proof (Hord _ _ _ _ Em Hb) as H2.
      assert (Bm : m < List.length st) by (eapply Hl; eauto).
      eapply idxLe_trans; [exact H1 |]. eapply idxLe_trans; [apply Hwf; exact Bm | exact H2].
    + apply nth_error_None in Em.
      assert (i + S (S d) < List.length (childrenOf st g))
        by (apply nth_error_Some; congruence).
      lia.
Qed.

Lemma compare_lt_iff (a b : Index) :
  (Utils.compare a b < 0)%Z
  <-> line a < line b \/ (line a = line b /\ character a < character b).
Proof.
  destruct (compare_cases3 a b) as [(E & H) | [(E & H1 & H2) | (E & H)]]; rewrite E;
    split; intros; lia.
Qed.

Lemma containsIndex_iff (r : Range) (index : Index) :
  Utils.containsIndex r index = true
  <-> idxLe (Utils.rangeToStartIndex r) index
      /\ (Utils.compare index (Utils.rangeToEndIndex r) < 0)%Z.
Proof.
  unfold Utils.containsIndex, idxLe. rewrite andb_true_iff, Z.leb_le, Z.ltb_lt. tauto.
Qed.

Lemma containsIndex_mono (a b : Range) (index : Index) :
  Utils.contains a b = true -> Utils.containsIndex b index = true ->
  Utils.containsIndex a index = true.
Proof.
  rewrite contains_iff, !containsIndex_iff, !compare_lt_iff, !idxLe_iff. lia.
Qed.

Lemma containsIndex_one_child (index : Index) (g : NodeId) (i j : nat) (a b : NodeId) :
  nth_error (childrenOf st g) i = Some a -> nth_error (childrenOf st g) j = Some b ->
  Utils.containsIndex (rangeOf st a) index = true ->
  Utils.containsIndex (rangeOf st b) index = true -> i = j.
Proof.
  assert (G : forall i j a b, i < j ->
            nth_error (childrenOf st g) i = Some a -> nth_error (childrenOf st g) j = Some b ->
            Utils.containsIndex (rangeOf st a) index = true ->
            Utils.containsIndex (rangeOf st b) index = true -> False).
  { clear i j a b. intros i j a b Hij Ha Hb Ta Tb.
    replace j with (i + S (j - i - 1)) in Hb by lia.
    pose proof (siblings_sorted _ _ _ _ _ Ha Hb) as Hs. unfold endOf, startOf in Hs.
    apply containsIndex_iff in Ta, Tb. destruct Ta as [_ Ta], Tb as [Tb _].
    rewrite compare_lt_iff in Ta. rewrite idxLe_iff in Hs, Tb. lia. }
  intros Ha Hb Ta Tb.
  destruct (Nat.lt_total i j) as [H | [H | H]]; [exfalso | exact H | exfalso]; eauto.
Qed.

Lemma contains_one_child (range : Range) (g : NodeId) (i j : nat) (a b : NodeId) :
  nonEmptyRange range ->
  nth_error (childrenOf st g) i = Some a -> nth_error (childrenOf st g) j = Some b ->
  Utils.contains (rangeOf st a) range = true ->
  Utils.contains (rangeOf st b) range = true -> i = j.
Proof.
  intros Hne.
  assert (G : forall i j a b, i < j ->
            nth_error (childrenOf st g) i = Some a -> nth_error (childrenOf st g) j = Some b ->
            Utils.contains (rangeOf st a) range = true ->
            Utils.contains (rangeOf st b) range = true -> False).
  { clear i j a b. intros i j a b Hij Ha Hb Ta Tb.
    replace j with (i + S (j - i - 1)) in Hb by lia.
    pose proof (siblings_sorted _ _ _ _ _ Ha Hb) as Hs. unfold endOf, startOf in Hs.
    apply contains_iff in Ta, Tb. destruct Ta as [_ Ta], Tb as [Tb _].
    apply Hne. eapply idxLe_trans; [exact Ta |]. eapply idxLe_trans; [exact Hs | exact Tb]. }
  intros Ha Hb Ta Tb.
  destruct (Nat.lt_total i j) as [H | [H | H]]; [exfalso | exact H | exfalso]; eauto.
Qed.

End SiblingsApart.

(* ================================================================== *)
(** ** The search of a node in a parsed tree *)

Section ParsedSearches.
Local Open Scope nat_scope.

Lemma kinds_searches (tree : AbstractSyntaxTree.t) :
  kindsOk (AbstractSyntaxTree.store tree) ->
  tagOf (AbstractSyntaxTree.store tree) (AbstractSyntaxTree.getRoot tree) = Some TopLevelT ->
  searchesReturn tree.
Proof.
  intros Hk Troot. set (st := AbstractSyntaxTree.store tree) in *.
  assert (G : forall test stop,
            exists node,
              (forall fuel, 5 < fuel ->
                 descendLoop fuel st test stop (AbstractSyntaxTree.getRoot tree) = Ok node)
              /\ Below st (AbstractSyntaxTree.getRoot tree) node
              /\ (test (rangeOf st (AbstractSyntaxTree.getRoot tree)) = true ->
                  test (rangeOf st node) = true)
              /\ (stop node = true
                  \/ forall c, In c (childrenOf st node) -> test (rangeOf st c) = false)).
  { intros test stop.
    destruct (descend_returns st test stop Hk 5 _ _ Troot ltac:(simpl; lia)) as [r Hr].
    exists r. split; [intros fuel Hf; apply Hr; simpl; lia |].
    destruct (descend_below st test stop 6 _ r (Hr 6 ltac:(simpl; lia))) as (B1 & B2 & B3).
    split; [exact B1 |]. split; [| exact B3].
    intros Hroot. destruct B2 as [-> | B2]; assumption. }
  split.
  - intros range.
    destruct (G (fun r => Utils.contains r range) (fun _ => false))
      as (node & G1 & G2 & G3 & G4).
    exists node. split; [| split; [exact G2 | split; [exact G3 |]]].
    + intros fuel Hf. unfold AbstractSyntaxTree.getSmallestNodeContains.
      rewrite smallestLoop_descend. now apply G1.
    + destruct G4 as [G4 | G4]; [discriminate | exact G4].
  - intros index terminationCondition.
    destruct (G (fun r => Utils.containsIndex r index) (stopOf terminationCondition))
      as (node & G1 & G2 & G3 & G4).
    exists node. split; [| split; [exact G2 | split; [exact G3 | exact G4]]].
    intros fuel Hf. unfold AbstractSyntaxTree.getNodeContainsIndex.
    rewrite containsIndexLoop_descend. now apply G1.
Qed.

Lemma ordered_deepest (tree : AbstractSyntaxTree.t) :
  linked (AbstractSyntaxTree.store tree) ->
  ordered true (AbstractSyntaxTree.store tree) ->
  rangesNest (AbstractSyntaxTree.store tree) ->
  searchesFindTheDeepest tree.
Proof.
  intros Hl Ho [Hwf Hnest]. set (st := AbstractSyntaxTree.store tree) in *.
  assert (Hord : forall g i a b,
            nth_error (childrenOf st g) i = Some a ->
            nth_error (childrenOf st g) (S i) = Some b ->
            idxLe (endOf st a) (startOf st b)).
  { intros g i a b Ha Hb. destruct (Ho g i a b Ha Hb) as [[Hcb _] | H];
      [discriminate | exact H]. }
  split.
  - intros index fuel node y H Hy Ty.
    unfold AbstractSyntaxTree.getNodeContainsIndex in H.
    rewrite containsIndexLoop_descend in H.
    eapply (descend_deepest st (fun r => Utils.containsIndex r index));
      [exact Hnest | | | exact Hy | exact Ty | exact H].
    + intros a b. apply containsIndex_mono.
    + intros g i j a b. now apply (containsIndex_one_child st Hord Hwf Hl).
  - intros range fuel node y Hne H Hy Ty.
    unfold AbstractSyntaxTree.getSmallestNodeContains in H.
    rewrite smallestLoop_descend in H.
    eapply (descend_deepest st (fun r => Utils.contains r range));
      [exact Hnest | | | exact Hy | exact Ty | exact H].
    + intros a b. apply contains_trans.
    + intros g i j a b. now apply (contains_one_child st Hord Hwf Hl).
Qed.

End ParsedSearches.

(** X17. The searches of a node return. After every successful parse (by a
    parser whose factories return fresh nodes of their class, as the Python
    and the TypeScript parser) [getSmallestNodeContains] and
    [getNodeContainsIndex] return, for every range, index and termination
    condition, within six rounds of their loop. The node found is the root
    or below it; its range contains the range (the index) if the range of
    the root does; and none of its children contains the range (the index),
    unless the termination condition holds of the node found. *)
Theorem searches_of_a_node_return :
  (forall (L : Language) (det : DetState L) (codeLines : list string)
          (tree : AbstractSyntaxTree.t),
      FactoriesOk L ->
      AbstractParser.parse L det codeLines = Ok tree -> searchesReturn tree)
  /\ (forall (codeLines : list string) (tree : AbstractSyntaxTree.t),
         PythonParser.parse codeLines = Ok tree -> searchesReturn tree)
  /\ (forall (codeLines : list string) (tree : AbstractSyntaxTree.t),
         TypeScriptParser.parse codeLines = Ok tree -> searchesReturn tree).
Proof.
  assert (G : forall (L : Language) (det : DetState L) (codeLines : list string)
                     (tree : AbstractSyntaxTree.t),
             FactoriesOk L ->
             AbstractParser.parse L det codeLines = Ok tree -> searchesReturn tree).
  { intros L det codeLines tree HF H.
    destruct (parse_root _ _ _ _ HF H) as (R1 & _ & R3 & _).
    apply kinds_searches; [eapply parse_kinds; eauto | now rewrite R1]. }
  split; [exact G |]. split.
  - intros codeLines tree H. apply python_parse_inv in H. destruct H as [det H].
    exact (G _ _ _ _ python_factories H).
  - intros codeLines tree H. apply typescript_parse_inv in H. destruct H as [det H].
    exact (G _ _ _ _ typescript_factories H).
Qed.

Lemma searches_of_a_node_return_witness :
  exists tree : AbstractSyntaxTree.t,
    PythonParser.parse pythonDocLines = Ok tree /\ searchesReturn tree.
Proof.
  eexists. split; [vm_compute; reflexivity |].
  apply (proj1 (proj2 searches_of_a_node_return) pythonDocLines).
  vm_compute. reflexivity.
Defined.

(** X18. The searches find the deepest node. After a successful parse by a
    parser that puts the comment of a function before the function (and
    whose factories return fresh nodes and whose tokenizer starts fresh),
    as the TypeScript parser, every node of the tree whose range contains
    the index is the node that [getNodeContainsIndex] returns without a
    termination condition, or above it; the same holds of
    [getSmallestNodeContains] for a range that is not empty. For the Python
    parser it fails: the doc comment that follows its function in their
    group is passed by, and in [pythonDocLines] the search for an index
    inside the doc comment returns the function. *)
Theorem searches_find_the_deepest_node :
  (forall (L : Language) (det : DetState L) (codeLines : list string)
          (tree : AbstractSyntaxTree.t),
      FactoriesOk L -> freshTokenizer L -> isCommentBeforeFunction L = true ->
      AbstractParser.parse L det codeLines = Ok tree -> searchesFindTheDeepest tree)
  /\ (forall (codeLines : list string) (tree : AbstractSyntaxTree.t),
         TypeScriptParser.parse codeLines = Ok tree -> searchesFindTheDeepest tree)
  /\ (exists tree : AbstractSyntaxTree.t,
         PythonParser.parse pythonDocLines = Ok tree
         /\ AbstractSyntaxTree.getNodeContainsIndex 6 tree (mkIndex 1 6) None
            = Ok pythonDocFunction
         /\ Utils.containsIndex (rangeOf (AbstractSyntaxTree.store tree) pythonDocComment)
                                (mkIndex 1 6) = true
         /\ Below (AbstractSyntaxTree.store tree) (AbstractSyntaxTree.getRoot tree)
                  pythonDocComment
         /\ ~ Below (AbstractSyntaxTree.store tree) pythonDocComment pythonDocFunction).
Proof.
  assert (G : forall (L : Language) (det : DetState L) (codeLines : list string)
                     (tree : AbstractSyntaxTree.t),
             FactoriesOk L -> freshTokenizer L -> isCommentBeforeFunction L = true ->
             AbstractParser.parse L det codeLines = Ok tree -> searchesFindTheDeepest tree).
  { intros L det codeLines tree HF Hfresh Hcb H.
    pose proof (parse_shape _ _ _ _ HF H) as [Hl _].
    pose proof (parse_order L det codeLines tree HF Hfresh H) as Ho. rewrite Hcb in Ho.
    apply ordered_deepest; [exact Hl | exact Ho | eapply parse_nest; eauto]. }
  split; [exact G |]. split.
  - intros codeLines tree H. apply typescript_parse_inv in H. destruct H as [det H].
    exact (G _ _ _ _ typescript_factories typescript_fresh eq_refl H).
  - eexists. split; [vm_compute; reflexivity |].
    split; [vm_compute; reflexivity |]. split; [vm_compute; reflexivity |].
    split.
    + eapply Below_child; [| eapply Below_child; [| apply Below_self]].
      * instantiate (1 := pythonDocGroup). vm_compute. now left.
      * vm_compute. right. now left.
    + intros Hb. inversion Hb as [x E1 E2 | x c y Hin Hc E1 E2].
      vm_compute in Hin. contradiction.
Qed.

Lemma searches_find_the_deepest_node_witness :
  exists tree : AbstractSyntaxTree.t,
    TypeScriptParser.parse typescriptGroupLines = Ok tree /\ searchesFindTheDeepest tree.
Proof.
  eexists. split; [vm_compute; reflexivity |].
  apply (proj1 (proj2 searches_find_the_deepest_node) typescriptGroupLines).
  vm_compute. reflexivity.
Defined.

(* ================================================================== *)
(** ** The comments of the groups *)

Section GroupComments.
Local Open Scope nat_scope.

Lemma tagOf_node (st : Store) (x : NodeId) (t : Tag) :
  tagOf st x = Some t -> exists n, Heap.get st x = Ok n /\ tag (SyntaxNode.kind n) = t.
Proof.
  unfold tagOf, Heap.get. destruct (nth_error st x) as [n |]; [| discriminate].
  intros H. injection H as <-. eauto.
Qed.

Lemma shape_hasComment (cb : bool) (tree : AbstractSyntaxTree.t) :
  shapeInv cb (AbstractSyntaxTree.store tree) -> hasCommentOk tree.
Proof.
  intros [_ Hg] g n Hn Ht. set (st := AbstractSyntaxTree.store tree) in *.
  pose proof Hn as Hn'. apply get_nth in Hn'.
  assert (Tg : tagOf st g = Some FunctionGroupsT) by (unfold tagOf; now rewrite Hn', Ht).
  assert (Hc : childrenOf st g = SyntaxNode.children n)
    by (unfold childrenOf; now rewrite Hn').
  unfold Heap.hasComment. rewrite Hn. cbn [bind]. rewrite <- Hc.
  destruct (Hg g Tg) as [(f & H1 & H2) | [(_ & c & f & H1 & H2 & H3)
                                         | (_ & f & c & H1 & H2 & H3)]]; rewrite H1.
  - destruct (tagOf_node _ _ _ H2) as (nf & Gf & Kf).
    cbn [Heap.someComments]. rewrite Gf. cbn [bind]. unfold SyntaxNode.isComments.
    destruct (SyntaxNode.kind nf); try discriminate. reflexivity.
  - destruct (tagOf_node _ _ _ H2) as (nc & Gc & Kc).
    cbn [Heap.someComments]. rewrite Gc. cbn [bind]. unfold SyntaxNode.isComments.
    destruct (SyntaxNode.kind nc); try discriminate. reflexivity.
  - destruct (tagOf_node _ _ _ H2) as (nf & Gf & Kf).
    destruct (tagOf_node _ _ _ H3) as (nc & Gc & Kc).
    cbn [Heap.someComments]. rewrite Gf. cbn [bind]. unfold SyntaxNode.isComments.
    destruct (SyntaxNode.kind nf); try discriminate.
    rewrite Gc. cbn [bind]. destruct (SyntaxNode.kind nc); try discriminate. reflexivity.
Qed.

End GroupComments.

(** X19. The comment of a group. After every successful parse (by a parser
    whose factories return fresh nodes of their class, as the Python and
    the TypeScript parser) [hasComment] returns on every group of
    functions, and it answers [true] exactly when the group has two
    children, its function and the comment of the function, whichever
    comes first. *)
Theorem hasComment_tells_the_groups_of_two :
  (forall (L : Language) (det : DetState L) (codeLines : list string)
          (tree : AbstractSyntaxTree.t),
      FactoriesOk L ->
      AbstractParser.parse L det codeLines = Ok tree -> hasCommentOk tree)
  /\ (forall (codeLines : list string) (tree : AbstractSyntaxTree.t),
         PythonParser.parse codeLines = Ok tree -> hasCommentOk tree)
  /\ (forall (codeLines : list string) (tree : AbstractSyntaxTree.t),
         TypeScriptParser.parse codeLines = Ok tree -> hasCommentOk tree).
Proof.
  assert (G : forall (L : Language) (det : DetState L) (codeLines : list string)
                     (tree : AbstractSyntaxTree.t),
             FactoriesOk L ->
             AbstractParser.parse L det codeLines = Ok tree -> hasCommentOk tree).
  { intros L det codeLines tree HF H. eapply shape_hasComment. eapply parse_shape; eauto. }
  split; [exact G |]. split.
  - intros codeLines tree H. apply python_parse_inv in H. destruct H as [det H].
    exact (G _ _ _ _ python_factories H).
  - intros codeLines tree H. apply typescript_parse_inv in H. destruct H as [det H].
    exact (G _ _ _ _ typescript_factories H).
Qed.

Lemma hasComment_tells_the_groups_of_two_witness :
  exists tree : AbstractSyntaxTree.t,
    PythonParser.parse pythonDocLines = Ok tree /\ hasCommentOk tree.
Proof.
  eexists. split; [vm_compute; reflexivity |].
  apply (proj1 (proj2 hasComment_tells_the_groups_of_two) pythonDocLines).
  vm_compute. reflexivity.
Defined.

(* ================================================================== *)
(** ** The classes of the Python tokens *)

Section NextCases.
Context {L : Lexer}.
Local Open Scope nat_scope.

(** What one call of [next] does with the answer of the lexer, for an
    answer that splits no more than the new character off. *)
Lemma next_char_cases (tk tk' : AbstractTokenizer.t L) (c : ascii) :
  charIdx (AbstractTokenizer.base tk)
  = tokStartIdx (AbstractTokenizer.base tk)
    + String.length (stringBuffer (AbstractTokenizer.base tk)) ->
  AbstractTokenizer.next tk (Some c) = Ok tk' ->
  let buf := Js.chars (stringBuffer (AbstractTokenizer.base tk)) in
  let toks := tokenString (AbstractTokenizer.base tk) in
  let buf' := Js.chars (stringBuffer (AbstractTokenizer.base tk')) in
  let toks' := tokenString (AbstractTokenizer.base tk') in
  exists b1 mr,
    Js.chars (stringBuffer b1) = buf ++ [c]
    /\ matchNext L (AbstractTokenizer.sub tk) b1 c = Ok (AbstractTokenizer.sub tk', mr)
    /\ match mr with
       | None => toks' = toks /\ buf' = buf ++ [c]
       | Some m =>
           match singleChType m with
           | None =>
               exists t, toks' = toks ++ [t] /\ tokenType t = mrType m
                         /\ Js.chars (stringContents t) = buf ++ [c] /\ buf' = []
           | Some sct =>
               numSplitCharacters m = None ->
               buf <> []
               /\ exists t, tokenType t = mrType m /\ Js.chars (stringContents t) = buf
                    /\ if TokenType_eqb sct CONTINUATION
                       then toks' = toks ++ [t] /\ buf' = [c]
                       else exists t2, toks' = toks ++ [t; t2] /\ tokenType t2 = sct
                                       /\ Js.chars (stringContents t2) = [c] /\ buf' = []
           end
       end.
Proof.
  intros Hidx H. cbv zeta.
  unfold AbstractTokenizer.next in H.
  destruct (ended (AbstractTokenizer.base tk)); [discriminate |].
  match type of H with
  | bind (matchNext L _ ?b _) _ = _ => set (b1 := b) in *
  end.
  destruct (matchNext L (AbstractTokenizer.sub tk) b1 c) as [[s' mr] |] eqn:E; [| discriminate].
  cbn [bind] in H.
  assert (Hb1 : Js.chars (stringBuffer b1)
                = Js.chars (stringBuffer (AbstractTokenizer.base tk)) ++ [c]).
  { unfold b1. cbn [stringBuffer]. now rewrite chars_app. }
  exists b1, mr. split; [exact Hb1 |].
  destruct mr as [m |].
  2:{ inv H. cbn [AbstractTokenizer.base AbstractTokenizer.sub]. split; [exact E |].
      split; [reflexivity | exact Hb1]. }
  destruct (TokenType_eqb (mrType m) CONTINUATION); [discriminate |].
  destruct (singleChType m) as [sct |] eqn:Es.
  - destruct (numSplitCharacters m) as [k |] eqn:Ek.
    + destruct (k <? 1); [discriminate |].
      match type of H with (if ?t then _ else _) = _ => destruct t; [discriminate |] end.
      destruct (TokenType_eqb sct CONTINUATION); inv H;
        cbn [AbstractTokenizer.base AbstractTokenizer.sub]; (split; [exact E |]);
        intros; discriminate.
    + cbn [Nat.ltb Nat.leb] in H.
      match type of H with (if ?t then _ else _) = _ => destruct t eqn:Hlen; [discriminate |] end.
      apply Nat.ltb_ge in Hlen.
      set (s := (stringBuffer (AbstractTokenizer.base tk) ++ String c EmptyString)%string) in *.
      assert (Hs : Js.chars s = Js.chars (stringBuffer (AbstractTokenizer.base tk)) ++ [c]).
      { unfold s. now rewrite chars_app. }
      assert (Hsl : String.length s
                    = List.length (Js.chars (stringBuffer (AbstractTokenizer.base tk))) + 1).
      { rewrite <- length_chars, Hs, length_app. reflexivity. }
      pose proof (substring_head s 1 ltac:(lia)) as Hhead.
      pose proof (substring_tail s 1 ltac:(lia)) as Htail.
      rewrite Hs, Hsl in Hhead, Htail.
      replace (List.length (Js.chars (stringBuffer (AbstractTokenizer.base tk))) + 1 - 1)
        with (List.length (Js.chars (stringBuffer (AbstractTokenizer.base tk)))) in Hhead, Htail
        by lia.
      rewrite firstn_app, Nat.sub_diag, firstn_all in Hhead. simpl in Hhead.
      rewrite app_nil_r in Hhead.
      rewrite skipn_app, Nat.sub_diag, skipn_all in Htail. simpl in Htail.
      change (Z.of_nat 1) with 1%Z in Hhead, Htail.
      destruct (TokenType_eqb sct CONTINUATION) eqn:Ec; inv H;
        cbn [AbstractTokenizer.base AbstractTokenizer.sub tokenString stringBuffer];
        (split; [exact E |]); intros _.
      * split.
        { intros Hnil. rewrite <- length_chars, Hnil in Hidx. simpl in Hidx. lia. }
        match goal with |- context [?a ++ [?t0] = ?a ++ [_]] => exists t0 end.
        cbn [stringContents tokenType]. split; [reflexivity |]. split; [exact Hhead |].
        split; [reflexivity | exact Htail].
      * split.
        { intros Hnil. rewrite <- length_chars, Hnil in Hidx. simpl in Hidx. lia. }
        match goal with |- context [?a ++ [?t0; ?t1] = _] => exists t0 end.
        cbn [stringContents tokenType]. split; [reflexivity |]. split; [exact Hhead |].
        match goal with |- context [?a ++ [?t0; ?t1] = _] => exists t1 end.
        cbn [stringContents tokenType]. split; [reflexivity |]. split; [reflexivity |].
        split; [exact Htail | reflexivity].
  - inv H. cbn [AbstractTokenizer.base AbstractTokenizer.sub tokenString stringBuffer].
    split; [exact E |].
    match goal with |- context [?a ++ [?t0] = ?a ++ [_]] => exists t0 end.
    cbn [stringContents tokenType]. split; [reflexivity |]. split; [reflexivity |].
    split; [| reflexivity]. now rewrite chars_app.
Qed.

End NextCases.

Section PythonClasses.
Local Open Scope nat_scope.

Lemma isCh_eq (c a : ascii) :
  PythonTokenizer.isCh c (String a EmptyString) = true -> c = a.
Proof.
  unfold PythonTokenizer.isCh. intros H. apply String.eqb_eq in H. now inv H.
Qed.

Lemma isCh_same (c d : ascii) (q : string) :
  String.length q = 1 ->
  PythonTokenizer.isCh c q = true -> PythonTokenizer.isCh d q = true -> c = d.
Proof.
  destruct q as [| a [| b q]]; try discriminate. intros _ H1 H2.
  apply isCh_eq in H1, H2. congruence.
Qed.

Lemma forallb_snoc {A : Type} (f : A -> bool) (l : list A) (x : A) :
  forallb f (l ++ [x]) = forallb f l && f x.
Proof. rewrite forallb_app. simpl. now rewrite andb_true_r. Qed.

Lemma plain_others (buf : list ascii) :
  buf <> [] -> forallb pyPlain buf = true -> pyClassOk OTHERS buf = true.
Proof.
  destruct buf as [| a [| b buf]]; intros Hne H; [contradiction | |].
  - simpl in *. rewrite andb_true_r in H. rewrite H. apply orb_true_r.
  - exact H.
Qed.

(** [handleOtherSituation] outside comments and strings: the class of
    the character alone, or the state and the buffer that the character
    starts. *)
Lemma handleOther_spec (st st2 : PythonTokenizer.State) (c : ascii)
  (ty : option TokenType) (plain : bool) :
  PythonTokenizer.insideSingleLineComments st = false ->
  PythonTokenizer.insideStringStatus st = PythonTokenizer.NONE ->
  PythonTokenizer.handleOtherSituation st c = (st2, (ty, plain)) ->
  match ty with
  | Some t => pyClassOk t [c] = true /\ st2 = st /\ t <> CONTINUATION
  | None =>
      pyBufOk st2 [c]
      /\ (plain = true ->
          pyPlain c = true /\ st2 = st)
  end.
Proof.
  intros Hc Hs H. unfold PythonTokenizer.handleOtherSituation in H.
  destruct (PythonTokenizer.isCh c "{" || PythonTokenizer.isCh c "}"
            || PythonTokenizer.isCh c "[" || PythonTokenizer.isCh c "]"
            || PythonTokenizer.isCh c "(" || PythonTokenizer.isCh c ")") eqn:E1.
  { inv H. simpl. fold (pyBrace c). unfold pyBrace. rewrite E1.
    repeat split; discriminate. }
  destruct (PythonTokenizer.isCh c " " || PythonTokenizer.isCh c Js.tab
            || PythonTokenizer.isCh c Js.newline) eqn:E2.
  { inv H. simpl. unfold pySpacing. rewrite E2. repeat split; discriminate. }
  destruct (PythonTokenizer.isCh c ":") eqn:E3.
  { inv H. simpl. rewrite E3. repeat split; discriminate. }
  destruct (PythonTokenizer.isCh c ",") eqn:E4.
  { inv H. simpl. rewrite E4. repeat split; discriminate. }
  destruct (PythonTokenizer.isCh c "#") eqn:E5.
  { inv H. split; [| discriminate]. unfold pyBufOk. simpl.
    split; [exact Hs |]. exists c, []. auto. }
  destruct (PythonTokenizer.isCh c Js.dquote) eqn:E6.
  { inv H. split; [| discriminate]. unfold pyBufOk. simpl. rewrite Hc.
    exists c, []. repeat split; auto. discriminate. }
  destruct (PythonTokenizer.isCh c "'") eqn:E7.
  { inv H. split; [| discriminate]. unfold pyBufOk. simpl. rewrite Hc.
    exists c, []. repeat split; auto. discriminate. }
  inv H.
  assert (Hp : pyPlain c = true).
  { unfold pyPlain, pyBrace, pySpacing, pyQuote. now rewrite E1, E2, E3, E4, E5, E6, E7. }
  split; [| auto]. unfold pyBufOk. rewrite Hc, Hs. simpl. now rewrite Hp.
Qed.

Lemma handleQuote_spec (q : string) (triple : PythonTokenizer.StringOrMultilineStatus)
  (st st' : PythonTokenizer.State) (c : ascii) (buf : list ascii) (mr : option MatchResult) :
  String.length q = 1 ->
  (forall x, PythonTokenizer.isCh x q = true -> pyQuote x = true) ->
  PythonTokenizer.insideSingleLineComments st = false ->
  quoteBuf q (PythonTokenizer.contiguousQuotesCount st) buf ->
  (forall st0 b, PythonTokenizer.insideSingleLineComments st0 = false ->
                 PythonTokenizer.insideStringStatus st0 = PythonTokenizer.insideStringStatus st ->
                 quoteBuf q (PythonTokenizer.contiguousQuotesCount st0) b -> pyBufOk st0 b) ->
  (forall st0 b, PythonTokenizer.insideSingleLineComments st0 = false ->
                 PythonTokenizer.insideStringStatus st0 = triple ->
                 tripleBuf q b -> pyBufOk st0 b) ->
  PythonTokenizer.handleQuoteSituation q triple st c = (st', mr) ->
  pyStepOk st' mr buf c.
Proof.
  intros Hq Hquote Hc (h & rest & -> & Hh & H1 & H2) HqS HqT H.
  unfold PythonTokenizer.handleQuoteSituation in H.
  destruct st as [comments status escape count]. simpl in *. subst comments.
  assert (Hnone : forall e n, pyBufOk (PythonTokenizer.mkState false PythonTokenizer.NONE e n) []).
  { intros e n. reflexivity. }
  destruct (PythonTokenizer.isCh c q && negb escape) eqn:E1.
  - apply andb_true_iff in E1. destruct E1 as [Ecq _].
    assert (c = h) by (eapply isCh_same; eauto). subst c.
    destruct (count =? 2) eqn:E2.
    + apply Nat.eqb_eq in E2. inv H. simpl. apply HqT; [reflexivity | reflexivity |].
      rewrite (H2 eq_refl). exists h, []. auto.
    + destruct (count =? 1) eqn:E3.
      * apply Nat.eqb_eq in E3. inv H. simpl. apply HqS; [reflexivity | reflexivity |].
        simpl. rewrite (H1 eq_refl). exists h, [h]. repeat split; auto. discriminate.
      * inv H. simpl. split; [reflexivity |]. split; [now apply Hquote | apply Hnone].
  - destruct (PythonTokenizer.isCh c Js.newline) eqn:E2.
    + inv H. simpl. split; [reflexivity |]. split; [intros _; now apply Hquote |].
      split; [| apply Hnone]. unfold pySpacing. rewrite E2. now rewrite !orb_true_r.
    + destruct (count =? 2) eqn:E3.
      * unfold PythonTokenizer.setStatus, PythonTokenizer.setEscape, PythonTokenizer.setCount
          in H. simpl in H.
        destruct (PythonTokenizer.handleOtherSituation
                    (PythonTokenizer.mkState false PythonTokenizer.NONE false 0) c)
          as [st2 [ty plain]] eqn:Eo.
        pose proof (handleOther_spec (PythonTokenizer.mkState false PythonTokenizer.NONE false 0)
                      st2 c ty plain eq_refl eq_refl Eo) as Ho.
        destruct ty as [ty |]; inv H; simpl.
        -- destruct Ho as (Ho1 & -> & Ho3). split; [reflexivity |].
           split; [intros _; now apply Hquote |].
           destruct (TokenType_eqb ty CONTINUATION) eqn:Ec;
             [destruct ty; try discriminate; contradiction |].
           split; [exact Ho1 | apply Hnone].
        -- destruct Ho as (Ho1 & _). split; [reflexivity |].
           split; [intros _; now apply Hquote | exact Ho1].
      * apply Nat.eqb_neq in E3.
        assert (Hgo : forall e, pyBufOk
                        (PythonTokenizer.mkState false status e (if count =? 1 then 0 else count))
                        ((h :: rest) ++ [c])).
        { intros e. apply HqS; [reflexivity | reflexivity |]. simpl.
          exists h, (rest ++ [c]). split; [reflexivity |]. split; [exact Hh |].
          destruct (count =? 1) eqn:E4; [split; discriminate |].
          apply Nat.eqb_neq in E4. split; intros; contradiction. }
        destruct (count =? 1) eqn:E4; simpl in H;
          destruct (PythonTokenizer.isCh c Js.backslash); inv H; simpl; apply Hgo.
Qed.

Lemma handleTriple_spec (q : string)
  (st st' : PythonTokenizer.State) (c : ascii) (buf : list ascii) (mr : option MatchResult) :
  String.length q = 1 ->
  (forall x, PythonTokenizer.isCh x q = true -> pyQuote x = true) ->
  PythonTokenizer.insideSingleLineComments st = false ->
  tripleBuf q buf ->
  (forall st0 b, PythonTokenizer.insideSingleLineComments st0 = false ->
                 PythonTokenizer.insideStringStatus st0 = PythonTokenizer.insideStringStatus st ->
                 tripleBuf q b -> pyBufOk st0 b) ->
  PythonTokenizer.handleTripleQuoteSituation q st c = (st', mr) ->
  pyStepOk st' mr buf c.
Proof.
  intros Hq Hquote Hc (h & rest & -> & Hh) HqT H.
  unfold PythonTokenizer.handleTripleQuoteSituation in H.
  destruct st as [comments status escape count]. simpl in *. subst comments.
  assert (Hgo : forall e n, pyBufOk (PythonTokenizer.mkState false status e n)
                                   ((h :: h :: h :: rest) ++ [c])).
  { intros e n. apply HqT; [reflexivity | reflexivity |]. exists h, (rest ++ [c]). auto. }
  destruct (PythonTokenizer.isCh c q && negb escape) eqn:E1.
  - destruct (count =? 2) eqn:E2; inv H; simpl; [| apply Hgo].
    split; [reflexivity |]. split; [| reflexivity].
    rewrite (Hquote _ Hh), !Ascii.eqb_refl. reflexivity.
  - destruct (PythonTokenizer.isCh c Js.backslash); inv H; simpl; apply Hgo.
Qed.

(** The answers of [matchNext] are as they have to be. *)
Lemma matchNext_spec (st st' : PythonTokenizer.State) (b1 : TokenizerBase) (c : ascii)
  (buf : list ascii) (mr : option MatchResult) :
  Js.chars (stringBuffer b1) = buf ++ [c] ->
  pyBufOk st buf ->
  PythonTokenizer.matchNext st b1 c = Ok (st', mr) ->
  pyStepOk st' mr buf c.
Proof.
  intros Hb1 Hbuf H. unfold PythonTokenizer.matchNext in H.
  assert (Hq1 : forall x, PythonTokenizer.isCh x "'" = true -> pyQuote x = true).
  { intros x Hx. unfold pyQuote. rewrite Hx. apply orb_true_r. }
  assert (Hq2 : forall x, PythonTokenizer.isCh x Js.dquote = true -> pyQuote x = true).
  { intros x Hx. unfold pyQuote. now rewrite Hx. }
  unfold pyBufOk in Hbuf.
  destruct (PythonTokenizer.insideSingleLineComments st) eqn:Ec.
  - destruct Hbuf as (Hs & h & rest & -> & Hh & Hrest).
    destruct (PythonTokenizer.isCh c Js.newline) eqn:En; inv H.
    + simpl. split; [reflexivity |]. split.
      * intros _. rewrite Hh. exact Hrest.
      * split; [unfold pySpacing; rewrite En; now rewrite !orb_true_r |].
        unfold pyBufOk. simpl. now rewrite Hs.
    + simpl. unfold pyBufOk. rewrite Ec. split; [exact Hs |].
      exists h, (rest ++ [c]). split; [reflexivity |]. split; [exact Hh |].
      unfold noLineFeed in *. rewrite forallb_snoc, Hrest, En. reflexivity.
  - destruct (PythonTokenizer.insideStringStatus st) eqn:Es.
    + destruct (PythonTokenizer.handleOtherSituation st c) as [st2 [ty plain]] eqn:Eo.
      pose proof (handleOther_spec _ _ _ _ _ Ec Es Eo) as Ho.
      assert (Hst : pyBufOk st []) by (unfold pyBufOk; now rewrite Ec, Es).
      unfold AbstractTokenizer.currentBufferSingleCharacter in H.
      rewrite <- length_chars, Hb1, length_app in H. simpl in H.
      destruct (List.length buf + 1 =? 1) eqn:El.
      * apply Nat.eqb_eq in El.
        assert (buf = []) by (destruct buf; [reflexivity | simpl in El; lia]). subst buf.
        destruct ty as [ty |]; inv H; simpl.
        -- destruct Ho as (Ho1 & -> & _). split; [reflexivity |]. split; [exact Ho1 | exact Hst].
        -- apply Ho.
      * apply Nat.eqb_neq in El.
        destruct ty as [ty |].
        -- inv H. simpl. destruct Ho as (Ho1 & -> & Ho3). split; [reflexivity |].
           split; [intros Hne; now apply plain_others |].
           destruct (TokenType_eqb ty CONTINUATION) eqn:Ect;
             [destruct ty; try discriminate; contradiction |].
           split; [exact Ho1 | exact Hst].
        -- destruct plain; inv H; simpl.
           ++ destruct Ho as (_ & Ho2). destruct (Ho2 eq_refl) as [Hp ->].
              unfold pyBufOk. rewrite Ec, Es. rewrite forallb_snoc, Hbuf, Hp. reflexivity.
           ++ split; [reflexivity |]. split; [intros Hne; now apply plain_others | apply Ho].
    + injection H as H. eapply (handleQuote_spec "'" PythonTokenizer.TRIPLE_SINGLE_QUOTES);
        [reflexivity | exact Hq1 | exact Ec | exact Hbuf | | | exact H].
      * intros st0 b C0 S0 Q0. unfold pyBufOk. now rewrite C0, S0, Es.
      * intros st0 b C0 S0 Q0. unfold pyBufOk. now rewrite C0, S0.
    + injection H as H. eapply (handleQuote_spec Js.dquote PythonTokenizer.TRIPLE_DOUBLE_QUOTES);
        [reflexivity | exact Hq2 | exact Ec | exact Hbuf | | | exact H].
      * intros st0 b C0 S0 Q0. unfold pyBufOk. now rewrite C0, S0, Es.
      * intros st0 b C0 S0 Q0. unfold pyBufOk. now rewrite C0, S0.
    + injection H as H. eapply (handleTriple_spec "'");
        [reflexivity | exact Hq1 | exact Ec | exact Hbuf | | exact H].
      intros st0 b C0 S0 Q0. unfold pyBufOk. now rewrite C0, S0, Es.
    + injection H as H. eapply (handleTriple_spec Js.dquote);
        [reflexivity | exact Hq2 | exact Ec | exact Hbuf | | exact H].
      intros st0 b C0 S0 Q0. unfold pyBufOk. now rewrite C0, S0, Es.
Qed.

End PythonClasses.

Section PythonClassRuns.
Local Open Scope nat_scope.

Lemma tokenOk_class (t : Token) (ty : TokenType) (l : list ascii) :
  tokenType t = ty -> Js.chars (stringContents t) = l -> pyClassOk ty l = true ->
  pyTokenOk t = true.
Proof. intros <- <- H. exact H. Qed.

(** One character keeps the tokens in their classes. *)
Lemma python_class_step (tk tk' : AbstractTokenizer.t PythonTokenizer.lexer)
  (fed : list ascii) (c : ascii) :
  lexInv tk fed -> pyClassInv tk ->
  AbstractTokenizer.next tk (Some c) = Ok tk' -> pyClassInv tk'.
Proof.
  intros (_ & _ & _ & Hidx) [Hbuf Htoks] H.
  destruct (next_char_cases tk tk' c Hidx H) as (b1 & mr & Hb1 & Hm & Hcases).
  pose proof (matchNext_spec _ _ _ _ _ _ Hb1 Hbuf Hm) as Hstep.
  unfold pyClassInv. destruct mr as [m |]; cbn [pyStepOk] in Hstep.
  - destruct Hstep as [Hk Hstep]. destruct (singleChType m) as [sct |].
    + destruct (Hcases Hk) as (Hne & t & T1 & T2 & Hrest). destruct Hstep as [S1 S2].
      pose proof (tokenOk_class t _ _ T1 T2 (S1 Hne)) as Ht.
      destruct (TokenType_eqb sct CONTINUATION).
      * destruct Hrest as [-> ->]. split; [exact S2 |].
        now rewrite forallb_snoc, Htoks, Ht.
      * destruct Hrest as (t2 & -> & U1 & U2 & ->). destruct S2 as [S2 S3].
        split; [exact S3 |].
        rewrite forallb_app, Htoks. simpl.
        now rewrite Ht, (tokenOk_class t2 _ _ U1 U2 S2).
    + destruct Hcases as (t & -> & T1 & T2 & ->). destruct Hstep as [S1 S2].
      split; [exact S2 |].
      now rewrite forallb_snoc, Htoks, (tokenOk_class t _ _ T1 T2 S1).
  - destruct Hcases as [-> ->]. split; [exact Hstep | exact Htoks].
Qed.

(** The token that the end of the stream makes of the buffer. *)
Lemma python_class_end (st : PythonTokenizer.State) (buf : list ascii) :
  pyBufOk st buf -> buf <> [] -> pyClassOk (PythonTokenizer.matchEndCharacter st) buf = true.
Proof.
  unfold pyBufOk, PythonTokenizer.matchEndCharacter. intros H Hne.
  destruct (PythonTokenizer.insideSingleLineComments st).
  - destruct H as (_ & h & rest & -> & Hh & Hrest). simpl. now rewrite Hh.
  - destruct (PythonTokenizer.insideStringStatus st).
    + now apply plain_others.
    + destruct H as (h & rest & -> & Hh & _). simpl. unfold pyQuote. rewrite Hh.
      apply orb_true_r.
    + destruct H as (h & rest & -> & Hh & _). simpl. unfold pyQuote. now rewrite Hh.
    + destruct H as (h & rest & -> & Hh). simpl. unfold pyQuote. rewrite Hh.
      now rewrite orb_true_r, !Ascii.eqb_refl.
    + destruct H as (h & rest & -> & Hh). simpl. unfold pyQuote. rewrite Hh.
      now rewrite !Ascii.eqb_refl.
Qed.

Lemma python_class_run (tk : AbstractTokenizer.t PythonTokenizer.lexer)
  (fed : list ascii) (c : ascii) :
  lexInv tk fed -> pyInv tk /\ pyClassInv tk ->
  exists tk', AbstractTokenizer.next tk (Some c) = Ok tk' /\ (pyInv tk' /\ pyClassInv tk').
Proof.
  intros Hinv [HJ Hc].
  destruct (python_lexer_step tk fed c Hinv HJ) as [tk' [Hnext HJ']].
  exists tk'. split; [exact Hnext |]. split; [exact HJ' |].
  eapply python_class_step; eauto.
Qed.

End PythonClassRuns.

(** X20. The classes of the Python tokens. For every text,
    [tokenizePython] returns tokens of which every one is of the class of
    its type: a brace token is one of the six braces, a spacing token is
    one space, tab or line feed, a comma token is a comma; a single-line
    comment starts with [#] and holds no line feed; a string starts with a
    quote; a multi-line comment or string starts with three equal quotes;
    and any other token is a colon or a run of characters that are none of
    these. *)
Theorem python_tokens_are_of_their_classes (x : string) :
  exists toks, tokenizePython x = Ok toks /\ forallb pyTokenOk toks = true.
Proof.
  destruct python_tokenizer_initial as [tk0 [H0 [Hinv HJ]]].
  unfold tokenizePython. rewrite H0. simpl.
  assert (Hc0 : pyClassInv tk0).
  { unfold PythonTokenizer.constructor in H0. inv H0. split; reflexivity. }
  destruct (feed_total (fun tk => pyInv tk /\ pyClassInv tk) python_class_run
                       (Js.chars x) tk0 [] Hinv (conj HJ Hc0))
    as [tk [Hfeed [Hinv' [_ [Hbuf Htoks]]]]].
  rewrite Hfeed. simpl.
  destruct Hinv' as (Hend & _ & _ & Hidx).
  unfold AbstractTokenizer.next. rewrite Hend. simpl.
  eexists. split; [reflexivity |].
  destruct (tokStartIdx (AbstractTokenizer.base tk) <? charIdx (AbstractTokenizer.base tk))%nat
    eqn:E; [| exact Htoks].
  apply Nat.ltb_lt in E. unfold AbstractTokenizer.getTokens. cbn [AbstractTokenizer.base tokenString].
  rewrite forallb_app, Htoks. simpl. rewrite andb_true_r.
  unfold pyTokenOk. simpl. apply python_class_end; [exact Hbuf |].
  intros Hnil. rewrite <- length_chars, Hnil in Hidx. simpl in Hidx. lia.
Qed.
(* ================================================================== *)
(** ** The classes of the TypeScript tokens *)

Section TypeScriptClasses.
Local Open Scope nat_scope.

Lemma ts_matcher_table (m : StringExpressionMatcher.t) (c : ascii) :
  m = afterNothing \/ m = afterSlash \/ m = afterStar ->
  exists p,
    StringExpressionMatcher.next m c = Ok p
    /\ (afterMatch p = afterSlash -> TypeScriptTokenizer.isCh c "/" = true)
    /\ (snd p <> None -> afterMatch p = afterNothing)
    /\ (TypeScriptTokenizer.isKey (snd p) "MULTILINE_COMMENT_START" = true
        -> m = afterSlash /\ TypeScriptTokenizer.isCh c "*" = true)
    /\ (TypeScriptTokenizer.isKey (snd p) "COMMENT_START" = true
        -> m = afterSlash /\ TypeScriptTokenizer.isCh c "/" = true).
Proof.
  intros Hm. unfold StringExpressionMatcher.next, next.
  destruct Hm as [-> | [-> | ->]];
    (destruct (Ascii.eqb c "/"%char) eqn:E1;
     [ apply Ascii.eqb_eq in E1; subst c
     | destruct (Ascii.eqb c "*"%char) eqn:E2;
       [ apply Ascii.eqb_eq in E2; subst c | ] ]);
    unfold afterNothing, afterSlash, afterStar, tsMatcher in *; simpl;
    rewrite ?E1, ?E2; simpl;
    (eexists; split; [reflexivity |]);
    unfold afterMatch; simpl;
    (split; [intros H; try discriminate H; try reflexivity |]);
    (split; [intros H; try reflexivity; try (exfalso; apply H; reflexivity) |]);
    (split; intros H; try discriminate H; split; reflexivity).
Qed.

Lemma ts_isCh_eq (c a : ascii) :
  TypeScriptTokenizer.isCh c (String a EmptyString) = true -> c = a.
Proof.
  unfold TypeScriptTokenizer.isCh. intros H. apply String.eqb_eq in H. now inv H.
Qed.

(** Names the character that a successful test has found. *)
Ltac known_char :=
  repeat match goal with
         | H : (_ || _)%bool = true |- _ => apply orb_prop in H; destruct H as [H | H]
         | H : TypeScriptTokenizer.isCh ?c _ = true |- _ =>
             is_var c; apply ts_isCh_eq in H; subst c
         end.

Lemma ts_plain_others (buf : list ascii) :
  buf <> [] -> forallb tsPlain buf = true -> tsClassOk OTHERS buf = true.
Proof.
  destruct buf as [| a [| b [| d buf]]]; intros Hne H; [contradiction | | |].
  - simpl in *. rewrite andb_true_r in H. rewrite H. apply orb_true_r.
  - cbn [tsClassOk]. rewrite H. apply orb_true_r.
  - exact H.
Qed.

Lemma tsCommentStart_app (buf l : list ascii) :
  tsCommentStart buf = true -> tsCommentStart (buf ++ l) = true.
Proof.
  destruct buf as [| a [| b buf]]; simpl; intros H; try discriminate.
  - rewrite andb_false_r, orb_false_r in H. now rewrite H.
  - exact H.
Qed.

(** The empty buffer, outside comments and strings, after a character
    that is no slash. *)
Lemma tsBufOk_empty (st : TypeScriptTokenizer.State) :
  TypeScriptTokenizer.insideSingleLineComments st = false ->
  TypeScriptTokenizer.insideStringStatus st = TypeScriptTokenizer.NONE ->
  TypeScriptTokenizer.stringMatcher st <> afterSlash ->
  tsBufOk st [].
Proof.
  intros Hc Hs Hm. unfold tsBufOk. rewrite Hc, Hs. split; [reflexivity |].
  intros H. contradiction.
Qed.

(** [handleOtherSituation] outside comments and strings: the class of
    the character alone, or the state and the buffer that the character
    starts. *)
Lemma ts_handleOther_spec (st st2 : TypeScriptTokenizer.State) (c : ascii)
  (mo : option string) (ty : option TokenType) (k : nat) :
  TypeScriptTokenizer.insideSingleLineComments st = false ->
  TypeScriptTokenizer.insideStringStatus st = TypeScriptTokenizer.NONE ->
  (TypeScriptTokenizer.stringMatcher st = afterSlash -> TypeScriptTokenizer.isCh c "/" = true) ->
  (TypeScriptTokenizer.isKey mo "MULTILINE_COMMENT_START" = true
   -> TypeScriptTokenizer.isCh c "*" = true) ->
  (TypeScriptTokenizer.isKey mo "COMMENT_START" = true
   -> TypeScriptTokenizer.isCh c "/" = true) ->
  TypeScriptTokenizer.handleOtherSituation st c mo = (st2, (ty, k)) ->
  match ty with
  | Some t => k = 1 /\ tsClassOk t [c] = true /\ t <> CONTINUATION /\ tsBufOk st2 []
  | None =>
      tsBufOk st2 [c]
      /\ (k = 0 \/ k = 1 \/ k = 2)
      /\ (k = 0 -> tsPlain c = true /\ st2 = st)
      /\ (k = 2 -> forall a, TypeScriptTokenizer.isCh a "/" = true -> tsBufOk st2 [a; c])
  end.
Proof.
  intros Hc Hs Hslash Hstar Hcom H. unfold TypeScriptTokenizer.handleOtherSituation in H.
  assert (Hempty : TypeScriptTokenizer.isCh c "/" = false -> tsBufOk st []).
  { intros Hn. apply tsBufOk_empty; auto. intros Hm. rewrite (Hslash Hm) in Hn. discriminate. }
  destruct st as [comments status escape sm]. simpl in Hc, Hs. subst comments status.
  destruct (TypeScriptTokenizer.isCh c "{" || TypeScriptTokenizer.isCh c "}"
            || TypeScriptTokenizer.isCh c "[" || TypeScriptTokenizer.isCh c "]"
            || TypeScriptTokenizer.isCh c "(" || TypeScriptTokenizer.isCh c ")") eqn:E1.
  { inv H. split; [reflexivity |]. cbn [tsClassOk]. unfold tsBrace. rewrite E1.
    split; [reflexivity |]. split; [discriminate |]. apply Hempty. known_char; reflexivity. }
  destruct (TypeScriptTokenizer.isCh c " " || TypeScriptTokenizer.isCh c Js.tab
            || TypeScriptTokenizer.isCh c Js.newline || TypeScriptTokenizer.isCh c ";") eqn:E2.
  { inv H. split; [reflexivity |]. cbn [tsClassOk]. unfold tsSpacing. rewrite E2.
    split; [reflexivity |]. split; [discriminate |]. apply Hempty. known_char; reflexivity. }
  destruct (TypeScriptTokenizer.isCh c ",") eqn:E3.
  { inv H. split; [reflexivity |]. cbn [tsClassOk]. rewrite E3.
    split; [reflexivity |]. split; [discriminate |]. apply Hempty. known_char; reflexivity. }
  destruct (TypeScriptTokenizer.isCh c ":" || TypeScriptTokenizer.isCh c "<"
            || TypeScriptTokenizer.isCh c ">") eqn:E4.
  { inv H. split; [reflexivity |]. cbn [tsClassOk]. unfold tsSingle. rewrite E4.
    split; [reflexivity |]. split; [discriminate |]. apply Hempty. known_char; reflexivity. }
  destruct (TypeScriptTokenizer.isCh c "=") eqn:E5.
  { inv H. split.
    - unfold tsBufOk. simpl. exists c. auto.
    - split; [auto |]. split; intros; discriminate. }
  destruct (TypeScriptTokenizer.isCh c "`") eqn:E6.
  { inv H. split.
    - unfold tsBufOk. simpl. exists c, []. auto.
    - split; [auto |]. split; intros; discriminate. }
  destruct (TypeScriptTokenizer.isCh c "'") eqn:E7.
  { inv H. split.
    - unfold tsBufOk. simpl. exists c, []. auto.
    - split; [auto |]. split; intros; discriminate. }
  destruct (TypeScriptTokenizer.isCh c Js.dquote) eqn:E8.
  { inv H. split.
    - unfold tsBufOk. simpl. exists c, []. auto.
    - split; [auto |]. split; intros; discriminate. }
  destruct (TypeScriptTokenizer.isKey mo "MULTILINE_COMMENT_START") eqn:E9.
  { inv H. specialize (Hstar eq_refl). split.
    - unfold tsBufOk. simpl. now rewrite Hstar.
    - split; [auto |]. split; [intros; discriminate |].
      intros _ a Ha. unfold tsBufOk. simpl. rewrite Ha, Hstar. apply orb_true_r. }
  destruct (TypeScriptTokenizer.isKey mo "COMMENT_START") eqn:E10.
  { inv H. specialize (Hcom eq_refl). split.
    - unfold tsBufOk. simpl. split; [reflexivity |]. exists c, []. auto.
    - split; [auto |]. split; [intros; discriminate |].
      intros _ a Ha. unfold tsBufOk. simpl. split; [reflexivity |].
      exists a, [c]. split; [reflexivity |]. split; [exact Ha |].
      known_char. reflexivity. }
  inv H.
  assert (Hp : tsPlain c = true).
  { unfold tsPlain, tsBrace, tsSpacing, tsSingle, tsQuote.
    now rewrite E1, E2, E3, E4, E5, E6, E7, E8. }
  split.
  - unfold tsBufOk. simpl. rewrite Hp. split; [reflexivity |].
    intros Hm. exists [], c. split; [reflexivity | now apply Hslash].
  - split; [auto |]. split; [auto |]. intros; discriminate.
Qed.

Lemma tsNoLineFeed_snoc (l : list ascii) (c : ascii) :
  tsNoLineFeed l = true -> TypeScriptTokenizer.isCh c Js.newline = false ->
  tsNoLineFeed (l ++ [c]) = true.
Proof.
  unfold tsNoLineFeed. intros Hl Hc. rewrite forallb_app, Hl. simpl. now rewrite Hc.
Qed.

Lemma ts_handleQuote_spec (q : string)
  (st st' : TypeScriptTokenizer.State) (c : ascii) (buf : list ascii) (mr : option MatchResult) :
  (forall x, TypeScriptTokenizer.isCh x q = true
             -> tsQuote x = true /\ TypeScriptTokenizer.isCh x "/" = false
                /\ TypeScriptTokenizer.isCh x Js.newline = false) ->
  TypeScriptTokenizer.insideSingleLineComments st = false ->
  (TypeScriptTokenizer.stringMatcher st = afterSlash -> TypeScriptTokenizer.isCh c "/" = true) ->
  tsQuoteBuf q buf ->
  (forall st0 b, TypeScriptTokenizer.insideSingleLineComments st0 = false ->
                 TypeScriptTokenizer.insideStringStatus st0
                 = TypeScriptTokenizer.insideStringStatus st ->
                 tsQuoteBuf q b -> tsBufOk st0 b) ->
  TypeScriptTokenizer.handleQuoteSituation q st c = (st', mr) ->
  tsStepOk st' mr buf c.
Proof.
  intros Hquote Hc Hslash (h & rest & -> & Hh & Hrest) HqS H.
  unfold TypeScriptTokenizer.handleQuoteSituation in H.
  destruct st as [comments status escape sm]. simpl in *. subst comments.
  assert (Hnone : TypeScriptTokenizer.isCh c "/" = false ->
                  forall e, tsBufOk (TypeScriptTokenizer.mkState false TypeScriptTokenizer.NONE e sm) []).
  { intros Hn e. apply tsBufOk_empty; [reflexivity | reflexivity |]. simpl.
    intros Hm. rewrite (Hslash Hm) in Hn. discriminate. }
  destruct (Hquote h Hh) as (Hq1 & _ & _).
  destruct (TypeScriptTokenizer.isCh c q && negb escape) eqn:E1.
  - apply andb_true_iff in E1. destruct E1 as [Ecq _].
    destruct (Hquote c Ecq) as (_ & Hq2 & Hq3).
    inv H. simpl. split; [reflexivity |]. split; [| now apply Hnone].
    rewrite Hq1. now apply tsNoLineFeed_snoc.
  - destruct (TypeScriptTokenizer.isCh c Js.newline) eqn:E2.
    + inv H. simpl. split; [reflexivity |].
      split; [intros _; now rewrite Hq1 |].
      split; [unfold tsSpacing; rewrite E2; now rewrite !orb_true_r |].
      apply Hnone. known_char. reflexivity.
    + assert (Hgo : forall e, tsBufOk (TypeScriptTokenizer.mkState false status e sm)
                                     ((h :: rest) ++ [c])).
      { intros e. apply HqS; [reflexivity | reflexivity |].
        exists h, (rest ++ [c]). split; [reflexivity |]. split; [exact Hh |].
        now apply tsNoLineFeed_snoc. }
      destruct (TypeScriptTokenizer.isCh c Js.backslash); inv H; simpl; apply Hgo.
Qed.

Lemma ts_handleBackticks_spec
  (st st' : TypeScriptTokenizer.State) (c : ascii) (buf : list ascii) (mr : option MatchResult) :
  TypeScriptTokenizer.insideSingleLineComments st = false ->
  TypeScriptTokenizer.insideStringStatus st = TypeScriptTokenizer.MULTILINE_BACKTICKS ->
  (TypeScriptTokenizer.stringMatcher st = afterSlash -> TypeScriptTokenizer.isCh c "/" = true) ->
  tsBufOk st buf ->
  TypeScriptTokenizer.handleMultilineBackticksSituation st c = (st', mr) ->
  tsStepOk st' mr buf c.
Proof.
  intros Hc Hs Hslash Hbuf H. unfold tsBufOk in Hbuf. rewrite Hc, Hs in Hbuf.
  destruct Hbuf as (h & rest & -> & Hh).
  unfold TypeScriptTokenizer.handleMultilineBackticksSituation in H.
  destruct st as [comments status escape sm]. simpl in *. subst comments status.
  assert (Hgo : forall e, tsBufOk (TypeScriptTokenizer.mkState
                                     false TypeScriptTokenizer.MULTILINE_BACKTICKS e sm)
                                  ((h :: rest) ++ [c])).
  { intros e. unfold tsBufOk. simpl. exists h, (rest ++ [c]). auto. }
  destruct (TypeScriptTokenizer.isCh c "`" && negb escape) eqn:E1.
  - apply andb_true_iff in E1. destruct E1 as [Ecq _].
    inv H. simpl. split; [reflexivity |]. split; [now rewrite Hh |].
    apply tsBufOk_empty; [reflexivity | reflexivity |]. simpl.
    intros Hm. specialize (Hslash Hm). known_char. discriminate.
  - destruct (TypeScriptTokenizer.isCh c Js.backslash); inv H; simpl; apply Hgo.
Qed.

Lemma ts_handleComments_spec
  (st st' : TypeScriptTokenizer.State) (c : ascii) (mo : option string)
  (buf : list ascii) (mr : option MatchResult) :
  TypeScriptTokenizer.insideSingleLineComments st = false ->
  TypeScriptTokenizer.insideStringStatus st = TypeScriptTokenizer.MULTILINE_COMMENTS ->
  (mo <> None -> TypeScriptTokenizer.stringMatcher st = afterNothing) ->
  tsBufOk st buf ->
  TypeScriptTokenizer.handleMultilineCommentsSituation st c mo = (st', mr) ->
  tsStepOk st' mr buf c.
Proof.
  intros Hc Hs Hreset Hbuf H. unfold tsBufOk in Hbuf. rewrite Hc, Hs in Hbuf.
  unfold TypeScriptTokenizer.handleMultilineCommentsSituation in H.
  destruct st as [comments status escape sm]. simpl in *. subst comments status.
  pose proof (tsCommentStart_app buf [c] Hbuf) as Happ.
  destruct (TypeScriptTokenizer.isKey mo "MULTILINE_COMMENT_END") eqn:E1.
  - inv H. simpl. split; [reflexivity |]. split.
    + destruct (buf ++ [c]) as [| a l] eqn:El; [discriminate |].
      rewrite Happ. apply orb_true_r.
    + apply tsBufOk_empty; [reflexivity | reflexivity |]. simpl.
      rewrite Hreset by (destruct mo; [discriminate | discriminate]). discriminate.
  - inv H. simpl. unfold tsBufOk. simpl. exact Happ.
Qed.

Lemma ts_handleEquals_spec
  (st st' : TypeScriptTokenizer.State) (c : ascii) (mo : option string)
  (buf : list ascii) (mr : option MatchResult) :
  TypeScriptTokenizer.insideSingleLineComments st = false ->
  TypeScriptTokenizer.insideStringStatus st = TypeScriptTokenizer.EQUALS ->
  (TypeScriptTokenizer.stringMatcher st = afterSlash -> TypeScriptTokenizer.isCh c "/" = true) ->
  (TypeScriptTokenizer.isKey mo "MULTILINE_COMMENT_START" = true
   -> TypeScriptTokenizer.isCh c "*" = true) ->
  (TypeScriptTokenizer.isKey mo "COMMENT_START" = true
   -> TypeScriptTokenizer.isCh c "/" = true) ->
  tsBufOk st buf ->
  TypeScriptTokenizer.handleEqualsSituation st c mo = (st', mr) ->
  tsStepOk st' mr buf c.
Proof.
  intros Hc Hs Hslash Hstar Hcom Hbuf H. unfold tsBufOk in Hbuf. rewrite Hc, Hs in Hbuf.
  destruct Hbuf as (e & -> & He).
  unfold TypeScriptTokenizer.handleEqualsSituation in H.
  destruct st as [comments status escape sm]. simpl in *. subst comments status.
  unfold TypeScriptTokenizer.setStatus in H. simpl in H.
  assert (Heq : tsClassOk OTHERS [e] = true).
  { cbn [tsClassOk]. rewrite He. now rewrite orb_true_r. }
  destruct (TypeScriptTokenizer.isCh c ">") eqn:E1.
  - inv H. simpl. split; [reflexivity |]. split; [now rewrite He, E1 |].
    apply tsBufOk_empty; [reflexivity | reflexivity |]. simpl.
    intros Hm. specialize (Hslash Hm). known_char. discriminate.
  - destruct (TypeScriptTokenizer.handleOtherSituation
                (TypeScriptTokenizer.mkState false TypeScriptTokenizer.NONE escape sm) c mo)
      as [st2 [ty k]] eqn:Eo.
    pose proof (ts_handleOther_spec
                  (TypeScriptTokenizer.mkState false TypeScriptTokenizer.NONE escape sm)
                  st2 c mo ty k eq_refl eq_refl Hslash Hstar Hcom Eo) as Ho.
    destruct ty as [ty |]; inv H; simpl.
    + destruct Ho as (_ & Ho1 & Ho2 & Ho3). split; [reflexivity |].
      split; [intros _; exact Heq |].
      destruct (TokenType_eqb ty CONTINUATION) eqn:Ec;
        [destruct ty; try discriminate; contradiction |].
      split; [exact Ho1 | exact Ho3].
    + destruct Ho as (Ho1 & _). split; [reflexivity |].
      split; [intros _; exact Heq | exact Ho1].
Qed.

(** The answers of [matchNext] are as they have to be. *)
Lemma ts_matchNext_spec (st st' : TypeScriptTokenizer.State) (b1 : TokenizerBase) (c : ascii)
  (buf : list ascii) (mr : option MatchResult) :
  (TypeScriptTokenizer.stringMatcher st = afterNothing
   \/ TypeScriptTokenizer.stringMatcher st = afterSlash
   \/ TypeScriptTokenizer.stringMatcher st = afterStar) ->
  Js.chars (stringBuffer b1) = buf ++ [c] ->
  tsBufOk st buf ->
  TypeScriptTokenizer.matchNext st b1 c = Ok (st', mr) ->
  tsStepOk st' mr buf c.
Proof.
  intros Hm Hb1 Hbuf H. unfold TypeScriptTokenizer.matchNext in H.
  destruct (ts_matcher_table _ c Hm) as ([m' mo] & Hnext & T1 & T2 & T3 & T4).
  rewrite Hnext in H. clear Hnext. cbn [bind] in H. cbv beta iota zeta in H.
  unfold afterMatch in T1, T2. cbn [fst snd] in *.
  destruct st as [comments status escape sm]. simpl in Hm, T3, T4.
  unfold TypeScriptTokenizer.setMatcher in H.
  cbn [TypeScriptTokenizer.insideSingleLineComments TypeScriptTokenizer.insideStringStatus
       TypeScriptTokenizer.previousIsEscape TypeScriptTokenizer.stringMatcher] in H.
  match type of T1 with ?e = _ -> _ => set (m2 := e) in * end.
  clearbody m2.
  assert (Hq1 : forall x, TypeScriptTokenizer.isCh x "'" = true
                          -> tsQuote x = true /\ TypeScriptTokenizer.isCh x "/" = false
                             /\ TypeScriptTokenizer.isCh x Js.newline = false).
  { intros x Hx. known_char. repeat split. }
  assert (Hq2 : forall x, TypeScriptTokenizer.isCh x Js.dquote = true
                          -> tsQuote x = true /\ TypeScriptTokenizer.isCh x "/" = false
                             /\ TypeScriptTokenizer.isCh x Js.newline = false).
  { intros x Hx. known_char. repeat split. }
  assert (Hstar : TypeScriptTokenizer.isKey mo "MULTILINE_COMMENT_START" = true
                  -> TypeScriptTokenizer.isCh c "*" = true) by (intros K; now apply T3).
  assert (Hcom : TypeScriptTokenizer.isKey mo "COMMENT_START" = true
                 -> TypeScriptTokenizer.isCh c "/" = true) by (intros K; now apply T4).
  unfold tsBufOk in Hbuf. simpl in Hbuf.
  destruct comments.
  - destruct Hbuf as (Hs & h & rest & -> & Hh & Hrest). subst status.
    destruct (TypeScriptTokenizer.isCh c Js.newline) eqn:En; inv H.
    + simpl. split; [reflexivity |]. split; [intros _; now rewrite Hh |].
      split; [unfold tsSpacing; rewrite En; now rewrite !orb_true_r |].
      apply tsBufOk_empty; [reflexivity | reflexivity |]. simpl.
      intros K. specialize (T1 K). known_char. discriminate.
    + simpl. unfold tsBufOk. simpl. split; [reflexivity |].
      exists h, (rest ++ [c]). split; [reflexivity |]. split; [exact Hh |].
      now apply tsNoLineFeed_snoc.
  - destruct status.
    + (* outside comments and strings *)
      destruct Hbuf as [Hplain Hend].
      destruct (TypeScriptTokenizer.handleOtherSituation
                  (TypeScriptTokenizer.mkState false TypeScriptTokenizer.NONE escape m2) c mo)
        as [st2 [ty k]] eqn:Eo.
      pose proof (ts_handleOther_spec
                    (TypeScriptTokenizer.mkState false TypeScriptTokenizer.NONE escape m2)
                    st2 c mo ty k eq_refl eq_refl T1 Hstar Hcom Eo) as Ho.
      unfold AbstractTokenizer.currentBufferLength in H.
      rewrite <- length_chars, Hb1, length_app in H. simpl in H.
      destruct ty as [ty |].
      * destruct Ho as (-> & Ho1 & Ho2 & Ho3). simpl in H.
        destruct (List.length buf + 1 =? 1) eqn:El; inv H; simpl.
        -- apply Nat.eqb_eq in El.
           assert (buf = []) by (destruct buf; [reflexivity | simpl in El; lia]). subst buf.
           split; [reflexivity |]. split; [exact Ho1 | exact Ho3].
        -- split; [reflexivity |]. split; [intros Hne; now apply ts_plain_others |].
           destruct (TokenType_eqb ty CONTINUATION) eqn:Ect;
             [destruct ty; try discriminate; contradiction |].
           split; [exact Ho1 | exact Ho3].
      * destruct Ho as (Ho1 & Hk & Ho2 & Ho3).
        destruct Hk as [-> | [-> | ->]]; simpl in H.
        -- inv H. simpl. destruct (Ho2 eq_refl) as [Hp ->].
           unfold tsBufOk. simpl. rewrite forallb_app, Hplain. simpl. rewrite Hp.
           split; [reflexivity |]. intros K. exists buf, c. split; [reflexivity | now apply T1].
        -- destruct (List.length buf + 1 =? 1) eqn:El; inv H; simpl.
           ++ apply Nat.eqb_eq in El.
              assert (buf = []) by (destruct buf; [reflexivity | simpl in El; lia]). subst buf.
              exact Ho1.
           ++ split; [reflexivity |]. split; [intros Hne; now apply ts_plain_others | exact Ho1].
        -- assert (Hold : sm = afterSlash).
           { unfold TypeScriptTokenizer.handleOtherSituation in Eo.
             repeat match type of Eo with
                    | (if ?t then _ else _) = _ => destruct t eqn:?; [inv Eo |]
                    end.
             - now apply T3.
             - now apply T4.
             - inv Eo. }
           destruct (Hend Hold) as (pre & a & -> & Ha).
           rewrite length_app in H. simpl in H.
           destruct (List.length pre + 1 + 1 =? 2) eqn:El; inv H; simpl.
           ++ apply Nat.eqb_eq in El.
              assert (pre = []) by (destruct pre; [reflexivity | simpl in El; lia]). subst pre.
              simpl. now apply Ho3.
           ++ split; [reflexivity |].
              split; [intros Hne; now apply ts_plain_others | exact Ho1].
    + injection H as H. eapply (ts_handleQuote_spec "'"); try exact H;
        [exact Hq1 | reflexivity | exact T1 | exact Hbuf |].
      intros st0 b C0 S0 Q0. unfold tsBufOk. now rewrite C0, S0.
    + injection H as H. eapply (ts_handleQuote_spec Js.dquote); try exact H;
        [exact Hq2 | reflexivity | exact T1 | exact Hbuf |].
      intros st0 b C0 S0 Q0. unfold tsBufOk. now rewrite C0, S0.
    + injection H as H. eapply ts_handleBackticks_spec; try exact H;
        [reflexivity | reflexivity | exact T1 | exact Hbuf].
    + injection H as H. eapply ts_handleComments_spec; try exact H;
        [reflexivity | reflexivity | exact T2 | exact Hbuf].
    + injection H as H. eapply ts_handleEquals_spec; try exact H;
        [reflexivity | reflexivity | exact T1 | exact Hstar | exact Hcom | exact Hbuf].
Qed.

End TypeScriptClasses.
Section TypeScriptClassRuns.
Local Open Scope nat_scope.

Lemma ts_tokenOk_class (t : Token) (ty : TokenType) (l : list ascii) :
  tokenType t = ty -> Js.chars (stringContents t) = l -> tsClassOk ty l = true ->
  tsTokenOk t = true.
Proof. intros <- <- H. exact H. Qed.

(** One character keeps the tokens in their classes. *)
Lemma typescript_class_step (tk tk' : AbstractTokenizer.t TypeScriptTokenizer.lexer)
  (fed : list ascii) (c : ascii) :
  lexInv tk fed -> tsInv tk -> tsClassInv tk ->
  AbstractTokenizer.next tk (Some c) = Ok tk' -> tsClassInv tk'.
Proof.
  intros (_ & _ & _ & Hidx) [Hmatcher _] [Hbuf Htoks] H.
  destruct (next_char_cases tk tk' c Hidx H) as (b1 & mr & Hb1 & Hm & Hcases).
  pose proof (ts_matchNext_spec _ _ _ _ _ _ Hmatcher Hb1 Hbuf Hm) as Hstep.
  unfold tsClassInv. destruct mr as [m |]; cbn [tsStepOk] in Hstep.
  - destruct Hstep as [Hk Hstep]. destruct (singleChType m) as [sct |].
    + destruct (Hcases Hk) as (Hne & t & T1 & T2 & Hrest). destruct Hstep as [S1 S2].
      pose proof (ts_tokenOk_class t _ _ T1 T2 (S1 Hne)) as Ht.
      destruct (TokenType_eqb sct CONTINUATION).
      * destruct Hrest as [-> ->]. split; [exact S2 |].
        rewrite forallb_app, Htoks. simpl. now rewrite Ht.
      * destruct Hrest as (t2 & -> & U1 & U2 & ->). destruct S2 as [S2 S3].
        split; [exact S3 |].
        rewrite forallb_app, Htoks. simpl.
        now rewrite Ht, (ts_tokenOk_class t2 _ _ U1 U2 S2).
    + destruct Hcases as (t & -> & T1 & T2 & ->). destruct Hstep as [S1 S2].
      split; [exact S2 |].
      rewrite forallb_app, Htoks. simpl. now rewrite (ts_tokenOk_class t _ _ T1 T2 S1).
  - destruct Hcases as [-> ->]. split; [exact Hstep | exact Htoks].
Qed.

(** The token that the end of the stream makes of the buffer. *)
Lemma typescript_class_end (st : TypeScriptTokenizer.State) (buf : list ascii) :
  tsBufOk st buf -> buf <> [] ->
  tsClassOk (TypeScriptTokenizer.matchEndCharacter st) buf = true.
Proof.
  unfold tsBufOk, TypeScriptTokenizer.matchEndCharacter. intros H Hne.
  destruct (TypeScriptTokenizer.insideSingleLineComments st).
  - destruct H as (_ & h & rest & -> & Hh & Hrest). simpl. now rewrite Hh.
  - destruct (TypeScriptTokenizer.insideStringStatus st).
    + destruct H as [H _]. now apply ts_plain_others.
    + destruct H as (h & rest & -> & Hh & Hrest). simpl. unfold tsQuote. now rewrite Hh.
    + destruct H as (h & rest & -> & Hh & Hrest). simpl. unfold tsQuote. rewrite Hh.
      now rewrite orb_true_r.
    + destruct H as (h & rest & -> & Hh). simpl. now rewrite Hh.
    + destruct buf as [| a l]; [contradiction |]. cbn [tsClassOk]. rewrite H.
      apply orb_true_r.
    + destruct H as (e & -> & He). cbn [tsClassOk]. rewrite He. now rewrite orb_true_r.
Qed.

Lemma typescript_class_run (tk : AbstractTokenizer.t TypeScriptTokenizer.lexer)
  (fed : list ascii) (c : ascii) :
  lexInv tk fed -> tsInv tk /\ tsClassInv tk ->
  exists tk', AbstractTokenizer.next tk (Some c) = Ok tk' /\ (tsInv tk' /\ tsClassInv tk').
Proof.
  intros Hinv [HJ Hc].
  destruct (typescript_lexer_step tk fed c Hinv HJ) as [tk' [Hnext HJ']].
  exists tk'. split; [exact Hnext |]. split; [exact HJ' |].
  eapply typescript_class_step; eauto.
Qed.

End TypeScriptClassRuns.

(** X21. The classes of the TypeScript tokens. For every text,
    [tokenizeTypeScript] returns tokens of which every one is of the class
    of its type: a brace token is one of the six braces, a spacing token is
    one space, tab, line feed or semicolon, a comma token is a comma; a
    single-line comment starts with a slash and holds no line feed; a
    string starts with a quote and holds no line feed; a multi-line comment
    or string starts with a backtick, with [/*] or with a star; and any
    other token is one of [:], [<], [>], [=], the arrow [=>], or a run of
    characters that are none of these, slashes and stars among them. A
    comment that follows other characters leaves its first slash to the
    token before it: [a//c] gives [a/] and [/c], and [a/*x*/b] gives [a/],
    [*x*/] and [b]. *)
Theorem typescript_tokens_are_of_their_classes :
  (forall x : string,
      exists toks, tokenizeTypeScript x = Ok toks /\ forallb tsTokenOk toks = true)
  /\ (exists toks, tokenizeTypeScript "a//c" = Ok toks
                   /\ tokenTexts toks = [(OTHERS, "a/"); (SINGLELINE_COMMENTS, "/c")])
  /\ (exists toks, tokenizeTypeScript "a/*x*/b" = Ok toks
                   /\ tokenTexts toks
                      = [(OTHERS, "a/"); (MULTILINE_COMMENTS_OR_STRINGS, "*x*/"); (OTHERS, "b")]).
Proof.
  split; [| split; eexists; (split; [vm_compute; reflexivity | reflexivity])].
  intros x.
  destruct typescript_tokenizer_initial as [tk0 [H0 [Hinv HJ]]].
  unfold tokenizeTypeScript. rewrite H0. simpl.
  assert (Hc0 : tsClassInv tk0).
  { unfold TypeScriptTokenizer.constructor in H0. simpl in H0. inv H0.
    split; [| reflexivity]. unfold tsBufOk. simpl. split; [reflexivity | discriminate]. }
  destruct (feed_total (fun tk => tsInv tk /\ tsClassInv tk) typescript_class_run
                       (Js.chars x) tk0 [] Hinv (conj HJ Hc0))
    as [tk [Hfeed [Hinv' [_ [Hbuf Htoks]]]]].
  rewrite Hfeed. simpl.
  destruct Hinv' as (Hend & _ & _ & Hidx).
  unfold AbstractTokenizer.next. rewrite Hend. simpl.
  eexists. split; [reflexivity |].
  destruct (tokStartIdx (AbstractTokenizer.base tk) <? charIdx (AbstractTokenizer.base tk))%nat
    eqn:E; [| exact Htoks].
  apply Nat.ltb_lt in E. unfold AbstractTokenizer.getTokens.
  cbn [AbstractTokenizer.base tokenString].
  rewrite forallb_app, Htoks. simpl. rewrite andb_true_r.
  unfold tsTokenOk. simpl. apply typescript_class_end; [exact Hbuf |].
  intros Hnil. rewrite <- length_chars, Hnil in Hidx. simpl in Hidx. lia.
Qed.
(* ================================================================== *)
(** ** The tokens of the parser and the tokens of the lexer *)

Section FrontEndTokens.
Variable L : Language.

Lemma feed_app (a b : list ascii) :
  forall tk : AbstractTokenizer.t (lexer L),
    AbstractTokenizer.feed tk (a ++ b)
    = (tk1 <- AbstractTokenizer.feed tk a ;; AbstractTokenizer.feed tk1 b).
Proof.
  induction a as [| c a IH]; intros tk; simpl; [reflexivity |].
  destruct (AbstractTokenizer.next tk (Some c)) as [tk1 |]; simpl; [apply IH | reflexivity].
Qed.

(** The loop over one line feeds the characters of the line and a line
    feed, whatever it records in the position map. *)
Lemma feedLine_feed (chars : list ascii) :
  forall (lineIndex character_ : nat) (positionMap positionMap' : list Index)
         (tk tk' : AbstractTokenizer.t (lexer L)),
    AbstractParser.feedLine L lineIndex chars character_ positionMap tk = Ok (positionMap', tk') ->
    AbstractTokenizer.feed tk (chars ++ [Js.nl]) = Ok tk'.
Proof.
  induction chars as [| c chars IH]; intros lineIndex character_ pm pm' tk tk' H; simpl in *.
  - destruct (AbstractTokenizer.next tk (Some Js.nl)) as [tk1 |]; simpl in *; [| discriminate].
    now inv H.
  - destruct (AbstractTokenizer.next tk (Some c)) as [tk1 |]; simpl in *; [| discriminate].
    eapply IH; eauto.
Qed.

Lemma feedLines_feed (codeLines : list string) :
  forall (lineIndex : nat) (positionMap positionMap' : list Index)
         (tk tk' : AbstractTokenizer.t (lexer L)),
    AbstractParser.feedLines L codeLines lineIndex positionMap tk = Ok (positionMap', tk') ->
    AbstractTokenizer.feed tk (fedLines codeLines) = Ok tk'.
Proof.
  induction codeLines as [| l codeLines IH]; intros lineIndex pm pm' tk tk' H; simpl in *.
  - now inv H.
  - destruct (AbstractParser.feedLine L lineIndex (Js.chars l) 0%nat pm tk)
      as [[pm1 tk1] |] eqn:E; simpl in H; [| discriminate].
    change (fedLines (l :: codeLines)) with ((Js.chars l ++ [Js.nl]) ++ fedLines codeLines).
    rewrite feed_app, (feedLine_feed _ _ _ _ _ _ _ E). simpl. eapply IH; eauto.
Qed.

(** The tokens of the front end are those of the tokenizer that has been
    fed the lines, a line feed after each, and then the end. *)
Lemma tokenizeLines_feed (det : DetState L) (codeLines : list string) (p : ParserBase) :
  AbstractParser.tokenizeLines L det codeLines = Ok p ->
  (tokenizer <- preparseGetTokenizer L det ;;
   tokenizer <- AbstractTokenizer.feed tokenizer (Js.chars (linesText codeLines)) ;;
   tokenizer <- AbstractTokenizer.next tokenizer None ;;
   Ok (AbstractTokenizer.getTokens tokenizer)) = Ok (sourceTokens p).
Proof.
  unfold AbstractParser.tokenizeLines. intros H.
  destruct (preparseGetTokenizer L det) as [tk0 |]; simpl in *; [| discriminate].
  destruct (AbstractParser.feedLines L codeLines 0%nat [] tk0) as [[pm tk] |] eqn:E;
    simpl in H; [| discriminate].
  rewrite chars_linesText, (feedLines_feed _ _ _ _ _ _ E). simpl.
  destruct (AbstractTokenizer.next tk None) as [tk' |]; simpl in *; [| discriminate].
  now inv H.
Qed.

End FrontEndTokens.

(** X22. The parser reads the tokens of the lexer. For every list of
    lines, the tokens that the front end of [parse] hands to the parser are
    the tokens that [tokenizePython], and [tokenizeTypeScript] for the
    TypeScript parser, return for the text of the lines with a line feed
    after each of them. *)
Theorem parse_reads_the_tokens_of_the_lexer (codeLines : list string) :
  (forall st : PythonParser.State,
      exists p, AbstractParser.tokenizeLines PythonParser.language st codeLines = Ok p
                /\ tokenizePython (linesText codeLines) = Ok (sourceTokens p))
  /\ (forall st : TypeScriptParser.State,
         exists p, AbstractParser.tokenizeLines TypeScriptParser.language st codeLines = Ok p
                   /\ tokenizeTypeScript (linesText codeLines) = Ok (sourceTokens p)).
Proof.
  split; intros st.
  - destruct python_tokenizer_initial as [tk0 [H0 [Hinv HJ]]].
    destruct (tokenizeLines_total PythonParser.language pyInv python_lexer_step st tk0
                                  codeLines H0 Hinv HJ) as [p [Hp _]].
    exists p. split; [exact Hp |].
    exact (tokenizeLines_feed PythonParser.language st codeLines p Hp).
  - destruct typescript_tokenizer_initial as [tk0 [H0 [Hinv HJ]]].
    destruct (tokenizeLines_total TypeScriptParser.language tsInv typescript_lexer_step st tk0
                                  codeLines H0 Hinv HJ) as [p [Hp _]].
    exists p. split; [exact Hp |].
    exact (tokenizeLines_feed TypeScriptParser.language st codeLines p Hp).
Qed.
(* ================================================================== *)
(** ** The life of a tokenizer: the end and [reset] *)

Section Lifecycle.
Variable L : Lexer.
Variable J : AbstractTokenizer.t L -> Prop.
Hypothesis J_step :
  forall tk fed c, lexInv tk fed -> J tk ->
                   exists tk', AbstractTokenizer.next tk (Some c) = Ok tk' /\ J tk'.
Variable tk0 : AbstractTokenizer.t L.
Hypothesis fresh : AbstractTokenizer.base tk0 = AbstractTokenizer.emptyBase.
Hypothesis J_fresh : J tk0.
Hypothesis J_reset : forall tk, J tk -> onReset L (AbstractTokenizer.sub tk) = AbstractTokenizer.sub tk0.

Lemma reset_fresh (tk : AbstractTokenizer.t L) :
  onReset L (AbstractTokenizer.sub tk) = AbstractTokenizer.sub tk0 ->
  AbstractTokenizer.reset tk = tk0.
Proof.
  intros H. unfold AbstractTokenizer.reset. rewrite H, <- fresh. now destruct tk0.
Qed.

Lemma tokenizer_life (x y : string) :
  (exists tk, lexAfter tk0 x false = Ok tk
              /\ lexFrom (AbstractTokenizer.reset tk) y = lexFrom tk0 y)
  /\ (exists tk, lexAfter tk0 x true = Ok tk
                 /\ (forall ch, AbstractTokenizer.next tk ch = Throw endedError)
                 /\ AbstractTokenizer.reset tk = tk0).
Proof.
  assert (Hinv0 : lexInv tk0 []).
  { unfold lexInv. rewrite fresh. simpl. repeat split; reflexivity. }
  destruct (feed_total J J_step (Js.chars x) tk0 [] Hinv0 J_fresh)
    as [tk [Hfeed [Hinv HJ]]].
  unfold lexAfter. rewrite Hfeed. simpl.
  pose proof (reset_fresh tk (J_reset tk HJ)) as Hr.
  split.
  - exists tk. split; [reflexivity | now rewrite Hr].
  - destruct Hinv as [Hend _]. unfold AbstractTokenizer.next at 1. rewrite Hend.
    eexists. split; [reflexivity |]. split.
    + intros ch. reflexivity.
    + apply reset_fresh. simpl. now apply J_reset.
Qed.

End Lifecycle.

Lemma typescript_reset (tk tk0 : AbstractTokenizer.t TypeScriptTokenizer.lexer) :
  TypeScriptTokenizer.constructor = Ok tk0 -> tsInv tk ->
  TypeScriptTokenizer.onReset (AbstractTokenizer.sub tk) = AbstractTokenizer.sub tk0.
Proof.
  intros H0 [Hm _]. unfold TypeScriptTokenizer.constructor in H0. simpl in H0. inv H0.
  unfold TypeScriptTokenizer.onReset. simpl.
  destruct Hm as [-> | [-> | ->]]; reflexivity.
Qed.

(** X23. The end of the stream and [reset]. For both lexers and every
    text [x]: once the text and the end of the stream have been fed, every
    further call of [next] throws, and [reset] gives the tokenizer that the
    constructor gives; and a tokenizer that is reset in the middle of [x]
    lexes every text [y] to the tokens of a new tokenizer, those of
    [tokenizePython(y)] and [tokenizeTypeScript(y)]. *)
Theorem reset_starts_the_tokenizer_afresh (x y : string) :
  (exists tk0, PythonTokenizer.constructor = Ok tk0
     /\ (exists tk, lexAfter tk0 x false = Ok tk
                    /\ lexFrom (AbstractTokenizer.reset tk) y = tokenizePython y)
     /\ (exists tk, lexAfter tk0 x true = Ok tk
                    /\ (forall ch, AbstractTokenizer.next tk ch = Throw endedError)
                    /\ AbstractTokenizer.reset tk = tk0))
  /\ (exists tk0, TypeScriptTokenizer.constructor = Ok tk0
        /\ (exists tk, lexAfter tk0 x false = Ok tk
                       /\ lexFrom (AbstractTokenizer.reset tk) y = tokenizeTypeScript y)
        /\ (exists tk, lexAfter tk0 x true = Ok tk
                       /\ (forall ch, AbstractTokenizer.next tk ch = Throw endedError)
                       /\ AbstractTokenizer.reset tk = tk0)).
Proof.
  split.
  - destruct python_tokenizer_initial as [tk0 [H0 [_ HJ]]].
    exists tk0. split; [exact H0 |].
    assert (Hfresh : AbstractTokenizer.base tk0 = AbstractTokenizer.emptyBase).
    { unfold PythonTokenizer.constructor in H0. now inv H0. }
    assert (Hreset : forall tk : AbstractTokenizer.t PythonTokenizer.lexer,
               pyInv tk -> onReset PythonTokenizer.lexer (AbstractTokenizer.sub tk)
                           = AbstractTokenizer.sub tk0).
    { intros tk _. unfold PythonTokenizer.constructor in H0. now inv H0. }
    destruct (tokenizer_life PythonTokenizer.lexer pyInv python_lexer_step tk0
                             Hfresh HJ Hreset x y) as [A B].
    split; [| exact B].
    destruct A as [tk [A1 A2]]. exists tk. split; [exact A1 |].
    rewrite A2. unfold lexFrom, tokenizePython. now rewrite H0.
  - destruct typescript_tokenizer_initial as [tk0 [H0 [_ HJ]]].
    exists tk0. split; [exact H0 |].
    assert (Hfresh : AbstractTokenizer.base tk0 = AbstractTokenizer.emptyBase).
    { unfold TypeScriptTokenizer.constructor in H0. simpl in H0. now inv H0. }
    destruct (tokenizer_life TypeScriptTokenizer.lexer tsInv typescript_lexer_step tk0
                             Hfresh HJ (fun tk H => typescript_reset tk tk0 H0 H) x y) as [A B].
    split; [| exact B].
    destruct A as [tk [A1 A2]]. exists tk. split; [exact A1 |].
    rewrite A2. unfold lexFrom, tokenizeTypeScript. now rewrite H0.
Qed.
(* ================================================================== *)
(** ** The declarations that the matcher of variable declarations reads *)

Section BracesMaps.
Local Open Scope nat_scope.

(** What the constructor of a braces matcher leaves in the two maps. *)
Lemma constructor_maps (braces : list Braces) (m : BracesMatcher.t) :
  BracesMatcher.constructor braces = Ok m ->
  (forall k c, recGet (BracesMatcher.openingToClosing m) k = Some c
               <-> exists b, In b braces /\ opening b = k /\ closing b = c)
  /\ (forall k, BracesMatcher.has (BracesMatcher.closingToOpening m) k = true
                <-> exists b, In b braces /\ closing b = k)
  /\ Forall (fun b => String.length (opening b) = 1 /\ String.length (closing b) = 1) braces
  /\ m = withStack m [].
Proof.
  intros Hc. unfold BracesMatcher.constructor in Hc.
  destruct (constructorLoop_maps braces [] [] [] m Hc) as (Hs & Ho & Hcl & Hone).
  { intros k Hk. now contradiction Hk. }
  split; [| split; [| split; [exact Hone |]]].
  - intros k c. rewrite Ho. split; [intros [? | ?]; [discriminate | assumption] | now right].
  - intros k. rewrite Hcl. split; [intros [? | ?]; [discriminate | assumption] | now right].
  - destruct m as [a b s]. simpl in Hs. subst s. reflexivity.
Qed.

Lemma isBraceOf_opening (braces : list Braces) (b : Braces) :
  In b braces -> isBraceOf braces (opening b) = true.
Proof.
  intros Hin. unfold isBraceOf. apply orb_true_iff. left.
  apply existsb_exists. exists b. split; [exact Hin | apply String.eqb_refl].
Qed.

Lemma isBraceOf_closing (braces : list Braces) (b : Braces) :
  In b braces -> isBraceOf braces (closing b) = true.
Proof.
  intros Hin. unfold isBraceOf. apply orb_true_iff. right.
  apply existsb_exists. exists b. split; [exact Hin | apply String.eqb_refl].
Qed.

End BracesMaps.

Section VarDecl.
Local Open Scope nat_scope.
Variable m0 : TypeScriptVarDeclMatcher.t.
Hypothesis built : TypeScriptVarDeclMatcher.constructor = Ok m0.

Lemma constructor_parts :
  BracesMatcher.constructor TypeScriptVarDeclMatcher.typeBraces
  = Ok (TypeScriptVarDeclMatcher.typeBracesMatcher m0)
  /\ BracesMatcher.constructor TypeScriptVarDeclMatcher.assignmentBraces
     = Ok (TypeScriptVarDeclMatcher.assignmentBracesMatcher m0)
  /\ m0 = declState m0 TypeScriptVarDeclMatcher.READING_NAME (Some EmptyString) None None [] [].
Proof.
  pose proof built as H. unfold TypeScriptVarDeclMatcher.constructor in H.
  destruct (BracesMatcher.constructor TypeScriptVarDeclMatcher.typeBraces) as [tm |] eqn:E1;
    [| discriminate].
  destruct (BracesMatcher.constructor TypeScriptVarDeclMatcher.assignmentBraces) as [am |] eqn:E2;
    [| discriminate].
  simpl in H. inv H. simpl. split; [reflexivity |]. split; [reflexivity |].
  unfold declState. simpl.
  destruct (constructor_maps _ _ E1) as (_ & _ & _ & <-).
  destruct (constructor_maps _ _ E2) as (_ & _ & _ & <-). reflexivity.
Qed.

Lemma type_apart : closingApart TypeScriptVarDeclMatcher.typeBraces.
Proof.
  intros b b' [<- | [<- | [<- | [<- | []]]]] [<- | [<- | [<- | [<- | []]]]]; discriminate.
Qed.

Lemma value_apart : closingApart TypeScriptVarDeclMatcher.assignmentBraces.
Proof.
  intros b b' [<- | [<- | [<- | []]]] [<- | [<- | [<- | []]]]; discriminate.
Qed.

Lemma type_next_opening (s : list string) (b : Braces) :
  In b TypeScriptVarDeclMatcher.typeBraces ->
  BracesMatcher.next (withStack (TypeScriptVarDeclMatcher.typeBracesMatcher m0) s) (opening b)
  = Ok (withStack (TypeScriptVarDeclMatcher.typeBracesMatcher m0) (s ++ [opening b]),
        List.length (s ++ [opening b])).
Proof.
  destruct constructor_parts as (E1 & _ & _).
  destruct (constructor_maps _ _ E1) as (Ho & Hc & Hone & _).
  intros Hin. eapply next_opening; eauto.
Qed.

Lemma type_next_closing (s : list string) (b : Braces) :
  In b TypeScriptVarDeclMatcher.typeBraces ->
  BracesMatcher.next (withStack (TypeScriptVarDeclMatcher.typeBracesMatcher m0)
                                (s ++ [opening b])) (closing b)
  = Ok (withStack (TypeScriptVarDeclMatcher.typeBracesMatcher m0) s, List.length s).
Proof.
  destruct constructor_parts as (E1 & _ & _).
  destruct (constructor_maps _ _ E1) as (Ho & Hc & Hone & _).
  intros Hin. eapply next_closing; eauto. apply type_apart.
Qed.

Lemma value_next_opening (s : list string) (b : Braces) :
  In b TypeScriptVarDeclMatcher.assignmentBraces ->
  BracesMatcher.next (withStack (TypeScriptVarDeclMatcher.assignmentBracesMatcher m0) s)
                     (opening b)
  = Ok (withStack (TypeScriptVarDeclMatcher.assignmentBracesMatcher m0) (s ++ [opening b]),
        List.length (s ++ [opening b])).
Proof.
  destruct constructor_parts as (_ & E2 & _).
  destruct (constructor_maps _ _ E2) as (Ho & Hc & Hone & _).
  intros Hin. eapply next_opening; eauto.
Qed.

Lemma value_next_closing (s : list string) (b : Braces) :
  In b TypeScriptVarDeclMatcher.assignmentBraces ->
  BracesMatcher.next (withStack (TypeScriptVarDeclMatcher.assignmentBracesMatcher m0)
                                (s ++ [opening b])) (closing b)
  = Ok (withStack (TypeScriptVarDeclMatcher.assignmentBracesMatcher m0) s, List.length s).
Proof.
  destruct constructor_parts as (_ & E2 & _).
  destruct (constructor_maps _ _ E2) as (Ho & Hc & Hone & _).
  intros Hin. eapply next_closing; eauto. apply value_apart.
Qed.

Lemma isOneOf_false (t : Token) (l : list string) :
  ~ In (stringContents t) l -> TypeScriptVarDeclMatcher.isOneOf t l = false.
Proof.
  intros H. unfold TypeScriptVarDeclMatcher.isOneOf.
  destruct (existsb (String.eqb (stringContents t)) l) eqn:E; [| reflexivity].
  apply existsb_exists in E. destruct E as (x & Hin & Hx). apply String.eqb_eq in Hx.
  subst x. contradiction.
Qed.

Lemma length_snoc_nonzero {A : Type} (s : list A) (x : A) :
  (List.length (s ++ [x]) =? 0) = false.
Proof. rewrite length_app. simpl. apply Nat.eqb_neq. lia. Qed.

Lemma length_nonzero {A : Type} (s : list A) : s <> [] -> (List.length s =? 0) = false.
Proof. destruct s; [contradiction | reflexivity]. Qed.

(** *** Inside a type *)

Lemma type_plain (t : Token) (nb tb ab : option string) (s1 s2 : list string) :
  TypeScriptVarDeclMatcher.isOneOf t ["="; ";"; ","; ")"] && (List.length s1 =? 0) = false ->
  isBraceOf TypeScriptVarDeclMatcher.typeBraces (stringContents t) = false ->
  TypeScriptVarDeclMatcher.next
    (declState m0 TypeScriptVarDeclMatcher.READING_TYPE nb tb ab s1 s2) t
  = Ok (declState m0 TypeScriptVarDeclMatcher.READING_TYPE nb
          (TypeScriptVarDeclMatcher.appendTo tb (stringContents t)) ab s1 s2, None).
Proof.
  intros Hsep Hb. unfold TypeScriptVarDeclMatcher.next, declState. cbn [TypeScriptVarDeclMatcher.state].
  unfold TypeScriptVarDeclMatcher.handleReadingType, BracesMatcher.currentDepth.
  cbn [TypeScriptVarDeclMatcher.typeBracesMatcher withStack BracesMatcher.stack].
  rewrite Hsep.
  change (TypeScriptVarDeclMatcher.isOpeningBraceType t
          || TypeScriptVarDeclMatcher.isClosingBraceType t)
    with (isBraceOf TypeScriptVarDeclMatcher.typeBraces (stringContents t)).
  rewrite Hb. reflexivity.
Qed.

Lemma type_open (t : Token) (b : Braces) (nb tb ab : option string) (s1 s2 : list string) :
  In b TypeScriptVarDeclMatcher.typeBraces -> stringContents t = opening b ->
  TypeScriptVarDeclMatcher.next
    (declState m0 TypeScriptVarDeclMatcher.READING_TYPE nb tb ab s1 s2) t
  = Ok (declState m0 TypeScriptVarDeclMatcher.READING_TYPE nb
          (TypeScriptVarDeclMatcher.appendTo tb (stringContents t)) ab
          (s1 ++ [opening b]) s2, None).
Proof.
  intros Hin Ht. unfold TypeScriptVarDeclMatcher.next, declState. cbn [TypeScriptVarDeclMatcher.state].
  unfold TypeScriptVarDeclMatcher.handleReadingType, BracesMatcher.currentDepth.
  cbn [TypeScriptVarDeclMatcher.typeBracesMatcher withStack BracesMatcher.stack].
  assert (Hsep : TypeScriptVarDeclMatcher.isOneOf t ["="; ";"; ","; ")"] = false).
  { unfold TypeScriptVarDeclMatcher.isOneOf. rewrite Ht.
    destruct Hin as [<- | [<- | [<- | [<- | []]]]]; reflexivity. }
  rewrite Hsep. cbn [andb].
  change (TypeScriptVarDeclMatcher.isOpeningBraceType t
          || TypeScriptVarDeclMatcher.isClosingBraceType t)
    with (isBraceOf TypeScriptVarDeclMatcher.typeBraces (stringContents t)).
  rewrite Ht, (isBraceOf_opening _ _ Hin).
  change (BracesMatcher.mkBracesMatcher
            (BracesMatcher.openingToClosing (TypeScriptVarDeclMatcher.typeBracesMatcher m0))
            (BracesMatcher.closingToOpening (TypeScriptVarDeclMatcher.typeBracesMatcher m0)) s1)
    with (withStack (TypeScriptVarDeclMatcher.typeBracesMatcher m0) s1).
  rewrite (type_next_opening s1 b Hin). reflexivity.
Qed.

Lemma type_close (t : Token) (b : Braces) (nb tb ab : option string) (s1 s2 : list string) :
  In b TypeScriptVarDeclMatcher.typeBraces -> stringContents t = closing b ->
  TypeScriptVarDeclMatcher.next
    (declState m0 TypeScriptVarDeclMatcher.READING_TYPE nb tb ab (s1 ++ [opening b]) s2) t
  = Ok (declState m0 TypeScriptVarDeclMatcher.READING_TYPE nb
          (TypeScriptVarDeclMatcher.appendTo tb (stringContents t)) ab s1 s2, None).
Proof.
  intros Hin Ht. unfold TypeScriptVarDeclMatcher.next, declState. cbn [TypeScriptVarDeclMatcher.state].
  unfold TypeScriptVarDeclMatcher.handleReadingType, BracesMatcher.currentDepth.
  cbn [TypeScriptVarDeclMatcher.typeBracesMatcher withStack BracesMatcher.stack].
  rewrite length_snoc_nonzero, andb_false_r.
  change (TypeScriptVarDeclMatcher.isOpeningBraceType t
          || TypeScriptVarDeclMatcher.isClosingBraceType t)
    with (isBraceOf TypeScriptVarDeclMatcher.typeBraces (stringContents t)).
  rewrite Ht, (isBraceOf_closing _ _ Hin).
  change (BracesMatcher.mkBracesMatcher
            (BracesMatcher.openingToClosing (TypeScriptVarDeclMatcher.typeBracesMatcher m0))
            (BracesMatcher.closingToOpening (TypeScriptVarDeclMatcher.typeBracesMatcher m0))
            (s1 ++ [opening b]))
    with (withStack (TypeScriptVarDeclMatcher.typeBracesMatcher m0) (s1 ++ [opening b])).
  rewrite (type_next_closing s1 b Hin). reflexivity.
Qed.

Lemma feedDecl_app (u v : list Token) :
  forall m : TypeScriptVarDeclMatcher.t,
    feedDecl m (u ++ v)
    = ('(m1, o1) <- feedDecl m u ;;
       '(m2, o2) <- feedDecl m1 v ;;
       Ok (m2, o1 ++ o2)).
Proof.
  induction u as [| t u IH]; intros m; simpl.
  - destruct (feedDecl m v) as [[m2 o2] |]; reflexivity.
  - destruct (TypeScriptVarDeclMatcher.next m t) as [[m' o] |]; simpl; [| reflexivity].
    rewrite IH.
    destruct (feedDecl m' u) as [[m1 o1] |]; simpl; [| reflexivity].
    destruct (feedDecl m1 v) as [[m2 o2] |]; reflexivity.
Qed.

Lemma appendAll_app (b : option string) (u v : list Token) :
  appendAll b (u ++ v) = appendAll (appendAll b u) v.
Proof. unfold appendAll. apply fold_left_app. Qed.

Lemma repeat_None_app {A : Type} (n k : nat) :
  repeat (@None A) n ++ repeat None k = repeat None (n + k).
Proof. symmetry. apply repeat_app. Qed.

Lemma type_inside (w : list Token) :
  Inside TypeScriptVarDeclMatcher.typeBraces w ->
  forall (nb tb ab : option string) (s1 s2 : list string),
    s1 <> [] ->
    feedDecl (declState m0 TypeScriptVarDeclMatcher.READING_TYPE nb tb ab s1 s2) w
    = Ok (declState m0 TypeScriptVarDeclMatcher.READING_TYPE nb (appendAll tb w) ab s1 s2,
          repeat None (List.length w)).
Proof.
  induction 1 as [| t w Hb Hw IH | b o c inner w Hin Ho Hc Hinner IHi Hw IHw];
    intros nb tb ab s1 s2 Hs.
  - reflexivity.
  - simpl. rewrite type_plain; [| now rewrite (length_nonzero s1 Hs), andb_false_r | exact Hb].
    simpl. rewrite IH by exact Hs. reflexivity.
  - simpl. rewrite (type_open o b) by assumption. simpl.
    rewrite feedDecl_app, IHi by (intros E; now apply app_eq_nil in E as [_ E]). simpl.
    rewrite (type_close c b) by assumption. simpl.
    rewrite IHw by exact Hs. simpl.
    rewrite appendAll_app. simpl.
    rewrite length_app. simpl.
    change (None :: repeat None (List.length w))
      with (repeat (@None TypeScriptVarDeclMatcher.Declaration) (S (List.length w))).
    rewrite repeat_None_app. reflexivity.
Qed.

Lemma type_nested (w : list Token) :
  Nested TypeScriptVarDeclMatcher.typeBraces ["="; ";"; ","; ")"] w ->
  forall (nb tb ab : option string) (s2 : list string),
    feedDecl (declState m0 TypeScriptVarDeclMatcher.READING_TYPE nb tb ab [] s2) w
    = Ok (declState m0 TypeScriptVarDeclMatcher.READING_TYPE nb (appendAll tb w) ab [] s2,
          repeat None (List.length w)).
Proof.
  induction 1 as [| t w Hsep Hb Hw IH | b o c inner w Hin Ho Hc Hinner Hw IHw];
    intros nb tb ab s2.
  - reflexivity.
  - simpl. rewrite type_plain; [| now rewrite (isOneOf_false t _ Hsep) | exact Hb].
    simpl. rewrite IH. reflexivity.
  - simpl. rewrite (type_open o b) by assumption. simpl.
    rewrite feedDecl_app, (type_inside inner Hinner) by discriminate. simpl.
    rewrite (type_close c b nb _ ab [] s2) by assumption. simpl.
    rewrite IHw. simpl.
    rewrite appendAll_app. simpl.
    rewrite length_app. simpl.
    change (None :: repeat None (List.length w))
      with (repeat (@None TypeScriptVarDeclMatcher.Declaration) (S (List.length w))).
    rewrite repeat_None_app. reflexivity.
Qed.

(** *** Inside an assigned value *)

Lemma value_plain (t : Token) (nb tb ab : option string) (s1 s2 : list string) :
  TypeScriptVarDeclMatcher.isOneOf t [";"; ","; ")"] && (List.length s2 =? 0) = false ->
  isBraceOf TypeScriptVarDeclMatcher.assignmentBraces (stringContents t) = false ->
  TypeScriptVarDeclMatcher.next
    (declState m0 TypeScriptVarDeclMatcher.READING_ASSIGNMENT nb tb ab s1 s2) t
  = Ok (declState m0 TypeScriptVarDeclMatcher.READING_ASSIGNMENT nb tb
          (TypeScriptVarDeclMatcher.appendTo ab (stringContents t)) s1 s2, None).
Proof.
  intros Hsep Hb. unfold TypeScriptVarDeclMatcher.next, declState. cbn [TypeScriptVarDeclMatcher.state].
  unfold TypeScriptVarDeclMatcher.handleReadingAssignment, BracesMatcher.currentDepth.
  cbn [TypeScriptVarDeclMatcher.assignmentBracesMatcher withStack BracesMatcher.stack].
  rewrite Hsep.
  change (TypeScriptVarDeclMatcher.isOpeningBraceAssignment t
          || TypeScriptVarDeclMatcher.isClosingBraceAssignment t)
    with (isBraceOf TypeScriptVarDeclMatcher.assignmentBraces (stringContents t)).
  rewrite Hb. reflexivity.
Qed.

Lemma value_open (t : Token) (b : Braces) (nb tb ab : option string) (s1 s2 : list string) :
  In b TypeScriptVarDeclMatcher.assignmentBraces -> stringContents t = opening b ->
  TypeScriptVarDeclMatcher.next
    (declState m0 TypeScriptVarDeclMatcher.READING_ASSIGNMENT nb tb ab s1 s2) t
  = Ok (declState m0 TypeScriptVarDeclMatcher.READING_ASSIGNMENT nb tb
          (TypeScriptVarDeclMatcher.appendTo ab (stringContents t))
          s1 (s2 ++ [opening b]), None).
Proof.
  intros Hin Ht. unfold TypeScriptVarDeclMatcher.next, declState. cbn [TypeScriptVarDeclMatcher.state].
  unfold TypeScriptVarDeclMatcher.handleReadingAssignment, BracesMatcher.currentDepth.
  cbn [TypeScriptVarDeclMatcher.assignmentBracesMatcher withStack BracesMatcher.stack].
  assert (Hsep : TypeScriptVarDeclMatcher.isOneOf t [";"; ","; ")"] = false).
  { unfold TypeScriptVarDeclMatcher.isOneOf. rewrite Ht.
    destruct Hin as [<- | [<- | [<- | []]]]; reflexivity. }
  rewrite Hsep. cbn [andb].
  change (TypeScriptVarDeclMatcher.isOpeningBraceAssignment t
          || TypeScriptVarDeclMatcher.isClosingBraceAssignment t)
    with (isBraceOf TypeScriptVarDeclMatcher.assignmentBraces (stringContents t)).
  rewrite Ht, (isBraceOf_opening _ _ Hin).
  change (BracesMatcher.mkBracesMatcher
            (BracesMatcher.openingToClosing (TypeScriptVarDeclMatcher.assignmentBracesMatcher m0))
            (BracesMatcher.closingToOpening (TypeScriptVarDeclMatcher.assignmentBracesMatcher m0))
            s2)
    with (withStack (TypeScriptVarDeclMatcher.assignmentBracesMatcher m0) s2).
  rewrite (value_next_opening s2 b Hin). reflexivity.
Qed.

Lemma value_close (t : Token) (b : Braces) (nb tb ab : option string) (s1 s2 : list string) :
  In b TypeScriptVarDeclMatcher.assignmentBraces -> stringContents t = closing b ->
  TypeScriptVarDeclMatcher.next
    (declState m0 TypeScriptVarDeclMatcher.READING_ASSIGNMENT nb tb ab s1 (s2 ++ [opening b])) t
  = Ok (declState m0 TypeScriptVarDeclMatcher.READING_ASSIGNMENT nb tb
          (TypeScriptVarDeclMatcher.appendTo ab (stringContents t)) s1 s2, None).
Proof.
  intros Hin Ht. unfold TypeScriptVarDeclMatcher.next, declState. cbn [TypeScriptVarDeclMatcher.state].
  unfold TypeScriptVarDeclMatcher.handleReadingAssignment, BracesMatcher.currentDepth.
  cbn [TypeScriptVarDeclMatcher.assignmentBracesMatcher withStack BracesMatcher.stack].
  rewrite length_snoc_nonzero, andb_false_r.
  change (TypeScriptVarDeclMatcher.isOpeningBraceAssignment t
          || TypeScriptVarDeclMatcher.isClosingBraceAssignment t)
    with (isBraceOf TypeScriptVarDeclMatcher.assignmentBraces (stringContents t)).
  rewrite Ht, (isBraceOf_closing _ _ Hin).
  change (BracesMatcher.mkBracesMatcher
            (BracesMatcher.openingToClosing (TypeScriptVarDeclMatcher.assignmentBracesMatcher m0))
            (BracesMatcher.closingToOpening (TypeScriptVarDeclMatcher.assignmentBracesMatcher m0))
            (s2 ++ [opening b]))
    with (withStack (TypeScriptVarDeclMatcher.assignmentBracesMatcher m0) (s2 ++ [opening b])).
  rewrite (value_next_closing s2 b Hin). reflexivity.
Qed.

Lemma value_inside (w : list Token) :
  Inside TypeScriptVarDeclMatcher.assignmentBraces w ->
  forall (nb tb ab : option string) (s1 s2 : list string),
    s2 <> [] ->
    feedDecl (declState m0 TypeScriptVarDeclMatcher.READING_ASSIGNMENT nb tb ab s1 s2) w
    = Ok (declState m0 TypeScriptVarDeclMatcher.READING_ASSIGNMENT nb tb (appendAll ab w) s1 s2,
          repeat None (List.length w)).
Proof.
  induction 1 as [| t w Hb Hw IH | b o c inner w Hin Ho Hc Hinner IHi Hw IHw];
    intros nb tb ab s1 s2 Hs.
  - reflexivity.
  - simpl. rewrite value_plain; [| now rewrite (length_nonzero s2 Hs), andb_false_r | exact Hb].
    simpl. rewrite IH by exact Hs. reflexivity.
  - simpl. rewrite (value_open o b) by assumption. simpl.
    rewrite feedDecl_app, IHi by (intros E; now apply app_eq_nil in E as [_ E]). simpl.
    rewrite (value_close c b) by assumption. simpl.
    rewrite IHw by exact Hs. simpl.
    rewrite appendAll_app. simpl.
    rewrite length_app. simpl.
    change (None :: repeat None (List.length w))
      with (repeat (@None TypeScriptVarDeclMatcher.Declaration) (S (List.length w))).
    rewrite repeat_None_app. reflexivity.
Qed.

Lemma value_nested (w : list Token) :
  Nested TypeScriptVarDeclMatcher.assignmentBraces [";"; ","; ")"] w ->
  forall (nb tb ab : option string) (s1 : list string),
    feedDecl (declState m0 TypeScriptVarDeclMatcher.READING_ASSIGNMENT nb tb ab s1 []) w
    = Ok (declState m0 TypeScriptVarDeclMatcher.READING_ASSIGNMENT nb tb (appendAll ab w) s1 [],
          repeat None (List.length w)).
Proof.
  induction 1 as [| t w Hsep Hb Hw IH | b o c inner w Hin Ho Hc Hinner Hw IHw];
    intros nb tb ab s1.
  - reflexivity.
  - simpl. rewrite value_plain; [| now rewrite (isOneOf_false t _ Hsep) | exact Hb].
    simpl. rewrite IH. reflexivity.
  - simpl. rewrite (value_open o b) by assumption. simpl.
    rewrite feedDecl_app, (value_inside inner Hinner) by discriminate. simpl.
    rewrite (value_close c b nb tb _ s1 []) by assumption. simpl.
    rewrite IHw. simpl.
    rewrite appendAll_app. simpl.
    rewrite length_app. simpl.
    change (None :: repeat None (List.length w))
      with (repeat (@None TypeScriptVarDeclMatcher.Declaration) (S (List.length w))).
    rewrite repeat_None_app. reflexivity.
Qed.

(** *** The name, and the tokens between the parts *)

Lemma name_run (w : list Token) :
  Forall (fun t => ~ In (stringContents t) [":"; "="; ";"; ","; ")"]) w ->
  forall (nb tb ab : option string) (s1 s2 : list string),
    feedDecl (declState m0 TypeScriptVarDeclMatcher.READING_NAME nb tb ab s1 s2) w
    = Ok (declState m0 TypeScriptVarDeclMatcher.READING_NAME (appendAll nb w) tb ab s1 s2,
          repeat None (List.length w)).
Proof.
  induction 1 as [| t w Ht Hw IH]; intros nb tb ab s1 s2; [reflexivity |].
  simpl. unfold TypeScriptVarDeclMatcher.next at 1. unfold declState at 1.
  cbn [TypeScriptVarDeclMatcher.state]. unfold TypeScriptVarDeclMatcher.handleReadingName.
  rewrite (isOneOf_false t _ Ht). simpl.
  change (TypeScriptVarDeclMatcher.mkVarDeclMatcher
            TypeScriptVarDeclMatcher.READING_NAME
            (TypeScriptVarDeclMatcher.appendTo nb (stringContents t)) tb ab
            (withStack (TypeScriptVarDeclMatcher.typeBracesMatcher m0) s1)
            (withStack (TypeScriptVarDeclMatcher.assignmentBracesMatcher m0) s2))
    with (declState m0 TypeScriptVarDeclMatcher.READING_NAME
            (TypeScriptVarDeclMatcher.appendTo nb (stringContents t)) tb ab s1 s2).
  rewrite IH. reflexivity.
Qed.

Lemma reset_state (st : TypeScriptVarDeclMatcher.ReadingState) (nb tb ab : option string)
  (s1 s2 : list string) :
  TypeScriptVarDeclMatcher.reset (declState m0 st nb tb ab s1 s2)
  = (declState m0 TypeScriptVarDeclMatcher.READING_NAME None None None [] [],
     resetValue nb tb ab).
Proof. reflexivity. Qed.

Lemma name_colon (c : Token) (nb tb ab : option string) (s1 s2 : list string) :
  stringContents c = ":" ->
  TypeScriptVarDeclMatcher.next
    (declState m0 TypeScriptVarDeclMatcher.READING_NAME nb tb ab s1 s2) c
  = Ok (declState m0 TypeScriptVarDeclMatcher.READING_TYPE nb tb ab s1 s2, None).
Proof.
  intros H. unfold TypeScriptVarDeclMatcher.next, declState. cbn [TypeScriptVarDeclMatcher.state].
  unfold TypeScriptVarDeclMatcher.handleReadingName, TypeScriptVarDeclMatcher.isOneOf.
  rewrite H. reflexivity.
Qed.

Lemma name_equals (q : Token) (nb tb ab : option string) (s1 s2 : list string) :
  stringContents q = "=" ->
  TypeScriptVarDeclMatcher.next
    (declState m0 TypeScriptVarDeclMatcher.READING_NAME nb tb ab s1 s2) q
  = Ok (declState m0 TypeScriptVarDeclMatcher.READING_ASSIGNMENT nb tb ab s1 s2, None).
Proof.
  intros H. unfold TypeScriptVarDeclMatcher.next, declState. cbn [TypeScriptVarDeclMatcher.state].
  unfold TypeScriptVarDeclMatcher.handleReadingName, TypeScriptVarDeclMatcher.isOneOf.
  rewrite H. reflexivity.
Qed.

Lemma name_stop (e : Token) (nb tb ab : option string) (s1 s2 : list string) :
  In (stringContents e) [";"; ","; ")"] ->
  TypeScriptVarDeclMatcher.next
    (declState m0 TypeScriptVarDeclMatcher.READING_NAME nb tb ab s1 s2) e
  = Ok (declState m0 TypeScriptVarDeclMatcher.READING_NAME None None None [] [],
        resetValue nb tb ab).
Proof.
  intros H. unfold TypeScriptVarDeclMatcher.next. unfold declState at 1.
  cbn [TypeScriptVarDeclMatcher.state].
  unfold TypeScriptVarDeclMatcher.handleReadingName, TypeScriptVarDeclMatcher.isOneOf.
  destruct H as [<- | [<- | [<- | []]]]; reflexivity.
Qed.

Lemma type_equals (q : Token) (nb tb ab : option string) (s2 : list string) :
  stringContents q = "=" ->
  TypeScriptVarDeclMatcher.next
    (declState m0 TypeScriptVarDeclMatcher.READING_TYPE nb tb ab [] s2) q
  = Ok (declState m0 TypeScriptVarDeclMatcher.READING_ASSIGNMENT nb tb ab [] s2, None).
Proof.
  intros H. unfold TypeScriptVarDeclMatcher.next, declState. cbn [TypeScriptVarDeclMatcher.state].
  unfold TypeScriptVarDeclMatcher.handleReadingType, TypeScriptVarDeclMatcher.isOneOf.
  rewrite H. reflexivity.
Qed.

Lemma type_stop (e : Token) (nb tb ab : option string) (s2 : list string) :
  In (stringContents e) [";"; ","; ")"] ->
  TypeScriptVarDeclMatcher.next
    (declState m0 TypeScriptVarDeclMatcher.READING_TYPE nb tb ab [] s2) e
  = Ok (declState m0 TypeScriptVarDeclMatcher.READING_NAME None None None [] [],
        resetValue nb tb ab).
Proof.
  intros H. unfold TypeScriptVarDeclMatcher.next. unfold declState at 1.
  cbn [TypeScriptVarDeclMatcher.state].
  unfold TypeScriptVarDeclMatcher.handleReadingType, TypeScriptVarDeclMatcher.isOneOf.
  destruct H as [<- | [<- | [<- | []]]]; reflexivity.
Qed.

Lemma value_stop (e : Token) (nb tb ab : option string) (s1 : list string) :
  In (stringContents e) [";"; ","; ")"] ->
  TypeScriptVarDeclMatcher.next
    (declState m0 TypeScriptVarDeclMatcher.READING_ASSIGNMENT nb tb ab s1 []) e
  = Ok (declState m0 TypeScriptVarDeclMatcher.READING_NAME None None None [] [],
        resetValue nb tb ab).
Proof.
  intros H. unfold TypeScriptVarDeclMatcher.next. unfold declState at 1.
  cbn [TypeScriptVarDeclMatcher.state].
  unfold TypeScriptVarDeclMatcher.handleReadingAssignment, TypeScriptVarDeclMatcher.isOneOf.
  destruct H as [<- | [<- | [<- | []]]]; reflexivity.
Qed.

Lemma appendAll_text (w : list Token) :
  forall b : option string,
    w <> [] ->
    appendAll b w = Some ((match b with Some x => x | None => EmptyString end)
                          ++ tokensText w)%string.
Proof.
  induction w as [| t w IH]; intros b Hne; [contradiction |].
  destruct w as [| u w].
  - simpl. rewrite string_app_nil_r. now destruct b.
  - change (appendAll b (t :: u :: w))
      with (appendAll (TypeScriptVarDeclMatcher.appendTo b (stringContents t)) (u :: w)).
    rewrite IH by discriminate.
    change (tokensText (t :: u :: w)) with (stringContents t ++ tokensText (u :: w))%string.
    destruct b; simpl; [now rewrite string_app_assoc | reflexivity].
Qed.

(** The value of [reset] after the three parts. *)
Lemma resetValue_parts (nb0 : option string) (name : list Token)
  (type value : option (Token * list Token)) :
  nb0 = None \/ nb0 = Some EmptyString ->
  resetValue (appendAll nb0 name)
             (match type with Some (_, ty) => appendAll None ty | None => None end)
             (match value with Some (_, val) => appendAll None val | None => None end)
  = declOf name type value.
Proof.
  intros Hnb.
  assert (Ht : forall part : option (Token * list Token),
             option_map Js.trim
               (match part with Some (_, toks) => appendAll None toks | None => None end)
             = partText part).
  { intros [[c [| t toks]] |]; try reflexivity.
    rewrite appendAll_text by discriminate. reflexivity. }
  unfold resetValue, declOf. destruct name as [| t name].
  - destruct Hnb as [-> | ->]; reflexivity.
  - rewrite appendAll_text by discriminate.
    assert (Hn : ((match nb0 with Some x => x | None => EmptyString end)
                  ++ tokensText (t :: name))%string = tokensText (t :: name))
      by (destruct Hnb as [-> | ->]; reflexivity).
    rewrite Hn, !Ht. reflexivity.
Qed.

End VarDecl.

Section VarDeclRuns.
Local Open Scope nat_scope.
Variable m0 : TypeScriptVarDeclMatcher.t.
Hypothesis built : TypeScriptVarDeclMatcher.constructor = Ok m0.

(** The tokens of a declaration, from a matcher that has read nothing. *)
Lemma declaration_run (nb0 : option string) (name : list Token)
  (type value : option (Token * list Token)) (stop : Token) :
  nb0 = None \/ nb0 = Some EmptyString ->
  declOk name type value stop ->
  feedDecl (declState m0 TypeScriptVarDeclMatcher.READING_NAME nb0 None None [] [])
           (declTokens name type value stop)
  = Ok (declState m0 TypeScriptVarDeclMatcher.READING_NAME None None None [] [],
        repeat None (List.length (declTokens name type value stop) - 1)
        ++ [declOf name type value]).
Proof.
  intros Hnb (Hname & Htype & Hvalue & Hstop).
  rewrite <- (resetValue_parts nb0 name type value Hnb).
  unfold declTokens.
  rewrite feedDecl_app, (name_run m0 name Hname). cbn [bind].
  rewrite !length_app. cbn [List.length].
  destruct type as [[colon ty] |]; [destruct Htype as [Hcolon Hty] |];
    (destruct value as [[equals val] |]; [destruct Hvalue as [Hequals Hval] |]);
    cbn [app feedDecl List.length].
  - rewrite (name_colon m0 colon) by exact Hcolon. cbn [bind].
    rewrite feedDecl_app, (type_nested m0 built ty Hty). cbn [bind feedDecl].
    rewrite (type_equals m0 equals) by exact Hequals. cbn [bind].
    rewrite feedDecl_app, (value_nested m0 built val Hval). cbn [bind feedDecl].
    rewrite (value_stop m0 stop) by exact Hstop. cbn [bind].
    f_equal. f_equal.
    match goal with
    | |- _ = repeat None ?n ++ _ =>
        replace n with (List.length name + S (List.length ty + S (List.length val))) by lia
    end.
    rewrite !repeat_app. simpl. rewrite !repeat_app. simpl.
    rewrite <- !app_assoc. simpl. rewrite <- !app_assoc. reflexivity.
  - rewrite (name_colon m0 colon) by exact Hcolon. cbn [bind].
    rewrite feedDecl_app, (type_nested m0 built ty Hty). cbn [bind feedDecl].
    rewrite (type_stop m0 stop) by exact Hstop. cbn [bind].
    f_equal. f_equal.
    match goal with
    | |- _ = repeat None ?n ++ _ =>
        replace n with (List.length name + S (List.length ty)) by lia
    end.
    rewrite !repeat_app. simpl. rewrite <- !app_assoc. reflexivity.
  - rewrite (name_equals m0 equals) by exact Hequals. cbn [bind].
    rewrite feedDecl_app, (value_nested m0 built val Hval). cbn [bind feedDecl].
    rewrite (value_stop m0 stop) by exact Hstop. cbn [bind].
    f_equal. f_equal.
    match goal with
    | |- _ = repeat None ?n ++ _ =>
        replace n with (List.length name + S (List.length val)) by lia
    end.
    rewrite !repeat_app. simpl. rewrite <- !app_assoc. reflexivity.
  - rewrite (name_stop m0 stop) by exact Hstop. cbn [bind].
    f_equal. f_equal.
    match goal with
    | |- _ = repeat None ?n ++ _ => replace n with (List.length name) by lia
    end.
    reflexivity.
Qed.

End VarDeclRuns.

(** X24. The matcher of variable declarations reads declarations. On a
    matcher that is new or has been reset, for the tokens of a name, then
    optionally a colon and the tokens of a type, then optionally an equals
    sign and the tokens of a value, then one of [;], [,] and [)]: every
    call of [next] returns; all but the last return nothing, and the last
    returns the trimmed name, the trimmed type and the trimmed value, or
    nothing when the name is blank. A part without tokens is reported as
    missing. The braces of the type and of the value have to be well
    nested, and their separators may occur between braces only. The
    matcher is left as after [reset]. *)
Theorem varDecl_matcher_reads_declarations (m0 m : TypeScriptVarDeclMatcher.t)
  (name : list Token) (type value : option (Token * list Token)) (stop : Token) :
  TypeScriptVarDeclMatcher.constructor = Ok m0 ->
  m = m0 \/ m = fst (TypeScriptVarDeclMatcher.reset m0) ->
  declOk name type value stop ->
  feedDecl m (declTokens name type value stop)
  = Ok (fst (TypeScriptVarDeclMatcher.reset m0),
        repeat None (List.length (declTokens name type value stop) - 1)
        ++ [declOf name type value]).
Proof.
  intros Hc Hm Hok.
  destruct (constructor_parts m0 Hc) as (_ & _ & H0).
  assert (Hr : fst (TypeScriptVarDeclMatcher.reset m0)
               = declState m0 TypeScriptVarDeclMatcher.READING_NAME None None None [] [])
    by reflexivity.
  rewrite Hr in *.
  destruct Hm as [-> | ->].
  - rewrite H0 at 1. apply declaration_run; [exact Hc | now right | exact Hok].
  - apply declaration_run; [exact Hc | now left | exact Hok].
Qed.

(** The declaration [x: Map<K,V> = f(a,b);]. *)
Lemma varDecl_matcher_reads_declarations_witness :
  exists m0,
    TypeScriptVarDeclMatcher.constructor = Ok m0
    /\ feedDecl m0 (map wordToken ["x"; ":"; " "; "Map"; "<"; "K"; ","; "V"; ">"; " ";
                                   "="; " "; "f"; "("; "a"; ","; "b"; ")"; ";"])
       = Ok (fst (TypeScriptVarDeclMatcher.reset m0),
             repeat None 18
             ++ [Some (TypeScriptVarDeclMatcher.mkDeclaration
                         "x" (Some "Map<K,V>") (Some "f(a,b)"))]).
Proof.
  eexists. split; [reflexivity |].
  apply (varDecl_matcher_reads_declarations
           _ _ [wordToken "x"]
           (Some (wordToken ":", map wordToken [" "; "Map"; "<"; "K"; ","; "V"; ">"; " "]))
           (Some (wordToken "=", map wordToken [" "; "f"; "("; "a"; ","; "b"; ")"]))
           (wordToken ";")).
  - reflexivity.
  - now left.
  - split.
    { constructor; [| constructor]. simpl. intros [H | [H | [H | [H | [H | []]]]]]; discriminate. }
    split.
    { split; [reflexivity |].
      apply Nested_plain;
        [simpl; intros [H | [H | [H | [H | []]]]]; discriminate | reflexivity |].
      apply Nested_plain;
        [simpl; intros [H | [H | [H | [H | []]]]]; discriminate | reflexivity |].
      apply (Nested_group _ _ (mkBraces "<" ">") (wordToken "<") (wordToken ">")
               (map wordToken ["K"; ","; "V"]) [wordToken " "]);
        [simpl; tauto | reflexivity | reflexivity | |].
      - repeat (apply Inside_plain; [reflexivity |]). constructor.
      - apply Nested_plain;
          [simpl; intros [H | [H | [H | [H | []]]]]; discriminate | reflexivity |].
        constructor. }
    split.
    { split; [reflexivity |].
      apply Nested_plain;
        [simpl; intros [H | [H | [H | []]]]; discriminate | reflexivity |].
      apply Nested_plain;
        [simpl; intros [H | [H | [H | []]]]; discriminate | reflexivity |].
      apply (Nested_group _ _ (mkBraces "(" ")") (wordToken "(") (wordToken ")")
               (map wordToken ["a"; ","; "b"]) []);
        [simpl; tauto | reflexivity | reflexivity | |].
      - repeat (apply Inside_plain; [reflexivity |]). constructor.
      - constructor. }
    simpl. tauto.
Defined.
(* ================================================================== *)
(** ** The positions of the ranges of the tree *)

Section GoodPositions.
Local Open Scope nat_scope.

Lemma linePositions_charPos (rest : list string) :
  forall (pre : list string) (i : Index),
    In i (linePositions (List.length pre) rest) -> charPos (pre ++ rest) i.
Proof.
  induction rest as [| l rest IH]; intros pre i Hin; [contradiction |].
  cbn [linePositions] in Hin. apply in_app_iff in Hin. destruct Hin as [Hin | Hin].
  - apply in_map_iff in Hin. destruct Hin as (c & <- & Hc). apply in_seq in Hc.
    unfold charPos. cbn [line character]. rewrite length_app. simpl. split; [lia |].
    rewrite app_nth2 by lia. rewrite Nat.sub_diag. simpl. lia.
  - specialize (IH (pre ++ [l]) i). rewrite length_app in IH. simpl in IH.
    replace (List.length pre + 1) with (S (List.length pre)) in IH by lia.
    rewrite <- app_assoc in IH. now apply IH.
Qed.

(** The range of the tokens of a symbol starts at a character and ends at
    a position of the text. *)
Lemma tokenSpanRange_good (p : ParserBase) (lines : list string) (r : TokenRange) (rng : Range) :
  frontOk p ->
  positionMap p = linePositions 0 lines ++ [mkIndex (List.length lines) 0] ->
  tokenSpanRange p r = Ok rng ->
  goodRange lines rng.
Proof.
  intros Hfront Hmap H.
  unfold tokenSpanRange, AbstractParser.getTokenChRange, AbstractParser.getRange in H.
  destruct (Js.nthZ (sourceTokens p) (startTok r)) as [first |] eqn:E1; [| discriminate].
  cbn [bind] in H.
  destruct (Js.nthZ (sourceTokens p) (endTok r - 1)) as [last |] eqn:E2; [| discriminate].
  cbn [bind] in H.
  destruct (nth_error (positionMap p) (cr_start (characterRange first))) as [s |] eqn:E3;
    [| discriminate].
  destruct (nth_error (positionMap p) (cr_end (characterRange last))) as [e |] eqn:E4;
    [| discriminate].
  inv H. unfold goodRange, Utils.rangeToStartIndex, Utils.rangeToEndIndex.
  cbn [start_line start_character end_line end_character].
  assert (Hs : mkIndex (line s) (character s) = s) by now destruct s.
  assert (He : mkIndex (line e) (character e) = e) by now destruct e.
  rewrite Hs, He.
  destruct (tokStartAt_succ p Hfront _ _ E1) as (S1 & S2 & S3).
  pose proof (tokStartAt_le p Hfront (startTok r + 1)) as Hle.
  destruct Hfront as (_ & Hlen & _).
  assert (Hn : List.length (linePositions 0 lines) = numChars p).
  { rewrite Hmap, length_app in Hlen. simpl in Hlen. lia. }
  split.
  - apply (linePositions_charPos lines []).
    rewrite Hmap, nth_error_app1 in E3 by lia.
    eapply nth_error_In; eauto.
  - rewrite Hmap in E4. apply nth_error_In in E4. apply in_app_iff in E4.
    destruct E4 as [E4 | [<- | []]].
    + left. now apply (linePositions_charPos lines []).
    + now right.
Qed.

Lemma goodRange_merge (lines : list string) (r1 r2 r : Range) :
  Utils.mergeRanges [r1; r2] = Ok r ->
  goodRange lines r1 -> goodRange lines r2 -> goodRange lines r.
Proof.
  intros H [A1 A2] [B1 B2]. destruct (mergeRanges_two _ _ _ H) as [[E1 | E1] [E2 | E2]];
    unfold goodRange; rewrite E1, E2; split; assumption.
Qed.

Lemma goodRanges_same (lines : list string) (st st' : Store) :
  List.length st' = List.length st ->
  (forall id, rangeOf st' id = rangeOf st id) ->
  goodRanges lines st -> goodRanges lines st'.
Proof.
  intros Hl Hr H id Hid. rewrite Hr. apply H. lia.
Qed.

Lemma goodRanges_sameView (lines : list string) (st st' : Store) :
  sameView st st' -> goodRanges lines st -> goodRanges lines st'.
Proof.
  intros [Hl Hv]. apply goodRanges_same; [exact Hl |]. intros id. apply (Hv id).
Qed.

Lemma goodRanges_Added (lines : list string) (st st' : Store) (this node : NodeId) :
  goodRanges lines st -> Added st this node st' -> goodRanges lines st'.
Proof.
  intros H Ha. eapply goodRanges_same; [| | exact H].
  - eapply Added_length; eauto.
  - intros id. eapply Added_rangeOf; eauto.
Qed.

Lemma goodRanges_extends (lines : list string) (st st' : Store) :
  extendsView st st' ->
  (forall id, List.length st <= id < List.length st' -> goodRange lines (rangeOf st' id)) ->
  goodRanges lines st -> goodRanges lines st'.
Proof.
  intros [Hlen Hv] Hnew H id Hid.
  destruct (Nat.lt_ge_cases id (List.length st)) as [Hlt | Hge].
  - destruct (Hv id Hlt) as (_ & -> & _). now apply H.
  - apply Hnew. lia.
Qed.

Lemma goodRanges_Allocated (lines : list string) (st st' : Store) (t : Tag) (r : Range) :
  Allocated st t r st' -> goodRange lines r ->
  goodRanges lines st -> goodRanges lines st'.
Proof.
  intros Ha Hr. apply goodRanges_extends.
  - eapply Allocated_extendsView; eauto.
  - intros id Hid. destruct Ha as [Hlen Hv].
    assert (id = List.length st) by lia. subst id.
    destruct (Hv (List.length st)) as (_ & R & _). rewrite Nat.eqb_refl in R. now rewrite R.
Qed.

End GoodPositions.

(* ================================================================== *)
(** ** The loop that adds the nodes keeps the positions *)

Section GoodLoop.
Local Open Scope nat_scope.
Variable lines : list string.
Variable cb : bool.
Variable nt : NonTerminal.
Variable X : NodeId.
Variable st1 : Store.
Variable L0 : nat.
Variable check checkFirst : bool.
Hypothesis HL0 : L0 <= List.length st1.
Hypothesis HX : X < L0.
Hypothesis Hfresh : forall id, L0 <= id < List.length st1 -> tagOf st1 id <> Some FunctionGroupsT.
Hypothesis HXtag : tagOf st1 X <> Some FunctionGroupsT.
Hypothesis Hcheck : check = true -> cb = true.
Hypothesis HcheckFirst : checkFirst = true -> cb = false /\ inFunction nt = true.

Let inv := attachInv cb nt X st1 L0 check.

(** One of the five steps. *)
Lemma good_step (st st' : Store) (dg dg' : option NodeId) (first : bool) (x : NodeId)
  (rem : list (option NodeId)) :
  inv st dg first (Some x :: rem) ->
  AttachStep X check checkFirst x st dg first st' dg' ->
  goodRanges lines st -> goodRanges lines st'.
Proof.
  intros (I1 & I2 & I3 & I4) Hstep Hn.
  pose proof I1 as (Hl & Hlen & Hold & _).
  assert (Hpend : forall y, In y (somes (Some x :: rem) ++ dlist dg) -> y < List.length st).
  { intros y Hy. destruct (core_pending_orphan cb nt X st1 L0 _ _ _ y I1 Hy) as [_ By]. lia. }
  assert (Bx : x < List.length st) by (apply Hpend; apply in_app_iff; left; now left).
  assert (Hflush : forall sta dga, Flushed check X st dg sta dga -> goodRanges lines sta).
  { intros sta dga Hf.
    inversion Hf as [s0 d s1 Hc Ha E1 E2 E3 E4 | s0 dg0 Hk E1 E2 E3 E4].
    - eapply goodRanges_Added; eauto.
    - subst sta. exact Hn. }
  inversion Hstep as
    [ sta dga T1 C1 F1 E1 E2
    | sta dga g stb T1 C1 C2 C3 F1 P1 A1 E1 E2
    | t sta dga stb T1 T2 T3 F1 A1 E1 E2
    | d r sta stb stc std T1 C1 D0 M1 A1 A2 A3 A4 E1 E2
    | sta stb stc T1 C1 A1 A2 A3 E1 E2 ]; clear Hstep.
  - eapply Hflush; eauto.
  - eapply goodRanges_Added; [eapply Hflush; eauto | exact A1].
  - eapply goodRanges_Added; [eapply Hflush; eauto | exact A1].
  - subst dg.
    assert (Bd : d < List.length st) by (apply Hpend; apply in_app_iff; right; now left).
    pose proof (goodRange_merge lines _ _ _ M1 (Hn d Bd) (Hn x Bx)) as Hr.
    pose proof (goodRanges_Allocated lines _ _ _ _ A1 Hr Hn) as Na.
    eapply goodRanges_Added; [| exact A4].
    eapply goodRanges_Added; [| exact A3].
    eapply goodRanges_Added; [exact Na | exact A2].
  - pose proof (goodRanges_Allocated lines _ _ _ _ A1 (Hn x Bx) Hn) as Na.
    eapply goodRanges_Added; [| exact A3].
    eapply goodRanges_Added; [exact Na | exact A2].
Qed.

(** The whole loop. *)
Lemma attachLoop_good (state : list Symbol) :
  forall (childNodes : list (option NodeId)) (a a' : AbstractParser.AttachState),
    Forall2 (fun sym ani => symTag sym = None -> ani = None) state childNodes ->
    AbstractParser.attachLoop nt X check checkFirst state childNodes a = Ok a' ->
    inv (AbstractParser.atStore a) (AbstractParser.danglingMultilineComment a)
        (AbstractParser.isFirst a) childNodes ->
    goodRanges lines (AbstractParser.atStore a) ->
    inv (AbstractParser.atStore a') (AbstractParser.danglingMultilineComment a')
        (AbstractParser.isFirst a') []
    /\ goodRanges lines (AbstractParser.atStore a').
Proof.
  induction state as [| sym state IH]; intros childNodes a a' Hrel H Hinv Hn.
  - inversion Hrel; subst childNodes. simpl in H. injection H as <-. auto.
  - inversion Hrel as [| s0 ani st0 rem Hsym Hrest]; subst childNodes. clear Hrel.
    cbn [AbstractParser.attachLoop] in H.
    destruct (AbstractParser.attachOne nt X check checkFirst sym ani a) as [a1 |] eqn:E1;
      [| discriminate].
    cbn [bind] in H.
    destruct (attachOne_spec _ _ _ _ _ _ _ _ E1)
      as [(V1 & V2 & V3 & V4) | (x & stf & -> & V1 & V2 & V3)].
    + assert (Hnone : ani = None) by (destruct V4; auto). subst ani.
      apply (IH _ _ _ Hrest H); [| eapply goodRanges_sameView; eauto].
      apply inv_skip in Hinv. rewrite V2.
      pose proof (inv_sameView _ _ _ _ _ _ _ _ _ _ _ Hinv V1) as Hinv1.
      destruct V3 as [-> | ->]; [exact Hinv1 | eapply inv_first; eauto].
    + pose proof (inv_sameView _ _ _ _ _ _ _ _ _ _ _ Hinv V1) as Hinv1.
      apply (IH _ _ _ Hrest H).
      * rewrite V2.
        exact (inv_step cb nt X st1 L0 check checkFirst HL0 HX Hfresh HXtag Hcheck HcheckFirst
                 _ _ _ _ _ _ _ Hinv1 V3).
      * eapply good_step; [exact Hinv1 | exact V3 |]. eapply goodRanges_sameView; eauto.
Qed.

End GoodLoop.
(* ================================================================== *)
(** ** The recursion keeps the positions *)

Section RecurseGood.
Local Open Scope nat_scope.
Variable L : Language.
Let cb := isCommentBeforeFunction L.
Variable lines : list string.
Variable nt : NonTerminal.
Variable X : NodeId.
Variable st1 : Store.
Variable L0 : nat.
Hypothesis HL0 : L0 <= List.length st1.
Hypothesis HX : X < L0.
Hypothesis Hfresh : forall id, L0 <= id < List.length st1 -> tagOf st1 id <> Some FunctionGroupsT.
Variable p : ParserBase.
Variable rec : NonTerminal -> NodeId -> TokenRange -> Z -> AbstractParser.PState L
               -> result (AbstractParser.PState L).
Hypothesis Hrec : keepsShape L rec.
Hypothesis Hgood : keepsGood L lines rec.

Lemma recurseChildren_good (depth : Z) (state : list Symbol) (symRanges : list TokenRange)
  (nodes : list (option NodeId)) :
  Resolved p st1 state symRanges nodes ->
  forall (ntRanges : list (option TokenRange)) (ps ps' : AbstractParser.PState L),
    Forall (ntAllowed nt) state ->
    NoDup (somes nodes) ->
    AbstractParser.recurseChildren L rec X depth state nodes ntRanges ps = Ok ps' ->
    recInv cb nt X st1 L0 (AbstractParser.psStore L ps) (somes nodes) ->
    goodRanges lines (AbstractParser.psStore L ps) ->
    goodRanges lines (AbstractParser.psStore L ps').
Proof.
  intros Hres.
  induction Hres as [| sym r rng state ranges nodes Hsym Hspan Hres IH
                     | sym r rng t x state ranges nodes Hsym Hspan R1 R2 R3 R4 R5 Hres IH];
    intros ntRanges ps ps' Hok Hnd H Hinv Hn.
  - simpl in H. injection H as <-. exact Hn.
  - inversion Hok as [| s1 st2 Hs Hoks]; subst. clear Hok.
    cbn [AbstractParser.recurseChildren] in H.
    destruct sym as [t | n].
    + destruct ntRanges as [| q ntRanges]; [injection H as <-; exact Hn |].
      eapply IH; eauto.
    + exfalso. destruct nt, n; simpl in Hs, Hsym; try contradiction;
        try (destruct Hs; discriminate); discriminate.
  - inversion Hok as [| s1 st2 Hs Hoks]; subst. clear Hok.
    cbn [AbstractParser.recurseChildren] in H.
    rewrite somes_cons_some in Hinv, Hnd.
    assert (Hnd' : NoDup (somes nodes)) by now inversion Hnd.
    destruct sym as [t0 | n].
    + destruct ntRanges as [| q ntRanges]; [injection H as <-; exact Hn |].
      eapply IH; eauto. eapply recInv_drop; exact Hinv.
    + assert (Hfun : inFunction n = true -> t = FunctionsT).
      { destruct nt, n; simpl in Hs, Hsym; try contradiction;
          try (destruct Hs; discriminate); try discriminate;
          intros; congruence. }
      destruct ntRanges as [| q ntRanges]; [injection H as <-; exact Hn |].
      destruct q as [q |]; [| discriminate].
      destruct (rec n x q (depth + 1)%Z ps) as [ps1 |] eqn:E; [| discriminate].
      cbn [bind] in H.
      pose proof Hinv as (Q1 & Q2 & Q3 & Q4 & Q5).
      destruct (Q5 x ltac:(now left)) as (X1 & X2 & X3).
      destruct (Q3 x ltac:(lia)) as [Htx Hrx].
      assert (Hpre : shapePre cb n x (AbstractParser.psStore L ps)).
      { split; [lia |]. split.
        - rewrite Htx. now apply Hfresh.
        - intros Hin Hcb. rewrite <- Htx in R1.
          specialize (Hfun Hin). subst t.
          destruct (X3 R1 Hcb) as (g & G1 & G2 & G3 & G4).
          split; [exact R1 |]. exists g. auto. }
      destruct (Hrec _ _ _ _ _ _ E Q1 Hpre) as [S1 S2].
      pose proof (Hgood _ _ _ _ _ _ E Q1 Hpre Hn) as Hn1.
      eapply (IH _ _ _ Hoks Hnd' H); [| exact Hn1].
      eapply (recInv_step L nt X st1 L0); [.. | exact Hinv | | | exact S1 | exact S2]; eauto.
      * now inversion Hnd.
      * intros Hin. rewrite R1. f_equal. auto.
Qed.

End RecurseGood.

(* ================================================================== *)
(** ** [parseNonTerminal] keeps the positions *)

Section ParseGood.
Local Open Scope nat_scope.
Variable L : Language.
Hypothesis HF : FactoriesOk L.
Let cb := isCommentBeforeFunction L.
Variable p : ParserBase.
Variable lines : list string.
Hypothesis Hfront : frontOk p.
Hypothesis Hmap : positionMap p = linePositions 0 lines ++ [mkIndex (List.length lines) 0].

Lemma parseNonTerminal_good (fuel : nat) :
  keepsGood L lines (AbstractParser.parseNonTerminal L fuel p).
Proof.
  induction fuel as [| fuel IH]; intros nt X tokRange depth ps ps' H Hinv Hpre Hn;
    [discriminate |].
  pose proof (parseNonTerminal_shape L HF p fuel) as Hshape.
  fold cb in Hinv, Hpre |- *.
  rewrite parseNonTerminal_S in H.
  destruct (AbstractParser.detectSymbols L p nt tokRange depth (AbstractParser.psDet L ps))
    as [[acc det] |] eqn:Edet; [| discriminate].
  cbn [bind] in H.
  destruct (detectSymbols_spec _ _ _ _ _ _ _ _ Edet) as [(A1 & A2 & A3) Hvalid].
  clear Edet.
  set (st0 := AbstractParser.psStore L ps) in *.
  destruct (AbstractParser.resolveAll L p (AbstractParser.state acc)
              (AbstractParser.symbolRange acc) (AbstractParser.nodeCreationInformationArr acc)
              st0) as [[st1 nodes] |] eqn:Eres; [| discriminate].
  cbn [bind] in H.
  destruct (resolveAll_spec L HF _ _ _ _ _ _ _ A1 A3 Eres) as (Hext & Hseq & Hres).
  clear Eres.
  destruct Hpre as (HX & HXtag & Hlift).
  assert (Hl01 : List.length st0 <= List.length st1) by apply Hext.
  assert (Hin_fresh : forall x, In x (somes nodes) <-> List.length st0 <= x < List.length st1).
  { intros x. rewrite Hseq, in_seq. lia. }
  assert (Hnew : forall id, List.length st0 <= id < List.length st1 ->
             tagOf st1 id <> Some FunctionGroupsT /\ parentOf st1 id = None
             /\ childrenOf st1 id = []).
  { intros id Hid. apply Hin_fresh in Hid.
    destruct (Resolved_In _ _ _ _ _ _ Hres Hid) as (sym & t & S1 & S2 & S3 & S4 & S5).
    split; [| auto]. rewrite S2, <- S1. apply symTag_not_group. }
  assert (Hfresh : forall id, List.length st0 <= id < List.length st1 ->
             tagOf st1 id <> Some FunctionGroupsT) by (intros; now apply Hnew).
  assert (Hinv1 : shapeInv cb st1).
  { eapply shapeInv_resolved; eauto. intros id Hid.
    destruct (Hnew id Hid) as (N1 & N2 & N3). auto. }
  assert (Hn1 : goodRanges lines st1).
  { eapply goodRanges_extends; [exact Hext | | exact Hn].
    intros y Hy. apply Hin_fresh in Hy.
    destruct (Resolved_range p _ _ _ _ _ Hres Hy) as (i & r & rng & Q1 & Q2 & Q3).
    rewrite Q3. eapply tokenSpanRange_good; eauto. }
  destruct Hext as [_ Hv01].
  assert (HXtag1 : tagOf st1 X <> Some FunctionGroupsT).
  { destruct (Hv01 X HX) as [-> _]. exact HXtag. }
  assert (Hlift1 : inFunction nt = true -> cb = false -> liftable st1 X).
  { intros H1 H2. eapply liftable_kept; [exact (Hlift H1 H2) | lia | |].
    - intros id Hid. destruct (Hv01 id Hid) as (B1 & _ & B3 & _). auto.
    - intros g Hg. destruct (Hlift H1 H2) as (_ & g' & G1 & G2 & _).
      assert (g' = g) by congruence. subst g'.
      apply (Hv01 g). eapply tagOf_Some; eauto. }
  destruct (NonTerminal_eqb nt FUNCTIONS) eqn:Ent.
  - (* a function: its declaration and its body *)
    assert (nt = FUNCTIONS) by (destruct nt; try discriminate; reflexivity). subst nt.
    destruct (AbstractParser.getFirstLast (AbstractParser.state acc)) as [first last] eqn:Efl.
    destruct (Js.nthZ nodes first) as [[D |] |] eqn:ED; try discriminate.
    destruct (Js.nthZ (AbstractParser.ntParseRange acc) first) as [[declarationRange |] |]
      eqn:EDR; try discriminate.
    destruct (Js.nthZ (AbstractParser.ntParseRange acc) last) as [[bodyRange |] |] eqn:EB;
      try discriminate.
    destruct (Heap.addChild st1 X D) as [st2 |] eqn:Eadd; [| discriminate].
    cbn [bind] in H. apply addChild_view in Eadd.
    destruct (AbstractParser.parseNonTerminal L fuel p FUNCTION_DECLARATION D declarationRange
                (depth + 1)%Z (AbstractParser.mkPState L st2 det)) as [ps3 |] eqn:Edecl;
      [| discriminate].
    cbn [bind] in H.
    assert (HD : List.length st0 <= D < List.length st1).
    { apply Hin_fresh. apply In_somes. eapply nthZ_In; eauto. }
    destruct (Hnew D HD) as (D1 & D2 & D3).
    assert (Hinv2 : shapeInv cb st2) by (eapply shapeInv_Added; eauto).
    assert (Hn2 : goodRanges lines st2) by (eapply goodRanges_Added; eauto).
    assert (Hlen2 : List.length st2 = List.length st1) by apply Eadd.
    assert (Hpre2 : shapePre cb FUNCTION_DECLARATION D st2).
    { split; [lia |]. split; [| discriminate].
      rewrite (Added_tagOf _ _ _ _ _ Eadd). exact D1. }
    destruct (Hshape _ _ _ _ _ _ Edecl Hinv2 Hpre2) as [Hinv3 [Hl3 Hf3]].
    pose proof (IH _ _ _ _ _ _ Edecl Hinv2 Hpre2 Hn2) as Hn3.
    cbn [AbstractParser.psStore] in Hinv3, Hl3, Hf3, Hn3.
    set (st3 := AbstractParser.psStore L ps3) in *. fold cb in Hinv3, Hf3.
    assert (Hold3 : forall id, id < List.length st0 ->
              tagOf st3 id = tagOf st0 id /\ rangeOf st3 id = rangeOf st0 id
              /\ parentOf st3 id = parentOf st0 id /\ rankOf st3 id = rankOf st0 id
              /\ (id <> X -> childrenOf st3 id = childrenOf st0 id)).
    { intros id Hid.
      destruct (Hf3 id ltac:(lia)) as (B1 & B2 & B3 & B4 & B5).
      destruct (Hv01 id Hid) as (C1 & C2 & C3 & C4 & C5).
      rewrite B1, B2, B3, B4.
      rewrite (Added_tagOf _ _ _ _ _ Eadd), (Added_rangeOf _ _ _ _ _ Eadd).
      rewrite (Added_parentOf_other _ _ _ _ _ Eadd), (Added_rankOf_other _ _ _ _ _ Eadd)
        by lia.
      repeat (split; [assumption |]).
      intros Hne. rewrite B5.
      - rewrite (Added_childrenOf_other _ _ _ _ _ Eadd) by assumption. exact C5.
      - intros [-> | (T1 & _)]; [lia | discriminate]. }
    assert (Hpre3 : shapePre cb FUNCTION_BODY X st3).
    { split; [lia |]. split.
      - destruct (Hold3 X HX) as [-> _]. exact HXtag.
      - intros _ Hcb. eapply liftable_kept; [exact (Hlift eq_refl Hcb) | lia | |].
        + intros id Hid. destruct (Hold3 id Hid) as (B1 & _ & B3 & _). auto.
        + intros g Hg. destruct (Hlift eq_refl Hcb) as (T1 & g' & G1 & G2 & _).
          assert (g' = g) by congruence. subst g'.
          apply Hold3; [eapply tagOf_Some; eauto |]. intros ->. congruence. }
    exact (IH _ _ _ _ _ _ H Hinv3 Hpre3 Hn3).
  - (* the other non-terminals: the nodes are added, then parsed into *)
    assert (Hnt : nt <> FUNCTIONS) by (intros ->; discriminate).
    pose proof (validate_allowed _ _ Hvalid Hnt) as Hallowed.
    destruct (AbstractParser.attachChildren L nt X (AbstractParser.state acc) nodes st1)
      as [st2 |] eqn:Eatt; [| discriminate].
    cbn [bind] in H.
    unfold AbstractParser.attachChildren in Eatt.
    match type of Eatt with
    | bind (AbstractParser.attachLoop _ _ ?c1 ?c2 _ _ _) _ = _ =>
        set (check := c1) in *; set (checkFirst := c2) in *
    end.
    destruct (AbstractParser.attachLoop nt X check checkFirst (AbstractParser.state acc) nodes
                (AbstractParser.mkAttachState st1 None true)) as [a |] eqn:Eloop;
      [| discriminate].
    cbn [bind] in Eatt.
    assert (Hcheck : check = true -> cb = true).
    { unfold check. fold cb. intros E. apply andb_true_iff in E. apply E. }
    assert (HcheckFirst : checkFirst = true -> cb = false /\ inFunction nt = true).
    { unfold checkFirst. fold cb. intros E. apply andb_true_iff in E. destruct E as [E1 E2].
      apply negb_true_iff in E1. split; [exact E1 |].
      destruct nt; try discriminate; reflexivity. }
    assert (Hstart : attachInv cb nt X st1 (List.length st0) check st1 None true nodes).
    { split; [| split; [| split]].
      - rewrite app_nil_r. unfold coreInv.
        split; [apply Hinv1 |]. split; [lia |]. split; [auto |]. split; [auto |].
        split; [intros id Hid; now apply Hnew |]. split; [| split].
        + intros x Hx. apply Hin_fresh in Hx. split; [exact Hx | now apply Hnew].
        + intros y Hy Hn'. exfalso. apply Hn'. now apply Hin_fresh.
        + intros g Hg _. now apply Hinv1.
      - rewrite Hseq. apply seq_NoDup.
      - discriminate.
      - intros _. exact Hlift1. }
    destruct (attachLoop_good lines cb nt X st1 (List.length st0) check checkFirst
                Hl01 HX Hfresh HXtag1 Hcheck HcheckFirst _ _ _ _
                (Resolved_symTag_none _ _ _ _ _ Hres) Eloop Hstart Hn1) as [Hend Hnend].
    assert (Hadd : match AbstractParser.danglingMultilineComment a with
                   | Some d => Added (AbstractParser.atStore a) X d st2
                   | None => st2 = AbstractParser.atStore a
                   end).
    { destruct (AbstractParser.danglingMultilineComment a) as [d |].
      - now apply addChild_view.
      - now inv Eatt. }
    assert (Hcore : coreInv cb nt X st1 (List.length st0) st2 [] None).
    { eapply (attach_end cb nt X st1 (List.length st0) check); [.. | exact Hend | exact Hadd];
        eauto. }
    assert (Hn2 : goodRanges lines st2).
    { destruct (AbstractParser.danglingMultilineComment a) as [d |].
      - eapply goodRanges_Added; eauto.
      - now subst st2. }
    clear Eatt Eloop Hend Hstart Hnend Hadd.
    assert (Hrec0 : recInv cb nt X st1 (List.length st0) st2 (somes nodes)).
    { apply coreInv_recInv; [exact Hcore |]. intros y Hy. now apply Hin_fresh. }
    eapply (recurseChildren_good L lines nt X st1 (List.length st0) Hl01 HX Hfresh p
              _ Hshape IH);
      [exact Hres | exact Hallowed | | exact H | exact Hrec0 | exact Hn2].
    rewrite Hseq. apply seq_NoDup.
Qed.

End ParseGood.
(* ================================================================== *)
(** ** The texts of the nodes of a parsed tree *)

Section ParsedGood.
Local Open Scope nat_scope.

Lemma parse_good (L : Language) (det : DetState L) (codeLines : list string)
  (tree : AbstractSyntaxTree.t) :
  FactoriesOk L -> freshTokenizer L ->
  AbstractParser.parse L det codeLines = Ok tree ->
  AbstractSyntaxTree.sourceLines tree = codeLines
  /\ goodRanges codeLines (AbstractSyntaxTree.store tree).
Proof.
  intros HF Hfresh H. unfold AbstractParser.parse in H.
  destruct (AbstractParser.isEmptyInput codeLines) eqn:Eempty; [discriminate |].
  destruct (AbstractParser.tokenizeLines L det codeLines) as [p |] eqn:Etok; [| discriminate].
  cbn [bind] in H.
  pose proof (tokenizeLines_front _ _ _ _ Hfresh Etok) as Hfront.
  destruct (tokenizeLines_map _ _ _ _ Etok) as (Hlines & _ & Hmap).
  destruct (preparse L det codeLines (sourceTokens p)) as [det1 |]; [| discriminate].
  unfold Heap.alloc in H. cbn [bind] in H.
  match type of H with
  | bind ?m _ = _ => destruct m as [ps |] eqn:E; [| discriminate]
  end.
  cbn [bind] in H. injection H as <-.
  cbn [AbstractSyntaxTree.store AbstractSyntaxTree.sourceLines].
  split; [exact Hlines |].
  assert (Hmax : Utils.getMaxRange (sourceLines p) = mkRange 0 0 (List.length codeLines) 0).
  { rewrite Hlines. destruct codeLines; [discriminate | reflexivity]. }
  apply (parseNonTerminal_good L HF p codeLines Hfront Hmap _ _ _ _ _ _ _ E).
  - cbn [AbstractParser.psStore app]. split.
    + intros q i x Hx. destruct q as [| q]; [destruct i; discriminate |].
      destruct q; destruct i; discriminate.
    + intros g Hg. destruct g as [| g]; [discriminate |]. destruct g; discriminate.
  - cbn [AbstractParser.psStore app List.length]. split; [simpl; lia |].
    split; discriminate.
  - cbn [AbstractParser.psStore app]. intros id Hid. simpl in Hid.
    assert (id = 0) by lia. subst id. unfold rangeOf. simpl. rewrite Hmax.
    split.
    + unfold charPos. simpl. destruct codeLines; [discriminate | simpl; lia].
    + now right.
Qed.

(** The text of a range that starts at a character, ends at a position
    and does not end before it starts. *)
Lemma goodRange_text (lines : list string) (r : Range) :
  goodRange lines r ->
  idxLe (Utils.rangeToStartIndex r) (Utils.rangeToEndIndex r) ->
  exists s,
    AbstractSyntaxTree.getSourceTextFromRange lines r = Ok s
    /\ Js.chars s = flatSlice lines (offset lines (start_line r) (start_character r))
                              (offset lines (end_line r) (end_character r)).
Proof.
  intros [[S1 S2] He] Hle. apply idxLe_iff in Hle.
  unfold Utils.rangeToStartIndex, Utils.rangeToEndIndex in *. cbn [line character] in *.
  assert (Hret : exists s, AbstractSyntaxTree.getSourceText lines (start_line r)
                             (start_character r) (end_line r) (end_character r) = Ok s).
  { apply getSourceText_returns.
    destruct He as [[E1 E2] | E]; cbn [line character] in *.
    - repeat split; try lia.
    - injection E as E1 E2. repeat split; try lia. }
  destruct Hret as [s Hs]. exists s. split; [exact Hs |].
  now destruct (getSourceText_flat _ _ _ _ _ _ Hs) as (_ & _ & ->).
Qed.

Lemma good_readable (tree : AbstractSyntaxTree.t) :
  rangesNest (AbstractSyntaxTree.store tree) ->
  goodRanges (AbstractSyntaxTree.sourceLines tree) (AbstractSyntaxTree.store tree) ->
  textsReadable tree.
Proof.
  intros [H1 _] Hg id n Hn.
  assert (Hid : nth_error (AbstractSyntaxTree.store tree) id = Some n).
  { unfold Heap.get in Hn. destruct (nth_error _ id); [congruence | discriminate]. }
  assert (Hlt : id < List.length (AbstractSyntaxTree.store tree))
    by (apply nth_error_Some; congruence).
  specialize (H1 id Hlt). specialize (Hg id Hlt).
  unfold startOf, endOf, rangeOf in H1, Hg. rewrite Hid in H1, Hg.
  now apply goodRange_text.
Qed.

End ParsedGood.

(** X25. The text of every node can be read. After every successful
    parse (by a parser whose factories return fresh nodes of their class
    and whose tokenizer starts fresh, as the Python and the TypeScript
    parser), the range of every node starts at a character of the source
    and ends at a position of the source, so that
    [getSourceTextFromRange] returns on it, with the characters of the
    source between the two ends of the range. *)
Theorem text_of_every_node_can_be_read :
  (forall (L : Language) (det : DetState L) (codeLines : list string)
          (tree : AbstractSyntaxTree.t),
      FactoriesOk L -> freshTokenizer L ->
      AbstractParser.parse L det codeLines = Ok tree -> textsReadable tree)
  /\ (forall (codeLines : list string) (tree : AbstractSyntaxTree.t),
         PythonParser.parse codeLines = Ok tree -> textsReadable tree)
  /\ (forall (codeLines : list string) (tree : AbstractSyntaxTree.t),
         TypeScriptParser.parse codeLines = Ok tree -> textsReadable tree).
Proof.
  assert (G : forall (L : Language) (det : DetState L) (codeLines : list string)
                     (tree : AbstractSyntaxTree.t),
             FactoriesOk L -> freshTokenizer L ->
             AbstractParser.parse L det codeLines = Ok tree -> textsReadable tree).
  { intros L det codeLines tree HF Hfresh H.
    destruct (parse_good _ _ _ _ HF Hfresh H) as [Hlines Hgood].
    apply good_readable; [eapply parse_nest; eauto | now rewrite Hlines]. }
  split; [exact G |]. split.
  - intros codeLines tree H. apply python_parse_inv in H. destruct H as [det H].
    exact (G _ _ _ _ python_factories python_fresh H).
  - intros codeLines tree H. apply typescript_parse_inv in H. destruct H as [det H].
    exact (G _ _ _ _ typescript_factories typescript_fresh H).
Qed.

Lemma text_of_every_node_can_be_read_witness :
  exists tree : AbstractSyntaxTree.t,
    PythonParser.parse pythonDocLines = Ok tree /\ textsReadable tree.
Proof.
  eexists. split; [vm_compute; reflexivity |].
  apply (proj1 (proj2 text_of_every_node_can_be_read) pythonDocLines).
  vm_compute. reflexivity.
Defined.
